(* ===== verification/_CoqProject ===== *)
-Q . S2P
Prelude.v
GoIO.v
Cipher.v
ToyCrypto.v
Salt.v
Packet.v
SlicePool.v
Wire.v
Writer.v
StreamReader.v
Stream.v
Replay.v
PrivateNet.v
CipherList.v
Metrics.v
KeyFinding.v
TestHelpers.v
Tcp.v
TcpSpec.v
TcpExamples.v
TcpTotal.v
Connections.v
Probes.v
TcpServer.v
Udp.v
UdpSpec.v
NatMap.v
Api.v
TrafficQueue.v
Server.v
Client.v
PromMetrics.v
Endpoints.v
NetStream.v
Helpers.v
Logging.v
Device.v
Startup.v
Tuning.v
Session.v
UdpSession.v
Accounting.v
History.v
Lifecycle.v
Panel.v
Deployment.v
