(* ===== verification/Prelude.v ===== *)
(** * A verification development for ssgo, a Shadowsocks server in Go

    ** The program

    The server listens on one TCP and one UDP port per group of users.  On TCP
    ([service/tcp.go]) it reads 50 bytes, searches the port's cipher list
    ([service/cipher_list.go]) for the key that authenticates them, refuses
    repeated handshakes ([service/replay.go]), reads the target address from the
    decrypted stream ([shadowsocks/stream.go]), connects to it if the address
    policy allows ([net/private_net.go]) and relays in both directions; a
    connection without a valid key is read to its end and never answered.  On UDP
    ([service/udp.go]) every packet ([shadowsocks/packet.go]) carries its salt
    and target; a NAT table keeps a socket and a goroutine per client.  The
    ciphers ([shadowsocks/cipher.go]), the salts ([shadowsocks/salt.go],
    [service/server_salt.go], [shadowsocks/client/salt.go]) and the buffer pool
    ([internal/slicepool]) are shared.  The main loop ([cmd/quick_ss/main.go])
    polls the users from the panel ([api]), reconciles ports and keys, and
    reports the traffic and the state of the machine ([utils]); the services
    count what they do in [service/metrics].  [shadowsocks/client] and
    [net/stream.go] are the client's side of the protocol.

    ** The files, in dependency order

    - Prelude, GoIO: bytes, fixed-width integers, slices, errors and the outcome
      of a call that may panic; readers as a class with the contract of
      [io.Reader] ([ReaderLaws]), connections that deliver arbitrary segments,
      sinks that record what was written.
    - Cipher: [shadowsocks/cipher.go].  ToyCrypto is the executable instance of
      its parameters, for witnesses only.
    - Salt: the three salt generators.  Packet: [shadowsocks/packet.go] over the
      memory that source and destination may share.  SlicePool: the pool as a
      transition system over buffer addresses.
    - Wire is the stream format and the reference decoder; Writer and
      StreamReader are the two halves of [shadowsocks/stream.go], each with the
      struct's fields and one definition per method; Stream proves them against
      Wire and composes them.
    - Replay, PrivateNet, CipherList, Metrics: one Go file each, their state a
      record with one definition per method.
    - KeyFinding and Tcp: [findAccessKey] and [handleConnection] of
      [service/tcp.go].  A connection is handled by a function of what the
      environment does (the client's bytes, the dialing candidates, the clock) to
      the list of its effects and the final states of both connections.  TcpSpec
      holds the theorems, TcpExamples runs them, and TcpTotal shows that the
      handler ends well on any input, with the fuel its loops have.  TcpServer:
      [Serve], [Stop] and [GracefulStop] as a step relation over any number of
      callers and handlers.
    - Connections: the handlers of all ports interleaved at the three places
      where they touch what they share (the snapshot and the mark of a port's
      list, the replay cache), with reloads and the packet service in between.
      Probes: what the defences against probes come to in that system.
    - Udp and UdpSpec: a packet from a client, a packet from a target, and the
      deadlines of a NAT connection.  NatMap: the table, its goroutines, [Serve]
      and the stops as a step relation over a shared memory and a clock.
    - Api, Startup and Panel: [api/model.go] and [api/api.go], with [RunSSServer]
      and the report loops of [main.go]; the database's queries and the body of
      a report.  TrafficQueue: the queue of traffic records that [AddRepo] and
      [CheckRepo] share without a lock, each access to it a step, over the arrays
      behind Go's slices.  Server: ports, sockets, reloads and polling.
    - Client: the dialer and the packet connection of [shadowsocks/client].
      Endpoints: what they connect through.  NetStream: [WrapConn] and [Relay] of
      [net/stream.go].
    - PromMetrics: the Prometheus side of [service/metrics/metrics.go].  Helpers,
      Device, Tuning: [utils], with the number parser and the sizes it prints,
      and [cmd/quick_ss/youhua.go], with the text of its script.  Logging:
      [mylog].  TestHelpers: what the repository's tests share.
    - The composition.  Session puts the client of Client against the handler of
      Tcp.  UdpSession is the whole of [timedCopy], any sequence of packets
      through the loop of [Serve], and a datagram from Client through Udp and
      back.  Accounting is the interface of the metrics as a class, its two
      implementations, and the two reports of every connection and packet.
      History is a start and any number of polls over Server.  Lifecycle runs the
      main loop together with the services of its ports, TcpServer and NatMap,
      over the interface [Service].  Deployment is
      [main], the services [startPort] makes, and a user of the panel from the
      reload to the bytes of a session and the datagrams of an exchange.

    ** What the theorems show

    - The stream: a writer under every interleaving of its methods with the
      delayed [Flush] puts a salt and well-formed chunks on the wire
      ([Stream.writer_wire]); the reader computes the reference decoder on every
      input, good or bad ([Stream.reader_decodes], [Stream.reads_decode]); both
      compose to the identity ([Stream.stream_roundtrip]); truncation is detected
      except between chunks; nonces do not repeat.
    - Packets: [Packet.pack_unpack] and [Packet.unpack_errors]; ciphers, key
      derivation and salts: [Cipher], [Salt]; buffers are never shared:
      [SlicePool.pool_exclusive].
    - TCP: a valid client is served exactly ([TcpSpec.valid_client_served]), a
      probe learns nothing ([TcpSpec.probe_resistance]), every connection is
      closed last and reported once, the target reached is an accepted address
      and refused ones are as if they were not there ([TcpSpec.handler_safety]); the key search tries the
      right keys in the right order ([KeyFinding], [CipherList]); repeated
      handshakes are refused ([Replay]); on arbitrary bytes the handler returns,
      without a panic, and more fuel changes nothing ([TcpTotal.handler_total]);
      the life of the listener is [TcpServer.tcp_lifecycle] and
      [TcpServer.tcp_shutdown].
    - Many connections: in every interleaving, each finished connection did what
      the handler alone does on the list at its snapshot and the cache at its
      check, and the shared cache is that of the handlers in the order of their
      checks ([Connections.connections_linearize]).  So a repeated handshake is
      turned away on every port ([Probes.replay_defence]), as is a stream that
      begins with a salt of the server ([Probes.reflection_defence]), and a valid
      client is served whatever goes on next to it, in every infinite execution
      that is fair to its handler ([Probes.concurrent_client_served]).
    - UDP: [UdpSpec.udp_packet_spec], [UdpSession.timedCopy_spec],
      [UdpSpec.natconn_deadline], [NatMap.nat_lifecycle], [NatMap.nat_shutdown];
      a client keeps the key its connection was opened with, and its packets are
      accounted to it ([UdpSession.udp_association]).
    - Server and panel: a reload reaches exactly the users' ports and keys, or
      fails and leaves every port that is still wanted as it was
      ([Server.reload_success], [Server.reload_failure]); over any number of polls the server stays well
      formed and serves exactly the users last told ([History.server_history]);
      a port served has its services on their sockets, and those of a removed
      port end, in every interleaving ([Lifecycle.process_lifecycle]);
      traffic is conserved up to the reports while additions do not overlap, and
      what a report holds is sound even where they do
      ([TrafficQueue.traffic_conserved]), it agrees
      with the metrics ([Accounting.billing_matches_metrics]), and is read by the
      panel as it was reported ([Panel.panel_reads_report]); the machine's report,
      and exactly when it is made ([Device.device_report]).
    - End to end: what the application writes into a dialed connection is what
      the target receives, and back ([Session.tcp_end_to_end]); datagrams
      ([UdpSession.udp_end_to_end]); and all of it for a user of the panel on the
      services the process made ([Deployment.provisioned_user],
      [Deployment.provisioned_user_udp]).
    - Relay: it delivers prefixes, closes halves only after everything, and ends
      once both peers do ([NetStream.relay_delivers],
      [NetStream.relay_terminates]).

    ** Parameters

    Code that is not in the repository is a class or an argument, with its
    documented behaviour as laws and a concrete instance for the witnesses:
    the primitives of cryptography ([CryptoOps], [CryptoLaws]; instance in
    ToyCrypto), the address format of go-shadowsocks2 ([SocksOps], [SocksLaws],
    [UdpOps], [UdpLaws]; instance in TcpExamples and UdpSpec), Prometheus
    ([PromOps], [PromLaws]), gzip and JSON ([PanelOps], [JsonOps], [GzipOps],
    [GzipLaws], [MarshalOps]), the database driver ([SqlOps]), the shell
    ([ShellOps]).  What the operating system, the database, the panel, the random
    source, the clock, the scheduler and the order of a Go map decide is an
    argument or a choice of a step.  No law speaks of secrecy: safety against
    probes is about what is sent, not about what can be guessed.

    ** Bounds and fuel

    Loops over a reader have as fuel one more than [rd_fuel], the number of
    reads before its error that [ReaderLaws] grants; the lemmas
    [ReadFull_loop_spec], [Discard_loop_spec] and [Copy_loop_spec] show that it is
    enough.  [WriteTo] has two more than the bytes left, [LazyWrite] the length
    plus two, the reference decoder one more than the length: each round consumes
    a byte or ends ([TcpTotal.WriteTo_loop_fuel], [TcpTotal.ReadFrom_loop_fuel]).  A stream has fewer than 2^95 chunks ([few]), so that its
    12-byte nonces do not repeat.  Counters are [int64], [uint64] or [uint32]
    with their wrap-around; series of Prometheus are exact up to 2^53, the
    integers of a float64.  Step relations have no bound: liveness is a measure
    that decreases at every step, with a step possible while it is positive; of
    one handler among others, it is a measure that no step of another raises,
    under a scheduler that does not pass the handler over for ever.

    ** Behaviours worth knowing

    The development models the code as it is; where it does not do what it
    means to, a lemma shows it: a listener that stays open when its UDP port
    cannot be ([Server.startPort_leak]), users missed by a poll
    ([Server.poll_missed]), users cut off by a database error
    ([Api.GetUsers_cut]), records lost or doubled by the unsynchronised report
    loops ([TrafficQueue.AddRepo_lost], [TrafficQueue.AddRepo_race],
    [Startup.CheckWwwRepo_tick_spec]), speeds that
    wrap around ([Device.device_report]), a tuning run that is forgotten
    ([Tuning.YouhuaRun_forgotten]), a read of no bytes from an empty chunk
    ([Stream.Read_empty_chunk]), answers over UDP that are never billed
    ([Accounting.billing_matches_metrics]).

    ** Not modelled

    The build tools ([tools.go]), which are imports only.  The encoding of JSON,
    the compressor and the HTTP client are parameters.  Without a definition:
    interfaces of Go, which become classes or records of the code behind them
    only where two implementations meet; [newNATmap] and the casts between
    strings and bytes, whose content is that of a constructor; the buckets of the
    histograms; the format of the go-logging backend ([init] of [main.go]); the
    wait of [main] for a signal; [GetStatrtTime], which prints the time of the
    boot.  The calls that log are left out of the other files, as they decide
    nothing there.  Goroutines share memory without synchronisation in [api]
    only: TrafficQueue has the accesses to the traffic records one by one, in
    every order, a record being written or read in one piece.  The queue of the
    website's records is used in the same way; its report is one step, in
    Startup.  In Server, and so in History and Deployment, a
    port's sockets are closed by [removePort] itself; where [Serve] was not yet
    called it is [Serve] that closes them, which Lifecycle shows. *)
From stdpp Require Export base list gmap strings.
From Stdlib Require Export ZArith Lia.
From Stdlib Require Import Strings.Byte.

(** ** Bytes

    A Go [byte] is an element of the 256-constructor type of the Standard
    Library; [byte_of_Z] is the conversion [byte(v)], which truncates. *)

Abbreviation byte := Byte.byte.
Abbreviation bytes := (list byte).

Definition byte_to_Z (b : byte) : Z := Z.of_N (Byte.to_N b).

Definition byte_of_Z (z : Z) : byte :=
  default Byte.x00 (Byte.of_N (Z.to_N (z mod 256))).

Definition zero : byte := Byte.x00.

Definition zeros (n : nat) : bytes := replicate n zero.

Definition bxor (a b : byte) : byte :=
  byte_of_Z (Z.lxor (byte_to_Z a) (byte_to_Z b)).

Definition band (a b : byte) : byte :=
  byte_of_Z (Z.land (byte_to_Z a) (byte_to_Z b)).

#[export] Instance byte_eq_dec : EqDecision byte := Byte.byte_eq_dec.

(** ** Fixed-width integers *)

Definition wrapU (w : Z) (z : Z) : Z := z mod 2 ^ w.
Definition uint16 : Z -> Z := wrapU 16.
Definition uint32 : Z -> Z := wrapU 32.
Definition uint64 : Z -> Z := wrapU 64.
(** Two's complement [int64] wrap-around. *)
Definition int64 (z : Z) : Z := (z + 2 ^ 63) mod 2 ^ 64 - 2 ^ 63.

(** [binary.BigEndian.PutUint16(b, v)] and [binary.BigEndian.Uint16(b)],
    the latter on the first two bytes of [b]. *)
Definition PutUint16 (v : Z) : bytes :=
  [byte_of_Z (Z.shiftr v 8); byte_of_Z v].

Definition nth_byte (b : bytes) (i : nat) : Z := byte_to_Z (nth i b zero).

Definition Uint16 (b : bytes) : Z :=
  Z.lor (nth_byte b 1) (Z.shiftl (nth_byte b 0) 8).

Definition Uint32 (b : bytes) : Z :=
  Z.lor (nth_byte b 3)
    (Z.lor (Z.shiftl (nth_byte b 2) 8)
       (Z.lor (Z.shiftl (nth_byte b 1) 16) (Z.shiftl (nth_byte b 0) 24))).

(** ** Slices

    [slice lo hi b] is [b[lo:hi]] for [lo <= hi <= len(b)]; [splice b off d]
    is [b] after [copy(b[off:], d)]. *)

Definition slice {A} (lo hi : nat) (b : list A) : list A :=
  take (hi - lo) (drop lo b).

Definition splice {A} (b : list A) (off : nat) (d : list A) : list A :=
  let n := length d `min` (length b - off) in
  take off b ++ take n d ++ drop (off + n) b.

(** ** Errors

    The error values the code compares with [==] are constructors of their
    own; [Wrapf] is [fmt.Errorf] with [%w], [Errorf] any other constructed
    error (including [fmt.Errorf] with [%v], which forgets its cause). *)
Inductive error : Type :=
| EOF
| ErrUnexpectedEOF
| ErrShortBuffer
| ErrShortPacket
| ErrTimeout
| ErrConn (code : nat)
| Errorf (msg : string)
| Wrapf (msg : string) (cause : error).

#[export] Instance error_eq_dec : EqDecision error.
Proof. solve_decision. Defined.

(** The result of a call that may also panic. *)
Inductive outcome (A : Type) : Type :=
| Ret (a : A)
| Err (e : error)
| Panic (msg : string).
Arguments Ret {A} a.
Arguments Err {A} e.
Arguments Panic {A} msg.

#[export] Instance outcome_ret : MRet outcome := fun A a => Ret a.
#[export] Instance outcome_bind : MBind outcome := fun A B f m =>
  match m with
  | Ret a => f a
  | Err e => Err e
  | Panic s => Panic s
  end.

(** ** Automation *)

Create HintDb go discriminated.
Create Rewrite HintDb go.

(** [go_lengths] normalises the lengths of list expressions. *)
Ltac go_lengths :=
  repeat (rewrite ?length_app, ?length_take, ?length_drop, ?length_replicate,
            ?length_cons, ?length_nil in * ).

(** [case_if] splits on the first conditional of the goal. *)
Ltac case_if :=
  match goal with
  | |- context [if ?b then _ else _] => destruct b eqn:?
  end.

(** ** Byte lemmas *)

Lemma byte_to_Z_range b : (0 <= byte_to_Z b < 256)%Z.
Proof.
  unfold byte_to_Z. pose proof (Byte.to_N_bounded b). lia.
Qed.

Lemma byte_to_of_Z z : byte_to_Z (byte_of_Z z) = (z mod 256)%Z.
Proof.
  unfold byte_of_Z, byte_to_Z.
  pose proof (Z.mod_pos_bound z 256 ltac:(lia)) as Hb.
  destruct (Byte.of_N (Z.to_N (z mod 256))) as [b|] eqn:E; simpl.
  - apply Byte.to_of_N in E. rewrite E, Z2N.id by lia. done.
  - apply Byte.of_N_None_iff in E. lia.
Qed.

Lemma byte_of_to_Z b : byte_of_Z (byte_to_Z b) = b.
Proof.
  unfold byte_of_Z. rewrite Z.mod_small by apply byte_to_Z_range.
  unfold byte_to_Z. rewrite N2Z.id, Byte.of_to_N. done.
Qed.

#[export] Instance byte_to_Z_inj : Inj (=) (=) byte_to_Z.
Proof.
  intros a b E. by rewrite <- (byte_of_to_Z a), <- (byte_of_to_Z b), E.
Qed.

Lemma byte_of_Z_mod z : byte_of_Z (z mod 256) = byte_of_Z z.
Proof. apply (inj byte_to_Z). by rewrite !byte_to_of_Z, Zmod_mod. Qed.

Lemma lxor_bound8 x y :
  (0 <= x < 256 -> 0 <= y < 256 -> 0 <= Z.lxor x y < 256)%Z.
Proof.
  intros Hx Hy. split; [apply Z.lxor_nonneg; lia|].
  destruct (Z.eq_dec (Z.lxor x y) 0) as [->|Hne]; [lia|].
  apply (Z.log2_lt_cancel _ 256). change (Z.log2 256) with 8%Z.
  pose proof (Z.log2_lxor x y ltac:(lia) ltac:(lia)).
  assert (Z.log2 x <= 7 /\ Z.log2 y <= 7)%Z as [? ?]; [|lia].
  split; (change 7%Z with (Z.log2 255); apply Z.log2_le_mono; lia).
Qed.

Lemma bxor_to_Z a b :
  byte_to_Z (bxor a b) = Z.lxor (byte_to_Z a) (byte_to_Z b).
Proof.
  unfold bxor. rewrite byte_to_of_Z, Z.mod_small; [done|].
  apply lxor_bound8; apply byte_to_Z_range.
Qed.

#[export] Instance bxor_assoc : Assoc (=) bxor.
Proof.
  intros a b c. apply (inj byte_to_Z). by rewrite !bxor_to_Z, Z.lxor_assoc.
Qed.

#[export] Instance bxor_comm : Comm (=) bxor.
Proof.
  intros a b. apply (inj byte_to_Z). by rewrite !bxor_to_Z, Z.lxor_comm.
Qed.

#[export] Instance bxor_left_id : LeftId (=) zero bxor.
Proof. intros a. apply (inj byte_to_Z). by rewrite bxor_to_Z. Qed.

#[export] Instance bxor_right_id : RightId (=) zero bxor.
Proof. intros a. by rewrite (comm_L bxor), (left_id_L zero bxor). Qed.

Lemma bxor_nilpotent a : bxor a a = zero.
Proof.
  apply (inj byte_to_Z). by rewrite bxor_to_Z, Z.lxor_nilpotent.
Qed.

#[export] Instance bxor_inj a : Inj (=) (=) (bxor a).
Proof.
  intros b c E.
  rewrite <- (left_id_L zero bxor b), <- (left_id_L zero bxor c).
  by rewrite <- (bxor_nilpotent a), <- !(assoc_L bxor), E.
Qed.

(** ** Integer lemmas *)

(** The two bytes of [PutUint16] give the value back, modulo [2^16]. *)
Lemma Uint16_PutUint16 v r :
  Uint16 (PutUint16 v ++ r) = uint16 v.
Proof.
  unfold Uint16, PutUint16, nth_byte, uint16, wrapU. simpl nth.
  rewrite !byte_to_of_Z.
  change 256%Z with (2 ^ 8)%Z. rewrite <- !Z.land_ones by lia.
  apply Z.bits_inj'. intros n Hn.
  rewrite Z.lor_spec, Z.shiftl_spec, !Z.land_spec by lia.
  destruct (Z.lt_decidable n 8).
  - rewrite (Z.testbit_neg_r _ (n - 8)), orb_false_r by lia.
    rewrite !Z.testbit_ones_nonneg by lia.
    by rewrite (proj2 (Z.ltb_lt n 8)), (proj2 (Z.ltb_lt n 16)) by lia.
  - rewrite Z.shiftr_spec, !Z.testbit_ones_nonneg by lia.
    rewrite (proj2 (Z.ltb_ge n 8)) by lia.
    rewrite andb_false_r, orb_false_l.
    replace (n - 8 + 8)%Z with n by lia. f_equal.
    destruct (Z.ltb_spec (n - 8) 8), (Z.ltb_spec n 16); lia.
Qed.

Lemma uint16_small v : (0 <= v < 65536)%Z -> uint16 v = v.
Proof. intros ?. unfold uint16, wrapU. by rewrite Z.mod_small. Qed.

Lemma length_PutUint16 v : length (PutUint16 v) = 2.
Proof. done. Qed.

Lemma PutUint16_uint16 v : PutUint16 (uint16 v) = PutUint16 v.
Proof.
  unfold PutUint16, uint16, wrapU. f_equal; [|f_equal]; apply (inj byte_to_Z);
    rewrite !byte_to_of_Z.
  - rewrite !Z.shiftr_div_pow2 by lia. change (2 ^ 8)%Z with 256%Z.
    change (2 ^ 16)%Z with 65536%Z. Z.to_euclidean_division_equations. lia.
  - change (2 ^ 16)%Z with 65536%Z. Z.to_euclidean_division_equations. lia.
Qed.

(** ** List lemmas *)

Section Slices.
Context {A : Type}.
Implicit Types b d : list A.

Lemma length_slice lo hi b :
  hi <= length b -> length (slice lo hi b) = hi - lo.
Proof. intros. unfold slice. rewrite length_take, length_drop. lia. Qed.

Lemma length_splice b off d :
  off <= length b -> length (splice b off d) = length b.
Proof.
  intros. unfold splice. simpl.
  rewrite !length_app, !length_take, length_drop. lia.
Qed.

Lemma splice_fit b off d :
  off + length d <= length b ->
  splice b off d = take off b ++ d ++ drop (off + length d) b.
Proof.
  intros. unfold splice. simpl.
  rewrite (Nat.min_l (length d)) by lia. by rewrite firstn_all.
Qed.

(** Reading back exactly what was written. *)
Lemma slice_splice b off d :
  off + length d <= length b ->
  slice off (off + length d) (splice b off d) = d.
Proof.
  intros. rewrite splice_fit by done. unfold slice.
  rewrite drop_app_length' by (rewrite length_take; lia).
  rewrite Nat.add_comm, Nat.add_sub. by rewrite take_app_length.
Qed.

(** Bytes below, and bytes above, a write are unchanged. *)
Lemma slice_splice_below b off d lo hi :
  hi <= off -> off + length d <= length b ->
  slice lo hi (splice b off d) = slice lo hi b.
Proof.
  intros. rewrite splice_fit by done. unfold slice.
  destruct (decide (hi <= lo)).
  { by replace (hi - lo) with 0 by lia. }
  rewrite drop_app_le by (rewrite length_take; lia).
  rewrite take_app_le by (rewrite length_drop, length_take; lia).
  rewrite skipn_firstn_comm, firstn_firstn. f_equal. lia.
Qed.

Lemma slice_splice_above b off d lo hi :
  off + length d <= lo -> off + length d <= length b ->
  slice lo hi (splice b off d) = slice lo hi b.
Proof.
  intros. rewrite splice_fit by done. unfold slice. f_equal.
  rewrite app_assoc. rewrite drop_app_ge by (rewrite length_app, length_take; lia).
  rewrite drop_drop. f_equal. rewrite length_app, length_take. lia.
Qed.

(** A slice that ends a write at its own end keeps its head. *)
Lemma slice_app lo mid hi b :
  lo <= mid <= hi -> slice lo hi b = slice lo mid b ++ slice mid hi b.
Proof.
  intros. unfold slice.
  replace (hi - lo) with ((mid - lo) + (hi - mid)) by lia.
  rewrite <- firstn_skipn with (n := mid - lo) (l := take (mid - lo + (hi - mid)) (drop lo b)).
  rewrite firstn_firstn, Nat.min_l by lia.
  rewrite skipn_firstn_comm, drop_drop. f_equal. f_equal; [lia|]. f_equal. lia.
Qed.

Lemma take_slice n b : take n b = slice 0 n b.
Proof. unfold slice. by rewrite drop_0, Nat.sub_0_r. Qed.

Lemma slice_nil lo hi b : hi <= lo -> slice lo hi b = [].
Proof. intros. unfold slice. by replace (hi - lo) with 0 by lia. Qed.

Lemma slice_full b : slice 0 (length b) b = b.
Proof. rewrite <- take_slice. by rewrite firstn_all. Qed.

End Slices.

(** [splice_lia]: linear arithmetic over the lengths of nested writes. *)
Ltac splice_lia := first [lia | rewrite length_splice; splice_lia].

#[export] Hint Rewrite @length_slice @length_splice @slice_splice
  @slice_splice_below @slice_splice_above using lia : go.

Lemma filter_all {A} (P : A -> Prop) `{forall x, Decision (P x)} (l : list A) :
  (forall x, x ∈ l -> P x) -> filter P l = l.
Proof.
  induction l as [|x l IH]; intros Hl; [done|].
  rewrite filter_cons_True by (apply Hl; left). f_equal. apply IH.
  intros y Hy. apply Hl. by right.
Qed.

Lemma concat_snoc {A} (ls : list (list A)) l :
  concat (ls ++ [l]) = concat ls ++ l.
Proof. rewrite concat_app. simpl. by rewrite app_nil_r. Qed.

(** ** Sums over lists

    [sum_by f l] is the sum of [f] over [l]; the counts of goroutines in a
    given state and the measures of the step relations are such sums. *)
Section Sums.
Context {A : Type}.
Implicit Types (f : A -> nat) (l : list A).

Fixpoint sum_by f l : nat :=
  match l with [] => 0 | x :: l => f x + sum_by f l end.

Lemma sum_by_app f l l' : sum_by f (l ++ l') = sum_by f l + sum_by f l'.
Proof. induction l as [|x l IH]; simpl; lia. Qed.

Lemma sum_by_snoc f l x : sum_by f (l ++ [x]) = sum_by f l + f x.
Proof. rewrite sum_by_app. simpl. lia. Qed.

Lemma sum_by_insert f l i x y :
  l !! i = Some x -> sum_by f (<[i := y]> l) + f x = sum_by f l + f y.
Proof.
  revert i. induction l as [|z l IH]; intros [|i] Hi; simplify_eq/=; [lia|].
  specialize (IH i Hi). lia.
Qed.

Lemma sum_by_lookup f l i x : l !! i = Some x -> f x <= sum_by f l.
Proof.
  intros Hi. pose proof (sum_by_insert f l i x x Hi).
  rewrite list_insert_id in * by done. revert i Hi H.
  induction l as [|z l IH]; intros [|i] Hi _; simplify_eq/=; [lia|].
  specialize (IH i Hi eq_refl). lia.
Qed.

Lemma sum_by_pos f l : 0 < sum_by f l -> exists i x, l !! i = Some x /\ 0 < f x.
Proof.
  induction l as [|z l IH]; simpl; intros Hs; [lia|].
  destruct (f z) eqn:E; [|exists 0, z; split; [done|lia]].
  destruct (IH ltac:(lia)) as (i & x & ? & ?). by exists (S i), x.
Qed.

Lemma sum_by_le f g l : (forall x, f x <= g x) -> sum_by f l <= sum_by g l.
Proof. intros Hf. induction l as [|x l IH]; simpl; [done|]. specialize (Hf x). lia. Qed.

Lemma elem_of_insert l i y x : x ∈ <[i := y]> l -> x = y \/ x ∈ l.
Proof.
  intros (j & Hj)%list_elem_of_lookup_1. apply list_lookup_insert_Some in Hj.
  destruct Hj as [(_ & -> & _)|(_ & Hj)]; [by left|right].
  by eapply list_elem_of_lookup_2.
Qed.

Lemma elem_of_snoc l y x : x ∈ l ++ [y] -> x ∈ l \/ x = y.
Proof. by intros [?|?%list_elem_of_singleton]%elem_of_app; [left|right]. Qed.

End Sums.

(** [1] if the flag is set. *)
Definition flag (b : bool) : nat := if b then 1 else 0.

(** ** Maps as collections *)

Definition values {K A} `{Countable K} (m : gmap K A) : list A := (map_to_list m).*2.

Lemma elem_of_values {K A} `{Countable K} (m : gmap K A) x :
  x ∈ values m <-> exists k, m !! k = Some x.
Proof.
  unfold values. rewrite list_elem_of_fmap. split.
  - intros ((k & d) & -> & Hk). exists k. by apply elem_of_map_to_list.
  - intros (k & Hk). exists (k, x). split; [done|]. by apply elem_of_map_to_list.
Qed.

Lemma elem_of_keys {K A} `{Countable K} (m : gmap K A) k :
  k ∈ (map_to_list m).*1 <-> is_Some (m !! k).
Proof.
  rewrite list_elem_of_fmap. split.
  - intros ((k' & x) & -> & Hk%elem_of_map_to_list). by exists x.
  - intros (x & Hk). exists (k, x). split; [done|]. by apply elem_of_map_to_list.
Qed.

(** ** [int64] arithmetic *)
Section Int64.
Local Open Scope Z_scope.

Lemma int64_add_l a b : int64 (int64 a + b) = int64 (a + b).
Proof.
  unfold int64.
  replace ((a + 2 ^ 63) mod 2 ^ 64 - 2 ^ 63 + b + 2 ^ 63)
    with ((a + 2 ^ 63) mod 2 ^ 64 + b) by lia.
  rewrite Z.add_mod_idemp_l by lia.
  by replace (a + 2 ^ 63 + b) with (a + b + 2 ^ 63) by lia.
Qed.

Lemma int64_id z : -2 ^ 63 <= z < 2 ^ 63 -> int64 z = z.
Proof. intros. unfold int64. rewrite Z.mod_small by lia. lia. Qed.

(** Equality of [int64] arithmetic: up to a multiple of 2^64. *)
Lemma int64_range z : -2 ^ 63 <= int64 z < 2 ^ 63.
Proof.
  unfold int64. pose proof (Z.mod_pos_bound (z + 2 ^ 63) (2 ^ 64)). lia.
Qed.

Lemma int64_idem z : int64 (int64 z) = int64 z.
Proof. apply int64_id, int64_range. Qed.

Lemma int64_congr z : exists q, int64 z = z + 2 ^ 64 * q.
Proof.
  exists (- ((z + 2 ^ 63) / 2 ^ 64)). unfold int64.
  pose proof (Z.div_mod (z + 2 ^ 63) (2 ^ 64)). lia.
Qed.

End Int64.
