(* ===== verification/GoIO.v ===== *)
(** * Streams: [io.Reader], [io.ReadFull], [io.MultiReader], [io.Writer]

    The interfaces of package [io] the program is written against.  A reader
    is a type with a [Read] step; the laws of [ReaderLaws] are the contract
    of [io.Reader] documented by the Go standard library, stated with two
    ghost observations: the bytes the reader has yet to deliver and the
    error that ends it.  [Conn] is a network connection that delivers its
    bytes in arbitrary segments, possibly returning its final error together
    with its last bytes. *)
From S2P Require Import Prelude.

(** ** Readers *)

Class Reader (R : Type) := {
  (** [Read(b)] with [len(b) = n]: the bytes placed in [b], the error, and
      the reader afterwards. *)
  rd_read : R -> nat -> bytes * option error * R;
  (** Ghost: what the reader still has to deliver. *)
  rd_bytes : R -> bytes;
  (** Ghost: the error that follows the last byte. *)
  rd_end : R -> error;
  (** Ghost: an upper bound on the number of calls before the error. *)
  rd_fuel : R -> nat;
}.

Class ReaderLaws (R : Type) `{Reader R} : Prop := {
  rd_read_len r n d e r' :
    rd_read r n = (d, e, r') -> length d <= n;
  rd_read_more r n d r' :
    rd_read r n = (d, None, r') ->
    rd_bytes r = d ++ rd_bytes r' /\ rd_end r' = rd_end r;
  rd_read_progress r n d r' :
    rd_read r n = (d, None, r') -> n <> 0 -> rd_fuel r' < rd_fuel r;
  rd_read_stop r n d x r' :
    rd_read r n = (d, Some x, r') ->
    rd_bytes r = d /\ x = rd_end r /\ rd_bytes r' = [] /\ rd_end r' = rd_end r;
}.

(** ** [io.ReadFull] *)

Section ReadFull.
Context {R : Type} `{Reader R}.

(** The loop of [io.ReadAtLeast] with [need] bytes missing and [acc] read;
    it runs out of fuel only on a reader that breaks its contract. *)
Fixpoint ReadFull_loop (fuel : nat) (r : R) (need : nat) (acc : bytes)
  : bytes * option error * R :=
  match need with
  | O => (acc, None, r)
  | _ =>
    match fuel with
    | O => (acc, Some (Errorf "out of fuel"), r)
    | S fuel =>
      let '(d, e, r') := rd_read r need in
      match e with
      | None => ReadFull_loop fuel r' (need - length d) (acc ++ d)
      | Some x =>
        if decide (need <= length d) then (acc ++ d, None, r')
        else if decide (acc ++ d <> [] /\ x = EOF)
        then (acc ++ d, Some ErrUnexpectedEOF, r')
        else (acc ++ d, Some x, r')
      end
    end
  end.

Definition ReadFull (r : R) (n : nat) : bytes * option error * R :=
  ReadFull_loop (S (rd_fuel r)) r n [].

End ReadFull.

(** The error of a read that ends after [got] instead of at a boundary. *)
Definition short_error (got : bytes) (x : error) : error :=
  if decide (got <> [] /\ x = EOF) then ErrUnexpectedEOF else x.

(** ** A network connection *)

Record Conn := MkConn { segs : list bytes; fin : error; eager : bool }.

Definition Conn_read (c : Conn) (n : nat) : bytes * option error * Conn :=
  match segs c with
  | [] => ([], Some (fin c), c)
  | s :: rest =>
    match drop n s with
    | [] =>
      let c' := MkConn rest (fin c) (eager c) in
      match rest with
      | [] => (take n s, (if eager c then Some (fin c) else None), c')
      | _ => (take n s, None, c')
      end
    | s' => (take n s, None, MkConn (s' :: rest) (fin c) (eager c))
    end
  end.

#[export] Instance Conn_reader : Reader Conn := {
  rd_read := Conn_read;
  rd_bytes c := concat (segs c);
  rd_end := fin;
  rd_fuel c := length (concat (segs c)) + length (segs c);
}.

(** A [bytes.Reader] over [p]. *)
Definition bytesReader (p : bytes) : Conn :=
  MkConn (match p with [] => [] | _ => [p] end) EOF false.

(** [io.MultiReader(bytes.NewReader(p), r)]. *)
Section MultiReader.
Context {R : Type} `{Reader R}.

Definition MultiReader_read (m : bytes * R) (n : nat)
  : bytes * option error * (bytes * R) :=
  match m with
  | ([], r) => let '(d, e, r') := rd_read r n in (d, e, ([], r'))
  | (p, r) => (take n p, None, (drop n p, r))
  end.

#[export] Instance MultiReader_reader : Reader (bytes * R) := {
  rd_read := MultiReader_read;
  rd_bytes m := fst m ++ rd_bytes (snd m);
  rd_end m := rd_end (snd m);
  rd_fuel m := length (fst m) + rd_fuel (snd m);
}.

End MultiReader.

(** ** Writers

    A [Sink] records every [Write] it accepted, in order; [plan] says how the
    coming calls end: [None] accepts everything, [Some (n, e)] accepts at most
    [n] bytes and returns the error [e]. An exhausted plan accepts. *)
Record Sink := MkSink { written : list bytes; plan : list (option (nat * error)) }.

Definition Sink_write (s : Sink) (p : bytes) : nat * option error * Sink :=
  match plan s with
  | Some (n, e) :: rest =>
    (n `min` length p, Some e, MkSink (written s ++ [take n p]) rest)
  | _ :: rest => (length p, None, MkSink (written s ++ [p]) rest)
  | [] => (length p, None, MkSink (written s ++ [p]) [])
  end.

(** The sink never fails. *)
Definition reliable (s : Sink) : Prop := Forall (fun o => o = None) (plan s).

(** ** Randomness

    [crypto/rand.Read(b)] on an entropy source: the next bytes of the source,
    or an error when the source fails. *)
Definition rand_Read (ent : bytes) (n : nat) : option (bytes * bytes) :=
  if decide (n <= length ent) then Some (take n ent, drop n ent) else None.

(** ** Lemmas *)

#[export] Instance Conn_laws : ReaderLaws Conn.
Proof.
  split; intros [sg f eg] n d; simpl; unfold Conn_read; simpl.
  - intros e r'. destruct sg as [|s rest]; [intros; simplify_eq; simpl; lia|].
    pose proof (length_take s n).
    destruct (drop n s); [destruct rest|]; intros; simplify_eq; lia.
  - intros r'. destruct sg as [|s rest]; [by intros|].
    pose proof (firstn_skipn n s) as E.
    destruct (drop n s); [destruct rest; [destruct eg; [done|]|]|];
      intros; simplify_eq; simpl; rewrite <- E at 1; by rewrite <- ?app_assoc.
  - intros r'. destruct sg as [|s rest]; [by intros|].
    pose proof (firstn_skipn n s) as E.
    pose proof (length_take s n).
    destruct (drop n s) as [|x s']; [destruct rest; [destruct eg; [done|]|]|];
      intros; simplify_eq; simpl; rewrite <- E at 1; rewrite ?length_app;
      simpl; try lia.
    pose proof (f_equal length E) as El. rewrite length_app in El.
    simpl in El. lia.
  - intros x r'. destruct sg as [|s rest]; [intros; by simplify_eq|].
    pose proof (firstn_skipn n s) as E. rewrite <- E at 2.
    destruct (drop n s); [destruct rest; [destruct eg|]|];
      intros; simplify_eq; simpl; by rewrite !app_nil_r.
Qed.

Lemma bytesReader_bytes p : rd_bytes (bytesReader p) = p.
Proof. destruct p; simpl; by rewrite ?app_nil_r. Qed.

Section MultiReaderLaws.
Context {R : Type} `{ReaderLaws R}.

#[export] Instance MultiReader_laws : ReaderLaws (bytes * R).
Proof.
  split; intros [p r] n d; simpl.
  - intros e r'. destruct p; simpl.
    + destruct (rd_read r n) as [[d' e'] r''] eqn:E. intros; simplify_eq.
      by eapply rd_read_len.
    + intros; simplify_eq. rewrite length_take. simpl. lia.
  - intros r'. destruct p; simpl.
    + destruct (rd_read r n) as [[d' e'] r''] eqn:E. intros; simplify_eq.
      by apply rd_read_more in E.
    + intros; simplify_eq. simpl. split; [|done].
      by rewrite app_assoc, firstn_skipn.
  - intros r'. destruct p; simpl.
    + destruct (rd_read r n) as [[d' e'] r''] eqn:E. intros; simplify_eq.
      by apply rd_read_progress in E.
    + intros E Hn. simplify_eq. simpl. rewrite length_drop. simpl. lia.
  - intros x r'. destruct p; simpl; [|by intros].
    destruct (rd_read r n) as [[d' e'] r''] eqn:E. intros; simplify_eq.
    by apply rd_read_stop in E.
Qed.

End MultiReaderLaws.

Section ReadFullSpec.
Context {R : Type} `{ReaderLaws R}.

Lemma ReadFull_loop_spec fuel : forall (r : R) need acc,
  rd_fuel r < fuel ->
  exists r',
    if decide (need <= length (rd_bytes r)) then
      ReadFull_loop fuel r need acc = (acc ++ take need (rd_bytes r), None, r') /\
      rd_bytes r' = drop need (rd_bytes r) /\ rd_end r' = rd_end r
    else
      ReadFull_loop fuel r need acc =
        (acc ++ rd_bytes r,
         Some (short_error (acc ++ rd_bytes r) (rd_end r)), r') /\
      rd_bytes r' = [] /\ rd_end r' = rd_end r.
Proof.
  induction fuel as [|fuel IH]; intros r need acc Hf; [lia|].
  destruct need as [|need'].
  { exists r. rewrite decide_True by lia. simpl.
    rewrite take_0, drop_0, app_nil_r. done. }
  set (need := S need'). simpl.
  destruct (rd_read r need) as [[d e] r'] eqn:E.
  pose proof (rd_read_len _ _ _ _ _ E) as Hlen.
  destruct e as [x|].
  - apply rd_read_stop in E as (-> & -> & Hstop). exists r'.
    destruct (decide (need <= length d)).
    + rewrite take_ge, drop_ge by lia.
      by destruct Hstop.
    + unfold short_error. by repeat case_decide.
  - pose proof (rd_read_progress _ _ _ _ E ltac:(done)).
    apply rd_read_more in E as [Hb He].
    destruct (IH r' (need - length d) (acc ++ d)) as [r'' IH']; [lia|].
    exists r''. rewrite Hb, length_app, He in *.
    destruct (decide (need - length d <= _)).
    + rewrite decide_True by lia.
      destruct IH' as (-> & -> & ->).
      rewrite <- app_assoc, take_app_ge, drop_app_ge by lia. done.
    + rewrite decide_False by lia. destruct IH' as (-> & ? & ?).
      by rewrite <- !app_assoc.
Qed.

(** [io.ReadFull] depends on the bytes and the end of the stream only, not on
    how the stream is cut into reads. *)
Lemma ReadFull_ok (r : R) n :
  n <= length (rd_bytes r) ->
  exists r', ReadFull r n = (take n (rd_bytes r), None, r') /\
    rd_bytes r' = drop n (rd_bytes r) /\ rd_end r' = rd_end r.
Proof.
  intros Hn. destruct (ReadFull_loop_spec (S (rd_fuel r)) r n []) as [r' Hr];
    [lia|]. rewrite decide_True in Hr by done. eauto.
Qed.

Lemma ReadFull_short (r : R) n :
  length (rd_bytes r) < n ->
  exists r', ReadFull r n =
    (rd_bytes r, Some (short_error (rd_bytes r) (rd_end r)), r') /\
    rd_bytes r' = [] /\ rd_end r' = rd_end r.
Proof.
  intros Hn. destruct (ReadFull_loop_spec (S (rd_fuel r)) r n []) as [r' Hr];
    [lia|]. rewrite decide_False in Hr by lia. eauto.
Qed.

Lemma ReadFull_failed (r : R) n d x r' :
  ReadFull r n = (d, Some x, r') -> rd_bytes r' = [].
Proof.
  intros E. destruct (decide (n <= length (rd_bytes r))) as [Hn|Hn].
  - destruct (ReadFull_ok r n Hn) as (r1 & E1 & _). congruence.
  - destruct (ReadFull_short r n) as (r1 & E1 & Hb & _); [lia|]. congruence.
Qed.

End ReadFullSpec.

(** The states a reader goes through, whatever is read. *)
Section Reads.
Context {R : Type} `{Reader R}.

Definition read_step (r r' : R) : Prop := exists n d e, rd_read r n = (d, e, r').
Definition reads : R -> R -> Prop := rtc read_step.

Lemma reads_one r n d e r' : rd_read r n = (d, e, r') -> reads r r'.
Proof. intros E. apply rtc_once. by exists n, d, e. Qed.

Lemma ReadFull_loop_reads fuel : forall r need acc d e r',
  ReadFull_loop fuel r need acc = (d, e, r') -> reads r r'.
Proof.
  induction fuel as [|fuel IH]; intros r need acc d e r'.
  { destruct need; simpl; intros; simplify_eq; apply rtc_refl. }
  destruct need as [|need]; [intros; simplify_eq/=; apply rtc_refl|].
  cbn [ReadFull_loop]. destruct (rd_read r (S need)) as [[d' e'] r1] eqn:E.
  apply reads_one in E. destruct e'.
  - repeat case_decide; by intros [= _ _ <-].
  - intros Hr. etrans; [exact E|by eapply IH].
Qed.

Lemma ReadFull_reads r n d e r' : ReadFull r n = (d, e, r') -> reads r r'.
Proof. apply ReadFull_loop_reads. Qed.

End Reads.

Section SinkSpec.

Lemma Sink_write_reliable s p :
  reliable s ->
  exists s', Sink_write s p = (length p, None, s') /\
    written s' = written s ++ [p] /\ reliable s'.
Proof.
  unfold reliable, Sink_write. destruct (plan s) as [|o rest]; simpl.
  - intros _. eexists. split_and!; done.
  - intros Hr. apply Forall_cons in Hr as [-> Hr]. eauto.
Qed.

End SinkSpec.

(** ** [io.Copy(io.Discard, r)]

    [Discard] reads into a buffer of its own, 8192 bytes long, until the first
    error; the end of the stream is no error. *)
Section Discard.
Context {R : Type} `{Reader R}.

Fixpoint Discard_loop (fuel : nat) (r : R) (total : nat) : nat * option error * R :=
  match fuel with
  | O => (total, Some (Errorf "out of fuel"), r)
  | S fuel =>
    let '(d, e, r) := rd_read r (Z.to_nat 8192) in
    match e with
    | None => Discard_loop fuel r (total + length d)
    | Some x => (total + length d, (if decide (x = EOF) then None else Some x), r)
    end
  end.

Definition Copy_Discard (r : R) : nat * option error * R :=
  Discard_loop (S (rd_fuel r)) r 0.

End Discard.

Section DiscardSpec.
Context {R : Type} `{ReaderLaws R}.

Lemma Discard_loop_spec fuel : forall (r : R) total,
  rd_fuel r < fuel ->
  exists r', Discard_loop fuel r total =
    (total + length (rd_bytes r),
     (if decide (rd_end r = EOF) then None else Some (rd_end r)), r') /\
    rd_bytes r' = [] /\ rd_end r' = rd_end r.
Proof.
  induction fuel as [|fuel IH]; intros r total Hf; [lia|].
  cbn [Discard_loop]. destruct (rd_read r (Z.to_nat 8192)) as [[d e] r1] eqn:E.
  destruct e as [x|].
  - apply rd_read_stop in E as (-> & -> & Hb & He). by exists r1.
  - pose proof (rd_read_progress _ _ _ _ E ltac:(lia)).
    apply rd_read_more in E as [Hb He].
    destruct (IH r1 (total + length d)) as (r2 & -> & Hb2 & He2); [lia|].
    exists r2. rewrite Hb, length_app, <- He, Nat.add_assoc. by rewrite He2, He.
Qed.

(** Discarding takes the whole rest of the stream. *)
Lemma Copy_Discard_spec (r : R) :
  exists r', Copy_Discard r =
    (length (rd_bytes r),
     (if decide (rd_end r = EOF) then None else Some (rd_end r)), r') /\
    rd_bytes r' = [] /\ rd_end r' = rd_end r.
Proof. apply (Discard_loop_spec (S (rd_fuel r)) r 0). lia. Qed.

End DiscardSpec.
