(* ===== verification/Cipher.v ===== *)
(** * [shadowsocks/cipher.go]: AEAD ciphers, key derivation, single-shot
    decryption

    The cryptographic primitives are not under [src/]: [cipher.AEAD] is an
    interface of the Go library, the constructors of the ChaCha20-Poly1305 and
    AES-GCM instances, HKDF-SHA1, HMAC-SHA1 and MD5 are library calls.  They
    are the class [CryptoOps]; what the program relies on of their documented
    behaviour (sizes, and that [Open] inverts [Seal]) is the class
    [CryptoLaws].  Nothing is assumed about their secrecy. *)
From S2P Require Import Prelude.

(** ** The primitives *)

(** [cipher.AEAD]; the additional data is [nil] in every call of the program. *)
Record AEAD := MkAEAD {
  NonceSize : nat;
  Overhead : nat;
  Seal : bytes -> bytes -> bytes;
  Open : bytes -> bytes -> option bytes;
}.

Class AEADLaws (a : AEAD) : Prop := {
  length_Seal nonce p :
    length nonce = NonceSize a ->
    length (Seal a nonce p) = length p + Overhead a;
  Open_Seal nonce p :
    length nonce = NonceSize a -> Open a nonce (Seal a nonce p) = Some p;
  length_Open nonce c p :
    Open a nonce c = Some p -> length c = length p + Overhead a;
}.

Class CryptoOps := {
  chacha20poly1305_New : bytes -> outcome AEAD;
  aes_Block : Type;
  aes_NewCipher : bytes -> outcome aes_Block;
  cipher_NewGCM : aes_Block -> outcome AEAD;
  (** [io.ReadFull(hkdf.New(sha1.New, secret, salt, info), make([]byte, n))] *)
  hkdf_sha1 : bytes -> bytes -> bytes -> nat -> outcome bytes;
  md5 : bytes -> bytes;
  hmac_sha1 : bytes -> bytes -> bytes;
}.

(** Sizes fixed by the primitives. *)
Definition chacha20poly1305_KeySize : nat := 32.
Definition md5_Size : nat := 16.
Definition sha1_Size : nat := 20.

(** An AEAD instance with the standard 12-byte nonce and 16-byte tag. *)
Definition standard_AEAD (a : AEAD) : Prop :=
  AEADLaws a /\ NonceSize a = 12 /\ Overhead a = 16.

Class CryptoLaws `{CryptoOps} : Prop := {
  chacha20poly1305_New_ok key :
    length key = chacha20poly1305_KeySize ->
    exists a, chacha20poly1305_New key = Ret a /\ standard_AEAD a;
  aes_NewGCM_ok key :
    length key = 16 \/ length key = 24 \/ length key = 32 ->
    exists b a, aes_NewCipher key = Ret b /\ cipher_NewGCM b = Ret a /\
      standard_AEAD a;
  hkdf_sha1_ok secret salt info n :
    n <= 255 * sha1_Size ->
    exists k, hkdf_sha1 secret salt info n = Ret k /\ length k = n;
  length_md5 m : length (md5 m) = md5_Size;
  length_hmac_sha1 k m : length (hmac_sha1 k m) = sha1_Size;
}.

(** ** Cipher specifications *)

Record aeadSpec := MkSpec {
  name : string;
  newInstance : bytes -> outcome AEAD;
  keySize : nat;
  saltSize : nat;
  tagSize : nat;
}.

Section CipherDefs.
Context `{CryptoOps}.

Definition newAesGCM (key : bytes) : outcome AEAD :=
  match aes_NewCipher key with
  | Err e => Err e
  | Panic s => Panic s
  | Ret blk => cipher_NewGCM blk
  end.

Definition newAEADSpec (nm : string) (mk : bytes -> outcome AEAD)
    (ks ss : nat) : outcome aeadSpec :=
  match mk (zeros ks) with
  | Ret dummyAead => Ret (MkSpec nm mk ks ss (Overhead dummyAead))
  | _ => Panic ("Failed to initialize AEAD " +:+ nm)
  end.

(** The package-level initialiser of [supportedAEADs]. *)
Definition supportedAEADs_init : outcome (list aeadSpec) :=
  s1 ← newAEADSpec "chacha20-ietf-poly1305" chacha20poly1305_New
         chacha20poly1305_KeySize 32;
  s2 ← newAEADSpec "aes-256-gcm" newAesGCM 32 32;
  s3 ← newAEADSpec "aes-192-gcm" newAesGCM 24 24;
  s4 ← newAEADSpec "aes-128-gcm" newAesGCM 16 16;
  mret [s1; s2; s3; s4].

(** The table once the package is initialised. *)
Definition supportedAEADs : list aeadSpec :=
  match supportedAEADs_init with Ret l => l | _ => [] end.

Definition SupportedCipherNames : list string := name <$> supportedAEADs.

(** [strings.ToLower] on ASCII text. *)
Definition lower_ascii (c : Ascii.ascii) : Ascii.ascii :=
  let n := Ascii.N_of_ascii c in
  if decide (65 <= n <= 90)%N then Ascii.ascii_of_N (n + 32) else c.

Fixpoint ToLower (s : string) : string :=
  match s with
  | EmptyString => EmptyString
  | String c r => String (lower_ascii c) (ToLower r)
  end.

Definition getAEADSpec (nm : string) : outcome aeadSpec :=
  match list_find (fun spec => name spec = ToLower nm) supportedAEADs with
  | Some (_, spec) => Ret spec
  | None => Err (Errorf ("Unknown cipher " +:+ ToLower nm))
  end.

Definition maxTagSize : nat :=
  foldl (fun max spec => if decide (max < tagSize spec) then tagSize spec else max)
    0 supportedAEADs.

(** ** Ciphers *)

Record Cipher := MkCipher { aead_spec : aeadSpec; secret : bytes }.

Definition SaltSize (c : Cipher) : nat := saltSize (aead_spec c).
Definition TagSize (c : Cipher) : nat := tagSize (aead_spec c).

Definition string_bytes (s : string) : bytes := String.list_byte_of_string s.

Definition subkeyInfo : bytes := string_bytes "ss-subkey".

Definition NewAEAD (c : Cipher) (salt : bytes) : outcome AEAD :=
  match hkdf_sha1 (secret c) salt subkeyInfo (keySize (aead_spec c)) with
  | Err e => Err e
  | Panic s => Panic s
  | Ret sessionKey => newInstance (aead_spec c) sessionKey
  end.

(** The loop of [simpleEVPBytesToKey]; every iteration adds [md5_Size] bytes,
    so [keyLen] iterations are enough. *)
Fixpoint evp_loop (fuel : nat) (data : bytes) (keyLen : nat)
    (derived di : bytes) : bytes :=
  match fuel with
  | O => derived
  | S fuel =>
    if decide (length derived < keyLen) then
      let derived' := derived ++ md5 (di ++ data) in
      let di' := drop (length derived' - md5_Size) derived' in
      evp_loop fuel data keyLen derived' di'
    else derived
  end.

Definition simpleEVPBytesToKey (data : bytes) (keyLen : nat) : bytes :=
  take keyLen (evp_loop keyLen data keyLen [] []).

Definition NewCipher (cipherName secretText : string) : outcome Cipher :=
  match getAEADSpec cipherName with
  | Err e => Err e
  | Panic s => Panic s
  | Ret spec =>
    let secret := simpleEVPBytesToKey (string_bytes secretText) (keySize spec) in
    Ret (MkCipher spec secret)
  end.

(** [zeroNonce[:n]]; slicing beyond the 12 bytes panics. *)
Definition zeroNonce (n : nat) : outcome bytes :=
  if decide (n <= 12) then Ret (zeros n)
  else Panic "slice bounds out of range".

(** The error of [AEAD.Open] on a message that does not authenticate. *)
Definition errOpen : error := Errorf "message authentication failed".

Definition open_or_err (o : option bytes) : outcome bytes :=
  match o with Some p => Ret p | None => Err errOpen end.

(** [DecryptOnce(cipher, salt, plainText, cipherText)], where [plainText] has
    the contents [dst] and the capacity [dcap]. *)
Definition DecryptOnce (c : Cipher) (salt : bytes) (dst : bytes) (dcap : nat)
    (cipherText : bytes) : outcome bytes :=
  aead ← NewAEAD c salt;
  if decide (length cipherText < Overhead aead) then Err ErrUnexpectedEOF
  else if decide (dcap - length dst < length cipherText - Overhead aead)
  then Err ErrShortBuffer
  else
    nonce ← zeroNonce (NonceSize aead);
    p ← open_or_err (Open aead nonce cipherText);
    mret (dst ++ p).

(** ** The reference key derivation

    OpenSSL's [EVP_BytesToKey] with MD5, no salt and one iteration: the blocks
    [D_1 = MD5(data)], [D_{i+1} = MD5(D_i ++ data)]. *)
Fixpoint evp_blocks (n : nat) (data di : bytes) : bytes :=
  match n with
  | O => []
  | S n => let d := md5 (di ++ data) in d ++ evp_blocks n data d
  end.

(** A cipher built by [NewCipher]: the invariant of every [Cipher] value of the
    program. *)
Definition wf_spec (spec : aeadSpec) : Prop :=
  saltSize spec = keySize spec /\ tagSize spec = 16 /\
  (keySize spec = 16 \/ keySize spec = 24 \/ keySize spec = 32) /\
  forall key, length key = keySize spec ->
    exists a, newInstance spec key = Ret a /\ standard_AEAD a.

Definition wf_cipher (c : Cipher) : Prop :=
  wf_spec (aead_spec c) /\ length (secret c) = keySize (aead_spec c).

End CipherDefs.

#[export] Hint Unfold SaltSize TagSize : go.

(** ** Lemmas *)

Section CipherLemmas.
Context `{CryptoLaws}.

Lemma newAesGCM_ok key :
  length key = 16 \/ length key = 24 \/ length key = 32 ->
  exists a, newAesGCM key = Ret a /\ standard_AEAD a.
Proof.
  intros Hk. destruct (aes_NewGCM_ok key Hk) as (b & a & Hb & Ha & Hs).
  unfold newAesGCM. rewrite Hb, Ha. eauto.
Qed.

Lemma newAEADSpec_ok nm mk ks :
  ks = 16 \/ ks = 24 \/ ks = 32 ->
  (forall key, length key = ks -> exists a, mk key = Ret a /\ standard_AEAD a) ->
  newAEADSpec nm mk ks ks = Ret (MkSpec nm mk ks ks 16) /\
  wf_spec (MkSpec nm mk ks ks 16).
Proof.
  intros Hks Hmk. split; [|by split_and!].
  destruct (Hmk (zeros ks)) as (a & Ha & _ & _ & Ho).
  { apply length_replicate. }
  unfold newAEADSpec. by rewrite Ha, Ho.
Qed.

(** The package initialises without a panic, to this table. *)
Definition the_specs : list aeadSpec :=
  [ MkSpec "chacha20-ietf-poly1305" chacha20poly1305_New 32 32 16;
    MkSpec "aes-256-gcm" newAesGCM 32 32 16;
    MkSpec "aes-192-gcm" newAesGCM 24 24 16;
    MkSpec "aes-128-gcm" newAesGCM 16 16 16 ].

Lemma supportedAEADs_eq :
  supportedAEADs_init = Ret the_specs /\ supportedAEADs = the_specs /\
  Forall wf_spec the_specs.
Proof.
  destruct (newAEADSpec_ok "chacha20-ietf-poly1305" chacha20poly1305_New 32)
    as [E1 W1]; [lia|apply chacha20poly1305_New_ok|].
  destruct (newAEADSpec_ok "aes-256-gcm" newAesGCM 32) as [E2 W2];
    [lia|intros; apply newAesGCM_ok; lia|].
  destruct (newAEADSpec_ok "aes-192-gcm" newAesGCM 24) as [E3 W3];
    [lia|intros; apply newAesGCM_ok; lia|].
  destruct (newAEADSpec_ok "aes-128-gcm" newAesGCM 16) as [E4 W4];
    [lia|intros; apply newAesGCM_ok; lia|].
  assert (supportedAEADs_init = Ret the_specs) as E.
  { unfold supportedAEADs_init, chacha20poly1305_KeySize.
    rewrite E1. simpl. rewrite E2. simpl. rewrite E3. simpl. by rewrite E4. }
  unfold supportedAEADs. rewrite E. split_and!; [done..|].
  unfold the_specs. by rewrite !Forall_cons, Forall_nil.
Qed.

Lemma supportedAEADs_wf : Forall wf_spec supportedAEADs.
Proof. destruct supportedAEADs_eq as (_ & -> & ?). done. Qed.

Lemma maxTagSize_eq : maxTagSize = 16.
Proof. unfold maxTagSize. destruct supportedAEADs_eq as (_ & -> & _). done. Qed.

Lemma getAEADSpec_Ret nm spec :
  getAEADSpec nm = Ret spec ->
  spec ∈ supportedAEADs /\ name spec = ToLower nm.
Proof.
  unfold getAEADSpec. destruct (list_find _ _) as [[i s]|] eqn:E; [|done].
  intros [= <-]. apply list_find_Some in E as (Hl & Hn & _).
  split; [|done]. by eapply list_elem_of_lookup_2.
Qed.

Lemma length_evp_loop fuel data keyLen : forall derived di,
  keyLen <= length derived + fuel ->
  keyLen <= length (evp_loop fuel data keyLen derived di).
Proof.
  induction fuel as [|fuel IH]; intros derived di Hf; simpl; [lia|].
  case_decide; [|lia]. apply IH.
  rewrite length_app, length_md5. unfold md5_Size. lia.
Qed.

Lemma length_simpleEVPBytesToKey data keyLen :
  length (simpleEVPBytesToKey data keyLen) = keyLen.
Proof.
  unfold simpleEVPBytesToKey. rewrite length_take.
  pose proof (length_evp_loop keyLen data keyLen [] [] ltac:(simpl; lia)). lia.
Qed.

Lemma NewCipher_wf cn st c : NewCipher cn st = Ret c -> wf_cipher c.
Proof.
  unfold NewCipher. destruct (getAEADSpec cn) as [spec| |] eqn:E; [|done..].
  intros [= <-]. apply getAEADSpec_Ret in E as [Hin _]. split; simpl.
  - by eapply (proj1 (Forall_forall _ _) supportedAEADs_wf).
  - apply length_simpleEVPBytesToKey.
Qed.

Lemma NewAEAD_ok c salt :
  wf_cipher c -> exists a, NewAEAD c salt = Ret a /\ standard_AEAD a.
Proof.
  intros [(Hss & Hts & Hks & Hnew) Hsec]. unfold NewAEAD.
  destruct (hkdf_sha1_ok (secret c) salt subkeyInfo (keySize (aead_spec c)))
    as (k & -> & Hk); [unfold sha1_Size; lia|]. eauto.
Qed.

Lemma wf_cipher_sizes c :
  wf_cipher c ->
  TagSize c = 16 /\ (SaltSize c = 16 \/ SaltSize c = 24 \/ SaltSize c = 32).
Proof. intros [(? & ? & ? & _) _]. unfold SaltSize, TagSize. lia. Qed.

(** One step of [EVP_BytesToKey]: the digest the loop feeds back is the last
    one it appended. *)
Lemma evp_loop_step derived data di :
  drop (length (derived ++ md5 (di ++ data)) - md5_Size)
    (derived ++ md5 (di ++ data)) = md5 (di ++ data).
Proof.
  rewrite length_app, length_md5, Nat.add_sub. by rewrite drop_app_length.
Qed.

(** The blocks one loop needs are a prefix of any longer run of blocks. *)
Lemma evp_loop_blocks fuel data keyLen : forall derived di m,
  keyLen <= length derived + fuel -> keyLen <= length derived + 16 * m ->
  take keyLen (evp_loop fuel data keyLen derived di) =
  take keyLen (derived ++ evp_blocks m data di).
Proof.
  induction fuel as [|fuel IH]; intros derived di m Hf Hm; simpl.
  { by rewrite take_app_le by lia. }
  case_decide; [|by rewrite take_app_le by lia].
  rewrite evp_loop_step. destruct m as [|m]; [lia|].
  rewrite (IH _ _ m); rewrite ?length_app, ?length_md5; unfold md5_Size; try lia.
  simpl. by rewrite app_assoc.
Qed.

(** The functional behaviour of [DecryptOnce] on a well-formed cipher. *)
Lemma DecryptOnce_eq c salt a dst dcap ct :
  NewAEAD c salt = Ret a -> standard_AEAD a ->
  DecryptOnce c salt dst dcap ct =
    if decide (length ct < 16) then Err ErrUnexpectedEOF
    else if decide (dcap - length dst < length ct - 16) then Err ErrShortBuffer
    else match Open a (zeros 12) ct with
         | Some p => Ret (dst ++ p)
         | None => Err errOpen
         end.
Proof.
  intros Ha (_ & Hn & Ho). unfold DecryptOnce. rewrite Ha. simpl. rewrite Hn, Ho.
  unfold zeroNonce. rewrite (decide_True (P := 12 <= 12)) by lia. simpl.
  by destruct (Open a (zeros 12) ct).
Qed.

End CipherLemmas.

Section CipherProperties.
Context `{CryptoLaws}.

(** Every cipher name the server accepts, in any letter case, gives a cipher
    whose key, salt and tag sizes are consistent and whose AEAD can be created
    for every salt; every other name is rejected with an error. *)
Theorem NewCipher_spec (cipherName secretText : string) :
  (ToLower cipherName ∈ SupportedCipherNames ->
   exists c, NewCipher cipherName secretText = Ret c /\
     name (aead_spec c) = ToLower cipherName /\ wf_cipher c /\
     forall salt, exists a, NewAEAD c salt = Ret a /\ standard_AEAD a) /\
  (ToLower cipherName ∉ SupportedCipherNames ->
   NewCipher cipherName secretText =
     Err (Errorf ("Unknown cipher " +:+ ToLower cipherName))).
Proof.
  unfold SupportedCipherNames, NewCipher, getAEADSpec. split; intros Hin.
  - apply list_elem_of_fmap in Hin as (s & Hn & Hs).
    destruct (list_find_elem_of (fun spec => name spec = ToLower cipherName)
      supportedAEADs s Hs (eq_sym Hn)) as [[i spec] E].
    rewrite E. apply list_find_Some in E as (Hl & Hname & _).
    assert (wf_cipher (MkCipher spec (simpleEVPBytesToKey
      (string_bytes secretText) (keySize spec)))) as Hwf.
    { split; [|apply length_simpleEVPBytesToKey].
      eapply (proj1 (Forall_forall _ _) supportedAEADs_wf).
      by eapply list_elem_of_lookup_2. }
    eexists. split_and!; [done..|]. intros. by apply NewAEAD_ok.
  - replace (list_find _ _) with (@None (nat * aeadSpec)); [done|]. symmetry.
    apply list_find_None, Forall_forall. intros s Hs Hn. apply Hin.
    apply list_elem_of_fmap. eauto.
Qed.

(** C38: [simpleEVPBytesToKey] is OpenSSL's [EVP_BytesToKey]: the first [keyLen]
    bytes of the reference blocks, for every number of blocks that covers the
    key; in particular a shorter key is a prefix of a longer one. *)
Theorem simpleEVPBytesToKey_spec (data : bytes) (keyLen m : nat) :
  keyLen <= md5_Size * m ->
  length (simpleEVPBytesToKey data keyLen) = keyLen /\
  simpleEVPBytesToKey data keyLen = take keyLen (evp_blocks m data []).
Proof.
  intros Hm. split; [apply length_simpleEVPBytesToKey|].
  unfold simpleEVPBytesToKey, md5_Size in *.
  apply (evp_loop_blocks keyLen data keyLen [] [] m); simpl; lia.
Qed.

End CipherProperties.
