(* ===== verification/ToyCrypto.v ===== *)
(** * A concrete instance of the cryptographic interface

    [CryptoOps] and [CryptoLaws] abstract the primitives.  This file gives
    them an executable instance, a keyed checksum in the place of every
    primitive: it shows that the laws are satisfiable and lets the examples
    of the other files evaluate.  It has no cryptographic strength, and no
    theorem about the program mentions it outside a witness. *)
From S2P Require Import Prelude Cipher.

(** A 32-bit polynomial checksum. *)
Definition checksum (m : bytes) : Z :=
  foldl (fun h b => (h * 31 + byte_to_Z b + 7) mod 2 ^ 32)%Z 17%Z m.

(** [n] bytes derived from a number. *)
Definition expand (h : Z) (n : nat) : bytes :=
  (fun i => byte_of_Z (h * (Z.of_nat i + 3) + Z.shiftr h (Z.of_nat (i mod 4) * 8)))%Z
    <$> seq 0 n.

Definition toy_mac (key nonce p : bytes) : bytes :=
  expand (checksum (key ++ nonce ++ p)) 16.

Definition toy_mask (key p : bytes) : bytes :=
  bxor (byte_of_Z (checksum key)) <$> p.

Definition toy_Seal (key nonce p : bytes) : bytes :=
  toy_mask key p ++ toy_mac key nonce p.

Definition toy_Open (key nonce c : bytes) : option bytes :=
  let n := length c - 16 in
  let p := toy_mask key (take n c) in
  if decide (16 <= length c /\ drop n c = toy_mac key nonce p)
  then Some p else None.

Definition toy_AEAD (key : bytes) : AEAD :=
  MkAEAD 12 16 (toy_Seal key) (toy_Open key).

#[export] Instance toy_ops : CryptoOps := {
  chacha20poly1305_New key :=
    if decide (length key = 32) then Ret (toy_AEAD key)
    else Err (Errorf "chacha20poly1305: bad key length");
  aes_Block := bytes;
  aes_NewCipher key :=
    if decide (length key = 16 \/ length key = 24 \/ length key = 32)
    then Ret key else Err (Errorf "crypto/aes: invalid key size");
  cipher_NewGCM key := Ret (toy_AEAD key);
  hkdf_sha1 secret salt info n :=
    if decide (n <= 255 * sha1_Size)
    then Ret (expand (checksum (secret ++ salt ++ info)) n)
    else Err (Errorf "hkdf: entropy limit reached");
  md5 m := expand (checksum m) md5_Size;
  hmac_sha1 k m := expand (checksum (k ++ m)) sha1_Size;
}.

Lemma length_expand h n : length (expand h n) = n.
Proof. unfold expand. by rewrite length_fmap, length_seq. Qed.

Lemma toy_mask_involutive key p : toy_mask key (toy_mask key p) = p.
Proof.
  unfold toy_mask. rewrite <- list_fmap_compose. rewrite <- (list_fmap_id p) at 2.
  apply list_fmap_ext. intros _ b _. simpl.
  by rewrite (assoc_L bxor), bxor_nilpotent, (left_id_L zero bxor).
Qed.

#[export] Instance toy_AEAD_laws key : AEADLaws (toy_AEAD key).
Proof.
  split; simpl; unfold toy_Seal, toy_Open.
  - intros nonce p _. unfold toy_mask, toy_mac.
    by rewrite length_app, length_fmap, length_expand.
  - intros nonce p _.
    assert (length (toy_mask key p) = length p) as Hm by apply length_fmap.
    assert (length (toy_mask key p ++ toy_mac key nonce p) - 16 =
      length (toy_mask key p)) as ->.
    { rewrite length_app. unfold toy_mac. rewrite length_expand. lia. }
    rewrite take_app_length, drop_app_length, toy_mask_involutive.
    rewrite decide_True; [done|]. split; [|done].
    rewrite length_app. unfold toy_mac. rewrite length_expand. lia.
  - intros nonce c p. case_decide as Hd; [|done]. intros [= <-].
    unfold toy_mask. rewrite length_fmap, length_take. lia.
Qed.

Lemma toy_standard key : standard_AEAD (toy_AEAD key).
Proof. split_and!; [apply _|done..]. Qed.

#[export] Instance toy_laws : CryptoLaws.
Proof.
  split.
  - intros key Hk. simpl. rewrite decide_True by done. eauto using toy_standard.
  - intros key Hk. simpl. rewrite decide_True by done. eauto 6 using toy_standard.
  - intros secret salt info n Hn. simpl. rewrite decide_True by done.
    eauto using length_expand.
  - intros m. apply length_expand.
  - intros k m. apply length_expand.
Qed.

(** A cipher of the running example, as [NewCipher] builds it. *)
Definition toy_cipher_of (nm st : string) : Cipher :=
  match NewCipher nm st with
  | Ret c => c
  | _ => MkCipher (MkSpec "" (fun _ => Err EOF) 0 0 0) []
  end.

Definition toy_cipher : Cipher := toy_cipher_of "AES-128-gcm" "Secret1".

Lemma toy_cipher_wf : wf_cipher toy_cipher.
Proof. by apply (NewCipher_wf "AES-128-gcm" "Secret1"). Qed.

(** ** The theorems of [Cipher] at concrete inputs *)

Lemma NewCipher_spec_witness :
  (exists c, NewCipher "AES-128-gcm" "Secret1" = Ret c /\ wf_cipher c) /\
  NewCipher "rc4-md5" "Secret1" = Err (Errorf "Unknown cipher rc4-md5").
Proof.
  split.
  - destruct (proj1 (NewCipher_spec "AES-128-gcm" "Secret1")) as (c & E & _ & Hwf & _).
    + apply (bool_decide_eq_true_1 _). vm_compute. reflexivity.
    + exists c. split; assumption.
  - apply (proj2 (NewCipher_spec "rc4-md5" "Secret1")).
    apply (bool_decide_eq_true_1 _). vm_compute. reflexivity.
Defined.

Lemma simpleEVPBytesToKey_spec_witness :
  length (simpleEVPBytesToKey (string_bytes "Secret1") 24) = 24 /\
  simpleEVPBytesToKey (string_bytes "Secret1") 24 =
    take 24 (evp_blocks 2 (string_bytes "Secret1") []).
Proof. apply (simpleEVPBytesToKey_spec (string_bytes "Secret1") 24 2). vm_compute. lia. Defined.
