(* ===== verification/Salt.v ===== *)
(** * Salt generators

    [shadowsocks/salt.go], [shadowsocks/client/salt.go] and
    [service/server_salt.go].  [GetSalt(salt)] fills the caller's buffer; the
    model takes the contents of the buffer and an entropy source for
    [crypto/rand], and returns the error, the buffer and the source. *)
From S2P Require Import Prelude GoIO Cipher ToyCrypto.

(** ** The interfaces *)

(** [ss.SaltGenerator] *)
Record SaltGenerator := MkSaltGenerator {
  GetSalt : bytes -> bytes -> option error * bytes * bytes;
}.

(** What a writer relies on: the buffer keeps its length. *)
Class SaltGeneratorLaws (g : SaltGenerator) : Prop :=
  GetSalt_length salt ent e salt' ent' :
    GetSalt g salt ent = (e, salt', ent') -> length salt' = length salt.

(** [service.ServerSaltGenerator] *)
Record ServerSaltGenerator := MkServerSaltGenerator {
  server_gen : SaltGenerator;
  IsServerSalt : bytes -> bool;
}.

Definition errRand : error := Errorf "rand".

(** ** [randomSaltGenerator] *)

Definition randomSaltGenerator_GetSalt (salt ent : bytes)
  : option error * bytes * bytes :=
  match rand_Read ent (length salt) with
  | Some (d, ent') => (None, d, ent')
  | None => (Some errRand, salt, ent)
  end.

Definition RandomSaltGenerator : SaltGenerator :=
  MkSaltGenerator randomSaltGenerator_GetSalt.

(** ** [randomServerSaltGenerator] *)

Definition randomServerSaltGenerator_GetSalt (salt ent : bytes)
  : option error * bytes * bytes :=
  match rand_Read ent (length salt) with
  | Some (d, ent') => (None, d, ent')
  | None => (Some errRand, salt, ent)
  end.

Definition randomServerSaltGenerator_IsServerSalt (salt : bytes) : bool := false.

Definition RandomServerSaltGenerator : ServerSaltGenerator :=
  MkServerSaltGenerator (MkSaltGenerator randomServerSaltGenerator_GetSalt)
    randomServerSaltGenerator_IsServerSalt.

(** ** [prefixSaltGenerator] *)

Definition prefixSaltGenerator_GetSalt (prefix salt ent : bytes)
  : option error * bytes * bytes :=
  let n := length prefix `min` length salt in
  let salt := splice salt 0 prefix in
  if decide (n <> length prefix) then (Some (Errorf "prefix is too long"), salt, ent)
  else
    match rand_Read ent (length salt - n) with
    | Some (d, ent') => (None, splice salt n d, ent')
    | None => (Some errRand, salt, ent)
    end.

Definition NewPrefixSaltGenerator (prefix : bytes) : SaltGenerator :=
  MkSaltGenerator (prefixSaltGenerator_GetSalt prefix).

(** ** [serverSaltGenerator] *)

Definition serverSaltMarkLen : nat := 4.

Definition serverSaltLabel : bytes := string_bytes "outline-server-salt".

Section ServerSalt.
Context `{CryptoOps}.

Definition splitSalt (salt : bytes) : outcome (bytes * bytes) :=
  if decide (length salt < serverSaltMarkLen)
  then Err (Errorf "Salt is too short")
  else
    let prefixLen := length salt - serverSaltMarkLen in
    Ret (take prefixLen salt, drop prefixLen salt).

Definition getTag (key prefix : bytes) : bytes := hmac_sha1 key prefix.

Definition serverSaltGenerator_GetSalt (key salt ent : bytes)
  : option error * bytes * bytes :=
  match splitSalt salt with
  | Ret (prefix, mark) =>
    match rand_Read ent (length prefix) with
    | None => (Some errRand, salt, ent)
    | Some (prefix, ent') =>
      let tag := getTag key prefix in
      (None, prefix ++ splice mark 0 tag, ent')
    end
  | Err e => (Some e, salt, ent)
  | Panic _ => (None, salt, ent)
  end.

Definition serverSaltGenerator_IsServerSalt (key salt : bytes) : bool :=
  match splitSalt salt with
  | Ret (prefix, mark) =>
    let tag := getTag key prefix in
    bool_decide (take serverSaltMarkLen tag = mark)
  | _ => false
  end.

(** The key derived by [NewServerSaltGenerator]; the error of [io.ReadFull] is
    ignored by the code, which then keeps the zeroed key. *)
Definition serverSalt_key (secret : string) : bytes :=
  match hkdf_sha1 (string_bytes secret) [] serverSaltLabel sha1_Size with
  | Ret key => key
  | _ => zeros sha1_Size
  end.

Definition NewServerSaltGenerator (secret : string) : ServerSaltGenerator :=
  let key := serverSalt_key secret in
  MkServerSaltGenerator (MkSaltGenerator (serverSaltGenerator_GetSalt key))
    (serverSaltGenerator_IsServerSalt key).

End ServerSalt.

(** ** Lemmas *)

Lemma rand_Read_Some ent n d ent' :
  rand_Read ent n = Some (d, ent') -> ent = d ++ ent' /\ length d = n.
Proof.
  unfold rand_Read. case_decide; [|done]. intros [= <- <-].
  by rewrite firstn_skipn, length_take, Nat.min_l.
Qed.

#[export] Instance RandomSaltGenerator_laws : SaltGeneratorLaws RandomSaltGenerator.
Proof.
  intros salt ent e salt' ent'. simpl. unfold randomSaltGenerator_GetSalt.
  destruct (rand_Read _ _) as [[d ent'']|] eqn:E; intros; simplify_eq; [|done].
  by apply rand_Read_Some in E as [_ ?].
Qed.

#[export] Instance PrefixSaltGenerator_laws prefix :
  SaltGeneratorLaws (NewPrefixSaltGenerator prefix).
Proof.
  intros salt ent e salt' ent'. simpl. unfold prefixSaltGenerator_GetSalt.
  pose proof (length_splice salt 0 prefix ltac:(lia)) as Hl.
  case_decide; [by intros; simplify_eq|].
  destruct (rand_Read _ _) as [[d ent'']|] eqn:E; intros; simplify_eq; [|done].
  rewrite length_splice; [done|]. lia.
Qed.

Section ServerSaltLemmas.
Context `{CryptoLaws}.

Lemma length_getTag key prefix : length (getTag key prefix) = 20.
Proof. apply length_hmac_sha1. Qed.

Lemma splitSalt_app prefix mark :
  length mark = serverSaltMarkLen -> splitSalt (prefix ++ mark) = Ret (prefix, mark).
Proof.
  intros Hm. unfold splitSalt. rewrite length_app, Hm.
  rewrite decide_False by lia. rewrite Nat.add_sub.
  by rewrite take_app_length, drop_app_length.
Qed.

(** What the generator writes. *)
Lemma serverSaltGenerator_GetSalt_eq key salt ent :
  serverSaltMarkLen <= length salt ->
  serverSaltGenerator_GetSalt key salt ent =
    match rand_Read ent (length salt - serverSaltMarkLen) with
    | Some (p, ent') => (None, p ++ take serverSaltMarkLen (getTag key p), ent')
    | None => (Some errRand, salt, ent)
    end.
Proof.
  intros Hs. unfold serverSaltGenerator_GetSalt, splitSalt.
  rewrite decide_False by lia.
  rewrite length_take, Nat.min_l by lia.
  destruct (rand_Read _ _) as [[p ent']|] eqn:E; [|done].
  assert (length (drop (length salt - serverSaltMarkLen) salt) = serverSaltMarkLen)
    as Hd by (rewrite length_drop; lia).
  unfold splice. rewrite Hd, length_getTag, take_0, app_nil_l.
  rewrite (drop_ge (drop _ salt)), app_nil_r by (rewrite Hd; unfold serverSaltMarkLen; lia).
  done.
Qed.

#[export] Instance serverSaltGenerator_laws secret :
  SaltGeneratorLaws (server_gen (NewServerSaltGenerator secret)).
Proof.
  intros salt ent e salt' ent'. simpl.
  destruct (decide (length salt < serverSaltMarkLen)) as [Hlt|Hge].
  - unfold serverSaltGenerator_GetSalt, splitSalt. rewrite decide_True by done.
    intros; by simplify_eq.
  - rewrite serverSaltGenerator_GetSalt_eq by lia.
    destruct (rand_Read _ _) as [[p ent'']|] eqn:E; intros; simplify_eq; [|done].
    apply rand_Read_Some in E as [_ E].
    rewrite length_app, length_take, length_getTag, E.
    unfold serverSaltMarkLen in *. lia.
Qed.

(** What the generator writes is recognised. *)
Lemma GetSalt_recognized secret salt ent ssalt ent' :
  GetSalt (server_gen (NewServerSaltGenerator secret)) salt ent = (None, ssalt, ent') ->
  IsServerSalt (NewServerSaltGenerator secret) ssalt = true.
Proof.
  simpl. destruct (decide (length salt < serverSaltMarkLen)) as [Hlt|Hge].
  - unfold serverSaltGenerator_GetSalt, splitSalt. by rewrite decide_True.
  - rewrite serverSaltGenerator_GetSalt_eq by lia.
    destruct (rand_Read _ _) as [[p ent'']|]; [|done]. intros [= <- _].
    unfold serverSaltGenerator_IsServerSalt. rewrite splitSalt_app.
    + by apply bool_decide_eq_true.
    + by rewrite length_take, length_getTag.
Qed.

End ServerSaltLemmas.

Section SaltProperties.
Context `{CryptoLaws}.

(** A salt produced by the server's generator is exactly as long as the
    buffer, starts with fresh entropy, and is recognised as a server salt by
    every generator made from the same secret (so a reflected server stream is
    detected); a buffer shorter than the mark is an error, leaves buffer and
    entropy alone, and such short salts are never recognised. *)
Theorem server_salt_recognized (secret : string) (salt ent : bytes) :
  (serverSaltMarkLen <= length salt ->
   length salt - serverSaltMarkLen <= length ent ->
   exists p m,
     GetSalt (server_gen (NewServerSaltGenerator secret)) salt ent =
       (None, p ++ m, drop (length salt - serverSaltMarkLen) ent) /\
     p = take (length salt - serverSaltMarkLen) ent /\
     length (p ++ m) = length salt /\
     IsServerSalt (NewServerSaltGenerator secret) (p ++ m) = true) /\
  (length salt < serverSaltMarkLen ->
   GetSalt (server_gen (NewServerSaltGenerator secret)) salt ent =
     (Some (Errorf "Salt is too short"), salt, ent) /\
   IsServerSalt (NewServerSaltGenerator secret) salt = false).
Proof.
  split.
  - intros Hs He. simpl. rewrite serverSaltGenerator_GetSalt_eq by done.
    unfold rand_Read. rewrite decide_True by done.
    set (p := take (length salt - serverSaltMarkLen) ent).
    set (m := take serverSaltMarkLen (getTag (serverSalt_key secret) p)).
    assert (length m = serverSaltMarkLen) as Hm.
    { unfold m. rewrite length_take, length_getTag. done. }
    exists p, m. split_and!; [done..| |].
    + rewrite length_app, Hm. unfold p. rewrite length_take. lia.
    + unfold serverSaltGenerator_IsServerSalt. rewrite splitSalt_app by done.
      by apply bool_decide_eq_true.
  - intros Hs. simpl. unfold serverSaltGenerator_GetSalt,
      serverSaltGenerator_IsServerSalt, splitSalt. by rewrite decide_True.
Qed.

(** The client's prefix generator outputs the prefix followed by fresh
    entropy, exactly filling the buffer; a prefix longer than the salt is an
    error and consumes no entropy. *)
Theorem prefix_salt_spec (prefix salt ent : bytes) :
  (length prefix <= length salt -> length salt - length prefix <= length ent ->
   GetSalt (NewPrefixSaltGenerator prefix) salt ent =
     (None, prefix ++ take (length salt - length prefix) ent,
      drop (length salt - length prefix) ent)) /\
  (length salt < length prefix ->
   GetSalt (NewPrefixSaltGenerator prefix) salt ent =
     (Some (Errorf "prefix is too long"), take (length salt) prefix, ent)).
Proof.
  simpl. unfold prefixSaltGenerator_GetSalt. split.
  - intros Hp He. rewrite Nat.min_l, decide_False by lia.
    rewrite length_splice by lia. unfold rand_Read. rewrite decide_True by done.
    f_equal. f_equal. rewrite splice_fit.
    + rewrite splice_fit by (simpl; lia). rewrite take_0, app_nil_l, Nat.add_0_l.
      rewrite take_app_length, drop_ge, app_nil_r; [done|].
      rewrite length_take, length_app, length_drop. lia.
    + rewrite length_splice, length_take by lia. lia.
  - intros Hp. rewrite Nat.min_r, decide_True by lia. f_equal. f_equal.
    unfold splice. rewrite Nat.sub_0_r, Nat.min_r by lia.
    rewrite take_0, app_nil_l, drop_ge, app_nil_r by lia. done.
Qed.

End SaltProperties.

Lemma server_salt_recognized_witness :
  IsServerSalt (NewServerSaltGenerator "Secret1")
    (snd (fst (GetSalt (server_gen (NewServerSaltGenerator "Secret1"))
      (zeros 32) (expand 7 40)))) = true.
Proof.
  destruct (proj1 (server_salt_recognized "Secret1" (zeros 32) (expand 7 40)))
    as (p & m & E & _ & _ & Hrec).
  - vm_compute. lia.
  - vm_compute. lia.
  - rewrite E. exact Hrec.
Defined.
