(* ===== verification/Packet.v ===== *)
(** * [shadowsocks/packet.go]: Shadowsocks-UDP packets

    [Pack] encrypts into a caller-supplied buffer that may hold the plaintext
    itself, so it is modelled over the memory [mem] both slices live in: [dst]
    is [mem[lo:hi]], the plaintext either another slice of [mem] or a separate
    array. *)
From S2P Require Import Prelude GoIO Cipher ToyCrypto Salt.

(** A byte slice argument: in the array of [dst], or elsewhere. *)
Inductive operand : Type :=
| InBuf (lo hi : nat)
| Separate (b : bytes).

Definition operand_len (p : operand) : nat :=
  match p with InBuf lo hi => hi - lo | Separate b => length b end.

Definition operand_read (mem : bytes) (p : operand) : bytes :=
  match p with InBuf lo hi => slice lo hi mem | Separate b => b end.

(** The AEADs refuse a plaintext that overlaps the output region
    [mem[off:off+n]] without starting at its first byte. *)
Definition inexact_overlap (p : operand) (off n : nat) : Prop :=
  match p with
  | InBuf lo hi => lo < hi /\ 0 < n /\ lo <> off /\ lo < off + n /\ off < hi
  | Separate _ => False
  end.

#[export] Instance inexact_overlap_dec p off n : Decision (inexact_overlap p off n).
Proof. destruct p; simpl; apply _. Defined.

Section PacketDefs.
Context `{CryptoOps}.

(** [Pack(dst, plaintext, cipher)]: the packet or error, the memory and the
    entropy source afterwards. *)
Definition Pack (mem : bytes) (lo hi : nat) (plaintext : operand) (c : Cipher)
    (ent : bytes) : outcome bytes * bytes * bytes :=
  let saltSize := SaltSize c in
  if decide (hi - lo < saltSize) then (Err ErrShortBuffer, mem, ent)
  else
    let '(e, salt, ent) :=
      GetSalt RandomSaltGenerator (slice lo (lo + saltSize) mem) ent in
    let mem := splice mem lo salt in
    match e with
    | Some err => (Err err, mem, ent)
    | None =>
      match NewAEAD c salt with
      | Err err => (Err err, mem, ent)
      | Panic s => (Panic s, mem, ent)
      | Ret aead =>
        let n := operand_len plaintext + Overhead aead in
        if decide (hi - lo < saltSize + n) then (Err ErrShortBuffer, mem, ent)
        else
          match zeroNonce (NonceSize aead) with
          | Err err => (Err err, mem, ent)
          | Panic s => (Panic s, mem, ent)
          | Ret nonce =>
            if decide (inexact_overlap plaintext (lo + saltSize) n)
            then (Panic "invalid buffer overlap", mem, ent)
            else
              let ct := Seal aead nonce (operand_read mem plaintext) in
              (Ret (salt ++ ct), splice mem (lo + saltSize) ct, ent)
          end
      end
    end.

(** [ErrShortPacket], [DecryptOnce] and the buffer of the result: [dst] is
    [None] for in-place decryption, else the capacity of [dst]. *)
Definition Unpack (dst : option nat) (pkt : bytes) (c : Cipher) : outcome bytes :=
  let saltSize := SaltSize c in
  if decide (length pkt < saltSize) then Err ErrShortPacket
  else
    let salt := take saltSize pkt in
    let msg := drop saltSize pkt in
    let dcap := default (length msg) dst in
    DecryptOnce c salt [] dcap msg.

End PacketDefs.

Section PacketLemmas.
Context `{CryptoLaws}.

(** A plaintext that can be sealed at [lo + SaltSize c]. *)
Definition aligned (p : operand) (off bound : nat) : Prop :=
  match p with
  | InBuf lo hi => lo = off /\ lo <= hi <= bound
  | Separate _ => True
  end.

Lemma aligned_no_overlap p off bound n :
  aligned p off bound -> ~ inexact_overlap p off n.
Proof. destruct p; simpl; [lia|tauto]. Qed.

Lemma length_operand_read mem p off :
  aligned p off (length mem) -> length (operand_read mem p) = operand_len p.
Proof. destruct p; simpl; [|done]. intros [? ?]. apply length_slice. lia. Qed.

(** Writing below the plaintext does not disturb it. *)
Lemma operand_read_splice mem p off lo d :
  aligned p off (length mem) -> lo + length d <= off -> off <= length mem ->
  operand_read (splice mem lo d) p = operand_read mem p.
Proof.
  destruct p; simpl; [|done]. intros [-> ?] ? ?.
  apply slice_splice_above; lia.
Qed.

Lemma Pack_ok mem lo hi p c ent :
  wf_cipher c -> lo <= hi <= length mem ->
  aligned p (lo + SaltSize c) (length mem) ->
  SaltSize c + operand_len p + 16 <= hi - lo ->
  SaltSize c <= length ent ->
  exists a, let salt := take (SaltSize c) ent in
    NewAEAD c salt = Ret a /\ standard_AEAD a /\
    let pkt := salt ++ Seal a (zeros 12) (operand_read mem p) in
    Pack mem lo hi p c ent =
      (Ret pkt, splice mem lo pkt, drop (SaltSize c) ent).
Proof.
  intros Hwf Hb Hal Hroom Hent. set (salt := take (SaltSize c) ent).
  destruct (NewAEAD_ok c salt Hwf) as (a & Ha & Hstd).
  pose proof Hstd as (Hlaws & Hn & Ho).
  exists a. simpl. split_and!; [done..|].
  assert (length salt = SaltSize c) as Hsalt.
  { unfold salt. rewrite length_take. lia. }
  unfold Pack. rewrite decide_False by lia. simpl.
  unfold randomSaltGenerator_GetSalt. rewrite length_slice by lia.
  replace (lo + SaltSize c - lo) with (SaltSize c) by lia.
  unfold rand_Read. rewrite decide_True by done. fold salt.
  rewrite Ha, Ho, Hn. rewrite decide_False by lia.
  unfold zeroNonce. rewrite (decide_True (P := 12 <= 12)) by lia.
  rewrite decide_False by (by eapply aligned_no_overlap).
  rewrite (operand_read_splice mem p (lo + SaltSize c)) by (done || lia).
  set (ct := Seal a (zeros 12) (operand_read mem p)).
  assert (length ct = operand_len p + 16) as Hct.
  { unfold ct. rewrite length_Seal by (by rewrite Hn).
    rewrite (length_operand_read mem p _ Hal). lia. }
  f_equal. f_equal.
  rewrite (splice_fit mem lo (salt ++ ct)) by (rewrite length_app; lia).
  rewrite splice_fit by (rewrite length_splice; lia).
  rewrite (splice_fit mem lo salt) by lia. rewrite length_app, Hsalt, Hct.
  rewrite !app_assoc. f_equal; [f_equal|].
  - rewrite take_app_le by (rewrite length_app, length_take; lia).
    apply take_ge. rewrite length_app, length_take. lia.
  - rewrite <- !app_assoc. rewrite drop_app_ge by (rewrite length_take; lia).
    rewrite drop_app_ge by (rewrite length_take; lia).
    rewrite drop_drop. f_equal. rewrite length_take. lia.
Qed.

Lemma Unpack_eq c salt ct dst :
  wf_cipher c -> length salt = SaltSize c ->
  exists a, NewAEAD c salt = Ret a /\ standard_AEAD a /\
  Unpack dst (salt ++ ct) c =
    if decide (length ct < 16) then Err ErrUnexpectedEOF
    else if decide (default (length ct) dst < length ct - 16)
    then Err ErrShortBuffer
    else match Open a (zeros 12) ct with
         | Some p => Ret p
         | None => Err errOpen
         end.
Proof.
  intros Hwf Hs. destruct (NewAEAD_ok c salt Hwf) as (a & Ha & Hstd).
  exists a. split_and!; [done..|]. unfold Unpack.
  rewrite length_app, decide_False by lia.
  rewrite <- Hs, take_app_length, drop_app_length.
  rewrite (DecryptOnce_eq c salt a [] _ _ Ha Hstd). simpl length.
  by rewrite Nat.sub_0_r.
Qed.

End PacketLemmas.

Section PacketProperties.
Context `{CryptoLaws}.

(** A packet that does not fit is refused. *)
Lemma Pack_short mem lo hi p c ent :
  wf_cipher c -> lo <= hi <= length mem -> SaltSize c <= length ent ->
  hi - lo < SaltSize c + operand_len p + 16 ->
  exists mem' ent', Pack mem lo hi p c ent = (Err ErrShortBuffer, mem', ent') /\
    length mem' = length mem /\ length ent - SaltSize c <= length ent'.
Proof.
  intros Hwf Hb Hent Hshort. unfold Pack.
  case_decide as Hs; [eexists _, _; split_and!; [done|done|lia]|].
  assert (length (slice lo (lo + SaltSize c) mem) = SaltSize c) as Hl
    by (rewrite length_slice; lia).
  simpl. unfold randomSaltGenerator_GetSalt, rand_Read.
  rewrite Hl, decide_True by done.
  destruct (NewAEAD_ok c (take (SaltSize c) ent) Hwf) as (a & -> & _ & _ & Ho).
  rewrite Ho, decide_True by lia. eexists _, _. split_and!; [done| |].
  - apply length_splice. lia.
  - rewrite length_drop. lia.
Qed.

(** A packet that fits is opened to what was packed. *)
Lemma Pack_roundtrip (mem : bytes) (lo hi : nat) (p : operand) (c : Cipher)
    (ent : bytes) (dst : option nat) :
  wf_cipher c -> lo <= hi <= length mem ->
  aligned p (lo + SaltSize c) (length mem) ->
  SaltSize c + operand_len p + TagSize c <= hi - lo ->
  SaltSize c <= length ent ->
  operand_len p <= default (operand_len p) dst ->
  exists pkt,
    Pack mem lo hi p c ent = (Ret pkt, splice mem lo pkt, drop (SaltSize c) ent) /\
    length pkt = SaltSize c + operand_len p + TagSize c /\
    take (SaltSize c) pkt = take (SaltSize c) ent /\
    Unpack dst pkt c = Ret (operand_read mem p).
Proof.
  intros Hwf Hb Hal Hroom Hent Hdst.
  destruct (wf_cipher_sizes c Hwf) as [Ht _]. rewrite Ht in *.
  destruct (Pack_ok mem lo hi p c ent) as (a & Ha & Hstd & HP); [done..|].
  pose proof Hstd as (Hlaws & Hn & Ho).
  set (salt := take (SaltSize c) ent) in *.
  assert (length salt = SaltSize c) as Hsalt
    by (unfold salt; rewrite length_take; lia).
  eexists. split; [exact HP|].
  assert (length (Seal a (zeros 12) (operand_read mem p)) = operand_len p + 16)
    as Hct.
  { rewrite length_Seal by (by rewrite Hn).
    rewrite (length_operand_read mem p _ Hal). lia. }
  split_and!.
  - rewrite length_app, Hct. lia.
  - rewrite <- Hsalt at 1. by rewrite take_app_length.
  - destruct (Unpack_eq c salt (Seal a (zeros 12) (operand_read mem p)) dst Hwf Hsalt)
      as (a' & Ha' & _ & ->). rewrite Ha in Ha'. simplify_eq.
    rewrite Hct, decide_False by lia. rewrite decide_False.
    + by rewrite Open_Seal by (by rewrite Hn).
    + destruct dst; simpl in *; lia.
Qed.

(** C35: whenever the buffer has room and the plaintext is a separate array or
    starts where the ciphertext will, [Pack] succeeds, writes exactly the
    packet into [dst] and nothing else, and [Unpack] with the same cipher, in
    place or into any buffer that can hold the plaintext, gives the plaintext
    back. *)
Theorem pack_unpack (mem : bytes) (lo hi : nat) (p : operand) (c : Cipher)
    (ent : bytes) (dst : option nat) :
  wf_cipher c -> lo <= hi <= length mem ->
  aligned p (lo + SaltSize c) (length mem) ->
  SaltSize c + operand_len p + TagSize c <= hi - lo ->
  SaltSize c <= length ent ->
  operand_len p <= default (operand_len p) dst ->
  exists pkt,
    Pack mem lo hi p c ent = (Ret pkt, splice mem lo pkt, drop (SaltSize c) ent) /\
    length pkt = SaltSize c + operand_len p + TagSize c /\
    take (SaltSize c) pkt = take (SaltSize c) ent /\
    Unpack dst pkt c = Ret (operand_read mem p).
Proof. apply Pack_roundtrip. Qed.

(** C37: which result [Unpack] has, on every input.  Fewer bytes than a salt is
    [ErrShortPacket]; fewer than a tag after the salt is [ErrUnexpectedEOF]; a
    destination smaller than the plaintext is [ErrShortBuffer]; and otherwise the
    AEAD under the packet's own salt decides: what it authenticates is returned,
    anything else is its authentication error.  The result is thus a function of
    the packet, and what is returned has the length of the packet less the salt
    and the tag. *)
Theorem unpack_errors (dst : option nat) (pkt : bytes) (c : Cipher) :
  wf_cipher c ->
  exists a, NewAEAD c (take (SaltSize c) pkt) = Ret a /\ standard_AEAD a /\
    Unpack dst pkt c =
      (if decide (length pkt < SaltSize c) then Err ErrShortPacket
       else if decide (length pkt < SaltSize c + TagSize c) then Err ErrUnexpectedEOF
       else if decide (default (length pkt) dst < length pkt - SaltSize c - TagSize c)
       then Err ErrShortBuffer
       else match Open a (zeros 12) (drop (SaltSize c) pkt) with
            | Some p => Ret p
            | None => Err errOpen
            end) /\
    forall p, Unpack dst pkt c = Ret p -> length pkt = SaltSize c + length p + TagSize c.
Proof.
  intros Hwf. destruct (wf_cipher_sizes c Hwf) as [Ht _]. rewrite Ht.
  destruct (decide (length pkt < SaltSize c)) as [Hlt|Hge].
  { destruct (NewAEAD_ok c (take (SaltSize c) pkt) Hwf) as (a & Ha & Hstd).
    exists a. unfold Unpack. by rewrite decide_True by done. }
  assert (length (take (SaltSize c) pkt) = SaltSize c) as Hs
    by (rewrite length_take; lia).
  destruct (Unpack_eq c _ (drop (SaltSize c) pkt) dst Hwf Hs) as (a & Ha & Hstd & E).
  rewrite firstn_skipn, length_drop in E. exists a. rewrite E. split_and!; [done|done| |].
  - repeat case_decide; first [done|lia|destruct dst; simpl in *; lia].
  - intros p. repeat case_decide; [done..|].
    destruct (Open _ _ _) as [q|] eqn:Eo; [|done]. intros [= <-].
    destruct Hstd as (Hlaws & _ & Ho). pose proof (length_Open _ _ _ Eo) as Hl.
    rewrite length_drop in Hl. lia.
Qed.

End PacketProperties.

(** A packet sealed in place: the plaintext sits after the room for the salt. *)
Definition demo_mem : bytes := zeros 20 ++ string_bytes "payload" ++ zeros 40.

Lemma pack_unpack_witness :
  exists pkt,
    Pack demo_mem 4 67 (InBuf 20 27) toy_cipher (expand 9 16) =
      (Ret pkt, splice demo_mem 4 pkt, []) /\
    Unpack None pkt toy_cipher = Ret (string_bytes "payload").
Proof.
  destruct (pack_unpack demo_mem 4 67 (InBuf 20 27) toy_cipher (expand 9 16) None)
    as (pkt & E & _ & _ & U).
  - apply toy_cipher_wf.
  - vm_compute. lia.
  - vm_compute. lia.
  - vm_compute. lia.
  - vm_compute. lia.
  - vm_compute. lia.
  - exists pkt. split; [exact E|]. rewrite U. vm_compute. reflexivity.
Defined.

(** A packet that is one byte off, and one that is too short. *)
Definition demo_pkt : bytes :=
  match Pack demo_mem 4 67 (InBuf 20 27) toy_cipher (expand 9 16) with
  | (Ret pkt, _, _) => pkt
  | _ => []
  end.

Lemma unpack_errors_witness :
  Unpack None (zeros 5) toy_cipher = Err ErrShortPacket /\
  Unpack (Some 3) demo_pkt toy_cipher = Err ErrShortBuffer /\
  Unpack None (take 38 demo_pkt ++ [zero]) toy_cipher = Err errOpen /\
  length demo_pkt = 39.
Proof.
  destruct (unpack_errors None (zeros 5) toy_cipher toy_cipher_wf) as (a1 & _ & _ & E1 & _).
  destruct (unpack_errors (Some 3) demo_pkt toy_cipher toy_cipher_wf) as (a2 & _ & _ & E2 & _).
  destruct (unpack_errors None (take 38 demo_pkt ++ [zero]) toy_cipher toy_cipher_wf)
    as (a3 & _ & _ & E3 & _).
  split_and!; [rewrite E1; reflexivity|rewrite E2; vm_compute; reflexivity| |vm_compute; reflexivity].
  vm_compute. reflexivity.
Defined.
