(* ===== verification/SlicePool.v ===== *)
(** * [internal/slicepool]: a pool of equal-length buffers

    A [Pool] wraps a [sync.Pool] of [*[]byte].  Buffers are identified by their
    address (a [nat]); [bufs] records the length and capacity of every buffer
    ever made, [free] the buffers in the [sync.Pool].  [sync.Pool.Get] may
    return any free buffer or make a new one, and may forget free buffers at
    any time: the choices are the list [picks].  The contents of a pooled
    buffer are arbitrary, so they are not part of the state. *)
From S2P Require Import Prelude.

Record Pool := MkPool {
  plen : nat;
  free : list nat;
  bufs : gmap nat (nat * nat);
  picks : list (option nat);
}.

Definition MakePool (sliceLen : nat) (choices : list (option nat)) : Pool :=
  MkPool sliceLen [] ∅ choices.

(** [New]: a slice of [sliceLen] bytes at a fresh address. *)
Definition pool_new (p : Pool) (rest : list (option nat)) : nat * Pool :=
  let b := fresh (dom (bufs p)) in
  (b, MkPool (plen p) (free p) (<[b := (plen p, plen p)]> (bufs p)) rest).

(** [p.pool.Get()] *)
Definition get (p : Pool) : nat * Pool :=
  match picks p with
  | Some i :: rest =>
    match free p !! i with
    | Some b => (b, MkPool (plen p) (delete i (free p)) (bufs p) rest)
    | None => pool_new p rest
    end
  | _ :: rest => pool_new p rest
  | [] => pool_new p []
  end.

Definition put (p : Pool) (b : nat) : outcome Pool :=
  match bufs p !! b with
  | Some (l, c) =>
    if decide (l <> plen p \/ c <> plen p) then Panic "Buffer length mismatch"
    else Ret (MkPool (plen p) (b :: free p) (bufs p) (picks p))
  | None => Panic "nil dereference"
  end.

(** [LazySlice] holds 0 or 1 slices of a pool. *)
Record LazySlice := MkLazySlice { held : option nat }.

Definition Pool_LazySlice : LazySlice := MkLazySlice None.

(** [Acquire] returns the buffer; its length and capacity are in [bufs]. *)
Definition Acquire (p : Pool) (ls : LazySlice)
  : outcome (nat * Pool * LazySlice) :=
  match held ls with
  | Some _ => Panic "buffer already acquired"
  | None => let '(b, p') := get p in Ret (b, p', MkLazySlice (Some b))
  end.

Definition Release (p : Pool) (ls : LazySlice) : outcome (Pool * LazySlice) :=
  match held ls with
  | Some b =>
    match put p b with
    | Ret p' => Ret (p', MkLazySlice None)
    | Err e => Err e
    | Panic s => Panic s
    end
  | None => Ret (p, ls)
  end.

(** The capacity of a buffer. *)
Definition buf_cap (p : Pool) (b : nat) : nat :=
  match bufs p !! b with Some (_, c) => c | None => 0 end.

(** ** Many holders of one pool

    The program's goroutines share a pool, each through its own [LazySlice];
    [sync.Pool] makes [Get] and [Put] atomic. *)
Record PoolState := MkPS { ps_pool : Pool; ps_slices : list LazySlice }.

Inductive pool_step : PoolState -> PoolState -> Prop :=
| step_lazy p ls :
    pool_step (MkPS p ls) (MkPS p (ls ++ [Pool_LazySlice]))
| step_acquire p p' ls i l b l' :
    ls !! i = Some l -> Acquire p l = Ret (b, p', l') ->
    pool_step (MkPS p ls) (MkPS p' (<[i := l']> ls))
| step_release p p' ls i l l' :
    ls !! i = Some l -> Release p l = Ret (p', l') ->
    pool_step (MkPS p ls) (MkPS p' (<[i := l']> ls))
| step_gc p ls k :
    pool_step (MkPS p ls)
      (MkPS (MkPool (plen p) (drop k (free p)) (bufs p) (picks p)) ls).

Definition held_bufs (ls : list LazySlice) : list nat := omap held ls.

(** Every buffer in use or free exists, has the pool's length, and is in one
    place only. *)
Record pool_inv (s : PoolState) : Prop := {
  inv_nodup : NoDup (held_bufs (ps_slices s) ++ free (ps_pool s));
  inv_lens : forall b,
    b ∈ held_bufs (ps_slices s) ++ free (ps_pool s) ->
    bufs (ps_pool s) !! b = Some (plen (ps_pool s), plen (ps_pool s));
}.

(** The single-holder view used by the stream reader. *)
Definition pool_ok (p : Pool) (l : LazySlice) : Prop := pool_inv (MkPS p [l]).

(** ** Lemmas *)

Lemma get_spec p b p' :
  get p = (b, p') ->
  plen p' = plen p /\
  ((exists i, free p !! i = Some b /\ free p' = delete i (free p) /\
      bufs p' = bufs p) \/
   (free p' = free p /\ bufs p !! b = None /\
      bufs p' = <[b := (plen p, plen p)]> (bufs p))).
Proof.
  assert (forall rest, pool_new p rest = (b, p') ->
    plen p' = plen p /\ free p' = free p /\ bufs p !! b = None /\
      bufs p' = <[b := (plen p, plen p)]> (bufs p)) as Hnew.
  { unfold pool_new. intros rest [= <- <-]. split_and!; [done..| |done].
    apply not_elem_of_dom, is_fresh. }
  unfold get. destruct (picks p) as [|[i|] rest].
  - intros (? & ? & ? & ?)%Hnew. eauto 6.
  - destruct (free p !! i) as [b'|] eqn:E.
    + intros [= <- <-]. eauto 10.
    + intros (? & ? & ? & ?)%Hnew. eauto 6.
  - intros (? & ? & ? & ?)%Hnew. eauto 6.
Qed.

Lemma held_bufs_insert ls i l l' :
  ls !! i = Some l ->
  exists xs ys, held_bufs ls = xs ++ option_list (held l) ++ ys /\
    held_bufs (<[i := l']> ls) = xs ++ option_list (held l') ++ ys.
Proof.
  intros Hi. exists (held_bufs (take i ls)), (held_bufs (drop (S i) ls)).
  assert (forall m : LazySlice, held_bufs [m] = option_list (held m)) as Hone.
  { intros m. unfold held_bufs. simpl. by destruct (held m). }
  unfold held_bufs in *. split.
  - rewrite <- (take_drop_middle ls i l) at 1 by done.
    rewrite omap_app. f_equal. rewrite <- Hone.
    change (l :: drop (S i) ls) with ([l] ++ drop (S i) ls).
    by rewrite omap_app.
  - rewrite insert_take_drop by (by eapply lookup_lt_Some).
    rewrite omap_app. f_equal. rewrite <- Hone.
    change (l' :: drop (S i) ls) with ([l'] ++ drop (S i) ls).
    by rewrite omap_app.
Qed.

Lemma pool_inv_acquire p p' ls i l b l' :
  pool_inv (MkPS p ls) -> ls !! i = Some l -> Acquire p l = Ret (b, p', l') ->
  pool_inv (MkPS p' (<[i := l']> ls)).
Proof.
  intros [Hnd Hlen] Hi Ha. unfold Acquire in Ha.
  destruct (held l) eqn:Hl; [done|].
  destruct (get p) as [b' p''] eqn:Hg. simplify_eq.
  destruct (held_bufs_insert ls i l (MkLazySlice (Some b)) Hi) as (xs & ys & E & E').
  rewrite Hl in E. simpl in E, E'. simpl in Hnd, Hlen.
  rewrite E in *. apply get_spec in Hg as [Hpl [(j & Hj & Hf & Hb)|(Hf & Hb & Hb')]].
  - assert (held_bufs (<[i := MkLazySlice (Some b)]> ls) ++ free p' ≡ₚ
      (xs ++ ys) ++ free p) as HP.
    { pose proof (delete_Permutation (free p) j b Hj) as HPf. rewrite E', Hf.
      trans ((xs ++ ys) ++ b :: delete j (free p)); [|by rewrite <- HPf].
      simpl. by rewrite <- (Permutation_middle xs ys b),
        <- (Permutation_middle (xs ++ ys) (delete j (free p)) b). }
    split; simpl.
    + by rewrite HP.
    + intros c. rewrite HP, Hb, Hpl. apply Hlen.
  - assert (held_bufs (<[i := MkLazySlice (Some b)]> ls) ++ free p' ≡ₚ
      b :: (xs ++ ys) ++ free p) as HP.
    { rewrite E', Hf. simpl. by rewrite <- (Permutation_middle xs ys b). }
    split; simpl.
    + rewrite HP. apply NoDup_cons. split; [|done].
      intros Hin%Hlen. congruence.
    + intros c. rewrite HP, Hb', Hpl, elem_of_cons. intros [->|Hc].
      * apply lookup_insert_eq.
      * rewrite lookup_insert_ne; [by apply Hlen|].
        intros <-. apply Hlen in Hc. congruence.
Qed.

Lemma pool_inv_release p p' ls i l l' :
  pool_inv (MkPS p ls) -> ls !! i = Some l -> Release p l = Ret (p', l') ->
  pool_inv (MkPS p' (<[i := l']> ls)).
Proof.
  intros [Hnd Hlen] Hi Hr. unfold Release in Hr.
  destruct (held l) as [b|] eqn:Hl; simplify_eq; [|by rewrite list_insert_id].
  unfold put in Hr. destruct (bufs p !! b) as [[n c]|] eqn:Hb; [|done].
  case_decide; [done|]. simplify_eq.
  destruct (held_bufs_insert ls i l (MkLazySlice None) Hi) as (xs & ys & E & E').
  rewrite Hl in E. simpl in E, E'. simpl in *. rewrite E in *.
  assert (held_bufs (<[i := MkLazySlice None]> ls) ++ b :: free p ≡ₚ
    (xs ++ b :: ys) ++ free p) as HP.
  { rewrite E'. simpl. by rewrite <- (Permutation_middle xs ys b),
      <- (Permutation_middle (xs ++ ys) (free p) b). }
  split; simpl.
  - by rewrite HP.
  - intros c'. rewrite HP. apply Hlen.
Qed.

Lemma pool_inv_step s s' : pool_step s s' -> pool_inv s -> pool_inv s'.
Proof.
  destruct 1 as [p ls|p p' ls i l b l' Hi Ha|p p' ls i l l' Hi Hr|p ls k];
    intros Hinv.
  - destruct Hinv as [Hnd Hl]. split; simpl in *;
      unfold held_bufs in *; rewrite omap_app; simpl; by rewrite app_nil_r.
  - by eapply pool_inv_acquire.
  - by eapply pool_inv_release.
  - destruct Hinv as [Hnd Hl]. simpl in *.
    rewrite <- (firstn_skipn k (free p)) in Hnd, Hl. split; simpl.
    + rewrite (Permutation_app_comm (take k (free p))), app_assoc in Hnd.
      by apply NoDup_app in Hnd as (? & _).
    + intros b. rewrite elem_of_app. intros [Hb|Hb]; apply Hl;
        rewrite !elem_of_app; auto.
Qed.

Lemma pool_inv_reach s s' : rtc pool_step s s' -> pool_inv s -> pool_inv s'.
Proof. induction 1; eauto using pool_inv_step. Qed.

Lemma pool_inv_init n choices : pool_inv (MkPS (MakePool n choices) []).
Proof. split; simpl; [apply NoDup_nil_2|intros b Hb; by apply not_elem_of_nil in Hb]. Qed.

Lemma pool_ok_init n choices : pool_ok (MakePool n choices) Pool_LazySlice.
Proof. split; simpl; [apply NoDup_nil_2|intros b Hb; by apply not_elem_of_nil in Hb]. Qed.

(** Releasing always succeeds, and acquiring an empty slice gives a buffer of
    the pool's capacity. *)
Lemma Release_ok p l :
  pool_ok p l -> exists p', Release p l = Ret (p', MkLazySlice None) /\
    pool_ok p' (MkLazySlice None) /\ plen p' = plen p.
Proof.
  intros Hok. unfold Release. destruct (held l) as [b|] eqn:Hl.
  - assert (bufs p !! b = Some (plen p, plen p)) as Hb.
    { apply (inv_lens _ Hok). unfold held_bufs. simpl. rewrite Hl. set_solver. }
    assert (put p b = Ret (MkPool (plen p) (b :: free p) (bufs p) (picks p))) as Hp.
    { unfold put. rewrite Hb. rewrite decide_False; [done|]. by intros [?|?]. }
    rewrite Hp. eexists. split_and!; [done| |done].
    apply (pool_inv_release p _ [l] 0 l (MkLazySlice None) Hok eq_refl).
    unfold Release. by rewrite Hl, Hp.
  - destruct l as [h]. simpl in Hl. subst h. eauto.
Qed.

Lemma Acquire_ok p :
  pool_ok p (MkLazySlice None) ->
  exists b p', Acquire p (MkLazySlice None) = Ret (b, p', MkLazySlice (Some b)) /\
    pool_ok p' (MkLazySlice (Some b)) /\ plen p' = plen p /\ buf_cap p' b = plen p.
Proof.
  intros Hok. unfold Acquire. simpl. destruct (get p) as [b p'] eqn:Hg.
  assert (pool_ok p' (MkLazySlice (Some b))) as Hok'.
  { apply (pool_inv_acquire p p' [MkLazySlice None] 0 (MkLazySlice None) b
      (MkLazySlice (Some b)) Hok eq_refl). unfold Acquire. simpl. by rewrite Hg. }
  apply get_spec in Hg as [Hpl _].
  exists b, p'. split_and!; [done..|]. unfold buf_cap.
  pose proof (inv_lens _ Hok' b) as Hlen. simpl in Hlen.
  rewrite Hlen by apply list_elem_of_here. by rewrite Hpl.
Qed.

(** ** Properties *)

(** C39: in every reachable state of a pool shared by any number of holders, two
    different [LazySlice]s never hold the same buffer, a held buffer is not
    free, and every [Release] succeeds: the length check of [put] never
    panics. *)
Theorem pool_exclusive (n : nat) (choices : list (option nat)) (s : PoolState) :
  rtc pool_step (MkPS (MakePool n choices) []) s ->
  (forall i j li lj b,
     ps_slices s !! i = Some li -> ps_slices s !! j = Some lj ->
     held li = Some b -> held lj = Some b -> i = j) /\
  (forall i li b, ps_slices s !! i = Some li -> held li = Some b ->
     b ∉ free (ps_pool s)) /\
  (forall i li, ps_slices s !! i = Some li ->
     exists p', Release (ps_pool s) li = Ret (p', MkLazySlice None)).
Proof.
  intros Hr. apply pool_inv_reach in Hr; [|apply pool_inv_init].
  destruct s as [p ls]; simpl. split_and!.
  - intros i j li lj b Hi Hj Hbi Hbj.
    destruct (decide (i = j)) as [|Hne]; [done|]. exfalso.
    destruct (held_bufs_insert ls i li Pool_LazySlice Hi) as (xs & ys & E & E').
    rewrite Hbi in E. simpl in E, E'.
    assert (b ∈ xs ++ ys) as Hin.
    { rewrite <- E'. apply list_elem_of_omap. exists lj. split; [|done].
      apply list_elem_of_lookup. exists j. by rewrite list_lookup_insert_ne. }
    destruct Hr as [Hnd _]. simpl in Hnd. rewrite E in Hnd.
    apply NoDup_app in Hnd as [Hnd _].
    rewrite <- Permutation_middle in Hnd. by apply NoDup_cons in Hnd as [? _].
  - intros i li b Hi Hb Hf. destruct Hr as [Hnd _]. simpl in Hnd.
    apply NoDup_app in Hnd as (_ & Hdis & _). apply (Hdis b); [|done].
    apply list_elem_of_omap. exists li. split; [|done].
    by eapply list_elem_of_lookup_2.
  - intros i li Hi. unfold Release. destruct (held li) as [b|] eqn:Hb.
    + assert (bufs p !! b = Some (plen p, plen p)) as Hlen.
      { apply (inv_lens _ Hr). simpl. apply elem_of_app. left.
        apply list_elem_of_omap. exists li. split; [|done].
        by eapply list_elem_of_lookup_2. }
      unfold put. rewrite Hlen, decide_False by (by intros [?|?]). eauto.
    + destruct li as [h]. simpl in Hb. subst h. eauto.
Qed.

(** Two holders of one pool; the second got the buffer the first released. *)
Definition demo_state : PoolState :=
  MkPS (MkPool 8 [] (<[0 := (8, 8)]> ∅) []) [MkLazySlice None; MkLazySlice (Some 0)].

Lemma demo_reach : rtc pool_step (MkPS (MakePool 8 [None; Some 0]) []) demo_state.
Proof.
  do 2 (eapply rtc_l; [apply step_lazy|]).
  eapply rtc_l; [eapply (step_acquire _ _ _ 0); reflexivity|].
  eapply rtc_l; [eapply (step_release _ _ _ 0); reflexivity|].
  eapply rtc_l; [eapply (step_acquire _ _ _ 1); reflexivity|].
  apply rtc_refl.
Qed.

Lemma pool_exclusive_witness :
  (0 ∉ free (ps_pool demo_state)) /\
  exists p', Release (ps_pool demo_state) (MkLazySlice (Some 0)) =
    Ret (p', MkLazySlice None).
Proof.
  destruct (pool_exclusive 8 [None; Some 0] demo_state demo_reach) as (_ & Hfree & Hrel).
  split.
  - apply (Hfree 1 (MkLazySlice (Some 0))); reflexivity.
  - apply (Hrel 1). reflexivity.
Defined.
