(* ===== verification/Wire.v ===== *)
(** * The Shadowsocks-TCP stream format

    The part of [shadowsocks/stream.go] both ends share (the chunk size limit
    and the nonce counter), and the specification the two ends are proved
    against: [wire], the bytes of a list of chunks, and [decode], what a reader
    must make of an arbitrary byte string. *)
From S2P Require Import Prelude GoIO Cipher.

(** [payloadSizeMask = 0x3FFF]. *)
Definition payloadSizeMask : nat := Z.to_nat 0x3FFF.

(** ** The nonce counter *)

(** [increment]: little-endian, wrapping around on overflow. *)
Fixpoint increment (b : bytes) : bytes :=
  match b with
  | [] => []
  | x :: t =>
    let x' := byte_of_Z (byte_to_Z x + 1) in
    if decide (x' <> zero) then x' :: t else x' :: increment t
  end.

(** [isZero] *)
Fixpoint isZero (b : bytes) : bool :=
  match b with
  | [] => true
  | v :: t => if decide (v <> zero) then false else isZero t
  end.

(** The number a counter encodes. *)
Fixpoint le (b : bytes) : Z :=
  match b with
  | [] => 0
  | x :: t => byte_to_Z x + 256 * le t
  end.

(** The counter after [k] messages. *)
Definition nonce_at (n k : nat) : bytes := Nat.iter k increment (zeros n).

(** ** Encoding *)

Section WireDefs.
Variable a : AEAD.

(** One chunk: its sealed length, then its sealed payload. *)
Definition frame (k : nat) (p : bytes) : bytes :=
  Seal a (nonce_at (NonceSize a) k) (PutUint16 (Z.of_nat (length p))) ++
  Seal a (nonce_at (NonceSize a) (S k)) p.

Fixpoint wire (k : nat) (chunks : list bytes) : bytes :=
  match chunks with
  | [] => []
  | p :: rest => frame k p ++ wire (S (S k)) rest
  end.

(** The frames one by one, and the [Write] calls that carry them: the salt
    travels with the first frame. *)
Fixpoint frames (k : nat) (chunks : list bytes) : list bytes :=
  match chunks with
  | [] => []
  | p :: rest => frame k p :: frames (S (S k)) rest
  end.

Definition packets (salt : bytes) (chunks : list bytes) : list bytes :=
  match frames 0 chunks with
  | [] => []
  | f :: fs => (salt ++ f) :: fs
  end.

(** ** Decoding *)

Definition errDecrypt : error := Errorf "failed to decrypt".

(** The error of a failed read of the size block. *)
Definition size_error (e : error) : error :=
  if decide (e <> EOF /\ e <> ErrUnexpectedEOF)
  then Wrapf "failed to read payload size" e else e.

(** The error of a read that ends inside a payload. *)
Definition payload_error (e : error) : error :=
  if decide (e = EOF) then ErrUnexpectedEOF else e.

(** The size field: 14 bits of the two decrypted bytes. *)
Definition chunk_size (szb : bytes) : nat :=
  Z.to_nat (Z.land (Uint16 szb) 0x3FFF).

(** The next chunk of [input], whose end is the error [fin]: the payload and
    the remaining input, or the error. *)
Definition decode_chunk (k : nat) (input : bytes) (fin : error)
  : (bytes * bytes) + error :=
  let n1 := 2 + Overhead a in
  if decide (length input < n1) then inr (size_error (short_error input fin))
  else
    match Open a (nonce_at (NonceSize a) k) (take n1 input) with
    | None => inr (size_error errDecrypt)
    | Some szb =>
      let rest := drop n1 input in
      let n2 := chunk_size szb + Overhead a in
      if decide (length rest < n2)
      then inr (payload_error (short_error rest fin))
      else
        match Open a (nonce_at (NonceSize a) (S k)) (take n2 rest) with
        | None => inr errDecrypt
        | Some p => inl (p, drop n2 rest)
        end
    end.

(** All chunks up to the first error; every chunk takes some input, so
    [length input] rounds are enough. *)
Fixpoint decode_loop (fuel : nat) (k : nat) (input : bytes) (fin : error)
  : list bytes * error :=
  match fuel with
  | O => ([], Errorf "out of fuel")
  | S fuel =>
    match decode_chunk k input fin with
    | inr e => ([], e)
    | inl (p, rest) =>
      let '(ps, e) := decode_loop fuel (S (S k)) rest fin in (p :: ps, e)
    end
  end.

Definition decode (k : nat) (input : bytes) (fin : error) : list bytes * error :=
  decode_loop (S (length input)) k input fin.

End WireDefs.

(** ** Lemmas on counters *)

Lemma length_increment b : length (increment b) = length b.
Proof. induction b; simpl; [done|]. case_decide; simpl; congruence. Qed.

Lemma le_range b : (0 <= le b < 256 ^ Z.of_nat (length b))%Z.
Proof.
  induction b as [|x t IH]; simpl length; [simpl; lia|].
  rewrite Nat2Z.inj_succ, Z.pow_succ_r by lia. simpl.
  pose proof (byte_to_Z_range x). lia.
Qed.

Lemma increment_le b :
  le (increment b) = ((le b + 1) mod 256 ^ Z.of_nat (length b))%Z.
Proof.
  induction b as [|x t IH]; [done|].
  pose proof (byte_to_Z_range x). pose proof (le_range t) as Ht.
  change (length (x :: t)) with (S (length t)).
  rewrite Nat2Z.inj_succ, Z.pow_succ_r by lia.
  set (M := (256 ^ Z.of_nat (length t))%Z) in *.
  assert (byte_to_Z (byte_of_Z (byte_to_Z x + 1)) = ((byte_to_Z x + 1) mod 256)%Z)
    as Hx by apply byte_to_of_Z.
  simpl. case_decide as Hz; simpl; rewrite Hx.
  - assert (byte_to_Z x <> 255)%Z.
    { intros E. apply Hz, (inj byte_to_Z). by rewrite Hx, E. }
    rewrite !Z.mod_small by lia. lia.
  - assert (byte_to_Z x = 255)%Z as ->.
    { destruct (decide (byte_of_Z (byte_to_Z x + 1) = zero)) as [E|]; [|tauto].
      rewrite E in Hx. change (byte_to_Z zero) with 0%Z in Hx.
      destruct (Z.eq_dec (byte_to_Z x) 255); [done|].
      rewrite Z.mod_small in Hx; lia. }
    rewrite IH. change ((255 + 1) mod 256)%Z with 0%Z. rewrite Z.add_0_l.
    rewrite <- Z.mul_mod_distr_l by lia. f_equal; lia.
Qed.

Lemma length_nonce_at n k : length (nonce_at n k) = n.
Proof.
  unfold nonce_at. induction k; simpl; [apply length_replicate|].
  by rewrite length_increment.
Qed.

Lemma nonce_at_S n k : nonce_at n (S k) = increment (nonce_at n k).
Proof. done. Qed.

Lemma le_zeros n : le (zeros n) = 0%Z.
Proof. unfold zeros. induction n; simpl; [done|]. by rewrite IHn. Qed.

Lemma le_nonce_at n k :
  le (nonce_at n k) = (Z.of_nat k mod 256 ^ Z.of_nat n)%Z.
Proof.
  induction k as [|k IH]; [apply le_zeros|].
  rewrite nonce_at_S, increment_le, IH, length_nonce_at.
  rewrite Nat2Z.inj_succ. by rewrite Zplus_mod_idemp_l.
Qed.

Lemma isZero_le b : isZero b = bool_decide (le b = 0%Z).
Proof.
  induction b as [|x t IH]; [done|]. simpl.
  pose proof (byte_to_Z_range x). pose proof (le_range t).
  destruct (decide (x <> zero)) as [Hx|Hx].
  - symmetry. apply bool_decide_eq_false. intros E. apply Hx, (inj byte_to_Z).
    change (byte_to_Z zero) with 0%Z. lia.
  - destruct (decide (x = zero)) as [->|]; [|tauto]. rewrite IH.
    change (byte_to_Z zero) with 0%Z. apply bool_decide_ext. lia.
Qed.

(** Counters are distinct until they wrap around. *)
Lemma nonce_at_inj n i j :
  (Z.of_nat i < 256 ^ Z.of_nat n)%Z -> (Z.of_nat j < 256 ^ Z.of_nat n)%Z ->
  nonce_at n i = nonce_at n j -> i = j.
Proof.
  intros Hi Hj E. apply (f_equal le) in E. rewrite !le_nonce_at in E.
  rewrite !Z.mod_small in E by lia. lia.
Qed.

(** ** Lemmas on sizes *)

Lemma payloadSizeMask_Z : Z.of_nat payloadSizeMask = 0x3FFF%Z.
Proof. unfold payloadSizeMask. by rewrite Z2Nat.id. Qed.

Lemma payloadSizeMask_lt : payloadSizeMask < Z.to_nat 65536.
Proof. pose proof payloadSizeMask_Z. lia. Qed.

#[global] Opaque payloadSizeMask.

Lemma land_mask z : (0 <= z)%Z -> Z.land z 0x3FFF = (z mod 2 ^ 14)%Z.
Proof. intros. change 0x3FFF%Z with (Z.ones 14). by rewrite Z.land_ones by lia. Qed.

Lemma Uint16_nonneg b : (0 <= Uint16 b)%Z.
Proof.
  unfold Uint16, nth_byte. apply Z.lor_nonneg. split.
  - apply byte_to_Z_range.
  - apply Z.shiftl_nonneg, byte_to_Z_range.
Qed.

Lemma chunk_size_le szb : chunk_size szb <= payloadSizeMask.
Proof.
  unfold chunk_size. rewrite land_mask by apply Uint16_nonneg.
  pose proof payloadSizeMask_Z. pose proof (Z.mod_pos_bound (Uint16 szb) (2 ^ 14)). lia.
Qed.

(** The length a writer puts is the length a reader gets. *)
Lemma chunk_size_Put n :
  n <= payloadSizeMask -> chunk_size (PutUint16 (Z.of_nat n)) = n.
Proof.
  intros Hn. pose proof payloadSizeMask_Z. unfold chunk_size.
  rewrite <- (app_nil_r (PutUint16 _)), Uint16_PutUint16, uint16_small by lia.
  rewrite land_mask, Z.mod_small by lia. lia.
Qed.

(** ** Lemmas on [wire] and [decode] *)

Section WireLemmas.
Context (a : AEAD) `{!AEADLaws a}.

Lemma length_frame k p : length (frame a k p) = 2 + Overhead a + (length p + Overhead a).
Proof.
  unfold frame. rewrite length_app, !length_Seal by apply length_nonce_at.
  by rewrite length_PutUint16.
Qed.

Lemma wire_snoc k chunks p :
  wire a k (chunks ++ [p]) = wire a k chunks ++ frame a (k + 2 * length chunks) p.
Proof.
  revert k. induction chunks as [|c cs IH]; intros k; cbn [wire app length].
  - by rewrite app_nil_r, Nat.mul_0_r, Nat.add_0_r.
  - rewrite IH, <- app_assoc.
    by replace (k + 2 * S (length cs)) with (S (S k) + 2 * length cs) by lia.
Qed.

Lemma concat_frames k chunks : concat (frames a k chunks) = wire a k chunks.
Proof. revert k. induction chunks; intros k; simpl; [done|]. by f_equal. Qed.

Lemma frames_snoc k chunks p :
  frames a k (chunks ++ [p]) = frames a k chunks ++ [frame a (k + 2 * length chunks) p].
Proof.
  revert k. induction chunks as [|c cs IH]; intros k; cbn [frames app length].
  - by rewrite Nat.mul_0_r, Nat.add_0_r.
  - rewrite IH. by replace (k + 2 * S (length cs)) with (S (S k) + 2 * length cs) by lia.
Qed.

Lemma packets_snoc salt chunks p :
  packets a salt (chunks ++ [p]) = packets a salt chunks ++
    [(if decide (chunks = []) then salt else []) ++ frame a (2 * length chunks) p].
Proof.
  unfold packets. rewrite frames_snoc, Nat.add_0_l. by destruct chunks.
Qed.

Lemma concat_packets salt chunks :
  concat (packets a salt chunks) =
    (if decide (chunks = []) then [] else salt) ++ wire a 0 chunks.
Proof.
  unfold packets. rewrite <- concat_frames. destruct chunks; simpl; [done|].
  by rewrite app_assoc.
Qed.

Lemma decode_chunk_frame k p rest fin :
  length p <= payloadSizeMask ->
  decode_chunk a k (frame a k p ++ rest) fin = inl (p, rest).
Proof.
  intros Hp. unfold decode_chunk. rewrite length_app, length_frame.
  rewrite decide_False by lia. unfold frame. rewrite <- app_assoc.
  set (s1 := Seal a _ (PutUint16 _)). set (s2 := Seal a _ p).
  assert (length s1 = 2 + Overhead a) as H1.
  { unfold s1. rewrite length_Seal by apply length_nonce_at. done. }
  assert (length s2 = length p + Overhead a) as H2.
  { unfold s2. by rewrite length_Seal by apply length_nonce_at. }
  rewrite <- H1, take_app_length, drop_app_length. unfold s1 at 1.
  rewrite Open_Seal by apply length_nonce_at. rewrite chunk_size_Put by done.
  rewrite length_app, H2, decide_False by lia.
  rewrite <- H2, take_app_length, drop_app_length. unfold s2 at 1.
  by rewrite Open_Seal by apply length_nonce_at.
Qed.

Lemma decode_chunk_inl k input fin p rest :
  decode_chunk a k input fin = inl (p, rest) ->
  exists used, input = used ++ rest /\
    length used = 2 + Overhead a + (length p + Overhead a) /\
    length p <= payloadSizeMask.
Proof.
  unfold decode_chunk. case_decide as Hl1; [done|].
  destruct (Open _ _ (take _ input)) as [szb|] eqn:E1; [|done].
  case_decide as Hl2; [done|].
  destruct (Open _ _ (take _ (drop _ input))) as [q|] eqn:E2; [|done].
  intros [= <- <-]. apply length_Open in E2.
  rewrite length_take in E2. rewrite length_drop in *.
  exists (take (2 + Overhead a + (chunk_size szb + Overhead a)) input).
  pose proof (chunk_size_le szb).
  split_and!; [|rewrite length_take; lia|lia].
  by rewrite drop_drop, firstn_skipn.
Qed.

Lemma decode_chunk_shorter k input fin p rest :
  decode_chunk a k input fin = inl (p, rest) -> length rest < length input.
Proof.
  intros (used & -> & Hl & _)%decode_chunk_inl. rewrite length_app. lia.
Qed.

Lemma decode_loop_fuel f1 : forall f2 k input fin,
  length input < f1 -> length input < f2 ->
  decode_loop a f1 k input fin = decode_loop a f2 k input fin.
Proof.
  induction f1 as [|f1 IH]; intros [|f2] k input fin H1 H2; [lia..|].
  simpl. destruct (decode_chunk _ _ _ _) as [[p rest]|e] eqn:E; [|done].
  apply decode_chunk_shorter in E. by rewrite (IH f2) by lia.
Qed.

(** The recursion equation of [decode], without fuel. *)
Lemma decode_unfold k input fin :
  decode a k input fin =
    match decode_chunk a k input fin with
    | inr e => ([], e)
    | inl (p, rest) =>
      let '(ps, e) := decode a (S (S k)) rest fin in (p :: ps, e)
    end.
Proof.
  unfold decode at 1. simpl.
  destruct (decode_chunk _ _ _ _) as [[p rest]|e] eqn:E; [|done].
  apply decode_chunk_shorter in E. unfold decode.
  by rewrite (decode_loop_fuel (length input) (S (length rest))) by lia.
Qed.

Lemma decode_wire chunks : forall k rest fin,
  Forall (fun p => length p <= payloadSizeMask) chunks ->
  decode a k (wire a k chunks ++ rest) fin =
    let '(ps, e) := decode a (k + 2 * length chunks) rest fin in
    (chunks ++ ps, e).
Proof.
  induction chunks as [|p cs IH]; intros k rest fin Hall; cbn [wire app length].
  - rewrite Nat.mul_0_r, Nat.add_0_r. by destruct (decode a k rest fin).
  - apply Forall_cons in Hall as [Hp Hall].
    rewrite <- app_assoc, decode_unfold, decode_chunk_frame, IH by done.
    replace (k + 2 * S (length cs)) with (S (S k) + 2 * length cs) by lia.
    by destruct (decode _ _ rest fin).
Qed.

Lemma decode_nil k fin :
  decode a k [] fin = ([], size_error fin).
Proof.
  rewrite decode_unfold. unfold decode_chunk. rewrite decide_True by (simpl; lia).
  unfold short_error. by rewrite decide_False by (by intros [? ?]).
Qed.

(** A stream cut inside a chunk is never mistaken for a complete one. *)
Lemma decode_chunk_truncated k p n :
  length p <= payloadSizeMask -> 0 < n < length (frame a k p) ->
  decode_chunk a k (take n (frame a k p)) EOF = inr ErrUnexpectedEOF.
Proof.
  intros Hp Hn. rewrite length_frame in Hn. unfold decode_chunk.
  rewrite length_take, length_frame. case_decide as Hl.
  - unfold short_error. rewrite decide_True; [done|]. split; [|done].
    intros E. apply (f_equal length) in E.
    rewrite length_take, length_frame in E. simpl in E. lia.
  - unfold frame. set (s1 := Seal a _ (PutUint16 _)). set (s2 := Seal a _ p).
    assert (length s1 = 2 + Overhead a) as H1.
    { unfold s1. rewrite length_Seal by apply length_nonce_at. done. }
    assert (length s2 = length p + Overhead a) as H2.
    { unfold s2. by rewrite length_Seal by apply length_nonce_at. }
    rewrite take_app_ge by lia. rewrite <- H1, take_app_length, drop_app_length.
    unfold s1 at 1. rewrite Open_Seal by apply length_nonce_at.
    rewrite chunk_size_Put by done. rewrite length_take, decide_True by lia.
    unfold payload_error, short_error. repeat case_decide; congruence.
Qed.

End WireLemmas.
