(* ===== verification/Writer.v ===== *)
(** * [shadowsocks/stream.go]: the stream writer

    The fields of [Writer] are those of the Go struct, less the mutex and the
    [bytes.Reader] wrapper; [entropy] is what [crypto/rand] returns to this
    writer.  [buf] is one array: the size block, the payload block and the
    read buffer of [ReadFrom] are offsets into it, encryption happens in place,
    and every copy is a [splice].  Every method but [Flush] is called from one
    goroutine; [Flush] may run on another one, which matters while [ReadFrom]
    has released the mutex: the parameter [race] says what happens then. *)
From S2P Require Import Prelude GoIO Cipher Salt Wire.

Module Writer.

Record t := Mk {
  needFlush : bool;
  writer : Sink;
  ssCipher : Cipher;
  saltGenerator : option SaltGenerator;
  pending : nat;
  buf : bytes;
  aead : option AEAD;
  counter : bytes;
  entropy : bytes;
}.

Definition with_needFlush (b : bool) (sw : t) : t :=
  Mk b (writer sw) (ssCipher sw) (saltGenerator sw) (pending sw) (buf sw)
    (aead sw) (counter sw) (entropy sw).
Definition with_writer (w : Sink) (sw : t) : t :=
  Mk (needFlush sw) w (ssCipher sw) (saltGenerator sw) (pending sw) (buf sw)
    (aead sw) (counter sw) (entropy sw).
Definition with_pending (n : nat) (sw : t) : t :=
  Mk (needFlush sw) (writer sw) (ssCipher sw) (saltGenerator sw) n (buf sw)
    (aead sw) (counter sw) (entropy sw).
Definition with_buf (b : bytes) (sw : t) : t :=
  Mk (needFlush sw) (writer sw) (ssCipher sw) (saltGenerator sw) (pending sw) b
    (aead sw) (counter sw) (entropy sw).
Definition with_counter (c : bytes) (sw : t) : t :=
  Mk (needFlush sw) (writer sw) (ssCipher sw) (saltGenerator sw) (pending sw)
    (buf sw) (aead sw) c (entropy sw).

(** What happens on the goroutine of a concurrent [Flush] while [ReadFrom]
    waits for data with the mutex released. *)
Inductive race := NoFlush | FlushBeforeRead | FlushAfterRead.

#[export] Instance race_eq_dec : EqDecision race.
Proof. solve_decision. Defined.

Section WriterDefs.
Context `{CryptoOps}.

Definition NewShadowsocksWriter (w : Sink) (c : Cipher) (ent : bytes) : t :=
  Mk false w c (Some RandomSaltGenerator) 0 [] None [] ent.

Definition SetSaltGenerator (g : SaltGenerator) (sw : t) : t :=
  Mk (needFlush sw) (writer sw) (ssCipher sw) (Some g) (pending sw) (buf sw)
    (aead sw) (counter sw) (entropy sw).

(** [init]: lazily make the salt, the AEAD and the buffer. *)
Definition init (sw : t) : outcome unit * t :=
  match aead sw with
  | Some _ => (Ret tt, sw)
  | None =>
    match saltGenerator sw with
    | None => (Panic "nil saltGenerator", sw)
    | Some g =>
      let '(e, salt, ent) := GetSalt g (zeros (SaltSize (ssCipher sw))) (entropy sw) in
      let sw := Mk (needFlush sw) (writer sw) (ssCipher sw) (saltGenerator sw)
                  (pending sw) (buf sw) (aead sw) (counter sw) ent in
      match e with
      | Some _ => (Err (Errorf "failed to generate salt"), sw)
      | None =>
        match NewAEAD (ssCipher sw) salt with
        | Err _ => (Err (Errorf "failed to create AEAD"), sw)
        | Panic s => (Panic s, sw)
        | Ret a =>
          let sizeBufSize := 2 + Overhead a in
          let maxPayloadBufSize := payloadSizeMask + Overhead a in
          let b := zeros (length salt + sizeBufSize + maxPayloadBufSize) in
          (Ret tt, Mk (needFlush sw) (writer sw) (ssCipher sw) None (pending sw)
             (splice b 0 salt) (Some a) (zeros (NonceSize a)) (entropy sw))
        end
      end
    end
  end.

(** [sw.aead] where the code uses it, after [init]. *)
Definition the_aead (sw : t) : AEAD :=
  default (MkAEAD 0 0 (fun _ _ => []) (fun _ _ => None)) (aead sw).

(** The offsets of [buffers()]: the size block and the payload block start at
    [sizeStart] and [payloadStart]. *)
Definition sizeStart (sw : t) : nat := SaltSize (ssCipher sw).
Definition payloadStart (sw : t) : nat :=
  SaltSize (ssCipher sw) + 2 + Overhead (the_aead sw).

(** [encryptBlock(sw.buf[off:off+n])]: in-place when the array has room for the
    tag, as [append] does. *)
Definition encryptBlock (sw : t) (off n : nat) : nat * t :=
  let out := Seal (the_aead sw) (counter sw) (slice off (off + n) (buf sw)) in
  let b := if decide (off + length out <= length (buf sw))
           then splice (buf sw) off out else buf sw in
  (length out, with_counter (increment (counter sw)) (with_buf b sw)).

(** [enqueue]: how much of [plaintext] fits, after copying it. *)
Definition enqueue (sw : t) (plaintext : bytes) : nat * t :=
  let n := (payloadSizeMask - pending sw) `min` length plaintext in
  let b := splice (buf sw) (payloadStart sw + pending sw) (take n plaintext) in
  (n, with_pending (pending sw + n) (with_buf b sw)).

(** [flush] *)
Definition flush (sw : t) : option error * t :=
  if decide (pending sw = 0) then (None, sw)
  else
    let saltSize := SaltSize (ssCipher sw) in
    let start := if isZero (counter sw) then 0 else saltSize in
    let n := pending sw in
    let sw := with_buf
      (splice (buf sw) (sizeStart sw) (PutUint16 (uint16 (Z.of_nat n)))) sw in
    let '(sizeBlockSize, sw) := encryptBlock sw (sizeStart sw) 2 in
    let '(payloadSize, sw) := encryptBlock sw (payloadStart sw) n in
    let out := slice start (saltSize + sizeBlockSize + payloadSize) (buf sw) in
    let '(_, err, w) := Sink_write (writer sw) out in
    (err, with_pending 0 (with_writer w sw)).

(** [Flush] *)
Definition Flush (sw : t) : option error * t :=
  if negb (needFlush sw) then (None, sw) else flush sw.

(** The loop of [LazyWrite]; a round that does not finish leaves an empty
    buffer, so the next one consumes input. *)
Fixpoint LazyWrite_loop (fuel : nat) (sw : t) (p : bytes) (queued : nat)
  : (nat * option error) * t :=
  match fuel with
  | O => ((queued, Some (Errorf "out of fuel")), sw)
  | S fuel =>
    let '(n, sw) := enqueue sw p in
    let queued := queued + n in
    let p := drop n p in
    if decide (length p = 0) then ((queued, None), with_needFlush true sw)
    else
      match flush sw with
      | (Some err, sw) => ((queued, Some err), sw)
      | (None, sw) => LazyWrite_loop fuel sw p queued
      end
  end.

Definition LazyWrite (sw : t) (p : bytes) : outcome (nat * option error) * t :=
  match init sw with
  | (Panic s, sw) => (Panic s, sw)
  | (Err e, sw) => (Ret (0, Some e), sw)
  | (Ret tt, sw) =>
    let '(r, sw) := LazyWrite_loop (length p + 2) sw p 0 in (Ret r, sw)
  end.

(** ** [ReadFrom] *)

Section ReadFromDefs.
Context {R : Type} `{Reader R}.

(** The main transfer loop; it ends with the error of the reader or the
    first error of the underlying writer. *)
Fixpoint ReadFrom_loop (fuel : nat) (sw : t) (r : R) (total : nat)
  : (nat * error) * t * R :=
  match fuel with
  | O => ((total, Errorf "out of fuel"), sw, r)
  | S fuel =>
    let '(d, e, r) := rd_read r payloadSizeMask in
    let sw := with_pending (length d)
                (with_buf (splice (buf sw) (payloadStart sw) d) sw) in
    let total := total + length d in
    let '(flushErr, sw) := flush sw in
    match (match flushErr with Some fe => Some fe | None => e end) with
    | None => ReadFrom_loop fuel sw r total
    | Some err => ((total, err), sw, r)
    end
  end.

Definition ReadFrom_result (total : nat) (err : error) : nat * option error :=
  if decide (err = EOF) then (total, None)
  else (total, Some (Wrapf "Failed to read payload" err)).

(** The part of [ReadFrom] after [init] that runs when a lazy write is
    pending: one read with the mutex released, into the part of the buffer a
    concurrent flush does not touch. *)
Definition ReadFrom_first (rc : race) (sw : t) (r : R)
  : nat * option error * t * R :=
  let pend := pending sw in
  let overhead := Overhead (the_aead sw) in
  let off := SaltSize (ssCipher sw) + 2 + overhead + pend + overhead in
  let sw := if decide (rc = FlushBeforeRead) then snd (Flush sw) else sw in
  let '(d, e, r) := rd_read r (length (buf sw) - off) in
  let sw := with_buf (splice (buf sw) off d) sw in
  let sw := if decide (rc = FlushAfterRead) then snd (Flush sw) else sw in
  let '(_, sw) := enqueue sw (slice off (off + length d) (buf sw)) in
  let '(flushErr, sw) := flush sw in
  let err := match flushErr with Some fe => Some fe | None => e end in
  (length d, err, with_needFlush false sw, r).

Definition ReadFrom (rc : race) (sw : t) (r : R)
  : outcome (nat * option error) * t * R :=
  match init sw with
  | (Panic s, sw) => (Panic s, sw, r)
  | (Err e, sw) => (Ret (0, Some e), sw, r)
  | (Ret tt, sw) =>
    let '(total, err, sw, r) :=
      if needFlush sw then ReadFrom_first rc sw r else (0, None, sw, r) in
    match err with
    | Some x => (Ret (ReadFrom_result total x), sw, r)
    | None =>
      let '((total, x), sw, r) := ReadFrom_loop (S (rd_fuel r)) sw r total in
      (Ret (ReadFrom_result total x), sw, r)
    end
  end.

End ReadFromDefs.

(** [Write] *)
Definition Write (rc : race) (sw : t) (p : bytes)
  : outcome (nat * option error) * t :=
  let '(r, sw, _) := ReadFrom rc sw (bytesReader p) in (r, sw).

(** ** The abstract state

    [Repr sw salt chunks q]: the writer has its salt, has written the frames
    of [chunks] and holds the plaintext [q] in its buffer. *)
Record Repr (sw : t) (salt : bytes) (chunks : list bytes) (q : bytes) : Prop := {
  repr_aead : exists a, aead sw = Some a /\ NewAEAD (ssCipher sw) salt = Ret a /\
    standard_AEAD a;
  repr_salt : length salt = SaltSize (ssCipher sw);
  repr_buf : length (buf sw) =
    SaltSize (ssCipher sw) + (2 + 16) + (payloadSizeMask + 16);
  repr_head : slice 0 (SaltSize (ssCipher sw)) (buf sw) = salt;
  repr_pending : pending sw = length q;
  repr_q : slice (payloadStart sw) (payloadStart sw + length q) (buf sw) = q;
  repr_q_le : length q <= payloadSizeMask;
  repr_counter : counter sw = nonce_at 12 (2 * length chunks);
  repr_chunks : Forall (fun p => 0 < length p <= payloadSizeMask) chunks;
  repr_out : written (writer sw) = packets (the_aead sw) salt chunks;
  repr_sink : reliable (writer sw);
}.

(** A writer that has not made its salt yet. *)
Record Unused (sw : t) : Prop := {
  unused_aead : aead sw = None;
  unused_pending : pending sw = 0;
  unused_needFlush : needFlush sw = false;
  unused_out : written (writer sw) = [];
  unused_sink : reliable (writer sw);
}.

(** Fewer chunks than half the nonces: the counter does not come back to zero. *)
Definition few (n : nat) : Prop := (Z.of_nat n < 2 ^ 95)%Z.

End WriterDefs.

(** ** Lemmas *)

Section WriterLemmas.
Context `{CryptoLaws}.

(** The chunks after a flush of [q]. *)
Definition push (chunks : list bytes) (q : bytes) : list bytes :=
  if decide (q = []) then chunks else chunks ++ [q].

Lemma concat_push chunks q : concat (push chunks q) = concat chunks ++ q.
Proof. unfold push. case_decide; [by subst; rewrite app_nil_r|apply concat_snoc]. Qed.

Lemma prefix_push chunks q : chunks `prefix_of` push chunks q.
Proof. unfold push. case_decide; [done|]. by exists [q]. Qed.

(** What a step keeps. *)
Definition kept (sw sw' : t) : Prop :=
  ssCipher sw' = ssCipher sw /\ aead sw' = aead sw /\ needFlush sw' = needFlush sw.

Lemma kept_refl sw : kept sw sw.
Proof. done. Qed.

Lemma kept_trans sw1 sw2 sw3 : kept sw1 sw2 -> kept sw2 sw3 -> kept sw1 sw3.
Proof. unfold kept. intros (? & ? & ?) (? & ? & ?). split_and!; congruence. Qed.

Lemma Repr_the_aead sw salt chunks q :
  Repr sw salt chunks q ->
  aead sw = Some (the_aead sw) /\ NewAEAD (ssCipher sw) salt = Ret (the_aead sw) /\
  AEADLaws (the_aead sw) /\ NonceSize (the_aead sw) = 12 /\
  Overhead (the_aead sw) = 16 /\
  payloadStart sw = SaltSize (ssCipher sw) + 18.
Proof.
  intros HR. destruct (repr_aead _ _ _ _ HR) as (a & Ha & HN & Hl & Hn & Ho).
  unfold payloadStart, the_aead. rewrite Ha. simpl. rewrite Ho.
  split_and!; done || lia.
Qed.

Lemma length_chunks_le (chunks : list bytes) :
  Forall (fun p => 0 < length p <= payloadSizeMask) chunks ->
  length chunks <= length (concat chunks).
Proof. induction 1; simpl; rewrite ?length_app; lia. Qed.

Lemma few_le m n : m <= n -> few n -> few m.
Proof. unfold few. lia. Qed.

(** The counter tells the first chunk from the others. *)
Lemma isZero_counter (chunks : list bytes) :
  few (length chunks) ->
  isZero (nonce_at 12 (2 * length chunks)) = bool_decide (chunks = []).
Proof.
  unfold few. intros Hf. rewrite isZero_le, le_nonce_at.
  change (256 ^ Z.of_nat 12)%Z with (2 ^ 96)%Z.
  rewrite Z.mod_small by (change (2 ^ 96)%Z with (2 * 2 ^ 95)%Z; lia).
  apply bool_decide_ext. destruct chunks; simpl length; split; done || lia.
Qed.

(** [init] *)

Lemma init_repr sw salt chunks q :
  Repr sw salt chunks q -> init sw = (Ret tt, sw).
Proof.
  intros HR. destruct (repr_aead _ _ _ _ HR) as (a & Ha & _).
  unfold init. by rewrite Ha.
Qed.

Lemma init_unused sw g salt ent :
  Unused sw -> wf_cipher (ssCipher sw) ->
  saltGenerator sw = Some g -> SaltGeneratorLaws g ->
  GetSalt g (zeros (SaltSize (ssCipher sw))) (entropy sw) = (None, salt, ent) ->
  exists sw', init sw = (Ret tt, sw') /\ Repr sw' salt [] [] /\
    ssCipher sw' = ssCipher sw /\ needFlush sw' = false.
Proof.
  intros [Ha Hp Hnf Ho Hs] Hwf Hg Hlaw Hsalt.
  pose proof (GetSalt_length _ _ _ _ _ Hsalt) as Hlen.
  unfold zeros in Hlen. rewrite length_replicate in Hlen.
  destruct (NewAEAD_ok (ssCipher sw) salt Hwf) as (a & HN & Hstd).
  pose proof Hstd as (Hl & Hn & Hov).
  unfold init. rewrite Ha, Hg, Hsalt. simpl. rewrite HN.
  eexists. split; [done|]. split; [|done].
  split; simpl; rewrite ?Hn, ?Hov; try done.
  - by exists a.
  - rewrite length_splice by lia. unfold zeros. rewrite length_replicate. lia.
  - unfold slice. rewrite Nat.sub_0_r, drop_0, <- Hlen.
    rewrite splice_fit by (unfold zeros; rewrite length_replicate; lia).
    by rewrite take_0, app_nil_l, take_app_length.
  - rewrite Nat.add_0_r. by rewrite slice_nil.
  - lia.
Qed.

(** [encryptBlock] when the tag fits. *)
Lemma encryptBlock_fit sw off n pt out :
  slice off (off + n) (buf sw) = pt ->
  Seal (the_aead sw) (counter sw) pt = out ->
  off + length out <= length (buf sw) ->
  encryptBlock sw off n =
    (length out,
     Mk (needFlush sw) (writer sw) (ssCipher sw) (saltGenerator sw) (pending sw)
       (splice (buf sw) off out) (aead sw) (increment (counter sw)) (entropy sw)).
Proof. intros Hp Ho Hl. unfold encryptBlock. by rewrite Hp, Ho, decide_True. Qed.

(** The two ciphertexts of a flush, and the array after it. *)
Definition sealed_size (a : AEAD) (k : nat) (q : bytes) : bytes :=
  Seal a (nonce_at 12 k) (PutUint16 (Z.of_nat (length q))).
Definition sealed_payload (a : AEAD) (k : nat) (q : bytes) : bytes :=
  Seal a (nonce_at 12 (S k)) q.
Definition flush_buf (sw : t) (k : nat) (q : bytes) : bytes :=
  let ss := SaltSize (ssCipher sw) in
  let b1 := splice (buf sw) ss (PutUint16 (Z.of_nat (length q))) in
  let b2 := splice b1 ss (sealed_size (the_aead sw) k q) in
  splice b2 (ss + 18) (sealed_payload (the_aead sw) k q).

Lemma sealed_frame a k q :
  NonceSize a = 12 -> sealed_size a k q ++ sealed_payload a k q = frame a k q.
Proof. intros Hn. unfold frame. by rewrite Hn. Qed.

Section FlushBuf.
Context (sw : t) (salt : bytes) (chunks : list bytes) (q : bytes).
Context (HR : Repr sw salt chunks q).
Let ss := SaltSize (ssCipher sw).
Let a := the_aead sw.

Lemma length_sealed k :
  length (sealed_size a k q) = 18 /\ length (sealed_payload a k q) = length q + 16.
Proof.
  destruct (Repr_the_aead _ _ _ _ HR) as (_ & _ & Hl & Hns & Hov & _).
  unfold sealed_size, sealed_payload.
  rewrite !length_Seal by (by rewrite length_nonce_at). unfold a. by rewrite Hov.
Qed.

(** The room every write of a flush has. *)
Lemma flush_room :
  ss + 18 + (length q + 16) <= length (buf sw) /\
  length (PutUint16 (Z.of_nat (length q))) = 2.
Proof.
  split; [|done]. pose proof (repr_buf _ _ _ _ HR). pose proof (repr_q_le _ _ _ _ HR).
  unfold ss. lia.
Qed.

Lemma length_flush_buf k : length (flush_buf sw k q) = length (buf sw).
Proof.
  destruct (length_sealed k) as [H1 H2], flush_room as [Hr Hz].
  unfold flush_buf. fold ss a. by rewrite !length_splice by splice_lia.
Qed.

Lemma flush_buf_below k lo hi :
  hi <= ss -> slice lo hi (flush_buf sw k q) = slice lo hi (buf sw).
Proof.
  intros Hlh. destruct (length_sealed k) as [H1 H2], flush_room as [Hr Hz].
  unfold flush_buf. fold ss a.
  by rewrite !slice_splice_below by splice_lia.
Qed.

Lemma flush_buf_above k lo hi :
  ss + 18 + length q + 16 <= lo ->
  slice lo hi (flush_buf sw k q) = slice lo hi (buf sw).
Proof.
  intros Hlh. destruct (length_sealed k) as [H1 H2], flush_room as [Hr Hz].
  unfold flush_buf. fold ss a.
  by rewrite !slice_splice_above by splice_lia.
Qed.

Lemma flush_buf_frame k :
  slice ss (ss + 18 + (length q + 16)) (flush_buf sw k q) = frame a k q.
Proof.
  destruct (length_sealed k) as [H1 H2], flush_room as [Hr Hz].
  destruct (Repr_the_aead _ _ _ _ HR) as (_ & _ & _ & Hns & _).
  rewrite (slice_app ss (ss + 18)) by lia. rewrite <- sealed_frame by done.
  unfold flush_buf. fold ss a. f_equal.
  - rewrite slice_splice_below by splice_lia.
    rewrite <- H1 at 1. apply slice_splice. splice_lia.
  - rewrite <- H2. apply slice_splice. splice_lia.
Qed.

(** What [flush] computes on a non-empty buffer. *)
Lemma flush_eq :
  q <> [] ->
  let k := 2 * length chunks in
  let start := if isZero (counter sw) then 0 else ss in
  flush sw =
    (let '(_, err, w) := Sink_write (writer sw)
       (slice start (ss + 18 + (length q + 16)) (flush_buf sw k q)) in
     (err, Mk (needFlush sw) w (ssCipher sw) (saltGenerator sw) 0
       (flush_buf sw k q) (aead sw) (nonce_at 12 (S (S k))) (entropy sw))).
Proof.
  intros Hq k start. destruct (length_sealed k) as [H1 H2], flush_room as [Hr Hz].
  destruct (Repr_the_aead _ _ _ _ HR) as (_ & _ & _ & _ & _ & Hps).
  pose proof (repr_counter _ _ _ _ HR) as Hctr. fold k in Hctr.
  unfold flush. rewrite (repr_pending _ _ _ _ HR).
  rewrite decide_False by (by destruct q). rewrite PutUint16_uint16.
  unfold sizeStart. fold ss start.
  set (sw1 := with_buf _ sw). change (SaltSize (ssCipher sw1)) with ss.
  rewrite (encryptBlock_fit sw1 ss 2 (PutUint16 (Z.of_nat (length q)))
    (sealed_size a k q)); cycle 1.
  { apply (slice_splice (buf sw) ss (PutUint16 (Z.of_nat (length q)))). lia. }
  { unfold sealed_size. by rewrite <- Hctr. }
  { simpl. splice_lia. }
  set (sw2 := Mk _ _ _ _ _ _ _ _ _). change (payloadStart sw2) with (payloadStart sw).
  rewrite Hps. fold ss.
  rewrite (encryptBlock_fit sw2 (ss + 18) (length q) q (sealed_payload a k q)); cycle 1.
  { simpl. rewrite !slice_splice_above by splice_lia.
    unfold ss. rewrite <- Hps. apply (repr_q _ _ _ _ HR). }
  { unfold sealed_payload, sw2. simpl. by rewrite Hctr. }
  { simpl. splice_lia. }
  rewrite H1, H2. unfold sw2, sw1. simpl. fold (flush_buf sw k q). rewrite Hctr.
  unfold flush_buf. fold ss a.
  by destruct (Sink_write _ _) as [[n err] w].
Qed.

(** [flush] of a non-empty buffer emits one frame. *)
Lemma flush_emit :
  q <> [] -> few (length chunks) ->
  exists sw', flush sw = (None, sw') /\ kept sw sw' /\
    length (buf sw') = length (buf sw) /\
    Repr sw' salt (chunks ++ [q]) [] /\
    (forall lo hi, payloadStart sw + length q + 16 <= lo ->
       slice lo hi (buf sw') = slice lo hi (buf sw)).
Proof.
  intros Hq Hfew. rewrite flush_eq by done.
  set (k := 2 * length chunks). set (start := if isZero _ then 0 else ss).
  destruct (Repr_the_aead _ _ _ _ HR) as (Ha & HN & Hlaws & Hns & Hov & Hps).
  pose proof HR as [_ Hsalt Hbuf Hhead Hpend _ Hqle Hctr Hch Hout Hsink].
  assert (slice start (ss + 18 + (length q + 16)) (flush_buf sw k q) =
    (if decide (chunks = []) then salt else []) ++ frame a k q) as Epkt.
  { rewrite (slice_app start ss) by (unfold start; destruct (isZero (counter sw)); lia).
    rewrite flush_buf_frame, flush_buf_below by done. f_equal.
    unfold start. rewrite Hctr, isZero_counter by done.
    destruct (decide (chunks = [])).
    - by rewrite bool_decide_true by done.
    - rewrite bool_decide_false by done. by apply slice_nil. }
  rewrite Epkt.
  destruct (Sink_write_reliable (writer sw)
    ((if decide (chunks = []) then salt else []) ++ frame a k q) Hsink)
    as (w & -> & Hw & Hrel).
  eexists. split; [done|]. split; [done|]. simpl.
  split; [apply length_flush_buf|].
  split; [|intros lo hi Hlo; apply flush_buf_above; lia].
  split; simpl; try done.
  - exists a. by split_and!.
  - by rewrite length_flush_buf.
  - by rewrite flush_buf_below.
  - apply slice_nil. simpl. lia.
  - lia.
  - rewrite length_app. cbn [length].
    by replace (_ + (_ + 0)) with (S (S k)) by (unfold k; lia).
  - apply Forall_app. split; [done|]. apply Forall_singleton.
    split; [destruct q; simpl; [done|lia]|done].
  - change (the_aead _) with a. by rewrite Hw, Hout, packets_snoc.
Qed.

End FlushBuf.

(** [flush] in every state. *)
Lemma flush_repr sw salt chunks q :
  Repr sw salt chunks q -> few (length chunks) ->
  exists sw', flush sw = (None, sw') /\ kept sw sw' /\
    length (buf sw') = length (buf sw) /\
    Repr sw' salt (push chunks q) [] /\
    (forall lo hi, payloadStart sw + length q + 16 <= lo ->
       slice lo hi (buf sw') = slice lo hi (buf sw)).
Proof.
  intros HR Hf. unfold push. destruct (decide (q = [])) as [->|Hq].
  - exists sw. split_and!; [|apply kept_refl|done..].
    unfold flush. rewrite decide_True; [done|].
    by rewrite (repr_pending _ _ _ _ HR).
  - by eapply flush_emit.
Qed.

(** Writing above the pending plaintext changes nothing. *)
Lemma Repr_scratch sw salt chunks q off d :
  Repr sw salt chunks q -> payloadStart sw + length q <= off ->
  off + length d <= length (buf sw) ->
  Repr (with_buf (splice (buf sw) off d) sw) salt chunks q.
Proof.
  intros HR Hoff Hfit. destruct (Repr_the_aead _ _ _ _ HR) as (? & ? & ? & ? & ? & Hps).
  destruct HR. split; simpl; try done.
  - by rewrite length_splice by lia.
  - by rewrite slice_splice_below by lia.
  - change (payloadStart (with_buf _ sw)) with (payloadStart sw).
    by rewrite slice_splice_below by lia.
Qed.

(** Replacing the pending plaintext of an empty buffer, as the main loop of
    [ReadFrom] does. *)
Lemma Repr_fill sw salt chunks d :
  Repr sw salt chunks [] -> length d <= payloadSizeMask ->
  Repr (with_pending (length d) (with_buf (splice (buf sw) (payloadStart sw) d) sw))
    salt chunks d.
Proof.
  intros HR Hd. destruct (Repr_the_aead _ _ _ _ HR) as (? & ? & ? & ? & ? & Hps).
  destruct HR. split; simpl; try done.
  - by rewrite length_splice by lia.
  - by rewrite slice_splice_below by lia.
  - change (payloadStart (with_pending _ _)) with (payloadStart sw).
    apply slice_splice. lia.
Qed.

Lemma enqueue_repr sw salt chunks q p :
  Repr sw salt chunks q ->
  let n := (payloadSizeMask - length q) `min` length p in
  exists sw', enqueue sw p = (n, sw') /\ kept sw sw' /\
    Repr sw' salt chunks (q ++ take n p).
Proof.
  intros HR n. destruct (Repr_the_aead _ _ _ _ HR) as (? & ? & ? & ? & ? & Hps).
  unfold enqueue. rewrite (repr_pending _ _ _ _ HR). fold n.
  eexists. split; [done|]. split; [done|].
  assert (length (take n p) = n) as Hn by (rewrite length_take; lia).
  destruct HR. split; simpl; try done.
  - by rewrite length_splice by lia.
  - by rewrite slice_splice_below by lia.
  - rewrite length_app. lia.
  - change (payloadStart (with_pending _ _)) with (payloadStart sw).
    rewrite length_app, (slice_app _ (payloadStart sw + length q)) by lia.
    rewrite slice_splice_below by lia. rewrite repr_q0. f_equal.
    rewrite Nat.add_assoc. apply slice_splice. lia.
  - rewrite length_app. lia.
Qed.

(** Chunk counts are bounded by byte counts. *)
Lemma Repr_few sw salt chunks q n :
  Repr sw salt chunks q -> length (concat chunks) <= n -> few n ->
  few (length chunks).
Proof.
  intros HR Hn Hf. pose proof (length_chunks_le _ (repr_chunks _ _ _ _ HR)).
  eapply few_le; [|exact Hf]. lia.
Qed.

Lemma LazyWrite_loop_repr fuel : forall sw salt chunks q p queued,
  Repr sw salt chunks q -> few (length (concat chunks ++ q ++ p)) ->
  length p + (if decide (q = []) then 1 else 2) <= fuel ->
  exists sw' chunks' q',
    LazyWrite_loop fuel sw p queued = ((queued + length p, None), sw') /\
    Repr sw' salt chunks' q' /\ ssCipher sw' = ssCipher sw /\
    needFlush sw' = true /\
    concat chunks' ++ q' = concat chunks ++ q ++ p.
Proof.
  induction fuel as [|fuel IH]; intros sw salt chunks q p queued HR Hfew Hfuel.
  { case_decide; lia. }
  cbn [LazyWrite_loop].
  destruct (enqueue_repr sw salt chunks q p HR) as (sw1 & -> & (Hc & _ & _) & HR1).
  set (n := (payloadSizeMask - length q) `min` length p) in *.
  rewrite length_drop. destruct (decide (length p - n = 0)) as [Hdone|Hdone].
  - exists (with_needFlush true sw1), chunks, (q ++ p).
    rewrite take_ge in HR1 by lia. split_and!; [f_equal; f_equal; lia| |done..].
    by destruct HR1.
  - assert (few (length chunks)) as Hfc.
    { eapply Repr_few; [done| |exact Hfew]. rewrite length_app. lia. }
    destruct (flush_repr _ _ _ _ HR1 Hfc) as (sw2 & -> & (Hc2 & _ & _) & _ & HR2 & _).
    destruct (IH sw2 salt _ [] (drop n p) (queued + n) HR2)
      as (sw3 & chunks3 & q3 & E & HR3 & Hc3 & Hnf & Hcat).
    + rewrite concat_push. simpl. rewrite <- !app_assoc. by rewrite firstn_skipn.
    + rewrite (decide_True (P := @nil byte = [])) by done. rewrite length_drop.
      pose proof (repr_q_le _ _ _ _ HR). destruct (decide (q = [])); [|lia].
      subst q. simpl in n. pose proof payloadSizeMask_Z. lia.
    + rewrite E, length_drop. exists sw3, chunks3, q3. split_and!; try done.
      * f_equal. f_equal. lia.
      * congruence.
      * rewrite Hcat, concat_push. simpl. rewrite <- !app_assoc. by rewrite firstn_skipn.
Qed.

(** A concurrent [Flush] that happens or not. *)
Lemma race_flush (P : Prop) `{Decision P} sw salt chunks q :
  Repr sw salt chunks q -> needFlush sw = true -> few (length (concat chunks)) ->
  exists sw1 chunks1 q1,
    (if decide P then snd (Flush sw) else sw) = sw1 /\
    Repr sw1 salt chunks1 q1 /\ kept sw sw1 /\
    length (buf sw1) = length (buf sw) /\ length q1 <= length q /\
    concat chunks1 ++ q1 = concat chunks ++ q /\
    (forall lo hi, payloadStart sw + length q + 16 <= lo ->
       slice lo hi (buf sw1) = slice lo hi (buf sw)) /\
    (~ P -> chunks1 = chunks /\ q1 = q).
Proof.
  intros HR Hnf Hfew. case_decide.
  - destruct (flush_repr sw salt chunks q HR) as (sw1 & E & Hk & Hb & HR1 & Hab).
    { by eapply Repr_few. }
    exists sw1, (push chunks q), []. unfold Flush. rewrite Hnf. simpl.
    rewrite E, app_nil_r, concat_push. split_and!; try done. simpl. lia.
  - exists sw, chunks, q. split_and!; try done.
Qed.

Lemma kept_payloadStart sw sw' : kept sw sw' -> payloadStart sw' = payloadStart sw.
Proof.
  intros (Hc & Ha & _). unfold payloadStart, the_aead. by rewrite Hc, Ha.
Qed.

Section ReadFromLemmas.
Context {R : Type} `{ReaderLaws R}.

Lemma ReadFrom_loop_repr fuel : forall sw salt chunks (r : R) total,
  Repr sw salt chunks [] -> few (length (concat chunks ++ rd_bytes r)) ->
  rd_fuel r < fuel ->
  exists sw' chunks' r',
    ReadFrom_loop fuel sw r total =
      ((total + length (rd_bytes r), rd_end r), sw', r') /\
    Repr sw' salt chunks' [] /\ kept sw sw' /\
    concat chunks' = concat chunks ++ rd_bytes r /\ chunks `prefix_of` chunks' /\
    rd_bytes r' = [].
Proof.
  induction fuel as [|fuel IH]; intros sw salt chunks r total HR Hfew Hfuel; [lia|].
  cbn [ReadFrom_loop]. destruct (rd_read r payloadSizeMask) as [[d e] r1] eqn:E.
  pose proof (rd_read_len _ _ _ _ _ E) as Hd.
  pose proof (Repr_fill sw salt chunks d HR Hd) as HR1.
  set (sw1 := with_pending _ _) in *.
  assert (few (length chunks)) as Hfc.
  { eapply Repr_few; [exact HR| |exact Hfew]. rewrite length_app. lia. }
  destruct (flush_repr _ _ _ _ HR1 Hfc) as (sw2 & -> & Hk & _ & HR2 & _).
  destruct e as [x|].
  - apply rd_read_stop in E as (-> & -> & Hb & _).
    exists sw2, (push chunks d), r1. split_and!; [done..|apply concat_push|apply prefix_push|done].
  - pose proof payloadSizeMask_Z.
    pose proof (rd_read_progress _ _ _ _ E ltac:(lia)).
    apply rd_read_more in E as [Hb He]. rewrite Hb in Hfew |- *.
    destruct (IH sw2 salt _ r1 (total + length d) HR2) as
      (sw3 & chunks3 & r3 & -> & HR3 & Hk3 & Hcat & Hpre & Hb3).
    + by rewrite concat_push, <- app_assoc.
    + lia.
    + exists sw3, chunks3, r3. rewrite length_app, He, Nat.add_assoc.
      split_and!; [done..|by eapply kept_trans| | |].
      * by rewrite Hcat, concat_push, <- app_assoc.
      * etrans; [apply prefix_push|exact Hpre].
      * done.
Qed.

(** The pending part of [ReadFrom], under every interleaving of [Flush]. *)
Lemma ReadFrom_first_repr rc sw salt chunks q (r : R) :
  Repr sw salt chunks q -> needFlush sw = true ->
  few (length (concat chunks ++ q ++ rd_bytes r)) ->
  exists d e r' sw' chunks',
    rd_read r (payloadSizeMask - length q) = (d, e, r') /\
    ReadFrom_first rc sw r = (length d, e, sw', r') /\
    Repr sw' salt chunks' [] /\ ssCipher sw' = ssCipher sw /\
    needFlush sw' = false /\
    concat chunks' = concat chunks ++ q ++ d /\
    (rc = NoFlush -> chunks' = push chunks (q ++ d)).
Proof.
  intros HR Hnf Hfew.
  destruct (Repr_the_aead _ _ _ _ HR) as (_ & _ & _ & _ & Ho & Hps).
  pose proof (repr_buf _ _ _ _ HR) as Hbuf. pose proof (repr_q_le _ _ _ _ HR) as Hq.
  unfold ReadFrom_first. rewrite (repr_pending _ _ _ _ HR), Ho.
  set (off := SaltSize (ssCipher sw) + 2 + 16 + length q + 16).
  rewrite !length_app in Hfew.
  destruct (race_flush (rc = FlushBeforeRead) sw salt chunks q HR Hnf)
    as (sw1 & ch1 & q1 & -> & HR1 & Hk1 & Hb1 & Hq1 & Hcat1 & _ & Hno1).
  { eapply few_le; [|exact Hfew]. lia. }
  pose proof (kept_payloadStart _ _ Hk1) as Hps1.
  rewrite Hb1, Hbuf.
  replace (SaltSize (ssCipher sw) + (2 + 16) + (payloadSizeMask + 16) - off)
    with (payloadSizeMask - length q) by (unfold off; lia).
  destruct (rd_read r (payloadSizeMask - length q)) as [[d e] r'] eqn:E.
  pose proof (rd_read_len _ _ _ _ _ E) as Hd.
  pose proof (f_equal length Hcat1) as Hl1. rewrite !length_app in Hl1.
  assert (Repr (with_buf (splice (buf sw1) off d) sw1) salt ch1 q1) as HR2
    by (apply Repr_scratch; [done|unfold off; lia..]).
  destruct (race_flush (rc = FlushAfterRead) _ salt ch1 q1 HR2)
    as (sw3 & ch3 & q3 & -> & HR3 & Hk3 & _ & Hq3 & Hcat3 & Hab & Hno3).
  { simpl. destruct Hk1 as (_ & _ & ->). done. }
  { eapply few_le; [|exact Hfew]. lia. }
  pose proof (f_equal length Hcat3) as Hl3. rewrite !length_app in Hl3.
  rewrite Hab; [|change (payloadStart (with_buf _ sw1)) with (payloadStart sw1);
                  unfold off; lia].
  cbn [buf with_buf]. rewrite slice_splice by (unfold off; lia).
  destruct (enqueue_repr sw3 salt ch3 q3 d HR3) as (sw4 & -> & Hk4 & HR4).
  rewrite take_ge in HR4 by lia.
  destruct (flush_repr _ _ _ _ HR4) as (sw5 & -> & Hk5 & _ & HR5 & _).
  { eapply Repr_few; [exact HR3|reflexivity|]. eapply few_le; [|exact Hfew]. lia. }
  exists d, e, r', (with_needFlush false sw5), (push ch3 (q3 ++ d)).
  split_and!; try done.
  - by destruct HR5.
  - simpl. destruct Hk1 as (? & _), Hk3 as (? & _), Hk4 as (? & _), Hk5 as (? & _).
    simpl in *. congruence.
  - by rewrite concat_push, app_assoc, Hcat3, Hcat1, app_assoc.
  - intros ->. destruct (Hno1 ltac:(done)) as [-> ->]. by destruct (Hno3 ltac:(done)) as [-> ->].
Qed.

End ReadFromLemmas.

End WriterLemmas.

(** ** Programs of writer calls *)

Inductive op :=
| OpWrite (rc : race) (p : bytes)
| OpLazyWrite (p : bytes)
| OpFlush
| OpReadFrom (rc : race) (c : Conn).

Section Programs.
Context `{CryptoOps}.

Definition run_op (o : op) (sw : t) : outcome (nat * option error) * t :=
  match o with
  | OpWrite rc p => Write rc sw p
  | OpLazyWrite p => LazyWrite sw p
  | OpFlush => let '(e, sw) := Flush sw in (Ret (0, e), sw)
  | OpReadFrom rc c => let '(r, sw, _) := ReadFrom rc sw c in (r, sw)
  end.

Fixpoint run_ops (os : list op) (sw : t) : list (outcome (nat * option error)) * t :=
  match os with
  | [] => ([], sw)
  | o :: os =>
    let '(r, sw) := run_op o sw in
    let '(rs, sw) := run_ops os sw in (r :: rs, sw)
  end.

(** The plaintext a call accepts, and the result it must have. *)
Definition payload (o : op) : bytes :=
  match o with
  | OpWrite _ p | OpLazyWrite p => p
  | OpFlush => []
  | OpReadFrom _ c => rd_bytes c
  end.

Definition expected (o : op) : outcome (nat * option error) :=
  match o with
  | OpReadFrom _ c => Ret (ReadFrom_result (length (rd_bytes c)) (fin c))
  | _ => Ret (length (payload o), None)
  end.

(** The writer accepted exactly [sent]; nothing is buffered unless a flush is
    due. *)
Definition Good (sw : t) (salt sent : bytes) : Prop :=
  exists chunks q, Repr sw salt chunks q /\
    (needFlush sw = false -> q = []) /\ concat chunks ++ q = sent.

(** A writer that will use [salt]. *)
Definition will_use (sw : t) (salt : bytes) : Prop :=
  Unused sw /\ exists g ent, saltGenerator sw = Some g /\ SaltGeneratorLaws g /\
    GetSalt g (zeros (SaltSize (ssCipher sw))) (entropy sw) = (None, salt, ent).

Definition State (sw : t) (c : Cipher) (salt sent : bytes) : Prop :=
  ssCipher sw = c /\ (Good sw salt sent \/ (will_use sw salt /\ sent = [])).

End Programs.

Section ProgramLemmas.
Context `{CryptoLaws}.

Lemma State_init sw c salt sent :
  wf_cipher c -> State sw c salt sent ->
  exists sw', init sw = (Ret tt, sw') /\ Good sw' salt sent /\ ssCipher sw' = c.
Proof.
  intros Hwf [Hc [HG|[[Hu (g & ent & Hg & Hlaw & Hs)] ->]]].
  - destruct HG as (chunks & q & HR & ?). exists sw. split_and!; [|by exists chunks, q|done..].
    by eapply init_repr.
  - subst c. destruct (init_unused sw g salt ent) as (sw' & E & HR & Hc & Hn); [done..|].
    exists sw'. split_and!; [done| |done]. by exists [], [].
Qed.

Lemma LazyWrite_good sw c salt sent p :
  wf_cipher c -> State sw c salt sent -> few (length (sent ++ p)) ->
  exists sw', LazyWrite sw p = (Ret (length p, None), sw') /\
    State sw' c salt (sent ++ p).
Proof.
  intros Hwf HS Hfew.
  destruct (State_init sw c salt sent Hwf HS) as (sw1 & E & HG & Hc).
  destruct HG as (chunks & q & HR & _ & Hcat). unfold LazyWrite. rewrite E.
  destruct (LazyWrite_loop_repr (length p + 2) sw1 salt chunks q p 0 HR)
    as (sw2 & chunks2 & q2 & E2 & HR2 & Hc2 & Hn2 & Hcat2).
  { by rewrite app_assoc, Hcat. }
  { case_decide; lia. }
  rewrite E2. exists sw2. split; [done|]. split; [congruence|]. left.
  exists chunks2, q2. split_and!; [done|congruence|].
  by rewrite Hcat2, app_assoc, Hcat.
Qed.

(** [ReadFrom] only reads from its source. *)
Lemma ReadFrom_loop_reads {R} `{Reader R} fuel : forall sw (r : R) total o sw' r',
  ReadFrom_loop fuel sw r total = (o, sw', r') -> reads r r'.
Proof.
  induction fuel as [|fuel IH]; intros sw r total o sw' r'; cbn [ReadFrom_loop].
  { intros [= _ _ <-]. apply rtc_refl. }
  destruct (rd_read r payloadSizeMask) as [[d e] r1] eqn:E. apply reads_one in E.
  destruct (flush _) as [fe sw1]. destruct (match fe with Some _ => _ | None => e end).
  - by intros [= _ _ <-].
  - intros El. etrans; [exact E|by eapply IH].
Qed.

Lemma ReadFrom_reads {R} `{Reader R} rc sw (r : R) o sw' r' :
  ReadFrom rc sw r = (o, sw', r') -> reads r r'.
Proof.
  unfold ReadFrom. destruct (init sw) as [[[]|x|m] sw1];
    [|intros [= _ _ <-]; apply rtc_refl..].
  assert (forall r1, reads r r1 -> forall sw1 total,
    (let '((total, x), sw, r) := ReadFrom_loop (S (rd_fuel r1)) sw1 r1 total in
     (Ret (ReadFrom_result total x), sw, r)) = (o, sw', r') -> reads r r') as Hloop.
  { intros r1 Hr1 sw2 total. destruct (ReadFrom_loop _ _ _ _) as [[[t x] sw3] r3] eqn:E.
    apply ReadFrom_loop_reads in E. intros [= _ _ <-]. by etrans. }
  destruct (needFlush sw1); [|apply Hloop, rtc_refl].
  destruct (ReadFrom_first rc sw1 r) as [[[total err] sw2] r2] eqn:E.
  assert (reads r r2) as Hr2.
  { revert E. unfold ReadFrom_first. destruct (rd_read r _) as [[d e] r1] eqn:Er.
    apply reads_one in Er. destruct (enqueue _ _) as [k sw3]. destruct (flush sw3).
    by intros [= _ _ _ <-]. }
  destruct err; [by intros [= _ _ <-]|]. by apply Hloop.
Qed.

Lemma ReadFrom_good {R} `{ReaderLaws R} rc sw c salt sent (r : R) :
  wf_cipher c -> State sw c salt sent -> few (length (sent ++ rd_bytes r)) ->
  exists sw' r', ReadFrom rc sw r =
      (Ret (ReadFrom_result (length (rd_bytes r)) (rd_end r)), sw', r') /\
    State sw' c salt (sent ++ rd_bytes r) /\ needFlush sw' = false /\ rd_bytes r' = [].
Proof.
  intros Hwf HS Hfew.
  destruct (State_init sw c salt sent Hwf HS) as (sw1 & E & HG & Hc).
  destruct HG as (chunks & q & HR & Hlazy & Hcat). unfold ReadFrom. rewrite E.
  assert (forall sw' chunks', Repr sw' salt chunks' [] -> ssCipher sw' = c ->
    concat chunks' = sent ++ rd_bytes r -> State sw' c salt (sent ++ rd_bytes r))
    as Hdone.
  { intros sw' chunks' HR' Hc' Hcat'. split; [done|]. left.
    exists chunks', []. rewrite app_nil_r. by split_and!. }
  destruct (needFlush sw1) eqn:Hn.
  - destruct (ReadFrom_first_repr rc sw1 salt chunks q r HR Hn)
      as (d & e & r2 & sw2 & chunks2 & Er & -> & HR2 & Hc2 & Hn2 & Hcat2 & _).
    { by rewrite app_assoc, Hcat. }
    rewrite app_assoc, Hcat in Hcat2.
    destruct e as [x|].
    + apply rd_read_stop in Er as (Hb & -> & Hb2 & _). exists sw2, r2.
      rewrite Hb. split_and!; [done| |done|done]. rewrite <- Hb.
      apply (Hdone sw2 chunks2); [done|congruence|by rewrite Hb].
    + apply rd_read_more in Er as [Hb He].
      destruct (ReadFrom_loop_repr (S (rd_fuel r2)) sw2 salt chunks2 r2 (length d) HR2)
        as (sw3 & chunks3 & r3 & -> & HR3 & (Hc3 & _ & Hn3) & Hcat3 & _ & Hb3);
        [by rewrite Hcat2, <- app_assoc, <- Hb|lia|].
      exists sw3, r3. rewrite Hb, length_app, He. split_and!; [done| |congruence|done].
      rewrite <- Hb. apply (Hdone sw3 chunks3); [done|congruence|].
      by rewrite Hcat3, Hcat2, <- app_assoc, <- Hb.
  - rewrite (Hlazy eq_refl), app_nil_r in *.
    destruct (ReadFrom_loop_repr (S (rd_fuel r)) sw1 salt chunks r 0 HR)
      as (sw3 & chunks3 & r3 & -> & HR3 & (Hc3 & _ & Hn3) & Hcat3 & _ & Hb3);
      [by rewrite Hcat|lia|].
    exists sw3, r3. split_and!; [done| |congruence|done].
    apply (Hdone sw3 chunks3); [done|congruence|by rewrite Hcat3, Hcat].
Qed.

Lemma Flush_good sw c salt sent :
  State sw c salt sent -> few (length sent) ->
  exists sw', Flush sw = (None, sw') /\ State sw' c salt sent.
Proof.
  intros [Hc [HG|[Hw ->]]] Hfew.
  - destruct HG as (chunks & q & HR & Hlazy & Hcat). unfold Flush.
    destruct (needFlush sw) eqn:Hn; simpl.
    + destruct (flush_repr sw salt chunks q HR) as (sw' & -> & (Hk & _) & _ & HR' & _).
      { eapply Repr_few; [done|reflexivity|]. eapply few_le; [|exact Hfew].
        rewrite <- Hcat, length_app. lia. }
      exists sw'. split; [done|]. split; [congruence|]. left.
      exists (push chunks q), []. by rewrite concat_push, app_nil_r.
    + exists sw. split; [done|]. split; [done|]. left. exists chunks, q.
      split_and!; [done| |done]. intros _. by apply Hlazy.
  - exists sw. pose proof Hw as [Hu _]. unfold Flush.
    rewrite (unused_needFlush _ Hu). split; [done|]. split; [done|]. by right.
Qed.

Lemma run_op_good o sw c salt sent :
  wf_cipher c -> State sw c salt sent -> few (length (sent ++ payload o)) ->
  exists sw', run_op o sw = (expected o, sw') /\ State sw' c salt (sent ++ payload o).
Proof.
  intros Hwf HS Hfew. destruct o as [rc p|p| |rc cn]; simpl in *.
  - unfold Write. destruct (ReadFrom_good rc sw c salt sent (bytesReader p))
      as (sw' & r' & -> & HS' & _); [done..|by rewrite bytesReader_bytes|].
    rewrite bytesReader_bytes in *. exists sw'. split; [|done].
    by destruct p.
  - by apply LazyWrite_good.
  - rewrite app_nil_r in *. destruct (Flush_good sw c salt sent) as (sw' & -> & ?);
      [done..|]. eauto.
  - destruct (ReadFrom_good rc sw c salt sent cn) as (sw' & r' & -> & HS' & _);
      [done..|]. eauto.
Qed.

Lemma run_ops_good os : forall sw c salt sent,
  wf_cipher c -> State sw c salt sent ->
  few (length (sent ++ concat (payload <$> os))) ->
  exists sw', run_ops os sw = (expected <$> os, sw') /\
    State sw' c salt (sent ++ concat (payload <$> os)).
Proof.
  induction os as [|o os IH]; intros sw c salt sent Hwf HS Hfew; simpl in *.
  - rewrite app_nil_r in *. eauto.
  - rewrite app_assoc in Hfew |- *.
    destruct (run_op_good o sw c salt sent) as (sw1 & -> & HS1); [done..| |].
    { eapply few_le; [|exact Hfew]. rewrite (length_app (sent ++ payload o)). lia. }
    destruct (IH sw1 c salt _ Hwf HS1 Hfew) as (sw2 & -> & HS2). eauto.
Qed.

(** A lazy write that fits is only queued. *)
Lemma LazyWrite_queued sw c salt p :
  wf_cipher c -> ssCipher sw = c -> will_use sw salt -> length p <= payloadSizeMask ->
  exists sw', LazyWrite sw p = (Ret (length p, None), sw') /\ Repr sw' salt [] p /\
    ssCipher sw' = c /\ needFlush sw' = true.
Proof.
  intros Hwf Hc [Hu (g & ent & Hg & Hlaw & Hs)] Hp. subst c.
  destruct (init_unused sw g salt ent Hu Hwf Hg Hlaw Hs) as (sw1 & E & HR & Hc & _).
  unfold LazyWrite. rewrite E. replace (length p + 2) with (S (length p + 1)) by lia.
  cbn [LazyWrite_loop]. destruct (enqueue_repr sw1 salt [] [] p HR) as (sw2 & -> & Hk & HR2).
  cbn [length] in *. rewrite Nat.sub_0_r, Nat.min_r in * by lia.
  rewrite take_ge in HR2 by lia. rewrite drop_ge by lia. simpl.
  destruct Hk as (Hk & _). eexists. split; [done|]. split_and!; [|by simpl; congruence|done].
  destruct HR2. by split.
Qed.

(** A write that follows it before the flush, and fits too, leaves with it in
    one piece. *)
Lemma Write_queued sw salt q p :
  Repr sw salt [] q -> needFlush sw = true -> q <> [] ->
  length q + length p <= payloadSizeMask ->
  exists sw', Write NoFlush sw p = (Ret (length p, None), sw') /\
    Repr sw' salt [q ++ p] [] /\ ssCipher sw' = ssCipher sw /\ needFlush sw' = false.
Proof.
  intros HR Hn Hq Hlen. unfold Write, ReadFrom. rewrite (init_repr _ _ _ _ HR), Hn.
  assert (few (length (concat [] ++ q ++ rd_bytes (bytesReader p)))) as Hfew.
  { rewrite bytesReader_bytes. simpl. rewrite length_app.
    apply (few_le _ payloadSizeMask); [lia|done]. }
  destruct (ReadFrom_first_repr NoFlush sw salt [] q (bytesReader p) HR Hn Hfew)
    as (d & e & r2 & sw2 & chunks2 & Er & -> & HR2 & Hc2 & Hn2 & _ & Hch).
  specialize (Hch eq_refl). rewrite bytesReader_bytes in Hfew.
  assert (push [] (q ++ d) = [q ++ d]) as Hpush
    by (unfold push; rewrite decide_False; [done|by destruct q]).
  rewrite Hpush in Hch. subst chunks2. destruct e as [x|].
  - apply rd_read_stop in Er as (Hb & -> & _). rewrite bytesReader_bytes in Hb. subst d.
    exists sw2. by split_and!.
  - pose proof Er as [Hb He]%rd_read_more. rewrite bytesReader_bytes in Hb.
    assert (d = p /\ rd_bytes r2 = []) as [-> Hr2].
    { clear -Er Hlen Hb. unfold bytesReader, rd_read in Er. cbn [Conn_reader] in Er. unfold Conn_read in Er.
      destruct p as [|x p]; [done|]. cbn [concat app segs fin eager] in Er.
      rewrite drop_ge in Er by (cbn [length] in *; lia). injection Er as <- <-.
      rewrite take_ge by (cbn [length] in *; lia). done. }
    destruct (ReadFrom_loop_repr (S (rd_fuel r2)) sw2 salt [q ++ p] r2 (length p) HR2)
      as (sw3 & chunks3 & r3 & -> & HR3 & (Hc3 & _ & Hn3) & Hcat3 & [more Hpre] & _);
      [by rewrite Hr2, app_nil_r; simpl in *; rewrite app_nil_r|lia|].
    rewrite Hr2, He. simpl. exists sw3. rewrite Nat.add_0_r.
    split_and!; [done| |congruence|congruence].
    assert (more = []) as ->; [|by subst chunks3].
    pose proof (repr_chunks _ _ _ _ HR3) as Hall. rewrite Hpre in Hall, Hcat3.
    apply Forall_app in Hall as [_ Hall]. rewrite Hr2, concat_app, app_nil_r in Hcat3.
    apply (f_equal length) in Hcat3. rewrite length_app in Hcat3.
    pose proof (length_chunks_le more Hall). by destruct more; [|simpl in *; lia].
Qed.

Lemma few_nil : few 0.
Proof. done. Qed.

(** A new writer over a reliable sink, with a generator that succeeds. *)
Lemma State_new s c g ent salt ent' :
  written s = [] -> reliable s -> SaltGeneratorLaws g ->
  GetSalt g (zeros (SaltSize c)) ent = (None, salt, ent') ->
  State (SetSaltGenerator g (NewShadowsocksWriter s c ent)) c salt [].
Proof.
  intros Hw Hr Hg Hs. split; [done|]. right. split; [|done].
  split; [by split|]. exists g, ent'. by split_and!.
Qed.

End ProgramLemmas.

End Writer.
