(* ===== verification/StreamReader.v ===== *)
(** * [shadowsocks/stream.go]: the stream reader

    [chunkReader] decrypts chunk by chunk; [readConverter] turns it into an
    [io.Reader] and [io.WriterTo].  The inner reader is any type with the
    [Reader] interface.  The payload buffer comes from the shared pool, which is
    threaded explicitly; the returned payload is a value, which is sound because
    no two holders share a buffer ([SlicePool.pool_exclusive]) and
    [readConverter] drops its leftover before it reads the next chunk. *)
From S2P Require Import Prelude GoIO Cipher SlicePool Wire.

(** [readBufPool] *)
Definition readBufPool `{CryptoOps} (choices : list (option nat)) : Pool :=
  MakePool (payloadSizeMask + maxTagSize) choices.

Module chunkReader.

Record t (R : Type) := Mk {
  reader : R;
  ssCipher : Cipher;
  aead : option AEAD;
  counter : bytes;
  payloadSizeBuf : bytes;
  payload : LazySlice;
}.
Arguments Mk {R}.
Arguments reader {R}.
Arguments ssCipher {R}.
Arguments aead {R}.
Arguments counter {R}.
Arguments payloadSizeBuf {R}.
Arguments payload {R}.

Section Defs.
Context `{CryptoOps} {R : Type} `{Reader R}.

(** The error of [init] when the salt cannot be read. *)
Definition salt_error (e : error) : error :=
  if decide (e <> EOF /\ e <> ErrUnexpectedEOF)
  then Wrapf "failed to read salt" e else e.

Definition with_payload (l : LazySlice) (cr : t R) : t R :=
  Mk (reader cr) (ssCipher cr) (aead cr) (counter cr) (payloadSizeBuf cr) l.

Definition init (cr : t R) : outcome unit * t R :=
  match aead cr with
  | Some _ => (Ret tt, cr)
  | None =>
    let '(salt, e, r) := ReadFull (reader cr) (SaltSize (ssCipher cr)) in
    let cr := Mk r (ssCipher cr) (aead cr) (counter cr) (payloadSizeBuf cr)
                (payload cr) in
    match e with
    | Some err => (Err (salt_error err), cr)
    | None =>
      match NewAEAD (ssCipher cr) salt with
      | Err _ => (Err (Errorf "failed to create AEAD"), cr)
      | Panic s => (Panic s, cr)
      | Ret a =>
        (Ret tt, Mk (reader cr) (ssCipher cr) (Some a) (zeros (NonceSize a))
           (zeros (2 + Overhead a)) (payload cr))
      end
    end
  end.

Definition the_aead (cr : t R) : AEAD :=
  default (MkAEAD 0 0 (fun _ _ => []) (fun _ _ => None)) (aead cr).

(** [readMessage(buf)] with [len(buf) = n]: the contents of [buf] after it was
    decrypted in place. *)
Definition readMessage (cr : t R) (n : nat) : outcome bytes * t R :=
  let '(d, e, r) := ReadFull (reader cr) n in
  let cr1 := Mk r (ssCipher cr) (aead cr) (counter cr) (payloadSizeBuf cr)
               (payload cr) in
  match e with
  | Some err => (Err err, cr1)
  | None =>
    let o := Open (the_aead cr) (counter cr) d in
    let cr2 := Mk r (ssCipher cr) (aead cr) (increment (counter cr))
                 (payloadSizeBuf cr) (payload cr) in
    match o with
    | None => (Err errDecrypt, cr2)
    | Some p => (Ret (splice d 0 p), cr2)
    end
  end.

Definition with_sizeBuf (b : bytes) (cr : t R) : t R :=
  Mk (reader cr) (ssCipher cr) (aead cr) (counter cr) b (payload cr).

(** [ReadChunk] after [init]. *)
Definition ReadChunk_body (p : Pool) (cr : t R) : outcome bytes * Pool * t R :=
  match Release p (payload cr) with
  | Panic s => (Panic s, p, cr)
  | Err e => (Err e, p, cr)
  | Ret (p, l) =>
    let cr := with_payload l cr in
    match readMessage cr (length (payloadSizeBuf cr)) with
    | (Panic s, cr) => (Panic s, p, cr)
    | (Err e, cr) => (Err (size_error e), p, cr)
    | (Ret szb, cr) =>
      let cr := with_sizeBuf szb cr in
      let size := chunk_size (payloadSizeBuf cr) in
      let sizeWithTag := size + Overhead (the_aead cr) in
      match Acquire p (payload cr) with
      | Panic s => (Panic s, p, cr)
      | Err e => (Err e, p, cr)
      | Ret (b, p, l) =>
        let cr := with_payload l cr in
        if decide (buf_cap p b < sizeWithTag) then (Err ErrShortBuffer, p, cr)
        else
          match readMessage cr sizeWithTag with
          | (Panic s, cr) => (Panic s, p, cr)
          | (Ret buf, cr) => (Ret (take size buf), p, cr)
          | (Err e, cr) =>
            match Release p (payload cr) with
            | Panic s => (Panic s, p, cr)
            | Err e => (Err e, p, cr)
            | Ret (p, l) => (Err (payload_error e), p, with_payload l cr)
            end
          end
      end
    end
  end.

Definition ReadChunk (p : Pool) (cr : t R) : outcome bytes * Pool * t R :=
  match init cr with
  | (Panic s, cr) => (Panic s, p, cr)
  | (Err e, cr) => (Err e, p, cr)
  | (Ret tt, cr) => ReadChunk_body p cr
  end.

(** The reader state after [k] messages under the AEAD [a]. *)
Record Repr (p : Pool) (cr : t R) (a : AEAD) (k : nat) : Prop := {
  repr_aead : aead cr = Some a;
  repr_std : standard_AEAD a;
  repr_counter : counter cr = nonce_at 12 k;
  repr_sizeBuf : length (payloadSizeBuf cr) = 18;
  repr_pool : pool_ok p (payload cr);
  repr_plen : plen p = payloadSizeMask + 16;
}.

(** A reader that has not read its salt. *)
Record Unused (p : Pool) (cr : t R) : Prop := {
  unused_aead : aead cr = None;
  unused_pool : pool_ok p (payload cr);
  unused_plen : plen p = payloadSizeMask + 16;
}.

End Defs.

End chunkReader.

(** ** [readConverter] *)

Module readConverter.

Record t (R : Type) := Mk { cr : chunkReader.t R; leftover : bytes }.
Arguments Mk {R}.
Arguments cr {R}.
Arguments leftover {R}.

Section Defs.
Context `{CryptoOps} {R : Type} `{Reader R}.

Definition ensureLeftover (p : Pool) (c : t R) : outcome unit * Pool * t R :=
  if decide (0 < length (leftover c)) then (Ret tt, p, c)
  else
    match chunkReader.ReadChunk p (cr c) with
    | (Panic s, p, k) => (Panic s, p, Mk k [])
    | (Err e, p, k) => (Err e, p, Mk k [])
    | (Ret payload, p, k) => (Ret tt, p, Mk k payload)
    end.

(** [Read(b)] with [len(b) = n]. *)
Definition Read (p : Pool) (c : t R) (n : nat) : outcome bytes * Pool * t R :=
  match ensureLeftover p c with
  | (Panic s, p, c) => (Panic s, p, c)
  | (Err e, p, c) => (Err e, p, c)
  | (Ret tt, p, c) =>
    (Ret (take n (leftover c)), p, Mk (cr c) (drop n (leftover c)))
  end.

(** The loop of [WriteTo]. *)
Fixpoint WriteTo_loop (fuel : nat) (p : Pool) (c : t R) (w : Sink) (total : nat)
  : outcome (nat * option error) * Pool * t R * Sink :=
  match fuel with
  | O => (Ret (total, Some (Errorf "out of fuel")), p, c, w)
  | S fuel =>
    match ensureLeftover p c with
    | (Panic s, p, c) => (Panic s, p, c, w)
    | (Err e, p, c) =>
      (Ret (total, if decide (e = EOF) then None else Some e), p, c, w)
    | (Ret tt, p, c) =>
      let '(n, e, w) := Sink_write w (leftover c) in
      let c := Mk (cr c) (drop n (leftover c)) in
      match e with
      | Some err => (Ret (total + n, Some err), p, c, w)
      | None => WriteTo_loop fuel p c w (total + n)
      end
    end
  end.

(** [WriteTo]: every round after the first takes a chunk off the input. *)
Definition WriteTo (p : Pool) (c : t R) (w : Sink)
  : outcome (nat * option error) * Pool * t R * Sink :=
  WriteTo_loop (2 + length (rd_bytes (chunkReader.reader (cr c)))) p c w 0.

End Defs.

(** [NewShadowsocksReader] *)
Definition NewShadowsocksReader {R} (r : R) (c : Cipher) : t R :=
  Mk (chunkReader.Mk r c None [] [] Pool_LazySlice) [].

End readConverter.

(** ** The specification of a whole stream *)

Definition decode_stream `{CryptoOps} (c : Cipher) (input : bytes) (fin : error)
  : list bytes * error :=
  if decide (length input < SaltSize c)
  then ([], chunkReader.salt_error (short_error input fin))
  else
    match NewAEAD c (take (SaltSize c) input) with
    | Ret a => decode a 0 (drop (SaltSize c) input) fin
    | _ => ([], Errorf "failed to create AEAD")
    end.

(** ** Lemmas *)

Section ReaderLemmas.
Context `{CryptoLaws} {R : Type} `{ReaderLaws R}.
Implicit Types cr : chunkReader.t R.

Import chunkReader.

Lemma reader_Repr_the_aead p cr a k : Repr p cr a k -> the_aead cr = a.
Proof. intros HR. unfold the_aead. by rewrite (repr_aead _ _ _ _ HR). Qed.

(** [readMessage] on enough input. *)
Lemma readMessage_ok p cr a k n :
  Repr p cr a k -> n <= length (rd_bytes (reader cr)) ->
  exists r', rd_bytes r' = drop n (rd_bytes (reader cr)) /\
    rd_end r' = rd_end (reader cr) /\
    readMessage cr n =
      let cr' := Mk r' (ssCipher cr) (aead cr) (nonce_at 12 (S k))
                   (payloadSizeBuf cr) (payload cr) in
      match Open a (nonce_at 12 k) (take n (rd_bytes (reader cr))) with
      | None => (Err errDecrypt, cr')
      | Some q => (Ret (splice (take n (rd_bytes (reader cr))) 0 q), cr')
      end.
Proof.
  intros HR Hn. destruct (ReadFull_ok (reader cr) n Hn) as (r' & E & Hb & He).
  exists r'. split_and!; [done..|]. unfold readMessage. rewrite E.
  rewrite (reader_Repr_the_aead _ _ _ _ HR), (repr_counter _ _ _ _ HR).
  by destruct (Open a _ _).
Qed.

Lemma readMessage_short cr n :
  length (rd_bytes (reader cr)) < n ->
  exists r', readMessage cr n =
    (Err (short_error (rd_bytes (reader cr)) (rd_end (reader cr))),
     Mk r' (ssCipher cr) (aead cr) (counter cr) (payloadSizeBuf cr) (payload cr)).
Proof.
  intros Hn. destruct (ReadFull_short (reader cr) n Hn) as (r' & E & _).
  exists r'. unfold readMessage. by rewrite E.
Qed.

(** In-place decryption leaves the plaintext at the start of the buffer. *)
Lemma take_splice_head (d q : bytes) n :
  length q = n -> n <= length d -> take n (splice d 0 q) = q.
Proof.
  intros <- Hn. rewrite splice_fit by lia. by rewrite take_0, app_nil_l, take_app_length.
Qed.

Lemma chunk_size_splice (d q : bytes) :
  length q = 2 -> 2 <= length d -> chunk_size (splice d 0 q) = chunk_size q.
Proof.
  intros Hq Hd. rewrite splice_fit by lia. unfold chunk_size, Uint16, nth_byte.
  rewrite take_0, app_nil_l. by rewrite !app_nth1 by lia.
Qed.

(** One call of [ReadChunk] is one step of the reference decoder. *)
Lemma ReadChunk_body_spec p cr a k :
  Repr p cr a k ->
  exists p' cr',
    match decode_chunk a k (rd_bytes (reader cr)) (rd_end (reader cr)) with
    | inl (q, rest) =>
      ReadChunk_body p cr = (Ret q, p', cr') /\ Repr p' cr' a (S (S k)) /\
      rd_bytes (reader cr') = rest /\ rd_end (reader cr') = rd_end (reader cr)
    | inr e =>
      ReadChunk_body p cr = (Err e, p', cr') /\ pool_ok p' (payload cr')
    end.
Proof.
  intros HR. pose proof HR as [Ha Hstd Hc Hsb Hpool Hplen].
  pose proof Hstd as (Hlaws & Hns & Hov).
  unfold ReadChunk_body, decode_chunk. rewrite Hns, Hov.
  destruct (Release_ok _ _ Hpool) as (p1 & -> & Hok1 & Hpl1).
  set (cr1 := with_payload (MkLazySlice None) cr).
  assert (Repr p1 cr1 a k) as HR1 by (split; simpl; try done; congruence).
  change (payloadSizeBuf cr1) with (payloadSizeBuf cr). rewrite Hsb.
  case_decide as Hl1.
  { destruct (readMessage_short cr1 18 Hl1) as (r' & ->). eauto 10. }
  destruct (readMessage_ok p1 cr1 a k 18 HR1) as (r2 & Hb2 & He2 & ->);
    [simpl; lia|].
  change (reader cr1) with (reader cr) in *.
  change (2 + 16) with 18.
  destruct (Open a (nonce_at 12 k) (take 18 (rd_bytes (reader cr)))) as [szb|] eqn:E1;
    cbn zeta iota; [|eauto 10].
  pose proof (length_Open _ _ _ E1) as Hszb. rewrite length_take in Hszb.
  set (input := rd_bytes (reader cr)) in *.
  set (cr2 := with_sizeBuf _ _).
  assert (chunk_size (payloadSizeBuf cr2) = chunk_size szb) as Hcs.
  { simpl. apply chunk_size_splice; rewrite ?length_take; lia. }
  rewrite Hcs. set (size := chunk_size szb) in *.
  change (payload cr2) with (MkLazySlice None).
  destruct (Acquire_ok p1 Hok1) as (b & p2 & -> & Hok2 & Hpl2 & Hcap).
  change (the_aead cr2) with (the_aead cr). rewrite (reader_Repr_the_aead _ _ _ _ HR), Hov.
  pose proof (chunk_size_le szb) as Hsz. fold size in Hsz.
  rewrite (decide_False (P := buf_cap p2 b < size + 16)) by lia.
  set (cr3 := with_payload _ cr2).
  assert (Repr p2 cr3 a (S k)) as HR3.
  { split; simpl; try done; [|congruence].
    rewrite length_splice by lia. rewrite length_take. lia. }
  rewrite <- Hb2. case_decide as Hl2.
  { destruct (readMessage_short cr3 (size + 16) Hl2) as (r' & ->).
    simpl. destruct (Release_ok _ _ Hok2) as (p3 & -> & Hok3 & _).
    rewrite He2. eauto 10. }
  destruct (readMessage_ok p2 cr3 a (S k) (size + 16) HR3) as (r4 & Hb4 & He4 & ->);
    [simpl; lia|].
  change (reader cr3) with r2 in *.
  destruct (Open a (nonce_at 12 (S k)) (take (size + 16) (rd_bytes r2))) as [q|] eqn:E2;
    cbn zeta iota.
  - pose proof (length_Open _ _ _ E2) as Hq. rewrite length_take in Hq.
    rewrite take_splice_head by (rewrite ?length_take; lia).
    eexists p2, _. split_and!; [done| |done|simpl; congruence].
    destruct HR3. by split.
  - simpl. destruct (Release_ok _ _ Hok2) as (p3 & -> & Hok3 & _).
    eexists p3, _. split; [done|done].
Qed.

(** [init] of a fresh reader. *)
Lemma reader_init_unused p cr :
  Unused p cr -> wf_cipher (ssCipher cr) ->
  exists cr',
    if decide (length (rd_bytes (reader cr)) < SaltSize (ssCipher cr)) then
      init cr = (Err (salt_error
        (short_error (rd_bytes (reader cr)) (rd_end (reader cr)))), cr') /\
      pool_ok p (payload cr')
    else exists a,
      NewAEAD (ssCipher cr) (take (SaltSize (ssCipher cr)) (rd_bytes (reader cr))) = Ret a /\
      init cr = (Ret tt, cr') /\ Repr p cr' a 0 /\
      rd_bytes (reader cr') = drop (SaltSize (ssCipher cr)) (rd_bytes (reader cr)) /\
      rd_end (reader cr') = rd_end (reader cr).
Proof.
  intros [Ha Hpool Hplen] Hwf. unfold init. rewrite Ha. case_decide as Hl.
  - destruct (ReadFull_short _ _ Hl) as (r' & -> & _). eauto.
  - destruct (ReadFull_ok (reader cr) (SaltSize (ssCipher cr))) as (r' & -> & Hb & He);
      [lia|]. simpl.
    destruct (NewAEAD_ok (ssCipher cr)
      (take (SaltSize (ssCipher cr)) (rd_bytes (reader cr))) Hwf) as (a & HN & Hstd).
    rewrite HN. pose proof Hstd as (_ & Hn & Ho). rewrite Hn, Ho.
    eexists. exists a. split_and!; [done..| |done|done].
    split; simpl; done.
Qed.

(** The reader will deliver the chunks [cs] and then the error [e]. *)
Definition delivers (p : Pool) cr (cs : list bytes) (e : error) : Prop :=
  (exists a k, Repr p cr a k /\
     decode a k (rd_bytes (reader cr)) (rd_end (reader cr)) = (cs, e)) \/
  (Unused p cr /\ wf_cipher (ssCipher cr) /\
     decode_stream (ssCipher cr) (rd_bytes (reader cr)) (rd_end (reader cr)) = (cs, e)).

(** [ReadChunk] delivers them one at a time. *)
Lemma ReadChunk_repr p cr a k cs e :
  Repr p cr a k ->
  decode a k (rd_bytes (reader cr)) (rd_end (reader cr)) = (cs, e) ->
  exists p' cr',
    match cs with
    | [] => ReadChunk_body p cr = (Err e, p', cr') /\ pool_ok p' (payload cr')
    | c :: cs' => ReadChunk_body p cr = (Ret c, p', cr') /\ delivers p' cr' cs' e /\
        length (rd_bytes (reader cr')) < length (rd_bytes (reader cr))
    end.
Proof.
  intros HR Hdec. pose proof (repr_std _ _ _ _ HR) as (Hlaws & _).
  destruct (ReadChunk_body_spec p cr a k HR) as (p' & cr' & Hspec).
  rewrite (decode_unfold a) in Hdec. exists p', cr'.
  destruct (decode_chunk _ _ _ _) as [[q rest]|e'] eqn:Ec.
  - destruct Hspec as (E & HR' & Hb & He).
    destruct (decode a (S (S k)) rest (rd_end (reader cr))) as [ps e2] eqn:Ed.
    pose proof (decode_chunk_shorter a _ _ _ _ _ Ec). simplify_eq.
    split_and!; [done| |done].
    left. exists a, (S (S k)). by rewrite He.
  - by simplify_eq.
Qed.

Lemma ReadChunk_spec p cr cs e :
  delivers p cr cs e ->
  exists p' cr',
    match cs with
    | [] => ReadChunk p cr = (Err e, p', cr') /\ pool_ok p' (payload cr')
    | c :: cs' => ReadChunk p cr = (Ret c, p', cr') /\ delivers p' cr' cs' e /\
        length (rd_bytes (reader cr')) < length (rd_bytes (reader cr))
    end.
Proof.
  unfold ReadChunk. intros [(a & k & HR & Hdec)|(Hu & Hwf & Hdec)].
  - unfold init. rewrite (repr_aead _ _ _ _ HR). by eapply ReadChunk_repr.
  - destruct (reader_init_unused p cr Hu Hwf) as (cr1 & Hinit).
    unfold decode_stream in Hdec. case_decide as Hl.
    + destruct Hinit as [-> Hok]. simplify_eq. by exists p, cr1.
    + destruct Hinit as (a & HN & -> & HR & Hb & He). rewrite HN in Hdec.
      destruct (ReadChunk_repr p cr1 a 0 cs e HR) as (p' & cr' & Hrc); [by rewrite Hb, He|].
      exists p', cr'. destruct cs; [done|]. destruct Hrc as (? & ? & Hlen).
      split_and!; [done..|]. rewrite Hb, length_drop in Hlen. lia.
Qed.

(** [ReadChunk] only reads from the connection, and has read it to its end when it
    returns [EOF]. *)
Lemma init_reads cr o cr' :
  init cr = (o, cr') ->
  reads (reader cr) (reader cr') /\ (o = Err EOF -> rd_bytes (reader cr') = []).
Proof.
  unfold init. destruct (aead cr) as [a|]; [intros [= <- <-]; split; [apply rtc_refl|done]|].
  destruct (ReadFull _ _) as [[salt e] r] eqn:E.
  pose proof (ReadFull_reads _ _ _ _ _ E) as Hr. destruct e as [x|].
  - intros [= <- <-]. split; [done|]. intros _. by eapply ReadFull_failed.
  - destruct (NewAEAD _ _); by intros [= <- <-].
Qed.

Lemma readMessage_reads cr n o cr' :
  readMessage cr n = (o, cr') ->
  reads (reader cr) (reader cr') /\ payload cr' = payload cr /\
  (forall x, o = Err x -> x = errDecrypt \/ rd_bytes (reader cr') = []).
Proof.
  unfold readMessage. destruct (ReadFull _ _) as [[d e] r] eqn:E.
  pose proof (ReadFull_reads _ _ _ _ _ E) as Hr. destruct e as [x|].
  - intros [= <- <-]. split_and!; [done|done|]. intros y _. right. by eapply ReadFull_failed.
  - destruct (Open _ _ _); intros [= <- <-]; split_and!; try done. intros x [= <-]. by left.
Qed.

Lemma Release_no_err p l e : Release p l <> Err e.
Proof. unfold Release, put. repeat case_match; congruence. Qed.

Lemma Acquire_no_err p l e : Acquire p l <> Err e.
Proof. unfold Acquire. destruct (held l); [done|]. by destruct (get p). Qed.

Lemma ReadChunk_body_reads p cr o p' cr' :
  ReadChunk_body p cr = (o, p', cr') ->
  reads (reader cr) (reader cr') /\ (o = Err EOF -> rd_bytes (reader cr') = []).
Proof.
  unfold ReadChunk_body. destruct (Release p (payload cr)) as [[p1 l1]|x|m] eqn:E1;
    [|by destruct (Release_no_err _ _ _ E1)|intros [= <- <- <-]; split; [apply rtc_refl|done]].
  destruct (readMessage _ _) as [o1 cr1] eqn:E2.
  apply readMessage_reads in E2 as (Hr1 & _ & Hx1). cbn [reader with_payload] in Hr1.
  destruct o1 as [szb|x|m]; [| |by intros [= <- <- <-]].
  2: { intros [= <- <- <-]. split; [done|]. intros [= Hs].
       destruct (Hx1 x eq_refl) as [->|]; [done|done]. }
  destruct (Acquire _ _) as [[[b p2] l2]|x|m] eqn:E3;
    [|by destruct (Acquire_no_err _ _ _ E3)|by intros [= <- <- <-]].
  case_decide; [by intros [= <- <- <-]|].
  destruct (readMessage _ _) as [o2 cr2] eqn:E4.
  apply readMessage_reads in E4 as (Hr2 & _ & _). cbn [reader with_payload with_sizeBuf] in Hr2.
  assert (reads (reader cr) (reader cr2)) as Hr by by etrans.
  destruct o2 as [buf|x|m]; [by intros [= <- <- <-]| |by intros [= <- <- <-]].
  destruct (Release p2 (payload cr2)) as [[p3 l3]|y|m] eqn:E5;
    [|by destruct (Release_no_err _ _ _ E5)|by intros [= <- <- <-]].
  intros [= <- <- <-]. split; [done|]. unfold payload_error.
  intros [= Hp]. case_decide; congruence.
Qed.

Lemma ReadChunk_reads p cr o p' cr' :
  ReadChunk p cr = (o, p', cr') ->
  reads (reader cr) (reader cr') /\ (o = Err EOF -> rd_bytes (reader cr') = []).
Proof.
  unfold ReadChunk. destruct (init cr) as [o1 cr1] eqn:E1. apply init_reads in E1 as [Hr Hx].
  destruct o1 as [[]|x|m]; [|intros [= <- <- <-]; by split; [|intros [= ->]; apply Hx]
                            |by intros [= <- <- <-]].
  intros E2. apply ReadChunk_body_reads in E2 as [Hr2 Hx2]. split; [by etrans|done].
Qed.

Import readConverter.

Definition conn_of (c : readConverter.t R) : R := reader (readConverter.cr c).

Lemma ensureLeftover_reads p c o p' c' :
  ensureLeftover p c = (o, p', c') ->
  reads (conn_of c) (conn_of c') /\ (o = Err EOF -> rd_bytes (conn_of c') = []).
Proof.
  unfold ensureLeftover. case_decide; [intros [= <- <- <-]; split; [apply rtc_refl|done]|].
  destruct (ReadChunk _ _) as [[o1 p1] k1] eqn:E. apply ReadChunk_reads in E as [Hr Hx].
  destruct o1 as [q|x|m]; intros [= <- <- <-]; split; try done. intros [= ->]. by apply Hx.
Qed.

Lemma Read_reads p c n o p' c' : Read p c n = (o, p', c') -> reads (conn_of c) (conn_of c').
Proof.
  unfold Read. destruct (ensureLeftover p c) as [[o1 p1] c1] eqn:E.
  apply ensureLeftover_reads in E as [Hr _]. destruct o1 as [[]|x|m]; by intros [= <- <- <-].
Qed.

(** A relay that ends without an error has read the connection to its end. *)
Lemma WriteTo_loop_reads fuel : forall p c w total o p' c' w',
  WriteTo_loop fuel p c w total = (o, p', c', w') ->
  reads (conn_of c) (conn_of c') /\ (forall n, o = Ret (n, None) -> rd_bytes (conn_of c') = []).
Proof.
  induction fuel as [|fuel IH]; intros p c w total o p' c' w'; cbn [WriteTo_loop].
  { intros [= <- <- <- <-]. split; [apply rtc_refl|done]. }
  destruct (ensureLeftover p c) as [[o1 p1] c1] eqn:E. apply ensureLeftover_reads in E as [Hr Hx].
  destruct o1 as [[]|x|m]; [| |by intros [= <- <- <- <-]].
  - destruct (Sink_write w (leftover c1)) as [[k e] w1].
    destruct e as [x|]; [by intros [= <- <- <- <-]|]. intros E1.
    apply IH in E1 as [Hr1 Hx1]. split; [by etrans|done].
  - intros [= <- <- <- <-]. split; [done|]. intros n [= _ Hd]. apply Hx.
    case_decide; [by subst|done].
Qed.

(** What the converter has yet to deliver. *)
Definition conv_delivers (p : Pool) (c : t R) (cs : list bytes) (e : error) : Prop :=
  delivers p (cr c) cs e.

Lemma ensureLeftover_spec p c cs e :
  conv_delivers p c cs e -> leftover c = [] ->
  exists p' c',
    match cs with
    | [] => ensureLeftover p c = (Err e, p', c') /\ leftover c' = [] /\
        pool_ok p' (payload (cr c'))
    | q :: cs' => ensureLeftover p c = (Ret tt, p', c') /\ leftover c' = q /\
        conv_delivers p' c' cs' e /\
        length (rd_bytes (reader (cr c'))) < length (rd_bytes (reader (cr c)))
    end.
Proof.
  intros Hd Hl. unfold ensureLeftover. rewrite Hl, decide_False by (simpl; lia).
  destruct (ReadChunk_spec p (cr c) cs e Hd) as (p' & k' & Hs).
  destruct cs as [|q cs']; destruct Hs as [-> Hs]; eexists p', (Mk k' _);
    split_and!; try done; by destruct Hs.
Qed.

Lemma Sink_write_drop w (q : bytes) :
  reliable w -> exists w', Sink_write w q = (length q, None, w') /\
    written w' = written w ++ [q] /\ reliable w' /\ drop (length q) q = [].
Proof.
  intros Hr. destruct (Sink_write_reliable w q Hr) as (w' & ? & ? & ?).
  exists w'. split_and!; [done..|]. by apply drop_ge.
Qed.

(** [WriteTo] on a converter with nothing left over. *)
Lemma WriteTo_loop_spec fuel : forall p c w total cs e,
  conv_delivers p c cs e -> leftover c = [] -> reliable w ->
  length (rd_bytes (reader (cr c))) < fuel ->
  exists p' c' w',
    WriteTo_loop fuel p c w total =
      (Ret (total + length (concat cs), if decide (e = EOF) then None else Some e),
       p', c', w') /\
    written w' = written w ++ cs /\ reliable w'.
Proof.
  induction fuel as [|fuel IH]; intros p c w total cs e Hd Hl Hr Hf; [lia|].
  simpl. destruct (ensureLeftover_spec p c cs e Hd Hl) as (p1 & c1 & Hs).
  destruct cs as [|q cs'].
  - destruct Hs as (-> & _ & _). exists p1, c1, w. simpl.
    by rewrite Nat.add_0_r, app_nil_r.
  - destruct Hs as (-> & Hlq & Hd1 & Hshort). rewrite Hlq.
    destruct (Sink_write_drop w q Hr) as (w1 & -> & Hw1 & Hr1 & ->).
    destruct (IH p1 (Mk (cr c1) []) w1 (total + length q) cs' e)
      as (p2 & c2 & w2 & -> & Hw2 & Hr2); [done..|simpl; lia|].
    exists p2, c2, w2. simpl. rewrite length_app, Nat.add_assoc.
    split_and!; [done| |done]. by rewrite Hw2, Hw1, <- app_assoc.
Qed.

(** [Read]: the next bytes of the current chunk, or of the next one. *)
Lemma Read_spec p c n cs e :
  conv_delivers p c cs e ->
  exists p' c',
    match leftover c, cs with
    | [], [] => Read p c n = (Err e, p', c')
    | [], q :: cs' =>
      Read p c n = (Ret (take n q), p', c') /\ leftover c' = drop n q /\
      conv_delivers p' c' cs' e
    | l, _ =>
      Read p c n = (Ret (take n l), p', c') /\ leftover c' = drop n l /\
      conv_delivers p' c' cs e
    end.
Proof.
  intros Hd. unfold Read. destruct (leftover c) as [|x l] eqn:Hl.
  - destruct (ensureLeftover_spec p c cs e Hd Hl) as (p1 & c1 & Hs).
    destruct cs as [|q cs'].
    + destruct Hs as (-> & _). by exists p1, c1.
    + destruct Hs as (-> & Hlq & Hd1 & _). rewrite Hlq.
      by exists p1, (Mk (cr c1) (drop n q)).
  - unfold ensureLeftover. rewrite Hl, decide_True by (simpl; lia). rewrite Hl.
    by exists p, (Mk (cr c) (drop n (x :: l))).
Qed.

(** A new reader delivers the decoded stream. *)
Lemma NewShadowsocksReader_delivers choices (r : R) (c : Cipher) :
  wf_cipher c ->
  conv_delivers (readBufPool choices) (NewShadowsocksReader r c)
    (fst (decode_stream c (rd_bytes r) (rd_end r)))
    (snd (decode_stream c (rd_bytes r) (rd_end r))).
Proof.
  intros Hwf. right. split_and!; [|done|apply surjective_pairing].
  split; [done|apply pool_ok_init|]. simpl. by rewrite maxTagSize_eq.
Qed.

End ReaderLemmas.
