(* ===== verification/Stream.v ===== *)
(** * The Shadowsocks-TCP stream, end to end

    The theorems about [shadowsocks/stream.go] as a whole: the writer refines
    the wire format under every interleaving of [Flush], the reader computes the
    reference decoder on every input, and the two compose to the identity. *)
From S2P Require Import Prelude GoIO Cipher Salt Wire SlicePool Writer.
From S2P Require Import StreamReader ToyCrypto.

Import Writer.

(** A client of [readConverter] that calls [Read] with the buffer lengths [ns]
    and stops at the first error: the data of each call, and the error. *)
Fixpoint run_reads `{CryptoOps} {R} `{Reader R} (ns : list nat) (p : Pool)
    (c : readConverter.t R) : list bytes * option error :=
  match ns with
  | [] => ([], None)
  | n :: ns =>
    match readConverter.Read p c n with
    | (Ret d, p, c) => let '(ds, e) := run_reads ns p c in (d :: ds, e)
    | (Err e, _, _) => ([], Some e)
    | (Panic s, _, _) => ([], Some (Errorf s))
    end
  end.

Section StreamLemmas.
Context `{CryptoLaws}.

(** [out] are the packets of a well-formed stream of [data] under the cipher and
    the salt. *)
Definition encrypts (c : Cipher) (salt data : bytes) (out : list bytes) : Prop :=
  exists a chunks, NewAEAD c salt = Ret a /\ standard_AEAD a /\
    length salt = SaltSize c /\ out = packets a salt chunks /\
    Forall (fun p => 0 < length p <= payloadSizeMask) chunks /\
    concat chunks = data.

(** Everything accepted is on the wire, as well-formed packets. *)
Definition emitted (sw : t) (c : Cipher) (salt sent : bytes) : Prop :=
  encrypts c salt sent (written (writer sw)).

Lemma Repr_emitted sw c salt chunks :
  Repr sw salt chunks [] -> ssCipher sw = c ->
  emitted sw c salt (concat chunks).
Proof.
  intros HR <-. destruct (repr_aead _ _ _ _ HR) as (a & Ha & HN & Hstd).
  exists a, chunks. split_and!; try done; [by destruct HR..| |by destruct HR].
  rewrite (repr_out _ _ _ _ HR). unfold the_aead. by rewrite Ha.
Qed.

Lemma Flush_emitted sw c salt sent :
  wf_cipher c -> State sw c salt sent -> few (length sent) ->
  exists sw', Flush sw = (None, sw') /\ emitted sw' c salt sent.
Proof.
  intros Hwf [Hc [HG|[[Hu (g & ent & Hg & Hlaw & Hs)] ->]]] Hfew; unfold Flush.
  - destruct HG as (chunks & q & HR & Hlazy & Hcat). destruct (needFlush sw).
    + destruct (flush_repr sw salt chunks q HR) as (sw' & E & (Hk & _) & _ & HR' & _).
      { eapply Repr_few; [done|reflexivity|]. eapply few_le; [|exact Hfew].
        rewrite <- Hcat, length_app. lia. }
      exists sw'. split; [done|]. rewrite <- Hcat, <- concat_push.
      apply Repr_emitted; [done|congruence].
    + exists sw. split; [done|]. rewrite (Hlazy eq_refl), app_nil_r in *.
      rewrite <- Hcat. by apply Repr_emitted.
  - rewrite (unused_needFlush _ Hu). exists sw. split; [done|].
    destruct (NewAEAD_ok c salt Hwf) as (a & HN & Hstd). exists a, [].
    apply GetSalt_length in Hs. unfold zeros in Hs. rewrite length_replicate in Hs.
    split_and!; try done; [congruence|apply (unused_out _ Hu)].
Qed.

Lemma run_ops_app os1 os2 sw :
  run_ops (os1 ++ os2) sw =
    let '(rs1, sw1) := run_ops os1 sw in
    let '(rs2, sw2) := run_ops os2 sw1 in (rs1 ++ rs2, sw2).
Proof.
  revert sw. induction os1 as [|o os1 IH]; intros sw; simpl.
  - by destruct (run_ops os2 sw).
  - destruct (run_op o sw) as [r sw1]. rewrite IH.
    destruct (run_ops os1 sw1) as [rs1 sw2]. by destruct (run_ops os2 sw2).
Qed.

Lemma run_ops_emitted os sw c salt :
  wf_cipher c -> State sw c salt [] ->
  few (length (concat (payload <$> os))) ->
  exists sw', run_ops (os ++ [OpFlush]) sw = (expected <$> (os ++ [OpFlush]), sw') /\
    emitted sw' c salt (concat (payload <$> os)).
Proof.
  intros Hwf HS Hfew. rewrite run_ops_app.
  destruct (run_ops_good os sw c salt [] Hwf HS Hfew) as (sw1 & -> & HS1).
  simpl in HS1. destruct (Flush_emitted sw1 c salt _ Hwf HS1 Hfew) as (sw2 & E & He).
  simpl. rewrite E. exists sw2. by rewrite fmap_app.
Qed.

(** The reference decoder on a stream of packets cut after [n] bytes is treated
    by the next lemmas; on the whole stream it gives the chunks back. *)
Lemma decode_stream_packets c a salt chunks :
  NewAEAD c salt = Ret a -> standard_AEAD a -> length salt = SaltSize c ->
  Forall (fun p => 0 < length p <= payloadSizeMask) chunks ->
  decode_stream c (concat (packets a salt chunks)) EOF = (chunks, EOF).
Proof.
  intros HN (Hlaws & _) Hl Hch. rewrite concat_packets. unfold decode_stream.
  destruct (decide (chunks = [])) as [->|Hne].
  - simpl. case_decide as Hd.
    + unfold short_error. by rewrite decide_False by (by intros [? ?]).
    + destruct salt; [|simpl in *; lia].
      rewrite <- Hl in Hd |- *. simpl. rewrite HN.
      by rewrite (decode_nil a).
  - rewrite decide_False by (rewrite length_app; lia).
    rewrite <- Hl, take_app_length, drop_app_length, HN.
    rewrite <- (app_nil_r (wire a 0 chunks)), (decode_wire a).
    + by rewrite (decode_nil a), app_nil_r.
    + eapply Forall_impl; [exact Hch|]. simpl. lia.
Qed.

(** Decoding a prefix of a well-formed stream. *)
Lemma encrypts_decode c salt data out :
  encrypts c salt data out ->
  exists cs, decode_stream c (concat out) EOF = (cs, EOF) /\ concat cs = data.
Proof.
  intros (a & chunks & HN & Hstd & Hl & -> & Hch & Hcat). exists chunks.
  by rewrite (decode_stream_packets c a).
Qed.

Lemma decode_prefix a `{!AEADLaws a} chunks : forall k n,
  Forall (fun p => 0 < length p <= payloadSizeMask) chunks ->
  n <= length (wire a k chunks) ->
  exists j, j <= length chunks /\ decode a k (take n (wire a k chunks)) EOF =
    (take j chunks,
     if decide (n = length (wire a k (take j chunks))) then EOF else ErrUnexpectedEOF).
Proof.
  induction chunks as [|p cs IH]; intros k n Hch Hn.
  - exists 0. simpl in Hn. assert (n = 0) as -> by lia. simpl. split; [lia|].
    by rewrite (decode_nil a).
  - apply Forall_cons in Hch as [Hp Hch]. cbn [wire] in *.
    rewrite length_app in Hn.
    destruct (decide (n < length (frame a k p))) as [Hlt|Hge].
    + exists 0. split; [lia|]. rewrite take_app_le by lia. simpl.
      destruct (decide (n = 0)) as [->|Hn0].
      * rewrite take_0, (decode_nil a). done.
      * rewrite (decode_unfold a), (decode_chunk_truncated a) by lia. done.
    + rewrite take_app_ge by lia.
      destruct (IH (S (S k)) (n - length (frame a k p)) Hch ltac:(lia)) as (j & Hj & E).
      exists (S j). split; [simpl; lia|]. simpl.
      rewrite (decode_unfold a), (decode_chunk_frame a) by lia. rewrite E.
      rewrite length_app. f_equal. apply decide_ext. lia.
Qed.

Lemma decode_stream_prefix c a salt chunks n :
  NewAEAD c salt = Ret a -> standard_AEAD a -> length salt = SaltSize c ->
  Forall (fun p => 0 < length p <= payloadSizeMask) chunks -> chunks <> [] ->
  0 < SaltSize c -> n <= length (concat (packets a salt chunks)) ->
  exists j, j <= length chunks /\
    decode_stream c (take n (concat (packets a salt chunks))) EOF =
    (take j chunks,
     if decide (n = 0 \/ n = SaltSize c + length (wire a 0 (take j chunks)))
     then EOF else ErrUnexpectedEOF).
Proof.
  intros HN (Hlaws & _) Hl Hch Hne. rewrite concat_packets.
  rewrite decide_False by done. rewrite length_app. intros Hss Hn.
  unfold decode_stream. rewrite length_take, length_app.
  case_decide as Hlt.
  - exists 0. split; [lia|]. simpl. f_equal.
    unfold chunkReader.salt_error, short_error.
    destruct (decide (n = 0)) as [->|Hn0].
    + rewrite take_0. by rewrite (decide_True (P := 0 = 0 \/ _)) by lia.
    + rewrite (decide_False (P := n = 0 \/ _)) by lia.
      rewrite (decide_True (P := take n (salt ++ wire a 0 chunks) <> [] /\ EOF = EOF));
        [done|]. split; [|done].
      intros E. apply (f_equal length) in E. rewrite length_take, length_app in E.
      simpl in E. lia.
  - rewrite take_app_ge by lia. rewrite <- Hl, take_app_length, drop_app_length, HN.
    destruct (decode_prefix a chunks 0 (n - length salt) Hch ltac:(lia)) as (j & Hj & ->).
    exists j. split; [done|]. f_equal. apply decide_ext. lia.
Qed.

Lemma WriteTo_spec {R} `{ReaderLaws R} choices (r : R) c w :
  wf_cipher c -> reliable w ->
  let '(cs, e) := decode_stream c (rd_bytes r) (rd_end r) in
  exists p' c' w',
    readConverter.WriteTo (readBufPool choices)
      (readConverter.NewShadowsocksReader r c) w =
      (Ret (length (concat cs), if decide (e = EOF) then None else Some e), p', c', w') /\
    written w' = written w ++ cs.
Proof.
  intros Hwf Hr. pose proof (NewShadowsocksReader_delivers choices r c Hwf) as Hd.
  destruct (decode_stream c (rd_bytes r) (rd_end r)) as [cs e].
  destruct (WriteTo_loop_spec (2 + length (rd_bytes r)) _ _ w 0 cs e Hd)
    as (p' & c' & w' & E & Hw & _); [done|done|simpl; lia|].
  exists p', c', w'. split; [exact E|done].
Qed.

Lemma run_reads_spec {R} `{ReaderLaws R} ns : forall p (c : readConverter.t R) cs e,
  conv_delivers p c cs e ->
  exists suffix,
    readConverter.leftover c ++ concat cs =
      concat (fst (run_reads ns p c)) ++ suffix /\
    (forall x, snd (run_reads ns p c) = Some x -> suffix = [] /\ x = e) /\
    (snd (run_reads ns p c) = None ->
     Forall2 (fun n d => length d <= n) ns (fst (run_reads ns p c))).
Proof.
  induction ns as [|n ns IH]; intros p c cs e Hd; simpl.
  { exists (readConverter.leftover c ++ concat cs). split_and!; [done..|constructor]. }
  destruct (Read_spec p c n cs e Hd) as (p1 & c1 & Hs).
  assert (forall l cs1,
    readConverter.Read p c n = (Ret (take n l), p1, c1) ->
    readConverter.leftover c1 = drop n l -> conv_delivers p1 c1 cs1 e ->
    readConverter.leftover c ++ concat cs = l ++ concat cs1 ->
    let res := let '(ds, x) := run_reads ns p1 c1 in (take n l :: ds, x) in
    exists suffix,
      readConverter.leftover c ++ concat cs = concat (fst res) ++ suffix /\
      (forall x, snd res = Some x -> suffix = [] /\ x = e) /\
      (snd res = None -> Forall2 (fun n d => length d <= n) (n :: ns) (fst res)))
    as Hstep.
  { intros l cs1 _ Hl1 Hd1 Hsum. destruct (IH p1 c1 cs1 e Hd1) as (suf & E & Hx & Hn).
    destruct (run_reads ns p1 c1) as [ds x]. simpl in *. exists suf. split_and!.
    - rewrite Hsum. rewrite <- (firstn_skipn n l) at 1.
      by rewrite <- app_assoc, <- Hl1, E, app_assoc.
    - done.
    - intros Hnone. constructor; [rewrite length_take; lia|by apply Hn]. }
  destruct (readConverter.leftover c) as [|x l] eqn:Hlo.
  - destruct cs as [|q cs'].
    + rewrite Hs. simpl. exists []. split_and!; [done| |done].
      intros x [= <-]. done.
    + destruct Hs as (E & Hl1 & Hd1). rewrite E. by apply (Hstep q cs').
  - destruct Hs as (E & Hl1 & Hd1); [].
    rewrite E. by apply (Hstep (x :: l) cs).
Qed.

End StreamLemmas.

Section StreamProperties.
Context `{CryptoLaws}.

(** C19: for every sequence of [Write], [LazyWrite], [Flush] and [ReadFrom] calls
    on a new writer, each interleaved with a concurrent [Flush] in every
    possible way, every call accepts all of its input and returns the documented
    result, and after a final [Flush] the underlying writer has received exactly
    the packets of the Shadowsocks format: one [Write] per chunk, the salt
    together with the first chunk, chunks of 1 to 0x3FFF bytes under consecutive
    nonces, whose plaintexts concatenate to what was accepted. *)
Theorem writer_wire (c : Cipher) (g : SaltGenerator) (ent salt ent' : bytes)
    (s : Sink) (os : list op) :
  wf_cipher c -> SaltGeneratorLaws g ->
  GetSalt g (zeros (SaltSize c)) ent = (None, salt, ent') ->
  written s = [] -> reliable s -> few (length (concat (payload <$> os))) ->
  exists sw a chunks,
    run_ops (os ++ [OpFlush]) (SetSaltGenerator g (NewShadowsocksWriter s c ent)) =
      (expected <$> (os ++ [OpFlush]), sw) /\
    NewAEAD c salt = Ret a /\ length salt = SaltSize c /\
    written (writer sw) = packets a salt chunks /\
    Forall (fun p => 0 < length p <= payloadSizeMask) chunks /\
    concat chunks = concat (payload <$> os).
Proof.
  intros Hwf Hg Hsalt Hw Hr Hfew.
  destruct (run_ops_emitted os _ c salt Hwf (State_new s c g ent salt ent' Hw Hr Hg Hsalt)
    Hfew) as (sw & E & a & chunks & HN & _ & Hl & Hout & Hch & Hcat).
  exists sw, a, chunks. by split_and!.
Qed.

(** C20: on every input whatsoever, however the connection segments it and
    however it ends, [WriteTo] computes the reference decoder: it forwards
    exactly the chunks that authenticate in order, one [Write] per chunk, and
    returns their total length with the decoder's error, where a clean end of
    stream is no error. *)
Theorem reader_decodes (R : Type) `{ReaderLaws R} (r : R) (c : Cipher)
    (choices : list (option nat)) (w : Sink) :
  wf_cipher c -> reliable w ->
  exists p' c' w',
    let cs := fst (decode_stream c (rd_bytes r) (rd_end r)) in
    let e := snd (decode_stream c (rd_bytes r) (rd_end r)) in
    readConverter.WriteTo (readBufPool choices)
      (readConverter.NewShadowsocksReader r c) w =
      (Ret (length (concat cs), if decide (e = EOF) then None else Some e), p', c', w') /\
    written w' = written w ++ cs.
Proof.
  intros Hwf Hr. pose proof (WriteTo_spec choices r c w Hwf Hr) as Hs.
  by destruct (decode_stream c (rd_bytes r) (rd_end r)).
Qed.

(** C24: [Read] and [WriteTo] agree: whatever buffer lengths the caller uses,
    the bytes of successive [Read] calls are a prefix of the decoded stream,
    each call fits its buffer, and an error is returned only after the whole
    plaintext, and is the decoder's error. *)
Theorem reads_decode (R : Type) `{ReaderLaws R} (r : R) (c : Cipher)
    (choices : list (option nat)) (ns : list nat) :
  wf_cipher c ->
  let plain := concat (fst (decode_stream c (rd_bytes r) (rd_end r))) in
  let res := run_reads ns (readBufPool choices)
               (readConverter.NewShadowsocksReader r c) in
  exists suffix, plain = concat (fst res) ++ suffix /\
    (forall x, snd res = Some x ->
       suffix = [] /\ x = snd (decode_stream c (rd_bytes r) (rd_end r))) /\
    (snd res = None -> Forall2 (fun n d => length d <= n) ns (fst res)).
Proof.
  intros Hwf plain res.
  exact (run_reads_spec ns _ _ _ _ (NewShadowsocksReader_delivers choices r c Hwf)).
Qed.

(** C2: the stream round trip. Whatever a client writes, with whatever calls and
    races, a server reader that receives those bytes in any segmentation
    forwards exactly the client's plaintext and ends without an error. *)
Theorem stream_roundtrip (c : Cipher) (g : SaltGenerator) (ent salt ent' : bytes)
    (s : Sink) (os : list op) (R : Type) `{ReaderLaws R} (r : R)
    (choices : list (option nat)) (w : Sink) :
  wf_cipher c -> SaltGeneratorLaws g ->
  GetSalt g (zeros (SaltSize c)) ent = (None, salt, ent') ->
  written s = [] -> reliable s -> reliable w ->
  few (length (concat (payload <$> os))) ->
  rd_bytes r = concat (written (writer (snd
    (run_ops (os ++ [OpFlush]) (SetSaltGenerator g (NewShadowsocksWriter s c ent)))))) ->
  rd_end r = EOF ->
  exists p' c' w',
    readConverter.WriteTo (readBufPool choices)
      (readConverter.NewShadowsocksReader r c) w =
      (Ret (length (concat (payload <$> os)), None), p', c', w') /\
    concat (written w') = concat (written w) ++ concat (payload <$> os).
Proof.
  intros Hwf Hg Hsalt Hw Hr Hrw Hfew Hb He.
  destruct (run_ops_emitted os _ c salt Hwf (State_new s c g ent salt ent' Hw Hr Hg Hsalt)
    Hfew) as (sw & E & a & chunks & HN & Hstd & Hl & Hout & Hch & Hcat).
  rewrite E in Hb. simpl in Hb.
  pose proof (WriteTo_spec choices r c w Hwf Hrw) as Hs.
  rewrite Hb, He, Hout, (decode_stream_packets c a salt chunks HN Hstd Hl Hch) in Hs.
  destruct Hs as (p' & c' & w' & -> & Hw'). exists p', c', w'.
  by rewrite Hw', concat_app, Hcat.
Qed.

(** C26: truncation is detected. If the connection closes after any number of
    bytes of a well-formed stream, the reader forwards a prefix of the chunks,
    never part of one, and reports a clean end only if the cut is exactly at the
    start or at the end of a chunk; any other cut is [ErrUnexpectedEOF]. *)
Theorem truncation_detected (c : Cipher) (a : AEAD) (salt : bytes)
    (chunks : list bytes) (n : nat) (R : Type) `{ReaderLaws R} (r : R)
    (choices : list (option nat)) (w : Sink) :
  wf_cipher c -> reliable w -> NewAEAD c salt = Ret a -> length salt = SaltSize c ->
  Forall (fun p => 0 < length p <= payloadSizeMask) chunks -> chunks <> [] ->
  n <= length (concat (packets a salt chunks)) ->
  rd_bytes r = take n (concat (packets a salt chunks)) -> rd_end r = EOF ->
  exists j p' c' w',
    readConverter.WriteTo (readBufPool choices)
      (readConverter.NewShadowsocksReader r c) w =
      (Ret (length (concat (take j chunks)),
        if decide (n = 0 \/ n = SaltSize c + length (wire a 0 (take j chunks)))
        then None else Some ErrUnexpectedEOF), p', c', w') /\
    written w' = written w ++ take j chunks.
Proof.
  intros Hwf Hrw HN Hl Hch Hne Hn Hb He.
  destruct (NewAEAD_ok c salt Hwf) as (a' & HN' & Hstd). rewrite HN in HN'. simplify_eq.
  destruct (wf_cipher_sizes c Hwf) as [_ Hss].
  destruct (decode_stream_prefix c a' salt chunks n HN Hstd Hl Hch Hne)
    as (j & _ & E); [lia|done|].
  pose proof (WriteTo_spec choices r c w Hwf Hrw) as Hs.
  rewrite Hb, He, E in Hs. destruct Hs as (p' & c' & w' & -> & Hw').
  exists j, p', c', w'. split; [|done]. by case_decide.
Qed.

End StreamProperties.

(** C31: the nonce counter. [increment] adds one to the little-endian number
    modulo [2^(8n)], so the [k]-th message of a stream is sealed under the
    number [k], and with 12-byte nonces no two of the first [2^96] messages
    share a nonce. *)
Theorem nonces_distinct (b : bytes) (i j : nat) :
  le (increment b) = ((le b + 1) mod 256 ^ Z.of_nat (length b))%Z /\
  length (increment b) = length b /\
  isZero b = bool_decide (le b = 0%Z) /\
  (Z.of_nat i < 2 ^ 96 -> Z.of_nat j < 2 ^ 96 -> i <> j ->
   nonce_at 12 i <> nonce_at 12 j)%Z.
Proof.
  split_and!; [apply increment_le|apply length_increment|apply isZero_le|].
  intros Hi Hj Hne E. by apply Hne, (nonce_at_inj 12 i j).
Qed.

(** A chunk with an empty payload that authenticates makes [Read] return zero
    bytes and no error, although [ensureLeftover] is documented to leave a
    nonempty leftover. *)
Lemma Read_empty_chunk `{CryptoLaws} {R} `{ReaderLaws R} (r : R) (c : Cipher)
    choices n cs :
  wf_cipher c -> fst (decode_stream c (rd_bytes r) (rd_end r)) = [] :: cs ->
  exists p' c', readConverter.Read (readBufPool choices)
    (readConverter.NewShadowsocksReader r c) n = (Ret [], p', c').
Proof.
  intros Hwf E. pose proof (NewShadowsocksReader_delivers choices r c Hwf) as Hd.
  rewrite E in Hd. destruct (Read_spec _ _ n _ _ Hd) as (p' & c' & Hs).
  simpl in Hs. destruct Hs as (Hs & _). exists p', c'. by rewrite Hs, take_nil.
Qed.

(** ** The theorems at concrete inputs *)

(** A client that queues an address, writes while a concurrent flush runs, and
    then copies a connection that ends with its last bytes. *)
Definition demo_ops : list op :=
  [ OpLazyWrite (string_bytes "example.com:443");
    OpWrite FlushBeforeRead (string_bytes "hello");
    OpLazyWrite (string_bytes "wor");
    OpReadFrom FlushAfterRead
      (MkConn [string_bytes "ld"; string_bytes "!"] EOF true) ].

Definition demo_entropy : bytes := expand 5 32.
Definition demo_salt : bytes := take 16 demo_entropy.

Definition demo_out : bytes :=
  concat (written (writer (snd (run_ops (demo_ops ++ [OpFlush])
    (SetSaltGenerator RandomSaltGenerator
      (NewShadowsocksWriter (MkSink [] []) toy_cipher demo_entropy)))))).

(** The same bytes in three segments. *)
Definition demo_conn (e : error) : Conn :=
  MkConn [take 5 demo_out; take 60 (drop 5 demo_out); drop 65 demo_out] e false.

Lemma demo_conn_bytes e : rd_bytes (demo_conn e) = demo_out.
Proof.
  unfold demo_conn. generalize demo_out. intros l.
  change (rd_bytes _) with (take 5 l ++ take 60 (drop 5 l) ++ drop 65 l ++ []).
  change 65 with (5 + 60). by rewrite app_nil_r, <- drop_drop, !firstn_skipn.
Qed.

Lemma writer_wire_witness :
  exists sw a chunks,
    run_ops (demo_ops ++ [OpFlush]) (SetSaltGenerator RandomSaltGenerator
      (NewShadowsocksWriter (MkSink [] []) toy_cipher demo_entropy)) =
      (expected <$> (demo_ops ++ [OpFlush]), sw) /\
    written (writer sw) = packets a demo_salt chunks /\
    concat chunks = string_bytes "example.com:443helloworld!".
Proof.
  destruct (writer_wire toy_cipher RandomSaltGenerator demo_entropy demo_salt
    (drop 16 demo_entropy) (MkSink [] []) demo_ops)
    as (sw & a & chunks & E & _ & _ & Hw & _ & Hc).
  - apply toy_cipher_wf.
  - apply RandomSaltGenerator_laws.
  - vm_compute. reflexivity.
  - reflexivity.
  - apply List.Forall_nil.
  - vm_compute. reflexivity.
  - exists sw, a, chunks. split; [exact E|]. split; [exact Hw|].
    rewrite Hc. vm_compute. reflexivity.
Defined.

Lemma reader_decodes_witness :
  exists p' c' w',
    readConverter.WriteTo (readBufPool [])
      (readConverter.NewShadowsocksReader (demo_conn ErrTimeout) toy_cipher)
      (MkSink [] []) =
      (Ret (26, Some (Wrapf "failed to read payload size" ErrTimeout)), p', c', w') /\
    written w' = string_bytes <$> ["example.com:443"; "hello"; "wor"; "ld"; "!"].
Proof.
  destruct (reader_decodes Conn (demo_conn ErrTimeout) toy_cipher [] (MkSink [] []))
    as (p' & c' & w' & E & Hw).
  - apply toy_cipher_wf.
  - apply List.Forall_nil.
  - exists p', c', w'. split.
    + rewrite E. vm_compute. reflexivity.
    + rewrite Hw. vm_compute. reflexivity.
Defined.

Lemma reads_decode_witness :
  exists suffix,
    string_bytes "example.com:443helloworld!" =
      concat (fst (run_reads [4; 30; 5; 1] (readBufPool [])
        (readConverter.NewShadowsocksReader (demo_conn EOF) toy_cipher))) ++ suffix.
Proof.
  destruct (reads_decode Conn (demo_conn EOF) toy_cipher [] [4; 30; 5; 1])
    as (suffix & E & _).
  - apply toy_cipher_wf.
  - exists suffix. rewrite <- E. vm_compute. reflexivity.
Defined.

Lemma stream_roundtrip_witness :
  exists p' c' w',
    readConverter.WriteTo (readBufPool [])
      (readConverter.NewShadowsocksReader (demo_conn EOF) toy_cipher) (MkSink [] []) =
      (Ret (26, None), p', c', w') /\
    concat (written w') = string_bytes "example.com:443helloworld!".
Proof.
  destruct (stream_roundtrip toy_cipher RandomSaltGenerator demo_entropy demo_salt
    (drop 16 demo_entropy) (MkSink [] []) demo_ops Conn (demo_conn EOF) []
    (MkSink [] [])) as (p' & c' & w' & E & Hw).
  - apply toy_cipher_wf.
  - apply RandomSaltGenerator_laws.
  - vm_compute. reflexivity.
  - reflexivity.
  - apply List.Forall_nil.
  - apply List.Forall_nil.
  - vm_compute. reflexivity.
  - rewrite demo_conn_bytes. unfold demo_out. reflexivity.
  - reflexivity.
  - exists p', c', w'. split; [exact E|]. rewrite Hw. vm_compute. reflexivity.
Defined.

Definition demo_aead : AEAD :=
  match NewAEAD toy_cipher demo_salt with
  | Ret a => a
  | _ => MkAEAD 0 0 (fun _ _ => []) (fun _ _ => None)
  end.

(** The connection closes 40 bytes into a stream of two chunks. *)
Lemma truncation_detected_witness :
  exists j p' c' w',
    readConverter.WriteTo (readBufPool [])
      (readConverter.NewShadowsocksReader
        (MkConn [take 40 (concat (packets demo_aead demo_salt
           [string_bytes "one"; string_bytes "two"]))] EOF true) toy_cipher)
      (MkSink [] []) =
      (Ret (length (concat (take j [string_bytes "one"; string_bytes "two"])),
        if decide (40 = 0 \/ 40 = SaltSize toy_cipher + length (wire demo_aead 0
          (take j [string_bytes "one"; string_bytes "two"])))
        then None else Some ErrUnexpectedEOF), p', c', w').
Proof.
  destruct (truncation_detected toy_cipher demo_aead demo_salt
    [string_bytes "one"; string_bytes "two"] 40 Conn
    (MkConn [take 40 (concat (packets demo_aead demo_salt
       [string_bytes "one"; string_bytes "two"]))] EOF true) [] (MkSink [] []))
    as (j & p' & c' & w' & E & _).
  - apply toy_cipher_wf.
  - apply List.Forall_nil.
  - reflexivity.
  - vm_compute. reflexivity.
  - pose proof payloadSizeMask_Z. repeat apply List.Forall_cons;
      [simpl; lia|simpl; lia|apply List.Forall_nil].
  - discriminate.
  - vm_compute. lia.
  - apply app_nil_r.
  - reflexivity.
  - exists j, p', c', w'. exact E.
Defined.
