(* ===== verification/Replay.v ===== *)
(** * The replay cache

    [service/replay.go]: the reduction of a handshake to 32 bits and the
    two-generation cache.  A Go [map[uint32]empty] is a finite set of hashes;
    the nil map, which reads as empty, is the empty set. *)
From S2P Require Import Prelude.

(** ** [preHash] *)

(** The body of the two range loops: [buf[i&0x3] ^= v]. *)
Fixpoint preHash_loop (i : nat) (data buf : bytes) : bytes :=
  match data with
  | [] => buf
  | v :: data =>
    preHash_loop (S i) data (alter (fun b => bxor b v) (Nat.land i 0x3) buf)
  end.

Definition preHash (id salt : bytes) : Z :=
  Uint32 (preHash_loop 0 salt (preHash_loop 0 id (zeros 4))).

(** ** The cache *)

Definition MaxCapacity : Z := 20000.

Record ReplayCache := MkReplayCache {
  capacity : Z;
  active : gset Z;
  archive : gset Z;
}.

Definition NewReplayCache (cap : Z) : outcome ReplayCache :=
  if decide (cap > MaxCapacity)%Z
  then Panic "ReplayCache capacity would result in too many false positives"
  else Ret (MkReplayCache cap ∅ ∅).

(** [Add] on a possibly nil receiver: the answer, and the cache it leaves. *)
Definition Add (c : option ReplayCache) (id salt : bytes) : bool * option ReplayCache :=
  match c with
  | None => (true, None)
  | Some c =>
    if decide (capacity c = 0%Z) then (true, Some c)
    else
      let hash := preHash id salt in
      if decide (hash ∈ active c) then (false, Some c)
      else
        let inArchive := bool_decide (hash ∈ archive c) in
        let '(act, arch) :=
          if decide (Z.of_nat (size (active c)) = capacity c)
          then (∅, active c) else (active c, archive c) in
        (negb inArchive, Some (MkReplayCache (capacity c) ({[hash]} ∪ act) arch))
  end.

(** The cache after a sequence of handshakes. *)
Definition add_all (hs : list (bytes * bytes)) (c : option ReplayCache) :
    option ReplayCache :=
  foldl (fun c h => snd (Add c (fst h) (snd h))) c hs.

(** ** Lemmas on the hash *)

Section Hash.
Local Abbreviation xors := (zip_with bxor).

Lemma alter_xors (f : byte -> byte) k a b :
  (forall x y, f (bxor x y) = bxor x (f y)) ->
  alter f k (xors a b) = xors a (alter f k b).
Proof.
  intros Hf. revert k b. induction a as [|x a IH]; intros k [|y b]; try done;
    destruct k as [|k]; simpl; [done..| |].
  - by rewrite Hf.
  - f_equal. apply IH.
Qed.

(** The loop is linear: what it does to a buffer is an xor with what it does
    to any other. *)
Lemma preHash_loop_xors data i a b :
  preHash_loop i data (xors a b) = xors a (preHash_loop i data b).
Proof.
  revert i b. induction data as [|v data IH]; intros i b; [done|].
  simpl. rewrite alter_xors, IH; [done|]. intros x y. by rewrite (assoc_L bxor).
Qed.

Lemma length_preHash_loop data i buf :
  length (preHash_loop i data buf) = length buf.
Proof.
  revert i buf. induction data as [|v data IH]; intros i buf; [done|].
  simpl. by rewrite IH, length_alter.
Qed.

Lemma xors_zeros a n : length a = n -> xors a (zeros n) = a.
Proof.
  intros <-. induction a as [|x a IH]; [done|].
  change (bxor x zero :: xors a (zeros (length a)) = x :: a).
  by rewrite IH, (right_id_L zero bxor).
Qed.

Lemma preHash_loop_linear data i buf :
  length buf = 4 ->
  preHash_loop i data buf = xors buf (preHash_loop i data (zeros 4)).
Proof.
  intros Hl. by rewrite <- preHash_loop_xors, xors_zeros.
Qed.

Lemma preHash_loop_app a b i buf :
  preHash_loop i (a ++ b) buf = preHash_loop (i + length a) b (preHash_loop i a buf).
Proof.
  revert i buf. induction a as [|v a IH]; intros i buf; simpl.
  - by rewrite Nat.add_0_r.
  - rewrite IH. f_equal. lia.
Qed.

Lemma preHash_loop_mod data i buf :
  preHash_loop i data buf = preHash_loop (i mod 4) data buf.
Proof.
  assert (forall j, j mod 4 = i mod 4 -> preHash_loop i data buf = preHash_loop j data buf)
    as Hg; [|apply Hg, Nat.Div0.mod_mod].
  revert i buf. induction data as [|v data IH]; intros i buf j E; [done|].
  simpl. change 3 with (Nat.ones 2). rewrite !Nat.land_ones. change (2 ^ 2) with 4.
  rewrite E. apply IH. change (S j) with (1 + j). change (S i) with (1 + i).
  by rewrite (Nat.Div0.add_mod 1 j), E, <- Nat.Div0.add_mod.
Qed.

(** At most four bytes land on distinct places. *)
Lemma preHash_loop_window i w w' :
  length w = length w' -> length w <= 4 ->
  preHash_loop i w (zeros 4) = preHash_loop i w' (zeros 4) -> w = w'.
Proof.
  intros Hl H4. rewrite (preHash_loop_mod w i), (preHash_loop_mod w' i).
  pose proof (Nat.mod_upper_bound i 4 ltac:(done)) as Hi.
  revert Hi. generalize (i mod 4). clear i. intros i Hi.
  destruct w as [|a [|b [|c [|d [|e w]]]]], w' as [|a' [|b' [|c' [|d' [|e' w']]]]];
    simpl in Hl, H4; try lia; [done|..];
    destruct i as [|[|[|[|i]]]]; try lia; cbn -[bxor];
    rewrite !(left_id_L zero bxor); congruence.
Qed.

Lemma xors_inj a b b' :
  length b = length a -> length b' = length a -> xors a b = xors a b' -> b = b'.
Proof.
  revert b b'. induction a as [|x a IH]; intros [|y b] [|y' b'] Hb Hb' E;
    simplify_eq/=; [done|].
  f_equal. by apply IH.
Qed.

Lemma xors_comm a b : xors a b = xors b a.
Proof.
  revert b. induction a as [|x a IH]; intros [|y b]; simpl; try done.
  by rewrite IH, (comm_L bxor).
Qed.

Lemma xors_inj_l a a' b :
  length a = length b -> length a' = length b -> xors a b = xors a' b -> a = a'.
Proof.
  intros Ha Ha'. rewrite !(xors_comm _ b). by apply xors_inj.
Qed.

Lemma lor_shift x y k :
  (0 <= k -> 0 <= x < 2 ^ k -> 0 <= y -> Z.lor x (Z.shiftl y k) = x + y * 2 ^ k)%Z.
Proof.
  intros Hk Hx Hy. rewrite <- Z.shiftl_mul_pow2 by done.
  assert (Z.land x (Z.shiftl y k) = 0%Z) as Hz.
  { apply Z.bits_inj'. intros n Hn. rewrite Z.land_spec, Z.bits_0.
    destruct (Z.lt_decidable n k).
    - rewrite (Z.shiftl_spec_low y k n) by lia. apply andb_false_r.
    - rewrite <- (Z.mod_small x (2 ^ k)) by lia.
      by rewrite Z.mod_pow2_bits_high by lia. }
  pose proof (Z.add_lor_land x (Z.shiftl y k)). lia.
Qed.

Lemma Uint32_value b :
  Uint32 b = (nth_byte b 3 + nth_byte b 2 * 2 ^ 8 + nth_byte b 1 * 2 ^ 16 +
              nth_byte b 0 * 2 ^ 24)%Z.
Proof.
  unfold Uint32, nth_byte.
  pose proof (byte_to_Z_range (nth 0 b zero)). pose proof (byte_to_Z_range (nth 1 b zero)).
  pose proof (byte_to_Z_range (nth 2 b zero)). pose proof (byte_to_Z_range (nth 3 b zero)).
  rewrite !Z.lor_assoc.
  rewrite (lor_shift _ _ 8) by lia. rewrite (lor_shift _ _ 16) by lia.
  rewrite (lor_shift _ _ 24) by lia. done.
Qed.

Lemma Uint32_range b : (0 <= Uint32 b < 2 ^ 32)%Z.
Proof.
  rewrite Uint32_value. unfold nth_byte.
  pose proof (byte_to_Z_range (nth 0 b zero)). pose proof (byte_to_Z_range (nth 1 b zero)).
  pose proof (byte_to_Z_range (nth 2 b zero)). pose proof (byte_to_Z_range (nth 3 b zero)).
  lia.
Qed.

Lemma Uint32_inj a b : length a = 4 -> length b = 4 -> Uint32 a = Uint32 b -> a = b.
Proof.
  intros Ha Hb. rewrite !Uint32_value. unfold nth_byte.
  destruct a as [|a0 [|a1 [|a2 [|a3 [|]]]]], b as [|c0 [|c1 [|c2 [|c3 [|]]]]];
    simplify_eq/=.
  repeat match goal with x : byte |- _ =>
    lazymatch goal with H : (0 <= byte_to_Z x < 256)%Z |- _ => fail | _ =>
      pose proof (byte_to_Z_range x) end end.
  intros E. repeat f_equal; apply (inj byte_to_Z); lia.
Qed.

End Hash.

(** ** Lemmas on the cache *)

Section Cache.

(** Both generations stay within the capacity. *)
Definition bounded (c : ReplayCache) : Prop :=
  (0 < capacity c)%Z /\ (Z.of_nat (size (active c)) <= capacity c)%Z /\
  (Z.of_nat (size (archive c)) <= capacity c)%Z.

(** [h] was added and at most [k] handshakes followed. *)
Definition remembered (h : Z) (k : nat) (c : ReplayCache) : Prop :=
  h ∈ active c \/ (h ∈ archive c /\ size (active c) <= k).

(** The state after an [Add] on an enabled cache. *)
Lemma Add_cases c id salt :
  bounded c ->
  let hash := preHash id salt in
  exists c', snd (Add (Some c) id salt) = Some c' /\ bounded c' /\
    capacity c' = capacity c /\ hash ∈ active c' /\
    active c' ∪ archive c' ⊆ {[hash]} ∪ active c ∪ archive c /\
    fst (Add (Some c) id salt) = bool_decide (hash ∉ active c ∪ archive c) /\
    (c' = c \/
     (archive c' = archive c /\ active c ⊆ active c' /\
      size (active c') = S (size (active c))) \/
     (archive c' = active c /\ size (active c') = 1 /\
      Z.of_nat (size (active c)) = capacity c)).
Proof.
  intros (Hpos & Ha & Hr) hash. unfold Add. rewrite decide_False by lia. fold hash. clearbody hash.
  destruct (decide (hash ∈ active c)) as [Hin|Hout]; simpl.
  { exists c. split_and!; try done; [set_solver| |by left].
    symmetry. apply bool_decide_eq_false. set_solver. }
  assert (negb (bool_decide (hash ∈ archive c)) =
          bool_decide (hash ∉ active c ∪ archive c)) as Hans.
  { destruct (bool_decide_reflect (hash ∈ archive c)); simpl; symmetry;
      [apply bool_decide_eq_false|apply bool_decide_eq_true]; set_solver. }
  destruct (decide (Z.of_nat (size (active c)) = capacity c)) as [Hfull|Hfull];
    eexists; (split; [reflexivity|]); unfold bounded; cbn [capacity active archive fst].
  - assert (size ({[hash]} ∪ (∅ : gset Z)) = 1) as Hsz
      by (by rewrite union_empty_r_L, size_singleton).
    split_and!; try done; [lia|set_solver|set_solver|by right; right].
  - assert (size ({[hash]} ∪ active c) = S (size (active c))) as Hsz
      by (rewrite size_union by set_solver; by rewrite size_singleton).
    split_and!; try done; [lia|set_solver| ].
    right; left. split_and!; [done|set_solver|done].
Qed.

Lemma remembered_Add h k c id salt :
  bounded c -> (Z.of_nat k < capacity c)%Z -> remembered h k c ->
  exists c', snd (Add (Some c) id salt) = Some c' /\ bounded c' /\
    capacity c' = capacity c /\ remembered h (S k) c'.
Proof.
  intros Hb Hk Hr. destruct (Add_cases c id salt Hb) as (c' & E & Hb' & Hc & _ & _ & _ & Hs).
  exists c'. split_and!; [done..|].
  destruct Hb as (Hpos & _). unfold remembered in *.
  destruct Hs as [->|[(Hs1 & Hs2 & Hs3)|(Hs1 & Hs2 & Hs3)]].
  - destruct Hr as [?|[? ?]]; [by left|right; split; [done|lia]].
  - destruct Hr as [?|[? ?]]; [left; set_solver|right; rewrite Hs1; split; [done|lia]].
  - destruct Hr as [?|[? ?]]; [right; rewrite Hs1; split; [done|lia]|lia].
Qed.

Lemma bounded_New cap c : (0 < cap)%Z -> NewReplayCache cap = Ret c -> bounded c.
Proof.
  intros Hp. unfold NewReplayCache. case_decide; [done|]. intros [= <-].
  unfold bounded. cbn [capacity active archive]. rewrite size_empty. lia.
Qed.

Lemma capacity_New cap c : NewReplayCache cap = Ret c -> capacity c = cap.
Proof. unfold NewReplayCache. case_decide; [done|]. by intros [= <-]. Qed.

Lemma add_all_bounded hs c :
  bounded c ->
  exists c', add_all hs (Some c) = Some c' /\ bounded c' /\ capacity c' = capacity c.
Proof.
  revert c. induction hs as [|[id salt] hs IH]; intros c Hb; [by exists c|].
  destruct (Add_cases c id salt Hb) as (c1 & E & Hb1 & Hc1 & _).
  destruct (IH c1 Hb1) as (c2 & E2 & Hb2 & Hc2).
  exists c2. split_and!; [|done|congruence].
  change (add_all hs (snd (Add (Some c) id salt)) = Some c2). by rewrite E.
Qed.

Lemma add_all_remembers hs h k c :
  bounded c -> remembered h k c -> (Z.of_nat (k + length hs) <= capacity c)%Z ->
  exists c', add_all hs (Some c) = Some c' /\ remembered h (k + length hs) c'.
Proof.
  revert k c. induction hs as [|[id salt] hs IH]; intros k c Hb Hr Hk; simpl in Hk.
  { exists c. by rewrite Nat.add_0_r. }
  destruct (remembered_Add h k c id salt Hb) as (c1 & E & Hb1 & Hc1 & Hr1); [lia|done|].
  destruct (IH (S k) c1 Hb1 Hr1) as (c2 & E2 & Hr2); [lia|].
  exists c2. split.
  - change (add_all hs (snd (Add (Some c) id salt)) = Some c2). by rewrite E.
  - simpl. by rewrite Nat.add_succ_r.
Qed.

Lemma add_all_app hs hs' c : add_all (hs ++ hs') c = add_all hs' (add_all hs c).
Proof. apply foldl_app. Qed.

(** Nothing is in the cache that was not added. *)
Lemma add_all_sound hs c c' :
  bounded c -> add_all hs (Some c) = Some c' ->
  active c' ∪ archive c' ⊆
    active c ∪ archive c ∪ list_to_set ((fun h => preHash (fst h) (snd h)) <$> hs).
Proof.
  revert c. induction hs as [|[id salt] hs IH]; intros c Hb E.
  { injection E as <-. set_solver. }
  destruct (Add_cases c id salt Hb) as (c1 & E1 & Hb1 & _ & _ & Hsub & _).
  change (add_all hs (snd (Add (Some c) id salt)) = Some c') in E. rewrite E1 in E.
  specialize (IH c1 Hb1 E). set_solver.
Qed.

(** A handshake repeated soon enough is refused. *)
Lemma add_all_refuses cap c before after id salt :
  NewReplayCache cap = Ret c -> (0 < cap)%Z -> (Z.of_nat (length after) <= cap)%Z ->
  fst (Add (add_all (before ++ (id, salt) :: after) (Some c)) id salt) = false.
Proof.
  intros HN Hp Hl. rewrite add_all_app.
  destruct (add_all_bounded before c (bounded_New _ _ Hp HN)) as (c1 & -> & Hb1 & Hc1).
  rewrite (capacity_New _ _ HN) in Hc1.
  destruct (Add_cases c1 id salt Hb1) as (c2 & E2 & Hb2 & Hc2 & Hin & _).
  destruct (add_all_bounded after c2 Hb2) as (c3 & E3 & Hb3 & _).
  destruct (add_all_remembers after (preHash id salt) 0 c2) as (c3' & E3' & Hr);
    [done|by left|simpl; lia|].
  change (fst (Add (add_all after (snd (Add (Some c1) id salt))) id salt) = false).
  rewrite E2, E3. simplify_eq.
  destruct (Add_cases _ id salt Hb3) as (? & _ & _ & _ & _ & _ & -> & _).
  apply bool_decide_eq_false. destruct Hr as [?|[? _]]; set_solver.
Qed.

(** One whose hash is new is accepted. *)
Lemma add_all_fresh cap c before id salt :
  NewReplayCache cap = Ret c -> (0 < cap)%Z ->
  (forall k, k ∈ before -> preHash (fst k) (snd k) <> preHash id salt) ->
  fst (Add (add_all before (Some c)) id salt) = true.
Proof.
  intros HN Hp Hne. pose proof (bounded_New _ _ Hp HN) as Hb.
  destruct (add_all_bounded before c Hb) as (c1 & E1 & Hb1 & _).
  pose proof (add_all_sound _ _ _ Hb E1) as Hs. rewrite E1.
  destruct (Add_cases c1 id salt Hb1) as (? & _ & _ & _ & _ & _ & -> & _).
  apply bool_decide_eq_true. intros Hin. apply Hs in Hin.
  assert (active c ∪ archive c = ∅) as Hc.
  { revert HN. unfold NewReplayCache. case_decide; [done|]. intros [= <-]. set_solver. }
  rewrite Hc, union_empty_l_L, elem_of_list_to_set in Hin.
  apply list_elem_of_fmap in Hin as (k & E & Hk). by apply (Hne k).
Qed.

End Cache.

(** ** Properties *)

(** A cache of capacity [n] keeps its promise to remember the most recent
    [n] handshakes: whatever was added before, a handshake repeated after at
    most [n] others is refused. *)
Theorem replay_remembers (cap : Z) (c : ReplayCache) (before after : list (bytes * bytes))
    (id salt : bytes) :
  NewReplayCache cap = Ret c -> (0 < cap)%Z -> (Z.of_nat (length after) <= cap)%Z ->
  fst (Add (add_all (before ++ (id, salt) :: after) (Some c)) id salt) = false.
Proof. apply add_all_refuses. Qed.

(** C34: what the cache refuses was seen, up to the 32-bit hash: when [Add]
    answers false, the hash of the handshake is that of an earlier one; a
    handshake whose hash is new is accepted.  The two generations never hold
    more than twice the capacity. *)
Theorem replay_sound (cap : Z) (c : ReplayCache) (before : list (bytes * bytes))
    (id salt : bytes) :
  NewReplayCache cap = Ret c -> (0 < cap)%Z ->
  (fst (Add (add_all before (Some c)) id salt) = false ->
   exists id' salt', (id', salt') ∈ before /\ preHash id' salt' = preHash id salt) /\
  (exists c', add_all before (Some c) = Some c' /\
    (Z.of_nat (size (active c' ∪ archive c')) <= 2 * cap)%Z).
Proof.
  intros HN Hp. pose proof (bounded_New _ _ Hp HN) as Hb.
  destruct (add_all_bounded before c Hb) as (c1 & E1 & Hb1 & Hc1).
  pose proof (add_all_sound _ _ _ Hb E1) as Hs. rewrite E1. split.
  - destruct (Add_cases c1 id salt Hb1) as (? & _ & _ & _ & _ & _ & -> & _).
    rewrite bool_decide_eq_false. intros Hin.
    assert (preHash id salt ∈ (fun h => preHash (fst h) (snd h)) <$> before) as Hf.
    { revert HN. unfold NewReplayCache. case_decide; [done|]. intros [= <-].
      apply dec_stable in Hin. apply Hs in Hin. set_solver. }
    apply list_elem_of_fmap in Hf as ([id' salt'] & E & Hf). eauto.
  - exists c1. split; [done|]. rewrite (capacity_New _ _ HN) in Hc1.
    destruct Hb1 as (_ & Ha & Hr). rewrite size_union_alt.
    assert (size (archive c1 ∖ active c1) <= size (archive c1))
      by (apply subseteq_size; set_solver).
    lia.
Qed.

(** The hash is 32 bits, salts of one key that differ only inside a window
    of at most four bytes (a counter at either end, say) never collide, and a
    disabled cache (nil, or of capacity 0) accepts everything. *)
Theorem preHash_window (id p w w' s : bytes) (c : option ReplayCache) :
  (0 <= preHash id (p ++ w ++ s) < 2 ^ 32)%Z /\
  (length w = length w' -> length w <= 4 ->
   preHash id (p ++ w ++ s) = preHash id (p ++ w' ++ s) -> w = w') /\
  (default 0%Z (capacity <$> c) = 0%Z -> Add c id s = (true, c)).
Proof.
  split_and!; [apply Uint32_range..| |].
  - intros Hl H4 E. apply (preHash_loop_window (length p) w w' Hl H4).
    unfold preHash in E. apply Uint32_inj in E; try by rewrite !length_preHash_loop.
    rewrite !preHash_loop_app, <- Hl in E.
    rewrite (preHash_loop_linear s _ (preHash_loop _ w _)),
      (preHash_loop_linear s _ (preHash_loop _ w' _)) in E
      by (by rewrite !length_preHash_loop).
    apply xors_inj_l in E; try by rewrite !length_preHash_loop.
    rewrite (preHash_loop_linear w _ (preHash_loop _ p _)),
      (preHash_loop_linear w' _ (preHash_loop _ p _)) in E
      by (by rewrite !length_preHash_loop).
    by apply xors_inj in E; rewrite ?length_preHash_loop.
  - destruct c as [[cap a r]|]; simpl; [intros ->|]; done.
Qed.

Lemma replay_remembers_witness :
  fst (Add (add_all [([], [Byte.x01]); ([], [Byte.x02]); ([], [Byte.x03])]
    (Some (MkReplayCache 1 ∅ ∅))) [] [Byte.x02]) = false.
Proof.
  apply (replay_remembers 1 (MkReplayCache 1 ∅ ∅) [([], [Byte.x01])] [([], [Byte.x03])]).
  - reflexivity.
  - lia.
  - simpl. lia.
Defined.

Lemma replay_sound_witness :
  exists id' salt', (id', salt') ∈ [([], [Byte.x01]); ([], [Byte.x02])] /\
    preHash id' salt' = preHash [Byte.x02] [].
Proof.
  apply (replay_sound 5 (MkReplayCache 5 ∅ ∅)).
  - reflexivity.
  - lia.
  - vm_compute. reflexivity.
Defined.
