(* ===== verification/PrivateNet.v ===== *)
(** * IP addresses and the public-address policy

    [net/private_net.go], [net/error.go], and the parts of Go's [net.IP] they
    and the cipher list use.  An [IP] is the Go slice: [None] is the nil slice,
    an address has 4 or 16 octets, and an IPv4 address may be written either
    way. *)
From S2P Require Import Prelude.
From Stdlib Require Import Strings.Byte.

Local Open Scope Z_scope.

Abbreviation IP := (option bytes).

Definition octets (ip : IP) : bytes := default [] ip.

Definition b_of (z : Z) : byte := byte_of_Z z.

(** ** [net.IP] *)

Definition v4InV6Prefix : bytes := zeros 10 ++ [b_of 0xff; b_of 0xff].

Definition To4 (ip : bytes) : option bytes :=
  if decide (length ip = 4%nat) then Some ip
  else if decide (length ip = 16%nat /\ take 12 ip = v4InV6Prefix) then Some (drop 12 ip)
  else None.

Definition Equal (ip x : bytes) : bool :=
  if decide (length ip = length x) then bool_decide (ip = x)
  else if decide (length ip = 4%nat /\ length x = 16%nat) then
    bool_decide (take 12 x = v4InV6Prefix /\ ip = drop 12 x)
  else if decide (length ip = 16%nat /\ length x = 4%nat) then
    bool_decide (take 12 ip = v4InV6Prefix /\ drop 12 ip = x)
  else false.

Definition IPv4 (a b c d : Z) : bytes := v4InV6Prefix ++ [b_of a; b_of b; b_of c; b_of d].
Definition IPv4bcast : bytes := IPv4 255 255 255 255.
Definition IPv4zero : bytes := IPv4 0 0 0 0.
Definition IPv6unspecified : bytes := zeros 16.
Definition IPv6loopback : bytes := zeros 15 ++ [b_of 1].

Definition IsUnspecified (ip : bytes) : bool :=
  Equal ip IPv4zero || Equal ip IPv6unspecified.

Definition IsLoopback (ip : bytes) : bool :=
  match To4 ip with
  | Some ip4 => bool_decide (nth_byte ip4 0 = 127)
  | None => Equal ip IPv6loopback
  end.

Definition IsMulticast (ip : bytes) : bool :=
  match To4 ip with
  | Some ip4 => bool_decide (Z.land (nth_byte ip4 0) 0xf0 = 0xe0)
  | None => bool_decide (length ip = 16%nat /\ nth_byte ip 0 = 0xff)
  end.

Definition IsLinkLocalUnicast (ip : bytes) : bool :=
  match To4 ip with
  | Some ip4 => bool_decide (nth_byte ip4 0 = 169 /\ nth_byte ip4 1 = 254)
  | None =>
    bool_decide (length ip = 16%nat /\ nth_byte ip 0 = 0xfe /\
                 Z.land (nth_byte ip 1) 0xc0 = 0x80)
  end.

Definition IsGlobalUnicast (ip : bytes) : bool :=
  bool_decide (length ip = 4%nat \/ length ip = 16%nat) &&
  negb (Equal ip IPv4bcast) && negb (IsUnspecified ip) && negb (IsLoopback ip) &&
  negb (IsMulticast ip) && negb (IsLinkLocalUnicast ip).

(** [net.CIDRMask(ones, 8 * len)]: full bytes, one partial byte, zeros. *)
Fixpoint CIDRMask (ones : Z) (len : nat) : bytes :=
  match len with
  | O => []
  | S len =>
    if decide (8 <= ones) then b_of 0xff :: CIDRMask (ones - 8) len
    else b_of (255 - Z.shiftr 0xff ones) :: CIDRMask 0 len
  end.

Record IPNet := MkIPNet { net_IP : bytes; net_Mask : bytes }.

(** [net.ParseCIDR] after the text is read: the address, masked. *)
Definition ParseCIDR (ip : bytes) (ones : Z) : IPNet :=
  let m := CIDRMask ones (length ip) in MkIPNet (zip_with band ip m) m.

(** [IPNet.Contains], for a network whose number and mask have one length, as
    [ParseCIDR] makes them. *)
Definition Contains (n : IPNet) (ip : bytes) : bool :=
  let nn := default (net_IP n) (To4 (net_IP n)) in
  let ip := default ip (To4 ip) in
  bool_decide (length ip = length nn /\
    zip_with band nn (net_Mask n) = zip_with band ip (net_Mask n)).

(** ** [net/private_net.go] *)

Definition octet_list (l : list Z) : bytes := b_of <$> l.

(** The loop of [init]. *)
Definition privateNetworks : list IPNet :=
  (fun '(a, n) => ParseCIDR a n) <$>
  [ (octet_list [10; 0; 0; 0], 8);
    (octet_list [172; 16; 0; 0], 12);
    (octet_list [192; 168; 0; 0], 16);
    (octet_list [0xfc] ++ zeros 15, 7);
    (octet_list [100; 64; 0; 0], 10) ].

Fixpoint IsPrivateAddress_loop (networks : list IPNet) (ip : bytes) : bool :=
  match networks with
  | [] => false
  | network :: networks =>
    if Contains network ip then true else IsPrivateAddress_loop networks ip
  end.

Definition IsPrivateAddress (ip : IP) : bool :=
  IsPrivateAddress_loop privateNetworks (octets ip).

(** ** [net/error.go] *)

Record ConnectionError := MkConnectionError {
  Status : string;
  Message : string;
  Cause : option error;
}.

Definition NewConnectionError (status message : string) (cause : option error) :
    ConnectionError := MkConnectionError status message cause.

(** [TargetIPValidator]: a nil result is [None]. *)
Definition TargetIPValidator : Type := IP -> option ConnectionError.

(** [ip_String] is [net.IP.String], used in the messages only. *)
Definition RequirePublicIP (ip_String : IP -> string) (ip : IP) : option ConnectionError :=
  if negb (IsGlobalUnicast (octets ip)) then
    Some (NewConnectionError "ERR_ADDRESS_INVALID"
      ("Address is not global unicast: " +:+ ip_String ip) None)
  else if IsPrivateAddress ip then
    Some (NewConnectionError "ERR_ADDRESS_PRIVATE"
      ("Address is private: " +:+ ip_String ip) None)
  else None.

(** ** The policy, as ranges of addresses *)

(** An address as a big-endian number. *)
Fixpoint number_acc (b : bytes) (acc : Z) : Z :=
  match b with [] => acc | x :: b => number_acc b (acc * 256 + byte_to_Z x) end.

Definition number (b : bytes) : Z := number_acc b 0.

Definition v4 (a b c d : Z) : Z := ((a * 256 + b) * 256 + c) * 256 + d.

Definition private_v4 (n : Z) : Prop :=
  v4 10 0 0 0 <= n <= v4 10 255 255 255 \/
  v4 172 16 0 0 <= n <= v4 172 31 255 255 \/
  v4 192 168 0 0 <= n <= v4 192 168 255 255 \/
  v4 100 64 0 0 <= n <= v4 100 127 255 255.

Definition special_v4 (n : Z) : Prop :=
  n = 0 \/ n = v4 255 255 255 255 \/
  v4 127 0 0 0 <= n <= v4 127 255 255 255 \/
  v4 224 0 0 0 <= n <= v4 239 255 255 255 \/
  v4 169 254 0 0 <= n <= v4 169 254 255 255.

Definition private_v6 (n : Z) : Prop := 0xfc * 2 ^ 120 <= n < 0xfe * 2 ^ 120.

Definition special_v6 (n : Z) : Prop :=
  n = 0 \/ n = 1 \/ 0xff * 2 ^ 120 <= n \/
  0xfe80 * 2 ^ 112 <= n < 0xfec0 * 2 ^ 112.

#[export] Instance private_v4_dec n : Decision (private_v4 n).
Proof. unfold private_v4. apply _. Defined.
#[export] Instance special_v4_dec n : Decision (special_v4 n).
Proof. unfold special_v4. apply _. Defined.
#[export] Instance private_v6_dec n : Decision (private_v6 n).
Proof. unfold private_v6. apply _. Defined.
#[export] Instance special_v6_dec n : Decision (special_v6 n).
Proof. unfold special_v6. apply _. Defined.

(** The status [RequirePublicIP] gives an address. *)
Definition address_status (ip : bytes) : option string :=
  match To4 ip with
  | Some q =>
    if decide (special_v4 (number q)) then Some "ERR_ADDRESS_INVALID"
    else if decide (private_v4 (number q)) then Some "ERR_ADDRESS_PRIVATE" else None
  | None =>
    if decide (length ip <> 16%nat \/ special_v6 (number ip))
    then Some "ERR_ADDRESS_INVALID"
    else if decide (private_v6 (number ip)) then Some "ERR_ADDRESS_PRIVATE" else None
  end.

(** ** Lemmas *)

Lemma number_acc_shift b acc :
  number_acc b acc = acc * 256 ^ Z.of_nat (length b) + number b.
Proof.
  unfold number. revert acc. induction b as [|x b IH]; intros acc; [simpl; lia|].
  cbn [number_acc length]. rewrite IH, (IH (0 * 256 + byte_to_Z x)). rewrite Nat2Z.inj_succ, Z.pow_succ_r by lia. lia.
Qed.

Lemma number_cons x b :
  number (x :: b) = byte_to_Z x * 256 ^ Z.of_nat (length b) + number b.
Proof.
  change (number (x :: b)) with (number_acc b (byte_to_Z x)). apply number_acc_shift.
Qed.

Lemma number_range b : 0 <= number b < 256 ^ Z.of_nat (length b).
Proof.
  induction b as [|x b IH]; [done|]. rewrite number_cons. simpl length.
  rewrite Nat2Z.inj_succ, Z.pow_succ_r by lia. pose proof (byte_to_Z_range x). nia.
Qed.

Lemma number_inj a b : length a = length b -> number a = number b -> a = b.
Proof.
  revert b. induction a as [|x a IH]; intros [|y b] Hl E; simplify_eq/=; [done|].
  rewrite !number_cons, Hl in E.
  pose proof (number_range a) as Ha. pose proof (number_range b) as Hb. rewrite Hl in Ha.
  assert (byte_to_Z x = byte_to_Z y) as Hxy by nia.
  f_equal; [by apply (inj byte_to_Z)|]. apply IH; [done|]. rewrite Hxy in E. lia.
Qed.

Lemma To4_length ip q : To4 ip = Some q -> length q = 4%nat.
Proof.
  unfold To4. case_decide as H4; [by intros [= <-]|].
  case_decide as H16; [|done]. intros [= <-]. rewrite length_drop. lia.
Qed.

Lemma To4_None_16 ip : To4 ip = None -> length ip = 16%nat -> take 12 ip <> v4InV6Prefix.
Proof.
  unfold To4. case_decide; [done|]. case_decide as H16; [done|]. tauto.
Qed.

Lemma iff_by_decision (P Q : Prop) `{Decision P, Decision Q} :
  bool_decide P = bool_decide Q -> (P <-> Q).
Proof. intros E. rewrite <- (bool_decide_eq_true P), E. apply bool_decide_eq_true. Qed.

(** [by_octet x] decides an equivalence about one octet on its 256 values. *)
Ltac by_octet x := apply (iff_by_decision _ _); destruct x; vm_compute; reflexivity.

(** An octet under each mask of the table, over all 256 values. *)
Lemma band_ff x : band x Byte.xff = x.
Proof. by destruct x. Qed.
Lemma band_00 x : band x Byte.x00 = Byte.x00.
Proof. by destruct x. Qed.
Lemma band_f0 x : band x Byte.xf0 = Byte.x10 <-> 16 <= byte_to_Z x < 32.
Proof. by_octet x. Qed.
Lemma band_c0 x : band x Byte.xc0 = Byte.x40 <-> 64 <= byte_to_Z x < 128.
Proof. by_octet x. Qed.
Lemma band_fe x : band x Byte.xfe = Byte.xfc <-> 0xfc <= byte_to_Z x < 0xfe.
Proof. by_octet x. Qed.
Lemma land_f0_e0 x : Z.land (byte_to_Z x) 0xf0 = 0xe0 <-> 224 <= byte_to_Z x < 240.
Proof. by_octet x. Qed.
Lemma land_c0_80 x : Z.land (byte_to_Z x) 0xc0 = 0x80 <-> 0x80 <= byte_to_Z x < 0xc0.
Proof. by_octet x. Qed.

Lemma octet_Z x z : 0 <= z < 256 -> byte_to_Z x = z <-> b_of z = x.
Proof.
  intros Hz. split.
  - intros <-. apply byte_of_to_Z.
  - intros <-. unfold b_of. rewrite byte_to_of_Z. by apply Z.mod_small.
Qed.

(** Equality with an address of four octets, octet by octet. *)
Lemma list4_eq (a b c d a' b' c' d' : byte) :
  [a; b; c; d] = [a'; b'; c'; d'] <-> a = a' /\ b = b' /\ c = c' /\ d = d'.
Proof. naive_solver. Qed.

Lemma privateNetworks_eq :
  privateNetworks =
  [ MkIPNet [Byte.x0a; Byte.x00; Byte.x00; Byte.x00] [Byte.xff; Byte.x00; Byte.x00; Byte.x00];
    MkIPNet [Byte.xac; Byte.x10; Byte.x00; Byte.x00] [Byte.xff; Byte.xf0; Byte.x00; Byte.x00];
    MkIPNet [Byte.xc0; Byte.xa8; Byte.x00; Byte.x00] [Byte.xff; Byte.xff; Byte.x00; Byte.x00];
    MkIPNet (Byte.xfc :: zeros 15) (Byte.xfe :: zeros 15);
    MkIPNet [Byte.x64; Byte.x40; Byte.x00; Byte.x00] [Byte.xff; Byte.xc0; Byte.x00; Byte.x00] ].
Proof. vm_compute. reflexivity. Qed.

Lemma Contains_true nn m ip q :
  To4 nn = Some nn \/ To4 nn = None -> default ip (To4 ip) = q ->
  Contains (MkIPNet nn m) ip = true <->
  length q = length nn /\ zip_with band nn m = zip_with band q m.
Proof.
  intros Hnn <-. unfold Contains. cbn [net_IP net_Mask].
  assert (default nn (To4 nn) = nn) as -> by (by destruct Hnn as [-> | ->]).
  apply bool_decide_eq_true.
Qed.

Lemma IsPrivate_true ip :
  IsPrivateAddress (Some ip) = true <->
  Exists (fun n => Contains n ip = true) privateNetworks.
Proof.
  unfold IsPrivateAddress. simpl octets. induction privateNetworks as [|n l IH]; simpl.
  - split; [done|]. intros H. by apply Exists_nil in H.
  - rewrite Exists_cons, <- IH. destruct (Contains n ip); naive_solver.
Qed.

Lemma IsPrivate_v4 ip q :
  To4 ip = Some q -> IsPrivateAddress (Some ip) = bool_decide (private_v4 (number q)).
Proof.
  intros E. pose proof (To4_length _ _ E) as Hl.
  apply eq_bool_prop_intro. rewrite bool_decide_spec, Is_true_true, IsPrivate_true.
  rewrite privateNetworks_eq, !Exists_cons, Exists_nil.
  rewrite !(Contains_true _ _ ip q) by (rewrite ?E; first [done|by left|by right]).
  destruct q as [|a [|b [|c [|d [|]]]]]; try done. clear E Hl.
  cbn [zip_with length zeros replicate]. rewrite !band_ff, !band_00.
  change (band Byte.x10 Byte.xf0) with Byte.x10.
  change (band Byte.x40 Byte.xc0) with Byte.x40.
  rewrite !list4_eq, (eq_comm Byte.x10), (eq_comm Byte.x40), band_f0, band_c0.
  rewrite <- (octet_Z a 10), <- (octet_Z a 172), <- (octet_Z a 192), <- (octet_Z a 100),
    <- (octet_Z b 168) by lia.
  unfold number, private_v4, v4. cbn [number_acc].
  pose proof (byte_to_Z_range a). pose proof (byte_to_Z_range b).
  pose proof (byte_to_Z_range c). pose proof (byte_to_Z_range d).
  split; [intuition (discriminate || lia)|].
  intros [?|[?|[?|?]]];
    [left|right; left|right; right; left|right; right; right; right; left];
    repeat split; try done; lia.
Qed.

Lemma zip_band_zeros b : zip_with band b (zeros (length b)) = zeros (length b).
Proof.
  induction b as [|x b IH]; [done|]. unfold zeros in *. simpl. by rewrite IH, band_00.
Qed.

Lemma IsPrivate_v6 ip :
  To4 ip = None -> length ip = 16%nat ->
  IsPrivateAddress (Some ip) = bool_decide (private_v6 (number ip)).
Proof.
  intros E Hl. apply eq_bool_prop_intro.
  rewrite bool_decide_spec, Is_true_true, IsPrivate_true.
  rewrite privateNetworks_eq, !Exists_cons, Exists_nil.
  rewrite !(Contains_true _ _ ip ip) by (rewrite ?E; first [done|by left|by right]).
  destruct ip as [|x t]; [done|]. simpl in Hl. injection Hl as Hl. clear E.
  assert (zip_with band t (zeros 15) = zeros 15) as Hz by (by rewrite <- Hl, zip_band_zeros).
  cbn [zip_with]. rewrite Hz. change (zip_with band (zeros 15) (zeros 15)) with (zeros 15).
  cbn [length]. rewrite Hl. change (length (zeros 15)) with 15%nat.
  pose proof (number_range t) as Hr. rewrite Hl in Hr.
  unfold private_v6. rewrite number_cons, Hl.
  pose proof (band_fe x) as Hfe. change (256 ^ Z.of_nat 15) with (2 ^ 120) in *.
  split.
  - intros [[? _]|[[? _]|[[? _]|[[_ [= Hx]]|[[? _]|[]]]]]]; try lia.
    symmetry in Hx. apply Hfe in Hx. nia.
  - intros Hn. right; right; right; left. split; [done|]. f_equal. symmetry.
    apply Hfe. nia.
Qed.

(** ** Global unicast *)

Definition canon (ip : bytes) : bytes := default ip (To4 ip).

Lemma Equal_canon ip x :
  (length ip = 4 \/ length ip = 16)%nat -> (length x = 4 \/ length x = 16)%nat ->
  Equal ip x = bool_decide (canon ip = canon x).
Proof.
  assert (forall y : bytes, length y = 4%nat -> canon y = y) as H4.
  { intros y Hy. unfold canon, To4. by rewrite decide_True. }
  assert (forall y : bytes, length y = 16%nat ->
    (take 12 y = v4InV6Prefix /\ canon y = drop 12 y /\ length (canon y) = 4%nat) \/
    (take 12 y <> v4InV6Prefix /\ canon y = y)) as H16.
  { intros y Hy. unfold canon, To4. rewrite decide_False by lia.
    case_decide as Hc; [left|right; tauto]. simpl. rewrite length_drop.
    split_and!; [tauto|done|lia]. }
  assert (forall P Q : Prop, forall `{Decision P, Decision Q},
    (P <-> Q) -> bool_decide P = bool_decide Q) as Hext by (intros; by apply bool_decide_ext).
  intros [Hi|Hi] [Hx|Hx]; unfold Equal.
  - rewrite decide_True by lia. by rewrite !H4.
  - rewrite decide_False, decide_True by lia. apply Hext. rewrite (H4 ip Hi).
    destruct (H16 x Hx) as [(Hp & -> & _)|(Hp & ->)]; [tauto|].
    split; [tauto|]. intros ->. lia.
  - rewrite decide_False, decide_False, decide_True by lia. apply Hext. rewrite (H4 x Hx).
    destruct (H16 ip Hi) as [(Hp & -> & _)|(Hp & ->)]; [tauto|].
    split; [tauto|]. intros ->. lia.
  - rewrite decide_True by lia. apply Hext.
    destruct (H16 ip Hi) as [(Hp & -> & Hl)|(Hp & ->)],
      (H16 x Hx) as [(Hp' & E' & Hl')|(Hp' & ->)]; rewrite ?E'.
    + split; [by intros ->|]. intros E.
      by rewrite <- (take_drop 12 ip), <- (take_drop 12 x), Hp, Hp', E.
    + split; [by intros ->|]. intros E. apply (f_equal length) in E.
      rewrite length_drop in E. lia.
    + split; [by intros ->|]. intros E. apply (f_equal length) in E.
      rewrite length_drop in E. lia.
    + done.
Qed.

Lemma number_eq_iff ip x : length ip = length x -> ip = x <-> number ip = number x.
Proof. intros Hl. split; [by intros ->|by apply number_inj]. Qed.

(** Negated conjunctions of tests, as a decision. *)
Lemma negb_decide P `{Decision P} : negb (bool_decide P) = bool_decide (~ P).
Proof. by rewrite bool_decide_not. Qed.

Lemma IsGlobalUnicast_v4 ip q :
  To4 ip = Some q -> IsGlobalUnicast ip = bool_decide (~ special_v4 (number q)).
Proof.
  intros E. pose proof (To4_length _ _ E) as Hq.
  assert (length ip = 4 \/ length ip = 16)%nat as Hl.
  { revert E. unfold To4. case_decide; [by left|]. case_decide; [|done]. right. tauto. }
  assert (canon ip = q) as Hc by (unfold canon; by rewrite E).
  unfold IsGlobalUnicast, IsUnspecified, IsLoopback, IsMulticast, IsLinkLocalUnicast.
  rewrite E, !Equal_canon, Hc by (done || by right).
  change (canon IPv4bcast) with [Byte.xff; Byte.xff; Byte.xff; Byte.xff].
  change (canon IPv4zero) with [Byte.x00; Byte.x00; Byte.x00; Byte.x00].
  change (canon IPv6unspecified) with (zeros 16).
  rewrite (bool_decide_eq_true_2 _ Hl), andb_true_l, negb_orb, !negb_decide,
    <- !bool_decide_and.
  apply bool_decide_ext. clear E Hl Hc.
  destruct q as [|a [|b [|c [|d [|]]]]]; try done. clear Hq.
  rewrite !(number_eq_iff [a; b; c; d]) by done. cbn [nth_byte nth].
  unfold nth_byte. cbn [nth]. rewrite land_f0_e0.
  unfold number, special_v4, v4. cbn [number_acc].
  change (byte_to_Z Byte.xff) with 255. change (byte_to_Z Byte.x00) with 0.
  pose proof (byte_to_Z_range a). pose proof (byte_to_Z_range b).
  pose proof (byte_to_Z_range c). pose proof (byte_to_Z_range d).
  assert ([a; b; c; d] <> zeros 16 <-> True) as -> by done. lia.
Qed.

(** The first two octets of an IPv6 address, read off the number. *)
Lemma number_prefix x y t :
  length t = 14%nat ->
  number (x :: y :: t) = (byte_to_Z x * 256 + byte_to_Z y) * 2 ^ 112 + number t /\
  0 <= number t < 2 ^ 112.
Proof.
  intros Hl. rewrite !number_cons. cbn [length]. rewrite Hl.
  pose proof (number_range t) as Hr. rewrite Hl in Hr.
  change (256 ^ Z.of_nat 14) with (2 ^ 112) in *.
  change (256 ^ Z.of_nat 15) with (256 * 2 ^ 112). lia.
Qed.

Lemma IsGlobalUnicast_v6 ip :
  To4 ip = None -> length ip = 16%nat ->
  IsGlobalUnicast ip = bool_decide (~ special_v6 (number ip)).
Proof.
  intros E Hl. pose proof (To4_None_16 _ E Hl) as Hp.
  unfold IsGlobalUnicast, IsUnspecified, IsLoopback, IsMulticast, IsLinkLocalUnicast.
  assert (canon ip = ip) as Hc by (unfold canon; by rewrite E).
  rewrite E, !Equal_canon, Hc by (done || by right).
  change (canon IPv4bcast) with [Byte.xff; Byte.xff; Byte.xff; Byte.xff].
  change (canon IPv4zero) with [Byte.x00; Byte.x00; Byte.x00; Byte.x00].
  change (canon IPv6unspecified) with (zeros 16).
  change (canon IPv6loopback) with IPv6loopback.
  rewrite (bool_decide_eq_true_2 (_ \/ _)) by (by right).
  rewrite andb_true_l, negb_orb, !negb_decide, <- !bool_decide_and.
  apply bool_decide_ext. rewrite Hl, (number_eq_iff ip (zeros 16)),
    (number_eq_iff ip IPv6loopback) by done.
  assert (forall a b c d : byte, ip <> [a; b; c; d] <-> True) as Hne
    by (intros; split; [done|intros _ ->; done]).
  rewrite !Hne. clear E Hp Hc Hne.
  destruct ip as [|x [|y t]]; try done. simpl in Hl. injection Hl as Hl.
  unfold nth_byte. cbn [nth]. rewrite land_c0_80.
  destruct (number_prefix x y t Hl) as [-> Ht].
  change (number (zeros 16)) with 0. change (number IPv6loopback) with 1.
  pose proof (byte_to_Z_range x). pose proof (byte_to_Z_range y).
  unfold special_v6. lia.
Qed.

Lemma IsGlobalUnicast_other ip :
  length ip <> 4%nat -> length ip <> 16%nat -> IsGlobalUnicast ip = false.
Proof.
  intros H4 H16. unfold IsGlobalUnicast. by rewrite bool_decide_eq_false_2 by tauto.
Qed.

Lemma public_ip_status (ip_String : IP -> string) (ip : IP) :
  Status <$> RequirePublicIP ip_String ip = address_status (octets ip) /\
  (forall e, RequirePublicIP ip_String ip = Some e -> Cause e = None).
Proof.
  split.
  - assert (IsPrivateAddress ip = IsPrivateAddress (Some (octets ip))) as Hp by done.
    unfold RequirePublicIP, address_status. rewrite Hp.
    generalize (octets ip). clear Hp. intros b.
    destruct (To4 b) as [q|] eqn:E.
    + rewrite (IsGlobalUnicast_v4 b q E), (IsPrivate_v4 b q E), negb_decide.
      repeat case_bool_decide; repeat case_decide; tauto || done.
    + destruct (decide (length b = 16%nat)) as [Hl|Hl].
      * rewrite (IsGlobalUnicast_v6 b E Hl), (IsPrivate_v6 b E Hl), negb_decide.
        repeat case_bool_decide; repeat case_decide; tauto || done.
      * rewrite IsGlobalUnicast_other, decide_True; [done|tauto| |done].
        intros H4. unfold To4 in E. by rewrite decide_True in E.
  - intros e. unfold RequirePublicIP. repeat case_match; by intros [= <-].
Qed.

(** ** Properties *)

(** C25: the address policy, on every IP value.  An IPv4 address, in its 4-octet
    or its IPv4-mapped form, is refused as invalid exactly on 0.0.0.0, the
    broadcast address, 127/8, 224/4 and 169.254/16, as private exactly on 10/8,
    172.16/12, 192.168/16 and 100.64/10, and accepted otherwise; an IPv6 address
    is invalid on ::, ::1, ff00::/8 and fe80::/10 and private on fc00::/7;
    anything that is not an address is invalid. *)
Theorem public_ip_policy (ip_String : IP -> string) (ip : IP) :
  Status <$> RequirePublicIP ip_String ip = address_status (octets ip) /\
  (forall e, RequirePublicIP ip_String ip = Some e -> Cause e = None) /\
  (forall q, length q = 4%nat ->
     address_status (v4InV6Prefix ++ q) = address_status q).
Proof.
  destruct (public_ip_status ip_String ip) as [Hs Hc]. split_and!; [done|done|].
  - intros q Hq. unfold address_status.
    assert (To4 q = Some q) as -> by (unfold To4; by rewrite decide_True).
    assert (To4 (v4InV6Prefix ++ q) = Some q) as ->; [|done].
    unfold To4. rewrite length_app, Hq, decide_False, decide_True; done.
Qed.
