(* ===== verification/CipherList.v ===== *)
(** * The cipher list

    [service/cipher_list.go].  A [*list.Element] is known by its address
    ([loc]); the entry's public fields are constant, and the one mutable field,
    [lastClientIP], is kept beside the list in a map from addresses, absent for
    the nil IP. *)
From S2P Require Import Prelude GoIO Cipher Salt PrivateNet.
From S2P Require Import ToyCrypto.

Definition minSaltEntropy : nat := 16.

Record CipherEntry := MkEntry {
  loc : nat;
  ID : string;
  eCipher : Cipher;
  eSaltGenerator : ServerSaltGenerator;
}.

Definition MakeCipherEntry `{CryptoOps} (loc : nat) (id : string) (cipher : Cipher)
    (secret : string) : CipherEntry :=
  let saltGenerator :=
    if decide (minSaltEntropy <= SaltSize cipher - serverSaltMarkLen)
    then NewServerSaltGenerator secret
    else RandomServerSaltGenerator in
  MkEntry loc id cipher saltGenerator.

Record cipherList := MkList {
  order : list CipherEntry;
  lastClientIP : gmap nat bytes;
}.

Definition NewCipherList : cipherList := MkList [] ∅.

Definition matchesIP (cl : cipherList) (clientIP : IP) (e : CipherEntry) : bool :=
  match clientIP with
  | None => false
  | Some ip => Equal ip (octets (lastClientIP cl !! loc e))
  end.

(** [cipherArray[i] = e]. *)
Definition set_elem (arr : list (option CipherEntry)) (i : nat) (e : CipherEntry) :
    outcome (list (option CipherEntry)) :=
  if decide (i < length arr) then Ret (<[i := Some e]> arr)
  else Panic "index out of range".

(** One pass of [SnapshotForClientIP]: the elements that satisfy [keep]. *)
Fixpoint snapshot_pass (keep : CipherEntry -> bool) (es : list CipherEntry)
    (arr : list (option CipherEntry)) (i : nat)
    : outcome (list (option CipherEntry) * nat) :=
  match es with
  | [] => Ret (arr, i)
  | e :: es =>
    if keep e then
      arr ← set_elem arr i e; snapshot_pass keep es arr (S i)
    else snapshot_pass keep es arr i
  end.

Definition SnapshotForClientIP (cl : cipherList) (clientIP : IP) :
    outcome (list (option CipherEntry)) :=
  let cipherArray := replicate (length (order cl)) None in
  '(cipherArray, i) ← snapshot_pass (matchesIP cl clientIP) (order cl) cipherArray 0;
  '(cipherArray, _) ← snapshot_pass (fun e => negb (matchesIP cl clientIP e))
                        (order cl) cipherArray i;
  Ret cipherArray.

(** [list.MoveToFront], which ignores an element of another list. *)
Definition MoveToFront (e : CipherEntry) (l : list CipherEntry) : list CipherEntry :=
  if decide (loc e ∈ loc <$> l) then e :: filter (fun x => loc x <> loc e) l else l.

Definition MarkUsedByClientIP (e : CipherEntry) (clientIP : IP) (cl : cipherList) :
    cipherList :=
  MkList (MoveToFront e (order cl))
    (partial_alter (fun _ => clientIP) (loc e) (lastClientIP cl)).

Definition Update (src : list CipherEntry) (cl : cipherList) : cipherList :=
  MkList src (lastClientIP cl).

(** ** Lemmas *)

Section Snapshot.
Implicit Types (keep : CipherEntry -> bool) (es : list CipherEntry).

Definition kept keep es : list CipherEntry := filter (fun e => keep e = true) es.

Lemma snapshot_pass_spec keep es done rest :
  length (kept keep es) <= length rest ->
  snapshot_pass keep es ((Some <$> done) ++ rest) (length done) =
  Ret ((Some <$> (done ++ kept keep es)) ++ drop (length (kept keep es)) rest,
       length done + length (kept keep es)).
Proof.
  revert done rest. induction es as [|e es IH]; intros d rest Hl; simpl.
  { by rewrite app_nil_r, drop_0, Nat.add_0_r. }
  unfold kept in *. rewrite filter_cons in *. destruct (keep e) eqn:Hk; simpl in *.
  - destruct rest as [|x rest]; simpl in Hl; [lia|].
    unfold set_elem. rewrite decide_True by (rewrite length_app, length_fmap; simpl; lia).
    simpl. rewrite insert_app_r_alt by (rewrite length_fmap; lia).
    rewrite length_fmap, Nat.sub_diag. simpl.
    specialize (IH (d ++ [e]) rest ltac:(lia)).
    rewrite fmap_app, <- app_assoc, length_app in IH. simpl in IH.
    rewrite Nat.add_1_r in IH. rewrite IH. f_equal. f_equal.
    + by rewrite <- app_assoc.
    + lia.
  - by apply IH.
Qed.

Lemma kept_both keep es :
  kept keep es ++ kept (fun e => negb (keep e)) es ≡ₚ es.
Proof.
  unfold kept. induction es as [|e es IH]; [done|]. rewrite !filter_cons.
  destruct (keep e); simpl.
  - by rewrite IH.
  - by rewrite <- Permutation_middle, IH.
Qed.

(** The order a search uses: the client's own ciphers, then the others. *)
Definition search_order (cl : cipherList) (ip : IP) : list CipherEntry :=
  kept (matchesIP cl ip) (order cl) ++
  kept (fun e => negb (matchesIP cl ip e)) (order cl).

Lemma Snapshot_eq cl ip :
  SnapshotForClientIP cl ip = Ret (Some <$> search_order cl ip).
Proof.
  unfold SnapshotForClientIP, search_order. set (m := matchesIP cl ip).
  pose proof (Permutation_length (kept_both m (order cl))) as Hp.
  rewrite length_app in Hp.
  pose proof (snapshot_pass_spec m (order cl) []
    (replicate (length (order cl)) None)) as E1.
  rewrite length_replicate in E1. simpl in E1. rewrite E1 by lia.
  simpl. rewrite drop_replicate.
  rewrite (snapshot_pass_spec _ (order cl) (kept m (order cl)))
    by (rewrite length_replicate; lia).
  simpl. rewrite drop_replicate.
  replace (_ - _ - _) with 0 by lia. by rewrite app_nil_r.
Qed.

End Snapshot.

(** [loc] identifies an element. *)
Definition distinct (l : list CipherEntry) : Prop := NoDup (loc <$> l).

Lemma MoveToFront_perm e l :
  distinct l -> e ∈ l -> MoveToFront e l ≡ₚ l /\
  exists rest, MoveToFront e l = e :: rest.
Proof.
  unfold MoveToFront. intros Hd He.
  rewrite decide_True by (apply list_elem_of_fmap; eauto).
  split; [|eauto]. apply list_elem_of_split in He as (l1 & l2 & ->).
  unfold distinct in Hd. rewrite fmap_app in Hd. cbn [fmap list_fmap] in Hd.
  apply NoDup_app in Hd as (Hd1 & Hd2 & Hd3). apply NoDup_cons in Hd3 as [Hd3 _].
  rewrite filter_app, filter_cons_False by tauto.
  rewrite !filter_all; [apply Permutation_middle| |].
  - intros x Hx E. apply Hd3. rewrite <- E. by apply list_elem_of_fmap_2.
  - intros x Hx E. apply (Hd2 (loc x)); [by apply list_elem_of_fmap_2|].
    rewrite E. left.
Qed.

(** Marking an element keeps what holds of them all. *)
Lemma MoveToFront_Forall (P : CipherEntry -> Prop) e l :
  P e -> Forall P l -> Forall P (MoveToFront e l).
Proof.
  intros He Hl. unfold MoveToFront. case_decide; [|done].
  constructor; [done|]. rewrite Forall_forall in Hl |- *. intros x Hx.
  apply list_elem_of_filter in Hx as [_ Hx]. by apply Hl.
Qed.

Lemma MoveToFront_locs e l k : k ∈ loc <$> MoveToFront e l <-> k ∈ loc <$> l.
Proof.
  unfold MoveToFront. case_decide as He; [|done]. cbn [fmap list_fmap].
  rewrite elem_of_cons, !list_elem_of_fmap. split.
  - intros [->|(x & -> & Hx)]; [by apply list_elem_of_fmap|].
    apply list_elem_of_filter in Hx as [_ Hx]. eauto.
  - intros (x & -> & Hx). destruct (decide (loc x = loc e)) as [?|Hn]; [by left|right].
    exists x. split; [done|]. by apply list_elem_of_filter.
Qed.

(** ** Marks *)

(** A list after a series of marks, the latest first. *)
Definition mark_all (ms : list (CipherEntry * IP)) (cl : cipherList) : cipherList :=
  foldr (fun m => MarkUsedByClientIP (fst m) (snd m)) cl ms.

(** The elements of a series in order of their latest occurrence. *)
Fixpoint recents (es : list CipherEntry) : list CipherEntry :=
  match es with
  | [] => []
  | e :: es => e :: filter (fun x => loc x <> loc e) (recents es)
  end.

(** The IP of the latest mark of an element, or the one it had. *)
Fixpoint last_mark (ms : list (CipherEntry * IP)) (k : nat) (old : IP) : IP :=
  match ms with
  | [] => old
  | (e, ip) :: ms => if decide (loc e = k) then ip else last_mark ms k old
  end.

Definition in_list (cl : cipherList) (ms : list (CipherEntry * IP)) : list CipherEntry :=
  fst <$> filter (fun m => loc (fst m) ∈ loc <$> order cl) ms.

Lemma mark_all_locs ms cl k :
  k ∈ loc <$> order (mark_all ms cl) <-> k ∈ loc <$> order cl.
Proof.
  induction ms as [|m ms IH]; [done|]. simpl. by rewrite MoveToFront_locs.
Qed.

Lemma mark_all_order ms cl :
  order (mark_all ms cl) =
  recents (in_list cl ms) ++
  filter (fun x => loc x ∉ loc <$> in_list cl ms) (order cl).
Proof.
  induction ms as [|[e ip] ms IH].
  { simpl. symmetry. apply filter_all. intros x _. apply not_elem_of_nil. }
  change (order (mark_all ((e, ip) :: ms) cl)) with (MoveToFront e (order (mark_all ms cl))).
  unfold MoveToFront. change (in_list cl ((e, ip) :: ms)) with
    (fst <$> filter (fun m => loc (fst m) ∈ loc <$> order cl) ((e, ip) :: ms)).
  rewrite filter_cons.
  destruct (decide (loc (e, ip).1 ∈ loc <$> order cl)) as [He|He]; simpl in He.
  - rewrite decide_True by by apply mark_all_locs.
    rewrite IH, filter_app. cbn [fmap list_fmap recents fst app].
    fold (in_list cl ms). f_equal. f_equal.
    rewrite list_filter_filter. apply list_filter_iff. intros x.
    rewrite elem_of_cons. tauto.
  - by rewrite decide_False by (by rewrite mark_all_locs).
Qed.

Lemma mark_all_lastClientIP ms cl k :
  lastClientIP (mark_all ms cl) !! k = last_mark ms k (lastClientIP cl !! k).
Proof.
  induction ms as [|[e ip] ms IH]; [done|]. simpl. case_decide as Hk.
  - subst k. by rewrite lookup_partial_alter_eq.
  - by rewrite lookup_partial_alter_ne.
Qed.

(** ** Properties *)

(** A snapshot never runs out of its array and is the list itself,
    reordered: the entries last used by this client first, then the others,
    each group in the order of the list.  Nothing is lost or duplicated. *)
Theorem snapshot_spec (cl : cipherList) (clientIP : IP) :
  exists mine others,
    SnapshotForClientIP cl clientIP = Ret (Some <$> (mine ++ others)) /\
    mine ++ others ≡ₚ order cl /\
    mine = filter (fun e => matchesIP cl clientIP e = true) (order cl) /\
    others = filter (fun e => matchesIP cl clientIP e = false) (order cl).
Proof.
  exists (kept (matchesIP cl clientIP) (order cl)),
    (kept (fun e => negb (matchesIP cl clientIP e)) (order cl)).
  split_and!; [apply Snapshot_eq|apply kept_both|done|].
  apply list_filter_iff. intros e. by destruct (matchesIP cl clientIP e).
Qed.

(** Marking is a recency list.  After any series of marks, the elements of
    the list that were marked come first, the latest mark first, followed by
    the others in their old order; marks of elements of a list that [Update]
    replaced do not bring them back; each element carries the IP of its latest
    mark; and the element marked last for a client is the first one its next
    snapshot tries. *)
Theorem mark_recency (cl : cipherList) (ms : list (CipherEntry * IP)) :
  order (mark_all ms cl) =
    recents (in_list cl ms) ++
    filter (fun x => loc x ∉ loc <$> in_list cl ms) (order cl) /\
  (forall e, lastClientIP (mark_all ms cl) !! loc e =
     last_mark ms (loc e) (lastClientIP cl !! loc e)) /\
  (forall e ip ms', ms = (e, Some ip) :: ms' -> loc e ∈ loc <$> order cl ->
     exists rest, SnapshotForClientIP (mark_all ms cl) (Some ip) =
       Ret (Some e :: rest)) /\
  (distinct (order cl) -> (forall m, m ∈ ms -> fst m ∈ order cl) ->
   order (mark_all ms cl) ≡ₚ order cl).
Proof.
  split_and!; [apply mark_all_order|intros; apply mark_all_lastClientIP| |].
  - intros e ip ms' -> He. rewrite Snapshot_eq. unfold search_order.
    set (cl' := mark_all _ cl). assert (matchesIP cl' (Some ip) e = true) as Hm.
    { unfold matchesIP, cl'. rewrite mark_all_lastClientIP. simpl.
      rewrite decide_True by done. unfold Equal. simpl.
      rewrite decide_True by done. by apply bool_decide_eq_true. }
    assert (exists rest, order cl' = e :: rest) as [rest Ho].
    { unfold cl'. simpl. unfold MoveToFront. rewrite decide_True; [eauto|].
      by apply mark_all_locs. }
    rewrite Ho. unfold kept at 1. rewrite filter_cons_True by done. simpl. eauto.
  - intros Hd. induction ms as [|[e ip] ms IH]; intros Hin; [done|].
    assert (order (mark_all ms cl) ≡ₚ order cl) as Hp.
    { apply IH. intros m Hm. apply Hin. by right. }
    simpl. destruct (MoveToFront_perm e (order (mark_all ms cl))) as [-> _]; [| |done].
    + unfold distinct in *. by rewrite Hp.
    + rewrite Hp. apply (Hin (e, ip)). left.
Qed.

(** A new entry marks its salts exactly when at least 16 random bytes are
    left beside the 4-byte mark: for the three ciphers with salts of 24 and 32
    bytes, and not for aes-128-gcm, whose salts are then never recognised. *)
Theorem MakeCipherEntry_spec `{CryptoLaws} (k : nat) (id secret nm : string) (c : Cipher) :
  NewCipher nm secret = Ret c ->
  let e := MakeCipherEntry k id c secret in
  ID e = id /\ eCipher e = c /\
  (if decide (SaltSize c = 16)
   then forall salt, IsServerSalt (eSaltGenerator e) salt = false
   else 24 <= SaltSize c /\ eSaltGenerator e = NewServerSaltGenerator secret).
Proof.
  intros HN. split_and!; [done..|]. apply NewCipher_wf in HN.
  pose proof (wf_cipher_sizes _ HN) as Hs.
  unfold MakeCipherEntry, serverSaltMarkLen, minSaltEntropy. simpl eSaltGenerator.
  case_decide as H16.
  - rewrite H16. by rewrite decide_False by (simpl; lia).
  - rewrite decide_True; [split; [lia|done]|lia].
Qed.

Lemma MakeCipherEntry_spec_witness :
  IsServerSalt (eSaltGenerator (MakeCipherEntry 0 "id-0" toy_cipher "Secret1")) (zeros 16)
    = false.
Proof.
  destruct (MakeCipherEntry_spec 0 "id-0" "Secret1" "AES-128-gcm" toy_cipher)
    as (_ & _ & Hs).
  - reflexivity.
  - rewrite decide_True in Hs by reflexivity. exact (Hs (zeros 16)).
Defined.
