(* ===== verification/Metrics.v ===== *)
(** * Metrics

    [service/metrics/metrics.go]: the byte counts of a connection and the
    wrapper that keeps them. *)
From S2P Require Import Prelude GoIO.

(** ** [ProxyMetrics] *)

Record ProxyMetrics := MkPM {
  ClientProxy : Z;
  ProxyTarget : Z;
  TargetProxy : Z;
  ProxyClient : Z;
}.

Definition add (m other : ProxyMetrics) : ProxyMetrics :=
  MkPM (int64 (ClientProxy m + ClientProxy other))
       (int64 (ProxyTarget m + ProxyTarget other))
       (int64 (TargetProxy m + TargetProxy other))
       (int64 (ProxyClient m + ProxyClient other)).

(** ** [measuredConn]

    The reading half adds what it read to a counter; the writing half adds
    what the connection accepted. *)
Record measuredConn (R : Type) := MkMeasured { inner : R; readCount : Z }.
Arguments MkMeasured {R}.
Arguments inner {R}.
Arguments readCount {R}.

Definition measuredConn_Read {R} `{Reader R} (c : measuredConn R) (n : nat)
  : bytes * option error * measuredConn R :=
  let '(d, e, r) := rd_read (inner c) n in
  (d, e, MkMeasured r (int64 (readCount c + Z.of_nat (length d)))).

#[export] Instance measuredConn_reader {R} `{Reader R} : Reader (measuredConn R) := {
  rd_read := measuredConn_Read;
  rd_bytes c := rd_bytes (inner c);
  rd_end c := rd_end (inner c);
  rd_fuel c := rd_fuel (inner c);
}.

#[export] Instance measuredConn_laws {R} `{ReaderLaws R} : ReaderLaws (measuredConn R).
Proof.
  split; intros [r k] n d; cbn [rd_read rd_bytes rd_end rd_fuel measuredConn_reader inner];
    unfold measuredConn_Read; cbn [inner];
    destruct (rd_read r n) as [[d' e'] r1] eqn:E; intros; simplify_eq;
    cbn [inner].
  - by eapply rd_read_len.
  - by apply rd_read_more in E.
  - by apply rd_read_progress in E.
  - by apply rd_read_stop in E.
Qed.

(** [measuredConn.WriteTo(Discard)]: the count is added when the copy ends. *)
Definition measuredConn_Discard {R} `{Reader R} (c : measuredConn R)
  : nat * option error * measuredConn R :=
  let '(n, e, r) := Copy_Discard (inner c) in
  (n, e, MkMeasured r (int64 (readCount c + Z.of_nat n))).

(** [measuredConn.Write] on a connection whose writing half is a [Sink]. *)
Record measuredSink := MkMSink { sink : Sink; writeCount : Z }.

Definition measuredConn_Write (c : measuredSink) (p : bytes)
  : nat * option error * measuredSink :=
  let '(n, e, s) := Sink_write (sink c) p in
  (n, e, MkMSink s (int64 (writeCount c + Z.of_nat n))).

(** [io.Copy] with the buffer loop; it runs out of fuel only on a reader that
    breaks its contract. *)
Section IoCopy.
Context {R : Type} `{Reader R}.

Fixpoint Copy_loop (fuel : nat) (s : Sink) (r : R) (n : Z) : Z * option error * Sink * R :=
  match fuel with
  | O => (n, Some (Errorf "out of fuel"), s, r)
  | S fuel =>
    let '(d, er, r) := rd_read r (Z.to_nat (32 * 1024)) in
    let after s n :=
      match er with
      | None => Copy_loop fuel s r n
      | Some er => (n, (if decide (er = EOF) then None else Some er), s, r)
      end in
    match d with
    | [] => after s n
    | _ =>
      let '(nw, ew, s) := Sink_write s d in
      let n := int64 (n + Z.of_nat nw) in
      match ew with
      | Some ew => (n, Some ew, s, r)
      | None =>
        if decide (length d <> nw) then (n, Some (Errorf "short write"), s, r) else after s n
      end
    end
  end.

Definition Copy (s : Sink) (r : R) : Z * option error * Sink * R := Copy_loop (S (rd_fuel r)) s r 0.

(** [measuredConn.ReadFrom(r)] and [measuredConn.WriteTo(w)]: the count is added
    when the copy ends. *)
Definition measuredConn_ReadFrom (c : measuredSink) (r : R) : Z * option error * measuredSink * R :=
  let '(n, err, s, r) := Copy (sink c) r in
  (n, err, MkMSink s (int64 (writeCount c + n)), r).

Definition measuredConn_WriteTo (c : measuredConn R) (w : Sink) :
    Z * option error * Sink * measuredConn R :=
  let '(n, err, w, r) := Copy w (inner c) in
  (n, err, w, MkMeasured r (int64 (readCount c + n))).

End IoCopy.

(** [MeasureConn]: both counters start where the metrics stand. *)
Definition MeasureConn {R} (conn : R) (w : Sink) (bytesSent bytesReceived : Z)
  : measuredConn R * measuredSink :=
  (MkMeasured conn bytesReceived, MkMSink w bytesSent).

(** ** Lemmas *)

Section Conservation.
Context {R : Type} `{ReaderLaws R}.

(** What was counted and what is left add up to the same number. *)
Definition account (c : measuredConn R) : Z :=
  int64 (readCount c + Z.of_nat (length (rd_bytes c))).

Lemma account_Read c n d e c' :
  rd_read c n = (d, e, c') -> account c' = account c.
Proof.
  destruct c as [r k]. unfold account.
  cbn [rd_read measuredConn_reader]. unfold measuredConn_Read. cbn [inner].
  destruct (rd_read r n) as [[d' e'] r1] eqn:E. intros [= <- <- <-].
  cbn [inner readCount rd_bytes measuredConn_reader]. rewrite int64_add_l. f_equal.
  destruct e' as [x|].
  - apply rd_read_stop in E as (-> & _ & -> & _). simpl. lia.
  - apply rd_read_more in E as [-> _]. rewrite length_app. lia.
Qed.

(** The count is an [int64]. *)
Definition counted_ok (c : measuredConn R) : Prop := readCount c = int64 (readCount c).

Lemma counted_Read c n d e c' : rd_read c n = (d, e, c') -> counted_ok c'.
Proof.
  destruct c as [r k]. cbn [rd_read measuredConn_reader]. unfold measuredConn_Read. cbn [inner].
  destruct (rd_read r n) as [[d' e'] r1]. intros [= <- <- <-].
  unfold counted_ok. cbn [readCount]. by rewrite int64_idem.
Qed.

Lemma account_reads c c' :
  reads c c' -> account c' = account c /\ (counted_ok c -> counted_ok c').
Proof.
  induction 1 as [c|c c1 c2 (n & d & e & E) _ [IH1 IH2]]; [done|].
  pose proof (counted_Read _ _ _ _ _ E). apply account_Read in E. split; [congruence|auto].
Qed.

(** What was read is all there was once nothing is left. *)
Lemma account_drained c c' :
  reads c c' -> readCount c = 0%Z -> rd_bytes c' = [] ->
  readCount c' = int64 (Z.of_nat (length (rd_bytes c))).
Proof.
  intros Hr Hz Hb. destruct (account_reads _ _ Hr) as [Ha Hc]. unfold account in Ha.
  rewrite Hb, Hz, Z.add_0_l, Z.add_0_r in Ha. rewrite <- Ha.
  apply Hc. unfold counted_ok. by rewrite Hz.
Qed.

(** The connection behind bytes that were already read. *)
Lemma reads_MultiReader (m m' : bytes * measuredConn R) : reads m m' -> reads (snd m) (snd m').
Proof.
  induction 1 as [m|m m1 m2 (n & d & e & E) _ IH]; [apply rtc_refl|].
  etrans; [|exact IH]. destruct m as [[|b p] c]; simpl in E.
  - destruct (measuredConn_Read c n) as [[d' e'] c1] eqn:E1. injection E as <- <- <-.
    by apply (reads_one c n d' e').
  - injection E as <- <- <-. apply rtc_refl.
Qed.

Lemma account_ReadFull c n d e c' : ReadFull c n = (d, e, c') -> account c' = account c.
Proof. intros E. by apply account_reads, (ReadFull_reads _ _ _ _ _ E). Qed.

(** Draining counts the rest. *)
Lemma Discard_spec (c : measuredConn R) :
  exists c', measuredConn_Discard c =
    (length (rd_bytes c),
     (if decide (rd_end c = EOF) then None else Some (rd_end c)), c') /\
    rd_bytes c' = [] /\ rd_end c' = rd_end c /\ readCount c' = account c.
Proof.
  destruct c as [r k]. unfold measuredConn_Discard, account. cbn [inner readCount].
  destruct (Copy_Discard_spec r) as (r' & -> & Hb & He).
  exists (MkMeasured r' (int64 (k + Z.of_nat (length (rd_bytes r))))). done.
Qed.

(** A copy into a connection that accepts writes delivers all that is left and
    returns its length; [Copy] always ends. *)
Lemma Copy_loop_spec fuel : forall (s : Sink) (r : R) n,
  reliable s -> n = int64 n -> rd_fuel r < fuel ->
  exists s' r', Copy_loop fuel s r n =
    (int64 (n + Z.of_nat (length (rd_bytes r))),
     (if decide (rd_end r = EOF) then None else Some (rd_end r)), s', r') /\
    concat (written s') = concat (written s) ++ rd_bytes r /\ reliable s' /\ rd_bytes r' = [].
Proof.
  induction fuel as [|fuel IH]; intros s r n Hs Hn Hf; [lia|]. cbn [Copy_loop].
  destruct (rd_read r (Z.to_nat (32 * 1024))) as [[d er] r1] eqn:E.
  assert (forall s1, reliable s1 -> concat (written s1) = concat (written s) ++ d ->
    exists s' r',
      match er with
      | None => Copy_loop fuel s1 r1 (int64 (n + Z.of_nat (length d)))
      | Some er => (int64 (n + Z.of_nat (length d)), (if decide (er = EOF) then None else Some er), s1, r1)
      end = (int64 (n + Z.of_nat (length (rd_bytes r))),
        (if decide (rd_end r = EOF) then None else Some (rd_end r)), s', r') /\
      concat (written s') = concat (written s) ++ rd_bytes r /\ reliable s' /\ rd_bytes r' = [])
    as Hafter.
  { intros s1 Hs1 Hw1. destruct er as [x|].
    - apply rd_read_stop in E as (-> & -> & Hb & _). by exists s1, r1.
    - pose proof (rd_read_progress _ _ _ _ E ltac:(lia)).
      apply rd_read_more in E as [Hb He].
      destruct (IH s1 r1 (int64 (n + Z.of_nat (length d)))) as (s' & r' & -> & Hw' & Hs' & Hr');
        [done|by rewrite int64_idem|lia|].
      exists s', r'. rewrite Hb, length_app, <- He, int64_add_l, Nat2Z.inj_add, Z.add_assoc.
      by rewrite Hw', Hw1, <- app_assoc. }
  destruct d as [|b d'].
  { simpl in Hafter. rewrite Z.add_0_r, <- Hn in Hafter. apply Hafter; [done|by rewrite app_nil_r]. }
  remember (b :: d') as d. destruct (Sink_write_reliable s d Hs) as (s1 & -> & Hw1 & Hs1).
  rewrite decide_False by (by intros []). apply Hafter; [done|]. by rewrite Hw1, concat_snoc.
Qed.

(** Relaying into a counted connection counts every byte of the source. *)
Lemma measuredConn_ReadFrom_spec (c : measuredSink) (r : R) :
  reliable (sink c) ->
  exists c' r', measuredConn_ReadFrom c r =
    (int64 (Z.of_nat (length (rd_bytes r))),
     (if decide (rd_end r = EOF) then None else Some (rd_end r)), c', r') /\
    concat (written (sink c')) = concat (written (sink c)) ++ rd_bytes r /\
    writeCount c' = int64 (writeCount c + Z.of_nat (length (rd_bytes r))).
Proof.
  intros Hs. unfold measuredConn_ReadFrom, Copy.
  destruct (Copy_loop_spec (S (rd_fuel r)) (sink c) r 0 Hs eq_refl ltac:(lia))
    as (s' & r' & -> & Hw & _). simpl.
  eexists _, r'. split; [done|]. split; [done|]. simpl. by rewrite Z.add_comm, int64_add_l, Z.add_comm.
Qed.

End Conservation.
