(* ===== verification/KeyFinding.v ===== *)
(** * Finding the access key of a connection

    [findAccessKey] and [findEntry] of [service/tcp.go]: the trial decryption
    of the first 50 bytes under every key, in the order of the client's
    snapshot. *)
From stdpp Require Import pretty.
From S2P Require Import Prelude GoIO Cipher ToyCrypto Salt Wire PrivateNet.
From S2P Require Import CipherList.

Definition bytesForKeyFinding : nat := 50.

Section Find.
Context `{CryptoOps}.

(** One trial: the size block of the first chunk, decrypted into a two-byte
    buffer.  Slicing beyond the 50 bytes would panic. *)
Definition tryEntry (firstBytes : bytes) (e : CipherEntry) : outcome bytes :=
  let saltsize := SaltSize (eCipher e) in
  let cipherTextLength := 2 + TagSize (eCipher e) in
  if decide (length firstBytes < saltsize + cipherTextLength)
  then Panic "slice bounds out of range"
  else
    let salt := take saltsize firstBytes in
    let cipherText := slice saltsize (saltsize + cipherTextLength) firstBytes in
    DecryptOnce (eCipher e) salt [] 2 cipherText.

(** The entry, which is also its list element, and its id. *)
Fixpoint findEntry (firstBytes : bytes) (ciphers : list (option CipherEntry))
    : outcome (option CipherEntry * string) :=
  match ciphers with
  | [] => Ret (None, "")
  | None :: _ => Panic "nil pointer dereference"
  | Some entry :: ciphers =>
    match tryEntry firstBytes entry with
    | Panic s => Panic s
    | Err _ => findEntry firstBytes ciphers
    | Ret _ => Ret (Some entry, ID entry)
    end
  end.

(** The two shapes of the result of [findAccessKey]: an error with the reader
    it was given, or the entry with the reader that replays the bytes it read,
    the salt and the id. *)
Inductive key_result (R : Type) : Type :=
| KeyError (clientReader : R) (timeToCipher : Z) (err : error) (id : string)
| KeyFound (entry : CipherEntry) (clientReader : bytes * R) (salt : bytes)
    (timeToCipher : Z) (id : string).
Arguments KeyError {R}.
Arguments KeyFound {R}.

(** The text of an error, which [%v] prints; that of a connection's own error is
    only its number here. *)
Fixpoint Error (err : error) : string :=
  match err with
  | EOF => "EOF"
  | ErrUnexpectedEOF => "unexpected EOF"
  | ErrShortBuffer => "short buffer"
  | ErrShortPacket => "short packet"
  | ErrTimeout => "i/o timeout"
  | ErrConn code => "connection error " +:+ pretty code
  | Errorf msg => msg
  | Wrapf msg cause => msg +:+ ": " +:+ Error cause
  end.

Definition errHeader (n : nat) (err : error) : error :=
  Errorf ("Reading header failed after " +:+ pretty n +:+ " bytes: " +:+ Error err).
Definition errNoCipher : error := Errorf "Could not find valid TCP cipher".

(** [elapsed] is the time the search takes. *)
Definition findAccessKey {R} `{Reader R} (clientReader : R) (clientIP : IP)
    (elapsed : Z) (cl : cipherList) : outcome (key_result R * cipherList) :=
  ciphers ← SnapshotForClientIP cl clientIP;
  let '(firstBytes, err, clientReader) := ReadFull clientReader bytesForKeyFinding in
  match err with
  | Some err => Ret (KeyError clientReader 0 (errHeader (length firstBytes) err) "", cl)
  | None =>
    '(entry, id) ← findEntry firstBytes ciphers;
    match entry with
    | None => Ret (KeyError clientReader elapsed errNoCipher id, cl)
    | Some entry =>
      let cl := MarkUsedByClientIP entry clientIP cl in
      let salt := take (SaltSize (eCipher entry)) firstBytes in
      Ret (KeyFound entry (firstBytes, clientReader) salt elapsed id, cl)
    end
  end.

(** ** Specification *)

(** The first 50 bytes authenticate under the key of [e]. *)
Definition authenticates (firstBytes : bytes) (e : CipherEntry) : bool :=
  match tryEntry firstBytes e with Ret _ => true | _ => false end.

(** The key a search settles on: the first that authenticates. *)
Fixpoint first_auth (firstBytes : bytes) (es : list CipherEntry) : option CipherEntry :=
  match es with
  | [] => None
  | e :: es => if authenticates firstBytes e then Some e else first_auth firstBytes es
  end.

Definition wf_entries (cl : cipherList) : Prop :=
  Forall (fun e => wf_cipher (eCipher e)) (order cl).

End Find.

Arguments KeyError {R}.
Arguments KeyFound {R}.

(** ** Lemmas *)

Section FindLemmas.
Context `{CryptoLaws}.

(** The constant is large enough for every cipher. *)
Lemma required_le c : wf_cipher c -> SaltSize c + (2 + TagSize c) <= bytesForKeyFinding.
Proof.
  intros Hwf. destruct (wf_cipher_sizes c Hwf) as [-> Hs]. unfold bytesForKeyFinding. lia.
Qed.

Lemma tryEntry_eq fb e :
  wf_cipher (eCipher e) -> length fb = bytesForKeyFinding ->
  exists a, NewAEAD (eCipher e) (take (SaltSize (eCipher e)) fb) = Ret a /\
    standard_AEAD a /\
    tryEntry fb e =
      open_or_err (Open a (zeros 12)
        (take 18 (drop (SaltSize (eCipher e)) fb))).
Proof.
  intros Hwf Hl. pose proof (required_le _ Hwf) as Hreq.
  destruct (NewAEAD_ok _ (take (SaltSize (eCipher e)) fb) Hwf) as (a & Ha & Hstd).
  exists a. split_and!; [done..|]. unfold tryEntry.
  destruct (wf_cipher_sizes _ Hwf) as [Ht Hs]. rewrite Ht in *.
  rewrite decide_False by lia. rewrite (DecryptOnce_eq _ _ a) by done.
  unfold slice. replace (SaltSize (eCipher e) + (2 + 16) - SaltSize (eCipher e)) with 18 by lia.
  unfold bytesForKeyFinding in *.
  rewrite length_take, length_drop. do 2 (case_decide; [cbn [length] in *; lia|]).
  by destruct (Open a _ _).
Qed.

Lemma tryEntry_no_panic fb e s :
  wf_cipher (eCipher e) -> length fb = bytesForKeyFinding -> tryEntry fb e <> Panic s.
Proof.
  intros Hwf Hl. destruct (tryEntry_eq fb e Hwf Hl) as (a & _ & _ & ->).
  by destruct (Open a _ _).
Qed.

Lemma findEntry_eq fb es :
  Forall (fun e => wf_cipher (eCipher e)) es -> length fb = bytesForKeyFinding ->
  findEntry fb (Some <$> es) =
  Ret (first_auth fb es, default "" (ID <$> first_auth fb es)).
Proof.
  intros Hwf Hl. induction Hwf as [|e es He Hwf IH]; [done|].
  cbn [fmap list_fmap findEntry first_auth]. unfold authenticates.
  pose proof (tryEntry_no_panic fb e) as Hn.
  destruct (tryEntry fb e) as [p|x|s]; [done|done|]. by destruct (Hn s).
Qed.

Lemma wf_search_order cl ip :
  wf_entries cl -> Forall (fun e => wf_cipher (eCipher e)) (search_order cl ip).
Proof. intros Hwf. unfold search_order. by rewrite kept_both. Qed.

Lemma findAccessKey_eq {R} `{ReaderLaws R} (r : R) ip t cl :
  wf_entries cl ->
  exists r',
    if decide (length (rd_bytes r) < bytesForKeyFinding) then
      findAccessKey r ip t cl =
        Ret (KeyError r' 0
          (errHeader (length (rd_bytes r)) (short_error (rd_bytes r) (rd_end r))) "", cl) /\
      rd_bytes r' = [] /\ rd_end r' = rd_end r
    else
      let fb := take bytesForKeyFinding (rd_bytes r) in
      rd_bytes r' = drop bytesForKeyFinding (rd_bytes r) /\ rd_end r' = rd_end r /\
      match first_auth fb (search_order cl ip) with
      | None => findAccessKey r ip t cl = Ret (KeyError r' t errNoCipher "", cl)
      | Some e =>
        findAccessKey r ip t cl =
          Ret (KeyFound e (fb, r') (take (SaltSize (eCipher e)) (rd_bytes r)) t (ID e),
               MarkUsedByClientIP e ip cl)
      end.
Proof.
  intros Hwf. unfold findAccessKey. rewrite Snapshot_eq. cbn [mbind outcome_bind].
  case_decide as Hl.
  - destruct (ReadFull_short r _ Hl) as (r' & -> & Hr). by exists r'.
  - destruct (ReadFull_ok r bytesForKeyFinding) as (r' & -> & Hb & He); [lia|].
    exists r'. split_and!; [done..|].
    assert (length (take bytesForKeyFinding (rd_bytes r)) = bytesForKeyFinding) as Hfb
      by (rewrite length_take; lia).
    rewrite findEntry_eq by (done || by apply wf_search_order).
    cbn [mbind outcome_bind].
    destruct (first_auth _ _) as [e|] eqn:Ef; [|done]. cbn [fmap option_fmap option_map default].
    do 3 f_equal. rewrite take_take. f_equal.
    assert (wf_cipher (eCipher e)) as Hwe.
    { pose proof (wf_search_order cl ip Hwf) as Hf. revert Hf Ef.
      generalize (search_order cl ip). intros es Hf.
      induction Hf as [|e' es He' Hf IH]; simpl; [done|].
      destruct (authenticates _ e'); [by intros [= ->]|done]. }
    pose proof (required_le _ Hwe). lia.
Qed.

Lemma first_auth_Some fb es e :
  first_auth fb es = Some e <->
  exists es1 es2, es = es1 ++ e :: es2 /\ authenticates fb e = true /\
    Forall (fun x => authenticates fb x = false) es1.
Proof.
  split.
  - induction es as [|x es IH]; [done|]. simpl. destruct (authenticates fb x) eqn:Ex.
    + intros [= ->]. exists [], es. split_and!; [done..|constructor].
    + intros (es1 & es2 & -> & He & Hf)%IH. exists (x :: es1), es2.
      split_and!; [done..|by constructor].
  - intros (es1 & es2 & -> & He & Hf).
    induction Hf as [|x es1 Hx Hf IH]; simpl; [by rewrite He|by rewrite Hx].
Qed.

Lemma first_auth_None fb es :
  first_auth fb es = None <-> Forall (fun x => authenticates fb x = false) es.
Proof.
  induction es as [|x es IH]; simpl; [split; [constructor|done]|].
  rewrite Forall_cons. destruct (authenticates fb x); naive_solver.
Qed.

(** Every stream the writer can send authenticates in its first 50 bytes under
    the key it was written with. *)
Lemma authenticates_packets e a salt p chunks :
  wf_cipher (eCipher e) -> NewAEAD (eCipher e) salt = Ret a ->
  length salt = SaltSize (eCipher e) -> 0 < length p ->
  let stream := concat (packets a salt (p :: chunks)) in
  bytesForKeyFinding <= length stream /\
  authenticates (take bytesForKeyFinding stream) e = true.
Proof.
  intros Hwf HN Hl Hp stream. destruct (wf_cipher_sizes _ Hwf) as [_ Hs].
  destruct (NewAEAD_ok _ salt Hwf) as (a' & HN' & Hstd). rewrite HN in HN'. simplify_eq.
  pose proof Hstd as (Hlaws & Hns & Hov).
  set (s0 := Seal a' (nonce_at 12 0) (PutUint16 (Z.of_nat (length p)))).
  set (s1 := Seal a' (nonce_at 12 1) p).
  assert (length s0 = 18) as Hs0.
  { unfold s0. rewrite length_Seal by (by rewrite length_nonce_at). by rewrite Hov. }
  assert (length s1 = length p + 16) as Hs1.
  { unfold s1. rewrite length_Seal by (by rewrite length_nonce_at). by rewrite Hov. }
  assert (exists rest, stream = salt ++ s0 ++ s1 ++ rest) as [rest Hst].
  { unfold stream. rewrite concat_packets, decide_False by done. cbn [wire]. unfold frame. rewrite Hns.
    exists (wire a' 2 chunks). unfold s0, s1. by rewrite <- !app_assoc. }
  assert (bytesForKeyFinding <= length stream) as Hlen.
  { rewrite Hst, !length_app. unfold bytesForKeyFinding. lia. }
  split; [done|]. unfold authenticates.
  destruct (tryEntry_eq (take bytesForKeyFinding stream) e Hwf) as (a & Ha & _ & ->).
  { rewrite length_take. lia. }
  assert (take (SaltSize (eCipher e)) (take bytesForKeyFinding stream) = salt) as Et.
  { rewrite take_take, Nat.min_l by (unfold bytesForKeyFinding; lia).
    by rewrite Hst, <- Hl, take_app_length. }
  assert (take 18 (drop (SaltSize (eCipher e)) (take bytesForKeyFinding stream)) = s0) as Ed.
  { rewrite skipn_firstn_comm, take_take, Nat.min_l by (unfold bytesForKeyFinding; lia).
    rewrite Hst, <- Hl, drop_app_length, <- Hs0. by rewrite take_app_length. }
  rewrite Et, HN in Ha. injection Ha as <-. rewrite Ed. unfold s0.
  change (zeros 12) with (nonce_at 12 0). rewrite Open_Seal; [done|].
  by rewrite length_nonce_at.
Qed.

End FindLemmas.

(** ** Properties *)

(** The key search, on every stream.  It needs 50 bytes and never slices
    beyond them; with fewer it fails and touches nothing.  It settles on the
    first entry of the client's snapshot under which the size block of the
    first chunk authenticates, moves that entry to the front, and returns the
    salt and a reader that still delivers every byte of the stream; if no entry
    authenticates it reports so. *)
Theorem findAccessKey_spec `{CryptoLaws} (R : Type) `{ReaderLaws R} (r : R) (ip : IP)
    (t : Z) (cl : cipherList) :
  wf_entries cl ->
  (length (rd_bytes r) < bytesForKeyFinding ->
   exists r', findAccessKey r ip t cl =
     Ret (KeyError r' 0
       (errHeader (length (rd_bytes r)) (short_error (rd_bytes r) (rd_end r))) "", cl)) /\
  (bytesForKeyFinding <= length (rd_bytes r) ->
   let fb := take bytesForKeyFinding (rd_bytes r) in
   (exists r' e es1 es2,
      search_order cl ip = es1 ++ e :: es2 /\
      Forall (fun x => authenticates fb x = false) es1 /\ authenticates fb e = true /\
      findAccessKey r ip t cl =
        Ret (KeyFound e (fb, r') (take (SaltSize (eCipher e)) (rd_bytes r)) t (ID e),
             MarkUsedByClientIP e ip cl) /\
      rd_bytes (fb, r') = rd_bytes r /\ rd_end (fb, r') = rd_end r) \/
   (Forall (fun x => authenticates fb x = false) (search_order cl ip) /\
    exists r', findAccessKey r ip t cl = Ret (KeyError r' t errNoCipher "", cl))).
Proof.
  intros Hwf. destruct (findAccessKey_eq r ip t cl Hwf) as [r' Hf]. split.
  - intros Hl. rewrite decide_True in Hf by done. destruct Hf as (E & _). eauto.
  - intros Hl fb. rewrite decide_False in Hf by lia. destruct Hf as (Hb & He & Hf).
    fold fb in Hf. destruct (first_auth fb _) as [e|] eqn:Ef.
    + left. apply first_auth_Some in Ef as (es1 & es2 & Eo & Ha & Hn).
      exists r', e, es1, es2. split_and!; [done..| |done]. simpl.
      unfold fb. by rewrite Hb, firstn_skipn.
    + right. apply first_auth_None in Ef. eauto.
Qed.

(** The 50 bytes of [bytesForKeyFinding] lie between what the search needs
    and what every valid client sends: no cipher needs more to authenticate its
    first size block, and a stream with any first chunk, even of one byte, has
    that many bytes and authenticates under its key. *)
Theorem key_finding_bounds `{CryptoLaws} (e : CipherEntry) (a : AEAD)
    (salt p : bytes) (chunks : list bytes) :
  wf_cipher (eCipher e) -> NewAEAD (eCipher e) salt = Ret a ->
  length salt = SaltSize (eCipher e) -> 0 < length p ->
  SaltSize (eCipher e) + 2 + TagSize (eCipher e) <= bytesForKeyFinding /\
  bytesForKeyFinding <= SaltSize (eCipher e) + 2 + 2 * TagSize (eCipher e) /\
  SaltSize (eCipher e) + 2 + 2 * TagSize (eCipher e) <=
    length (concat (packets a salt (p :: chunks))) /\
  authenticates (take bytesForKeyFinding (concat (packets a salt (p :: chunks)))) e = true.
Proof.
  intros Hwf HN Hl Hp. destruct (wf_cipher_sizes _ Hwf) as [Ht Hs].
  destruct (NewAEAD_ok _ salt Hwf) as (a' & HN' & Hlaws & Hns & Hov).
  rewrite HN in HN'. simplify_eq.
  destruct (authenticates_packets e a' salt p chunks Hwf HN Hl Hp) as [_ Ha].
  rewrite Ht. split_and!; [unfold bytesForKeyFinding; lia..| |exact Ha].
  rewrite concat_packets, decide_False by done. cbn [wire].
  rewrite !length_app, length_frame by exact Hlaws. lia.
Qed.

(** ** The theorems at a concrete input

    A list of three keys; the stream is written with the third. *)
Definition demo_entry (k : nat) (st : string) : CipherEntry :=
  MakeCipherEntry k st (toy_cipher_of "chacha20-ietf-poly1305" st) st.

Definition demo_keys : cipherList :=
  MkList [demo_entry 0 "alice"; demo_entry 1 "bob"; demo_entry 2 "carol"] ∅.

Lemma demo_keys_wf : wf_entries demo_keys.
Proof.
  unfold wf_entries, demo_keys. simpl order. rewrite !Forall_cons, Forall_nil.
  split_and!; try done.
  - by apply (NewCipher_wf "chacha20-ietf-poly1305" "alice").
  - by apply (NewCipher_wf "chacha20-ietf-poly1305" "bob").
  - by apply (NewCipher_wf "chacha20-ietf-poly1305" "carol").
Qed.

Definition demo_client_salt : bytes := expand 11 32.

Definition demo_client_aead : AEAD :=
  match NewAEAD (eCipher (demo_entry 2 "carol")) demo_client_salt with
  | Ret a => a
  | _ => MkAEAD 0 0 (fun _ _ => []) (fun _ _ => None)
  end.

Definition demo_stream : bytes :=
  concat (packets demo_client_aead demo_client_salt [string_bytes "hello"]).

Lemma findAccessKey_spec_witness :
  exists r' e,
    findAccessKey (MkConn [take 7 demo_stream; drop 7 demo_stream] EOF false)
      (Some (octet_list [192; 0; 2; 1]%Z)) 5 demo_keys =
      Ret (KeyFound e (take 50 demo_stream, r') demo_client_salt 5 "carol",
           MarkUsedByClientIP e (Some (octet_list [192; 0; 2; 1]%Z)) demo_keys).
Proof.
  destruct (findAccessKey_spec Conn (MkConn [take 7 demo_stream; drop 7 demo_stream] EOF false)
    (Some (octet_list [192; 0; 2; 1]%Z)) 5 demo_keys demo_keys_wf) as [_ Hf].
  destruct Hf as [(r' & e & es1 & es2 & Eo & Hn & Ha & E & _)|[Hn _]].
  - vm_compute. lia.
  - exists r', e. rewrite E.
    assert (e = demo_entry 2 "carol") as ->.
    { clear E. destruct es1 as [|x1 [|x2 [|x3 es1]]]; inversion Eo; subst.
      - vm_compute in Ha. discriminate Ha.
      - vm_compute in Ha. discriminate Ha.
      - reflexivity.
      - destruct es1; discriminate. }
    replace (rd_bytes _) with demo_stream by (vm_compute; reflexivity).
    replace (take (SaltSize _) demo_stream) with demo_client_salt
      by (vm_compute; reflexivity).
    reflexivity.
  - apply List.Forall_inv_tail, List.Forall_inv_tail, List.Forall_inv in Hn.
    vm_compute in Hn. discriminate Hn.
Defined.

Lemma key_finding_bounds_witness :
  authenticates (take bytesForKeyFinding demo_stream) (demo_entry 2 "carol") = true.
Proof.
  destruct (key_finding_bounds (demo_entry 2 "carol") demo_client_aead demo_client_salt
    (string_bytes "hello") []) as (_ & _ & _ & Ha).
  - by apply (NewCipher_wf "chacha20-ietf-poly1305" "carol").
  - reflexivity.
  - vm_compute. reflexivity.
  - vm_compute. lia.
  - exact Ha.
Defined.
