(* ===== verification/TestHelpers.v ===== *)
(** * Test helpers

    The helpers the repository's tests share: [MakeTestSecrets] and
    [MakeTestPayload] of [shadowsocks/cipher_testing.go], [MakeTestCiphers] of
    [service/cipher_list_testing.go] and [makeTestCipher] of
    [shadowsocks/client/client_testing.go].  The lists they make are the ones
    the theorems are about: every key usable, in order. *)
From stdpp Require Import pretty.
From S2P Require Import Prelude GoIO Cipher ToyCrypto Salt CipherList KeyFinding.

Definition TestCipher : string := "chacha20-ietf-poly1305".

Definition MakeTestSecrets (n : nat) : list string :=
  (fun i => "secret-" +:+ pretty i) <$> seq 0 n.

Definition MakeTestPayload (size : nat) : bytes := (fun i => byte_of_Z (Z.of_nat i)) <$> seq 0 size.

Section Ciphers.
Context `{CryptoOps}.

Definition makeTestCipher : outcome Cipher := NewCipher TestCipher "testPassword".

(** The loop of [MakeTestCiphers]; the elements pushed are numbered by [next]. *)
Fixpoint test_entries (i next : nat) (secrets : list string) (l : list CipherEntry) :
    outcome (list CipherEntry) :=
  match secrets with
  | [] => Ret l
  | secret :: secrets =>
    let cipherID := "id-" +:+ pretty i in
    match NewCipher TestCipher secret with
    | Err err => Err (Wrapf "Failed to create cipher" err)
    | Panic m => Panic m
    | Ret cipher =>
      test_entries (S i) (S next) secrets (l ++ [MakeCipherEntry next cipherID cipher secret])
    end
  end.

Definition MakeTestCiphers (next : nat) (secrets : list string) : outcome cipherList :=
  l ← test_entries 0 next secrets [];
  Ret (Update l NewCipherList).

End Ciphers.

Section Laws.
Context `{CryptoLaws}.

Lemma TestCipher_ok secret : exists c, NewCipher TestCipher secret = Ret c /\ wf_cipher c.
Proof.
  assert (exists spec, getAEADSpec TestCipher = Ret spec) as [spec Hs].
  { unfold getAEADSpec. destruct supportedAEADs_eq as (_ & -> & _). eexists. reflexivity. }
  eexists. assert (NewCipher TestCipher secret = Ret _) as E
    by (unfold NewCipher; rewrite Hs; reflexivity).
  split; [exact E|]. by apply (NewCipher_wf TestCipher secret).
Qed.

(** The entry of the secret number [i]. *)
Definition test_entry (next : nat) (i : nat) (secret : string) (e : CipherEntry) : Prop :=
  ID e = "id-" +:+ pretty i /\ loc e = next + i /\ NewCipher TestCipher secret = Ret (eCipher e) /\
  wf_cipher (eCipher e).

Lemma test_entries_spec secrets : forall i next l,
  exists es, test_entries i (next + i) secrets l = Ret (l ++ es) /\
    Forall2 (fun '(j, secret) e => test_entry next j secret e)
      (zip (seq i (length secrets)) secrets) es.
Proof.
  induction secrets as [|secret secrets IH]; intros i next l.
  { exists []. by rewrite app_nil_r. }
  cbn [test_entries length seq zip zip_with]. destruct (TestCipher_ok secret) as (c & E & Hwf). rewrite E.
  destruct (IH (S i) next (l ++ [MakeCipherEntry (next + i) ("id-" +:+ pretty i) c secret]))
    as (es & Es & Hes).
  rewrite Nat.add_succ_r in Es. eexists. split; [rewrite Es, <- app_assoc; reflexivity|].
  constructor; [|exact Hes]. by split_and!.
Qed.

(** Whatever the secrets, the list is made: one usable key for each, in order,
    named after its position. *)
Lemma MakeTestCiphers_ok next secrets :
  exists cl, MakeTestCiphers next secrets = Ret cl /\ wf_entries cl /\ lastClientIP cl = ∅ /\
    Forall2 (fun '(j, secret) e => test_entry next j secret e)
      (zip (seq 0 (length secrets)) secrets) (order cl).
Proof.
  destruct (test_entries_spec secrets 0 next []) as (es & E & Hes). rewrite Nat.add_0_r in E.
  unfold MakeTestCiphers. rewrite E. eexists. split; [reflexivity|]. split_and!; [|done|exact Hes].
  unfold wf_entries. simpl. clear E. induction Hes as [|[j st] e xs es (_ & _ & _ & Hwf) _ IH];
    by constructor.
Qed.

End Laws.

Lemma MakeTestSecrets_length n : length (MakeTestSecrets n) = n.
Proof. unfold MakeTestSecrets. by rewrite length_fmap, length_seq. Qed.

(** The secrets differ. *)
Lemma MakeTestSecrets_NoDup n : NoDup (MakeTestSecrets n).
Proof.
  unfold MakeTestSecrets. apply NoDup_fmap_2; [|apply NoDup_seq].
  intros i j E. by apply (inj (String.app "secret-")), (inj pretty) in E.
Qed.

(** The payload counts up and wraps after 256 bytes. *)
Lemma MakeTestPayload_lookup n i :
  i < n -> byte_to_Z <$> MakeTestPayload n !! i = Some (Z.of_nat i mod 256)%Z.
Proof.
  intros Hi. unfold MakeTestPayload. rewrite list_lookup_fmap, lookup_seq_lt by done.
  cbn [fmap option_fmap option_map Nat.add]. by rewrite byte_to_of_Z.
Qed.
