(* ===== verification/Tcp.v ===== *)
(** * The TCP connection handler

    [handleConnection], [absorbProbe], [drainErrToString] and [dialTarget] of
    [service/tcp.go].  What the handler does to the outside is a list of
    events; the bytes it exchanges with the client and the target are in the
    final states of the two connections. *)
From S2P Require Import Prelude GoIO Cipher Salt Wire SlicePool Writer.
From S2P Require Import StreamReader Replay PrivateNet CipherList Metrics.
From S2P Require Import KeyFinding.

(** ** [go-shadowsocks2/socks]

    [ReadAddr] reads an address from an [io.Reader]; it is outside the
    repository, and polymorphic in the reader it is given. *)
Class SocksOps := {
  ReadAddr : forall S : Type, (S -> nat -> outcome bytes * S) -> S -> outcome bytes * S;
  AddrString : bytes -> string;
}.

(** [D s data] holds when [s] still delivers [data]: a read of at least one
    byte gives a nonempty prefix. *)
Definition feeds {S : Type} (read : S -> nat -> outcome bytes * S)
    (D : S -> bytes -> Prop) : Prop :=
  forall s n data, D s data -> 0 < n -> data <> [] ->
    exists d rest s', read s n = (Ret d, s') /\ data = d ++ rest /\ d <> [] /\
      length d <= n /\ D s' rest.

(** An address is read from the bytes that encode it, and nothing after
    them; [ReadAddr] fails only with an error, whatever the reader does. *)
Class SocksLaws `{SocksOps} (is_addr : bytes -> Prop) : Prop := {
  is_addr_nonempty a : is_addr a -> a <> [];
  ReadAddr_ok S read (D : S -> bytes -> Prop) s a rest :
    feeds read D -> is_addr a -> D s (a ++ rest) ->
    exists s', ReadAddr S read s = (Ret a, s') /\ D s' rest;
  ReadAddr_inv S read (I : S -> Prop) s :
    (forall s n, I s -> (forall m, fst (read s n) <> Panic m) /\ I (snd (read s n))) ->
    I s -> (forall m, fst (ReadAddr S read s) <> Panic m) /\ I (snd (ReadAddr S read s));
}.

(** ** Events *)

Inductive event :=
| SetKeepAlive
| SetReadDeadline (d : Z)
| ClearReadDeadline
| AddTCPProbe (status drainResult : string) (port : Z) (data : ProxyMetrics)
| AddWwwRepo (host unid uip : string) (status isUdp : Z)
| Dial (address : string)
| AddRepo (uid : string) (U D : Z)
| ClientCloseRead
| ClientCloseWrite
| TargetCloseRead
| TargetCloseWrite
| TargetClose
| AddClosedTCPConnection (accessKey status : string) (data : ProxyMetrics)
    (timeToCipher duration : Z)
| ClientClose.

(** ** [drainErrToString] *)

(** A [net.Error] whose [Timeout()] is true is [ErrTimeout]. *)
Definition drainErrToString (drainErr : option error) : string :=
  match drainErr with
  | None => "eof"
  | Some ErrTimeout => "timeout"
  | Some _ => "other"
  end.

(** ** [dialTarget] *)

Section Dial.
Context {T : Type}.

(** What the dialer does for one candidate address if [Control] lets it: a
    connection, with its reading and writing halves, or an error. *)
Record attempt := MkAttempt { at_ip : IP; at_outcome : (T * Sink) + error }.

(** [dialer.Dial]: [Control] is called for the candidates in the order given,
    and overwrites [ipError] each time; a candidate it refuses is not
    connected.  Addresses of the two families are dialed concurrently, so
    candidates may follow the one that connects. *)
Fixpoint Dial_loop (v : TargetIPValidator) (attempts : list attempt)
    (won : option (T * Sink)) (ipError : option ConnectionError)
    (first : option error)
    : option (T * Sink) * option ConnectionError * option error :=
  match attempts with
  | [] => (won, ipError, first)
  | a :: attempts =>
    let keep e := match first with Some _ => first | None => Some e end in
    match v (at_ip a) with
    | Some ce => Dial_loop v attempts won (Some ce) (keep (Errorf (Message ce)))
    | None =>
      match at_outcome a with
      | inl c =>
        Dial_loop v attempts (match won with Some _ => won | None => Some c end) None first
      | inr e => Dial_loop v attempts won None (keep e)
      end
    end
  end.

(** [attempts] and [noAddr], the error when there is no candidate, are what the
    dialer finds for the address. *)
Definition dialTarget (v : TargetIPValidator) (attempts : list attempt) (noAddr : error)
    : (T * Sink) + ConnectionError :=
  let '(tgtConn, ipError, err) := Dial_loop v attempts None None None in
  match ipError with
  | Some ce => inr ce
  | None =>
    match tgtConn with
    | Some c => inl c
    | None =>
      inr (NewConnectionError "ERR_CONNECT" "Failed to connect to target"
             (Some (default noAddr err)))
    end
  end.

End Dial.
Arguments attempt : clear implicits.

(** ** The service *)

Record tcpService := MkTcpService {
  ciphers : cipherList;
  replayCache : option ReplayCache;
  targetIPValidator : TargetIPValidator;
  readTimeout : Z;
}.

Definition NewTCPService (ip_String : IP -> string) (ciphers : cipherList)
    (replayCache : option ReplayCache) (timeout : Z) : tcpService :=
  MkTcpService ciphers replayCache (RequirePublicIP ip_String) timeout.

Definition SetTargetIPValidator (v : TargetIPValidator) (s : tcpService) : tcpService :=
  MkTcpService (ciphers s) (replayCache s) v (readTimeout s).

(** What a connection meets: its addresses, the clock, the dialer, randomness,
    the state of the buffer pool, and the scheduling of the two relay
    goroutines. *)
Record conn_env (T : Type) := MkEnv {
  remoteIP : IP;
  remoteAddr : string;
  connStart : Z;
  searchTime : Z;
  connDuration : Z;
  dialer : string -> list (attempt T) * error;
  env_entropy : bytes;
  env_pool : list (option nat);
  env_sched : list bool;
}.
Arguments remoteIP {T}.
Arguments remoteAddr {T}.
Arguments connStart {T}.
Arguments searchTime {T}.
Arguments connDuration {T}.
Arguments dialer {T}.
Arguments env_entropy {T}.
Arguments env_pool {T}.
Arguments env_sched {T}.

(** An interleaving of two sequences: [true] takes from the first. *)
Fixpoint interleave {A} (sched : list bool) (xs ys : list A) : list A :=
  match sched, xs, ys with
  | true :: sched, x :: xs, ys => x :: interleave sched xs ys
  | false :: sched, xs, y :: ys => y :: interleave sched xs ys
  | _, xs, ys => xs ++ ys
  end.

Definition bytes_written (s : Sink) : Z := Z.of_nat (length (concat (written s))).

Section Handler.
Context `{CryptoOps} `{SocksOps} {R : Type} `{Reader R} {T : Type} `{Reader T}.

(** What the handler leaves: the service's shared state, the client connection
    and what was written to it, the target connection if there was one, the
    result of the inner function, and the events. *)
Record handled := MkHandled {
  h_service : tcpService;
  h_client : measuredConn R;
  h_client_out : Sink;
  h_target : option (measuredConn T * Sink);
  h_error : option ConnectionError;
  h_events : list event;
}.

(** [proxyMetrics] at some moment; the counters of the writing halves are the
    bytes written since [MeasureConn]. *)
Definition proxyMetrics (client : measuredConn R) (client_out : Sink)
    (target : option (measuredConn T * Sink)) : ProxyMetrics :=
  MkPM (readCount client)
    (match target with Some (_, w) => int64 (bytes_written w) | None => 0 end)
    (match target with Some (t, _) => readCount t | None => 0 end)
    (int64 (bytes_written client_out)).

(** [absorbProbe]: read until the client gives up or the deadline passes,
    then report the probe. *)
Definition absorbProbe (listenerPort : Z) (client : measuredConn R) (client_out : Sink)
    (status : string) : list event * measuredConn R :=
  let '(_, drainErr, client) := measuredConn_Discard client in
  ([AddTCPProbe status (drainErrToString drainErr) listenerPort
      (proxyMetrics client client_out None)], client).

(** [ssr] as the reader that [socks.ReadAddr] is given. *)
Definition ssr_Read (s : Pool * readConverter.t (bytes * measuredConn R)) (n : nat)
    : outcome bytes * (Pool * readConverter.t (bytes * measuredConn R)) :=
  let '(o, p, c) := readConverter.Read (fst s) (snd s) n in (o, (p, c)).

(** The client connection under [ssr]. *)
Definition ssr_conn (c : readConverter.t (bytes * measuredConn R)) : measuredConn R :=
  snd (chunkReader.reader (readConverter.cr c)).

(** The goroutine that relays from the client, after [WriteTo]. *)
Definition fromClient (uid : string) (p : Pool)
    (ssr : readConverter.t (bytes * measuredConn R)) (tgt_out : Sink)
    : outcome (option error * list event * measuredConn R * Sink) :=
  match readConverter.WriteTo p ssr tgt_out with
  | (Panic s, _, _, _) => Panic s
  | (Err e, _, c, w) => Ret (Some e, [], ssr_conn c, w)
  | (Ret (i, fromClientErr), _, c, w) =>
    let client := ssr_conn c in
    let client :=
      match fromClientErr with
      | Some _ => snd (measuredConn_Discard client)
      | None => client
      end in
    Ret (fromClientErr,
         [AddRepo uid (Z.of_nat i) 0; ClientCloseRead; TargetCloseWrite], client, w)
  end.

(** The other direction, in the handler's own goroutine. *)
Definition fromTarget (uid : string) (entry : CipherEntry) (ent : bytes)
    (client_out : Sink) (tgt : measuredConn T)
    : outcome (option error * list event * Sink * measuredConn T) :=
  let ssw := Writer.SetSaltGenerator (server_gen (eSaltGenerator entry))
               (Writer.NewShadowsocksWriter client_out (eCipher entry) ent) in
  match Writer.ReadFrom Writer.NoFlush ssw tgt with
  | (Panic s, _, _) => Panic s
  | (Err e, sw, tgt) => Ret (Some e, [], Writer.writer sw, tgt)
  | (Ret (ri, fromTargetErr), sw, tgt) =>
    Ret (fromTargetErr,
         [AddRepo uid 0 (Z.of_nat ri); ClientCloseWrite; TargetCloseRead],
         Writer.writer sw, tgt)
  end.

(** The end of the inner function: both directions, then the wait for the
    client's. *)
Definition relay (env : conn_env T) (uid : string) (entry : CipherEntry) (p : Pool)
    (ssr : readConverter.t (bytes * measuredConn R)) (client_out : Sink)
    (tgt : T * Sink)
    : outcome (measuredConn R * Sink * (measuredConn T * Sink) *
               option ConnectionError * list event) :=
  '(fromClientErr, ev1, client, tgt_out) ← fromClient uid p ssr (snd tgt);
  '(fromTargetErr, ev2, client_out, tgt_in) ←
     fromTarget uid entry (env_entropy env) client_out (MkMeasured (fst tgt) 0);
  let connError :=
    match fromClientErr, fromTargetErr with
    | Some e, _ =>
      Some (NewConnectionError "ERR_RELAY_CLIENT" "Failed to relay traffic from client" (Some e))
    | None, Some e =>
      Some (NewConnectionError "ERR_RELAY_TARGET" "Failed to relay traffic from target" (Some e))
    | None, None => None
    end in
  Ret (client, client_out, (tgt_in, tgt_out), connError,
       interleave (env_sched env) ev1 ev2 ++ [TargetClose]).

(** The inner function of [handleConnection] once a key is found and the salt
    is fresh. *)
Definition serve (env : conn_env T) (s : tcpService) (entry : CipherEntry) (uid : string)
    (clientReader : bytes * measuredConn R) (client_out : Sink) : outcome handled :=
  let ssr := readConverter.NewShadowsocksReader clientReader (eCipher entry) in
  let '(addr, (p, ssr)) :=
    ReadAddr _ ssr_Read (readBufPool (env_pool env), ssr) in
  match addr with
  | Panic m => Panic m
  | Err e =>
    let '(_, _, client) := measuredConn_Discard (ssr_conn ssr) in
    Ret (MkHandled s client client_out None
      (Some (NewConnectionError "ERR_READ_ADDRESS" "Failed to get target address" (Some e)))
      [ClearReadDeadline])
  | Ret tgtAddr =>
    let host := AddrString tgtAddr in
    let ev := [ClearReadDeadline; AddWwwRepo host uid (remoteAddr env) 1 0; Dial host] in
    let '(attempts, noAddr) := dialer env host in
    match dialTarget (targetIPValidator s) attempts noAddr with
    | inr dialErr => Ret (MkHandled s (ssr_conn ssr) client_out None (Some dialErr) ev)
    | inl tgtConn =>
      '(client, client_out, tgt, connError, ev') ←
         relay env uid entry p ssr client_out tgtConn;
      Ret (MkHandled s client client_out (Some tgt) connError (ev ++ ev'))
    end
  end.

(** The whole inner function. *)
Definition connError (listenerPort : Z) (env : conn_env T) (s : tcpService)
    (key : key_result (measuredConn R)) (client_out : Sink) : outcome handled :=
  match key with
  | KeyError client _ keyErr _ =>
    let status := "ERR_CIPHER" in
    let '(ev, client) := absorbProbe listenerPort client client_out status in
    Ret (MkHandled s client client_out None
      (Some (NewConnectionError status "Failed to find a valid cipher" (Some keyErr))) ev)
  | KeyFound entry clientReader clientSalt _ uid =>
    let isServerSalt := IsServerSalt (eSaltGenerator entry) clientSalt in
    let '(fresh, cache) :=
      if isServerSalt then (false, replayCache s)
      else Add (replayCache s) (string_bytes (ID entry)) clientSalt in
    let s := MkTcpService (ciphers s) cache (targetIPValidator s) (readTimeout s) in
    if isServerSalt || negb fresh then
      let status := if isServerSalt then "ERR_REPLAY_SERVER" else "ERR_REPLAY_CLIENT" in
      let '(ev, client) := absorbProbe listenerPort (snd clientReader) client_out status in
      Ret (MkHandled s client client_out None
        (Some (NewConnectionError status "Replay detected" None)) ev)
    else serve env s entry uid clientReader client_out
  end.

Definition key_id (key : key_result (measuredConn R)) : string :=
  match key with KeyError _ _ _ _ => "" | KeyFound entry _ _ _ _ => ID entry end.

Definition key_time (key : key_result (measuredConn R)) : Z :=
  match key with KeyError _ t _ _ => t | KeyFound _ _ _ t _ => t end.

Definition status_of (e : option ConnectionError) : string :=
  match e with None => "OK" | Some e => Status e end.

(** [handleConnection], for a client whose connection is [client] to read from
    and [client_out] to write to. *)
Definition handleConnection (listenerPort : Z) (env : conn_env T) (s : tcpService)
    (client : R) (client_out : Sink) : outcome handled :=
  let clientConn := MkMeasured client 0 in
  '(key, cl) ← findAccessKey clientConn (remoteIP env) (searchTime env) (ciphers s);
  let s := MkTcpService cl (replayCache s) (targetIPValidator s) (readTimeout s) in
  h ← connError listenerPort env s key client_out;
  Ret (MkHandled (h_service h) (h_client h) (h_client_out h) (h_target h) (h_error h)
    ([SetKeepAlive; SetReadDeadline (connStart env + readTimeout s)] ++ h_events h ++
     [AddClosedTCPConnection (key_id key) (status_of (h_error h))
        (proxyMetrics (h_client h) (h_client_out h) (h_target h))
        (key_time key) (connDuration env);
      ClientClose])).

End Handler.
