(* ===== verification/TcpSpec.v ===== *)
(** * What the TCP handler guarantees

    Theorems about [Tcp.handleConnection]: what a probe sees, what a valid
    client gets, and which targets are ever contacted. *)
From S2P Require Import Prelude GoIO Cipher ToyCrypto Salt Wire SlicePool Writer.
From S2P Require Import StreamReader Stream Replay PrivateNet CipherList Metrics.
From S2P Require Import KeyFinding Tcp.

(** ** Dialing *)

Section DialLemmas.
Context {T : Type}.
Implicit Types (attempts : list (attempt T)) (v : TargetIPValidator).

(** The connection comes from a candidate the validator accepted. *)
Definition accepted v attempts (c : T * Sink) : Prop :=
  exists a, a ∈ attempts /\ v (at_ip a) = None /\ at_outcome a = inl c.

Lemma Dial_loop_won v attempts : forall won ipError first c,
  fst (fst (Dial_loop v attempts won ipError first)) = Some c ->
  won = Some c \/ accepted v attempts c.
Proof.
  induction attempts as [|a l IH]; intros won ipe first c; [by left|].
  cbn [Dial_loop]. intros Hd.
  assert (forall c', accepted v l c' -> accepted v (a :: l) c') as Hcons.
  { intros c' (b & Hb & ?). exists b. split; [by right|done]. }
  destruct (v (at_ip a)) as [ce|] eqn:Hv; [|destruct (at_outcome a) as [c'|e] eqn:Ho].
  - apply IH in Hd as [?|?]; auto.
  - apply IH in Hd as [E|?]; [|auto]. destruct won as [w|]; [by left|].
    injection E as ->. right. exists a. split; [left|done].
  - apply IH in Hd as [?|?]; auto.
Qed.

(** [ipError] is the verdict on the last candidate. *)
Lemma Dial_loop_ipError v attempts : forall won ipError first,
  snd (fst (Dial_loop v attempts won ipError first)) =
    match last attempts with Some a => v (at_ip a) | None => ipError end.
Proof.
  induction attempts as [|a l IH]; intros won ipe first; [done|].
  cbn [Dial_loop]. rewrite last_cons.
  destruct (v (at_ip a)) as [ce|] eqn:Hv; [|destruct (at_outcome a)];
    rewrite IH; by destruct (last l).
Qed.

Lemma dialTarget_accepted v attempts noAddr c :
  dialTarget v attempts noAddr = inl c -> accepted v attempts c.
Proof.
  unfold dialTarget. pose proof (Dial_loop_won v attempts None None None) as Hw.
  destruct (Dial_loop v attempts None None None) as [[won ipe] err].
  destruct ipe; [done|]. destruct won as [c'|]; [|done]. intros [= ->].
  by destruct (Hw c eq_refl).
Qed.

(** Two lists of candidates that differ at most in what connecting to the refused
    ones would give. *)
Definition same_accepted v attempts attempts' : Prop :=
  Forall2 (fun a a' => at_ip a = at_ip a' /\ (v (at_ip a) = None -> a = a')) attempts attempts'.

Lemma Dial_loop_same v attempts attempts' : same_accepted v attempts attempts' ->
  forall won ipError first,
  Dial_loop v attempts won ipError first = Dial_loop v attempts' won ipError first.
Proof.
  induction 1 as [|a a' l l' [Hip Ha] _ IH]; intros won ipe first; [done|]. cbn [Dial_loop].
  rewrite <- Hip. destruct (v (at_ip a)) as [ce|] eqn:Hv; [apply IH|].
  rewrite <- (Ha eq_refl). destruct (at_outcome a); apply IH.
Qed.

Lemma dialTarget_same v attempts attempts' noAddr :
  same_accepted v attempts attempts' ->
  dialTarget v attempts noAddr = dialTarget v attempts' noAddr.
Proof. intros Ha. unfold dialTarget. by rewrite (Dial_loop_same v attempts attempts' Ha). Qed.

(** Nothing is dialed after a candidate that connects. *)
Fixpoint sequential v attempts : bool :=
  match attempts with
  | [] => true
  | a :: l =>
    match v (at_ip a), at_outcome a with
    | None, inl _ => bool_decide (length l = 0)
    | _, _ => sequential v l
    end
  end.

Lemma Dial_loop_sequential v attempts : forall ipError first c,
  sequential v attempts = true -> accepted v attempts c ->
  exists first', Dial_loop v attempts None ipError first = (Some c, None, first').
Proof.
  induction attempts as [|a l IH]; intros ipe first c Hs (b & Hb & Hv & Ho).
  { by apply not_elem_of_nil in Hb. }
  cbn [Dial_loop]. simpl in Hs. apply elem_of_cons in Hb.
  destruct (v (at_ip a)) as [ce|] eqn:Hva.
  - destruct Hb as [->|Hb]; [congruence|]. apply IH; [done|by exists b].
  - destruct (at_outcome a) as [c'|e] eqn:Hoa.
    + apply bool_decide_eq_true, nil_length_inv in Hs. subst l.
      destruct Hb as [->|Hb]; [|by apply not_elem_of_nil in Hb].
      rewrite Hoa in Ho. injection Ho as ->. simpl. eauto.
    + destruct Hb as [->|Hb]; [congruence|]. apply IH; [done|by exists b].
Qed.

End DialLemmas.

(** A proxied connection only ever goes to an address the validator
    accepted, however the name resolves; when candidates are dialed one after
    the other, an accepted candidate that connects is used; and with the
    default validator the address used is public. *)
Theorem dialTarget_safe (T : Type) (v : TargetIPValidator) (attempts : list (attempt T))
    (noAddr : error) :
  (forall c, dialTarget v attempts noAddr = inl c ->
     exists a, a ∈ attempts /\ at_outcome a = inl c /\ v (at_ip a) = None /\
       forall str, v = RequirePublicIP str -> address_status (octets (at_ip a)) = None) /\
  (forall c, sequential v attempts = true -> accepted v attempts c ->
     dialTarget v attempts noAddr = inl c) /\
  ((forall a, a ∈ attempts -> exists ce, v (at_ip a) = Some ce) -> attempts <> [] ->
     exists a, last attempts = Some a /\
       dialTarget v attempts noAddr = inr (default (NewConnectionError "" "" None) (v (at_ip a)))).
Proof.
  split_and!.
  - intros c Hd. apply dialTarget_accepted in Hd as (a & Ha & Hv & Ho).
    exists a. split_and!; [done..|]. intros str ->.
    destruct (public_ip_status str (at_ip a)) as [<- _]. by rewrite Hv.
  - intros c Hs Ha. unfold dialTarget.
    by destruct (Dial_loop_sequential v attempts None None c Hs Ha) as [first' ->].
  - intros Hall Hne. destruct (last attempts) as [a|] eqn:Hl; [|by apply last_None in Hl].
    exists a. split; [done|]. unfold dialTarget.
    pose proof (Dial_loop_ipError v attempts None None None) as Hi. rewrite Hl in Hi.
    destruct (Dial_loop v attempts None None None) as [[won ipe] err]. simpl in Hi. subst ipe.
    destruct (Hall a) as [ce ->]; [by apply last_Some_elem_of|done].
Qed.

(** Two candidates of one name dialed concurrently: the public one connects,
    the verdict on the private one is written last, and the caller gets the
    verdict; the connection is dropped without being closed. *)
Lemma dial_race_leak :
  let v := RequirePublicIP (fun _ => "") in
  let public := MkAttempt (Some (octet_list [8; 8; 8; 8]%Z)) (inl (tt, MkSink [] [])) in
  let private := MkAttempt (Some (octet_list [10; 0; 0; 1]%Z)) (inr EOF) in
  (exists e, dialTarget v [public; private] EOF = inr e /\
     Status e = "ERR_ADDRESS_PRIVATE") /\
  accepted v [public; private] (tt, MkSink [] []).
Proof.
  simpl. split; [eexists; split; vm_compute; reflexivity|].
  eexists. split; [left|]. vm_compute. done.
Qed.

(** ** Probes *)

Section Probes.
Context `{CryptoLaws} `{SocksOps} {R : Type} `{ReaderLaws R} {T : Type} `{ReaderLaws T}.
Implicit Types (env : conn_env T) (s : tcpService) (client : R) (client_out : Sink).

(** Why a stream is turned away before anything of it is believed: the status,
    the id and the search time reported. *)
Definition rejection env s (stream : bytes) : option (string * string * Z) :=
  if decide (length stream < bytesForKeyFinding) then Some ("ERR_CIPHER", "", 0%Z)
  else
    match first_auth (take bytesForKeyFinding stream)
            (search_order (ciphers s) (remoteIP env)) with
    | None => Some ("ERR_CIPHER", "", searchTime env)
    | Some e =>
      let salt := take (SaltSize (eCipher e)) stream in
      if IsServerSalt (eSaltGenerator e) salt
      then Some ("ERR_REPLAY_SERVER", ID e, searchTime env)
      else if fst (Add (replayCache s) (string_bytes (ID e)) salt) then None
      else Some ("ERR_REPLAY_CLIENT", ID e, searchTime env)
    end.

(** The connection under the reader a search returns. *)
Definition key_conn {R'} (key : key_result R') : R' :=
  match key with KeyError c _ _ _ => c | KeyFound _ c _ _ _ => snd c end.

Lemma findAccessKey_reads (c : measuredConn R) ip t cl key cl' :
  findAccessKey c ip t cl = Ret (key, cl') -> reads c (key_conn key).
Proof.
  unfold findAccessKey. rewrite Snapshot_eq. cbn [mbind outcome_bind].
  destruct (ReadFull c bytesForKeyFinding) as [[fb e] c1] eqn:Er.
  apply ReadFull_reads in Er. destruct e as [x|]; [by intros [= <- <-]|].
  destruct (findEntry _ _) as [[[en|] id]| |]; cbn [mbind outcome_bind]; try done;
    by intros [= <- <-].
Qed.

Lemma findAccessKey_account (c : measuredConn R) ip t cl key cl' :
  findAccessKey c ip t cl = Ret (key, cl') -> account (key_conn key) = account c.
Proof. intros E. by apply account_reads, (findAccessKey_reads _ _ _ _ _ _ E). Qed.

(** The counts when a connection was drained and nothing was sent. *)
Definition drained_metrics (stream : bytes) (client_out : Sink) : ProxyMetrics :=
  MkPM (int64 (Z.of_nat (length stream))) 0 0 (int64 (bytes_written client_out)).

Lemma absorbProbe_eq port (c : measuredConn R) client client_out st :
  rd_end c = rd_end client -> account c = int64 (Z.of_nat (length (rd_bytes client))) ->
  exists c', absorbProbe (T := T) port c client_out st =
    ([AddTCPProbe st
        (drainErrToString (if decide (rd_end client = EOF) then None else Some (rd_end client)))
        port (drained_metrics (rd_bytes client) client_out)], c') /\
    rd_bytes c' = [] /\
    proxyMetrics (T := T) c' client_out None = drained_metrics (rd_bytes client) client_out.
Proof.
  intros Hend Hacc. unfold absorbProbe, proxyMetrics, drained_metrics.
  destruct (Discard_spec c) as (c' & -> & Hb & He & Hk).
  exists c'. by rewrite Hk, Hacc, Hend.
Qed.

(** The events of a turned away connection. *)
Definition probe_events env s (port : Z) (stream : bytes) (fin : error) (client_out : Sink)
    (why : string * string * Z) : list event :=
  let '(st, id, t) := why in
  let pm := drained_metrics stream client_out in
  [ SetKeepAlive; SetReadDeadline (connStart env + readTimeout s);
    AddTCPProbe st (drainErrToString (if decide (fin = EOF) then None else Some fin)) port pm;
    AddClosedTCPConnection id st pm t (connDuration env);
    ClientClose ].

(** The last steps of a connection turned away with status [st], whose
    connection is [c1] when the search ends. *)
Ltac turned_away st :=
  match goal with
  | Hrej : Some _ = Some _, He : rd_end ?c1 = rd_end _, Hacc : account ?c1 = _ |-
      context [absorbProbe ?port ?c1 ?out st] =>
    let c2 := fresh "c" in let E := fresh "E" in let Hk := fresh "Hk" in
    destruct (absorbProbe_eq port c1 _ out st He Hacc) as (c2 & E & ? & Hk);
    rewrite E; injection Hrej as <-; eexists; split; [reflexivity|];
    cbn [h_client_out h_client h_target h_events h_error]; by rewrite Hk
  end.

Lemma probe_rejected port env s client client_out why :
  wf_entries (ciphers s) -> rejection env s (rd_bytes client) = Some why ->
  exists h, handleConnection port env s client client_out = Ret h /\
    h_client_out h = client_out /\ rd_bytes (h_client h) = [] /\ h_target h = None /\
    h_events h = probe_events env s port (rd_bytes client) (rd_end client) client_out why.
Proof.
  intros Hwf Hrej. unfold handleConnection.
  set (c0 := MkMeasured client 0).
  destruct (findAccessKey_eq c0 (remoteIP env) (searchTime env) (ciphers s) Hwf)
    as (c1 & Hf).
  pose proof (findAccessKey_account c0 (remoteIP env) (searchTime env) (ciphers s)) as Hacc.
  change (rd_bytes c0) with (rd_bytes client) in Hf.
  change (rd_end c0) with (rd_end client) in Hf.
  change (account c0) with (int64 (Z.of_nat (length (rd_bytes client)))) in Hacc.
  unfold rejection in Hrej. case_decide as Hl.
  - destruct Hf as (E & Hb & He). rewrite E in Hacc |- *. specialize (Hacc _ _ eq_refl).
    cbn [mbind outcome_bind connError key_conn] in *. turned_away "ERR_CIPHER".
  - destruct Hf as (Hb & He & E).
    destruct (first_auth _ _) as [e|]; rewrite E in Hacc |- *;
      specialize (Hacc _ _ eq_refl);
      cbn [mbind outcome_bind connError replayCache ciphers key_conn snd] in *;
      [|turned_away "ERR_CIPHER"].
    destruct (IsServerSalt _ _); cbn [orb].
    + turned_away "ERR_REPLAY_SERVER".
    + destruct (Add _ _ _) as [fresh cache]. cbn [fst] in Hrej.
      destruct fresh; [done|]. cbn [orb negb]. turned_away "ERR_REPLAY_CLIENT".
Qed.

End Probes.

(** ** Valid clients *)

Section Relay.
Context `{CryptoLaws} {ops : SocksOps} {is_addr : bytes -> Prop} `{!SocksLaws is_addr}.
Context {R : Type} `{ReaderLaws R} {T : Type} `{ReaderLaws T}.

(** The decrypting reader still delivers [data], and then the error [e]. *)
Definition ssr_data {R'} `{Reader R'} (e : error)
    (s : Pool * readConverter.t R') (data : bytes) : Prop :=
  exists cs, conv_delivers (fst s) (snd s) cs e /\
    readConverter.leftover (snd s) ++ concat cs = data /\
    Forall (fun q => 0 < length q) cs.

(** It keeps delivering it, and reads nothing but the connection [m]. *)
Definition ssr_state (e : error) (m : bytes * measuredConn R)
    (s : Pool * readConverter.t (bytes * measuredConn R)) (data : bytes) : Prop :=
  ssr_data e s data /\ reads m (conn_of (snd s)).

Lemma ssr_feeds e m : feeds (ssr_Read (R := R)) (ssr_state e m).
Proof.
  intros [p c] n data [(cs & Hd & Hdata & Hne) Hm] Hn Hnonempty. unfold ssr_Read. cbn [fst snd] in *.
  destruct (Read_spec p c n cs e Hd) as (p1 & c1 & Hs).
  assert (forall l cs1, l <> [] ->
    readConverter.Read p c n = (Ret (take n l), p1, c1) ->
    readConverter.leftover c1 = drop n l -> conv_delivers p1 c1 cs1 e ->
    Forall (fun q => 0 < length q) cs1 -> data = l ++ concat cs1 ->
    exists d rest s',
      (let '(o, p, c) := readConverter.Read p c n in (o, (p, c))) = (Ret d, s') /\
      data = d ++ rest /\ d <> [] /\ length d <= n /\ ssr_state e m s' rest) as Hstep.
  { intros l cs1 Hl E Hl1 Hd1 Hne1 ->. rewrite E. apply Read_reads in E.
    exists (take n l), (drop n l ++ concat cs1), (p1, c1). split_and!; [done| | | |].
    - by rewrite app_assoc, firstn_skipn.
    - destruct l, n; [done..|lia|done].
    - rewrite length_take. lia.
    - split; [|by etrans]. exists cs1. cbn [fst snd]. by rewrite Hl1. }
  destruct (readConverter.leftover c) as [|x l] eqn:Hlo.
  - destruct cs as [|q cs']; [by subst|]. destruct Hs as (E & Hl1 & Hd1).
    apply Forall_cons in Hne as [Hq Hne]. apply (Hstep q cs'); try done.
    intros ->. simpl in Hq. lia.
  - destruct Hs as (E & Hl1 & Hd1); [].
    by apply (Hstep (x :: l) cs).
Qed.

Lemma WriteTo_data {R'} `{ReaderLaws R'} e p (c : readConverter.t R') data w :
  ssr_data e (p, c) data -> reliable w ->
  exists p' c' w',
    readConverter.WriteTo p c w =
      (Ret (length data, if decide (e = EOF) then None else Some e), p', c', w') /\
    concat (written w') = concat (written w) ++ data.
Proof.
  intros (cs & Hd & Hdata & _) Hr. cbn [fst snd] in *. unfold readConverter.WriteTo.
  destruct (readConverter.leftover c) as [|x l] eqn:Hl.
  - destruct (WriteTo_loop_spec (2 + length (rd_bytes (chunkReader.reader (readConverter.cr c))))
      p c w 0 cs e Hd Hl Hr) as (p' & c' & w' & E & Hw & _); [lia|].
    simpl in Hdata. subst data. exists p', c', w'. by rewrite E, Hw, concat_app.
  - remember (S (length (rd_bytes (chunkReader.reader (readConverter.cr c))))) as f eqn:Hf.
    change (2 + _) with (S (S (length (rd_bytes (chunkReader.reader (readConverter.cr c)))))).
    rewrite <- Hf. cbn [readConverter.WriteTo_loop]. unfold readConverter.ensureLeftover at 1.
    rewrite Hl, decide_True by (simpl; lia). rewrite Hl.
    destruct (Sink_write_drop w (x :: l) Hr) as (w1 & -> & Hw1 & Hr1 & ->).
    destruct (WriteTo_loop_spec f p (readConverter.Mk (readConverter.cr c) []) w1 (0 + length (x :: l)) cs e)
      as (p' & c' & w' & E & Hw & _); [done|done|done|cbn; lia|].
    exists p', c', w'. rewrite E, Hw, Hw1, !concat_app, <- Hdata, length_app. simpl.
    by rewrite app_nil_r, <- app_assoc.
Qed.

(** A relay that ended without an error read its connection to the end. *)
Lemma WriteTo_drained {R'} `{ReaderLaws R'} p (c : readConverter.t R') w n e p' c' w' :
  readConverter.WriteTo p c w = (Ret (n, e), p', c', w') ->
  reads (conn_of c) (conn_of c') /\ (e = None -> rd_bytes (conn_of c') = []).
Proof.
  intros E. apply WriteTo_loop_reads in E as [Hr Hb]. split; [done|]. intros ->. by apply (Hb n).
Qed.

Lemma interleave_perm {A} sched (xs ys : list A) : interleave sched xs ys ≡ₚ xs ++ ys.
Proof.
  revert xs ys. induction sched as [|[] sched IH]; intros [|x xs] [|y ys]; simpl;
    rewrite ?app_nil_r; try done; rewrite IH, ?app_nil_r;
    first [done|apply (Permutation_middle (x :: xs))].
Qed.

(** The server's side of the stream: what the target sends reaches the client
    as a well-formed stream under the server's salt. *)
Lemma fromTarget_spec uid entry ent salt ent' client_out (t : measuredConn T) :
  wf_cipher (eCipher entry) -> SaltGeneratorLaws (server_gen (eSaltGenerator entry)) ->
  GetSalt (server_gen (eSaltGenerator entry)) (zeros (SaltSize (eCipher entry))) ent =
    (None, salt, ent') ->
  written client_out = [] -> reliable client_out -> Writer.few (length (rd_bytes t)) ->
  exists out t',
    fromTarget uid entry ent client_out t =
      Ret (if decide (rd_end t = EOF) then None
           else Some (Wrapf "Failed to read payload" (rd_end t)),
           [AddRepo uid 0 (Z.of_nat (length (rd_bytes t))); ClientCloseWrite; TargetCloseRead],
           out, t') /\
    encrypts (eCipher entry) salt (rd_bytes t) (written out) /\
    reads t t' /\ rd_bytes t' = [].
Proof.
  intros Hwf Hg Hsalt Hw Hr Hfew. unfold fromTarget.
  set (sw := Writer.SetSaltGenerator _ _).
  destruct (Writer.ReadFrom_good Writer.NoFlush sw (eCipher entry) salt [] t Hwf)
    as (sw1 & t1 & Erf & HS & Hn & Hb1); [by eapply Writer.State_new|done|]. simpl in HS.
  pose proof (Writer.ReadFrom_reads _ _ _ _ _ _ Erf) as Hr1. rewrite Erf.
  destruct (Flush_emitted sw1 (eCipher entry) salt _ Hwf HS Hfew)
    as (sw2 & E & Hem).
  unfold Writer.Flush in E. rewrite Hn in E. injection E as <-.
  exists (Writer.writer sw1), t1. split; [|by split_and!].
  unfold Writer.ReadFrom_result. by case_decide.
Qed.

End Relay.

(** ** Every connection *)

Section Safety.
Context `{CryptoOps} `{SocksOps} {R : Type} `{Reader R} {T : Type} `{Reader T}.

(** An event other than the two that end a connection. *)
Definition before_end (ev : event) : Prop :=
  match ev with AddClosedTCPConnection _ _ _ _ _ | ClientClose => False | _ => True end.

(** What was written to a sink is only added to. *)
Definition grown (w w' : Sink) : Prop := exists q, written w' = written w ++ q.

#[local] Instance grown_preorder : PreOrder grown.
Proof.
  split; [intros w; exists []; by rewrite app_nil_r|].
  intros w1 w2 w3 [q1 E1] [q2 E2]. exists (q1 ++ q2). by rewrite E2, E1, app_assoc.
Qed.

Lemma Sink_write_grown w q n e w' : Sink_write w q = (n, e, w') -> grown w w'.
Proof. unfold Sink_write. repeat case_match; intros [= _ _ <-]; by eexists. Qed.

(** The target's two halves at the end are those of a connection to a candidate
    of a name that was dialed, after some reads and writes, and the validator
    accepted that candidate. *)
Definition contacted (env : conn_env T) (v : TargetIPValidator) (evs : list event)
    (target : measuredConn T * Sink) : Prop :=
  exists host a t w, Dial host ∈ evs /\ a ∈ fst (dialer env host) /\
    v (at_ip a) = None /\ at_outcome a = inl (t, w) /\
    reads (MkMeasured t 0) (fst target) /\ grown w (snd target).

(** Another network, whose names lead to the same candidates, and which differs
    at most in what is behind the refused ones. *)
Definition with_dialer (d : string -> list (attempt T) * error) (env : conn_env T) : conn_env T :=
  MkEnv T (remoteIP env) (remoteAddr env) (connStart env) (searchTime env) (connDuration env) d
    (env_entropy env) (env_pool env) (env_sched env).

Definition same_network (v : TargetIPValidator) (env : conn_env T)
    (d : string -> list (attempt T) * error) : Prop :=
  forall host, snd (d host) = snd (dialer env host) /\
    same_accepted v (fst (dialer env host)) (fst (d host)).

Definition inner_ok (env : conn_env T) (v : TargetIPValidator) (client_out : Sink)
    (h : handled (R := R) (T := T)) : Prop :=
  Forall before_end (h_events h) /\
  (match h_target h with
   | Some target => contacted env v (h_events h) target
   | None => h_client_out h = client_out
   end).

Lemma WriteTo_grown p (ssr : readConverter.t (bytes * measuredConn R)) w o p' ssr' w' :
  readConverter.WriteTo p ssr w = (o, p', ssr', w') -> grown w w'.
Proof.
  unfold readConverter.WriteTo. generalize (2 + length (rd_bytes
    (chunkReader.reader (readConverter.cr ssr)))). intros fuel. generalize 0.
  revert p ssr w. induction fuel as [|fuel IH]; intros p ssr w total;
    cbn [readConverter.WriteTo_loop]; [by intros [= _ _ _ <-]|].
  destruct (readConverter.ensureLeftover p ssr) as [[[[]|e|m] p1] c1];
    [|by intros [= _ _ _ <-]..].
  destruct (Sink_write w _) as [[n x] w1] eqn:Ew. apply Sink_write_grown in Ew.
  destruct x; [by intros [= _ _ _ <-]|]. intros E%IH. by etrans.
Qed.

(** What the relay leaves of the target's connection. *)
Lemma relay_target env uid entry p (ssr : readConverter.t (bytes * measuredConn R))
    client_out tgt c out t ce evs :
  relay env uid entry p ssr client_out tgt = Ret (c, out, t, ce, evs) ->
  reads (MkMeasured (fst tgt) 0) (fst t) /\ grown (snd tgt) (snd t).
Proof.
  unfold relay, fromClient, fromTarget. intros E.
  destruct (readConverter.WriteTo p ssr (snd tgt)) as [[[o1 p1] c1] w1] eqn:E1.
  apply WriteTo_grown in E1.
  destruct (Writer.ReadFrom _ _ _) as [[o2 sw2] t2] eqn:E2. apply Writer.ReadFrom_reads in E2.
  destruct o1 as [[i1 x1]|e1|m1], o2 as [[i2 x2]|e2|m2]; cbn [mbind outcome_bind] in E;
    first [discriminate E|by injection E as <- <- <- <- <-].
Qed.

Lemma relay_events env uid entry p (ssr : readConverter.t (bytes * measuredConn R))
    client_out tgt c out t ce evs :
  relay env uid entry p ssr client_out tgt = Ret (c, out, t, ce, evs) ->
  Forall before_end evs.
Proof.
  unfold relay. intros E.
  destruct (fromClient uid p ssr (snd tgt)) as [[[[e1 ev1] c1] w1]|?|?] eqn:E1;
    cbn [mbind outcome_bind] in E; try done.
  destruct (fromTarget uid entry (env_entropy env) client_out (MkMeasured (fst tgt) 0))
    as [[[[e2 ev2] out2] t2]|?|?] eqn:E2; cbn [mbind outcome_bind] in E; try done.
  injection E as <- <- <- <- <-.
  rewrite interleave_perm, !Forall_app. split; [|by repeat constructor]. split.
  - revert E1. unfold fromClient. repeat case_match; intros; simplify_eq; by repeat constructor.
  - revert E2. unfold fromTarget. repeat case_match; intros; simplify_eq; by repeat constructor.
Qed.

Lemma serve_ok env s entry uid (r : bytes * measuredConn R) client_out h :
  serve env s entry uid r client_out = Ret h ->
  inner_ok env (targetIPValidator s) client_out h.
Proof.
  unfold serve. destruct (ReadAddr _ _ _) as [[addr|e|m] [p ssr]]; [| |done].
  - destruct (dialer env (AddrString addr)) as [attempts noAddr] eqn:Hd.
    destruct (dialTarget _ attempts noAddr) as [c|ce] eqn:Hdial.
    + destruct (relay env uid entry p ssr client_out c)
        as [[[[[c' out] t] ce] evs]|?|?] eqn:Er; cbn [mbind outcome_bind]; try done.
      intros [= <-]. split; cbn [h_events h_target].
      * repeat apply Forall_cons_2; [done..|by eapply relay_events].
      * apply dialTarget_accepted in Hdial as (a & Ha & Hv & Ho). destruct c as [t0 w0].
        apply relay_target in Er as [? ?]. exists (AddrString addr), a, t0, w0.
        rewrite Hd. split_and!; [set_solver|done..].
    + intros [= <-]. split; [by repeat constructor|done].
  - destruct (measuredConn_Discard _) as [[n x] c]. intros [= <-].
    split; [by repeat constructor|done].
Qed.

Lemma absorbProbe_ok port (c : measuredConn R) client_out st :
  Forall before_end (fst (absorbProbe (T := T) port c client_out st)).
Proof.
  unfold absorbProbe. destruct (measuredConn_Discard c) as [[n x] c']. by repeat constructor.
Qed.

Lemma connError_ok port env s key client_out h :
  connError (R := R) port env s key client_out = Ret h ->
  inner_ok env (targetIPValidator s) client_out h.
Proof.
  unfold connError. destruct key as [c t e id|entry r salt t uid].
  - pose proof (absorbProbe_ok port c client_out "ERR_CIPHER") as Ha.
    destruct (absorbProbe _ _ _ _) as [ev c']. by intros [= <-].
  - destruct (if IsServerSalt _ _ then _ else _) as [fresh cache].
    destruct (_ || _).
    + set (st := if IsServerSalt _ _ then _ else _).
      pose proof (absorbProbe_ok port (snd r) client_out st) as Ha.
      destruct (absorbProbe _ _ _ _) as [ev c']. by intros [= <-].
    + apply serve_ok.
Qed.

(** What is behind a refused candidate is never looked at. *)
Lemma serve_same env s entry uid (r : bytes * measuredConn R) client_out d :
  same_network (targetIPValidator s) env d ->
  serve (with_dialer d env) s entry uid r client_out = serve env s entry uid r client_out.
Proof.
  intros Hd. unfold serve. destruct (ReadAddr _ _ _) as [[addr|e|m] [p ssr]]; [|done..].
  destruct (Hd (AddrString addr)) as [Hn Ha]. cbn [dialer with_dialer].
  destruct (dialer env (AddrString addr)) as [attempts noAddr], (d (AddrString addr)) as [l n].
  cbn [fst snd] in Hn, Ha. rewrite Hn, <- (dialTarget_same _ _ _ _ Ha). done.
Qed.

Lemma handleConnection_same port env s client client_out d :
  same_network (targetIPValidator s) env d ->
  handleConnection (R := R) port (with_dialer d env) s client client_out =
    handleConnection port env s client client_out.
Proof.
  intros Hd. unfold handleConnection. cbn [remoteIP searchTime with_dialer].
  destruct (findAccessKey _ _ _ _) as [[key cl]|?|?]; [|done..]. cbn [mbind outcome_bind].
  assert (connError port (with_dialer d env)
      (MkTcpService cl (replayCache s) (targetIPValidator s) (readTimeout s)) key client_out =
    connError port env (MkTcpService cl (replayCache s) (targetIPValidator s) (readTimeout s))
      key client_out) as ->; [|done].
  unfold connError. destruct key as [c t e id|entry r salt t uid]; [done|].
  destruct (if IsServerSalt _ _ then _ else _) as [fresh cache].
  destruct (_ || _); [done|]. by apply serve_same.
Qed.

End Safety.

Section Properties.
Context `{CryptoLaws} {ops : SocksOps} {is_addr : bytes -> Prop} `{!SocksLaws is_addr}.

(** A server that knows the key [e], for a connection whose bytes are [stream]
    with the salt [salt]: the target [t], [w] the name in [addr] leads to, and
    the randomness that gives the server the salt [ssalt]. *)
Record ready {T} `{Reader T} (env : conn_env T) (s : tcpService) (stream : bytes)
    (client_out : Sink) (e : CipherEntry) (salt addr : bytes) (t : T) (w : Sink)
    (ssalt : bytes) : Prop := {
  ss_wf : wf_entries (ciphers s);
  ss_gen : SaltGeneratorLaws (server_gen (eSaltGenerator e));
  ss_addr : is_addr addr;
  ss_first : exists es1 es2,
    search_order (ciphers s) (remoteIP env) = es1 ++ e :: es2 /\
    Forall (fun x => authenticates (take bytesForKeyFinding stream) x = false) es1;
  ss_client_salt : IsServerSalt (eSaltGenerator e) salt = false;
  ss_fresh : fst (Add (replayCache s) (string_bytes (ID e)) salt) = true;
  ss_dial : dialTarget (targetIPValidator s) (fst (dialer env (AddrString addr)))
    (snd (dialer env (AddrString addr))) = inl (t, w);
  ss_target_out : reliable w;
  ss_client_out : written client_out = [] /\ reliable client_out;
  ss_server_salt : exists ent',
    GetSalt (server_gen (eSaltGenerator e)) (zeros (SaltSize (eCipher e)))
      (env_entropy env) = (None, ssalt, ent');
  ss_few : Writer.few (length (rd_bytes t));
}.

(** A client with the key of [e] that sends the address [addr] and then
    [payload], under the salt [salt], to such a server. *)
Record session {R T} `{Reader R, Reader T} (env : conn_env T) (s : tcpService)
    (client : R) (client_out : Sink) (e : CipherEntry) (salt addr payload : bytes)
    (t : T) (w : Sink) (ssalt : bytes) : Prop := {
  ss_ready : ready env s (rd_bytes client) client_out e salt addr t w ssalt;
  ss_stream : exists out, encrypts (eCipher e) salt (addr ++ payload) out /\
    rd_bytes client = concat out;
  ss_end : rd_end client = EOF;
}.

Lemma session_found {R T} `{ReaderLaws R, Reader T} env s (client : R) client_out e salt
    addr payload (t : T) w ssalt :
  session env s client client_out e salt addr payload t w ssalt ->
  wf_cipher (eCipher e) /\ take (SaltSize (eCipher e)) (rd_bytes client) = salt /\
  bytesForKeyFinding <= length (rd_bytes client) /\
  first_auth (take bytesForKeyFinding (rd_bytes client))
    (search_order (ciphers s) (remoteIP env)) = Some e /\
  exists cs, fst (decode_stream (eCipher e) (rd_bytes client) EOF) = cs /\
    snd (decode_stream (eCipher e) (rd_bytes client) EOF) = EOF /\
    concat cs = addr ++ payload /\ Forall (fun q => 0 < length q) cs.
Proof.
  intros [HS (out & (a & chunks & HN & Hstd & Hl & -> & Hch & Hcat) & Hb) He].
  destruct (ss_first _ _ _ _ _ _ _ _ _ _ HS) as (es1 & es2 & Eo & Hn).
  assert (wf_cipher (eCipher e)) as Hwf.
  { pose proof (wf_search_order _ (remoteIP env) (ss_wf _ _ _ _ _ _ _ _ _ _ HS)) as Hf.
    rewrite Eo in Hf. apply Forall_app in Hf as [_ Hf]. by apply Forall_cons in Hf as [Hf _]. }
  destruct chunks as [|p chunks].
  { pose proof (is_addr_nonempty addr (ss_addr _ _ _ _ _ _ _ _ _ _ HS)). by destruct addr. }
  destruct (authenticates_packets e a salt p chunks) as [Hlen Ha]; try done.
  { apply Forall_cons in Hch as [? _]. lia. }
  rewrite <- Hb in Hlen, Ha. split_and!; [done| |done| |].
  - rewrite Hb, concat_packets, decide_False by done. by rewrite <- Hl, take_app_length.
  - apply first_auth_Some. by exists es1, es2.
  - rewrite Hb, (decode_stream_packets _ a) by done. eexists. split_and!; [done..|].
    eapply Forall_impl; [exact Hch|]. simpl. lia.
Qed.

(** C6: probe resistance.  Whoever cannot produce a fresh stream under a known
    key (too few bytes, garbage, a stream reflected from the server, or one
    recorded from a client) sees a server that never sends a byte and never
    closes first: the connection is read to its very end, then reported once as
    a probe and once as closed, with the status, the way it ended and the exact
    number of bytes it sent, and only then closed.  No address is dialed. *)
Theorem probe_resistance {R T} `{ReaderLaws R, ReaderLaws T} (port : Z)
    (env : conn_env T) (s : tcpService) (client : R) (client_out : Sink)
    (why : string * string * Z) :
  wf_entries (ciphers s) -> rejection env s (rd_bytes client) = Some why ->
  exists h, handleConnection port env s client client_out = Ret h /\
    h_client_out h = client_out /\ rd_bytes (h_client h) = [] /\ h_target h = None /\
    h_events h = probe_events env s port (rd_bytes client) (rd_end client) client_out why.
Proof. apply probe_rejected. Qed.

(** What a session leaves: the key is marked and the salt recorded; the target
    got the payload, and the client a stream of what the target answered, under
    the server's salt; and everything happened in this order, the two
    directions of the relay interleaved, with the exact counts of the bytes that
    passed: [stream] from the client, what was written to the target, the whole
    answer, and what was written to the client. *)
Definition served {R T} `{Reader R, Reader T} (env : conn_env T) (s : tcpService)
    (stream : bytes) (e : CipherEntry) (salt addr payload : bytes) (t : T) (w : Sink)
    (ssalt : bytes) (h : handled (R := R) (T := T)) : Prop :=
  exists tin tout relayed,
    h_service h = MkTcpService (MarkUsedByClientIP e (remoteIP env) (ciphers s))
      (snd (Add (replayCache s) (string_bytes (ID e)) salt))
      (targetIPValidator s) (readTimeout s) /\
    h_target h = Some (tin, tout) /\
    concat (written tout) = concat (written w) ++ payload /\
    encrypts (eCipher e) ssalt (rd_bytes t) (written (h_client_out h)) /\
    status_of (h_error h) = (if decide (rd_end t = EOF) then "OK" else "ERR_RELAY_TARGET") /\
    h_events h =
      [SetKeepAlive; SetReadDeadline (connStart env + readTimeout s); ClearReadDeadline;
       AddWwwRepo (AddrString addr) (ID e) (remoteAddr env) 1 0; Dial (AddrString addr)] ++
      relayed ++
      [TargetClose;
       AddClosedTCPConnection (ID e) (status_of (h_error h))
         (MkPM (int64 (Z.of_nat (length stream))) (int64 (bytes_written tout))
            (int64 (Z.of_nat (length (rd_bytes t)))) (int64 (bytes_written (h_client_out h))))
         (searchTime env) (connDuration env);
       ClientClose] /\
    relayed ≡ₚ
      [AddRepo (ID e) (Z.of_nat (length payload)) 0; ClientCloseRead; TargetCloseWrite] ++
      [AddRepo (ID e) 0 (Z.of_nat (length (rd_bytes t))); ClientCloseWrite; TargetCloseRead].

Lemma session_served {R T} `{ReaderLaws R, ReaderLaws T} (port : Z)
    (env : conn_env T) (s : tcpService) (client : R) (client_out : Sink)
    (e : CipherEntry) (salt addr payload : bytes) (t : T) (w : Sink) (ssalt : bytes) :
  session env s client client_out e salt addr payload t w ssalt ->
  exists h, handleConnection port env s client client_out = Ret h /\
    served env s (rd_bytes client) e salt addr payload t w ssalt h.
Proof.
  intros HS. destruct (session_found _ _ _ _ _ _ _ _ _ _ _ HS)
    as (Hwf & Hsalt & Hlen & Hfirst & cs & Hcs & Hend & Hcat & Hne).
  destruct HS as [[HwfS Hgen Haddr _ Hcl Hfresh Hdial Hw [Hcw Hcr] [ent' Hss] Hfew] _ He].
  unfold served, handleConnection. set (c0 := MkMeasured client 0).
  destruct (findAccessKey_eq c0 (remoteIP env) (searchTime env) (ciphers s) HwfS)
    as (c1 & Hf).
  change (rd_bytes c0) with (rd_bytes client) in Hf.
  change (rd_end c0) with (rd_end client) in Hf.
  rewrite decide_False in Hf by lia. destruct Hf as (Hb1 & He1 & E).
  rewrite Hfirst, Hsalt in E. pose proof (findAccessKey_reads _ _ _ _ _ _ E) as Hreads1.
  rewrite E. clear E.
  cbn [mbind outcome_bind connError replayCache ciphers targetIPValidator readTimeout key_conn snd]
    in Hreads1 |- *.
  rewrite Hcl. destruct (Add _ _ _) as [fresh cache]. cbn [fst] in Hfresh. subst fresh.
  cbn [orb negb snd]. unfold serve.
  set (fb := take bytesForKeyFinding (rd_bytes client)).
  assert (rd_bytes (fb, c1) = rd_bytes client) as Hrb.
  { simpl. unfold fb. change (rd_bytes (inner c1)) with (rd_bytes c1).
    by rewrite Hb1, firstn_skipn. }
  assert (ssr_state EOF (fb, c1) (readBufPool (env_pool env),
    readConverter.NewShadowsocksReader (fb, c1) (eCipher e)) (addr ++ payload)) as Hdata.
  { split; [|apply rtc_refl]. exists cs. split_and!; [|exact Hcat|done]. cbn [fst snd].
    pose proof (NewShadowsocksReader_delivers (env_pool env) (fb, c1) (eCipher e) Hwf) as Hd.
    rewrite Hrb in Hd. change (rd_end (fb, c1)) with (rd_end c1) in Hd.
    rewrite He1, He, Hcs, Hend in Hd. exact Hd. }
  destruct (ReadAddr_ok _ ssr_Read _ _ addr payload (ssr_feeds EOF (fb, c1)) Haddr Hdata)
    as ([p c2] & -> & Hdata2 & Hreads2).
  cbn [targetIPValidator].
  destruct (dialer env (AddrString addr)) as [attempts noAddr]. cbn [fst snd] in Hdial.
  rewrite Hdial. unfold relay, fromClient. cbn [fst snd].
  destruct (WriteTo_data EOF p c2 payload w Hdata2 Hw) as (p3 & c3 & tout & Ewt & Htout).
  destruct (WriteTo_drained _ _ _ _ _ _ _ _ Ewt) as [Hreads3 Hb3].
  assert (readCount (ssr_conn c3) = int64 (Z.of_nat (length (rd_bytes client)))) as Hcount.
  { apply (account_drained c0); [|done|].
    - etrans; [exact Hreads1|]. apply (reads_MultiReader (fb, c1)). by etrans.
    - specialize (Hb3 eq_refl).
      by apply app_eq_nil in Hb3 as [_ ?]. }
  rewrite Ewt, decide_True by done. cbn [mbind outcome_bind].
  destruct (fromTarget_spec (ID e) e (env_entropy env) ssalt ent' client_out (MkMeasured t 0)
    Hwf Hgen Hss Hcw Hcr Hfew) as (out & tin & -> & Hout & Hreadst & Hbt).
  cbn [mbind outcome_bind]. eexists. split; [reflexivity|]. do 3 eexists. split_and!; cbn.
  1-4: done.
  - change (rd_end (MkMeasured t 0)) with (rd_end t). by destruct (decide (rd_end t = EOF)).
  - unfold proxyMetrics. rewrite Hcount, (account_drained _ _ Hreadst eq_refl Hbt).
    rewrite <- app_assoc. reflexivity.
  - apply (interleave_perm (env_sched env) [_; _; _] [_; _; _]).
Qed.

(** C5: a valid client is served, end to end.  When the stream of the client
    carries an address and a payload under the key of an entry, the handler
    finds that entry, records the salt, reads the address, dials it, sends the
    target exactly the payload, sends the client a well-formed stream of
    exactly what the target answers, under a salt of the server's, counts both
    directions for the key, and closes both connections; the status is OK
    unless reading from the target failed. *)
Theorem valid_client_served {R T} `{ReaderLaws R, ReaderLaws T} (port : Z)
    (env : conn_env T) (s : tcpService) (client : R) (client_out : Sink)
    (e : CipherEntry) (salt addr payload : bytes) (t : T) (w : Sink) (ssalt : bytes) :
  session env s client client_out e salt addr payload t w ssalt ->
  exists h, handleConnection port env s client client_out = Ret h /\
    served env s (rd_bytes client) e salt addr payload t w ssalt h.
Proof. apply session_served. Qed.

(** C7: every connection that ends is accounted for once and closed last; nothing
    is ever written to a client without a target connection; the target that is
    relayed to is the connection to a candidate the validator accepted, of a name
    that was dialed; and the candidates it refuses are never contacted: whatever
    is behind them, the handler does exactly the same. *)
Theorem handler_safety {R T} `{Reader R, Reader T} (port : Z) (env : conn_env T)
    (s : tcpService) (client : R) (client_out : Sink) (h : handled) :
  handleConnection port env s client client_out = Ret h ->
  (h_target h = None -> h_client_out h = client_out) /\
  (forall target, h_target h = Some target ->
     contacted env (targetIPValidator s) (h_events h) target) /\
  (forall d, same_network (targetIPValidator s) env d ->
     handleConnection port (with_dialer d env) s client client_out = Ret h) /\
  exists evs id pm t,
    h_events h = evs ++
      [AddClosedTCPConnection id (status_of (h_error h)) pm t (connDuration env);
       ClientClose] /\
    Forall before_end evs.
Proof.
  intros E0. assert (forall d, same_network (targetIPValidator s) env d ->
    handleConnection port (with_dialer d env) s client client_out = Ret h) as Hsame
    by (intros d Hd; by rewrite handleConnection_same).
  revert E0. unfold handleConnection at 1. set (c0 := MkMeasured client 0).
  destruct (findAccessKey _ _ _ _) as [[key cl]|?|?]; cbn [mbind outcome_bind]; try done.
  set (s1 := MkTcpService _ _ _ _).
  destruct (connError port env s1 key client_out) as [h1|?|?] eqn:E;
    cbn [mbind outcome_bind]; try done.
  apply connError_ok in E as [Hev Ht]. intros [= E]. revert Hsame. rewrite <- E. clear E.
  intros Hsame. cbn in *. split_and!; [|intros target Hn|exact Hsame|].
  - intros Hn. by rewrite Hn in Ht.
  - rewrite Hn in Ht. destruct Ht as (host & a & t & w & Hin & Ha).
    exists host, a, t, w. split; [set_solver|done].
  - eexists (_ :: _ :: h_events h1), _, _, _. split; [reflexivity|].
    by repeat apply Forall_cons_2.
Qed.

End Properties.
