(* ===== verification/TcpExamples.v ===== *)
(** * A running example of the TCP service

    A concrete address format for [SocksOps], with its laws, and the theorems
    of [TcpSpec] at concrete connections. *)
From S2P Require Import Prelude GoIO Cipher ToyCrypto Salt Wire SlicePool Writer.
From S2P Require Import StreamReader Stream Replay PrivateNet CipherList Metrics.
From S2P Require Import KeyFinding Tcp TcpSpec.

(** ** Length-prefixed addresses *)

Section ReadN.
Context {S : Type} (read : S -> nat -> outcome bytes * S).

(** Reads [n] more bytes; a reader that gives nothing runs it out of fuel. *)
Fixpoint read_n (fuel n : nat) (s : S) (acc : bytes) : outcome bytes * S :=
  match n with
  | O => (Ret acc, s)
  | _ =>
    match fuel with
    | O => (Err (Errorf "short read"), s)
    | Datatypes.S fuel =>
      match read s n with
      | (Ret d, s) => read_n fuel (n - length d) s (acc ++ d)
      | (Err e, s) => (Err e, s)
      | (Panic m, s) => (Panic m, s)
      end
    end
  end.

Lemma read_n_ok (D : S -> bytes -> Prop) rest : feeds read D ->
  forall fuel x s acc, length x <= fuel -> D s (x ++ rest) ->
  exists s', read_n fuel (length x) s acc = (Ret (acc ++ x), s') /\ D s' rest.
Proof.
  intros Hf. induction fuel as [|fuel IH]; intros x s acc Hl Hd.
  { destruct x; [|simpl in Hl; lia]. exists s. by rewrite app_nil_r. }
  destruct x as [|b x]; [exists s; by rewrite app_nil_r|].
  destruct (Hf s (length (b :: x)) _ Hd) as (d & rest' & s1 & E & Hdata & Hne & Hdl & Hd1);
    [simpl; lia|done|].
  assert (exists x', b :: x = d ++ x' /\ rest' = x' ++ rest) as (x' & Ex & ->).
  { exists (drop (length d) (b :: x)).
    pose proof (f_equal (take (length d)) Hdata) as Ht.
    pose proof (f_equal (drop (length d)) Hdata) as Hdr.
    rewrite take_app_length, take_app_le in Ht by done.
    rewrite drop_app_length, drop_app_le in Hdr by done.
    split; [|done].
    etrans; [symmetry; apply (take_drop (length d))|by rewrite Ht]. }
  cbn [read_n length]. change (Datatypes.S (length x)) with (length (b :: x)). rewrite E.
  rewrite Ex, length_app in Hl |- *.
  replace (length d + length x' - length d) with (length x') by lia.
  destruct (IH x' s1 (acc ++ d)) as (s' & -> & Hd'); [|done|].
  - destruct d; [done|]. simpl in Hl. lia.
  - exists s'. by rewrite app_assoc.
Qed.

Lemma read_n_inv (I : S -> Prop) :
  (forall s n, I s -> (forall m, fst (read s n) <> Panic m) /\ I (snd (read s n))) ->
  forall fuel n s acc, I s ->
  (forall m, fst (read_n fuel n s acc) <> Panic m) /\ I (snd (read_n fuel n s acc)).
Proof.
  intros HI. induction fuel as [|fuel IH]; intros [|n] s acc Hs; try done.
  cbn [read_n]. destruct (HI s (Datatypes.S n) Hs) as [Hn Hi].
  destruct (read s (Datatypes.S n)) as [[d|e|m] s1]; cbn [fst snd] in *;
    [by apply IH|done|by destruct (Hn m)].
Qed.

Definition toy_ReadAddr (s : S) : outcome bytes * S :=
  match read_n 1 1 s [] with
  | (Ret (b :: _), s) => let n := Z.to_nat (byte_to_Z b) in read_n n n s [b]
  | (Ret [], s) => (Err EOF, s)
  | (Err e, s) => (Err e, s)
  | (Panic m, s) => (Panic m, s)
  end.

End ReadN.

#[export] Instance toy_socks : SocksOps := {
  ReadAddr := @toy_ReadAddr;
  AddrString a := String.string_of_list_byte (drop 1 a);
}.

Definition toy_addr (a : bytes) : Prop :=
  match a with [] => False | b :: x => length x = Z.to_nat (byte_to_Z b) end.

#[export] Instance toy_socks_laws : SocksLaws toy_addr.
Proof.
  split.
  - by intros [|b x].
  - intros S read D s [|b x] rest Hf Ha Hd; [done|]. simpl in Ha. simpl. unfold toy_ReadAddr.
    destruct (read_n_ok read D (x ++ rest) Hf 1 [b] s []) as (s1 & E & Hd1); [done..|].
    change (length [b]) with 1 in E. rewrite E. cbn [app].
    rewrite <- Ha. destruct (read_n_ok read D rest Hf (length x) x s1 [b]) as (s2 & E2 & Hd2);
      [done..|].
    rewrite E2. by exists s2.
  - intros S read I s HI Hs. simpl. unfold toy_ReadAddr.
    destruct (read_n_inv read I HI 1 1 s [] Hs) as [Hn Hi].
    destruct (read_n read 1 1 s []) as [[[|b l]|e|m] s1]; cbn [fst snd] in *;
      [done|by apply read_n_inv|done|by destruct (Hn m)].
Qed.

(** ** The connection of a client with the third key *)

Definition ex_entry : CipherEntry := demo_entry 2 "carol".
Definition ex_addr : bytes := byte_of_Z 11 :: string_bytes "example.com".
Definition ex_payload : bytes := string_bytes "GET /".
Definition ex_stream : bytes :=
  concat (packets demo_client_aead demo_client_salt
    [ex_addr ++ string_bytes "GE"; string_bytes "T /"]).
Definition ex_client : Conn := MkConn [take 9 ex_stream; drop 9 ex_stream] EOF false.
Definition ex_answer : Conn := MkConn [string_bytes "200"; string_bytes " OK"] EOF true.
Definition ex_sink : Sink := MkSink [] [].

Definition ex_env : conn_env Conn :=
  MkEnv Conn (Some (octet_list [192; 0; 2; 1]%Z)) "192.0.2.1:4000" 100 2 30
    (fun host =>
       if decide (host = "example.com") then
         ([MkAttempt (Some (octet_list [10; 0; 0; 1]%Z)) (inr EOF);
           MkAttempt (Some (octet_list [93; 184; 216; 34]%Z)) (inl (ex_answer, ex_sink))], EOF)
       else ([], EOF))
    (expand 9 64) [] [true; false; false; true].

Definition ex_service (cache : gset Z) : tcpService :=
  NewTCPService (fun _ => "") demo_keys (Some (MkReplayCache 10 cache ∅)) 59.

Definition ex_server_salt : bytes :=
  snd (fst (GetSalt (server_gen (eSaltGenerator ex_entry)) (zeros 32) (expand 9 64))).

Lemma ex_first stream :
  Forall (fun x => authenticates (take bytesForKeyFinding stream) x = false)
    [demo_entry 0 "alice"; demo_entry 1 "bob"] ->
  exists es1 es2, search_order demo_keys (remoteIP ex_env) = es1 ++ ex_entry :: es2 /\
    Forall (fun x => authenticates (take bytesForKeyFinding stream) x = false) es1.
Proof. intros Hf. exists [demo_entry 0 "alice"; demo_entry 1 "bob"], []. by split. Qed.

(** The example server, for a stream of a client of the third key. *)
Lemma ex_ready stream salt :
  Forall (fun x => authenticates (take bytesForKeyFinding stream) x = false)
    [demo_entry 0 "alice"; demo_entry 1 "bob"] ->
  IsServerSalt (eSaltGenerator ex_entry) salt = false ->
  fst (Add (replayCache (ex_service ∅)) (string_bytes (ID ex_entry)) salt) = true ->
  ready (is_addr := toy_addr) ex_env (ex_service ∅) stream ex_sink ex_entry salt ex_addr
    ex_answer ex_sink ex_server_salt.
Proof.
  intros Hfirst Hs Hfresh. split; try done.
  - apply demo_keys_wf.
  - apply _.
  - by apply ex_first.
  - apply Forall_nil_2.
  - split; [reflexivity|apply Forall_nil_2].
  - eexists. vm_compute. reflexivity.
Qed.

Lemma ex_session :
  session (is_addr := toy_addr) ex_env (ex_service ∅) ex_client ex_sink ex_entry demo_client_salt ex_addr ex_payload
    ex_answer ex_sink ex_server_salt.
Proof.
  split.
  - apply ex_ready.
    + repeat apply Forall_cons_2; [vm_compute; reflexivity..|apply Forall_nil_2].
    + vm_compute. reflexivity.
    + vm_compute. reflexivity.
  - exists (packets demo_client_aead demo_client_salt
      [ex_addr ++ string_bytes "GE"; string_bytes "T /"]). split.
    + destruct (NewAEAD_ok (eCipher ex_entry) demo_client_salt) as (a & Ha & Hstd);
        [by apply (NewCipher_wf "chacha20-ietf-poly1305" "carol")|].
      pose proof payloadSizeMask_Z.
      assert (a = demo_client_aead) as -> by (by injection Ha as <-).
      exists demo_client_aead, [ex_addr ++ string_bytes "GE"; string_bytes "T /"].
      split_and!; [reflexivity|done|vm_compute; reflexivity|done| |vm_compute; reflexivity].
      repeat apply Forall_cons_2; [simpl; lia|simpl; lia|apply Forall_nil_2].
    + unfold ex_client, ex_stream. generalize (concat (packets demo_client_aead
        demo_client_salt [ex_addr ++ string_bytes "GE"; string_bytes "T /"])). intros l.
      change (rd_bytes _) with (take 9 l ++ drop 9 l ++ []).
      by rewrite app_nil_r, firstn_skipn.
  - reflexivity.
Qed.

Lemma valid_client_served_witness :
  exists h tin tout,
    handleConnection 8388 ex_env (ex_service ∅) ex_client ex_sink = Ret h /\
    h_target h = Some (tin, tout) /\ concat (written tout) = ex_payload /\
    encrypts (eCipher ex_entry) ex_server_salt (string_bytes "200 OK")
      (written (h_client_out h)) /\ status_of (h_error h) = "OK".
Proof.
  destruct (valid_client_served (is_addr := toy_addr) 8388 ex_env (ex_service ∅) ex_client
    ex_sink ex_entry demo_client_salt ex_addr ex_payload ex_answer ex_sink ex_server_salt)
    as (h & E & tin & tout & relayed & _ & Ht & Ho & Hw & Hst & _).
  - exact ex_session.
  - exists h, tin, tout. split_and!; [exact E|exact Ht|exact Ho|exact Hw|exact Hst].
Defined.

(** A recorded stream, replayed against a cache that has its salt. *)
Definition ex_replayed : gset Z := {[ preHash (string_bytes "carol") demo_client_salt ]}.

Lemma probe_resistance_witness :
  exists h, handleConnection 8388 ex_env (ex_service ex_replayed) ex_client ex_sink = Ret h /\
    h_client_out h = ex_sink /\ h_target h = None /\
    h_events h = probe_events ex_env (ex_service ex_replayed) 8388 (rd_bytes ex_client) EOF
      ex_sink ("ERR_REPLAY_CLIENT", "carol", 2%Z).
Proof.
  destruct (probe_resistance 8388 ex_env (ex_service ex_replayed) ex_client ex_sink
    ("ERR_REPLAY_CLIENT", "carol", 2%Z)) as (h & E & Ho & _ & Ht & Hev).
  - apply demo_keys_wf.
  - vm_compute. reflexivity.
  - exists h. split_and!; [exact E|exact Ho|exact Ht|exact Hev].
Defined.

(** The same names, with a host of the private network that would answer. *)
Definition ex_intranet (host : string) : list (attempt Conn) * error :=
  if decide (host = "example.com") then
    ([MkAttempt (Some (octet_list [10; 0; 0; 1]%Z)) (inl (MkConn [ex_payload] EOF false, ex_sink));
      MkAttempt (Some (octet_list [93; 184; 216; 34]%Z)) (inl (ex_answer, ex_sink))], EOF)
  else ([], EOF).

Lemma ex_intranet_same : same_network (targetIPValidator (ex_service ∅)) ex_env ex_intranet.
Proof.
  intros host. unfold ex_intranet. cbn [dialer ex_env]. destruct (decide _); [|by split; constructor].
  split; [reflexivity|]. apply Forall2_cons_2; [|apply Forall2_cons_2; [by split|constructor]].
  split; [reflexivity|]. intros Hn. vm_compute in Hn. discriminate Hn.
Qed.

Lemma handler_safety_witness :
  exists h target, handleConnection 8388 (with_dialer ex_intranet ex_env) (ex_service ∅)
      ex_client ex_sink = Ret h /\
    h_target h = Some target /\
    contacted ex_env (targetIPValidator (ex_service ∅)) (h_events h) target.
Proof.
  destruct (session_served (is_addr := toy_addr) 8388 ex_env (ex_service ∅) ex_client
    ex_sink ex_entry demo_client_salt ex_addr ex_payload ex_answer ex_sink ex_server_salt ex_session)
    as (h & E & tin & tout & relayed & _ & Ht & _).
  destruct (handler_safety 8388 ex_env (ex_service ∅) ex_client ex_sink h E)
    as (_ & Hc & Hd & _).
  exists h, (tin, tout). split_and!; [exact (Hd _ ex_intranet_same)|exact Ht|exact (Hc _ Ht)].
Defined.
