(* ===== verification/TcpTotal.v ===== *)
(** * The TCP handler always returns

    On arbitrary bytes from the client, whatever the target, the resolver, the
    two writing halves and the source of randomness do: [handleConnection]
    neither panics nor loops, and the fuel of its loops is never used up. *)
From S2P Require Import Prelude GoIO Cipher ToyCrypto Salt Wire SlicePool Writer.
From S2P Require Import StreamReader Stream Replay PrivateNet CipherList Metrics.
From S2P Require Import KeyFinding Tcp TcpSpec TcpExamples.

(** ** The reader on any input *)

Section AnyStream.
Context `{CryptoLaws} {R : Type} `{ReaderLaws R}.
Implicit Types cr : chunkReader.t R.

Import chunkReader.

(** What holds of a reader whatever it has read and whether it failed. *)
Record sound (p : Pool) cr : Prop := {
  so_pool : pool_ok p (payload cr);
  so_plen : plen p = payloadSizeMask + 16;
  so_cipher : wf_cipher (ssCipher cr);
  so_aead a : aead cr = Some a -> standard_AEAD a /\ length (payloadSizeBuf cr) = 18;
}.

Definition remaining cr : nat := length (rd_bytes (reader cr)).

Lemma init_sound p cr o cr' :
  sound p cr -> init cr = (o, cr') ->
  (forall m, o <> Panic m) /\ sound p cr' /\ (o = Ret tt -> is_Some (aead cr')) /\
  (o = Ret tt -> remaining cr' <= remaining cr).
Proof.
  intros [Hp Hl Hwf Ha]. unfold init. destruct (aead cr) as [a|] eqn:E.
  { intros [= <- <-]. split_and!; [done| |by rewrite E|done].
    split; [done..|]. rewrite E. exact Ha. }
  destruct (decide (SaltSize (ssCipher cr) <= length (rd_bytes (reader cr)))) as [Hn|Hn].
  - destruct (ReadFull_ok _ _ Hn) as (r' & -> & Hb & _).
    destruct (NewAEAD_ok (ssCipher cr)
      (take (SaltSize (ssCipher cr)) (rd_bytes (reader cr))) Hwf) as (a & HN & Hstd).
    cbn [ssCipher reader payload]. rewrite HN. intros [= <- <-].
    split_and!; [done| |done|].
    + split; [done..|]. intros a' [= <-]. split; [done|]. cbn.
      destruct Hstd as (_ & _ & ->). by rewrite length_replicate.
    + intros _. unfold remaining. cbn [reader]. rewrite Hb, length_drop. lia.
  - destruct (ReadFull_short (reader cr) (SaltSize (ssCipher cr))) as (r' & -> & _); [lia|].
    intros [= <- <-]. split_and!; [done| |done|done]. by split.
Qed.

Lemma readMessage_any p cr n o cr' :
  sound p cr -> readMessage cr n = (o, cr') ->
  (forall m, o <> Panic m) /\ payload cr' = payload cr /\ ssCipher cr' = ssCipher cr /\
  aead cr' = aead cr /\ payloadSizeBuf cr' = payloadSizeBuf cr /\
  (forall q, o = Ret q -> length q = n /\ remaining cr' + n = remaining cr).
Proof.
  intros _. unfold readMessage, remaining.
  destruct (decide (n <= length (rd_bytes (reader cr)))) as [Hn|Hn].
  - destruct (ReadFull_ok _ _ Hn) as (r' & -> & Hb & _).
    destruct (Open _ _ _) as [q|]; intros [= <- <-]; split_and!; try done.
    intros q' [= <-]. rewrite length_splice by lia. cbn [reader].
    rewrite Hb, length_take, length_drop. lia.
  - destruct (ReadFull_short (reader cr) n) as (r' & -> & _); [lia|].
    intros [= <- <-]. by split_and!.
Qed.

(** The part of the state that a step of [ReadChunk] changes. *)
Lemma sound_step p cr p' cr' :
  sound p cr -> pool_ok p' (payload cr') -> plen p' = plen p ->
  ssCipher cr' = ssCipher cr -> aead cr' = aead cr ->
  length (payloadSizeBuf cr') = length (payloadSizeBuf cr) -> sound p' cr'.
Proof.
  intros [Hp Hl Hwf Ha] Hp' Hl' Hc' Ha' Hb'.
  split; [done|congruence|congruence|]. intros a. rewrite Ha', Hb'. apply Ha.
Qed.

Lemma ReadChunk_body_sound p cr o p' cr' :
  sound p cr -> is_Some (aead cr) -> ReadChunk_body p cr = (o, p', cr') ->
  (forall m, o <> Panic m) /\ sound p' cr' /\
  (forall q, o = Ret q -> remaining cr' < remaining cr).
Proof.
  intros HS [a Ha]. destruct (so_aead _ _ HS a Ha) as [(_ & Hns & Hov) Hsb].
  unfold ReadChunk_body.
  destruct (Release_ok _ _ (so_pool _ _ HS)) as (p1 & -> & Hok1 & Hpl1).
  set (cr1 := with_payload (MkLazySlice None) cr).
  assert (sound p1 cr1) as HS1 by (by apply (sound_step p cr)).
  destruct (readMessage cr1 (length (payloadSizeBuf cr1))) as [o1 cr2] eqn:E1.
  apply (readMessage_any p1) in E1 as (Hn1 & Hp1 & Hc1 & Ha1 & Hb1 & Hq1); [|done].
  change (remaining cr1) with (remaining cr) in Hq1.
  assert (sound p1 cr2) as HS2 by (apply (sound_step p1 cr1); congruence || by rewrite Hp1).
  destruct o1 as [szb|x|m]; [|by intros [= <- <- <-]|by destruct (Hn1 m)].
  destruct (Hq1 szb eq_refl) as [Hszb Hrem]. clear Hn1 Hq1.
  set (cr3 := with_sizeBuf szb cr2). change (payload cr3) with (payload cr2).
  rewrite Hp1. change (payload cr1) with (MkLazySlice None).
  destruct (Acquire_ok p1 Hok1) as (b & p2 & -> & Hok2 & Hpl2 & Hcap).
  set (cr4 := with_payload (MkLazySlice (Some b)) cr3).
  assert (the_aead cr3 = a) as Hta.
  { unfold the_aead. change (aead cr3) with (aead cr2). rewrite Ha1.
    change (aead cr1) with (aead cr). by rewrite Ha. }
  rewrite Hta, Hov. pose proof (chunk_size_le (payloadSizeBuf cr3)) as Hsz.
  pose proof (so_plen _ _ HS1). rewrite decide_False by lia.
  assert (sound p2 cr4) as HS4.
  { apply (sound_step p1 cr2); try done. change (payloadSizeBuf cr4) with szb. congruence. }
  destruct (readMessage cr4 (chunk_size (payloadSizeBuf cr3) + 16)) as [o2 cr5] eqn:E2.
  apply (readMessage_any p2) in E2 as (Hn2 & Hp2 & Hc2 & Ha2 & Hb2 & Hq2); [|done].
  assert (sound p2 cr5) as HS5 by (apply (sound_step p2 cr4); congruence || by rewrite Hp2).
  destruct o2 as [buf|x|m]; [|clear Hq2 Hn2|by destruct (Hn2 m)].
  - intros [= <- <- <-]. split_and!; [done..|]. intros q _.
    destruct (Hq2 buf eq_refl) as [_ Hrem2]. change (remaining cr4) with (remaining cr2) in Hrem2.
    change (payloadSizeBuf cr1) with (payloadSizeBuf cr) in Hrem. lia.
  - destruct (Release_ok _ _ (so_pool _ _ HS5)) as (p3 & -> & Hok3 & Hpl3).
    intros [= <- <- <-]. split_and!; [done| |done]. by apply (sound_step p2 cr5).
Qed.

Lemma ReadChunk_sound p cr o p' cr' :
  sound p cr -> ReadChunk p cr = (o, p', cr') ->
  (forall m, o <> Panic m) /\ sound p' cr' /\
  (forall q, o = Ret q -> remaining cr' < remaining cr).
Proof.
  intros HS. unfold ReadChunk. destruct (init cr) as [o1 cr1] eqn:E1.
  apply (init_sound p) in E1 as (Hn & HS1 & Ha & Hle); [|done].
  destruct o1 as [[]|x|m]; [|by intros [= <- <- <-]|by destruct (Hn m)].
  intros E2. apply ReadChunk_body_sound in E2 as (? & ? & Hlt); [|done|by apply Ha].
  split_and!; [done..|]. intros q Hq. specialize (Hlt q Hq). specialize (Hle eq_refl). lia.
Qed.

End AnyStream.

(** ** The converter on any input *)

Section AnyConverter.
Context `{CryptoLaws} {R : Type} `{ReaderLaws R}.
Implicit Types c : readConverter.t R.

Import readConverter.

Lemma ensureLeftover_sound p c o p' c' :
  sound p (cr c) -> ensureLeftover p c = (o, p', c') ->
  (forall m, o <> Panic m) /\ sound p' (cr c') /\
  (o = Ret tt -> leftover c = [] -> remaining (cr c') < remaining (cr c)) /\
  (leftover c <> [] -> c' = c).
Proof.
  intros HS. unfold ensureLeftover. case_decide as Hl.
  { intros [= <- <- <-]. split_and!; try done. intros _ E. rewrite E in Hl. simpl in Hl. lia. }
  destruct (chunkReader.ReadChunk p (cr c)) as [[o1 p1] k] eqn:E.
  apply ReadChunk_sound in E as (Hn & HS1 & Hlt); [|done].
  assert (leftover c = []) as Hnil by (destruct (leftover c); [done|simpl in Hl; lia]).
  destruct o1 as [q|x|m]; [| |by destruct (Hn m)]; intros [= <- <- <-]; split_and!; try done.
  intros _ _. by apply (Hlt q).
Qed.

Lemma Read_sound p c n o p' c' :
  sound p (cr c) -> Read p c n = (o, p', c') ->
  (forall m, o <> Panic m) /\ sound p' (cr c').
Proof.
  intros HS. unfold Read. destruct (ensureLeftover p c) as [[o1 p1] c1] eqn:E.
  apply ensureLeftover_sound in E as (Hn & HS1 & _); [|done].
  destruct o1 as [[]|x|m]; intros [= <- <- <-]; split; try done. by destruct (Hn m).
Qed.

Lemma WriteTo_loop_returns fuel : forall p c w total,
  sound p (cr c) ->
  exists n e p' c' w', WriteTo_loop fuel p c w total = (Ret (n, e), p', c', w').
Proof.
  induction fuel as [|fuel IH]; intros p c w total HS; cbn [WriteTo_loop]; [eauto 6|].
  destruct (ensureLeftover p c) as [[o1 p1] c1] eqn:E.
  apply ensureLeftover_sound in E as (Hn & HS1 & _); [|done].
  destruct o1 as [[]|x|m]; [|eauto 6|by destruct (Hn m)].
  destruct (Sink_write w (leftover c1)) as [[k e] w1].
  destruct e as [x|]; [eauto 6|]. by apply IH.
Qed.

(** The rounds left: one for what is left over, and one for each byte. *)
Definition rounds c : nat := remaining (cr c) + (if decide (leftover c = []) then 0 else 1).

Lemma Sink_write_whole w q k w' : Sink_write w q = (k, None, w') -> drop k q = [].
Proof.
  unfold Sink_write. destruct (plan w) as [|[[n x]|] rest]; intros [= <- _]; by apply drop_ge.
Qed.

(** More fuel than rounds changes nothing. *)
Lemma WriteTo_loop_fuel f1 : forall f2 p c w total,
  sound p (cr c) -> rounds c < f1 -> f1 <= f2 ->
  WriteTo_loop f2 p c w total = WriteTo_loop f1 p c w total.
Proof.
  induction f1 as [|f1 IH]; intros [|f2] p c w total HS Hr Hf; [lia..|]. cbn [WriteTo_loop].
  destruct (ensureLeftover p c) as [[o1 p1] c1] eqn:E.
  apply ensureLeftover_sound in E as (_ & HS1 & Hlt & Hsame); [|done].
  destruct o1 as [[]|x|m]; [|done..].
  destruct (Sink_write w (leftover c1)) as [[k e] w1] eqn:Ew.
  destruct e as [x|]; [done|]. apply Sink_write_whole in Ew. rewrite Ew.
  apply IH; [done| |lia]. unfold rounds in *. cbn [cr leftover].
  rewrite (decide_True (P := [] = [])) by done.
  destruct (decide (leftover c = [])) as [Hnil|Hne].
  - specialize (Hlt eq_refl Hnil). lia.
  - specialize (Hsame Hne). subst c1. lia.
Qed.

Lemma WriteTo_fuel p c w f :
  sound p (cr c) -> 2 + remaining (cr c) <= f ->
  WriteTo_loop f p c w 0 = WriteTo p c w.
Proof.
  intros HS Hf. unfold WriteTo. apply WriteTo_loop_fuel; [done| |done].
  unfold rounds, remaining. case_decide; lia.
Qed.

Lemma NewShadowsocksReader_sound choices (r : R) (c : Cipher) :
  wf_cipher c -> sound (readBufPool choices) (cr (NewShadowsocksReader r c)).
Proof.
  intros Hwf. split; [apply pool_ok_init| |done|done].
  simpl. by rewrite maxTagSize_eq.
Qed.

End AnyConverter.

(** ** The writer on any input *)

Section AnyWriter.
Context `{CryptoLaws} {R : Type} `{ReaderLaws R}.

Import Writer.

Lemma ReadFrom_returns rc sw (r : R) :
  wf_cipher (ssCipher sw) -> (aead sw = None -> is_Some (saltGenerator sw)) ->
  exists n e sw' r', ReadFrom rc sw r = (Ret (n, e), sw', r').
Proof.
  intros Hwf Hg. unfold ReadFrom. destruct (init sw) as [[[]|x|m] sw1] eqn:E.
  - destruct (if needFlush sw1 then _ else _) as [[[total err] sw2] r2].
    destruct err; [unfold ReadFrom_result; case_decide; eauto|].
    destruct (ReadFrom_loop _ sw2 r2 total) as [[[n x] sw3] r3].
    unfold ReadFrom_result. case_decide; eauto.
  - eauto.
  - exfalso. revert E. unfold init. destruct (aead sw) as [a|]; [done|].
    destruct (Hg eq_refl) as [g ->].
    destruct (GetSalt g _ _) as [[e salt] ent]. cbn [ssCipher].
    destruct e; [done|]. by destruct (NewAEAD_ok (ssCipher sw) salt Hwf) as (a & -> & _).
Qed.

Lemma ReadFrom_loop_fuel f1 : forall f2 sw (r : R) total,
  rd_fuel r < f1 -> f1 <= f2 ->
  ReadFrom_loop f2 sw r total = ReadFrom_loop f1 sw r total.
Proof.
  induction f1 as [|f1 IH]; intros [|f2] sw r total Hr Hf; [lia..|]. cbn [ReadFrom_loop].
  destruct (rd_read r payloadSizeMask) as [[d e] r'] eqn:E.
  destruct (flush _) as [fe sw1]. destruct fe; [done|]. destruct e; [done|].
  pose proof payloadSizeMask_Z. apply rd_read_progress in E; [|lia]. apply IH; lia.
Qed.

End AnyWriter.

(** ** The handler *)

Section AnyConnection.
Context `{CryptoLaws} {ops : SocksOps} {is_addr : bytes -> Prop} `{!SocksLaws is_addr}.
Context {R : Type} `{ReaderLaws R} {T : Type} `{ReaderLaws T}.
Implicit Types (env : conn_env T) (s : tcpService).

Lemma ssr_Read_sound (s : Pool * readConverter.t (bytes * measuredConn R)) n :
  sound (fst s) (readConverter.cr (snd s)) ->
  (forall m, fst (ssr_Read (R := R) s n) <> Panic m) /\
  sound (fst (snd (ssr_Read s n))) (readConverter.cr (snd (snd (ssr_Read s n)))).
Proof.
  intros HS. unfold ssr_Read. destruct (readConverter.Read (fst s) (snd s) n) as [[o p] c] eqn:E.
  exact (Read_sound _ _ _ _ _ _ HS E).
Qed.

Lemma relay_returns env uid entry p (ssr : readConverter.t (bytes * measuredConn R))
    client_out tgt :
  wf_cipher (eCipher entry) -> sound p (readConverter.cr ssr) ->
  exists r, relay env uid entry p ssr client_out tgt = Ret r.
Proof.
  intros Hwf HS. unfold relay, fromClient, readConverter.WriteTo.
  destruct (WriteTo_loop_returns
    (2 + length (rd_bytes (chunkReader.reader (readConverter.cr ssr)))) p ssr (snd tgt) 0 HS)
    as (n & e & p1 & c1 & w1 & ->). cbn [mbind outcome_bind]. unfold fromTarget.
  destruct (ReadFrom_returns Writer.NoFlush
    (Writer.SetSaltGenerator (server_gen (eSaltGenerator entry))
       (Writer.NewShadowsocksWriter client_out (eCipher entry) (env_entropy env)))
    (MkMeasured (fst tgt) 0)) as (n2 & e2 & sw & t & ->); [done|done|].
  cbn [mbind outcome_bind]. eauto.
Qed.

Lemma serve_returns env s entry uid (r : bytes * measuredConn R) client_out :
  wf_cipher (eCipher entry) ->
  exists h, serve env s entry uid r client_out = Ret h.
Proof.
  intros Hwf. unfold serve.
  destruct (ReadAddr_inv _ ssr_Read (fun x => sound (fst x) (readConverter.cr (snd x)))
    (readBufPool (env_pool env), readConverter.NewShadowsocksReader r (eCipher entry)))
    as [Hn HS].
  { intros x n. apply ssr_Read_sound. }
  { by apply NewShadowsocksReader_sound. }
  destruct (ReadAddr _ _ _) as [[addr|e|m] [p ssr]]; cbn [fst snd] in *.
  - destruct (dialer env (AddrString addr)) as [attempts noAddr].
    destruct (dialTarget _ attempts noAddr) as [c|ce]; [|eauto].
    destruct (relay_returns env uid entry p ssr client_out c Hwf HS)
      as [[[[[c' out] t] ce] evs] ->]. cbn [mbind outcome_bind]. eauto.
  - destruct (measuredConn_Discard _) as [[n x] c]. eauto.
  - by destruct (Hn m).
Qed.

Definition key_wf (key : key_result (measuredConn R)) : Prop :=
  match key with
  | KeyError _ _ _ _ => True
  | KeyFound entry _ _ _ _ => wf_cipher (eCipher entry)
  end.

Lemma connError_returns port env s key client_out :
  key_wf key -> exists h, connError port env s key client_out = Ret h.
Proof.
  intros Hk. unfold connError. destruct key as [c t e id|entry r salt t uid].
  - destruct (absorbProbe _ _ _ _) as [ev c']. eauto.
  - destruct (if IsServerSalt _ _ then _ else _) as [fresh cache].
    destruct (_ || _); [|by apply serve_returns].
    destruct (absorbProbe _ _ _ _) as [ev c']. eauto.
Qed.

Lemma findAccessKey_returns (c : measuredConn R) ip t cl :
  wf_entries cl ->
  exists key cl', findAccessKey c ip t cl = Ret (key, cl') /\ key_wf key.
Proof.
  intros Hwf. destruct (findAccessKey_eq c ip t cl Hwf) as (c' & Hf). case_decide as Hl.
  { destruct Hf as (E & _). by do 2 eexists. }
  destruct Hf as (_ & _ & E). destruct (first_auth _ _) as [e|] eqn:Ef; [|by do 2 eexists].
  do 2 eexists. split; [exact E|]. cbn.
  apply first_auth_Some in Ef as (es1 & es2 & Eo & _).
  pose proof (wf_search_order cl ip Hwf) as Hall. rewrite Eo in Hall.
  apply Forall_app in Hall as [_ Hall]. by apply Forall_cons in Hall as [? _].
Qed.

End AnyConnection.

(** ** Properties *)

(** C11: the handler always returns.  Whatever bytes the client sends, however the
    connection ends, whatever the target answers, whichever writes fail, and
    whether or not randomness can be had, a connection to a service whose keys
    are well-formed is handled to its end: no panic, and neither relay loop is
    stopped by its bound, since more fuel gives the same result. *)
Theorem handler_total `{CryptoLaws} {ops : SocksOps} {is_addr : bytes -> Prop}
    `{!SocksLaws is_addr} {R T} `{ReaderLaws R, ReaderLaws T} (port : Z) (env : conn_env T)
    (s : tcpService) (client : R) (client_out : Sink) :
  wf_entries (ciphers s) ->
  (exists h, handleConnection port env s client client_out = Ret h) /\
  (forall p (c : readConverter.t (bytes * measuredConn R)) w f,
     sound p (readConverter.cr c) -> 2 + remaining (readConverter.cr c) <= f ->
     readConverter.WriteTo_loop f p c w 0 = readConverter.WriteTo p c w) /\
  (forall sw (t : measuredConn T) total f, S (rd_fuel t) <= f ->
     Writer.ReadFrom_loop f sw t total = Writer.ReadFrom_loop (S (rd_fuel t)) sw t total).
Proof.
  intros Hwf. split_and!.
  - unfold handleConnection.
    destruct (findAccessKey_returns (MkMeasured client 0) (remoteIP env) (searchTime env)
      (ciphers s) Hwf) as (key & cl & -> & Hk). cbn [mbind outcome_bind].
    destruct (connError_returns (is_addr := is_addr) port env
      (MkTcpService cl (replayCache s) (targetIPValidator s) (readTimeout s)) key client_out Hk)
      as [h ->]. cbn [mbind outcome_bind]. eauto.
  - intros p c w f. apply WriteTo_fuel.
  - intros sw t total f Hf. apply ReadFrom_loop_fuel; lia.
Qed.

(** A client that sends garbage after the first chunk of its stream, to a
    server whose randomness fails. *)
Definition ex_broken : Conn :=
  MkConn [take 60 ex_stream; expand 3 500] ErrTimeout false.

Definition ex_no_entropy : conn_env Conn :=
  MkEnv Conn (remoteIP ex_env) (remoteAddr ex_env) 100 2 30 (dialer ex_env) [] [] [].

Lemma handler_total_witness :
  exists h, handleConnection 8388 ex_no_entropy (ex_service ∅) ex_broken ex_sink = Ret h.
Proof.
  destruct (handler_total (is_addr := toy_addr) 8388 ex_no_entropy (ex_service ∅) ex_broken
    ex_sink demo_keys_wf) as [E _].
  exact E.
Defined.
