(* ===== verification/Connections.v ===== *)
(** * Many connections at once

    The goroutines of [Serve] run [handleConnection] concurrently: the
    connections of a port share its cipher list, all connections share the
    replay cache, and meanwhile a reload replaces the entries of a list, a port
    is opened, and the packet service marks the keys it finds.  What is shared
    is behind mutexes, so a handler touches it in three atomic steps:
    [SnapshotForClientIP], [MarkUsedByClientIP] and [ReplayCache.Add].  The
    handler is cut at these steps, and the steps of all connections interleave
    in any order. *)
From S2P Require Import Prelude GoIO Cipher ToyCrypto Salt Wire SlicePool Writer.
From S2P Require Import StreamReader Stream Replay PrivateNet CipherList Metrics.
From S2P Require Import KeyFinding Tcp TcpSpec TcpExamples TcpTotal.

Section Steps.
Context `{CryptoOps} `{SocksOps} {R : Type} `{Reader R} {T : Type} `{Reader T}.

(** ** The handler, cut at its accesses to what is shared *)

(** [findAccessKey] between the snapshot and the mark: what it found, and the
    entry to mark. *)
Definition searchKey (clientReader : measuredConn R) (elapsed : Z)
    (ciphers : list (option CipherEntry))
    : outcome (key_result (measuredConn R) * option CipherEntry) :=
  let '(firstBytes, err, clientReader) := ReadFull clientReader bytesForKeyFinding in
  match err with
  | Some err => Ret (KeyError clientReader 0 (errHeader (length firstBytes) err) "", None)
  | None =>
    '(entry, id) ← findEntry firstBytes ciphers;
    match entry with
    | None => Ret (KeyError clientReader elapsed errNoCipher id, None)
    | Some entry =>
      let salt := take (SaltSize (eCipher entry)) firstBytes in
      Ret (KeyFound entry (firstBytes, clientReader) salt elapsed id, Some entry)
    end
  end.

Definition mark_found (found : option CipherEntry) (ip : IP) (cl : cipherList) : cipherList :=
  match found with Some e => MarkUsedByClientIP e ip cl | None => cl end.

(** The end of [handleConnection], after the inner function. *)
Definition connection_end (env : conn_env T) (timeout : Z) (key : key_result (measuredConn R))
    (h : handled (R := R) (T := T)) : handled :=
  MkHandled (h_service h) (h_client h) (h_client_out h) (h_target h) (h_error h)
    ([SetKeepAlive; SetReadDeadline (connStart env + timeout)] ++ h_events h ++
     [AddClosedTCPConnection (key_id key) (status_of (h_error h))
        (proxyMetrics (h_client h) (h_client_out h) (h_target h))
        (key_time key) (connDuration env);
      ClientClose]).

(** The call of [ReplayCache.Add] the inner function makes, by connection. *)
Definition handshake (i : nat) (key : key_result (measuredConn R)) : list (nat * (bytes * bytes)) :=
  match key with
  | KeyError _ _ _ _ => []
  | KeyFound entry _ salt _ _ =>
    if IsServerSalt (eSaltGenerator entry) salt then []
    else [(i, (string_bytes (ID entry), salt))]
  end.

(** ** The system *)

(** An accepted connection: the list of its service, by number, the port, what
    it meets, and its two halves. *)
Record arrival := MkArrival {
  a_list : nat;
  a_port : Z;
  a_env : conn_env T;
  a_client : R;
  a_out : Sink;
}.

(** Where its handler is: started, searching through its snapshot, about to
    check the salt, or finished.  After the check a handler touches nothing
    that is shared. *)
Inductive pc :=
| Started
| Searching (snapshot : list (option CipherEntry))
| Checking (key : key_result (measuredConn R))
| Finished (h : handled (R := R) (T := T)).

(** The cipher lists, in the order they were made, the replay cache, the
    connections, and, as a history, the calls of [Add] in the order of the
    mutex. *)
Record system := MkSystem {
  lists : list cipherList;
  cache : option ReplayCache;
  conns : list (arrival * pc);
  checks : list (nat * (bytes * bytes));
}.

(** All services have the same validator and timeout; [known] are the entries
    that are ever put in a list. *)
Context (v : TargetIPValidator) (timeout : Z) (known : CipherEntry -> Prop).

Inductive step : system -> system -> Prop :=
| step_accept ls ch cs log a :
    a_list a < length ls ->
    step (MkSystem ls ch cs log) (MkSystem ls ch (cs ++ [(a, Started)]) log)
| step_snapshot ls ch cs log i a cl snap :
    cs !! i = Some (a, Started) -> ls !! a_list a = Some cl ->
    SnapshotForClientIP cl (remoteIP (a_env a)) = Ret snap ->
    step (MkSystem ls ch cs log) (MkSystem ls ch (<[i := (a, Searching snap)]> cs) log)
| step_search ls ch cs log i a cl snap key found :
    cs !! i = Some (a, Searching snap) -> ls !! a_list a = Some cl ->
    searchKey (MkMeasured (a_client a) 0) (searchTime (a_env a)) snap = Ret (key, found) ->
    step (MkSystem ls ch cs log)
      (MkSystem (<[a_list a := mark_found found (remoteIP (a_env a)) cl]> ls) ch
         (<[i := (a, Checking key)]> cs) log)
| step_check ls ch cs log i a cl key h :
    cs !! i = Some (a, Checking key) -> ls !! a_list a = Some cl ->
    connError (a_port a) (a_env a) (MkTcpService cl ch v timeout) key (a_out a) = Ret h ->
    step (MkSystem ls ch cs log)
      (MkSystem ls (replayCache (h_service h))
         (<[i := (a, Finished (connection_end (a_env a) timeout key h))]> cs)
         (log ++ handshake i key))
| step_open ls ch cs log :
    step (MkSystem ls ch cs log) (MkSystem (ls ++ [NewCipherList]) ch cs log)
| step_update ls ch cs log l cl es :
    ls !! l = Some cl -> Forall known es ->
    step (MkSystem ls ch cs log) (MkSystem (<[l := Update es cl]> ls) ch cs log)
| step_packet ls ch cs log l cl e ip :
    ls !! l = Some cl -> known e ->
    step (MkSystem ls ch cs log) (MkSystem (<[l := MarkUsedByClientIP e ip cl]> ls) ch cs log).

Definition initial (c : option ReplayCache) : system := MkSystem [] c [] [].

End Steps.

Arguments arrival : clear implicits.
Arguments pc : clear implicits.
Arguments system : clear implicits.

(** ** The cut handler is the handler *)

Section Cut.
Context `{CryptoOps} `{SocksOps} {R : Type} `{Reader R} {T : Type} `{Reader T}.

Lemma findAccessKey_cut (c : measuredConn R) ip t cl :
  findAccessKey c ip t cl =
    (snap ← SnapshotForClientIP cl ip;
     '(key, found) ← searchKey c t snap;
     Ret (key, mark_found found ip cl)).
Proof.
  unfold findAccessKey, searchKey. destruct (SnapshotForClientIP cl ip) as [snap|e|m]; [|done..].
  cbn [mbind outcome_bind]. destruct (ReadFull c bytesForKeyFinding) as [[fb e] c1].
  destruct e as [x|]; [done|].
  by destruct (findEntry fb snap) as [[[e|] id]|x|m].
Qed.

Lemma handleConnection_cut port (env : conn_env T) s (client : R) client_out :
  handleConnection port env s client client_out =
    ('(key, cl) ← findAccessKey (MkMeasured client 0) (remoteIP env) (searchTime env) (ciphers s);
     h ← connError port env
           (MkTcpService cl (replayCache s) (targetIPValidator s) (readTimeout s)) key client_out;
     Ret (connection_end env (readTimeout s) key h)).
Proof. done. Qed.

(** The same result in a service with other keys. *)
Definition with_ciphers (cl : cipherList) (h : handled (R := R) (T := T)) : handled :=
  MkHandled (MkTcpService cl (replayCache (h_service h)) (targetIPValidator (h_service h))
      (readTimeout (h_service h)))
    (h_client h) (h_client_out h) (h_target h) (h_error h) (h_events h).

Lemma serve_ciphers (env : conn_env T) cl cl' ch v t entry uid (r : bytes * measuredConn R) out :
  serve env (MkTcpService cl ch v t) entry uid r out =
    (h ← serve env (MkTcpService cl' ch v t) entry uid r out; Ret (with_ciphers cl h)).
Proof.
  unfold serve. destruct (ReadAddr _ _ _) as [[addr|e|m] [p ssr]]; [| |done].
  - destruct (dialer env (AddrString addr)) as [attempts noAddr]. cbn [targetIPValidator].
    destruct (dialTarget v attempts noAddr) as [c|ce]; [|done].
    by destruct (relay env uid entry p ssr out c) as [[[[[c' o] t1] ce] evs]|e|m].
  - by destruct (measuredConn_Discard _) as [[n x] c].
Qed.

Lemma connError_ciphers port (env : conn_env T) cl cl' ch v t
    (key : key_result (measuredConn R)) out :
  connError port env (MkTcpService cl ch v t) key out =
    (h ← connError port env (MkTcpService cl' ch v t) key out; Ret (with_ciphers cl h)).
Proof.
  unfold connError. destruct key as [c el e id|entry r salt el uid].
  { by destruct (absorbProbe _ _ _ _). }
  cbn [replayCache ciphers targetIPValidator readTimeout].
  destruct (if IsServerSalt _ _ then _ else _) as [fresh c1].
  destruct (_ || _); [by destruct (absorbProbe _ _ _ _)|].
  by rewrite (serve_ciphers env cl cl').
Qed.

(** The cache after the inner function. *)
Lemma serve_cache (env : conn_env T) s entry uid (r : bytes * measuredConn R) out h :
  serve env s entry uid r out = Ret h -> h_service h = s.
Proof.
  unfold serve. destruct (ReadAddr _ _ _) as [[addr|e|m] [p ssr]]; [| |done].
  - destruct (dialer env (AddrString addr)) as [attempts noAddr].
    destruct (dialTarget _ attempts noAddr) as [c|ce]; [|by intros [= <-]].
    destruct (relay env uid entry p ssr out c) as [[[[[c' o] t1] ce] evs]|e|m]; try done.
    by intros [= <-].
  - destruct (measuredConn_Discard _) as [[n x] c]. by intros [= <-].
Qed.

Lemma connError_cache port (env : conn_env T) s key out i h :
  connError (R := R) port env s key out = Ret h ->
  replayCache (h_service h) = add_all (handshake i key).*2 (replayCache s).
Proof.
  unfold connError, handshake. destruct key as [c el e id|entry r salt el uid].
  { destruct (absorbProbe _ _ _ _). by intros [= <-]. }
  destruct (IsServerSalt _ _) eqn:Es; cbn [orb].
  { destruct (absorbProbe _ _ _ _). by intros [= <-]. }
  unfold add_all. cbn [fmap list_fmap foldl fst snd].
  destruct (Add _ _ _) as [fresh c1]. destruct (negb fresh).
  - destruct (absorbProbe _ _ _ _). by intros [= <-].
  - intros E. apply serve_cache in E. by rewrite E.
Qed.

Lemma handshake_in i j (key : key_result (measuredConn R)) :
  j ∈ (handshake i key).*1 -> j = i.
Proof.
  destruct key as [c t e id|e r salt t id]; cbn; [by intros ?%not_elem_of_nil|].
  destruct (IsServerSalt _ _); cbn; [by intros ?%not_elem_of_nil|]. by intros ->%list_elem_of_singleton.
Qed.

End Cut.

(** ** The invariant *)

Section Invariant.
Context `{CryptoOps} `{SocksOps} {R : Type} `{Reader R} {T : Type} `{Reader T}.
Context (v : TargetIPValidator) (timeout : Z) (known : CipherEntry -> Prop).
Context (c0 : option ReplayCache).
Implicit Types (y : system R T) (a : arrival R T).

Abbreviation step := (step v timeout known).
Abbreviation reachable y := (rtc step (initial c0) y).

(** A run, with its latest state first. *)
Inductive run : list (system R T) -> Prop :=
| run_initial : run [initial c0]
| run_step y y' ys : run (y :: ys) -> step y y' -> run (y' :: y :: ys).

Lemma run_reachable ys y : run ys -> y ∈ ys -> reachable y.
Proof.
  intros Hr. revert y. induction Hr as [|y y' ys Hr IH Hs]; intros z.
  - intros ->%list_elem_of_singleton. apply rtc_refl.
  - intros [->|Hz]%elem_of_cons; [|by apply IH]. eapply rtc_r; [apply IH; left|done].
Qed.

Lemma reachable_run y : reachable y -> exists ys, run (y :: ys).
Proof.
  revert y. apply rtc_ind_r; [exists []; constructor|].
  intros y y' _ Hs [ys Hr]. exists (y :: ys). by apply run_step.
Qed.

(** The search of connection [a] in the list as it was at [y1]. *)
Definition searched y1 a (key : key_result (measuredConn R)) : Prop :=
  exists cl cl', lists y1 !! a_list a = Some cl /\
    findAccessKey (MkMeasured (a_client a) 0) (remoteIP (a_env a)) (searchTime (a_env a)) cl =
      Ret (key, cl').

(** The connection [a] alone, in a service with the list of [y1] and the cache
    of [y2]. *)
Definition alone y1 y2 a (h : handled (R := R) (T := T)) : Prop :=
  exists cl, lists y1 !! a_list a = Some cl /\
    handleConnection (a_port a) (a_env a) (MkTcpService cl (cache y2) v timeout)
      (a_client a) (a_out a) = Ret h.

(** The two results agree but for the cipher list they leave. *)
Definition same_result (h h0 : handled (R := R) (T := T)) : Prop :=
  h = with_ciphers (ciphers (h_service h)) h0.

Definition conn_inv ys y (i : nat) (c : arrival R T * pc R T) : Prop :=
  match c with
  | (a, Started) => i ∉ (checks y).*1
  | (a, Searching snap) => (i ∉ (checks y).*1) /\ (forall e, Some e ∈ snap -> known e) /\
    exists y1 cl, y1 ∈ ys /\ conns y1 !! i = Some (a, Started) /\
      lists y1 !! a_list a = Some cl /\ SnapshotForClientIP cl (remoteIP (a_env a)) = Ret snap
  | (a, Checking key) => (i ∉ (checks y).*1) /\
    exists y1, y1 ∈ ys /\ conns y1 !! i = Some (a, Started) /\ searched y1 a key
  | (a, Finished h) =>
    exists y1 y2 before later key h0 after,
      ys = later ++ y2 :: before /\ y1 ∈ y2 :: before /\ conns y1 !! i = Some (a, Started) /\
      conns y2 !! i = Some (a, Checking key) /\ searched y1 a key /\
      alone y1 y2 a h0 /\ same_result h h0 /\
      replayCache (h_service h0) = add_all (handshake i key).*2 (cache y2) /\
      checks y = checks y2 ++ handshake i key ++ after /\
      (i ∉ (checks y2).*1) /\ (i ∉ after.*1)
  end.

Record inv ys y : Prop := {
  inv_cache : cache y = add_all (checks y).*2 c0;
  inv_nodup : NoDup (checks y).*1;
  inv_conns i c : conns y !! i = Some c -> conn_inv ys y i c;
  inv_checks i : i ∈ (checks y).*1 -> exists a h, conns y !! i = Some (a, Finished h);
  inv_lists : Forall (fun cl => Forall known (order cl)) (lists y);
}.

(** What a step that checks no salt does to a connection it does not touch. *)
Lemma conn_inv_quiet ys y y' i c :
  checks y' = checks y -> conn_inv ys y i c -> conn_inv (y' :: ys) y' i c.
Proof.
  intros Hl. destruct c as [a [|snap|key|h]]; cbn [conn_inv]; rewrite Hl.
  - done.
  - intros (? & ? & y1 & cl & He & ?). split_and!; [done..|]. exists y1, cl.
    split; [by right|done].
  - intros (? & y1 & He & ?). split; [done|]. exists y1. split; [by right|done].
  - intros (y1 & y2 & before & later & key & h0 & after & -> & ?).
    by exists y1, y2, before, (y' :: later), key, h0, after.
Qed.

(** What another connection's check does to it. *)
Lemma conn_inv_other ys y y' i j (key : key_result (measuredConn R)) c :
  checks y' = checks y ++ handshake i key -> i <> j ->
  conn_inv ys y j c -> conn_inv (y' :: ys) y' j c.
Proof.
  intros Hl Hij. assert (j ∉ (checks y).*1 -> j ∉ (checks y').*1) as Hnot.
  { rewrite Hl, fmap_app, elem_of_app. intros Hj [?|?%handshake_in]; congruence. }
  destruct c as [a [|snap|k|h]]; cbn [conn_inv].
  - done.
  - intros (? & ? & y1 & cl & He & ?). split_and!; [auto|done|]. exists y1, cl.
    split; [by right|done].
  - intros (? & y1 & He & ?). split; [auto|]. exists y1. split; [by right|done].
  - intros (y1 & y2 & before & later & k & h0 & after & -> & He & ? & ? & ? & ? & ? & ? & E & ? & Ha).
    exists y1, y2, before, (y' :: later), k, h0, (after ++ handshake i key).
    split_and!; try done; [by rewrite Hl, E, <- !app_assoc|].
    rewrite fmap_app, elem_of_app. intros [?|?%handshake_in]; congruence.
Qed.

(** The list that one connection's steps leave. *)
Lemma known_mark e ip cl :
  known e -> Forall known (order cl) -> Forall known (order (MarkUsedByClientIP e ip cl)).
Proof. intros He Hcl. by apply MoveToFront_Forall. Qed.

Lemma snapshot_known cl ip snap e :
  Forall known (order cl) -> SnapshotForClientIP cl ip = Ret snap -> Some e ∈ snap -> known e.
Proof.
  intros Hcl. rewrite Snapshot_eq. intros [= <-] (x & [= ->] & Hx)%list_elem_of_fmap.
  rewrite Forall_forall in Hcl. apply Hcl. unfold search_order in Hx. by rewrite kept_both in Hx.
Qed.

Lemma findEntry_in fb es e id :
  findEntry fb es = Ret (Some e, id) -> Some e ∈ es.
Proof.
  induction es as [|[x|] es IH]; cbn [findEntry]; [done| |done].
  destruct (tryEntry fb x); [intros [= -> _]; left|right; auto|done].
Qed.

Lemma searchKey_found (c : measuredConn R) t snap key e :
  searchKey c t snap = Ret (key, Some e) -> Some e ∈ snap.
Proof.
  unfold searchKey. destruct (ReadFull c bytesForKeyFinding) as [[fb x] c1].
  destruct x; [done|]. destruct (findEntry fb snap) as [[[e'|] id]| |] eqn:E; try done.
  cbn [mbind outcome_bind]. intros [= _ ->]. by eapply findEntry_in.
Qed.

Lemma insert_conns (P : nat -> arrival R T * pc R T -> Prop) (cs : list _) i old new :
  cs !! i = Some old -> P i new -> (forall j c, i <> j -> cs !! j = Some c -> P j c) ->
  forall j c, <[i := new]> cs !! j = Some c -> P j c.
Proof.
  intros Hi Hnew Hold j c Hj. destruct (decide (i = j)) as [->|Hij].
  - rewrite list_lookup_insert_eq in Hj by (by eapply lookup_lt_Some). by injection Hj as <-.
  - rewrite list_lookup_insert_ne in Hj by done. by apply Hold.
Qed.

(** A step that moves an unfinished connection and checks nothing. *)
Lemma inv_move ys ls ls' ch cs log i a p p' :
  let y := MkSystem ls ch cs log in let y' := MkSystem ls' ch (<[i := (a, p')]> cs) log in
  inv ys y -> cs !! i = Some (a, p) -> i ∉ log.*1 -> conn_inv (y' :: ys) y' i (a, p') ->
  Forall (fun cl => Forall known (order cl)) ls' -> inv (y' :: ys) y'.
Proof.
  intros y y' [Hc Hnd Hcs Hlog Hls] Hi Hnot Hnew Hls'. split; try done.
  - apply (insert_conns (conn_inv (y' :: ys) y') cs i (a, p)); [done..|].
    intros j c _ Hj. apply (conn_inv_quiet ys y); [done..|by apply Hcs].
  - intros j Hj. destruct (Hlog j Hj) as (b & h & Hb). exists b, h. simpl.
    rewrite list_lookup_insert_ne; [done|]. intros ->. by apply Hnot.
Qed.

(** A step that changes the lists only. *)
Lemma inv_lists_only ys ls ls' ch cs log :
  let y := MkSystem ls ch cs log in let y' := MkSystem ls' ch cs log in
  inv ys y -> Forall (fun cl => Forall known (order cl)) ls' -> inv (y' :: ys) y'.
Proof.
  intros y y' [Hc Hnd Hcs Hlog Hls] Hls'. split; try done.
  intros i c Hi. by apply (conn_inv_quiet ys y), Hcs.
Qed.

Lemma inv_accept ys ls ch cs log a :
  let y := MkSystem ls ch cs log in let y' := MkSystem ls ch (cs ++ [(a, Started)]) log in
  inv ys y -> inv (y' :: ys) y'.
Proof.
  intros y y' [Hc Hnd Hcs Hlog Hls]. split; try done.
  - intros i c [Hi|[Hlen Hi]]%lookup_app_Some.
    + by apply (conn_inv_quiet ys y), Hcs.
    + apply list_lookup_singleton_Some in Hi as [Hi <-]. cbn.
      intros (b & h & Hb)%Hlog. apply lookup_lt_Some in Hb. cbn in Hb. lia.
  - intros i (b & h & Hb)%Hlog. exists b, h. by apply lookup_app_l_Some.
Qed.

Lemma inv_search ys ls ch cs log i a cl snap key found :
  let y := MkSystem ls ch cs log in
  let y' := MkSystem (<[a_list a := mark_found found (remoteIP (a_env a)) cl]> ls) ch
              (<[i := (a, Checking key)]> cs) log in
  inv ys y -> cs !! i = Some (a, Searching snap) -> ls !! a_list a = Some cl ->
  searchKey (MkMeasured (a_client a) 0) (searchTime (a_env a)) snap = Ret (key, found) ->
  inv (y' :: ys) y'.
Proof.
  intros y y' HI Hi Hl E. pose proof (inv_conns _ _ HI i _ Hi) as Hci.
  destruct Hci as (Hnot & Hkn & y1 & cl1 & He & Hst & Hl1 & Hsnap).
  apply (inv_move ys ls _ ch cs log i a (Searching snap)); try done.
  - split; [done|]. exists y1. split_and!; [by right|done|].
    exists cl1. eexists. split; [done|]. rewrite findAccessKey_cut, Hsnap.
    cbn [mbind outcome_bind]. rewrite E. reflexivity.
  - pose proof (inv_lists _ _ HI) as Hls. apply Forall_insert; [done|].
    assert (Forall known (order cl)) as Hcl by (exact (Forall_lookup_1 _ _ _ _ Hls Hl)).
    destruct found as [e|]; [|done]. apply known_mark; [|done].
    by eapply Hkn, searchKey_found.
Qed.

Lemma inv_check ys ls ch cs log i a cl key h :
  let y := MkSystem ls ch cs log in
  let y' := MkSystem ls (replayCache (h_service h))
              (<[i := (a, Finished (connection_end (a_env a) timeout key h))]> cs)
              (log ++ handshake i key) in
  head ys = Some y -> inv ys y -> cs !! i = Some (a, Checking key) -> ls !! a_list a = Some cl ->
  connError (a_port a) (a_env a) (MkTcpService cl ch v timeout) key (a_out a) = Ret h ->
  inv (y' :: ys) y'.
Proof.
  intros y y' Hy HI Hi Hl E. pose proof (inv_conns _ _ HI i _ Hi) as (Hnot & y1 & He & Hst & Hse).
  destruct HI as [Hc Hnd Hcs Hlog Hls]. cbn in Hc, Hnd, Hlog, Hnot.
  pose proof (connError_cache _ _ _ _ _ i _ E) as Hcache. cbn [replayCache] in Hcache.
  split; unfold y'; cbn [cache checks conns lists]; [| | | |done].
  - rewrite Hcache, fmap_app, add_all_app. f_equal. exact Hc.
  - rewrite fmap_app. apply NoDup_app. split_and!; [done| |].
    + intros j Hj ->%handshake_in. done.
    + destruct key as [c t e id|e r salt t id]; cbn; [constructor|].
      destruct (IsServerSalt _ _); cbn; [constructor|apply NoDup_singleton].
  - fold y'. apply (insert_conns (conn_inv (y' :: ys) y') cs i (a, Checking key)); [done| |].
    + destruct Hse as (cl1 & cl1' & Hl1 & Ef).
      rewrite (connError_ciphers _ _ _ cl1') in E.
      destruct (connError _ _ (MkTcpService cl1' ch v timeout) key (a_out a)) as [h0|x|m] eqn:E0;
        try done. injection E as <-.
      destruct ys as [|y0 ys]; [done|]. injection Hy as ->.
      exists y1, y, ys, [y'], key, (connection_end (a_env a) timeout key h0), [].
      split_and!; [done|done|done|done|by exists cl1, cl1'| |done| |by rewrite app_nil_r|done|].
      * exists cl1. split; [done|]. rewrite handleConnection_cut. cbn [ciphers replayCache
          targetIPValidator readTimeout]. rewrite Ef. cbn [mbind outcome_bind].
        change (cache y) with ch. by rewrite E0.
      * by apply (connError_cache _ _ _ _ _ i) in E0.
      * apply not_elem_of_nil.
    + intros j c Hij Hj. apply (conn_inv_other ys y _ i j key); [done..|by apply Hcs].
  - intros j. rewrite fmap_app, elem_of_app. intros [Hj| ->%handshake_in].
    + destruct (Hlog j Hj) as (b & hb & Hb). exists b, hb.
      rewrite list_lookup_insert_ne; [done|]. intros ->. by apply Hnot.
    + eexists _, _. apply list_lookup_insert_eq. by eapply lookup_lt_Some.
Qed.

Lemma conns_inv_step y y' ys : inv (y :: ys) y -> step y y' -> inv (y' :: y :: ys) y'.
Proof.
  intros HI Hs. pose proof (inv_lists _ _ HI) as Hls.
  destruct Hs as [ls ch cs log a Ha|ls ch cs log i a cl snap Hi Hl E
    |ls ch cs log i a cl snap key found Hi Hl E|ls ch cs log i a cl key h Hi Hl E
    |ls ch cs log|ls ch cs log l cl es Hl Hes|ls ch cs log l cl e ip Hl He]; cbn in Hls.
  - by apply (inv_accept _ ls ch cs log a HI).
  - eapply inv_move; [done..|exact (inv_conns _ _ HI i _ Hi)| |done].
    pose proof (Forall_lookup_1 _ _ _ _ Hls Hl) as Hcl.
    split_and!; [exact (inv_conns _ _ HI i _ Hi)|intros e; exact (snapshot_known _ _ _ _ Hcl E)|].
    exists (MkSystem ls ch cs log), cl. split_and!; [|done..]. right. left.
  - by eapply inv_search.
  - by eapply inv_check.
  - eapply inv_lists_only; [done..|]. apply Forall_app. split; [done|].
    by apply Forall_singleton.
  - eapply inv_lists_only; [done..|]. by apply Forall_insert.
  - eapply inv_lists_only; [done..|]. apply Forall_insert; [done|].
    apply known_mark; [done|]. exact (Forall_lookup_1 _ _ _ _ Hls Hl).
Qed.

Lemma conns_inv_initial : inv [initial c0] (initial c0).
Proof. split; cbn; [done|constructor|done|by intros i ?%not_elem_of_nil|constructor]. Qed.

Lemma inv_run y ys : run (y :: ys) -> inv (y :: ys) y.
Proof.
  intros Hr. remember (y :: ys) as l eqn:E. revert y ys E.
  induction Hr as [|y y' ys Hr IH Hs]; intros z zs [= <- <-]; [apply conns_inv_initial|].
  apply conns_inv_step; [by eapply IH|done].
Qed.

Lemma conns_inv_reachable y : reachable y -> exists ys, run (y :: ys) /\ inv (y :: ys) y.
Proof. intros (ys & Hr)%reachable_run. exists ys. split; [done|by apply inv_run]. Qed.

(** What holds in every state of a run, whatever its past. *)
Lemma reachable_lists y : reachable y -> Forall (fun cl => Forall known (order cl)) (lists y).
Proof. intros (ys & _ & HI)%conns_inv_reachable. by apply (inv_lists _ _ HI). Qed.

Lemma reachable_cache y : reachable y -> cache y = add_all (checks y).*2 c0.
Proof. intros (ys & _ & HI)%conns_inv_reachable. by apply (inv_cache _ _ HI). Qed.

Lemma reachable_checks y : reachable y -> NoDup (checks y).*1.
Proof. intros (ys & _ & HI)%conns_inv_reachable. by apply (inv_nodup _ _ HI). Qed.

End Invariant.

(** ** Properties *)

Section Linearize.
Context `{CryptoOps} `{SocksOps} {R : Type} `{Reader R} {T : Type} `{Reader T}.
Context (v : TargetIPValidator) (timeout : Z) (known : CipherEntry -> Prop).
Context (c0 : option ReplayCache).
Implicit Types (y : system R T) (a : arrival R T).

(** C10: connections are isolated.  However the handlers of all ports interleave
    with each other, with reloads and with the packet service, each finished
    connection has the result it has alone: that of [handleConnection] run by
    itself, on the cipher list as it was when it took its snapshot and on the
    replay cache as the earlier checks left it; it makes at most one check, and
    the shared cache is what the handlers make of it in the order of their
    checks. *)
Theorem connections_linearize y ys i a (h : handled) :
  run v timeout known c0 (y :: ys) -> conns y !! i = Some (a, Finished h) ->
  exists y1 y2 before later cl key h0 hs after,
    y :: ys = later ++ y2 :: before /\ y1 ∈ y2 :: before /\
    conns y1 !! i = Some (a, Started) /\ conns y2 !! i = Some (a, Checking key) /\
    lists y1 !! a_list a = Some cl /\
    handleConnection (a_port a) (a_env a) (MkTcpService cl (cache y2) v timeout)
      (a_client a) (a_out a) = Ret h0 /\
    h_client h = h_client h0 /\ h_client_out h = h_client_out h0 /\
    h_target h = h_target h0 /\ h_error h = h_error h0 /\ h_events h = h_events h0 /\
    checks y = checks y2 ++ hs ++ after /\ length hs <= 1 /\
    Forall (fun x => fst x = i) hs /\ (i ∉ (checks y2 ++ after).*1) /\
    cache y2 = add_all (checks y2).*2 c0 /\
    replayCache (h_service h0) = add_all (checks y2 ++ hs).*2 c0.
Proof.
  intros Hr Hi. pose proof (inv_run _ _ _ _ _ _ Hr) as HI.
  destruct (inv_conns _ _ _ _ _ _ HI i _ Hi)
    as (y1 & y2 & before & later & key & h0 & after & E & Hy1 & Hst & Hck & _ & (cl & Hl & Eh)
        & Hsame & Hc & Hlog & Hb & Ha).
  assert (rtc (step v timeout known) (initial c0) y2) as Hy2 by (apply (run_reachable _ _ _ _ _ _ Hr); rewrite E; set_solver).
  pose proof (reachable_cache _ _ _ _ _ Hy2) as Hc2.
  exists y1, y2, before, later, cl, key, h0, (handshake i key), after. rewrite Hsame.
  split_and!; try done.
  - destruct key as [c t e id|e r salt t id]; cbn; [lia|]. destruct (IsServerSalt _ _); cbn; lia.
  - apply Forall_forall. intros x Hx. apply (handshake_in i (fst x) key).
    by apply list_elem_of_fmap_2.
  - rewrite fmap_app, elem_of_app. tauto.
  - by rewrite fmap_app, add_all_app, <- Hc2, Hc.
Qed.

End Linearize.

Section Progress.
Context `{CryptoLaws} {ops : SocksOps} {is_addr : bytes -> Prop} `{!SocksLaws is_addr}.
Context {R : Type} `{ReaderLaws R} {T : Type} `{ReaderLaws T}.
Context (v : TargetIPValidator) (timeout : Z) (known : CipherEntry -> Prop).
Context (known_wf : forall e, known e -> wf_cipher (eCipher e)).
Context (c0 : option ReplayCache).
Implicit Types (y : system R T) (a : arrival R T).

Abbreviation step := (step v timeout known).
Abbreviation reachable y := (rtc step (initial c0) y).

Lemma known_entries cl : Forall known (order cl) -> wf_entries cl.
Proof. intros Hcl. eapply Forall_impl; [exact Hcl|exact known_wf]. Qed.

(** The result of a connection's search is well-formed. *)
Lemma searched_wf y a key :
  reachable y -> searched y a key -> key_wf key.
Proof.
  intros Hy (cl & cl' & Hl & E).
  pose proof (Forall_lookup_1 _ _ _ _ (reachable_lists _ _ _ _ _ Hy) Hl) as Hcl.
  destruct (findAccessKey_returns (MkMeasured (a_client a) 0) (remoteIP (a_env a))
    (searchTime (a_env a)) cl (known_entries _ Hcl)) as (key' & cl2 & E' & Hk).
  rewrite E in E'. by injection E' as <- _.
Qed.

(** Nothing that one connection does takes its list away. *)
Lemma step_list y y' l : step y y' -> is_Some (lists y !! l) -> is_Some (lists y' !! l).
Proof.
  intros Hs Hl. assert (length (lists y) <= length (lists y')) as Hle.
  { destruct Hs; cbn; rewrite ?length_insert, ?length_app; lia. }
  apply lookup_lt_is_Some in Hl. apply lookup_lt_is_Some. lia.
Qed.

(** Every connection has its list. *)
Lemma conn_list y i a p : reachable y -> conns y !! i = Some (a, p) -> is_Some (lists y !! a_list a).
Proof.
  intros Hy. revert y Hy i a p. apply (rtc_ind_r (fun y => forall i a p,
    conns y !! i = Some (a, p) -> is_Some (lists y !! a_list a))); [done|].
  intros y y' _ Hs IH i a p Hi. enough ((exists q, conns y !! i = Some (a, q)) \/
    a_list a < length (lists y)) as [[q Hq]|Hq].
  - eapply step_list; [done|by eapply IH].
  - apply (step_list y); [done|]. by apply lookup_lt_is_Some.
  - destruct Hs; cbn in *; try (by left; exists p);
      repeat match goal with
      | E : <[?k := _]> _ !! i = _ |- _ =>
        apply list_lookup_insert_Some in E as [(-> & E & _)|[_ E]]; simplify_eq; eauto
      end.
    apply lookup_app_Some in Hi as [?|[_ E]]; [eauto|].
    apply list_lookup_singleton_Some in E as [_ E]. simplify_eq. eauto.
Qed.

(** A step of connection [i]. *)
Definition own (i : nat) y y' : Prop :=
  step y y' /\ forall j, i <> j -> conns y' !! j = conns y !! j.

Lemma own_insert i ls ls' ch ch' cs log log' new :
  step (MkSystem ls ch cs log) (MkSystem ls' ch' (<[i := new]> cs) log') ->
  own i (MkSystem ls ch cs log) (MkSystem ls' ch' (<[i := new]> cs) log').
Proof. intros Hs. split; [done|]. intros j Hj. by apply list_lookup_insert_ne. Qed.

Lemma progress_check y i a key :
  reachable y -> conns y !! i = Some (a, Checking key) ->
  exists y' h, own i y y' /\ conns y' !! i = Some (a, Finished h).
Proof.
  intros Hy Hi. destruct (conn_list y i a _ Hy Hi) as [cl Hl].
  destruct (conns_inv_reachable _ _ _ _ _ Hy) as (ys & Hr & HI).
  destruct (inv_conns _ _ _ _ _ _ HI i _ Hi) as (_ & y1 & Hy1 & _ & Hse).
  apply (run_reachable _ _ _ _ _ _ Hr) in Hy1.
  destruct (connError_returns (is_addr := is_addr) (a_port a) (a_env a)
    (MkTcpService cl (cache y) v timeout) key (a_out a)) as [h E]; [by eapply searched_wf|].
  destruct y as [ls ch cs log]. cbn in *. eexists _, _. split.
  - eapply own_insert, step_check; [done..|exact E].
  - apply list_lookup_insert_eq. by eapply lookup_lt_Some.
Qed.

Lemma progress_search y i a snap :
  reachable y -> conns y !! i = Some (a, Searching snap) ->
  exists y' key, own i y y' /\ conns y' !! i = Some (a, Checking key).
Proof.
  intros Hy Hi. destruct (conn_list y i a _ Hy Hi) as [cl Hl].
  destruct (conns_inv_reachable _ _ _ _ _ Hy) as (ys & Hr & HI).
  destruct (inv_conns _ _ _ _ _ _ HI i _ Hi) as (_ & _ & y1 & cl1 & Hy1 & _ & Hl1 & Hsnap).
  apply (run_reachable _ _ _ _ _ _ Hr) in Hy1.
  pose proof (Forall_lookup_1 _ _ _ _ (reachable_lists _ _ _ _ _ Hy1) Hl1) as Hcl.
  destruct (findAccessKey_returns (MkMeasured (a_client a) 0) (remoteIP (a_env a))
    (searchTime (a_env a)) cl1 (known_entries _ Hcl)) as (key & cl2 & E & _).
  rewrite findAccessKey_cut, Hsnap in E. cbn [mbind outcome_bind] in E.
  destruct (searchKey _ _ snap) as [[key1 found]|x|m] eqn:Es; try done.
  destruct y as [ls ch cs log]. cbn in *. eexists _, key1. split.
  - eapply own_insert, step_search; [done..|exact Es].
  - apply list_lookup_insert_eq. by eapply lookup_lt_Some.
Qed.

Lemma progress_snapshot y i a :
  reachable y -> conns y !! i = Some (a, Started) ->
  exists y' snap, own i y y' /\ conns y' !! i = Some (a, Searching snap).
Proof.
  intros Hy Hi. destruct (conn_list y i a _ Hy Hi) as [cl Hl].
  destruct y as [ls ch cs log]. cbn in *. eexists _, _. split.
  - eapply own_insert, step_snapshot; [done..|apply Snapshot_eq].
  - apply list_lookup_insert_eq. by eapply lookup_lt_Some.
Qed.

(** How far a handler is from its end, in steps of its own. *)
Definition rank (p : pc R T) : nat :=
  match p with Started => 3 | Searching _ => 2 | Checking _ => 1 | Finished _ => 0 end.

(** A handler that is not finished can move, wherever the others are. *)
Lemma connection_progress y i a (p : pc R T) :
  reachable y -> conns y !! i = Some (a, p) -> 0 < rank p ->
  exists y' q, own i y y' /\ conns y' !! i = Some (a, q) /\ rank q < rank p.
Proof.
  intros Hy Hi Hp. destruct p as [|snap|key|h]; cbn [rank] in *; [| | |lia].
  - destruct (progress_snapshot y i a Hy Hi) as (y' & snap & ? & ?).
    exists y', (Searching snap). split_and!; [done..|cbn [rank]; lia].
  - destruct (progress_search y i a snap Hy Hi) as (y' & key & ? & ?).
    exists y', (Checking key). split_and!; [done..|cbn [rank]; lia].
  - destruct (progress_check y i a key Hy Hi) as (y' & h & ? & ?).
    exists y', (Finished h). split_and!; [done..|cbn [rank]; lia].
Qed.

(** No connection waits for another.  From every reachable state, every
    accepted connection that is not finished can be taken to its end by its own
    steps alone, the others staying where they are. *)
Lemma connection_finishes y i a (p : pc R T) :
  reachable y -> conns y !! i = Some (a, p) ->
  exists y' h, rtc step y y' /\ conns y' !! i = Some (a, Finished h) /\
    forall j, i <> j -> conns y' !! j = conns y !! j.
Proof.
  intros Hy Hi. remember (rank p) as n eqn:Hn. revert y p Hy Hi Hn.
  induction (lt_wf n) as [n _ IH]. intros y p Hy Hi ->.
  destruct (decide (rank p = 0)) as [Hz|Hz].
  { destruct p as [|?|?|h]; try done. exists y, h. split_and!; [apply rtc_refl|done..]. }
  destruct (connection_progress y i a p Hy Hi) as (y1 & q & [Hs Ho] & Hq & Hlt); [lia|].
  destruct (IH (rank q) Hlt y1 q) as (y2 & h & Hs2 & Hf & Ho2); [by eapply rtc_r|done..|].
  exists y2, h. split_and!; [by eapply rtc_l|done|]. intros j Hj. by rewrite Ho2, Ho.
Qed.

End Progress.

(** ** Fair executions

    An execution is a sequence of states, one for each moment, where at most one
    step happens between two moments; the scheduler is fair to a connection if
    whenever its handler can move it later moves, or cannot any more. *)
Section Fairness.
Context `{CryptoLaws} {ops : SocksOps} {is_addr : bytes -> Prop} `{!SocksLaws is_addr}.
Context {R : Type} `{ReaderLaws R} {T : Type} `{ReaderLaws T}.
Context (v : TargetIPValidator) (timeout : Z) (known : CipherEntry -> Prop).
Context (c0 : option ReplayCache).
Implicit Types (y : system R T) (a : arrival R T) (tr : nat -> system R T).

Abbreviation step := (step v timeout known).
Abbreviation reachable y := (rtc step (initial c0) y).
Abbreviation run := (run v timeout known c0).

Definition moves (i : nat) y y' : Prop := step y y' /\ conns y' !! i <> conns y !! i.

Definition can_move (i : nat) y : Prop := exists y', moves i y y'.

Definition execution tr : Prop :=
  tr 0 = initial c0 /\ forall n, tr (S n) = tr n \/ step (tr n) (tr (S n)).

Definition fair (i : nat) tr : Prop :=
  forall n, can_move i (tr n) ->
    exists m, n <= m /\ (moves i (tr m) (tr (S m)) \/ ~ can_move i (tr m)).

(** What a step does to a connection. *)
Lemma step_rank y y' i a p :
  step y y' -> conns y !! i = Some (a, p) ->
  exists q, conns y' !! i = Some (a, q) /\ (q = p \/ rank q < rank p).
Proof.
  intros Hs Hi. assert (forall (k : nat) (b : arrival R T) (q q' : pc R T) (cs : list (arrival R T * pc R T)),
    cs !! k = Some (b, q) -> rank q' < rank q -> cs !! i = Some (a, p) ->
    exists r, <[k := (b, q')]> cs !! i = Some (a, r) /\ (r = p \/ rank r < rank p)) as Hins.
  { intros k b q q' cs Hk Hlt Hc. destruct (decide (k = i)) as [->|Hne].
    - rewrite Hc in Hk. injection Hk as -> ->. exists q'. split; [|by right].
      apply list_lookup_insert_eq. by eapply lookup_lt_Some.
    - exists p. split; [|by left]. by rewrite list_lookup_insert_ne. }
  destruct Hs; cbn in *; try (exists p; split; [done|by left]);
    try (eapply Hins; [eassumption|cbn; lia|done]).
  exists p. split; [by apply lookup_app_l_Some|by left].
Qed.

Lemma finished_stays y y' i a h :
  step y y' -> conns y !! i = Some (a, Finished h) -> conns y' !! i = Some (a, Finished h).
Proof.
  intros Hs Hi. destruct (step_rank y y' i a _ Hs Hi) as (q & Hq & [->|Hlt]); [done|].
  cbn in Hlt. lia.
Qed.

Lemma finished_cannot_move y i a h : conns y !! i = Some (a, Finished h) -> ~ can_move i y.
Proof. intros Hi (y' & Hs & Hne). apply Hne. rewrite Hi. by eapply finished_stays. Qed.

Lemma execution_reachable tr n : execution tr -> reachable (tr n).
Proof.
  intros [Hzero Hs]. induction n as [|n IH]; [rewrite Hzero; apply rtc_refl|].
  destruct (Hs n) as [->|?]; [done|by eapply rtc_r].
Qed.

(** The states up to a moment, without repetition, are a run. *)
Lemma execution_run tr n : execution tr ->
  exists ys, run (tr n :: ys) /\ forall y, y ∈ tr n :: ys -> exists m, m <= n /\ y = tr m.
Proof.
  intros [Hzero Hs]. induction n as [|n (ys & Hr & Hin)].
  - exists []. rewrite Hzero. split; [constructor|]. intros y ->%list_elem_of_singleton. by exists 0.
  - destruct (Hs n) as [E|Hst].
    + exists ys. rewrite E. split; [done|]. intros y (m & ? & ->)%Hin. exists m. split; [lia|done].
    + exists (tr n :: ys). split; [by apply run_step|].
      intros y [->|(m & ? & ->)%Hin]%elem_of_cons; [by exists (S n)|]. exists m. split; [lia|done].
Qed.

Lemma execution_rank tr n m i a p : execution tr -> n <= m -> conns (tr n) !! i = Some (a, p) ->
  exists q, conns (tr m) !! i = Some (a, q) /\ (q = p \/ rank q < rank p).
Proof.
  intros [_ Hs] Hle Hi. induction Hle as [|m Hle (q & Hq & Hr)]; [exists p; by split; [|left]|].
  destruct (Hs m) as [->|Hst]; [by exists q|].
  destruct (step_rank _ _ i a q Hst Hq) as (q' & Hq' & [->|Hlt]); [by exists q|].
  exists q'. split; [done|]. right. destruct Hr as [->|?]; lia.
Qed.

Lemma execution_finished tr n m i a h : execution tr -> n <= m ->
  conns (tr n) !! i = Some (a, Finished h) -> conns (tr m) !! i = Some (a, Finished h).
Proof.
  intros Hx Hle Hi. destruct (execution_rank tr n m i a _ Hx Hle Hi) as (q & Hq & [->|Hlt]);
    [done|]. cbn in Hlt. lia.
Qed.

(** A scheduler that is fair to a connection brings it to its end. *)
Lemma eventually_finished (known_wf : forall e, known e -> wf_cipher (eCipher e)) tr i n a p :
  execution tr -> fair i tr -> conns (tr n) !! i = Some (a, p) ->
  exists m h, n <= m /\ conns (tr m) !! i = Some (a, Finished h).
Proof.
  intros Hx Hf. remember (rank p) as k eqn:Hk. revert n p Hk.
  induction (lt_wf k) as [k _ IH]. intros n p -> Hi.
  destruct (decide (rank p = 0)) as [Hz|Hz].
  { destruct p as [|?|?|h]; try done. by exists n, h. }
  assert (forall m q, conns (tr m) !! i = Some (a, q) -> 0 < rank q -> can_move i (tr m)) as Hcan.
  { intros m q Hq Hp. pose proof (execution_reachable tr m Hx) as Hy.
    destruct (connection_progress (is_addr := is_addr) v timeout known known_wf c0 _ i a q Hy Hq Hp)
      as (y' & q' & [Hs _] & Hq' & Hlt).
    exists y'. split; [done|]. rewrite Hq', Hq. intros [= ->]. lia. }
  destruct (Hf n) as (m & Hle & Hm); [apply (Hcan n p Hi); lia|].
  destruct (execution_rank tr n m i a p Hx Hle Hi) as (q & Hq & Hr).
  enough (exists m' q', n <= m' /\ conns (tr m') !! i = Some (a, q') /\ rank q' < rank p)
    as (m' & q' & Hle' & Hq' & Hlt').
  { destruct (IH (rank q') Hlt' m' q' eq_refl Hq') as (m2 & h & ? & ?).
    exists m2, h. split; [lia|done]. }
  destruct Hm as [[Hs Hne]|Hno].
  - destruct (step_rank _ _ i a q Hs Hq) as (q' & Hq' & [->|Hlt]); [congruence|].
    exists (S m), q'. split_and!; [lia|done|]. destruct Hr as [->|?]; lia.
  - exists m, q. split_and!; [done..|]. destruct (decide (rank q = 0)); [lia|].
    destruct Hno. apply (Hcan m q Hq). lia.
Qed.

(** A run, which then stays as it is, as an execution. *)
Definition trace_of y (past : list (system R T)) (n : nat) : system R T :=
  default y (reverse (y :: past) !! n).

Lemma trace_of_elem y past n : trace_of y past n ∈ y :: past.
Proof.
  unfold trace_of. destruct (reverse (y :: past) !! n) as [z|] eqn:E; [|left].
  apply list_elem_of_lookup_2 in E. by rewrite elem_of_reverse in E.
Qed.

Lemma run_steps (l : list (system R T)) : run l -> reverse l !! 0 = Some (initial c0) /\
  forall n y1 y2, reverse l !! n = Some y1 -> reverse l !! S n = Some y2 -> step y1 y2.
Proof.
  induction 1 as [|y y' ys Hr [IH0 IH] Hs]; [by split|].
  rewrite reverse_cons. split; [by apply lookup_app_l_Some|].
  intros n y1 y2 E1 E2. apply lookup_app_Some in E2 as [E2|[Hl E2]].
  - apply (IH n); [|done]. rewrite lookup_app_l in E1; [done|].
    apply lookup_lt_Some in E2. lia.
  - apply list_lookup_singleton_Some in E2 as [Hz <-].
    rewrite length_reverse in Hl, Hz. cbn [length] in Hl, Hz.
    assert (n = length ys) as -> by lia.
    rewrite lookup_app_l in E1 by (rewrite length_reverse; cbn; lia).
    rewrite reverse_cons, lookup_app_r in E1 by (rewrite length_reverse; lia).
    rewrite length_reverse, Nat.sub_diag in E1. by injection E1 as <-.
Qed.

Lemma run_execution y past : run (y :: past) -> execution (trace_of y past).
Proof.
  intros [Hzero Hs]%run_steps. split; [unfold trace_of; by rewrite Hzero|]. intros n. unfold trace_of.
  destruct (reverse (y :: past) !! S n) as [y2|] eqn:E2.
  - destruct (reverse (y :: past) !! n) as [y1|] eqn:E1; [right; by eapply Hs|].
    apply lookup_ge_None in E1. apply lookup_lt_Some in E2. lia.
  - left. destruct (reverse (y :: past) !! n) as [y1|] eqn:E1; [|done]. cbn [default].
    apply lookup_ge_None in E2. pose proof (lookup_lt_Some _ _ _ E1) as Hl.
    rewrite reverse_cons, length_app, length_reverse in *. cbn [length] in *.
    assert (n = length past) as -> by lia.
    rewrite lookup_app_r in E1 by (rewrite length_reverse; lia).
    rewrite length_reverse, Nat.sub_diag in E1. by injection E1 as <-.
Qed.

Lemma trace_of_last y past n : length (y :: past) <= n -> trace_of y past n = y.
Proof. intros Hn. unfold trace_of. rewrite lookup_ge_None_2; [done|]. by rewrite length_reverse. Qed.

Lemma trace_of_fair y past i a h :
  conns y !! i = Some (a, Finished h) -> fair i (trace_of y past).
Proof.
  intros Hi n _. exists (n + length (y :: past)). split; [lia|]. right.
  rewrite trace_of_last by lia.
  by eapply finished_cannot_move.
Qed.

End Fairness.

(** ** A run of two connections

    The same stream twice, at the same time: both searches are done before the
    first check. *)
Definition ex_arrival : arrival Conn Conn := MkArrival 0 8388 ex_env ex_client ex_sink.
Definition ex_known (e : CipherEntry) : Prop := e ∈ order demo_keys.
Definition ex_cache : ReplayCache := MkReplayCache 5 ∅ ∅.
Definition ex_validator : TargetIPValidator := targetIPValidator (ex_service ∅).
Definition ex_timeout : Z := readTimeout (ex_service ∅).

Definition ex_rest : measuredConn Conn :=
  snd (ReadFull (MkMeasured ex_client 0) bytesForKeyFinding).
Definition ex_key : key_result (measuredConn Conn) :=
  KeyFound ex_entry (take 50 ex_stream, ex_rest) demo_client_salt 2 "carol".
Definition ex_check : bytes * bytes := (string_bytes "carol", demo_client_salt).
Definition ex_marked (cl : cipherList) : cipherList :=
  MarkUsedByClientIP ex_entry (remoteIP ex_env) cl.

Definition ex_checking : system Conn Conn :=
  MkSystem [ex_marked (ex_marked demo_keys)] (Some ex_cache)
    [(ex_arrival, Checking ex_key); (ex_arrival, Checking ex_key)] [].

Lemma ex_known_wf e : ex_known e -> wf_cipher (eCipher e).
Proof. pose proof demo_keys_wf as Hwf. unfold wf_entries in Hwf. rewrite Forall_forall in Hwf. apply Hwf. Qed.

Lemma ex_search :
  searchKey (MkMeasured ex_client 0) 2 (Some <$> search_order demo_keys (remoteIP ex_env)) =
    Ret (ex_key, Some ex_entry).
Proof.
  unfold searchKey.
  replace (ReadFull (MkMeasured ex_client 0) bytesForKeyFinding)
    with (take 50 ex_stream, @None error, ex_rest) by (vm_compute; reflexivity).
  rewrite findEntry_eq; [|by apply wf_search_order, demo_keys_wf|vm_compute; reflexivity].
  replace (first_auth (take 50 ex_stream) (search_order demo_keys (remoteIP ex_env)))
    with (Some ex_entry) by reflexivity.
  cbn [mbind outcome_bind]. unfold ex_key.
  replace (take _ (take 50 ex_stream)) with demo_client_salt by (vm_compute; reflexivity).
  reflexivity.
Qed.

Lemma ex_checking_reach :
  rtc (step ex_validator ex_timeout ex_known) (initial (Some ex_cache)) ex_checking.
Proof.
  eapply rtc_l; [apply step_open|].
  eapply rtc_l; [eapply (step_update _ _ _ _ _ _ _ 0 _ (order demo_keys)); [reflexivity|]|].
  { by apply Forall_forall. }
  change (<[0 := _]> _) with [demo_keys].
  do 2 (eapply rtc_l; [apply (step_accept _ _ _ _ _ _ _ ex_arrival); cbn; lia|]).
  eapply rtc_l; [eapply (step_snapshot _ _ _ _ _ _ _ 0 ex_arrival demo_keys);
    [reflexivity|reflexivity|apply Snapshot_eq]|].
  eapply rtc_l; [eapply (step_snapshot _ _ _ _ _ _ _ 1 ex_arrival demo_keys);
    [reflexivity|reflexivity|apply Snapshot_eq]|].
  eapply rtc_l; [eapply (step_search _ _ _ _ _ _ _ 0 ex_arrival demo_keys);
    [reflexivity|reflexivity|exact ex_search]|].
  eapply rtc_l; [eapply (step_search _ _ _ _ _ _ _ 1 ex_arrival (ex_marked demo_keys));
    [reflexivity|reflexivity|exact ex_search]|].
  apply rtc_refl.
Qed.

Lemma ex_run :
  exists y h0 h1, rtc (step ex_validator ex_timeout ex_known) (initial (Some ex_cache)) y /\
    conns y = [(ex_arrival, Finished h0); (ex_arrival, Finished h1)] /\
    checks y = [(0, ex_check); (1, ex_check)].
Proof.
  assert (key_wf ex_key) as Hwf.
  { apply ex_known_wf. unfold ex_known. set_solver. }
  assert (forall i, handshake i ex_key = [(i, ex_check)]) as Hh by done.
  destruct (connError_returns (is_addr := toy_addr) 8388 ex_env
    (MkTcpService (ex_marked (ex_marked demo_keys)) (Some ex_cache) ex_validator ex_timeout)
    ex_key ex_sink Hwf) as [h0 E0].
  destruct (connError_returns (is_addr := toy_addr) 8388 ex_env
    (MkTcpService (ex_marked (ex_marked demo_keys)) (replayCache (h_service h0)) ex_validator
       ex_timeout) ex_key ex_sink Hwf) as [h1 E1].
  do 3 eexists. split_and!.
  - etrans; [exact ex_checking_reach|].
    eapply rtc_l; [eapply (step_check _ _ _ _ _ _ _ 0 ex_arrival); [reflexivity..|exact E0]|].
    rewrite Hh.
    eapply rtc_l; [eapply (step_check _ _ _ _ _ _ _ 1 ex_arrival); [reflexivity..|exact E1]|].
    rewrite Hh. apply rtc_refl.
  - reflexivity.
  - reflexivity.
Qed.

Lemma connections_linearize_witness :
  exists y ys h (y1 y2 : system Conn Conn) cl h0, conns y !! 1 = Some (ex_arrival, Finished h) /\
    y1 ∈ y :: ys /\ lists y1 !! 0 = Some cl /\
    handleConnection 8388 ex_env (MkTcpService cl (cache y2) ex_validator ex_timeout)
      ex_client ex_sink = Ret h0 /\ h_events h = h_events h0.
Proof.
  destruct ex_run as (y & h0 & h1 & Hy & Hc & _).
  destruct (reachable_run _ _ _ _ _ Hy) as [ys Hr]. exists y, ys, h1.
  assert (conns y !! 1 = Some (ex_arrival, Finished h1)) as H1 by (by rewrite Hc).
  destruct (connections_linearize ex_validator ex_timeout ex_known (Some ex_cache) y ys 1
    ex_arrival h1 Hr H1) as (y1 & y2 & before & later & cl & key & h & hs & after & Ey & Hy1 & _ & _
      & Hl & E & _ & _ & _ & _ & Hev & _).
  exists y1, y2, cl, h. split_and!; [exact H1| |exact Hl|exact E|exact Hev].
  rewrite Ey. apply elem_of_app. right. exact Hy1.
Defined.
