(* ===== verification/Probes.v ===== *)
(** * The defences of [service/PROBES.md]

    Replays and reflections against the whole server: many connections on all
    ports at once, in the system of [Connections]. *)
From S2P Require Import Prelude GoIO Cipher ToyCrypto Salt Wire SlicePool Writer.
From S2P Require Import StreamReader Stream Replay PrivateNet CipherList Metrics.
From S2P Require Import KeyFinding Tcp TcpSpec TcpExamples TcpTotal Connections.

(** ** The check a stream leads to *)

Section CheckOf.
Context `{CryptoLaws} {R : Type} `{ReaderLaws R}.

(** The call of [Add] for the stream [stream] of connection [i], found in the
    list [cl]. *)
Definition check_of (i : nat) (cl : cipherList) (ip : IP) (stream : bytes)
    : list (nat * (bytes * bytes)) :=
  if decide (length stream < bytesForKeyFinding) then []
  else
    match first_auth (take bytesForKeyFinding stream) (search_order cl ip) with
    | None => []
    | Some e =>
      let salt := take (SaltSize (eCipher e)) stream in
      if IsServerSalt (eSaltGenerator e) salt then [] else [(i, (string_bytes (ID e), salt))]
    end.

Lemma handshake_check (r : R) ip t cl key cl' i :
  wf_entries cl -> findAccessKey (MkMeasured r 0) ip t cl = Ret (key, cl') ->
  handshake i key = check_of i cl ip (rd_bytes r).
Proof.
  intros Hwf E. destruct (findAccessKey_eq (MkMeasured r 0) ip t cl Hwf) as (r' & Hf).
  change (rd_bytes (MkMeasured r 0)) with (rd_bytes r) in Hf. unfold check_of.
  case_decide as Hl.
  - destruct Hf as (E' & _). rewrite E' in E. by injection E as <- _.
  - destruct Hf as (_ & _ & E').
    destruct (first_auth _ _); rewrite E' in E; by injection E as <- _.
Qed.

End CheckOf.

(** ** Positions in the history *)

Lemma split_unique {A B} (l1 l2 r1 r2 : list (A * B)) x x' :
  l1 ++ x :: r1 = l2 ++ x' :: r2 -> fst x = fst x' ->
  (fst x ∉ l1.*1) -> (fst x ∉ l2.*1) -> l1 = l2 /\ x = x' /\ r1 = r2.
Proof.
  revert l2. induction l1 as [|z l1 IH]; intros [|z' l2] E Hx H1 H2;
    cbn [app fmap list_fmap] in *; injection E as E1 E2.
  - done.
  - subst z'. destruct H2. left.
  - subst z. destruct H1. rewrite Hx. left.
  - rewrite not_elem_of_cons in H1, H2. subst z'. destruct (IH l2) as (-> & -> & ->); tauto.
Qed.

Lemma two_elements {A} (l : list A) x x' :
  x ∈ l -> x' ∈ l -> x <> x' ->
  exists l1 l2 l3, l = l1 ++ x :: l2 ++ x' :: l3 \/ l = l1 ++ x' :: l2 ++ x :: l3.
Proof.
  intros (l1 & l2 & ->)%list_elem_of_split Hx' Hne.
  rewrite elem_of_app, elem_of_cons in Hx'. destruct Hx' as [Hx'|[->|Hx']]; [|done|].
  - apply list_elem_of_split in Hx' as (l3 & l4 & ->). exists l3, l4, l2. right.
    by rewrite <- app_assoc.
  - apply list_elem_of_split in Hx' as (l3 & l4 & ->). exists l1, l3, l4. by left.
Qed.

(** ** One connection of the system *)

Section Finished.
Context `{CryptoLaws} {ops : SocksOps} {is_addr : bytes -> Prop} `{!SocksLaws is_addr}.
Context {R : Type} `{ReaderLaws R} {T : Type} `{ReaderLaws T}.
Context (v : TargetIPValidator) (timeout : Z) (known : CipherEntry -> Prop).
Context (known_wf : forall e, known e -> wf_cipher (eCipher e)).
Context (c0 : option ReplayCache).
Implicit Types (y : system R T) (a : arrival R T).

Abbreviation step := (step v timeout known).
Abbreviation reachable y := (rtc step (initial c0) y).

(** Where a finished connection took its snapshot and made its check, and its
    result there. *)
Record settled (ys : list (system R T)) y (i : nat) a (h : handled (R := R) (T := T)) y1 y2 (cl : cipherList)
    (after : list (nat * (bytes * bytes))) : Prop := {
  se_past : y1 ∈ ys;
  se_started : conns y1 !! i = Some (a, Started);
  se_list : lists y1 !! a_list a = Some cl;
  se_known : Forall known (order cl);
  se_alone : exists h0, handleConnection (a_port a) (a_env a)
      (MkTcpService cl (cache y2) v timeout) (a_client a) (a_out a) = Ret h0 /\
    same_result h h0;
  se_cache : cache y2 = add_all (checks y2).*2 c0;
  se_checks : checks y =
    checks y2 ++ check_of i cl (remoteIP (a_env a)) (rd_bytes (a_client a)) ++ after;
  se_once : (i ∉ (checks y2).*1) /\ (i ∉ after.*1);
  se_checking : y2 ∈ ys /\ exists key, conns y2 !! i = Some (a, Checking key);
}.

Lemma finished_settled ys y i a h :
  run v timeout known c0 (y :: ys) -> conns y !! i = Some (a, Finished h) ->
  exists y1 y2 cl after, settled (y :: ys) y i a h y1 y2 cl after.
Proof.
  intros Hr Hi. pose proof (inv_run _ _ _ _ _ _ Hr) as HI.
  destruct (inv_conns _ _ _ _ _ _ HI i _ Hi) as (y1 & y2 & before & later & key & h0 & after &
    E & Hin & Hst & Hchk & (cl' & cl2 & Hl' & Ef) & (cl & Hl & Eh) & Hsame & Hc & Hlog & Hb & Ha).
  rewrite Hl in Hl'. injection Hl' as <-.
  assert (y1 ∈ y :: ys) as Hy1 by (rewrite E, elem_of_app; by right).
  assert (y2 ∈ y :: ys) as Hy2 by (rewrite E, elem_of_app, elem_of_cons; auto).
  pose proof (run_reachable _ _ _ _ _ _ Hr Hy2) as Hr2.
  pose proof (run_reachable _ _ _ _ _ _ Hr Hy1) as Hr1.
  pose proof (Forall_lookup_1 _ _ _ _ (reachable_lists _ _ _ _ _ Hr1) Hl) as Hcl.
  exists y1, y2, cl, after. split; try done.
  - by exists h0.
  - by apply reachable_cache in Hr2.
  - by rewrite <- (handshake_check _ _ _ _ _ _ i (known_entries _ known_wf _ Hcl) Ef).
  - split; [done|by exists key].
Qed.

(** A connection that is turned away. *)
Definition turned_away a (h : handled (R := R) (T := T)) (why : string * string * Z) : Prop :=
  h_client_out h = a_out a /\ rd_bytes (h_client h) = [] /\ h_target h = None /\
  h_events h = probe_events (a_env a) (MkTcpService NewCipherList None v timeout) (a_port a)
    (rd_bytes (a_client a)) (rd_end (a_client a)) (a_out a) why.

Lemma settled_rejected ys y i a h y1 y2 cl after why :
  settled ys y i a h y1 y2 cl after ->
  rejection (a_env a) (MkTcpService cl (cache y2) v timeout) (rd_bytes (a_client a)) = Some why ->
  turned_away a h why.
Proof.
  intros HS Hrej. destruct (se_alone _ _ _ _ _ _ _ _ _ HS) as (h0 & E & ->).
  destruct (probe_rejected (a_port a) (a_env a) (MkTcpService cl (cache y2) v timeout) _
    (a_out a) _ (known_entries _ known_wf _ (se_known _ _ _ _ _ _ _ _ _ HS)) Hrej)
    as (h' & E' & Ho & Hb & Ht & Hev).
  rewrite E in E'. injection E' as <-. by split_and!.
Qed.

(** One that is not made its check, and the check succeeded. *)
Lemma settled_target ys y i a h y1 y2 cl after :
  settled ys y i a h y1 y2 cl after -> h_target h <> None ->
  exists e,
    first_auth (take bytesForKeyFinding (rd_bytes (a_client a)))
      (search_order cl (remoteIP (a_env a))) = Some e /\
    check_of i cl (remoteIP (a_env a)) (rd_bytes (a_client a)) =
      [(i, (string_bytes (ID e), take (SaltSize (eCipher e)) (rd_bytes (a_client a))))].
Proof.
  intros HS Ht. destruct (rejection (a_env a) (MkTcpService cl (cache y2) v timeout)
    (rd_bytes (a_client a))) as [why|] eqn:Hrej.
  { by destruct (settled_rejected _ _ _ _ _ _ _ _ _ _ HS Hrej) as (_ & _ & ? & _). }
  unfold rejection in Hrej. unfold check_of. case_decide; [done|].
  cbn [ciphers] in Hrej. destruct (first_auth _ _) as [e|]; [|done].
  destruct (IsServerSalt _ _); [done|]. by exists e.
Qed.

(** The entry a search settles on is known and opens the stream. *)
Lemma settled_entry ys y i a h y1 y2 cl after e fb :
  settled ys y i a h y1 y2 cl after ->
  first_auth fb (search_order cl (remoteIP (a_env a))) = Some e ->
  known e /\ authenticates fb e = true.
Proof.
  intros HS (es1 & es2 & Eo & Ha & _)%first_auth_Some. split; [|done].
  pose proof (se_known _ _ _ _ _ _ _ _ _ HS) as Hk. rewrite Forall_forall in Hk. apply Hk.
  assert (e ∈ search_order cl (remoteIP (a_env a))) as He by (rewrite Eo; set_solver).
  unfold search_order in He. by rewrite kept_both in He.
Qed.

(** The check of a connection in the history is the one it made. *)
Lemma settled_at ys y i a h y1 y2 cl after l k l' :
  reachable y -> settled ys y i a h y1 y2 cl after -> checks y = l ++ (i, k) :: l' ->
  checks y2 = l /\ check_of i cl (remoteIP (a_env a)) (rd_bytes (a_client a)) = [(i, k)].
Proof.
  intros Hy HS E. pose proof (reachable_checks _ _ _ _ _ Hy) as Hnd.
  destruct (se_once _ _ _ _ _ _ _ _ _ HS) as [Hb Ha].
  pose proof (se_checks _ _ _ _ _ _ _ _ _ HS) as E2.
  assert (i ∉ l.*1) as Hl.
  { rewrite E, fmap_app in Hnd. apply NoDup_app in Hnd as (_ & Hd & _).
    intros Hi. apply (Hd i Hi). left. }
  assert (i ∈ (checks y).*1) as Hin by (rewrite E, fmap_app; set_solver).
  unfold check_of in *. case_decide; [|destruct (first_auth _ _) as [e|];
    [destruct (IsServerSalt _ _)|]]; cbn [app] in E2;
    try (rewrite E2, fmap_app, elem_of_app in Hin; tauto).
  rewrite E in E2. by destruct (split_unique _ _ _ _ _ _ E2) as (-> & [= ->] & ->).
Qed.

End Finished.

(** ** The three defences *)

Section Defences.
Context `{CryptoLaws} {ops : SocksOps} {is_addr : bytes -> Prop} `{!SocksLaws is_addr}.
Context {R : Type} `{ReaderLaws R} {T : Type} `{ReaderLaws T}.
Context (v : TargetIPValidator) (timeout : Z) (known : CipherEntry -> Prop).
Context (known_wf : forall e, known e -> wf_cipher (eCipher e)).
Implicit Types (a : arrival R T).

Abbreviation step := (step v timeout known).
Abbreviation reachable c y := (rtc step (initial c) y).

Lemma replay_turned_away cap c (y : system R T) l1 l2 l3 i j k :
  NewReplayCache cap = Ret c -> (0 < cap)%Z -> reachable (Some c) y ->
  checks y = l1 ++ (i, k) :: l2 ++ (j, k) :: l3 -> (Z.of_nat (length l2) <= cap)%Z ->
  exists a h id t, conns y !! j = Some (a, Finished h) /\
    turned_away v timeout a h ("ERR_REPLAY_CLIENT", id, t).
Proof.
  intros HN Hp Hy E Hl. destruct (conns_inv_reachable _ _ _ _ _ Hy) as (ys & Hr & HI).
  destruct (inv_checks _ _ _ _ _ _ HI j) as (a & h & Hj).
  { rewrite E, !fmap_app. cbn. rewrite fmap_app. set_solver. }
  destruct (finished_settled v timeout known known_wf (Some c) ys y j a h Hr Hj)
    as (y1 & y2 & cl & after & HS).
  change (l1 ++ (i, k) :: l2 ++ (j, k) :: l3)
    with (l1 ++ ((i, k) :: l2) ++ (j, k) :: l3) in E. rewrite app_assoc in E.
  destruct (settled_at v timeout known known_wf (Some c) (y :: ys) y j a h y1 y2 cl after _ _ _ Hy
    HS E)
    as [E2 Hck].
  pose proof HS as [_ _ _ _ _ Hc _ _ _]. rewrite E2, fmap_app in Hc.
  unfold check_of in Hck. case_decide as Hlen; [done|].
  destruct (first_auth _ _) as [e|] eqn:Ef; [|done].
  destruct (IsServerSalt _ _) eqn:Es; [done|]. injection Hck as <-.
  exists a, h, (ID e), (searchTime (a_env a)). split; [done|].
  eapply (settled_rejected v timeout known known_wf); [exact HS|].
  unfold rejection. rewrite decide_False by done. cbn [ciphers replayCache].
  rewrite Ef, Es, Hc. cbn [fmap list_fmap snd].
  by rewrite (add_all_refuses cap) by (done || by rewrite length_fmap).
Qed.

(** A connection that gets a target has made its check. *)
Lemma target_checked c0 (y : system R T) i a h fb id n :
  reachable c0 y -> conns y !! i = Some (a, Finished h) ->
  take bytesForKeyFinding (rd_bytes (a_client a)) = fb ->
  (forall e, known e -> authenticates fb e = true -> ID e = id /\ SaltSize (eCipher e) = n) ->
  h_target h <> None -> (i, (string_bytes id, take n fb)) ∈ checks y.
Proof.
  intros Hy Hi Hfb Honly Ht.
  destruct (reachable_run _ _ _ _ _ Hy) as [ys Hr].
  destruct (finished_settled v timeout known known_wf c0 ys y i a h Hr Hi)
    as (y1 & y2 & cl & after & HS).
  destruct (settled_target v timeout known known_wf c0 (y :: ys) y i a h y1 y2 cl after HS Ht)
    as (e & Ef & Eck).
  destruct (settled_entry v timeout known known_wf c0 (y :: ys) y i a h y1 y2 cl after _ _ HS Ef)
    as [Hk Ha].
  rewrite Hfb in Ha. destruct (Honly e Hk Ha) as [<- <-].
  pose proof HS as [_ _ _ _ _ _ -> _ _]. rewrite Eck, <- Hfb, take_take.
  pose proof (required_le _ (known_wf e Hk)). rewrite Nat.min_l by lia. set_solver.
Qed.

(** C8: replay defence.  With a cache of capacity [cap], on however many ports
    and however the connections interleave with each other and with reloads: a
    handshake checked again after at most [cap] others is turned away like any
    probe, as ERR_REPLAY_CLIENT; and if two connections whose streams begin
    alike both get a target, more than [cap] other handshakes were checked
    between them, however close in time they came.  All keys that ever open the
    stream are taken to have one id and salt size. *)
Theorem replay_defence (cap : Z) (c : ReplayCache) (y : system R T) :
  NewReplayCache cap = Ret c -> (0 < cap)%Z -> reachable (Some c) y ->
  (forall l1 l2 l3 i j k, checks y = l1 ++ (i, k) :: l2 ++ (j, k) :: l3 ->
     (Z.of_nat (length l2) <= cap)%Z ->
     exists a h id t, conns y !! j = Some (a, Finished h) /\
       turned_away v timeout a h ("ERR_REPLAY_CLIENT", id, t)) /\
  (forall i j ai aj hi hj fb id n,
     i <> j -> conns y !! i = Some (ai, Finished hi) -> conns y !! j = Some (aj, Finished hj) ->
     take bytesForKeyFinding (rd_bytes (a_client ai)) = fb ->
     take bytesForKeyFinding (rd_bytes (a_client aj)) = fb ->
     (forall e, known e -> authenticates fb e = true ->
        ID e = id /\ SaltSize (eCipher e) = n) ->
     h_target hi <> None -> h_target hj <> None ->
     exists l1 l2 l3 k, (cap < Z.of_nat (length l2))%Z /\
       (checks y = l1 ++ (i, k) :: l2 ++ (j, k) :: l3 \/
        checks y = l1 ++ (j, k) :: l2 ++ (i, k) :: l3)).
Proof.
  intros HN Hp Hy.
  assert (forall l1 l2 l3 i j k, checks y = l1 ++ (i, k) :: l2 ++ (j, k) :: l3 ->
    (Z.of_nat (length l2) <= cap)%Z ->
    exists a h id t, conns y !! j = Some (a, Finished h) /\
      turned_away v timeout a h ("ERR_REPLAY_CLIENT", id, t)) as Hrefuse.
  { intros. by eapply replay_turned_away. }
  split; [done|]. intros i j ai aj hi hj fb id n Hij Hi Hj Hfi Hfj Honly Hti Htj.
  pose proof (target_checked (Some c) y i ai hi fb id n Hy Hi Hfi Honly Hti) as Hin.
  pose proof (target_checked (Some c) y j aj hj fb id n Hy Hj Hfj Honly Htj) as Hjn.
  destruct (two_elements (checks y) _ _ Hin Hjn) as (l1 & l2 & l3 & E); [congruence|].
  exists l1, l2, l3, (string_bytes id, take n fb). split; [|done].
  apply Z.lt_nge. intros Hl. destruct E as [E|E];
    destruct (Hrefuse _ _ _ _ _ _ E Hl) as (a & h & id' & t & Hf & _ & _ & Ht & _);
    congruence.
Qed.

(** C12: reflection defence.  A stream that begins with a salt the server's own
    generator made, and whatever follows it, is turned away however the
    connections interleave: as ERR_REPLAY_SERVER when a key of the list opens
    it, as ERR_CIPHER when none does; and it takes no place in the replay cache.
    The keys that open the stream are taken to mark their salts with one
    secret. *)
Theorem reflection_defence (c0 : option ReplayCache) (y : system R T) i a h secret n
    (ent ent' ssalt rest : bytes) :
  reachable c0 y -> conns y !! i = Some (a, Finished h) ->
  GetSalt (server_gen (NewServerSaltGenerator secret)) (zeros n) ent = (None, ssalt, ent') ->
  rd_bytes (a_client a) = ssalt ++ rest ->
  (forall e, known e -> authenticates (take bytesForKeyFinding (rd_bytes (a_client a))) e = true ->
     eSaltGenerator e = NewServerSaltGenerator secret /\ SaltSize (eCipher e) = n) ->
  exists st id t, (st = "ERR_REPLAY_SERVER" \/ st = "ERR_CIPHER") /\
    turned_away v timeout a h (st, id, t) /\ (i ∉ (checks y).*1).
Proof.
  intros Hy Hi Hsalt Hb Honly.
  destruct (reachable_run _ _ _ _ _ Hy) as [ys Hr].
  destruct (finished_settled v timeout known known_wf c0 ys y i a h Hr Hi)
    as (y1 & y2 & cl & after & HS).
  assert (exists st id t, (st = "ERR_REPLAY_SERVER" \/ st = "ERR_CIPHER") /\
    rejection (a_env a) (MkTcpService cl (cache y2) v timeout) (rd_bytes (a_client a)) =
      Some (st, id, t) /\
    check_of i cl (remoteIP (a_env a)) (rd_bytes (a_client a)) = [])
    as (st & id & t & Hst & Hrej & Hck).
  { unfold rejection, check_of. case_decide; [eexists _, _, _; split_and!; [by right|done..]|].
    cbn [ciphers]. destruct (first_auth _ _) as [e|] eqn:Ef;
      [|eexists _, _, _; split_and!; [by right|done..]].
    destruct (settled_entry v timeout known known_wf c0 (y :: ys) y i a h y1 y2 cl after _ _ HS Ef)
      as [Hk Ha].
    destruct (Honly e Hk Ha) as [-> ->]. pose proof (GetSalt_length _ _ _ _ _ Hsalt) as Hl.
    unfold zeros in Hl. rewrite length_replicate in Hl.
    rewrite Hb, <- Hl, take_app_length, (GetSalt_recognized _ _ _ _ _ Hsalt).
    eexists _, _, _. split_and!; [by left|done..]. }
  exists st, id, t. split_and!; [done|by eapply (settled_rejected v timeout known known_wf)|].
  pose proof HS as [_ _ _ _ _ _ Hc [Hb1 Hb2]].
  rewrite Hc, Hck, fmap_app, elem_of_app. tauto.
Qed.

(** The stream of connection [a] is that of a valid client with the key [e],
    as in [session]: the address [addr] leads to the target [t], [w]. *)
Record valid_client a (e : CipherEntry) (salt addr payload : bytes) (t : T) (w : Sink)
    (ssalt : bytes) : Prop := {
  vc_gen : SaltGeneratorLaws (server_gen (eSaltGenerator e));
  vc_addr : is_addr addr;
  vc_client_salt : IsServerSalt (eSaltGenerator e) salt = false;
  vc_dial : dialTarget v (fst (dialer (a_env a) (AddrString addr)))
    (snd (dialer (a_env a) (AddrString addr))) = inl (t, w);
  vc_target_out : reliable w;
  vc_client_out : written (a_out a) = [] /\ reliable (a_out a);
  vc_server_salt : exists ent', GetSalt (server_gen (eSaltGenerator e))
    (zeros (SaltSize (eCipher e))) (env_entropy (a_env a)) = (None, ssalt, ent');
  vc_few : Writer.few (length (rd_bytes t));
  vc_stream : exists out, encrypts (eCipher e) salt (addr ++ payload) out /\
    rd_bytes (a_client a) = concat out;
  vc_end : rd_end (a_client a) = EOF;
}.

(** The entry of a valid stream is the one a search finds, when it is in the
    list and no other key opens the stream. *)
Lemma valid_first a e salt addr payload t w ssalt cl :
  valid_client a e salt addr payload t w ssalt ->
  wf_cipher (eCipher e) -> Forall known (order cl) -> e ∈ order cl ->
  (forall x, known x ->
     authenticates (take bytesForKeyFinding (rd_bytes (a_client a))) x = true -> x = e) ->
  exists es1 es2, search_order cl (remoteIP (a_env a)) = es1 ++ e :: es2 /\
    Forall (fun x =>
      authenticates (take bytesForKeyFinding (rd_bytes (a_client a))) x = false) es1.
Proof.
  intros HV Hwf Hcl He Honly. destruct (vc_stream _ _ _ _ _ _ _ _ HV)
    as (out & (k & chunks & HN & _ & Hl & -> & Hch & Hcat) & Hb).
  assert (forall x, x ∈ search_order cl (remoteIP (a_env a)) <-> x ∈ order cl) as Hin.
  { intros x. unfold search_order. by rewrite kept_both. }
  destruct (first_auth (take bytesForKeyFinding (rd_bytes (a_client a)))
    (search_order cl (remoteIP (a_env a)))) as [x|] eqn:Ef.
  - apply first_auth_Some in Ef as (es1 & es2 & Eo & Hx & Hf). exists es1, es2.
    enough (x = e) as <- by done. apply Honly; [|done].
    rewrite Forall_forall in Hcl. apply Hcl, Hin. rewrite Eo. set_solver.
  - exfalso. apply first_auth_None in Ef. rewrite Forall_forall in Ef.
    specialize (Ef e (proj2 (Hin e) He)). destruct chunks as [|p chunks].
    { pose proof (is_addr_nonempty addr (vc_addr _ _ _ _ _ _ _ _ HV)). by destruct addr. }
    destruct (authenticates_packets e k salt p chunks Hwf HN Hl) as [_ Ha].
    { apply Forall_cons in Hch as [? _]. lia. }
    rewrite Hb in Ef. congruence.
Qed.

(** A client whose key is in the list it is searched in, whose stream no other key
    opens, and whose handshake has the hash of no other checked before, is served
    as if it were alone once its handler ends. *)
Lemma finished_served (cap : Z) (c : ReplayCache) (y : system R T) ys i a h
    e salt addr payload t w ssalt :
  NewReplayCache cap = Ret c -> (0 < cap)%Z -> run v timeout known (Some c) (y :: ys) ->
  conns y !! i = Some (a, Finished h) ->
  valid_client a e salt addr payload t w ssalt ->
  (forall x, known x ->
     authenticates (take bytesForKeyFinding (rd_bytes (a_client a))) x = true -> x = e) ->
  (forall y1 cl, y1 ∈ y :: ys -> conns y1 !! i = Some (a, Started) ->
     lists y1 !! a_list a = Some cl -> e ∈ order cl) ->
  (forall y2 key j k, y2 ∈ y :: ys -> conns y2 !! i = Some (a, Checking key) ->
     (j, k) ∈ checks y2 -> i <> j ->
     preHash (fst k) (snd k) <> preHash (string_bytes (ID e)) salt) ->
  exists cl ch (h0 : handled (R := R) (T := T)),
    served (a_env a) (MkTcpService cl ch v timeout) (rd_bytes (a_client a))
      e salt addr payload t w ssalt h0 /\
    h_client_out h = h_client_out h0 /\ h_target h = h_target h0 /\
    h_error h = h_error h0 /\ h_events h = h_events h0.
Proof.
  intros HN Hp Hr Hi HV Honly Hstay Hfresh.
  destruct (finished_settled v timeout known known_wf (Some c) ys y i a h Hr Hi)
    as (y1 & y2 & cl & after & HS).
  pose proof HS as [Hy1 Hst Hl Hcl (h0 & Eh & Hsame) Hc Hck [Hb Ha] (Hy2 & key & Hchk)].
  assert (e ∈ order cl) as He by (by apply (Hstay y1 cl)).
  assert (wf_cipher (eCipher e)) as Hwf.
  { apply known_wf. rewrite Forall_forall in Hcl. by apply Hcl. }
  exists cl, (cache y2), h0. rewrite Hsame. split; [|done].
  destruct (session_served (a_port a) (a_env a) (MkTcpService cl (cache y2) v timeout)
    (a_client a) (a_out a) e salt addr payload t w ssalt) as (h1 & E1 & Hs);
    [|rewrite Eh in E1; by injection E1 as <-].
  pose proof HV as []. split; [split|done|done]; try done.
  - exact (known_entries _ known_wf _ Hcl).
  - by eapply valid_first.
  - cbn [replayCache]. rewrite Hc. eapply add_all_fresh; [done..|].
    intros k (x & -> & Hx)%list_elem_of_fmap. destruct x as [j k]. cbn [snd].
    apply (Hfresh y2 key j); [done..|]. intros <-. apply Hb.
    by apply (list_elem_of_fmap_2 fst) in Hx.
Qed.

(** C9: valid clients are served whoever else connects.  In every execution,
    whatever probes, replays, other clients, reloads and UDP traffic do in
    between, and as soon as the scheduler is fair to its handler, an accepted
    client whose key is in its port's list until its snapshot, whose stream no
    other key opens, and whose handshake has the hash of no other that was
    checked before, is eventually served to the end, and that is final: its
    target gets its payload and it gets the answer exactly as if it were alone,
    with the cache on. *)
Theorem concurrent_client_served (cap : Z) (c : ReplayCache) (tr : nat -> system R T) n i a p
    e salt addr payload t w ssalt :
  NewReplayCache cap = Ret c -> (0 < cap)%Z ->
  execution v timeout known (Some c) tr -> fair v timeout known i tr ->
  conns (tr n) !! i = Some (a, p) ->
  valid_client a e salt addr payload t w ssalt ->
  (forall x, known x ->
     authenticates (take bytesForKeyFinding (rd_bytes (a_client a))) x = true -> x = e) ->
  (forall m cl, conns (tr m) !! i = Some (a, Started) -> lists (tr m) !! a_list a = Some cl ->
     e ∈ order cl) ->
  (forall m key j k, conns (tr m) !! i = Some (a, Checking key) -> (j, k) ∈ checks (tr m) ->
     i <> j -> preHash (fst k) (snd k) <> preHash (string_bytes (ID e)) salt) ->
  exists m h cl ch (h0 : handled (R := R) (T := T)),
    n <= m /\ (forall m', m <= m' -> conns (tr m') !! i = Some (a, Finished h)) /\
    served (a_env a) (MkTcpService cl ch v timeout) (rd_bytes (a_client a))
      e salt addr payload t w ssalt h0 /\
    h_client_out h = h_client_out h0 /\ h_target h = h_target h0 /\
    h_error h = h_error h0 /\ h_events h = h_events h0.
Proof.
  intros HN Hp Hx Hf Hi HV Honly Hstay Hfresh.
  destruct (eventually_finished (is_addr := is_addr) v timeout known (Some c) known_wf tr i n a p
    Hx Hf Hi) as (m & h & Hle & Hfin).
  destruct (execution_run v timeout known (Some c) tr m Hx) as (ys & Hr & Hin).
  destruct (finished_served cap c (tr m) ys i a h e salt addr payload t w ssalt)
    as (cl & ch & h0 & Hs & Hrest); [done..| | |].
  - intros y1 cl (m1 & _ & ->)%Hin. apply Hstay.
  - intros y2 key j k (m2 & _ & ->)%Hin. apply Hfresh.
  - exists m, h, cl, ch, h0. split_and!; [done| |done|apply Hrest..].
    intros m' Hm'. by eapply execution_finished.
Qed.

End Defences.

(** ** The theorems at concrete runs *)

Lemma ex_client_bytes : rd_bytes ex_client = ex_stream.
Proof.
  unfold ex_client. generalize ex_stream. intros l.
  change (rd_bytes _) with (take 9 l ++ drop 9 l ++ []). by rewrite app_nil_r, firstn_skipn.
Qed.

(** No key but the third opens the stream of the example. *)
Lemma ex_only x :
  ex_known x -> authenticates (take bytesForKeyFinding (rd_bytes ex_client)) x = true ->
  x = ex_entry.
Proof.
  rewrite ex_client_bytes. unfold ex_known. cbn [order demo_keys].
  rewrite !elem_of_cons. intros [->|[->|[->|H]]] Ha.
  - vm_compute in Ha. discriminate Ha.
  - vm_compute in Ha. discriminate Ha.
  - reflexivity.
  - by apply not_elem_of_nil in H.
Qed.

Lemma replay_defence_witness :
  exists y h id t, rtc (step ex_validator ex_timeout ex_known) (initial (Some ex_cache)) y /\
    conns y !! 1 = Some (ex_arrival, Finished h) /\
    turned_away ex_validator ex_timeout ex_arrival h ("ERR_REPLAY_CLIENT", id, t).
Proof.
  destruct ex_run as (y & h0 & h1 & Hy & Hc & Hk).
  destruct (replay_defence ex_validator ex_timeout ex_known ex_known_wf 5 ex_cache y)
    as [Hr _]; [reflexivity|lia|exact Hy|].
  destruct (Hr [] [] [] 0 1 ex_check) as (a & h & id & t & Hj & Ht); [exact Hk|simpl; lia|].
  assert (a = ex_arrival) as -> by (rewrite Hc in Hj; by injection Hj as <- _).
  exists y, h, id, t. split_and!; [exact Hy|exact Hj|exact Ht].
Defined.

(** A probe and a client at the same time: the probe sends seven bytes. *)
Definition ex_probe : arrival Conn Conn :=
  MkArrival 0 8388 ex_env (MkConn [expand 5 7] ErrTimeout false) ex_sink.

Definition ex_probe_key : key_result (measuredConn Conn) :=
  match searchKey (MkMeasured (a_client ex_probe) 0) 2 [] with
  | Ret (key, _) => key
  | _ => ex_key
  end.

Definition ex_sys (l : cipherList) (p q : pc Conn Conn) : system Conn Conn :=
  MkSystem [l] (Some ex_cache) [(ex_probe, p); (ex_arrival, q)] [].

(** The states before the two checks, the latest first. *)
Definition ex_past : list (system Conn Conn) :=
  let snap := Some <$> search_order demo_keys (remoteIP ex_env) in
  [ ex_sys (ex_marked demo_keys) (Checking ex_probe_key) (Checking ex_key);
    ex_sys demo_keys (Checking ex_probe_key) (Searching snap);
    ex_sys demo_keys (Searching snap) (Searching snap);
    ex_sys demo_keys Started (Searching snap);
    ex_sys demo_keys Started Started;
    MkSystem [demo_keys] (Some ex_cache) [(ex_probe, Started)] [];
    MkSystem [demo_keys] (Some ex_cache) [] [];
    MkSystem [NewCipherList] (Some ex_cache) [] [];
    initial (Some ex_cache) ].

Lemma ex_past_run : run ex_validator ex_timeout ex_known (Some ex_cache) ex_past.
Proof.
  set (st := step ex_validator ex_timeout ex_known).
  set (snap := Some <$> search_order demo_keys (remoteIP ex_env)).
  assert (forall ls cs, st (MkSystem ls (Some ex_cache) cs [])
    (MkSystem (ls ++ [NewCipherList]) (Some ex_cache) cs [])) as Hopen by (intros; apply step_open).
  do 8 (eapply run_step; [|shelve]). constructor.
  Unshelve.
  - exact (step_search _ _ _ [demo_keys] _ [(ex_probe, Checking ex_probe_key);
      (ex_arrival, Searching snap)] _ 1 ex_arrival demo_keys snap ex_key (Some ex_entry)
      eq_refl eq_refl ex_search).
  - exact (step_search _ _ _ [demo_keys] _ [(ex_probe, Searching snap);
      (ex_arrival, Searching snap)] _ 0 ex_probe demo_keys snap ex_probe_key None
      eq_refl eq_refl eq_refl).
  - exact (step_snapshot _ _ _ [demo_keys] _ [(ex_probe, Started); (ex_arrival, Searching snap)] _
      0 ex_probe demo_keys snap eq_refl eq_refl (Snapshot_eq _ _)).
  - exact (step_snapshot _ _ _ [demo_keys] _ [(ex_probe, Started); (ex_arrival, Started)] _
      1 ex_arrival demo_keys snap eq_refl eq_refl (Snapshot_eq _ _)).
  - exact (step_accept _ _ _ [demo_keys] _ [(ex_probe, Started)] _ ex_arrival Nat.lt_0_1).
  - exact (step_accept _ _ _ [demo_keys] _ [] _ ex_probe Nat.lt_0_1).
  - exact (step_update _ _ _ [NewCipherList] _ [] _ 0 NewCipherList (order demo_keys) eq_refl
      (proj2 (Forall_forall _ _) (fun _ H => H))).
  - apply Hopen.
Qed.

Lemma ex_served_run :
  exists y ys h0 h1, run ex_validator ex_timeout ex_known (Some ex_cache) (y :: ys) /\
    conns y = [(ex_probe, Finished h0); (ex_arrival, Finished h1)] /\
    checks y = [(1, ex_check)] /\
    reverse (y :: ys) !! 4 = Some (ex_sys demo_keys Started Started) /\
    Forall (fun z => (conns z = [] \/ lists z = [demo_keys] \/ lists z = [ex_marked demo_keys]) /\
      (checks z = [] \/ checks z = [(1, ex_check)])) (y :: ys).
Proof.
  assert (key_wf ex_key) as Hwf by (apply ex_known_wf; right; right; left).
  set (l := ex_marked demo_keys).
  destruct (connError_returns (is_addr := toy_addr) 8388 ex_env
    (MkTcpService l (Some ex_cache) ex_validator ex_timeout) ex_probe_key ex_sink) as [h0 E0];
    [done|].
  pose proof (connError_cache 8388 ex_env _ _ _ 0 _ E0) as Hc. cbn in Hc.
  destruct (connError_returns (is_addr := toy_addr) 8388 ex_env
    (MkTcpService l (Some ex_cache) ex_validator ex_timeout) ex_key ex_sink Hwf) as [h1 E1].
  set (f0 := connection_end ex_env ex_timeout ex_probe_key h0).
  set (f1 := connection_end ex_env ex_timeout ex_key h1).
  exists (MkSystem [l] (replayCache (h_service h1))
    [(ex_probe, Finished f0); (ex_arrival, Finished f1)] [(1, ex_check)]),
    (ex_sys l (Finished f0) (Checking ex_key) :: ex_past), f0, f1.
  split_and!; [|done|done|reflexivity|].
  - eapply run_step; [eapply run_step; [exact ex_past_run|]|].
    + pose proof (step_check ex_validator ex_timeout ex_known [l] (Some ex_cache)
        [(ex_probe, Checking ex_probe_key); (ex_arrival, Checking ex_key)] [] 0 ex_probe l
        ex_probe_key h0 eq_refl eq_refl E0) as Hs.
      rewrite Hc in Hs. exact Hs.
    + exact (step_check ex_validator ex_timeout ex_known [l] (Some ex_cache)
        [(ex_probe, Finished f0); (ex_arrival, Checking ex_key)] [] 1 ex_arrival l ex_key h1
        eq_refl eq_refl E1).
  - unfold ex_past. repeat apply Forall_cons_2; auto.
Qed.

Lemma ex_entry_listed : ex_entry ∈ order demo_keys.
Proof. right. right. left. Qed.

Lemma ex_entry_marked : ex_entry ∈ order (ex_marked demo_keys).
Proof.
  unfold ex_marked. cbn [order MarkUsedByClientIP]. unfold MoveToFront.
  rewrite decide_True; [left|]. apply list_elem_of_fmap_2, ex_entry_listed.
Qed.

Lemma ex_valid_client :
  valid_client (is_addr := toy_addr) ex_validator ex_arrival ex_entry demo_client_salt ex_addr
    ex_payload ex_answer ex_sink ex_server_salt.
Proof.
  destruct ex_session as [HS Hs He]. destruct HS.
  split; [assumption..|exact Hs|exact He].
Qed.

Lemma concurrent_client_served_witness :
  exists tr m h cl ch (h0 : handled (R := Conn) (T := Conn)),
    execution ex_validator ex_timeout ex_known (Some ex_cache) tr /\
    conns (tr m) !! 1 = Some (ex_arrival, Finished h) /\
    served ex_env (MkTcpService cl ch ex_validator ex_timeout) (rd_bytes ex_client)
      ex_entry demo_client_salt ex_addr ex_payload ex_answer ex_sink ex_server_salt h0 /\
    h_events h = h_events h0.
Proof.
  destruct ex_served_run as (y & ys & h0 & h1 & Hr & Hc & Hk & Hfour & Hall).
  assert (conns y !! 1 = Some (ex_arrival, Finished h1)) as H1 by (by rewrite Hc).
  rewrite Forall_forall in Hall. set (tr := trace_of y ys).
  assert (forall n, tr n ∈ y :: ys) as Hin by (intros n; apply trace_of_elem).
  assert (conns (tr 4) !! 1 = Some (ex_arrival, Started)) as Hstart
    by (unfold tr, trace_of; rewrite Hfour; reflexivity).
  pose proof (run_execution _ _ _ _ _ _ Hr) as Hx.
  destruct (concurrent_client_served (is_addr := toy_addr) ex_validator ex_timeout ex_known
    ex_known_wf 5 ex_cache tr 4 1 ex_arrival Started ex_entry
    demo_client_salt ex_addr ex_payload ex_answer ex_sink ex_server_salt)
    as (m & h & cl & ch & h2 & _ & Hf & Hs & _ & _ & _ & Hev).
  - reflexivity.
  - lia.
  - exact Hx.
  - exact (trace_of_fair _ _ _ _ _ _ _ _ H1).
  - exact Hstart.
  - exact ex_valid_client.
  - exact ex_only.
  - intros n cl Hi Hl. destruct (Hall _ (Hin n)) as [[E|[E|E]] _].
    + rewrite E in Hi. discriminate Hi.
    + rewrite E in Hl. injection Hl as <-. exact ex_entry_listed.
    + rewrite E in Hl. injection Hl as <-. exact ex_entry_marked.
  - intros n key j k _ Hj Hne. destruct (Hall _ (Hin n)) as [_ [E|E]]; rewrite E in Hj.
    + exact (False_ind _ (not_elem_of_nil _ Hj)).
    + apply list_elem_of_singleton in Hj. destruct Hne. by injection Hj as -> _.
  - exists tr, m, h, cl, ch, h2. split_and!; [exact Hx|exact (Hf m (le_n m))|exact Hs|exact Hev].
Defined.

(** What the server sends a client, sent back to it. *)
Definition ex_server_aead : AEAD :=
  match NewAEAD (eCipher ex_entry) ex_server_salt with
  | Ret a => a
  | _ => MkAEAD 0 0 (fun _ _ => []) (fun _ _ => None)
  end.

Definition ex_downstream : bytes :=
  concat (packets ex_server_aead ex_server_salt [string_bytes "200 OK"]).

Definition ex_reflected : arrival Conn Conn :=
  MkArrival 0 8388 ex_env (MkConn [ex_downstream] EOF false) ex_sink.

Definition ex_arrived : system Conn Conn :=
  MkSystem [demo_keys] (Some ex_cache) [(ex_reflected, Started)] [].

Lemma ex_arrived_reach :
  rtc (step ex_validator ex_timeout ex_known) (initial (Some ex_cache)) ex_arrived.
Proof.
  eapply rtc_r; [|exact (step_accept _ _ _ [demo_keys] _ [] _ ex_reflected Nat.lt_0_1)].
  eapply (run_reachable _ _ _ _ ex_past); [exact ex_past_run|]. do 6 right. left.
Qed.

Lemma ex_reflected_run :
  exists y h, rtc (step ex_validator ex_timeout ex_known) (initial (Some ex_cache)) y /\
    conns y !! 0 = Some (ex_reflected, Finished h).
Proof.
  destruct (connection_finishes (is_addr := toy_addr) ex_validator ex_timeout ex_known
    ex_known_wf (Some ex_cache) ex_arrived 0 ex_reflected Started ex_arrived_reach eq_refl)
    as (y & h & Hs & Hf & _).
  exists y, h. split; [|exact Hf]. etrans; [exact ex_arrived_reach|exact Hs].
Qed.

Lemma reflection_defence_witness :
  exists y h st id t, conns y !! 0 = Some (ex_reflected, Finished h) /\
    (st = "ERR_REPLAY_SERVER" \/ st = "ERR_CIPHER") /\
    turned_away ex_validator ex_timeout ex_reflected h (st, id, t).
Proof.
  destruct ex_reflected_run as (y & h & Hy & Hf).
  destruct (reflection_defence ex_validator ex_timeout ex_known ex_known_wf (Some ex_cache) y 0
    ex_reflected h "carol" 32 (expand 9 64) (drop 28 (expand 9 64)) ex_server_salt
    (drop 32 ex_downstream) Hy Hf) as (st & id & t & Hst & Ht & _).
  - vm_compute. reflexivity.
  - vm_compute. reflexivity.
  - unfold ex_known. cbn [order demo_keys]. intros e.
    rewrite !elem_of_cons. intros [->|[->|[->|Hn]]] Ha.
    + vm_compute in Ha. discriminate Ha.
    + vm_compute in Ha. discriminate Ha.
    + split; reflexivity.
    + by apply not_elem_of_nil in Hn.
  - exists y, h, st, id, t. split_and!; [exact Hf|exact Hst|exact Ht].
Defined.
