(* ===== verification/TcpServer.v ===== *)
(** * Starting and stopping the TCP service

    [Serve], [Stop] and [GracefulStop] of [service/tcp.go], as the steps of a
    transition system: any number of goroutines call them in any order, the
    sections under the mutex are atomic, and a handler runs for every accepted
    connection. *)
From S2P Require Import Prelude.

(** ** The operations *)

(** The fields the mutex and the [WaitGroup] protect, and which listeners were
    closed.  Listeners are numbered. *)
Record server := MkServer {
  listener : option nat;
  stopped : bool;
  running : Z;
  closed : gset nat;
}.

Definition errServeTwice : error := Errorf "Serve can only be called once".
Definition errClosed : error := Errorf "use of closed network connection".

(** Where a call of [Serve] is: about to accept, holding an accepted
    connection, or returned. *)
Inductive serve_pc :=
| Accepting (l : nat)
| Accepted (l : nat)
| ServeReturned (l : nat) (err : option error).

(** [listener.Close()]. *)
Definition Close (l : nat) (s : server) : option error * server :=
  (if decide (l ∈ closed s) then Some errClosed else None,
   MkServer (listener s) (stopped s) (running s) ({[l]} ∪ closed s)).

Definition Add (n : Z) (s : server) : server :=
  MkServer (listener s) (stopped s) (running s + n) (closed s).

(** [Serve] up to its loop. *)
Definition Serve (l : nat) (s : server) : serve_pc * server :=
  match listener s with
  | Some _ =>
    let '(_, s) := Close l s in (ServeReturned l (Some errServeTwice), s)
  | None =>
    if stopped s then
      let '(e, s) := Close l s in (ServeReturned l e, s)
    else
      (Accepting l, Add 1 (MkServer (Some l) (stopped s) (running s) (closed s)))
  end.

(** The loop after [AcceptTCP] failed. *)
Definition Serve_error (l : nat) (s : server) : serve_pc * server :=
  if stopped s then (ServeReturned l None, Add (-1) s) else (Accepting l, s).

(** The loop after it succeeded: the handler is started. *)
Definition Serve_accepted (l : nat) (s : server) : serve_pc * server :=
  (Accepting l, Add 1 s).

Definition Stop (s : server) : option error * server :=
  let s := MkServer (listener s) true (running s) (closed s) in
  match listener s with
  | None => (None, s)
  | Some l => Close l s
  end.

(** A call of [Stop] or [GracefulStop]: waiting for the [WaitGroup], or
    returned. *)
Inductive stop_pc :=
| Waiting (err : option error)
| StopReturned (err : option error)
| GracefulStopReturned (err : option error).

(** ** The system *)

Record system := MkSystem {
  srv : server;
  serves : list serve_pc;
  handlers : nat;
  stops : list stop_pc;
}.

Definition listener_of (pc : serve_pc) : nat :=
  match pc with Accepting l | Accepted l | ServeReturned l _ => l end.

(** A listener is given to one call of [Serve] only, open; accepting from a
    closed listener fails, and accepting may fail at any time. *)
Inductive step : system -> system -> Prop :=
| step_serve l s ss h st :
    l ∉ closed s -> l ∉ listener_of <$> ss -> listener s <> Some l ->
    step (MkSystem s ss h st)
      (MkSystem (snd (Serve l s)) (ss ++ [fst (Serve l s)]) h st)
| step_accept i l s ss h st :
    ss !! i = Some (Accepting l) -> l ∉ closed s ->
    step (MkSystem s ss h st) (MkSystem s (<[i := Accepted l]> ss) h st)
| step_accept_error i l s ss h st :
    ss !! i = Some (Accepting l) ->
    step (MkSystem s ss h st)
      (MkSystem (snd (Serve_error l s)) (<[i := fst (Serve_error l s)]> ss) h st)
| step_handle i l s ss h st :
    ss !! i = Some (Accepted l) ->
    step (MkSystem s ss h st)
      (MkSystem (snd (Serve_accepted l s)) (<[i := fst (Serve_accepted l s)]> ss) (S h) st)
| step_done s ss h st :
    step (MkSystem s ss (S h) st) (MkSystem (Add (-1) s) ss h st)
| step_stop s ss h st :
    step (MkSystem s ss h st)
      (MkSystem (snd (Stop s)) ss h (st ++ [StopReturned (fst (Stop s))]))
| step_graceful s ss h st :
    step (MkSystem s ss h st)
      (MkSystem (snd (Stop s)) ss h (st ++ [Waiting (fst (Stop s))]))
| step_waited j e s ss h st :
    st !! j = Some (Waiting e) -> running s = 0%Z ->
    step (MkSystem s ss h st) (MkSystem s ss h (<[j := GracefulStopReturned e]> st)).

Definition initial : system := MkSystem (MkServer None false 0 ∅) [] 0 [].

(** ** The invariant *)

Definition active (pc : serve_pc) : bool :=
  match pc with ServeReturned _ _ => false | _ => true end.

Definition count_active : list serve_pc -> nat := sum_by (fun pc => flag (active pc)).

Record inv (y : system) : Prop := {
  inv_running : running (srv y) = Z.of_nat (count_active (serves y) + handlers y);
  inv_active pc : pc ∈ serves y -> active pc = true -> listener (srv y) = Some (listener_of pc);
  inv_one : count_active (serves y) <= 1;
  inv_none : listener (srv y) = None -> count_active (serves y) = 0;
  inv_returned l e : ServeReturned l e ∈ serves y -> l ∈ closed (srv y);
  inv_nil l : ServeReturned l None ∈ serves y -> stopped (srv y) = true;
  inv_stopped l : stopped (srv y) = true -> listener (srv y) = Some l -> l ∈ closed (srv y);
  inv_stops : stops y <> [] -> stopped (srv y) = true;
  inv_open l : listener (srv y) = Some l -> l ∈ closed (srv y) ->
    stopped (srv y) = true;
  inv_graceful e : GracefulStopReturned e ∈ stops y ->
    stopped (srv y) = true /\ running (srv y) = 0%Z;
}.

(** ** Lemmas *)

Lemma count_insert ss i x y :
  ss !! i = Some x ->
  count_active (<[i := y]> ss) + flag (active x) = count_active ss + flag (active y).
Proof. apply (sum_by_insert (fun pc => flag (active pc))). Qed.

Lemma count_snoc ss y : count_active (ss ++ [y]) = count_active ss + flag (active y).
Proof. apply (sum_by_snoc (fun pc => flag (active pc))). Qed.

Lemma count_lookup ss i x : ss !! i = Some x -> active x = true -> 0 < count_active ss.
Proof.
  intros Hi Hx. pose proof (sum_by_lookup (fun pc => flag (active pc)) ss i x Hi) as Hc.
  simpl in Hc. rewrite Hx in Hc. simpl in Hc. unfold count_active. lia.
Qed.

(** The three steps of a running call keep it running on the same listener, or
    return it. *)
Ltac inv_destruct Hi :=
  destruct Hi as [Hrun Hact Hone Hnone Hret Hnil Hstop Hstops Hopen Hgr]; simpl in *.

Lemma inv_initial : inv initial.
Proof.
  split; simpl; try done; try lia; set_solver.
Qed.

Lemma inv_step_serve l s ss h st :
  inv (MkSystem s ss h st) ->
  l ∉ closed s -> l ∉ listener_of <$> ss -> listener s <> Some l ->
  inv (MkSystem (snd (Serve l s)) (ss ++ [fst (Serve l s)]) h st).
Proof.
  intros Hi Hl Hss Hne. inv_destruct Hi. unfold Serve.
  destruct (listener s) as [l0|] eqn:El; [|destruct (stopped s) eqn:Es]; simpl.
  - split; simpl; rewrite ?El, ?count_snoc; simpl; rewrite ?Nat.add_0_r; try done.
    + intros pc [Hpc| ->]%elem_of_snoc; [by apply Hact|done].
    + intros k e [Hpc|[= -> ->]]%elem_of_snoc; [|set_solver].
      apply Hret in Hpc. set_solver.
    + intros k [Hpc|?]%elem_of_snoc; [by eapply Hnil|done].
    + intros k Hk [= <-]. specialize (Hstop l0 Hk eq_refl). set_solver.
    + intros k [= <-] Hk. apply (Hopen l0 eq_refl).
      apply elem_of_union in Hk as [->%elem_of_singleton|?]; done.
  - split; simpl; rewrite ?El, ?count_snoc; simpl; rewrite ?Nat.add_0_r; try done.
    + intros pc [Hpc| ->]%elem_of_snoc; [by apply Hact|done].
    + intros k e [Hpc|[= -> _]]%elem_of_snoc; [|set_solver].
      apply Hret in Hpc. set_solver.
    + intros e He. by destruct (Hgr e He).
  - specialize (Hnone eq_refl).
    split; simpl; rewrite ?count_snoc; simpl; try lia; try done.
    + intros pc [Hpc| ->]%elem_of_snoc Ha; [|done]. by specialize (Hact pc Hpc Ha).
    + intros k e [Hpc|?]%elem_of_snoc; [by eapply Hret|done].
    + intros k [Hpc|?]%elem_of_snoc; [|done]. apply Hnil in Hpc. congruence.
    + intros k [= <-] Hk. done.
    + intros e He. destruct (Hgr e He). congruence.
Qed.

Lemma inv_step_accept i l s ss h st :
  inv (MkSystem s ss h st) -> ss !! i = Some (Accepting l) ->
  inv (MkSystem s (<[i := Accepted l]> ss) h st).
Proof.
  intros Hi Hss. inv_destruct Hi.
  pose proof (count_insert ss i _ (Accepted l) Hss) as Hc. simpl in Hc.
  assert (count_active (<[i := Accepted l]> ss) = count_active ss) as Hc' by lia.
  split; simpl; rewrite ?Hc'; try done.
  - intros pc [->|Hpc]%elem_of_insert Ha; [|by apply Hact].
    apply (Hact (Accepting l)); [by eapply list_elem_of_lookup_2|done].
  - intros k e [?|Hpc]%elem_of_insert; [done|by eapply Hret].
  - intros k [?|Hpc]%elem_of_insert; [done|by eapply Hnil].
Qed.

Lemma inv_step_accept_error i l s ss h st :
  inv (MkSystem s ss h st) -> ss !! i = Some (Accepting l) ->
  inv (MkSystem (snd (Serve_error l s)) (<[i := fst (Serve_error l s)]> ss) h st).
Proof.
  intros Hi Hss. pose proof Hi as Hi0. inv_destruct Hi. unfold Serve_error.
  destruct (stopped s) eqn:Es; simpl.
  - pose proof (count_insert ss i _ (ServeReturned l None) Hss) as Hc. simpl in Hc.
    assert (listener s = Some l) as Hl
      by (apply (Hact (Accepting l)); [by eapply list_elem_of_lookup_2|done]).
    split; simpl; try done; try lia.
    + intros pc [->|Hpc]%elem_of_insert Ha; [done|by apply Hact].
    + intros k e [[= -> _]|Hpc]%elem_of_insert; [by apply Hstop|by eapply Hret].
    + intros k _ Hk. by apply Hstop.
    + intros e He. destruct (Hgr e He). split; [done|].
      pose proof (count_lookup ss i _ Hss eq_refl). lia.
  - rewrite list_insert_id by done. by destruct s.
Qed.

Lemma inv_step_handle i l s ss h st :
  inv (MkSystem s ss h st) -> ss !! i = Some (Accepted l) ->
  inv (MkSystem (Add 1 s) (<[i := Accepting l]> ss) (S h) st).
Proof.
  intros Hi Hss. inv_destruct Hi.
  pose proof (count_insert ss i _ (Accepting l) Hss) as Hc. simpl in Hc.
  pose proof (count_lookup ss i _ Hss eq_refl).
  split; simpl; try done; try lia.
  - intros pc [->|Hpc]%elem_of_insert Ha; [|by apply Hact].
    apply (Hact (Accepted l)); [by eapply list_elem_of_lookup_2|done].
  - intros Hn. specialize (Hnone Hn). lia.
  - intros k e [?|Hpc]%elem_of_insert; [done|by eapply Hret].
  - intros k [?|Hpc]%elem_of_insert; [done|by eapply Hnil].
  - intros e He. destruct (Hgr e He). lia.
Qed.

Lemma inv_step_stop p s ss h st :
  inv (MkSystem s ss h st) -> (forall e, p <> GracefulStopReturned e) ->
  inv (MkSystem (snd (Stop s)) ss h (st ++ [p])).
Proof.
  intros Hi Hp. inv_destruct Hi.
  assert (forall e, GracefulStopReturned e ∈ st ++ [p] -> GracefulStopReturned e ∈ st) as Hg.
  { intros e [?|He%list_elem_of_singleton]%elem_of_app; [done|]. by destruct (Hp e). }
  unfold Stop. simpl. destruct (listener s) as [l|] eqn:El; simpl; split; simpl; try done;
    rewrite ?El; try done.
  - intros k e He. apply Hret in He. set_solver.
  - intros k _ [= <-]. set_solver.
  - intros e He%Hg. by destruct (Hgr e He).
  - intros e He%Hg. by destruct (Hgr e He).
Qed.

Lemma inv_step y y' : inv y -> step y y' -> inv y'.
Proof.
  intros Hi Hs. destruct Hs as [l s ss h st ? ? ?|i l s ss h st ? ?|i l s ss h st ?
    |i l s ss h st ?|s ss h st|s ss h st|s ss h st|j e s ss h st Hj Hz].
  - by apply inv_step_serve.
  - by apply inv_step_accept.
  - by apply inv_step_accept_error.
  - by apply inv_step_handle.
  - inv_destruct Hi. split; simpl; try done; [lia|]. intros e He. destruct (Hgr e He). lia.
  - by apply inv_step_stop.
  - by apply inv_step_stop.
  - pose proof Hi as Hi0. inv_destruct Hi.
    assert (stopped s = true) as Hst by (apply Hstops; by destruct st).
    by split.
Qed.

Lemma inv_reachable y : rtc step initial y -> inv y.
Proof.
  intros Hr. pose proof inv_initial as Hi. induction Hr as [|y1 y2 y3 Hs _ IH]; [done|].
  apply IH. by eapply inv_step.
Qed.

(** ** Shutting down *)

(** The work left after [Stop]: a handler, a loop, and an accepted connection
    that still becomes a handler. *)
Definition pc_work (pc : serve_pc) : nat :=
  match pc with Accepting _ => 1 | Accepted _ => 3 | ServeReturned _ _ => 0 end.

Definition work_of : list serve_pc -> nat := sum_by pc_work.

Definition work (y : system) : nat := work_of (serves y) + handlers y.

(** A step of a goroutine of the service, as opposed to a new call. *)
Inductive internal : system -> system -> Prop :=
| int_accept i l s ss h st :
    ss !! i = Some (Accepting l) -> l ∉ closed s ->
    internal (MkSystem s ss h st) (MkSystem s (<[i := Accepted l]> ss) h st)
| int_accept_error i l s ss h st :
    ss !! i = Some (Accepting l) ->
    internal (MkSystem s ss h st)
      (MkSystem (snd (Serve_error l s)) (<[i := fst (Serve_error l s)]> ss) h st)
| int_handle i l s ss h st :
    ss !! i = Some (Accepted l) ->
    internal (MkSystem s ss h st)
      (MkSystem (snd (Serve_accepted l s)) (<[i := fst (Serve_accepted l s)]> ss) (S h) st)
| int_done s ss h st :
    internal (MkSystem s ss (S h) st) (MkSystem (Add (-1) s) ss h st).

Lemma work_insert ss i x y :
  ss !! i = Some x -> work_of (<[i := y]> ss) + pc_work x = work_of ss + pc_work y.
Proof. apply sum_by_insert. Qed.

Lemma work_zero ss : work_of ss = 0 -> count_active ss = 0.
Proof.
  pose proof (sum_by_le (fun pc => flag (active pc)) pc_work ss) as Hle.
  unfold work_of, count_active. intros E. rewrite E in Hle.
  apply Nat.le_0_r, Hle. intros [l|l|l e]; simpl; lia.
Qed.

Lemma active_lookup ss :
  0 < work_of ss -> exists i l, ss !! i = Some (Accepting l) \/ ss !! i = Some (Accepted l).
Proof.
  intros (i & [l|l|l e] & Hi & Hw)%sum_by_pos; simpl in Hw; [..|lia]; exists i, l; auto.
Qed.

(** After [Stop] every step of a goroutine decreases the work left. *)
Lemma work_decreases y y' :
  inv y -> stopped (srv y) = true -> internal y y' ->
  step y y' /\ work y' < work y /\ stopped (srv y') = true.
Proof.
  intros Hi Hstop Hint. unfold work. destruct Hint as [i l s ss h st Hl Hc|i l s ss h st Hl
    |i l s ss h st Hl|s ss h st]; simpl in *.
  - destruct Hc. apply (inv_stopped _ Hi l Hstop). simpl.
    apply (inv_active _ Hi (Accepting l)); [by eapply list_elem_of_lookup_2|done].
  - split; [by constructor|]. unfold Serve_error. rewrite Hstop. simpl.
    pose proof (work_insert ss i _ (ServeReturned l None) Hl) as Hw. simpl in Hw.
    split; [lia|done].
  - split; [by constructor|].
    pose proof (work_insert ss i _ (Accepting l) Hl) as Hw. simpl in Hw. split; [lia|done].
  - split; [constructor|]. split; [lia|done].
Qed.

(** While work is left a goroutine has a step. *)
Lemma work_enabled y : 0 < work y -> exists y', internal y y'.
Proof.
  unfold work. destruct y as [s ss [|h] st]; simpl in *; intros Hw.
  - destruct (active_lookup ss ltac:(lia)) as (i & l & [Hl|Hl]).
    + eexists. by eapply int_accept_error.
    + eexists. by eapply int_handle.
  - eexists. apply int_done.
Qed.

(** No work left: nothing is counted. *)
Lemma work_done y : inv y -> work y = 0 -> running (srv y) = 0%Z.
Proof.
  intros Hi. unfold work. intros Hw. pose proof (inv_running _ Hi) as Hrun.
  rewrite (work_zero (serves y)) in Hrun by lia. lia.
Qed.

(** ** Properties *)

(** C30: whatever the order of the calls, in every reachable state: at most one
    listener is ever served; a [Serve] that has returned has closed the
    listener it adopted, and returns no error only if [Stop] was called; the
    [WaitGroup] counts exactly the accept loop and the handlers; it never rises
    from zero once a stop was called; and when a [GracefulStop] has returned,
    no loop and no handler is left, for good. *)
Theorem tcp_lifecycle (y : system) :
  rtc step initial y ->
  (forall pc pc', pc ∈ serves y -> pc' ∈ serves y ->
     active pc = true -> active pc' = true -> listener_of pc = listener_of pc') /\
  (forall l e, ServeReturned l e ∈ serves y -> l ∈ closed (srv y) /\
     (e = None -> stopped (srv y) = true)) /\
  running (srv y) = Z.of_nat (count_active (serves y) + handlers y) /\
  (forall y', stops y <> [] -> running (srv y) = 0%Z -> step y y' ->
     running (srv y') = 0%Z) /\
  (forall e, GracefulStopReturned e ∈ stops y ->
     count_active (serves y) = 0 /\ handlers y = 0).
Proof.
  intros Hr. pose proof (inv_reachable y Hr) as Hi. split_and!.
  - intros pc pc' Hpc Hpc' Ha Ha'. pose proof (inv_active _ Hi pc Hpc Ha) as E.
    rewrite (inv_active _ Hi pc' Hpc' Ha') in E. congruence.
  - intros l e Hin. split; [by apply (inv_returned _ Hi l e)|]. intros ->.
    by apply (inv_nil _ Hi l).
  - apply Hi.
  - intros y' Hst H0 Hstep. pose proof (inv_running _ Hi) as Hrun. rewrite H0 in Hrun.
    pose proof (inv_stops _ Hi Hst) as Hstop.
    destruct Hstep; simpl in *; try done; try lia.
    + unfold Serve. destruct (listener s); simpl; [done|]. rewrite Hstop. done.
    + pose proof (count_lookup ss i _ H eq_refl). lia.
    + pose proof (count_lookup ss i _ H eq_refl). lia.
    + unfold Stop. simpl. by destruct (listener s).
    + unfold Stop. simpl. by destruct (listener s).
  - intros e He. destruct (inv_graceful _ Hi e He) as [_ H0].
    pose proof (inv_running _ Hi). lia.
Qed.

(** Shutting down ends.  After [Stop], every step of the accept loop and of
    the handlers strictly decreases the work left, some such step is possible
    as long as work is left, and when none is left a waiting [GracefulStop] can
    return: it neither deadlocks nor is kept waiting by new connections. *)
Theorem tcp_shutdown (y : system) :
  rtc step initial y -> stopped (srv y) = true ->
  (forall y', internal y y' -> step y y' /\ work y' < work y /\ stopped (srv y') = true) /\
  (0 < work y -> exists y', internal y y') /\
  (work y = 0 -> forall j e, stops y !! j = Some (Waiting e) ->
     exists y', step y y' /\ stops y' !! j = Some (GracefulStopReturned e)).
Proof.
  intros Hr Hstop. pose proof (inv_reachable y Hr) as Hi. split_and!.
  - intros y' Hint. by apply work_decreases.
  - apply work_enabled.
  - intros Hw j e Hj. pose proof (work_done y Hi Hw) as H0. destruct y as [s ss h st].
    eexists. split; [by apply (step_waited j e)|].
    simpl. apply list_lookup_insert_eq. by eapply lookup_lt_Some.
Qed.

(** ** The theorems at a concrete run

    One connection is handled, a graceful stop comes, the loop and then the
    handler end, and the stop returns. *)
Definition ex_stopping : system :=
  MkSystem (MkServer (Some 7) true 2 {[7]}) [Accepting 7] 1 [Waiting None].

Lemma ex_stopping_reach : rtc step initial ex_stopping.
Proof.
  eapply rtc_l; [apply (step_serve 7); [set_solver|set_solver|done]|].
  eapply rtc_l; [apply (step_accept 0 7); [done|set_solver]|].
  eapply rtc_l; [apply (step_handle 0 7); done|].
  eapply rtc_l; [apply step_graceful|]. apply rtc_refl.
Qed.

Lemma tcp_lifecycle_witness : running (srv ex_stopping) = 2%Z.
Proof.
  destruct (tcp_lifecycle ex_stopping ex_stopping_reach) as (_ & _ & E & _). exact E.
Defined.

Lemma tcp_shutdown_witness : exists y', internal ex_stopping y'.
Proof.
  destruct (tcp_shutdown ex_stopping ex_stopping_reach eq_refl) as (_ & Hp & _).
  apply Hp. vm_compute. lia.
Defined.
