(* ===== verification/Udp.v ===== *)
(** * The UDP service

    [service/udp.go]: the key search for packets, the NAT connections with
    their deadlines, one round of the packet loop of [Serve], and one round of
    the copy back to the client.  A [net.UDPAddr] is its IP and port; time is
    in nanoseconds. *)
From S2P Require Import Prelude GoIO Cipher Salt Packet PrivateNet CipherList.
From S2P Require Import Tcp.

Definition serverUDPBufferSize : nat := Z.to_nat (64 * 1024).

Record UDPAddr := MkUDPAddr { ua_ip : IP; ua_port : Z }.

Definition valid_endpoint (u : UDPAddr) : Prop :=
  (length (octets (ua_ip u)) = 4 \/ length (octets (ua_ip u)) = 16) /\
  (0 <= ua_port u < 65536)%Z.

(** The parts of [go-shadowsocks2/socks] for packets, and [UDPAddr.String]. *)
Class UdpOps := {
  SplitAddr : bytes -> option bytes;
  ParseAddr : string -> option bytes;
  UDPAddrString : UDPAddr -> string;
}.

(** [SplitAddr] gives a nonempty prefix; the address of an endpoint is no
    longer than an IPv6 one. *)
Class UdpLaws `{UdpOps} : Prop := {
  SplitAddr_prefix b a : SplitAddr b = Some a -> a <> [] /\ exists rest, b = a ++ rest;
  ParseAddr_endpoint u : valid_endpoint u -> exists a, ParseAddr (UDPAddrString u) = Some a /\
    length a <= length (default [] (ParseAddr "[2001:db8::1]:12345")) <= 64 /\
    forall rest, SplitAddr (a ++ rest) = Some a;
}.

(** ** Finding the key of a packet *)

Section Find.
Context `{CryptoOps}.

Fixpoint findUDP_loop (dcap : nat) (src : bytes) (snapshot : list (option CipherEntry))
    : outcome (option (bytes * CipherEntry)) :=
  match snapshot with
  | [] => Ret None
  | None :: _ => Panic "nil pointer dereference"
  | Some entry :: snapshot =>
    match Unpack (Some dcap) src (eCipher entry) with
    | Panic s => Panic s
    | Err _ => findUDP_loop dcap src snapshot
    | Ret buf => Ret (Some (buf, entry))
    end
  end.

(** [dcap] is the capacity of [dst]. *)
Definition findAccessKeyUDP (clientIP : IP) (dcap : nat) (src : bytes) (cl : cipherList)
    : outcome (bytes * string * Cipher) * cipherList :=
  match SnapshotForClientIP cl clientIP with
  | Panic s => (Panic s, cl)
  | Err e => (Err e, cl)
  | Ret snapshot =>
    match findUDP_loop dcap src snapshot with
    | Panic s => (Panic s, cl)
    | Err e => (Err e, cl)
    | Ret None => (Err (Errorf "could not find valid cipher"), cl)
    | Ret (Some (buf, entry)) =>
      (Ret (buf, ID entry, eCipher entry), MarkUsedByClientIP entry clientIP cl)
    end
  end.

End Find.

(** ** NAT connections *)

(** [isDNS] on the addresses of the program, whose port is printed in
    decimal. *)
Definition isDNS (addr : UDPAddr) : bool := bool_decide (ua_port addr = 53%Z).

(** [readDeadline] is absent for the zero time; [sockDeadline] is the deadline
    set on the socket; [fastClose] says that the [sync.Once] was used. *)
Record natconn := MkNatconn {
  nc_cipher : Cipher;
  nc_keyID : string;
  clientLocation : string;
  defaultTimeout : Z;
  readDeadline : option Z;
  sockDeadline : option Z;
  fastClose : bool;
}.

Definition dnsTimeout : Z := 17 * 10 ^ 9.

Definition after (t : Z) (d : option Z) : bool :=
  match d with None => true | Some d => bool_decide (d < t)%Z end.

Definition onWrite (addr : UDPAddr) (now : Z) (c : natconn) : natconn :=
  let dns := isDNS addr in
  let isFirstWrite := bool_decide (readDeadline c = None) in
  let fast := if negb dns || negb isFirstWrite then true else fastClose c in
  let timeout := if dns then dnsTimeout else defaultTimeout c in
  let newDeadline := (now + timeout)%Z in
  if after newDeadline (readDeadline c) then
    MkNatconn (nc_cipher c) (nc_keyID c) (clientLocation c) (defaultTimeout c)
      (Some newDeadline) (Some newDeadline) fast
  else
    MkNatconn (nc_cipher c) (nc_keyID c) (clientLocation c) (defaultTimeout c)
      (readDeadline c) (sockDeadline c) fast.

Definition onRead (addr : UDPAddr) (now : Z) (c : natconn) : natconn :=
  if fastClose c then c
  else
    MkNatconn (nc_cipher c) (nc_keyID c) (clientLocation c) (defaultTimeout c)
      (readDeadline c) (if isDNS addr then Some now else sockDeadline c) true.

(** [natmap.set]: a new entry. *)
Definition new_natconn (timeout : Z) (cipher : Cipher) (keyID location : string) : natconn :=
  MkNatconn cipher keyID location timeout None None false.

(** ** The upstream packet *)

Inductive uevent :=
| UAddWwwRepo (host unid uip : string) (status isUdp : Z)
| UAddRepo (uid : string) (U D : Z)
| AddUDPPacketFromClient (location accessKey status : string)
    (clientProxyBytes proxyTargetBytes : Z) (timeToCipher : Z)
| AddUDPNatEntry
| TargetWrite (payload : bytes) (dst : UDPAddr).

Record udpService := MkUdpService {
  natTimeout : Z;
  uciphers : cipherList;
  utargetIPValidator : TargetIPValidator;
}.

Definition NewUDPService (ip_String : IP -> string) (natTimeout : Z) (cl : cipherList) :
    udpService := MkUdpService natTimeout cl (RequirePublicIP ip_String).

(** [SetTargetIPValidator] of the service. *)
Definition uSetTargetIPValidator (v : TargetIPValidator) (s : udpService) : udpService :=
  MkUdpService (natTimeout s) (uciphers s) v.

(** What one round meets: the resolver, the location of the client, the clock,
    the outcome of opening a socket and of sending the packet. *)
Record round_env := MkRound {
  resolve : string -> UDPAddr + error;
  location : string;
  now : Z;
  timeToCipherUDP : Z;
  listenPacket : option error;
  targetWrite : bytes -> UDPAddr -> nat * option error;
}.

Section Rounds.
Context `{CryptoOps} `{SocksOps} `{UdpOps}.

Definition maxAddrLen : nat := length (default [] (ParseAddr "[2001:db8::1]:12345")).

Definition validatePacket (resolve : string -> UDPAddr + error) (v : TargetIPValidator)
    (textData : bytes) : (bytes * UDPAddr) + ConnectionError :=
  match SplitAddr textData with
  | None => inr (NewConnectionError "ERR_READ_ADDRESS" "Failed to get target address" None)
  | Some tgtAddr =>
    match resolve (AddrString tgtAddr) with
    | inr err =>
      inr (NewConnectionError "ERR_RESOLVE_ADDRESS"
             ("Failed to resolve target address " +:+ AddrString tgtAddr) (Some err))
    | inl tgtUDPAddr =>
      match v (ua_ip tgtUDPAddr) with
      | Some err => inr err
      | None => inl (drop (length tgtAddr) textData, tgtUDPAddr)
      end
    end
  end.

(** The variables the deferred report reads. *)
Record report := MkReport {
  r_location : string;
  r_keyID : string;
  r_target : option UDPAddr;
  r_proxyTargetBytes : Z;
  r_time : Z;
}.

(** A nil [*net.UDPAddr] prints as ["<nil>"]. *)
Definition target_string (a : option UDPAddr) : string :=
  match a with Some a => UDPAddrString a | None => "<nil>" end.

Definition report_events (clientAddr : UDPAddr) (clientProxyBytes : Z) (status : string)
    (r : report) : list uevent :=
  [ UAddWwwRepo (target_string (r_target r)) (r_keyID r) (UDPAddrString clientAddr) 1 1;
    UAddRepo (r_keyID r) clientProxyBytes (r_proxyTargetBytes r);
    AddUDPPacketFromClient (r_location r) (r_keyID r) status clientProxyBytes
      (r_proxyTargetBytes r) (r_time r) ].

(** The NAT table, by the client's address. *)
Abbreviation nat_table := (gmap string natconn).

(** What is known before the packet is sent on: the payload, its destination
    and the connection to use, or the error; with the report so far. *)
Definition prepare (env : round_env) (s : udpService) (nm : nat_table)
    (clientAddr : UDPAddr) (cipherData : bytes)
    : outcome (((bytes * UDPAddr * natconn) + ConnectionError) * report *
               udpService * nat_table * list uevent) :=
  let key := UDPAddrString clientAddr in
  match nm !! key with
  | None =>
    let '(found, cl) :=
      findAccessKeyUDP (ua_ip clientAddr) serverUDPBufferSize cipherData (uciphers s) in
    let s := MkUdpService (natTimeout s) cl (utargetIPValidator s) in
    match found with
    | Panic m => Panic m
    | Err err =>
      Ret (inr (NewConnectionError "ERR_CIPHER" "Failed to unpack initial packet" (Some err)),
           MkReport (location env) "" None 0 (timeToCipherUDP env), s, nm, [])
    | Ret (textData, keyID, cipher) =>
      let r tgt := MkReport (location env) keyID tgt 0 (timeToCipherUDP env) in
      match validatePacket (resolve env) (utargetIPValidator s) textData with
      | inr onetErr => Ret (inr onetErr, r None, s, nm, [])
      | inl (payload, tgtUDPAddr) =>
        match listenPacket env with
        | Some err =>
          Ret (inr (NewConnectionError "ERR_CREATE_SOCKET" "Failed to create UDP socket" (Some err)),
               r (Some tgtUDPAddr), s, nm, [])
        | None =>
          let targetConn := new_natconn (natTimeout s) cipher keyID (location env) in
          Ret (inl (payload, tgtUDPAddr, targetConn), r (Some tgtUDPAddr), s,
               <[key := targetConn]> nm, [AddUDPNatEntry])
        end
      end
    end
  | Some targetConn =>
    let r keyID tgt := MkReport (clientLocation targetConn) keyID tgt 0 (timeToCipherUDP env) in
    match Unpack None cipherData (nc_cipher targetConn) with
    | Panic m => Panic m
    | Err err =>
      Ret (inr (NewConnectionError "ERR_CIPHER" "Failed to unpack data from client" (Some err)),
           r "" None, s, nm, [])
    | Ret textData =>
      let keyID := nc_keyID targetConn in
      match validatePacket (resolve env) (utargetIPValidator s) textData with
      | inr onetErr => Ret (inr onetErr, r keyID None, s, nm, [])
      | inl (payload, tgtUDPAddr) =>
        Ret (inl (payload, tgtUDPAddr, targetConn), r keyID (Some tgtUDPAddr), s, nm, [])
      end
    end
  end.

(** One round of the loop on a packet [cipherData] from [clientAddr]: the
    status, the service, the table and the events, the deferred report last. *)
Definition handlePacket (env : round_env) (s : udpService) (nm : nat_table)
    (clientAddr : UDPAddr) (cipherData : bytes)
    : outcome (string * udpService * nat_table * list uevent) :=
  let clientProxyBytes := Z.of_nat (length cipherData) in
  '(prep, r, s, nm, ev) ← prepare env s nm clientAddr cipherData;
  match prep with
  | inr ce =>
    Ret (Status ce, s, nm,
         ev ++ report_events clientAddr clientProxyBytes (Status ce) r)
  | inl (payload, dst, c) =>
    let c := onWrite dst (now env) c in
    let nm := <[UDPAddrString clientAddr := c]> nm in
    let '(n, err) := targetWrite env payload dst in
    let status := match err with None => "OK" | Some _ => "ERR_WRITE" end in
    let r := MkReport (r_location r) (r_keyID r) (r_target r) (Z.of_nat n) (r_time r) in
    Ret (status, s, nm,
         ev ++ [TargetWrite payload dst] ++
         report_events clientAddr clientProxyBytes status r)
  end.

(** One round of the loop whatever the read gives: a read error ends the loop
    when the service was stopped; otherwise the deferred report calls
    [clientAddr.String()] on a nil interface, and the panic is recovered. *)
Definition serve_round (env : round_env) (s : udpService) (nm : nat_table) (stopped : bool)
    (read : (UDPAddr * bytes) + error)
    : outcome (option string * udpService * nat_table * list uevent) :=
  match read with
  | inr _ =>
    if stopped then Ret (None, s, nm, [])
    else Panic "nil pointer dereference"
  | inl (clientAddr, cipherData) =>
    '(st, s, nm, ev) ← handlePacket env s nm clientAddr cipherData;
    Ret (Some st, s, nm, ev)
  end.

(** ** The way back *)

(** What one round of [timedCopy] does: nothing more after a timeout, or a
    status with the length of the body and the bytes sent to the client. *)
Inductive copied :=
| Expired
| Copied (status : string) (bodyLen proxyClientBytes : nat) (sent : option bytes).

(** The body of the loop, after [targetConn.ReadFrom(pkt[bodyStart:])] gave
    [read]; [send] is [clientConn.WriteTo(_, clientAddr)]. *)
Definition timedCopy_round (pkt : bytes) (c : natconn) (read : (bytes * UDPAddr) + error)
    (send : bytes -> nat * option error) (ent : bytes)
    : outcome copied * bytes * bytes :=
  let saltSize := SaltSize (nc_cipher c) in
  let bodyStart := saltSize + maxAddrLen in
  match read with
  | inr err =>
    if decide (err = ErrTimeout) then (Ret Expired, pkt, ent)
    else (Ret (Copied "ERR_READ" 0 0 None), pkt, ent)
  | inl (body, raddr) =>
    let bodyLen := length body in
    let pkt := splice pkt bodyStart body in
    let srcAddr := default [] (ParseAddr (UDPAddrString raddr)) in
    if decide (bodyStart < length srcAddr + saltSize)
    then (Panic "slice bounds out of range", pkt, ent)
    else
      let addrStart := bodyStart - length srcAddr in
      let pkt := splice pkt addrStart srcAddr in
      let saltStart := addrStart - saltSize in
      match Pack pkt saltStart (length pkt) (InBuf addrStart (bodyStart + bodyLen))
              (nc_cipher c) ent with
      | (Panic m, pkt, ent) => (Panic m, pkt, ent)
      | (Err _, pkt, ent) => (Ret (Copied "ERR_PACK" bodyLen 0 None), pkt, ent)
      | (Ret buf, pkt, ent) =>
        let '(n, err) := send buf in
        match err with
        | Some _ => (Ret (Copied "ERR_WRITE" bodyLen n (Some buf)), pkt, ent)
        | None => (Ret (Copied "OK" bodyLen n (Some buf)), pkt, ent)
        end
      end
  end.

End Rounds.
