(* ===== verification/NatMap.v ===== *)
(** * The NAT table and the lifetime of the UDP service

    [Serve], [Stop], [GracefulStop], [natmap] and the goroutines that copy
    packets back to the clients, of [service/udp.go], as a transition system:
    [Serve], any number of stops and one goroutine per connection run in any
    order, and time passes between any two steps.  What a packet contains is
    the subject of [Udp]; here a packet is a client address, a destination and
    whether it is let through. *)
From S2P Require Import Prelude GoIO Cipher PrivateNet Udp ToyCrypto.

(** ** Connections and the table *)

(** Where the goroutine of [natmap.Add] is: about to read from the target,
    handling what it read, past [timedCopy], past [RemoveUDPNatEntry], past
    [del] with what it returned, past [Close], or ended. *)
Inductive copier_pc :=
| Copying
| InRound
| TimedOut
| Reported
| Deleted (pc : option nat)
| Finishing
| CopierDone.

#[export] Instance copier_pc_eq_dec : EqDecision copier_pc.
Proof. solve_decision. Defined.

(** A connection: its key, the [natconn], how often its socket was closed, and
    its goroutine.  Connections are numbered in the order they are made. *)
Record conn := MkConn {
  c_key : string;
  c_nc : natconn;
  c_closes : nat;
  c_pc : copier_pc;
}.

(** The memory the goroutines share: the clock, [natmap.keyConn], the
    connections, the two NAT counters of the metrics and the [WaitGroup]. *)
Record memory := MkMemory {
  clock : Z;
  keyConn : gmap string nat;
  conns : list conn;
  addedEntries : Z;
  removedEntries : Z;
  running : Z;
}.

Definition set_keyConn m (w : memory) : memory :=
  MkMemory (clock w) m (conns w) (addedEntries w) (removedEntries w) (running w).
Definition set_conns cs (w : memory) : memory :=
  MkMemory (clock w) (keyConn w) cs (addedEntries w) (removedEntries w) (running w).
Definition running_Add n (w : memory) : memory :=
  MkMemory (clock w) (keyConn w) (conns w) (addedEntries w) (removedEntries w) (running w + n).
Definition AddNatEntry (w : memory) : memory :=
  MkMemory (clock w) (keyConn w) (conns w) (addedEntries w + 1) (removedEntries w) (running w).
Definition RemoveNatEntry (w : memory) : memory :=
  MkMemory (clock w) (keyConn w) (conns w) (addedEntries w) (removedEntries w + 1) (running w).

Definition with_pc pc (cn : conn) : conn := MkConn (c_key cn) (c_nc cn) (c_closes cn) pc.
Definition with_nc nc (cn : conn) : conn := MkConn (c_key cn) nc (c_closes cn) (c_pc cn).
Definition close_socket (cn : conn) : conn :=
  MkConn (c_key cn) (c_nc cn) (S (c_closes cn)) (c_pc cn).

(** ** [natmap] *)

Definition Get (key : string) (w : memory) : option nat := keyConn w !! key.

(** [natmap.set]: the new connection and its number. *)
Definition set (key : string) (timeout : Z) (cipher : Cipher) (keyID location : string)
    (w : memory) : nat * memory :=
  let c := length (conns w) in
  let entry := MkConn key (new_natconn timeout cipher keyID location) 0 Copying in
  (c, set_keyConn (<[key := c]> (keyConn w)) (set_conns (conns w ++ [entry]) w)).

Definition del (key : string) (w : memory) : option nat * memory :=
  match keyConn w !! key with
  | Some entry => (Some entry, set_keyConn (delete key (keyConn w)) w)
  | None => (None, w)
  end.

Definition Add (key : string) (timeout : Z) (cipher : Cipher) (keyID location : string)
    (w : memory) : nat * memory :=
  let '(entry, w) := set key timeout cipher keyID location w in
  let w := AddNatEntry w in
  let w := running_Add 1 w in
  (entry, w).

(** [SetReadDeadline(t)] on the socket. *)
Definition SetReadDeadline (t : Z) (cn : conn) : conn :=
  let nc := c_nc cn in
  with_nc (MkNatconn (nc_cipher nc) (nc_keyID nc) (clientLocation nc) (defaultTimeout nc)
             (readDeadline nc) (Some t) (fastClose nc)) cn.

Definition Close (w : memory) : memory :=
  let now := clock w in
  set_conns (foldr (fun pc cs => alter (SetReadDeadline now) pc cs) (conns w)
               (values (keyConn w))) w.

(** A read of the socket times out at once when its deadline has passed. *)
Definition expired (now : Z) (nc : natconn) : Prop :=
  match sockDeadline nc with Some d => (d <= now)%Z | None => False end.

#[export] Instance expired_dec now nc : Decision (expired now nc).
Proof. unfold expired. destruct (sockDeadline nc); apply _. Defined.

(** ** The goroutine of a connection *)

(** [natconn.ReadFrom] in [timedCopy]: a packet from [raddr], or an error that
    is not a timeout; the deadline has not passed. *)
Definition copier_read (raddr : option UDPAddr) (now : Z) (cn : conn) : conn :=
  let nc := match raddr with Some a => onRead a now (c_nc cn) | None => c_nc cn end in
  with_pc InRound (with_nc nc cn).

(** What follows [timedCopy]: [RemoveUDPNatEntry], [del], [Close] and
    [running.Done]. *)
Definition copier_report (c : nat) (w : memory) : memory :=
  set_conns (alter (with_pc Reported) c (conns w)) (RemoveNatEntry w).

Definition copier_del (c : nat) (key : string) (w : memory) : memory :=
  let '(pc, w) := del key w in
  set_conns (alter (with_pc (Deleted pc)) c (conns w)) w.

Definition copier_close (c : nat) (pc : option nat) (w : memory) : memory :=
  let w := match pc with
           | Some p => set_conns (alter close_socket p (conns w)) w
           | None => w
           end in
  set_conns (alter (with_pc Finishing) c (conns w)) w.

Definition copier_done (c : nat) (w : memory) : memory :=
  set_conns (alter (with_pc CopierDone) c (conns w)) (running_Add (-1) w).

(** ** The service *)

(** The fields under the mutex, and which client sockets were closed. *)
Record service := MkService {
  clientConn : option nat;
  stopped : bool;
  closed : gset nat;
}.

Definition errServeTwice : error := Errorf "Serve can only be called once".
Definition errClosed : error := Errorf "use of closed network connection".

(** The call of [Serve] that adopted a socket: about to read, with a packet from
    the client [key], with a client that has no connection, with a connection,
    past the loop, past [nm.Close], or returned. *)
Inductive serve_pc :=
| Reading
| GotPacket (key : string)
| Missed (key : string)
| Using (c : nat)
| Leaving
| MapClosed
| ServeDone.

(** A call of [Stop] or [GracefulStop]. *)
Inductive stop_pc :=
| Waiting (err : option error)
| StopReturned (err : option error)
| GracefulStopReturned (err : option error).

(** [refused] holds the calls of [Serve] that did not adopt their socket, with
    what they returned. *)
Record system := MkSystem {
  svc : service;
  serving : option serve_pc;
  mem : memory;
  refused : list (nat * option error);
  stops : list stop_pc;
}.

(** [clientConn.Close()]. *)
Definition closeConn (l : nat) (s : service) : option error * service :=
  (if decide (l ∈ closed s) then Some errClosed else None,
   MkService (clientConn s) (stopped s) ({[l]} ∪ closed s)).

(** [Serve(l)] up to its loop. *)
Definition Serve (l : nat) (y : system) : system :=
  let s := svc y in
  match clientConn s with
  | Some _ =>
    let '(_, s) := closeConn l s in
    MkSystem s (serving y) (mem y) (refused y ++ [(l, Some errServeTwice)]) (stops y)
  | None =>
    if stopped s then
      let '(e, s) := closeConn l s in
      MkSystem s (serving y) (mem y) (refused y ++ [(l, e)]) (stops y)
    else
      MkSystem (MkService (Some l) (stopped s) (closed s)) (Some Reading)
        (running_Add 1 (mem y)) (refused y) (stops y)
  end.

(** The loop when [ReadFrom] failed: it ends if the service was stopped;
    otherwise the deferred report panics, and the panic is recovered. *)
Definition Serve_read_error (s : service) : serve_pc :=
  if stopped s then Leaving else Reading.

(** [targetConn := nm.Get(...)]. *)
Definition Serve_lookup (key : string) (w : memory) : serve_pc :=
  match Get key w with Some c => Using c | None => Missed key end.

(** [targetConn.WriteTo(payload, dst)], which sets the deadline and sends. *)
Definition Serve_write (c : nat) (dst : UDPAddr) (w : memory) : memory :=
  set_conns (alter (fun cn => with_nc (onWrite dst (clock w) (c_nc cn)) cn) c (conns w)) w.

Definition Stop (s : service) : option error * service :=
  let s := MkService (clientConn s) true (closed s) in
  match clientConn s with
  | None => (None, s)
  | Some l => closeConn l s
  end.

(** ** The system *)

(** A step of the goroutines of the service. *)
Inductive internal : system -> system -> Prop :=
| int_read key l s w rf st :
    clientConn s = Some l -> l ∉ closed s ->
    internal (MkSystem s (Some Reading) w rf st) (MkSystem s (Some (GotPacket key)) w rf st)
| int_read_error s w rf st :
    internal (MkSystem s (Some Reading) w rf st)
      (MkSystem s (Some (Serve_read_error s)) w rf st)
| int_lookup key s w rf st :
    internal (MkSystem s (Some (GotPacket key)) w rf st)
      (MkSystem s (Some (Serve_lookup key w)) w rf st)
| int_drop pc s w rf st :
    (exists key, pc = Missed key) \/ (exists c, pc = Using c) ->
    internal (MkSystem s (Some pc) w rf st) (MkSystem s (Some Reading) w rf st)
| int_add key timeout cipher keyID location s w rf st :
    internal (MkSystem s (Some (Missed key)) w rf st)
      (MkSystem s (Some (Using (fst (Add key timeout cipher keyID location w))))
         (snd (Add key timeout cipher keyID location w)) rf st)
| int_write c dst s w rf st :
    internal (MkSystem s (Some (Using c)) w rf st)
      (MkSystem s (Some Reading) (Serve_write c dst w) rf st)
| int_close s w rf st :
    internal (MkSystem s (Some Leaving) w rf st) (MkSystem s (Some MapClosed) (Close w) rf st)
| int_serve_done s w rf st :
    internal (MkSystem s (Some MapClosed) w rf st)
      (MkSystem s (Some ServeDone) (running_Add (-1) w) rf st)
| int_copier_read c cn raddr s sv w rf st :
    conns w !! c = Some cn -> c_pc cn = Copying -> ~ expired (clock w) (c_nc cn) ->
    internal (MkSystem s sv w rf st)
      (MkSystem s sv (set_conns (alter (copier_read raddr (clock w)) c (conns w)) w) rf st)
| int_copier_sent c cn s sv w rf st :
    conns w !! c = Some cn -> c_pc cn = InRound ->
    internal (MkSystem s sv w rf st)
      (MkSystem s sv (set_conns (alter (with_pc Copying) c (conns w)) w) rf st)
| int_copier_timeout c cn s sv w rf st :
    conns w !! c = Some cn -> c_pc cn = Copying -> expired (clock w) (c_nc cn) ->
    internal (MkSystem s sv w rf st)
      (MkSystem s sv (set_conns (alter (with_pc TimedOut) c (conns w)) w) rf st)
| int_copier_report c cn s sv w rf st :
    conns w !! c = Some cn -> c_pc cn = TimedOut ->
    internal (MkSystem s sv w rf st) (MkSystem s sv (copier_report c w) rf st)
| int_copier_del c cn s sv w rf st :
    conns w !! c = Some cn -> c_pc cn = Reported ->
    internal (MkSystem s sv w rf st) (MkSystem s sv (copier_del c (c_key cn) w) rf st)
| int_copier_close c cn pc s sv w rf st :
    conns w !! c = Some cn -> c_pc cn = Deleted pc ->
    internal (MkSystem s sv w rf st) (MkSystem s sv (copier_close c pc w) rf st)
| int_copier_done c cn s sv w rf st :
    conns w !! c = Some cn -> c_pc cn = Finishing ->
    internal (MkSystem s sv w rf st) (MkSystem s sv (copier_done c w) rf st).

Definition set_clock t (w : memory) : memory :=
  MkMemory t (keyConn w) (conns w) (addedEntries w) (removedEntries w) (running w).

(** Any step: of the service, of the clock, or a new call. *)
Inductive step : system -> system -> Prop :=
| step_internal y y' : internal y y' -> step y y'
| step_tick t s sv w rf st :
    (clock w <= t)%Z -> step (MkSystem s sv w rf st) (MkSystem s sv (set_clock t w) rf st)
| step_serve l y :
    l ∉ closed (svc y) -> clientConn (svc y) <> Some l -> step y (Serve l y)
| step_stop s sv w rf st :
    step (MkSystem s sv w rf st)
      (MkSystem (snd (Stop s)) sv w rf (st ++ [StopReturned (fst (Stop s))]))
| step_graceful s sv w rf st :
    step (MkSystem s sv w rf st)
      (MkSystem (snd (Stop s)) sv w rf (st ++ [Waiting (fst (Stop s))]))
| step_waited j e s sv w rf st :
    st !! j = Some (Waiting e) -> running w = 0%Z ->
    step (MkSystem s sv w rf st)
      (MkSystem s sv w rf (<[j := GracefulStopReturned e]> st)).

Definition initial : system :=
  MkSystem (MkService None false ∅) None (MkMemory 0 ∅ [] 0 0 0) [] [].

(** ** The invariant *)

(** The goroutine has not called [del]; it is still in [timedCopy] or about to
    report; it has not ended. *)
Definition present (pc : copier_pc) : bool :=
  match pc with Copying | InRound | TimedOut | Reported => true | _ => false end.
Definition counted (pc : copier_pc) : bool :=
  match pc with Copying | InRound | TimedOut => true | _ => false end.
Definition live (pc : copier_pc) : bool :=
  match pc with CopierDone => false | _ => true end.

Definition entries (cs : list conn) : nat := sum_by (fun cn => flag (counted (c_pc cn))) cs.
Definition copiers (cs : list conn) : nat := sum_by (fun cn => flag (live (c_pc cn))) cs.

(** Connection [c] is in the table until its goroutine deletes it, which deletes
    nothing else; its socket is closed after that, once.  After [nm.Close]
    ([swept]) no read waits. *)
Record conn_ok (swept : Prop) (w : memory) (c : nat) (cn : conn) : Prop := {
  ok_present : present (c_pc cn) = true -> keyConn w !! c_key cn = Some c /\ c_closes cn = 0;
  ok_deleted o : c_pc cn = Deleted o -> o = Some c /\ c_closes cn = 0;
  ok_closed : c_pc cn = Finishing \/ c_pc cn = CopierDone -> c_closes cn = 1;
  ok_swept : swept -> c_pc cn = Copying \/ c_pc cn = InRound -> expired (clock w) (c_nc cn);
}.

(** [n] is 1 while [Serve] holds the [WaitGroup]. *)
Record minv (swept : Prop) (n : nat) (w : memory) : Prop := {
  m_table k c : keyConn w !! k = Some c ->
    exists cn, conns w !! c = Some cn /\ c_key cn = k /\ present (c_pc cn) = true;
  m_conn c cn : conns w !! c = Some cn -> conn_ok swept w c cn;
  m_entries : (addedEntries w - removedEntries w = Z.of_nat (entries (conns w)))%Z;
  m_running : running w = Z.of_nat (n + copiers (conns w));
}.

Lemma alter_insert {A} (f : A -> A) (l : list A) i x :
  l !! i = Some x -> alter f i l = <[i := f x]> l.
Proof. revert i. induction l as [|y l IH]; intros [|i] Hi; simplify_eq/=; [done|f_equal; auto]. Qed.

(** A step of one goroutine changes its connection, and of the table only what
    concerns it. *)
Lemma minv_conn swept n w w' c cn cn' :
  minv swept n w ->
  conns w !! c = Some cn -> conns w' = <[c := cn']> (conns w) -> clock w' = clock w ->
  (forall k d, d <> c -> keyConn w' !! k = Some d <-> keyConn w !! k = Some d) ->
  (forall k, keyConn w' !! k = Some c -> c_key cn' = k /\ present (c_pc cn') = true) ->
  conn_ok swept w' c cn' ->
  (addedEntries w' - removedEntries w' - Z.of_nat (flag (counted (c_pc cn'))) =
   addedEntries w - removedEntries w - Z.of_nat (flag (counted (c_pc cn))))%Z ->
  (running w' - Z.of_nat (flag (live (c_pc cn'))) =
   running w - Z.of_nat (flag (live (c_pc cn))))%Z ->
  minv swept n w'.
Proof.
  intros [Ht Hc He Hr] Hcn Hcs Hclk Hoth Hown Hok Hent Hrun.
  pose proof (lookup_lt_Some _ _ _ Hcn) as Hlt.
  split.
  - intros k d Hk. rewrite Hcs. destruct (decide (d = c)) as [->|Hne].
    + rewrite list_lookup_insert_eq by done. destruct (Hown k Hk). eauto.
    + rewrite list_lookup_insert_ne by done. by apply Ht, Hoth.
  - intros d dn. rewrite Hcs. destruct (decide (d = c)) as [->|Hne].
    + rewrite list_lookup_insert_eq by done. by intros [= <-].
    + rewrite list_lookup_insert_ne by done. intros Hd.
      destruct (Hc d dn Hd) as [Hp Hdel Hcl Hsw]. split; try done.
      * intros Hpr. rewrite Hoth by done. by apply Hp.
      * by rewrite Hclk.
  - rewrite Hcs. unfold entries in *.
    pose proof (sum_by_insert (fun cn => flag (counted (c_pc cn))) _ _ _ cn' Hcn).
    simpl in *. lia.
  - rewrite Hcs. unfold copiers in *.
    pose proof (sum_by_insert (fun cn => flag (live (c_pc cn))) _ _ _ cn' Hcn).
    simpl in *. lia.
Qed.

(** The steps that leave the table and the counters alone. *)
Lemma minv_alter swept n w c cn f :
  minv swept n w -> conns w !! c = Some cn ->
  c_key (f cn) = c_key cn -> c_closes (f cn) = c_closes cn ->
  present (c_pc cn) = true -> present (c_pc (f cn)) = true ->
  counted (c_pc (f cn)) = counted (c_pc cn) ->
  (swept -> c_pc (f cn) = Copying \/ c_pc (f cn) = InRound ->
   expired (clock w) (c_nc (f cn))) ->
  minv swept n (set_conns (alter f c (conns w)) w).
Proof.
  intros Hi Hcn Hk Hcl Hp Hp' Hct Hsw.
  destruct (m_conn _ _ _ Hi c cn Hcn) as [Hpr _ _ _].
  destruct (Hpr Hp) as [Hin H0].
  apply (minv_conn swept n w _ c cn (f cn)); simpl; try done.
  - by apply alter_insert.
  - intros k Hkc. destruct (m_table _ _ _ Hi k c Hkc) as (cn2 & Hcn2 & <- & _).
    rewrite Hcn in Hcn2. injection Hcn2 as <-. by rewrite Hk.
  - split; simpl; try done.
    + intros _. by rewrite Hk, Hcl.
    + intros o Ho. by rewrite Ho in Hp'.
    + intros [Ho|Ho]; by rewrite Ho in Hp'.
  - by rewrite Hct.
  - by destruct (c_pc cn), (c_pc (f cn)).
Qed.

Lemma minv_report swept n w c cn :
  minv swept n w -> conns w !! c = Some cn -> c_pc cn = TimedOut ->
  minv swept n (copier_report c w).
Proof.
  intros Hi Hcn Hpc. destruct (m_conn _ _ _ Hi c cn Hcn) as [Hpr _ _ _].
  rewrite Hpc in Hpr. destruct (Hpr eq_refl) as [Hin H0].
  apply (minv_conn swept n w _ c cn (with_pc Reported cn)); rewrite ?Hpc; simpl; try done.
  - by apply alter_insert.
  - intros k Hkc. destruct (m_table _ _ _ Hi k c Hkc) as (cn2 & Hcn2 & <- & _).
    rewrite Hcn in Hcn2. by injection Hcn2 as <-.
  - split; simpl; try done; [by intros [?|?]|by intros _ [?|?]].
  - lia.
Qed.

Lemma minv_del swept n w c cn :
  minv swept n w -> conns w !! c = Some cn -> c_pc cn = Reported ->
  minv swept n (copier_del c (c_key cn) w).
Proof.
  intros Hi Hcn Hpc. destruct (m_conn _ _ _ Hi c cn Hcn) as [Hpr _ _ _].
  rewrite Hpc in Hpr. destruct (Hpr eq_refl) as [Hin H0].
  unfold copier_del, del. rewrite Hin.
  apply (minv_conn swept n w _ c cn (with_pc (Deleted (Some c)) cn)); rewrite ?Hpc; simpl; try done.
  - by apply alter_insert.
  - intros k d Hd. rewrite lookup_delete_Some. split; [tauto|]. intros Hk. split; [|done].
    intros <-. congruence.
  - intros k [Hne Hkc]%lookup_delete_Some.
    destruct (m_table _ _ _ Hi k c Hkc) as (cn2 & Hcn2 & <- & _).
    rewrite Hcn in Hcn2. by injection Hcn2 as <-.
  - split; simpl; try done; [by intros o [= <-]|by intros [?|?]|by intros _ [?|?]].
Qed.

(** A connection past [del] is not in the table. *)
Lemma gone swept n w c cn k :
  minv swept n w -> conns w !! c = Some cn -> present (c_pc cn) = false ->
  keyConn w !! k <> Some c.
Proof.
  intros Hi Hcn Hp Hk. destruct (m_table _ _ _ Hi k c Hk) as (cn2 & Hcn2 & _ & ?).
  congruence.
Qed.

Lemma minv_close swept n w c cn pc :
  minv swept n w -> conns w !! c = Some cn -> c_pc cn = Deleted pc ->
  minv swept n (copier_close c pc w).
Proof.
  intros Hi Hcn Hpc. destruct (m_conn _ _ _ Hi c cn Hcn) as [_ Hdel _ _].
  destruct (Hdel _ Hpc) as [-> H0].
  assert (present (c_pc cn) = false) as Hp by by rewrite Hpc.
  apply (minv_conn swept n w _ c cn (with_pc Finishing (close_socket cn)));
    rewrite ?Hpc; simpl; try done.
  - rewrite (alter_insert _ _ _ _ Hcn).
    rewrite (alter_insert _ _ _ _ (list_lookup_insert_eq _ _ _ (lookup_lt_Some _ _ _ Hcn))).
    by rewrite list_insert_insert_eq.
  - intros k Hk. by destruct (gone _ _ _ _ _ k Hi Hcn Hp).
  - split; simpl; try done; [by intros _; rewrite H0|by intros _ [?|?]].
Qed.

Lemma minv_done swept n w c cn :
  minv swept n w -> conns w !! c = Some cn -> c_pc cn = Finishing ->
  minv swept n (copier_done c w).
Proof.
  intros Hi Hcn Hpc. destruct (m_conn _ _ _ Hi c cn Hcn) as [_ _ Hcl _].
  assert (present (c_pc cn) = false) as Hp by by rewrite Hpc.
  apply (minv_conn swept n w _ c cn (with_pc CopierDone cn)); rewrite ?Hpc; simpl; try done.
  - by apply alter_insert.
  - intros k Hk. by destruct (gone _ _ _ _ _ k Hi Hcn Hp).
  - split; simpl; try done; [intros _; apply Hcl; auto|by intros _ [?|?]].
  - lia.
Qed.

Lemma minv_add n w key timeout cipher keyID location :
  minv False n w -> keyConn w !! key = None ->
  minv False n (snd (Add key timeout cipher keyID location w)).
Proof.
  intros [Ht Hc He Hr] Hmiss. split; simpl.
  - intros k c [[<- <-]|[Hne Hk]]%lookup_insert_Some.
    + eexists. rewrite list_lookup_middle by done. done.
    + destruct (Ht k c Hk) as (cn & Hcn & ?). exists cn.
      by rewrite lookup_app_l by (by eapply lookup_lt_Some).
  - intros c cn [Hcn|(Hlen & Hcn)]%lookup_app_Some.
    + destruct (Hc c cn Hcn) as [Hp Hd Hcl Hs]. split; try done.
      intros Hpr. destruct (Hp Hpr) as [Hin ?]. split; [|done]. simpl.
      rewrite lookup_insert_ne; [done|]. intros ->. congruence.
    + apply list_lookup_singleton_Some in Hcn as [Hz <-].
      replace c with (length (conns w)) by lia.
      split; simpl; try done; [|by intros [?|?]]. intros _. by rewrite lookup_insert_eq.
  - unfold entries in *. rewrite sum_by_snoc. simpl. lia.
  - unfold copiers in *. rewrite sum_by_snoc. simpl. lia.
Qed.

(** A loop that applies an idempotent update to a list of indices. *)
Lemma lookup_foldr_alter {A} (f : A -> A) (ix : list nat) (l : list A) j :
  (forall x, f (f x) = f x) ->
  foldr (fun i l => alter f i l) l ix !! j = if decide (j ∈ ix) then f <$> l !! j else l !! j.
Proof.
  intros Hf. induction ix as [|i ix IH]; simpl; [done|].
  destruct (decide (i = j)) as [->|Hne].
  - rewrite list_lookup_alter_eq, IH.
    destruct (decide (j ∈ j :: ix)) as [_|Hn]; [|destruct Hn; left].
    destruct (decide (j ∈ ix)); [|done]. destruct (l !! j); simpl; [by rewrite Hf|done].
  - rewrite list_lookup_alter_ne, IH by done.
    destruct (decide (j ∈ ix)), (decide (j ∈ i :: ix)) as [Hj|Hj]; try done.
    + destruct Hj. by right.
    + by apply elem_of_cons in Hj as [?|?].
Qed.

Lemma sum_by_foldr_alter {A} (g : A -> nat) (f : A -> A) (ix : list nat) (l : list A) :
  (forall x, g (f x) = g x) -> sum_by g (foldr (fun i l => alter f i l) l ix) = sum_by g l.
Proof.
  intros Hg. induction ix as [|i ix IH]; simpl; [done|]. rewrite <- IH. clear IH.
  generalize (foldr (fun i l => alter f i l) l ix). clear l.
  intros l. revert i. induction l as [|x l IH]; intros [|i]; simpl; [done|done|by rewrite Hg|].
  by rewrite <- (IH i).
Qed.

Lemma lookup_Close w c :
  conns (Close w) !! c =
  if decide (c ∈ values (keyConn w)) then SetReadDeadline (clock w) <$> conns w !! c
  else conns w !! c.
Proof. apply lookup_foldr_alter. done. Qed.

(** After [nm.Close] every read that waits or will be made has a deadline in
    the past. *)
Lemma minv_Close n w : minv False n w -> minv True n (Close w).
Proof.
  intros [Ht Hc He Hr].
  split.
  - intros k c Hk. destruct (Ht k c Hk) as (cn & Hcn & ?).
    pose proof (lookup_Close w c) as E. rewrite Hcn in E.
    destruct (decide _) in E; eauto.
  - intros c cn. rewrite lookup_Close. destruct (decide _) as [Hin|Hout].
    + intros (cn0 & Hcn & ->)%fmap_Some. destruct (Hc c cn0 Hcn) as [Hp Hd Hcl _].
      split; try done. intros _ _. unfold expired. simpl. lia.
    + intros Hcn. destruct (Hc c cn Hcn) as [Hp Hd Hcl _]. split; try done.
      intros _ Hpc. destruct Hout. apply elem_of_values. exists (c_key cn). apply Hp.
      by destruct Hpc as [-> | ->].
  - unfold entries in *. simpl. by rewrite sum_by_foldr_alter.
  - unfold copiers in *. simpl. by rewrite sum_by_foldr_alter.
Qed.

Lemma minv_tick swept n w t :
  (clock w <= t)%Z -> minv swept n w -> minv swept n (set_clock t w).
Proof.
  intros Hle [Ht Hc He Hr]. split; try done. intros c cn Hcn.
  destruct (Hc c cn Hcn) as [Hp Hd Hcl Hs]. split; try done. intros Hsw Hpc.
  specialize (Hs Hsw Hpc). unfold expired in *. simpl.
  destruct (sockDeadline (c_nc cn)); [lia|done].
Qed.

Lemma minv_running swept n n' w k :
  (k = Z.of_nat n' - Z.of_nat n)%Z -> minv swept n w -> minv swept n' (running_Add k w).
Proof.
  intros Hk [Ht Hc He Hr]. split; try done; [|simpl; lia].
  intros c cn Hcn. by destruct (Hc c cn Hcn).
Qed.

(** [Serve] writes through any connection it got, even one whose goroutine has
    ended since. *)
Lemma minv_write n w c dst : minv False n w -> minv False n (Serve_write c dst w).
Proof.
  intros Hi. unfold Serve_write.
  destruct (conns w !! c) as [cn|] eqn:Hcn.
  - destruct (m_conn _ _ _ Hi c cn Hcn) as [Hp Hd Hcl Hs].
    eapply (minv_conn False n w _ c cn (with_nc (onWrite dst (clock w) (c_nc cn)) cn)); simpl; try done.
    + by apply (alter_insert (fun cn => with_nc (onWrite dst (clock w) (c_nc cn)) cn)).
    + intros k Hk. destruct (m_table _ _ _ Hi k c Hk) as (cn2 & Hcn2 & Hk2). rewrite Hcn in Hcn2.
      by injection Hcn2 as <-.
  - assert (forall f, alter f c (conns w) = conns w) as E.
    { intros f. apply list_eq. intros j. destruct (decide (j = c)) as [->|].
      - by rewrite list_lookup_alter_eq, Hcn.
      - by rewrite list_lookup_alter_ne. }
    rewrite E. by destruct w.
Qed.

(** ** The whole system *)

(** [Serve] holds the [WaitGroup]; it has called [nm.Close]; its loop ended. *)
Definition holds (sv : option serve_pc) : nat :=
  match sv with None | Some ServeDone => 0 | Some _ => 1 end.
Definition swept (sv : option serve_pc) : Prop :=
  match sv with Some MapClosed | Some ServeDone => True | _ => False end.
Definition leaving (sv : option serve_pc) : Prop :=
  match sv with Some Leaving | Some MapClosed | Some ServeDone => True | _ => False end.

Record inv (y : system) : Prop := {
  i_mem : minv (swept (serving y)) (holds (serving y)) (mem y);
  i_missed k : serving y = Some (Missed k) -> keyConn (mem y) !! k = None;
  i_none : clientConn (svc y) = None <-> serving y = None;
  i_empty : serving y = None -> conns (mem y) = [];
  i_leaving : leaving (serving y) -> stopped (svc y) = true;
  i_stopped l : stopped (svc y) = true -> clientConn (svc y) = Some l -> l ∈ closed (svc y);
  i_open l : clientConn (svc y) = Some l -> l ∈ closed (svc y) -> stopped (svc y) = true;
  i_stops : stops y <> [] -> stopped (svc y) = true;
  i_graceful e : GracefulStopReturned e ∈ stops y ->
    stopped (svc y) = true /\ running (mem y) = 0%Z;
  i_refused l e : (l, e) ∈ refused y -> l ∈ closed (svc y);
}.

Lemma nat_initial : inv initial.
Proof.
  split; simpl; try done; try set_solver.
Qed.

(** A goroutine that takes a step is counted by the [WaitGroup]. *)
Lemma internal_running y y' : inv y -> internal y y' -> (0 < running (mem y))%Z.
Proof.
  intros Hi Hs. pose proof (m_running _ _ _ (i_mem _ Hi)) as Hr.
  assert (0 < holds (serving y) \/ exists c cn, conns (mem y) !! c = Some cn /\
            live (c_pc cn) = true) as [Hp|(c & cn & Hcn & Hl)].
  { destruct Hs as [| | |pc s w rf st Hpc| | | | |c cn raddr s sv w rf st Hcn Hpc _
      |c cn s sv w rf st Hcn Hpc|c cn s sv w rf st Hcn Hpc _|c cn s sv w rf st Hcn Hpc
      |c cn s sv w rf st Hcn Hpc|c cn pc s sv w rf st Hcn Hpc|c cn s sv w rf st Hcn Hpc];
      simpl; try (left; lia); try (right; exists c, cn; by rewrite Hpc).
    destruct Hpc as [(k & ->)|(c & ->)]; left; simpl; lia. }
  - lia.
  - pose proof (sum_by_lookup (fun cn => flag (live (c_pc cn))) _ _ _ Hcn) as Hle.
    simpl in Hle. rewrite Hl in Hle. simpl in Hle. unfold copiers in Hr. lia.
Qed.

(** What a step of the service leaves alone. *)
Lemma internal_frame y y' :
  internal y y' ->
  svc y' = svc y /\ refused y' = refused y /\ stops y' = stops y /\
  (serving y' = None <-> serving y = None) /\
  (leaving (serving y') -> leaving (serving y) \/ stopped (svc y) = true).
Proof.
  intros Hs. destruct Hs; simpl; split_and!; try done; auto.
  - unfold Serve_read_error. destruct (stopped s); auto.
  - unfold Serve_lookup. by destruct (Get key w).
Qed.

Lemma internal_missed y y' k :
  inv y -> internal y y' -> serving y' = Some (Missed k) -> keyConn (mem y') !! k = None.
Proof.
  intros Hi Hs. destruct Hs as [| | key s w rf st| | | | | | | | | |c cn s sv w rf st _ _
    |c cn pc s sv w rf st _ _|]; simpl; try done; try apply (i_missed _ Hi).
  - unfold Serve_read_error. by destruct (stopped s).
  - unfold Serve_lookup, Get. destruct (keyConn w !! key) eqn:E; [done|]. by intros [= <-].
  - intros Hk. apply (i_missed _ Hi) in Hk. simpl in Hk. unfold copier_del, del.
    destruct (keyConn w !! c_key cn); simpl; [|done].
    apply lookup_delete_None. by right.
  - intros Hk. apply (i_missed _ Hi) in Hk. unfold copier_close. by destruct pc.
Qed.

Lemma internal_mem y y' :
  inv y -> internal y y' -> minv (swept (serving y')) (holds (serving y')) (mem y').
Proof.
  intros Hi Hs. pose proof (i_mem _ Hi) as Hm.
  destruct Hs as [| | | pc s w rf st Hpc| key timeout cipher keyID location s w rf st| | | |c cn raddr s sv w rf st Hcn Hpc Hex
      |c cn s sv w rf st Hcn Hpc|c cn s sv w rf st Hcn Hpc Hex|c cn s sv w rf st Hcn Hpc
      |c cn s sv w rf st Hcn Hpc|c cn pc s sv w rf st Hcn Hpc|c cn s sv w rf st Hcn Hpc];
    simpl in *; try done.
  - unfold Serve_read_error. by destruct (stopped s).
  - unfold Serve_lookup. by destruct (Get key w).
  - destruct Hpc as [(k & ->)|(c & ->)]; done.
  - apply minv_add; [done|]. by apply (i_missed _ Hi).
  - by apply minv_write.
  - by apply minv_Close.
  - by apply (minv_running True 1 0).
  - apply (minv_alter _ _ w c cn); simpl; rewrite ?Hpc; try done.
    intros Hsw _. destruct Hex. apply (ok_swept _ _ _ _ (m_conn _ _ _ Hm c cn Hcn) Hsw). auto.
  - apply (minv_alter _ _ w c cn); simpl; rewrite ?Hpc; try done.
    intros Hsw _. apply (ok_swept _ _ _ _ (m_conn _ _ _ Hm c cn Hcn) Hsw). auto.
  - apply (minv_alter _ _ w c cn); simpl; rewrite ?Hpc; try done.
  - by apply (minv_report _ _ _ _ cn).
  - by apply minv_del.
  - by apply (minv_close _ _ _ _ cn).
  - by apply (minv_done _ _ _ _ cn).
Qed.

Lemma internal_empty y y' :
  inv y -> internal y y' -> serving y' = None -> conns (mem y') = [].
Proof.
  intros Hi Hs Hn. destruct (internal_frame _ _ Hs) as (_ & _ & _ & Hse & _).
  pose proof (internal_running _ _ Hi Hs) as Hr. apply Hse in Hn.
  pose proof (m_running _ _ _ (i_mem _ Hi)) as Hr'.
  rewrite (i_empty _ Hi Hn), Hn in Hr'. unfold copiers in Hr'. simpl in Hr'. lia.
Qed.

Lemma nat_internal y y' : inv y -> internal y y' -> inv y'.
Proof.
  intros Hi Hs. destruct (internal_frame _ _ Hs) as (Esvc & Erf & Est & Hse & Hle).
  split; rewrite ?Esvc, ?Erf, ?Est.
  - by apply (internal_mem y).
  - intros k. by apply (internal_missed y).
  - rewrite Hse. apply Hi.
  - by apply (internal_empty y).
  - intros [Hl|?]%Hle; [|done]. by apply (i_leaving _ Hi).
  - apply Hi.
  - apply Hi.
  - apply Hi.
  - intros e He. destruct (i_graceful _ Hi e He) as [_ H0].
    pose proof (internal_running _ _ Hi Hs). lia.
  - apply Hi.
Qed.

Lemma nat_serve l y :
  inv y -> l ∉ closed (svc y) -> clientConn (svc y) <> Some l -> inv (Serve l y).
Proof.
  intros [Hm Hmi Hno Hem Hle Hst Hop Hss Hg Hrf] Hl Hne. unfold Serve.
  destruct y as [[cc sd cl] sv w rf st]; simpl in *.
  destruct cc as [l0|]; [|destruct sd].
  - split; simpl; try done.
    + intros k Hk [= <-]. specialize (Hst l0 Hk eq_refl). set_solver.
    + intros k [= <-] [->%elem_of_singleton|Hk]%elem_of_union; [done|]. by apply (Hop l0).
    + intros k e [Hk%Hrf|[= -> _]]%elem_of_snoc; set_solver.
  - split; simpl; try done. intros k e [Hk%Hrf|[= -> _]]%elem_of_snoc; set_solver.
  - destruct Hno as [Hno _]. specialize (Hno eq_refl) as ->. specialize (Hem eq_refl).
    split; simpl; try done.
    + by apply (minv_running False 0 1).
    + intros k [= <-] ?. done.
    + intros e He. by destruct (Hg e He).
Qed.

Lemma nat_stop p s sv w rf st :
  inv (MkSystem s sv w rf st) -> (forall e, p <> GracefulStopReturned e) ->
  inv (MkSystem (snd (Stop s)) sv w rf (st ++ [p])).
Proof.
  intros [Hm Hmi Hno Hem Hle Hst Hop Hss Hg Hrf] Hp. unfold Stop.
  assert (forall e, GracefulStopReturned e ∈ st ++ [p] -> GracefulStopReturned e ∈ st) as Hg'.
  { intros e [?|He]%elem_of_snoc; [done|]. by destruct (Hp e). }
  destruct s as [[l|] sd cl]; simpl in *; split; simpl; try done; try set_solver.
Qed.

Lemma nat_step y y' : inv y -> step y y' -> inv y'.
Proof.
  intros Hi Hs. destruct Hs as [y y' Hs|t s sv w rf st Ht|l y ? ?|s sv w rf st|s sv w rf st
    |j e s sv w rf st Hj H0].
  - by apply (nat_internal y).
  - destruct Hi as [Hm Hmi Hno Hem Hle Hst Hop Hss Hg Hrf]. split; try done.
    by apply minv_tick.
  - by apply nat_serve.
  - by apply nat_stop.
  - by apply nat_stop.
  - destruct Hi as [Hm Hmi Hno Hem Hle Hst Hop Hss Hg Hrf]. simpl in *.
    assert (stopped s = true) as Hstop by (apply Hss; by destruct st).
    split; simpl; try done.
Qed.

Lemma nat_reachable y : rtc step initial y -> inv y.
Proof.
  intros Hr. pose proof nat_initial as Hi. induction Hr as [|y1 y2 y3 Hs _ IH]; [done|].
  apply IH. by eapply nat_step.
Qed.

(** ** Shutting down *)

(** What [Serve] still has to do once its socket is closed, and what the
    goroutines of the connections have to do once [nm.Close] was called. *)
Definition serve_work (sv : option serve_pc) : nat :=
  match sv with
  | None | Some ServeDone => 0
  | Some MapClosed => 1
  | Some Leaving => 2
  | Some Reading => 3
  | Some (Using _) => 4
  | Some (Missed _) => 5
  | Some (GotPacket _) => 6
  end.

Definition copier_work (pc : copier_pc) : nat :=
  match pc with
  | CopierDone => 0
  | Finishing => 1
  | Deleted _ => 2
  | Reported => 3
  | TimedOut => 4
  | Copying => 5
  | InRound => 6
  end.

Definition copy_work (cs : list conn) : nat := sum_by (fun cn => copier_work (c_pc cn)) cs.

Lemma copy_work_alter f c cn cs :
  cs !! c = Some cn -> copier_work (c_pc (f cn)) < copier_work (c_pc cn) ->
  copy_work (alter f c cs) < copy_work cs.
Proof.
  intros Hcn Hlt. rewrite (alter_insert _ _ _ _ Hcn). unfold copy_work.
  pose proof (sum_by_insert (fun cn => copier_work (c_pc cn)) _ _ _ (f cn) Hcn).
  simpl in *. lia.
Qed.

(** A step of the goroutine of a connection whose reads have all expired. *)
Lemma copier_progress y y' :
  inv y -> holds (serving y) = 0 -> internal y y' ->
  copy_work (conns (mem y')) < copy_work (conns (mem y)).
Proof.
  intros Hi H0 Hs. pose proof (i_mem _ Hi) as Hm. pose proof (i_empty _ Hi) as Hem.
  assert (serving y <> None -> swept (serving y)) as Hsw
    by (destruct (serving y) as [[]|]; done).
  destruct Hs as [| | |pc s w rf st Hpc| | | | |c cn raddr s sv w rf st Hcn Hpc Hex
      |c cn s sv w rf st Hcn Hpc|c cn s sv w rf st Hcn Hpc _|c cn s sv w rf st Hcn Hpc
      |c cn s sv w rf st Hcn Hpc|c cn pc s sv w rf st Hcn Hpc|c cn s sv w rf st Hcn Hpc];
    simpl in *; try done.
  - by destruct Hpc as [(k & ->)|(k & ->)].
  - destruct Hex. apply (ok_swept _ _ _ _ (m_conn _ _ _ Hm c cn Hcn)); [|by left].
    apply Hsw. intros Hn. by rewrite (Hem Hn) in Hcn.
  - apply (copy_work_alter _ c cn); [done|]. simpl. rewrite Hpc. simpl. lia.
  - apply (copy_work_alter _ c cn); [done|]. simpl. rewrite Hpc. simpl. lia.
  - apply (copy_work_alter _ c cn); [done|]. simpl. rewrite Hpc. simpl. lia.
  - unfold copier_del, del. destruct (keyConn w !! c_key cn); simpl;
      (apply (copy_work_alter _ c cn); [done|]; simpl; rewrite Hpc; simpl; lia).
  - destruct (ok_deleted _ _ _ _ (m_conn _ _ _ Hm c cn Hcn) _ Hpc) as [-> _].
    unfold copier_close. simpl. rewrite (alter_insert close_socket _ _ _ Hcn).
    rewrite (alter_insert _ _ _ _ (list_lookup_insert_eq _ _ _ (lookup_lt_Some _ _ _ Hcn))).
    rewrite list_insert_insert_eq. unfold copy_work.
    pose proof (sum_by_insert (fun cn => copier_work (c_pc cn)) _ _ _
                  (with_pc Finishing (close_socket cn)) Hcn) as E.
    simpl in E. rewrite Hpc in E. simpl in E. lia.
  - apply (copy_work_alter _ c cn); [done|]. simpl. rewrite Hpc. simpl. lia.
Qed.

(** A goroutine that has not ended can take a step, once [nm.Close] was
    called. *)
Lemma copier_enabled s sv w rf st :
  inv (MkSystem s sv w rf st) -> holds sv = 0 -> 0 < copy_work (conns w) ->
  exists y', internal (MkSystem s sv w rf st) y'.
Proof.
  intros Hi H0 (c & cn & Hcn & Hw)%sum_by_pos.
  pose proof (i_mem _ Hi) as Hm. simpl in Hm.
  assert (swept sv) as Hsw.
  { destruct sv as [[]|]; try done. pose proof (i_empty _ Hi eq_refl) as E. simpl in E. by rewrite E in Hcn. }
  destruct (c_pc cn) eqn:Hpc; [| | | | | |simpl in Hw; lia]; eexists.
  - apply (int_copier_timeout c cn); [done..|].
    apply (ok_swept _ _ _ _ (m_conn _ _ _ Hm c cn Hcn) Hsw). auto.
  - by apply (int_copier_sent c cn).
  - by apply (int_copier_report c cn).
  - by apply (int_copier_del c cn).
  - by eapply (int_copier_close c cn).
  - by apply (int_copier_done c cn).
Qed.

(** Once the service was stopped, each step of [Serve] brings it closer to its
    end, and the other goroutines do not set it back. *)
Lemma serve_progress y y' :
  inv y -> stopped (svc y) = true -> internal y y' ->
  serving y' = serving y \/ serve_work (serving y') < serve_work (serving y).
Proof.
  intros Hi Hstop Hs. destruct Hs as [key l s w rf st Hl Hc| | |pc s w rf st Hpc| | | | | | | | | | |];
    simpl in *; try (by left); try (right; lia).
  - destruct Hc. by apply (i_stopped _ Hi l).
  - right. unfold Serve_read_error. rewrite Hstop. simpl. lia.
  - right. unfold Serve_lookup. destruct (Get key w); simpl; lia.
  - right. destruct Hpc as [(k & ->)|(k & ->)]; simpl; lia.
Qed.

Lemma serve_enabled y :
  stopped (svc y) = true -> holds (serving y) <> 0 ->
  exists y', internal y y' /\ serve_work (serving y') < serve_work (serving y).
Proof.
  destruct y as [s [pc|] w rf st]; [|done]. simpl. intros Hstop Hh.
  destruct pc as [|key|key|c| | |]; [..|done]; eexists.
  - split; [apply int_read_error|]. unfold Serve_read_error. simpl. rewrite Hstop. simpl. lia.
  - split; [apply int_lookup|]. unfold Serve_lookup. simpl. destruct (Get key w); simpl; lia.
  - split; [apply int_drop; eauto|simpl; lia].
  - split; [apply int_drop; eauto|simpl; lia].
  - split; [apply int_close|simpl; lia].
  - split; [apply int_serve_done|simpl; lia].
Qed.

(** ** Properties *)

(** C32: in every reachable state of the UDP service, whatever the interleaving of
    [Serve], the stops, the copying goroutines and the clock: the table maps a
    client to a connection exactly while that connection's goroutine has not
    called [del], so a client has one connection at a time; a goroutine deletes
    and closes no connection but its own; every socket is closed exactly once,
    after it left the table; the NAT counters differ by the connections whose
    goroutine has not reported, and the [WaitGroup] counts [Serve] and the
    goroutines; and when a [GracefulStop] has returned, no goroutine is left,
    every socket is closed, the table is empty and the counters agree. *)
Theorem nat_lifecycle (y : system) :
  rtc step initial y ->
  let w := mem y in
  (forall k c, keyConn w !! k = Some c <->
     exists cn, conns w !! c = Some cn /\ c_key cn = k /\ present (c_pc cn) = true) /\
  (forall c cn o, conns w !! c = Some cn -> c_pc cn = Deleted o -> o = Some c) /\
  (forall c cn, conns w !! c = Some cn ->
     c_closes cn = flag (bool_decide (c_pc cn = Finishing \/ c_pc cn = CopierDone))) /\
  (addedEntries w - removedEntries w = Z.of_nat (entries (conns w)))%Z /\
  running w = Z.of_nat (holds (serving y) + copiers (conns w)) /\
  (forall e, GracefulStopReturned e ∈ stops y ->
     holds (serving y) = 0 /\ keyConn w = ∅ /\ addedEntries w = removedEntries w /\
     (forall l, clientConn (svc y) = Some l -> l ∈ closed (svc y)) /\
     forall cn, cn ∈ conns w -> c_pc cn = CopierDone /\ c_closes cn = 1).
Proof.
  intros Hr w. pose proof (nat_reachable y Hr) as Hi. pose proof (i_mem _ Hi) as Hm.
  split_and!; try apply Hm.
  - intros k c. split; [apply Hm|]. intros (cn & Hcn & <- & Hp).
    by apply (m_conn _ _ _ Hm c cn Hcn).
  - intros c cn o Hcn. apply (m_conn _ _ _ Hm c cn Hcn).
  - intros c cn Hcn. destruct (m_conn _ _ _ Hm c cn Hcn) as [Hp Hd Hcl _].
    case_bool_decide as Hf; simpl; [by apply Hcl|].
    destruct (c_pc cn) eqn:E; [by apply Hp..|by eapply Hd| |]; destruct Hf; auto.
  - intros e He. destruct (i_graceful _ Hi e He) as [Hstop H0].
    pose proof (m_running _ _ _ Hm) as Hrun. rewrite H0 in Hrun.
    assert (forall cn, cn ∈ conns w -> c_pc cn = CopierDone) as Hdone.
    { intros cn (c & Hcn)%list_elem_of_lookup_1.
      pose proof (sum_by_lookup (fun cn => flag (live (c_pc cn))) _ _ _ Hcn) as Hle.
      simpl in Hle. unfold copiers in Hrun. fold w in Hrun.
      destruct (c_pc cn); simpl in Hle; try lia. done. }
    split_and!.
    + lia.
    + apply map_eq. intros k. rewrite lookup_empty.
      destruct (keyConn w !! k) as [c|] eqn:Hk; [|done].
      destruct (m_table _ _ _ Hm k c Hk) as (cn & Hcn & _ & Hp).
      by rewrite (Hdone cn (list_elem_of_lookup_2 _ _ _ Hcn)) in Hp.
    + pose proof (m_entries _ _ _ Hm) as He2. fold w in He2.
      pose proof (sum_by_le (fun cn => flag (counted (c_pc cn)))
        (fun cn => flag (live (c_pc cn))) (conns w)) as Hle.
      unfold entries in He2. unfold copiers in Hrun. fold w in Hrun.
      assert (sum_by (fun cn => flag (counted (c_pc cn))) (conns w) <=
              sum_by (fun cn => flag (live (c_pc cn))) (conns w)); [|lia].
      apply Hle. intros cn. destruct (c_pc cn); simpl; lia.
    + intros l. by apply (i_stopped _ Hi l).
    + intros cn Hcn. split; [by apply Hdone|].
      pose proof Hcn as (c & Hc)%list_elem_of_lookup_1.
      apply (m_conn _ _ _ Hm c cn Hc). right. by apply Hdone.
Qed.

(** C33: stopping the UDP service ends it.  After [Stop], every step keeps it
    stopped and either leaves [Serve] where it is or brings it closer to its
    end; while [Serve] runs it has such a step; when it has returned, every
    connection's pending and future read times out, so that every step of the
    goroutines decreases the work left, some step is possible as long as work
    is left, and when none is left a waiting [GracefulStop] can return. *)
Theorem nat_shutdown (y : system) :
  rtc step initial y -> stopped (svc y) = true ->
  (forall y', internal y y' -> step y y' /\ stopped (svc y') = true /\
     (serving y' = serving y \/ serve_work (serving y') < serve_work (serving y))) /\
  (holds (serving y) <> 0 ->
     exists y', internal y y' /\ serve_work (serving y') < serve_work (serving y)) /\
  (holds (serving y) = 0 ->
     (forall y', internal y y' -> copy_work (conns (mem y')) < copy_work (conns (mem y))) /\
     (0 < copy_work (conns (mem y)) -> exists y', internal y y') /\
     (copy_work (conns (mem y)) = 0 -> forall j e, stops y !! j = Some (Waiting e) ->
        exists y', step y y' /\ stops y' !! j = Some (GracefulStopReturned e))).
Proof.
  intros Hr Hstop. pose proof (nat_reachable y Hr) as Hi. split_and!.
  - intros y' Hs. split_and!; [by constructor| |by apply serve_progress].
    by destruct (internal_frame _ _ Hs) as (-> & _).
  - by apply serve_enabled.
  - intros H0. split_and!.
    + intros y' Hs. by apply copier_progress.
    + destruct y. by apply copier_enabled.
    + intros Hw j e Hj. destruct y as [s sv w rf st]. simpl in *.
      eexists. split; [apply (step_waited j e); [done|]|].
      * pose proof (m_running _ _ _ (i_mem _ Hi)) as Hrun. simpl in Hrun.
        assert (copiers (conns w) <= copy_work (conns w)) as Hle.
        { apply sum_by_le. intros cn. destruct (c_pc cn); simpl; lia. }
        rewrite Hrun, H0. lia.
      * simpl. apply list_lookup_insert_eq. by eapply lookup_lt_Some.
Qed.

(** ** The theorems at a concrete run

    A client sends one packet and is given a connection; a graceful stop comes
    while its packet is being sent on. *)
Section Example.
Context (c : Cipher).

Definition ex_entry : conn := MkConn "a" (new_natconn 300 c "k" "") 0 Copying.

Definition ex_nat_stopping : system :=
  MkSystem (MkService (Some 7) true {[7]}) (Some (Using 0))
    (MkMemory 0 {["a" := 0]} [ex_entry] 1 0 2) [] [Waiting None].

Lemma ex_nat_reach : rtc step initial ex_nat_stopping.
Proof.
  eapply rtc_l; [apply (step_serve 7); [set_solver|done]|].
  eapply rtc_l; [apply step_internal, (int_read "a" 7); [done|set_solver]|].
  eapply rtc_l; [apply step_internal, int_lookup|].
  eapply rtc_l; [apply step_internal, (int_add "a" 300 c "k" "")|].
  eapply rtc_l; [apply step_graceful|]. apply rtc_refl.
Qed.
End Example.

Lemma nat_lifecycle_witness : running (mem (ex_nat_stopping toy_cipher)) = 2%Z.
Proof.
  destruct (nat_lifecycle (ex_nat_stopping toy_cipher) (ex_nat_reach toy_cipher))
    as (_ & _ & _ & _ & E & _). exact E.
Defined.

Lemma nat_shutdown_witness :
  exists y', internal (ex_nat_stopping toy_cipher) y' /\ serve_work (serving y') < 4.
Proof.
  destruct (nat_shutdown (ex_nat_stopping toy_cipher) (ex_nat_reach toy_cipher) eq_refl)
    as (_ & Hp & _). apply Hp. done.
Defined.
