(* ===== verification/Api.v ===== *)
(** * The panel API client

    [api/model.go] and the parts of [api/api.go] that are not I/O: the keys and
    their hash, the merge of the two database queries, the filters of the queues of
    records, the aggregation of a report, and the check of the panel's responses.
    The queue of traffic records over time is in [TrafficQueue.v].  The HTTP
    client, the database driver, gzip and JSON are parameters. *)
From S2P Require Import Prelude GoIO Cipher.

Local Open Scope Z_scope.

(** ** [model.go] *)

Record Key := MkKey {
  kID : string;
  kPort : Z;
  kCipher : string;
  kSecret : string;
}.

#[export] Instance Key_eq_dec : EqDecision Key.
Proof. solve_decision. Defined.

#[export] Instance Key_countable : Countable Key.
Proof.
  apply (inj_countable' (fun k => (kID k, kPort k, kCipher k, kSecret k))
           (fun '(i, p, c, s) => MkKey i p c s)).
  by intros [].
Defined.

(** [fnv.New32a]: the state after the bytes [b]. *)
Definition fnv32a_offset : Z := 2166136261.

Definition fnv32a_write (h : Z) (b : bytes) : Z :=
  foldl (fun h c => uint32 (Z.lxor h (byte_to_Z c) * 16777619)) h b.

Definition Hash (p : Key) : Z :=
  let h := fnv32a_offset in
  let h := fnv32a_write h (string_bytes (kID p)) in
  let h := fnv32a_write h (string_bytes (kSecret p)) in
  h.

Record UserTraffic := MkTraffic { UID : string; tU : Z; tD : Z }.

Record WwwTraffic := MkWww {
  UNID : string;
  Host : string;
  Uip : string;
  Date : Z;
  IsUdp : Z;
  wStatus : Z;
}.

#[export] Instance UserTraffic_eq_dec : EqDecision UserTraffic.
Proof. solve_decision. Defined.

(** ** The users *)

Record Keys := MkKeys { ksPort : Z; ksCipher : string }.
Record Key2 := MkKey2 { Nid : string; WgKey : string; k2Port : Z }.

Definition mergeToUserEntry (keys : Keys) (key2 : Key2) : Key :=
  MkKey (Nid key2) (k2Port key2) (ksCipher keys) (WgKey key2).

(** The rows of a query: [None] for one that [Scan] refuses, and whether an
    error ended them ([Rows.Err]). *)
Record rows (A : Type) := MkRows { scanned : list (option A); rows_err : bool }.
Arguments MkRows {A} _ _.
Arguments scanned {A} _.
Arguments rows_err {A} _.

(** The loop over the users of a group; [None] is [log.Fatal], which ends the
    process.  An error that ended the rows is not looked at. *)
Fixpoint scan_users (key : Keys) (rows2 : list (option Key2)) (data : list Key) : option (list Key) :=
  match rows2 with
  | [] => Some data
  | None :: _ => None
  | Some key2 :: rows2 => scan_users key rows2 (data ++ [mergeToUserEntry key key2])
  end.

(** The loop over the servers of this node. *)
Fixpoint scan_servers (query2 : Z -> option (rows Key2)) (rows1 : list (option (Z * Keys)))
    (data : list Key) : option (list Key) :=
  match rows1 with
  | [] => Some data
  | None :: _ => None
  | Some (groupid, key) :: rows1 =>
    match query2 groupid with
    | None => None
    | Some rows2 =>
      match scan_users key (scanned rows2) data with
      | None => None
      | Some data => scan_servers query2 rows1 data
      end
    end
  end.

(** [GetUsers] of a client with this [NodeID]; a query that fails, like a
    database that cannot be opened, is [None]. *)
Definition GetUsers (NewDatabase : bool) (query1 : Z -> option (rows (Z * Keys)))
    (query2 : Z -> option (rows Key2)) (NodeID : Z) : option (list Key) :=
  if NewDatabase then
    match query1 NodeID with
    | None => None
    | Some rows1 =>
      match scan_servers query2 (scanned rows1) [] with
      | None => None
      | Some data => if rows_err rows1 then None else Some data
      end
    end
  else None.

(** ** The queues of records *)

Definition AddRepo (utice : UserTraffic) (repoList : list UserTraffic) : list UserTraffic :=
  if negb (bool_decide (UID utice = ""%string)) &&
     (negb (bool_decide (tD utice = 0)) || negb (bool_decide (tU utice = 0)))
  then repoList ++ [utice] else repoList.

Definition AddWwwRepo (traffic : WwwTraffic) (repoList : list WwwTraffic) : list WwwTraffic :=
  if negb (bool_decide (UNID traffic = ""%string)) && negb (bool_decide (Host traffic = ""%string))
  then repoList ++ [traffic] else repoList.

(** ** The aggregation of a report *)

(** One iteration of the first loop of [ReportUserTraffic]. *)
Definition aggregate_step (hdata : gmap string UserTraffic) (traffic : UserTraffic) :
    gmap string UserTraffic :=
  match hdata !! UID traffic with
  | None => <[UID traffic := MkTraffic (UID traffic) (tU traffic) (tD traffic)]> hdata
  | Some o =>
    let d := if negb (bool_decide (tD traffic = 0)) then int64 (tD o + tD traffic) else tD o in
    let u := if negb (bool_decide (tU traffic = 0)) then int64 (tU o + tU traffic) else tU o in
    <[UID traffic := MkTraffic (UID o) u d]> hdata
  end.

Definition aggregate (userTraffic : list UserTraffic) : gmap string UserTraffic :=
  foldl aggregate_step ∅ userTraffic.

(** The second loop lists the values of the map, in any order. *)
Definition report_data (userTraffic : list UserTraffic) : list UserTraffic :=
  (map_to_list (aggregate userTraffic)).*2.

(** ** Responses *)

(** gzip and JSON; [gunzip] is [None] when [gzip.NewReader] fails, otherwise
    what [WriteTo] produced before its error. *)
Class PanelOps := {
  gunzip : bytes -> option bytes;
  Json : Type;
  NewJson : bytes -> option Json;
}.

Section Panel.
Context `{PanelOps}.

(** [utils.GenDecode] ignores the error of [NewReader] and uses the nil reader
    it then gets. *)
Definition GenDecode (byt : bytes) : outcome bytes :=
  match gunzip byt with
  | Some b => Ret b
  | None => Panic "nil pointer dereference"
  end.

(** A response is a status code and a body, or the error of the call. *)
Definition parseResponse (url : string) (res : (Z * bytes) + error) : outcome Json :=
  match res with
  | inr _ => Err (Errorf ("request " +:+ url +:+ " failed"))
  | inl (statusCode, body) =>
    if bool_decide (400 < statusCode) then Err (Errorf ("request " +:+ url +:+ " failed"))
    else
      b ← GenDecode body;
      match NewJson b with
      | None => Err (Errorf "ret invalid")
      | Some rtn => Ret rtn
      end
  end.

(** [ReportUserTraffic]: what is sent, and the result of the call; [post] is the
    request with its response. *)
Definition ReportUserTraffic (url : string) (post : list UserTraffic -> (Z * bytes) + error)
    (userTraffic : list UserTraffic) : list UserTraffic * outcome unit :=
  let data := report_data userTraffic in
  (data, _ ← parseResponse url (post data); Ret tt).

End Panel.

(** The queue of traffic records and the time of the last report; what happens
    to it over time is in [TrafficQueue.v]. *)
Record RepoTask := MkRepoTask {
  StartTime : Z;
  RepoList : list UserTraffic;
}.

(** ** Lemmas *)

(** The sum of a count over the records of a user. *)
Definition total (f : UserTraffic -> Z) (uid : string) (l : list UserTraffic) : Z :=
  foldr (fun t n => (if decide (UID t = uid) then f t else 0) + n) 0 l.

Lemma total_app f uid l l' : total f uid (l ++ l') = total f uid l + total f uid l'.
Proof. unfold total. induction l as [|t l IH]; simpl; [done|]. rewrite IH. lia. Qed.

Lemma total_perm f uid l l' : l ≡ₚ l' -> total f uid l = total f uid l'.
Proof. unfold total. induction 1; simpl; lia. Qed.

Lemma total_absent f uid l : uid ∉ UID <$> l -> total f uid l = 0.
Proof.
  unfold total. induction l as [|t l IH]; simpl; intros Hn; [done|].
  rewrite decide_False by set_solver. rewrite IH by set_solver. done.
Qed.

Definition in_range (t : UserTraffic) : Prop :=
  -2 ^ 63 <= tU t < 2 ^ 63 /\ -2 ^ 63 <= tD t < 2 ^ 63.

(** When nothing fails: every user of the group of every server of the node, on
    the user's port and with the server's cipher. *)
Lemma scan_users_all key l data :
  scan_users key (Some <$> l) data = Some (data ++ (mergeToUserEntry key <$> l)).
Proof.
  revert data. induction l as [|k l IH]; intros data; simpl; [by rewrite app_nil_r|].
  by rewrite IH, <- app_assoc.
Qed.

Lemma GetUsers_all (servers : list (Z * Keys)) (users : Z -> list Key2) (node : Z) q1 q2 :
  q1 node = Some (MkRows (Some <$> servers) false) ->
  (forall g, g ∈ servers.*1 -> exists e, q2 g = Some (MkRows (Some <$> users g) e)) ->
  GetUsers true q1 q2 node =
  Some (servers ≫= fun '(g, key) => mergeToUserEntry key <$> users g).
Proof.
  intros E1 E2. unfold GetUsers. rewrite E1. simpl.
  assert (forall data, scan_servers q2 (Some <$> servers) data =
    Some (data ++ (servers ≫= fun '(g, key) => mergeToUserEntry key <$> users g))) as ->; [|done].
  clear E1. induction servers as [|[g key] servers IH]; intros data; simpl; [by rewrite app_nil_r|].
  destruct (E2 g) as [e ->]; [left|]. simpl. rewrite scan_users_all, IH, app_assoc; [done|].
  intros g' Hg. apply E2. by right.
Qed.

(** Rows cut short by an error are taken for all the rows: the users after the
    cut are missing from the list. *)
Lemma GetUsers_cut (key : Keys) (seen : list Key2) (node g : Z) q1 q2 :
  q1 node = Some (MkRows [Some (g, key)] false) ->
  q2 g = Some (MkRows (Some <$> seen) true) ->
  GetUsers true q1 q2 node = Some (mergeToUserEntry key <$> seen).
Proof.
  intros E1 E2. unfold GetUsers. rewrite E1. simpl. rewrite E2. simpl. by rewrite scan_users_all.
Qed.

(** What the first loop holds for a user. *)
Lemma aggregate_lookup l uid :
  Forall in_range l ->
  aggregate l !! uid =
  if decide (uid ∈ UID <$> l)
  then Some (MkTraffic uid (int64 (total tU uid l)) (int64 (total tD uid l))) else None.
Proof.
  unfold aggregate. induction l as [|t l IH] using rev_ind; intros Hr; [done|].
  apply Forall_app in Hr as [Hr [[HU HD] _]%Forall_cons]. specialize (IH Hr).
  rewrite foldl_app. simpl. unfold aggregate_step at 1.
  rewrite fmap_app, !total_app. unfold total at 2 4. simpl.
  set (h := foldl aggregate_step ∅ l) in *.
  destruct (decide (UID t = uid)) as [<-|Hne].
  - rewrite decide_True by set_solver. rewrite !Z.add_0_r. rewrite IH.
    destruct (decide (UID t ∈ UID <$> l)) as [Hin|Hout]; rewrite lookup_insert_eq; simpl.
    + f_equal. f_equal; case_bool_decide as E; simpl; rewrite ?E, ?Z.add_0_r;
        by rewrite ?int64_add_l.
    + rewrite !total_absent by done. by rewrite !Z.add_0_l, !int64_id.
  - assert (forall x, <[UID t := x]> h !! uid = h !! uid) as E
      by (intros; by apply lookup_insert_ne).
    rewrite !Z.add_0_r.
    replace (match h !! UID t with Some o => _ | None => _ end !! uid) with (h !! uid)
      by (destruct (h !! UID t); by rewrite E).
    rewrite IH. destruct (decide (uid ∈ UID <$> l)), (decide (uid ∈ (UID <$> l) ++ [UID t]));
      try done; set_solver.
Qed.

Lemma report_data_elem l t :
  Forall in_range l ->
  t ∈ report_data l <->
  UID t ∈ UID <$> l /\ tU t = int64 (total tU (UID t) l) /\ tD t = int64 (total tD (UID t) l).
Proof.
  intros Hr. unfold report_data. rewrite list_elem_of_fmap. split.
  - intros ((uid & t') & -> & Hin%elem_of_map_to_list). simpl.
    rewrite aggregate_lookup in Hin by done.
    destruct (decide (uid ∈ UID <$> l)); [|done]. injection Hin as <-. done.
  - intros (Hin & HU & HD). exists (UID t, t). split; [done|].
    apply elem_of_map_to_list. rewrite aggregate_lookup, decide_True by done.
    rewrite <- HU, <- HD. by destruct t.
Qed.

Lemma report_data_NoDup l : Forall in_range l -> NoDup (UID <$> report_data l).
Proof.
  intros Hr. unfold report_data.
  replace (UID <$> (map_to_list (aggregate l)).*2) with (map_to_list (aggregate l)).*1;
    [apply NoDup_fst_map_to_list|].
  rewrite <- list_fmap_compose. apply list_fmap_ext. intros i (uid & t) Hi. simpl.
  assert ((uid, t) ∈ map_to_list (aggregate l)) as Hin%elem_of_map_to_list
    by (by eapply list_elem_of_lookup_2).
  rewrite aggregate_lookup in Hin by done.
  destruct (decide (uid ∈ UID <$> l)); [|done]. by injection Hin as <-.
Qed.

Lemma total_unique f l t : NoDup (UID <$> l) -> t ∈ l -> total f (UID t) l = f t.
Proof.
  intros Hnd Hin. apply list_elem_of_split in Hin as (l1 & l2 & ->).
  rewrite fmap_app, fmap_cons in Hnd. apply NoDup_app in Hnd as (_ & Hd & Hnd).
  apply NoDup_cons in Hnd as [Hn _].
  rewrite total_app, (total_absent f _ l1) by (intros Hin; apply (Hd _ Hin); left).
  unfold total at 1. simpl. rewrite decide_True by done.
  pose proof (total_absent f _ l2 Hn) as E. unfold total in E. lia.
Qed.

(** A report states every total of its records, in [int64] arithmetic. *)
Lemma total_report l data uid :
  Forall in_range l -> data ≡ₚ report_data l ->
  (exists q, total tU uid data = total tU uid l + 2 ^ 64 * q) /\
  (exists q, total tD uid data = total tD uid l + 2 ^ 64 * q).
Proof.
  intros Hr Hd. rewrite !(total_perm _ uid _ _ Hd). clear data Hd.
  destruct (decide (uid ∈ UID <$> l)) as [Hin|Hout].
  - set (t := MkTraffic uid (int64 (total tU uid l)) (int64 (total tD uid l))).
    assert (t ∈ report_data l) as Ht by (by apply report_data_elem).
    pose proof (total_unique tU _ t (report_data_NoDup l Hr) Ht) as EU.
    pose proof (total_unique tD _ t (report_data_NoDup l Hr) Ht) as ED.
    simpl in EU, ED. rewrite EU, ED. split; apply int64_congr.
  - assert (uid ∉ UID <$> report_data l) as Hn.
    { intros (t & -> & Ht)%list_elem_of_fmap. by apply report_data_elem in Ht as [? _]. }
    rewrite !(total_absent _ _ _ Hn), !(total_absent _ _ _ Hout).
    split; exists 0; lia.
Qed.

(** ** Properties *)

(** A traffic report has one record for each user with a record in the queue
    and no other, in whatever order the map is listed, and the record states
    the user's upstream and downstream totals in [int64] arithmetic. *)
Theorem traffic_report (l data : list UserTraffic) :
  Forall in_range l -> data ≡ₚ report_data l ->
  NoDup (UID <$> data) /\
  forall t, t ∈ data <->
    UID t ∈ UID <$> l /\ tU t = int64 (total tU (UID t) l) /\ tD t = int64 (total tD (UID t) l).
Proof.
  intros Hr Hd. split; [rewrite Hd; by apply report_data_NoDup|].
  intros t. rewrite Hd. by apply report_data_elem.
Qed.

(** ** Examples *)

Definition ex_traffic : list UserTraffic :=
  [MkTraffic "alice" 10 0; MkTraffic "bob" 1 2; MkTraffic "alice" 5 7].

Lemma ex_traffic_in_range : Forall in_range ex_traffic.
Proof. repeat constructor; simpl; lia. Qed.

Lemma traffic_report_witness : MkTraffic "alice" 15 7 ∈ report_data ex_traffic.
Proof.
  apply (traffic_report ex_traffic (report_data ex_traffic) ex_traffic_in_range).
  - done.
  - split_and!; [simpl; left|reflexivity|reflexivity].
Defined.

Example Hash_empty : Hash (MkKey "" 9000 "aes-128-gcm" "") = fnv32a_offset.
Proof. reflexivity. Qed.

Example Hash_a : Hash (MkKey "a" 9000 "aes-128-gcm" "") = 0xE40C292C.
Proof. reflexivity. Qed.
