(* ===== verification/TrafficQueue.v ===== *)
(** * The queue of traffic records

    [AddRepo] of [api/api.go] and [CheckRepo] of [cmd/quick_ss/main.go] share
    the queue without a lock.  [AddRepo] reads the slice, appends to it, which
    writes into the array behind the slice or into a new one, and stores the new
    slice; [CheckRepo] reads the slice, reports its records one after the other,
    and stores an empty one.  Each of these accesses is a step here, over the
    arrays as the memory they share; a record is written and read in one piece,
    which Go does not promise where the accesses race. *)
From S2P Require Import Prelude Cipher Api.

(** ** Slices

    A record carries the number of the call of [AddRepo] it came from, which no
    definition looks at. *)
Definition cell : Type := nat * UserTraffic.

(** The cells of an array that were written, and its capacity. *)
Record array := MkArray { cells : list cell; capacity : nat }.

Record goslice := MkSlice { s_array : nat; s_len : nat }.

Definition array_at (h : list array) (i : nat) : array := default (MkArray [] 0) (h !! i).

Definition contents (h : list array) (s : goslice) : list cell :=
  take (s_len s) (cells (array_at h (s_array s))).

Definition set_cell (n : nat) (x : cell) (l : list cell) : list cell :=
  if decide (n < length l) then <[n := x]> l else l ++ [x].

(** [append(s, x)]: in place while there is room behind the slice, whoever else
    uses that room; otherwise into a new array, of the capacity [grown]. *)
Definition append (s : goslice) (x : cell) (grown : nat) (h : list array) : goslice * list array :=
  let a := array_at h (s_array s) in
  if decide (s_len s < capacity a) then
    (MkSlice (s_array s) (S (s_len s)),
     <[s_array s := MkArray (set_cell (s_len s) x (cells a)) (capacity a)]> h)
  else
    (MkSlice (length h) (S (s_len s)), h ++ [MkArray (contents h s ++ [x]) grown]).

(** [&\[\]UserTraffic{}] *)
Definition empty_slice (h : list array) : goslice * list array :=
  (MkSlice (length h) 0, h ++ [MkArray [] 0]).

(** ** The system *)

(** A call of [AddRepo]: it read the slice, it appended, or it stored the
    result and ended. *)
Inductive adder :=
| Loaded (s : goslice)
| Appended (s : goslice)
| Added (s : goslice).

(** [CheckRepo]: it waits for a tick, it decided to report, it reads the slice
    it was given, or the report was sent, from the first records. *)
Inductive reporter :=
| Waiting
| Due (now : Z)
| Reading (now : Z) (s : goslice) (got : list cell)
| Sent (now : Z) (n : nat).

(** The arrays, the current slice, [StartTime], the calls of [AddRepo] in the
    order they read the slice, and [CheckRepo]; as history, the records and the
    data of every report, what was in the queue beyond the report when it was
    replaced, and whether an addition ever overlapped another or the
    replacement. *)
Record collector := MkCollector {
  memory : list array;
  queue : goslice;
  started : Z;
  adders : list (UserTraffic * adder);
  check : reporter;
  reports : list (list cell * list UserTraffic);
  discarded : list cell;
  overlapped : bool;
}.

(** The records [AddRepo] takes. *)
Definition accepts (utice : UserTraffic) : bool :=
  negb (bool_decide (UID utice = ""%string)) &&
  (negb (bool_decide (tD utice = 0%Z)) || negb (bool_decide (tU utice = 0%Z))).

(** [ticker.C] fired at [now] (seconds): whether a report is due. *)
Definition CheckRepo_due (now : Z) (n : nat) (startTime : Z) : bool :=
  if decide (n = 0) then false else bool_decide (9 < now - startTime)%Z.

Definition ended (a : adder) : bool := match a with Added _ => true | _ => false end.

Definition busy (as_ : list (UserTraffic * adder)) : bool :=
  existsb (fun x => negb (ended (snd x))) as_.

Inductive collect : collector -> collector -> Prop :=
| add_load t h q st as_ rp rs d o :
    accepts t = true ->
    collect (MkCollector h q st as_ rp rs d o)
      (MkCollector h q st (as_ ++ [(t, Loaded q)]) rp rs d (o || busy as_))
| add_append k t s grown s' h' h q st as_ rp rs d o :
    as_ !! k = Some (t, Loaded s) -> s_len s < grown -> append s (k, t) grown h = (s', h') ->
    collect (MkCollector h q st as_ rp rs d o)
      (MkCollector h' q st (<[k := (t, Appended s')]> as_) rp rs d o)
| add_store k t s h q st as_ rp rs d o :
    as_ !! k = Some (t, Appended s) ->
    collect (MkCollector h q st as_ rp rs d o)
      (MkCollector h s st (<[k := (t, Added s)]> as_) rp rs d o)
| repo_due now h q st as_ rs d o :
    CheckRepo_due now (s_len q) st = true ->
    collect (MkCollector h q st as_ Waiting rs d o) (MkCollector h q st as_ (Due now) rs d o)
| repo_start now h q st as_ rs d o :
    collect (MkCollector h q st as_ (Due now) rs d o)
      (MkCollector h q st as_ (Reading now q []) rs d o)
| repo_read now s got x h q st as_ rs d o :
    contents h s !! length got = Some x ->
    collect (MkCollector h q st as_ (Reading now s got) rs d o)
      (MkCollector h q st as_ (Reading now s (got ++ [x])) rs d o)
| repo_send now s got data h q st as_ rs d o :
    length got = s_len s -> data ≡ₚ report_data got.*2 ->
    collect (MkCollector h q st as_ (Reading now s got) rs d o)
      (MkCollector h q st as_ (Sent now (s_len s)) (rs ++ [(got, data)]) d o)
| repo_reset now n q' h' h q st as_ rs d o :
    empty_slice h = (q', h') ->
    collect (MkCollector h q st as_ (Sent now n) rs d o)
      (MkCollector h' q' now as_ Waiting rs (d ++ drop n (contents h q)) (o || busy as_)).

Definition collector_initial (t : Z) : collector :=
  MkCollector [MkArray [] 0] (MkSlice 0 0) t [] Waiting [] [] false.

(** ** Lemmas: slices *)

(** The cells a slice covers were written. *)
Definition valid (h : list array) (s : goslice) : Prop :=
  s_array s < length h /\ s_len s <= length (cells (array_at h (s_array s))).

Lemma length_contents h s : valid h s -> length (contents h s) = s_len s.
Proof. intros [_ Hl]. unfold contents. rewrite length_take. lia. Qed.

Lemma set_cell_take n x l : n <= length l -> take (S n) (set_cell n x l) = take n l ++ [x].
Proof.
  intros Hn. unfold set_cell. case_decide as Hl.
  - rewrite insert_take_drop by done. rewrite take_app_ge by (rewrite length_take; lia).
    rewrite length_take. replace (S n - n `min` length l) with 1 by lia. done.
  - rewrite take_ge by (rewrite length_app; simpl; lia). by rewrite (take_ge l) by lia.
Qed.

Lemma set_cell_take_below n m x l : m <= n -> n <= length l -> take m (set_cell n x l) = take m l.
Proof.
  intros Hm Hn. unfold set_cell. case_decide; [by apply take_insert_ge|].
  by apply take_app_le; lia.
Qed.

Lemma length_set_cell n x l : length l <= length (set_cell n x l).
Proof. unfold set_cell. case_decide; rewrite ?length_insert, ?length_app; lia. Qed.

Lemma array_at_app h a i : i < length h -> array_at (h ++ [a]) i = array_at h i.
Proof. intros Hi. unfold array_at. by rewrite lookup_app_l. Qed.

Lemma array_at_new h a : array_at (h ++ [a]) (length h) = a.
Proof. unfold array_at. by rewrite lookup_app_r, Nat.sub_diag by lia. Qed.

(** A slice after an append of another: unless it reaches beyond that one in the
    same array, it holds what it held. *)
Lemma append_spec s x grown h s' h' : valid h s -> append s x grown h = (s', h') ->
  valid h' s' /\ s_len s' = S (s_len s) /\ contents h' s' = contents h s ++ [x] /\
  forall r, valid h r -> valid h' r /\
    ((s_array r = s_array s -> s_len r <= s_len s) -> contents h' r = contents h r).
Proof.
  intros [Ha Hl]. unfold append. case_decide as Hc; intros [= <- <-].
  - assert (array_at (<[s_array s := MkArray (set_cell (s_len s) x (cells (array_at h (s_array s))))
      (capacity (array_at h (s_array s)))]> h) (s_array s) =
      MkArray (set_cell (s_len s) x (cells (array_at h (s_array s))))
        (capacity (array_at h (s_array s))))
      as Hself by (unfold array_at at 1; by rewrite list_lookup_insert_eq).
    assert (forall i, i <> s_array s -> array_at (<[s_array s := MkArray (set_cell (s_len s) x
      (cells (array_at h (s_array s)))) (capacity (array_at h (s_array s)))]> h) i = array_at h i)
      as Hother by (intros i Hi; unfold array_at at 1; by rewrite list_lookup_insert_ne).
    unfold valid, contents. cbn [s_array s_len]. rewrite !Hself, length_insert. cbn [cells].
    split_and!; [done| |done|by apply set_cell_take|].
    + unfold set_cell. case_decide; rewrite ?length_insert, ?length_app; simpl; lia.
    + intros r [Hr Hrl]. destruct (decide (s_array r = s_array s)) as [E|E].
      * rewrite E, Hself in *. cbn [cells]. pose proof (length_set_cell (s_len s) x
          (cells (array_at h (s_array s)))). split; [lia|].
        intros Hle. apply set_cell_take_below; auto.
      * rewrite Hother by done. by split.
  - unfold valid. cbn [s_array s_len]. rewrite array_at_new, length_app. cbn [cells length].
    assert (length (contents h s) = s_len s) as Hlc by (by apply length_contents).
    split_and!; [lia|rewrite length_app; simpl; lia|done| |].
    + unfold contents at 1. cbn [s_array s_len]. rewrite array_at_new. cbn [cells].
      apply take_ge. rewrite length_app. simpl. lia.
    + intros r [Hr Hrl]. unfold contents. rewrite array_at_app by done.
      split; [split; [lia|done]|done].
Qed.

Lemma empty_slice_spec h q h' : empty_slice h = (q, h') ->
  valid h' q /\ s_len q = 0 /\ forall r, valid h r -> valid h' r /\ contents h' r = contents h r.
Proof.
  intros [= <- <-]. unfold valid. cbn [s_array s_len]. rewrite length_app. cbn [length].
  split_and!; [lia|lia|done|]. intros r [Hr Hl]. unfold contents.
  rewrite array_at_app by done. split; [split; [lia|done]|done].
Qed.

Lemma accepts_spec t : accepts t = true <-> UID t <> ""%string /\ (tD t <> 0%Z \/ tU t <> 0%Z).
Proof.
  unfold accepts. rewrite andb_true_iff, orb_true_iff, !negb_true_iff, !bool_decide_eq_false. done.
Qed.

(** [AddRepo] alone, from its read to its store. *)
Lemma AddRepo_alone t k grown h q s' h' :
  accepts t = true -> valid h q -> append q (k, t) grown h = (s', h') ->
  (contents h' s').*2 = AddRepo t (contents h q).*2.
Proof.
  intros Ha Hq E. destruct (append_spec _ _ _ _ _ _ Hq E) as (_ & _ & -> & _).
  unfold AddRepo. fold (accepts t). by rewrite Ha, fmap_app.
Qed.

Lemma set_cell_lookup n x l p y : n <= length l -> set_cell n x l !! p = Some y ->
  l !! p = Some y \/ (y = x /\ p = n).
Proof.
  intros Hn. unfold set_cell. case_decide.
  - rewrite list_lookup_insert_Some. intros [(-> & -> & _)|[_ ?]]; auto.
  - intros [Hy|[Hp Hy]]%lookup_app_Some; [by left|right].
    apply list_lookup_singleton_Some in Hy as [E ->]. split; [done|lia].
Qed.

(** What [append] leaves in the arrays: what was there, and the record at the end
    of the slice. *)
Lemma append_cells s x grown h s' h' i p y : valid h s -> append s x grown h = (s', h') ->
  cells (array_at h' i) !! p = Some y ->
  (exists i', cells (array_at h i') !! p = Some y) \/ (y = x /\ p = s_len s).
Proof.
  intros [Ha Hl]. unfold append. case_decide as Hc; intros [= <- <-].
  - unfold array_at at 1. destruct (decide (i = s_array s)) as [->|Hi].
    + rewrite list_lookup_insert_eq by done. cbn [from_option id cells].
      intros [?|?]%set_cell_lookup; eauto.
    + rewrite list_lookup_insert_ne by done. eauto.
  - destruct (decide (i < length h)) as [Hi|Hi]; [rewrite array_at_app by done; eauto|].
    destruct (decide (i = length h)) as [->|Hn].
    + rewrite array_at_new. cbn [cells]. intros [Hy|[Hp Hy]]%lookup_app_Some.
      * left. exists (s_array s). unfold contents in Hy. by apply lookup_take_Some in Hy as [? _].
      * right. apply list_lookup_singleton_Some in Hy as [E ->]. split; [done|].
        rewrite length_contents in E, Hp by done. lia.
    + unfold array_at at 1. rewrite (lookup_ge_None_2 (h ++ _)); [done|].
      rewrite length_app. simpl. lia.
Qed.

Lemma contents_cells h s p x : contents h s !! p = Some x ->
  cells (array_at h (s_array s)) !! p = Some x /\ p < s_len s.
Proof. apply lookup_take_Some. Qed.

(** ** Lemmas: every interleaving *)

Definition slice_read (a : adder) : goslice :=
  match a with Loaded s => s | Appended s => s | Added s => s end.

(** The slice an addition made. *)
Definition slice_made (a : adder) : option goslice :=
  match a with Loaded _ => None | Appended s => Some s | Added s => Some s end.

(** The record of a call of [AddRepo] stands at the end of the slice it made. *)
Definition placed (as_ : list (UserTraffic * adder)) (p : nat) (x : cell) : Prop :=
  exists a s, as_ !! x.1 = Some (x.2, a) /\ slice_made a = Some s /\ s_len s = S p.

Definition all_placed (as_ : list (UserTraffic * adder)) (l : list cell) : Prop :=
  forall p x, l !! p = Some x -> placed as_ p x.

Lemma all_placed_NoDup as_ l : all_placed as_ l -> NoDup l.*1.
Proof.
  intros Hp. apply NoDup_alt. intros i j k Hi Hj.
  rewrite list_lookup_fmap in Hi, Hj.
  apply fmap_Some in Hi as ([k1 t1] & E1 & ->), Hj as ([k2 t2] & E2 & Ek). simpl in Ek. subst k2.
  destruct (Hp _ _ E1) as (a1 & s1 & H1 & M1 & L1), (Hp _ _ E2) as (a2 & s2 & H2 & M2 & L2).
  simpl in *. simplify_eq. lia.
Qed.

(** The calls of [AddRepo] keep the slices they made. *)
Definition later (as_ as' : list (UserTraffic * adder)) : Prop :=
  forall k t a s, as_ !! k = Some (t, a) -> slice_made a = Some s ->
  exists a', as' !! k = Some (t, a') /\ slice_made a' = Some s.

Lemma later_placed as_ as' l : later as_ as' -> all_placed as_ l -> all_placed as' l.
Proof.
  intros Hl Hp p x Hx. destruct (Hp p x Hx) as (a & s & Ha & Hm & Hs).
  destruct (Hl _ _ _ _ Ha Hm) as (a' & Ha' & Hm'). by exists a', s.
Qed.

Lemma later_app as_ x : later as_ (as_ ++ [x]).
Proof. intros k t a s Hk Hm. exists a. by rewrite (lookup_app_l_Some _ _ _ _ Hk). Qed.

Lemma later_insert as_ k t a a' : as_ !! k = Some (t, a) ->
  (forall s, slice_made a = Some s -> slice_made a' = Some s) -> later as_ (<[k := (t, a')]> as_).
Proof.
  intros Hk Hm k' t' b s Hk' Hb. destruct (decide (k' = k)) as [->|Hne].
  - exists a'. rewrite list_lookup_insert_eq by (by eapply lookup_lt_Some). simplify_eq. eauto.
  - exists b. by rewrite list_lookup_insert_ne.
Qed.

Definition reading_placed (h : list array) (q : goslice) (as_ : list (UserTraffic * adder))
    (rp : reporter) : Prop :=
  match rp with
  | Due _ => 0 < s_len q
  | Reading _ s got => 0 < s_len s /\ valid h s /\ all_placed as_ got
  | _ => True
  end.

(** A call of [AddRepo]: its record is one it takes, its slice is one of the
    arrays, and the slice it made is not empty. *)
Definition adder_inv (h : list array) (x : UserTraffic * adder) : Prop :=
  accepts x.1 = true /\ valid h (slice_read x.2) /\
  forall s, slice_made x.2 = Some s -> 0 < s_len s.

Definition report_inv (as_ : list (UserTraffic * adder)) (r : list cell * list UserTraffic) :
    Prop :=
  r.1 <> [] /\ all_placed as_ r.1 /\ r.2 ≡ₚ report_data r.1.*2.

(** [AddRepo] calls, reader and reports never hold anything but records in the
    places where they were put. *)
Record traffic_inv (y : collector) : Prop := {
  ti_cells i : all_placed (adders y) (cells (array_at (memory y) i));
  ti_queue : valid (memory y) (queue y);
  ti_adders x : x ∈ adders y -> adder_inv (memory y) x;
  ti_check : reading_placed (memory y) (queue y) (adders y) (check y);
  ti_reports : Forall (report_inv (adders y)) (reports y);
}.

Lemma reading_later h h' q q' as_ as' rp : (forall s, valid h s -> valid h' s) ->
  (0 < s_len q -> 0 < s_len q') -> later as_ as' ->
  reading_placed h q as_ rp -> reading_placed h' q' as' rp.
Proof. intros Hv Hq Hl. destruct rp; simpl; auto. intros (? & ? & ?). eauto using later_placed. Qed.

Lemma reading_valid h q as_ rp : reading_placed h q as_ rp ->
  match rp with Reading _ s _ => valid h s | _ => True end.
Proof. destruct rp; simpl; tauto. Qed.

Lemma reports_later as_ as' (rs : list (list cell * list UserTraffic)) : later as_ as' ->
  Forall (report_inv as_) rs -> Forall (report_inv as') rs.
Proof.
  intros Hl Hr. eapply Forall_impl; [exact Hr|]. intros r (? & ? & ?).
  split_and!; eauto using later_placed.
Qed.

Lemma lookup_adder (as_ : list (UserTraffic * adder)) k x : as_ !! k = Some x -> x ∈ as_.
Proof. apply list_elem_of_lookup_2. Qed.

Lemma append_inv k t s grown s' h' h q st as_ rp rs d o :
  as_ !! k = Some (t, Loaded s) -> append s (k, t) grown h = (s', h') ->
  traffic_inv (MkCollector h q st as_ rp rs d o) ->
  traffic_inv (MkCollector h' q st (<[k := (t, Appended s')]> as_) rp rs d o).
Proof.
  intros Hk Ha [Hc Hq Has Hch Hrs]. cbn [memory queue adders check reports] in *.
  destruct (Has _ (lookup_adder _ _ _ Hk)) as (Hac & Hs & _). simpl in Hac, Hs.
  destruct (append_spec _ _ _ _ _ _ Hs Ha) as (Hs' & Hlen & _ & Hv).
  assert (later as_ (<[k := (t, Appended s')]> as_)) as Hl by (by eapply later_insert).
  split; cbn [memory queue adders check reports].
  - intros i p y Hy. destruct (append_cells _ _ _ _ _ _ _ _ _ Hs Ha Hy) as [[i' Hi]|[-> ->]].
    + by apply (later_placed _ _ _ Hl (Hc i')).
    + exists (Appended s'), s'. simpl. split; [|done].
      apply list_lookup_insert_eq. by eapply lookup_lt_Some.
  - by apply Hv.
  - intros x Hx. apply list_elem_of_lookup in Hx as [j Hj].
    apply list_lookup_insert_Some in Hj as [(-> & <- & _)|[_ Hj]].
    + split_and!; [done|done|]. simpl. intros ? [= <-]. lia.
    + destruct (Has _ (lookup_adder _ _ _ Hj)) as (? & ? & ?). split_and!; [done|by apply Hv|done].
  - eapply reading_later; [|done|done|done]. intros r Hr. by apply Hv.
  - by eapply reports_later.
Qed.

Lemma store_inv k t s h q st as_ rp rs d o : as_ !! k = Some (t, Appended s) ->
  traffic_inv (MkCollector h q st as_ rp rs d o) ->
  traffic_inv (MkCollector h s st (<[k := (t, Added s)]> as_) rp rs d o).
Proof.
  intros Hk [Hc Hq Has Hch Hrs]. cbn [memory queue adders check reports] in *.
  assert (later as_ (<[k := (t, Added s)]> as_)) as Hl by (by eapply later_insert).
  pose proof (Has _ (lookup_adder _ _ _ Hk)) as Hs. destruct Hs as (_ & Hs & Hpos). simpl in Hs.
  specialize (Hpos s eq_refl).
  split; cbn [memory queue adders check reports]; [|done| | |].
  - intros i. by eapply later_placed.
  - intros x Hx. apply list_elem_of_lookup in Hx as [j Hj].
    apply list_lookup_insert_Some in Hj as [(-> & <- & _)|[_ Hj]].
    + by apply (Has _ (lookup_adder _ _ _ Hk)).
    + apply Has. by eapply lookup_adder.
  - by eapply reading_later.
  - by eapply reports_later.
Qed.

Lemma collect_inv y y' : traffic_inv y -> collect y y' -> traffic_inv y'.
Proof.
  intros Hi Hc. destruct Hc; eauto using append_inv, store_inv;
    destruct Hi as [Hc Hq Has Hch Hrs]; cbn [memory queue adders check reports] in *.
  - split; cbn [memory queue adders check reports]; [|done| | |].
    + intros i. eapply later_placed; [apply later_app|done].
    + intros x [Hx| ->%list_elem_of_singleton]%elem_of_app; [by apply Has|by split_and!].
    + eapply reading_later; [done|done|apply later_app|done].
    + eapply reports_later; [apply later_app|done].
  - split; try done. unfold CheckRepo_due in H. simpl. case_decide; [done|lia].
  - by split.
  - destruct Hch as (Hpos & Hs & Hg). split; try done. split_and!; [done|done|].
    intros p y Hy. apply lookup_app_Some in Hy as [Hy|[Hp Hy]]; [by apply Hg|].
    apply list_lookup_singleton_Some in Hy as [E <-].
    apply (Hc (s_array s)). assert (p = length got) as -> by lia. by apply contents_cells.
  - destruct Hch as (Hpos & Hs & Hg). split; try done. apply Forall_app. split; [done|].
    constructor; [|done]. split_and!; [|done|done]. simpl. intros ->. simpl in *. lia.
  - destruct (empty_slice_spec _ _ _ H) as (Hq' & _ & Hv). injection H as <- <-.
    split; cbn [memory queue adders check reports]; [|done| |done|done].
    + intros i. destruct (decide (i < length h)) as [Hi|Hi].
      { rewrite array_at_app by done. apply Hc. }
      intros p x. destruct (decide (i = length h)) as [->|Hn]; [by rewrite array_at_new|].
      unfold array_at. rewrite (lookup_ge_None_2 (h ++ _)); [done|]. rewrite length_app. simpl. lia.
    + intros x Hx. destruct (Has _ Hx) as (? & ? & ?). split_and!; [done|by apply Hv|done].
Qed.

Lemma collector_inv t0 y : rtc collect (collector_initial t0) y -> traffic_inv y.
Proof.
  intros Hr. assert (traffic_inv (collector_initial t0)) as Hi.
  { split; cbn; [|split; cbn; lia|by intros x Hx%elem_of_nil|done|done].
    intros i p x. unfold array_at. by destruct i as [|i]. }
  induction Hr as [|y1 y2 y3 Hc _ IH]; [done|]. by apply IH, (collect_inv y1).
Qed.

(** ** Lemmas: additions that do not overlap *)

(** The records of the calls of [AddRepo] that ended. *)
Definition additions (as_ : list (UserTraffic * adder)) : list cell :=
  imap (fun k x => (k, x)) as_ ≫= fun '(k, (t, a)) => if ended a then [(k, t)] else [].

(** The records in the queue that no report was built from yet. *)
Definition pending (y : collector) : list cell :=
  match check y with
  | Sent _ n => drop n (contents (memory y) (queue y))
  | _ => contents (memory y) (queue y)
  end.

Lemma additions_started as_ t s : additions (as_ ++ [(t, Loaded s)]) = additions as_.
Proof. unfold additions. rewrite imap_app, bind_app. simpl. by rewrite app_nil_r. Qed.

(** What one call contributes. *)
Lemma additions_at as_ k t a : as_ !! k = Some (t, a) -> exists l1 l2, forall a',
  additions (<[k := (t, a')]> as_) = l1 ++ (if ended a' then [(k, t)] else []) ++ l2.
Proof.
  intros Hk. eexists (additions (take k as_)),
    (imap (fun i x => (k + S i, x)) (drop (S k) as_) ≫=
     fun '(k, (t, a)) => if ended a then [(k, t)] else []).
  intros a'. pose proof (lookup_lt_Some _ _ _ Hk) as Hlt. unfold additions.
  rewrite insert_take_drop by done. rewrite imap_app, bind_app. f_equal.
  rewrite length_take, Nat.min_l by lia. simpl. by rewrite Nat.add_0_r.
Qed.

Lemma additions_insert as_ k t a a' : as_ !! k = Some (t, a) -> ended a = false ->
  additions (<[k := (t, a')]> as_) ≡ₚ (if ended a' then [(k, t)] else []) ++ additions as_.
Proof.
  intros Hk Ha. destruct (additions_at _ _ _ _ Hk) as (l1 & l2 & E).
  assert (additions as_ = l1 ++ l2) as -> by (rewrite <- (list_insert_id as_ k _ Hk), E, Ha; done).
  rewrite E. apply Permutation_app_swap_app.
Qed.

Lemma additions_NoDup as_ : NoDup (additions as_).*1.
Proof.
  assert (forall l : list (nat * (UserTraffic * adder)),
    (l ≫= fun '(k, (t, a)) => if ended a then [(k, t)] else []).*1 `sublist_of` l.*1) as Hs.
  { induction l as [|[k [t a]] l IH]; simpl; [done|].
    destruct (ended a); simpl; [by apply sublist_skip|by apply sublist_cons]. }
  eapply sublist_NoDup; [|apply Hs]. rewrite fmap_imap.
  change (NoDup (imap (fun j _ => id j) as_)). rewrite imap_seq_0, list_fmap_id. apply NoDup_seq.
Qed.

(** What an addition under way holds, while no other comes between. *)
Definition adder_apart (h : list array) (q : goslice) (k : nat) (x : UserTraffic * adder) : Prop :=
  match x.2 with
  | Loaded s => s = q
  | Appended s => contents h s = contents h q ++ [(k, x.1)]
  | Added _ => True
  end.

(** The report is made of the first records of the queue. *)
Definition check_apart (h : list array) (q : goslice) (rp : reporter) : Prop :=
  match rp with
  | Reading _ s got =>
    s_len s <= s_len q /\ length got <= s_len s /\ contents h s = take (s_len s) (contents h q) /\
    got = take (length got) (contents h q)
  | Sent _ n => n <= s_len q
  | _ => True
  end.

Record apart (y : collector) : Prop := {
  ap_one k k' x x' : adders y !! k = Some x -> adders y !! k' = Some x' ->
    ended x.2 = false -> ended x'.2 = false -> k = k';
  ap_adder k x : adders y !! k = Some x -> adder_apart (memory y) (queue y) k x;
  ap_check : check_apart (memory y) (queue y) (check y);
  ap_count : additions (adders y) ≡ₚ mjoin (reports y).*1 ++ discarded y ++ pending y;
}.

Lemma busy_false as_ k x : busy as_ = false -> as_ !! k = Some x -> ended x.2 = true.
Proof.
  intros Hb Hk. destruct (ended x.2) eqn:E; [done|exfalso].
  assert (busy as_ = true) as Ht; [|congruence]. apply existsb_exists. exists x.
  rewrite E. split; [|done]. by eapply list_elem_of_In, list_elem_of_lookup_2.
Qed.

Lemma adder_ended h q h' q' k x : ended x.2 = true -> adder_apart h q k x -> adder_apart h' q' k x.
Proof. unfold adder_apart. by destruct (x.2). Qed.

(** What the reader holds stays right when the queue grows at its end. *)
Lemma check_grows h q h' q' rp l :
  (forall s, valid h s -> s_len s <= s_len q -> contents h' s = contents h s) ->
  (match rp with Reading _ s _ => valid h s | _ => True end) -> valid h q ->
  s_len q <= s_len q' -> contents h' q' = contents h q ++ l ->
  check_apart h q rp -> check_apart h' q' rp.
Proof.
  intros Hs Hv Hq Hlen Hc. pose proof (length_contents _ _ Hq) as Hl.
  destruct rp as [|now|now s got|now n]; simpl; [done..| |lia].
  intros (H1 & H2 & H3 & H4). rewrite Hs, Hc, !take_app_le by (done || lia).
  split_and!; [lia|done|done|done].
Qed.

Lemma load_apart t h q st as_ rp rs d o : busy as_ = false ->
  apart (MkCollector h q st as_ rp rs d false) ->
  apart (MkCollector h q st (as_ ++ [(t, Loaded q)]) rp rs d o).
Proof.
  intros Hb [H1 H2 H3 H4]. cbn [memory queue adders check reports discarded] in *.
  assert (forall k x, (as_ ++ [(t, Loaded q)]) !! k = Some x ->
    as_ !! k = Some x \/ k = length as_ /\ x = (t, Loaded q)) as Hk.
  { intros k x [?|[Hk Hx]]%lookup_app_Some; [by left|right].
    apply list_lookup_singleton_Some in Hx as [E <-]. split; [lia|done]. }
  split; cbn [memory queue adders check reports discarded].
  - intros k k' x x' [Hx|[-> ->]]%Hk [Hx'|[-> ->]]%Hk E E'; try done;
      [by rewrite (busy_false _ _ _ Hb Hx) in E|by rewrite (busy_false _ _ _ Hb Hx) in E
      |by rewrite (busy_false _ _ _ Hb Hx') in E'].
  - intros k x [Hx|[-> ->]]%Hk; [by apply H2|done].
  - done.
  - rewrite additions_started. exact H4.
Qed.

Lemma append_apart k t s grown s' h' h q st as_ rp rs d :
  as_ !! k = Some (t, Loaded s) -> append s (k, t) grown h = (s', h') ->
  traffic_inv (MkCollector h q st as_ rp rs d false) ->
  apart (MkCollector h q st as_ rp rs d false) ->
  apart (MkCollector h' q st (<[k := (t, Appended s')]> as_) rp rs d false).
Proof.
  intros Hk Ha [_ Hq _ Hr _] [H1 H2 H3 H4].
  unfold pending in *. cbn [memory queue adders check reports discarded] in *.
  pose proof (H2 _ _ Hk) as Es. unfold adder_apart in Es. simpl in Es. subst s.
  destruct (append_spec _ _ _ _ _ _ Hq Ha) as (_ & _ & Hs' & Hv).
  assert (contents h' q = contents h q) as Eq by (by apply Hv).
  split; unfold pending; cbn [memory queue adders check reports discarded].
  - intros i j x x' [(-> & <- & _)|[_ Hi]]%list_lookup_insert_Some
      [(-> & <- & _)|[_ Hj]]%list_lookup_insert_Some E E'; eauto.
  - intros i x [(-> & <- & _)|[Hne Hi]]%list_lookup_insert_Some.
    + unfold adder_apart. simpl. by rewrite Hs', Eq.
    + apply (adder_ended h q); [|by apply H2]. destruct (ended x.2) eqn:E; [done|].
      by destruct Hne; eapply H1.
  - apply (check_grows h q _ _ _ []); [|by eapply reading_valid|done|done|
      by rewrite app_nil_r|done]. intros r Hr' Hle. by apply Hv.
  - rewrite (additions_insert _ _ _ _ _ Hk) by done. simpl. by rewrite Eq.
Qed.

Lemma store_apart k t s h q st as_ rp rs d : as_ !! k = Some (t, Appended s) ->
  traffic_inv (MkCollector h q st as_ rp rs d false) ->
  apart (MkCollector h q st as_ rp rs d false) ->
  apart (MkCollector h s st (<[k := (t, Added s)]> as_) rp rs d false).
Proof.
  intros Hk [_ Hq Has Hr _] [H1 H2 H3 H4].
  unfold pending in *. cbn [memory queue adders check reports discarded] in *.
  pose proof (H2 _ _ Hk) as Es. unfold adder_apart in Es. simpl in Es.
  destruct (Has _ (lookup_adder _ _ _ Hk)) as (_ & Hs & _). simpl in Hs.
  pose proof (length_contents _ _ Hs) as Ls. pose proof (length_contents _ _ Hq) as Lq.
  rewrite Es, length_app in Ls. simpl in Ls.
  split; unfold pending; cbn [memory queue adders check reports discarded].
  - intros i j x x' [(-> & <- & _)|[_ Hi]]%list_lookup_insert_Some
      [(-> & <- & _)|[_ Hj]]%list_lookup_insert_Some E E'; eauto.
  - intros i x [(-> & <- & _)|[Hne Hi]]%list_lookup_insert_Some; [done|].
    apply (adder_ended h q); [|by apply H2]. destruct (ended x.2) eqn:E; [done|].
    by destruct Hne; eapply H1.
  - apply (check_grows h q _ _ _ [(k, t)]); [done|by eapply reading_valid|done|lia|done|done].
  - rewrite (additions_insert _ _ _ _ _ Hk), H4 by done. rewrite Es. simpl.
    assert (forall l : list cell, mjoin rs.*1 ++ d ++ l ++ [(k, t)] ≡ₚ
      (k, t) :: mjoin rs.*1 ++ d ++ l) as Hp
      by (intros; rewrite !app_assoc; symmetry; apply Permutation_cons_append).
    destruct rp as [| | |now n]; rewrite ?Hp; try done.
    simpl in H3. rewrite drop_app_le by lia. by rewrite Hp.
Qed.

Lemma start_apart now h q st as_ rs d :
  valid h q -> apart (MkCollector h q st as_ (Due now) rs d false) ->
  apart (MkCollector h q st as_ (Reading now q []) rs d false).
Proof.
  intros Hq [H1 H2 H3 H4]. split; try done. cbn [memory queue check check_apart length].
  rewrite take_ge by (by rewrite length_contents). split_and!; [lia|lia|done|done].
Qed.

Lemma read_apart now s got x h q st as_ rs d :
  contents h s !! length got = Some x -> valid h s ->
  apart (MkCollector h q st as_ (Reading now s got) rs d false) ->
  apart (MkCollector h q st as_ (Reading now s (got ++ [x])) rs d false).
Proof.
  intros Hx Hs [H1 H2 H3 H4]. split; try done. cbn [memory queue check] in *.
  destruct H3 as (Hle & Hl & Hc & Hg). pose proof (lookup_lt_Some _ _ _ Hx) as Hlt.
  rewrite length_contents in Hlt by done. rewrite Hc in Hx. apply lookup_take_Some in Hx as [Hx _].
  cbn [check_apart]. rewrite length_app. simpl. split_and!; [done|lia|done|].
  replace (length got + 1) with (S (length got)) by lia.
  by rewrite (take_S_r _ _ _ Hx), <- Hg.
Qed.

Lemma send_apart now s got data h q st as_ rs d :
  length got = s_len s ->
  apart (MkCollector h q st as_ (Reading now s got) rs d false) ->
  apart (MkCollector h q st as_ (Sent now (s_len s)) (rs ++ [(got, data)]) d false).
Proof.
  intros Hl [H1 H2 H3 H4]. unfold pending in H4.
  cbn [memory queue adders check reports discarded] in *. destruct H3 as (Hle & _ & _ & Hg).
  split; unfold pending; cbn [memory queue adders check reports discarded]; [done..|].
  rewrite H4, fmap_app, join_app. simpl. rewrite app_nil_r, <- app_assoc. f_equiv.
  rewrite <- (take_drop (s_len s) (contents h q)) at 1. rewrite <- Hl at 1. rewrite <- Hg.
  apply Permutation_app_swap_app.
Qed.

Lemma reset_apart now n q' h' h q st as_ rs d o : empty_slice h = (q', h') -> busy as_ = false ->
  apart (MkCollector h q st as_ (Sent now n) rs d false) ->
  apart (MkCollector h' q' now as_ Waiting rs (d ++ drop n (contents h q)) o).
Proof.
  intros E Hb [H1 H2 H3 H4]. destruct (empty_slice_spec _ _ _ E) as (_ & Hl & _).
  split; cbn [memory queue adders check reports discarded]; [done| |done|].
  - intros k x Hx. apply (adder_ended h q); [by eapply busy_false|by apply H2].
  - rewrite H4. unfold pending. cbn [memory queue check]. unfold contents at 3.
    by rewrite Hl, take_0, app_nil_r.
Qed.

Lemma collect_apart y y' : traffic_inv y -> collect y y' ->
  (overlapped y = false -> apart y) -> overlapped y' = false -> apart y'.
Proof.
  intros Hi Hc Hy. destruct Hc; cbn [overlapped] in *.
  - intros [-> Hb]%orb_false_iff. apply load_apart; auto.
  - intros ->. eapply append_apart; eauto.
  - intros ->. eapply store_apart; eauto.
  - intros ->. destruct (Hy eq_refl). by split.
  - intros ->. apply start_apart; [by apply Hi|auto].
  - intros ->. apply read_apart; [done|by apply (ti_check _ Hi)|auto].
  - intros ->. apply send_apart; auto.
  - intros [-> Hb]%orb_false_iff. eapply reset_apart; eauto.
Qed.

Lemma collector_apart t0 y :
  rtc collect (collector_initial t0) y -> overlapped y = false -> apart y.
Proof.
  intros Hr.
  assert (overlapped (collector_initial t0) = false -> apart (collector_initial t0)) as Ha
    by (intros _; split; done).
  assert (traffic_inv (collector_initial t0)) as Hi by (eapply collector_inv, rtc_refl).
  induction Hr as [|y1 y2 y3 Hc _ IH]; [done|].
  apply IH; [by eapply collect_apart|by eapply collect_inv].
Qed.

(** The reports state the totals of their records. *)
Lemma reports_total (datas : list (list UserTraffic)) (gots : list (list cell)) uid :
  Forall2 (fun data got => data ≡ₚ report_data got.*2) datas gots ->
  Forall in_range (mjoin gots).*2 ->
  (exists q, total tU uid (mjoin datas) = total tU uid (mjoin gots).*2 + 2 ^ 64 * q)%Z /\
  (exists q, total tD uid (mjoin datas) = total tD uid (mjoin gots).*2 + 2 ^ 64 * q)%Z.
Proof.
  induction 1 as [|data got datas gots Hd _ IH]; [by split; exists 0%Z|].
  simpl in *. rewrite fmap_app. intros [Hg Hgs]%Forall_app.
  destruct (IH Hgs) as [[q1 E1] [q2 E2]], (total_report _ data uid Hg Hd) as [[q3 E3] [q4 E4]].
  rewrite !total_app, E1, E2, E3, E4. split; [exists (q1 + q3)%Z|exists (q2 + q4)%Z]; lia.
Qed.

(** ** Lemmas: a call by itself *)

(** From any state a call of [AddRepo] can go through alone, and adds its record
    at the end of the queue. *)
Lemma AddRepo_run t y : traffic_inv y -> accepts t = true ->
  exists y', rtc collect y y' /\
    contents (memory y') (queue y') = contents (memory y) (queue y) ++ [(length (adders y), t)] /\
    (exists s, adders y' = adders y ++ [(t, Added s)]) /\
    reports y' = reports y /\ check y' = check y.
Proof.
  destruct y as [h q st as_ rp rs d o]. intros Hi Ht. pose proof (ti_queue _ Hi) as Hq.
  cbn [memory queue adders reports check] in *.
  destruct (append q (length as_, t) (S (s_len q)) h) as [s' h'] eqn:E.
  destruct (append_spec _ _ _ _ _ _ Hq E) as (_ & _ & Hc & _).
  assert (<[length as_ := (t, Added s')]> (<[length as_ := (t, Appended s')]>
    (as_ ++ [(t, Loaded q)])) = as_ ++ [(t, Added s')]) as E2
    by (by rewrite !insert_app_r_alt, Nat.sub_diag by lia).
  exists (MkCollector h' s' st (as_ ++ [(t, Added s')]) rp rs d (o || busy as_)).
  split_and!; [|exact Hc|by exists s'|done|done]. rewrite <- E2.
  eapply rtc_l; [by apply add_load|].
  eapply rtc_l; [apply (add_append (length as_) t q (S (s_len q)) s' h'); [|lia|exact E]|].
  { by apply list_lookup_middle. }
  eapply rtc_l; [eapply add_store|apply rtc_refl].
  apply list_lookup_insert_eq. rewrite length_app. simpl. lia.
Qed.

(** The rest of a report. *)
Lemma report_run now q h q' st as_ rs d o rest got :
  valid h q -> contents h q = got ++ rest ->
  rtc collect (MkCollector h q' st as_ (Reading now q got) rs d o)
    (MkCollector h q' st as_ (Reading now q (got ++ rest)) rs d o).
Proof.
  intros Hq. revert got. induction rest as [|x rest IH]; intros got E; [by rewrite app_nil_r|].
  rewrite (cons_middle x got rest), app_assoc in E |- *. eapply rtc_l; [|by apply IH].
  apply repo_read. rewrite E, <- app_assoc. by apply list_lookup_middle.
Qed.

(** A tick of [CheckRepo] by itself, where a report is due. *)
Lemma CheckRepo_run now data y :
  traffic_inv y -> check y = Waiting -> contents (memory y) (queue y) <> [] ->
  (9 < now - started y)%Z -> data ≡ₚ report_data (contents (memory y) (queue y)).*2 ->
  exists y', rtc collect y y' /\
    reports y' = reports y ++ [(contents (memory y) (queue y), data)] /\
    contents (memory y') (queue y') = [] /\ started y' = now /\ check y' = Waiting /\
    adders y' = adders y /\ discarded y' = discarded y.
Proof.
  destruct y as [h q st as_ rp rs d o].
  cbn [memory queue adders reports check started discarded].
  intros Hi -> Hne Hnow Hd. pose proof (ti_queue _ Hi) as Hq.
  cbn [memory queue] in Hq.
  pose proof (length_contents _ _ Hq) as Hl.
  destruct (empty_slice h) as [q' h'] eqn:E. destruct (empty_slice_spec _ _ _ E) as (_ & He & _).
  eexists. split.
  - eapply rtc_l; [apply (repo_due now)|].
    { unfold CheckRepo_due. rewrite decide_False; [by apply bool_decide_eq_true|].
      intros E0. apply Hne. apply length_zero_iff_nil. lia. }
    eapply rtc_l; [apply repo_start|].
    etrans; [by apply (report_run now q h q _ _ _ _ _ (contents h q) [])|].
    eapply rtc_l; [by apply (repo_send _ _ _ data)|].
    eapply rtc_l; [by eapply repo_reset|apply rtc_refl].
  - cbn [memory queue adders reports check started discarded]. split_and!; try done.
    + unfold contents. by rewrite He.
    + by rewrite drop_ge, app_nil_r by lia.
Qed.

(** ** Properties *)

(** C36: in every interleaving of the additions with each other and with the
    reports, a report is the aggregate of at least one record, all of them
    handed to [AddRepo], and of no record twice.  As long as no addition
    overlaps another one or the replacement of the queue, each record is
    moreover in one report only, or was discarded by a replacement, or is still
    in the queue, and so for every user the totals of the records added are those
    of the reports, of the records discarded and of the records in the queue, up
    to multiples of 2^64.  From every state a call of [AddRepo] can run and adds
    its record at the end of the queue, if it names a user and a count that is not
    zero; and a tick of [CheckRepo] can run that finds records, and more than nine
    seconds since the last report, and reports exactly those records and empties
    the queue. *)
Theorem traffic_conserved (t0 : Z) (y : collector) :
  rtc collect (collector_initial t0) y ->
  (forall got data, (got, data) ∈ reports y ->
     got <> [] /\ NoDup got.*1 /\ data ≡ₚ report_data got.*2 /\
     forall k t, (k, t) ∈ got -> accepts t = true /\ exists a, adders y !! k = Some (t, a)) /\
  (overlapped y = false ->
     NoDup (additions (adders y)).*1 /\
     additions (adders y) ≡ₚ mjoin (reports y).*1 ++ discarded y ++ pending y /\
     (Forall in_range (additions (adders y)).*2 -> forall uid,
        (exists q, total tU uid (additions (adders y)).*2 =
           total tU uid (mjoin (reports y).*2) + total tU uid (discarded y).*2 +
           total tU uid (pending y).*2 + 2 ^ 64 * q)%Z /\
        (exists q, total tD uid (additions (adders y)).*2 =
           total tD uid (mjoin (reports y).*2) + total tD uid (discarded y).*2 +
           total tD uid (pending y).*2 + 2 ^ 64 * q)%Z)) /\
  (forall t, UID t <> ""%string -> tD t <> 0%Z \/ tU t <> 0%Z ->
     exists y', rtc collect y y' /\
       contents (memory y') (queue y') =
         contents (memory y) (queue y) ++ [(length (adders y), t)] /\
       reports y' = reports y) /\
  (forall now data, check y = Waiting -> contents (memory y) (queue y) <> [] ->
     (9 < now - started y)%Z -> data ≡ₚ report_data (contents (memory y) (queue y)).*2 ->
     exists y', rtc collect y y' /\
       reports y' = reports y ++ [(contents (memory y) (queue y), data)] /\
       contents (memory y') (queue y') = [] /\ started y' = now /\ check y' = Waiting).
Proof.
  intros Hr. pose proof (collector_inv _ _ Hr) as Hi. pose proof (ti_reports _ Hi) as Hrep.
  split_and!.
  - intros got data Hg. rewrite Forall_forall in Hrep. destruct (Hrep _ Hg) as (Hne & Hp & Hd).
    split_and!; [done|by eapply all_placed_NoDup|done|]. intros k t Hk.
    apply list_elem_of_lookup in Hk as [p Hk]. destruct (Hp _ _ Hk) as (a & s & Ha & _).
    split; [by apply (ti_adders _ Hi (t, a)); eapply lookup_adder|eauto].
  - intros Ho. pose proof (ap_count _ (collector_apart _ _ Hr Ho)) as Hc.
    split_and!; [apply additions_NoDup|done|].
    assert ((additions (adders y)).*2 ≡ₚ
      (mjoin (reports y).*1).*2 ++ (discarded y).*2 ++ (pending y).*2) as Hc2
      by (by rewrite Hc, !fmap_app).
    rewrite Hc2. intros [Hran _]%Forall_app uid. rewrite !(total_perm _ uid _ _ Hc2), !total_app.
    destruct (reports_total (reports y).*2 (reports y).*1 uid) as [[q1 E1] [q2 E2]]; [|done|].
    + apply Forall2_fmap, Forall_Forall2_diag.
      eapply Forall_impl; [exact Hrep|]. by intros r (_ & _ & ?).
    + split; [exists (- q1)%Z|exists (- q2)%Z]; lia.
  - intros t Hu Hn. destruct (AddRepo_run t y Hi) as (y' & ? & ? & _ & ? & _); [|eauto].
    by apply accepts_spec.
  - intros now data Hw Hne Hnow Hd.
    destruct (CheckRepo_run now data y Hi Hw Hne Hnow Hd) as (y' & ? & ? & ? & ? & ? & _). eauto 10.
Qed.

(** ** Examples *)

Local Ltac append_alone t k g :=
  eapply rtc_l; [eapply (add_append k t _ g); [reflexivity|simpl; lia|vm_compute; reflexivity]|].

(** The call [k] of [AddRepo] for [t], by itself, with the capacity [g]. *)
Local Ltac add_alone t k g :=
  eapply rtc_l; [apply (add_load t); reflexivity|];
  append_alone t k g;
  eapply rtc_l; [eapply (add_store k t); reflexivity|].

Definition alice1 : UserTraffic := MkTraffic "alice" 10 0.
Definition alice2 : UserTraffic := MkTraffic "alice" 5 7.
Definition bob1 : UserTraffic := MkTraffic "bob" 1 2.
Definition bob2 : UserTraffic := MkTraffic "bob" 0 4.

(** Two records, a report, a record that arrives while it is made, in the array
    the report is read from, and is discarded, and one that stays in the queue. *)
Definition ex_collector : collector :=
  MkCollector
    [MkArray [] 0; MkArray [(0, alice1)] 1; MkArray [(0, alice1); (1, alice2); (2, bob1)] 4;
     MkArray [] 0; MkArray [(3, bob2)] 1]
    (MkSlice 4 1) 20
    [(alice1, Added (MkSlice 1 1)); (alice2, Added (MkSlice 2 2)); (bob1, Added (MkSlice 2 3));
     (bob2, Added (MkSlice 4 1))]
    Waiting [([(0, alice1); (1, alice2)], [MkTraffic "alice" 15 7])] [(2, bob1)] false.

Local Ltac report_alone now data :=
  eapply rtc_l; [apply (repo_due now); reflexivity|];
  eapply rtc_l; [apply repo_start|];
  repeat (eapply rtc_l; [eapply repo_read; vm_compute; reflexivity|]);
  eapply rtc_l; [apply (repo_send _ _ _ data); [reflexivity|reflexivity]|].

Local Ltac reset_alone := eapply rtc_l; [eapply repo_reset; vm_compute; reflexivity|].

Lemma ex_collector_reach : rtc collect (collector_initial 0) ex_collector.
Proof.
  add_alone alice1 0 1. add_alone alice2 1 4.
  eapply rtc_l; [apply (repo_due 20); reflexivity|].
  eapply rtc_l; [apply repo_start|].
  eapply rtc_l; [eapply repo_read; vm_compute; reflexivity|].
  add_alone bob1 2 4.
  eapply rtc_l; [eapply repo_read; vm_compute; reflexivity|].
  eapply rtc_l; [apply (repo_send _ _ _ [MkTraffic "alice" 15 7]); [reflexivity|reflexivity]|].
  reset_alone. add_alone bob2 3 1. apply rtc_refl.
Defined.

Lemma traffic_conserved_witness :
  NoDup [0; 1] /\
  additions (adders ex_collector) ≡ₚ [(0, alice1); (1, alice2); (2, bob1); (3, bob2)] /\
  exists q, total tD "bob" (additions (adders ex_collector)).*2 =
    (0 + total tD "bob" [bob1] + total tD "bob" [bob2] + 2 ^ 64 * q)%Z.
Proof.
  destruct (traffic_conserved 0 ex_collector ex_collector_reach) as (Hrep & Hcons & _).
  destruct (Hcons eq_refl) as (_ & Hp & Ht). split_and!.
  - by apply (Hrep [(0, alice1); (1, alice2)] [MkTraffic "alice" 15 7]); left.
  - exact Hp.
  - apply (Ht ltac:(repeat constructor; simpl; lia) "bob"%string).
Defined.

(** Two additions that read the queue before either stored it: the one that
    stores first is lost. *)
Lemma AddRepo_lost : exists y, rtc collect (collector_initial 0) y /\ overlapped y = true /\
  additions (adders y) = [(0, alice1); (1, bob1)] /\
  reports y = [] /\ discarded y = [] /\ pending y = [(0, alice1)].
Proof.
  eexists. split; [|shelve].
  eapply rtc_l; [apply (add_load alice1); reflexivity|].
  add_alone bob1 1 1.
  append_alone alice1 0 1.
  eapply rtc_l; [eapply (add_store 0 alice1); reflexivity|]. apply rtc_refl.
  Unshelve. vm_compute. split_and!; reflexivity.
Qed.

(** An addition that read the queue before a report and stores it after the
    replacement: the record that was reported is in the queue again, and is
    reported a second time. *)
Lemma AddRepo_race : exists y, rtc collect (collector_initial 0) y /\ overlapped y = true /\
  additions (adders y) = [(0, alice1); (1, bob1)] /\
  reports y = [([(0, alice1)], [MkTraffic "alice" 10 0]);
    ([(0, alice1); (1, bob1)], [MkTraffic "alice" 10 0; MkTraffic "bob" 1 2])].
Proof.
  eexists. split; [|shelve].
  add_alone alice1 0 1.
  eapply rtc_l; [apply (add_load bob1); reflexivity|].
  report_alone 20%Z [MkTraffic "alice" 10 0]. reset_alone.
  append_alone bob1 1 2.
  eapply rtc_l; [eapply (add_store 1 bob1); reflexivity|].
  report_alone 40%Z [MkTraffic "alice" 10 0; MkTraffic "bob" 1 2]. apply rtc_refl.
  Unshelve. vm_compute. split_and!; reflexivity.
Qed.
