(* ===== verification/Server.v ===== *)
(** * The server's main loop

    [cmd/quick_ss/main.go]: the ports of the server, the reconciliation of the
    ports and keys with the list of users, and the polling that triggers it.
    The operating system is the set of listening sockets of the process and an
    [env] that says what it refuses; the services of a port are their sockets
    and cipher list here (their life is the subject of [TcpServer] and
    [NatMap]).  The keys of a Go map are visited in an arbitrary order, a
    function of the [env]. *)
From S2P Require Import Prelude GoIO Cipher ToyCrypto Salt CipherList Api.

Local Open Scope Z_scope.

(** ** Sockets *)

(** Listening sockets are numbered; each has the port it was asked for. *)
Record os := MkOs {
  tcpSocks : gmap nat Z;
  udpSocks : gmap nat Z;
  nextSock : nat;
}.

Definition errInUse : error := Errorf "bind: address already in use".

(** What the system says of a port: whether a socket can be bound apart from
    those of this process, and what closing one returns. *)
Record env := MkEnv {
  tcpBind : Z -> option error;
  udpBind : Z -> option error;
  tcpStop : Z -> option error;
  udpStop : Z -> option error;
  rangeChanges : gmap Z Z -> list (Z * Z);
}.

(** Port 0 asks for any free port. *)
Definition listen (bind : Z -> option error) (portNum : Z) (socks : gmap nat Z) : option error :=
  match bind portNum with
  | Some e => Some e
  | None => if bool_decide (portNum <> 0 /\ portNum ∈ values socks) then Some errInUse else None
  end.

Definition ListenTCP (en : env) (portNum : Z) (o : os) : (nat + error) * os :=
  match listen (tcpBind en) portNum (tcpSocks o) with
  | Some e => (inr e, o)
  | None => (inl (nextSock o),
      MkOs (<[nextSock o := portNum]> (tcpSocks o)) (udpSocks o) (S (nextSock o)))
  end.

Definition ListenUDP (en : env) (portNum : Z) (o : os) : (nat + error) * os :=
  match listen (udpBind en) portNum (udpSocks o) with
  | Some e => (inr e, o)
  | None => (inl (nextSock o),
      MkOs (tcpSocks o) (<[nextSock o := portNum]> (udpSocks o)) (S (nextSock o)))
  end.

(** ** The server *)

Record ssPort := MkSsPort {
  tcpService : nat;
  udpService : nat;
  pcipherList : cipherList;
}.

(** [accessKeys] is what [SetNumAccessKeys] was last given; [nextLoc] the next
    unused address of a cipher entry. *)
Record SSServer := MkServer {
  ports : gmap Z ssPort;
  sockets : os;
  accessKeys : option (nat * nat);
  nextLoc : nat;
}.

Definition set_ports ps (s : SSServer) : SSServer :=
  MkServer ps (sockets s) (accessKeys s) (nextLoc s).
Definition set_sockets o (s : SSServer) : SSServer :=
  MkServer (ports s) o (accessKeys s) (nextLoc s).

Definition startPort (en : env) (portNum : Z) (s : SSServer) : outcome unit * SSServer :=
  let '(listener, o) := ListenTCP en portNum (sockets s) in
  match listener with
  | inr _ => (Err (Errorf "Failed to start TCP on port"), set_sockets o s)
  | inl listener =>
    let '(packetConn, o) := ListenUDP en portNum o in
    match packetConn with
    | inr _ => (Err (Errorf "Failed to start UDP on port"), set_sockets o s)
    | inl packetConn =>
      let port := MkSsPort listener packetConn NewCipherList in
      (Ret tt, set_ports (<[portNum := port]> (ports s)) (set_sockets o s))
    end
  end.

Definition closeTCP (id : nat) (o : os) : os :=
  MkOs (delete id (tcpSocks o)) (udpSocks o) (nextSock o).
Definition closeUDP (id : nat) (o : os) : os :=
  MkOs (tcpSocks o) (delete id (udpSocks o)) (nextSock o).

Definition removePort (en : env) (portNum : Z) (s : SSServer) : outcome unit * SSServer :=
  match ports s !! portNum with
  | None => (Err (Errorf "Port doesn't exist"), s)
  | Some port =>
    let s := set_sockets (closeTCP (tcpService port) (sockets s)) s in
    let s := set_sockets (closeUDP (udpService port) (sockets s)) s in
    let s := set_ports (delete portNum (ports s)) s in
    match tcpStop en portNum, udpStop en portNum with
    | Some _, _ => (Err (Errorf "Failed to close listener"), s)
    | None, Some _ => (Err (Errorf "Failed to close packetConn"), s)
    | None, None => (Ret tt, s)
    end
  end.

(** ** [doRun] *)

Section Run.
Context `{CryptoOps}.

(** The first loop: a key is wanted on its port; the entries of each port in
    order. *)
Fixpoint load_keys (data : list Key) (portChanges : gmap Z Z)
    (portCiphers : gmap Z (list CipherEntry)) (next : nat)
    : outcome (gmap Z Z * gmap Z (list CipherEntry)) * nat :=
  match data with
  | [] => (Ret (portChanges, portCiphers), next)
  | keyConfig :: data =>
    let portChanges := <[kPort keyConfig := 1]> portChanges in
    let cipherList := default [] (portCiphers !! kPort keyConfig) in
    match NewCipher (kCipher keyConfig) (kSecret keyConfig) with
    | Panic m => (Panic m, next)
    | Err _ => (Err (Errorf "Failed to create cipher for key"), next)
    | Ret cipher =>
      let entry := MakeCipherEntry next (kID keyConfig) cipher (kSecret keyConfig) in
      load_keys data portChanges
        (<[kPort keyConfig := cipherList ++ [entry]]> portCiphers) (S next)
    end
  end.

(** [portChanges[port] = portChanges[port] - 1] for each port served; a missing
    key reads as 0. *)
Definition count_ports (ps : gmap Z ssPort) (portChanges : gmap Z Z) : gmap Z Z :=
  foldl (fun ch port => <[port := default 0 (ch !! port) - 1]> ch) portChanges
    (map_to_list ps).*1.

Fixpoint apply_changes (en : env) (changes : list (Z * Z)) (s : SSServer)
    : outcome unit * SSServer :=
  match changes with
  | [] => (Ret tt, s)
  | (portNum, count) :: changes =>
    if decide (count = -1) then
      match removePort en portNum s with
      | (Ret _, s) => apply_changes en changes s
      | (Err _, s) => (Err (Errorf "Failed to remove port"), s)
      | (Panic m, s) => (Panic m, s)
      end
    else if decide (count = 1) then
      match startPort en portNum s with
      | (Ret _, s) => apply_changes en changes s
      | (Err _, s) => (Err (Errorf "Failed to start port"), s)
      | (Panic m, s) => (Panic m, s)
      end
    else apply_changes en changes s
  end.

Definition set_pcipherList cl (port : ssPort) : ssPort :=
  MkSsPort (tcpService port) (udpService port) cl.

(** The last loop; a port that is not there is a nil dereference.  The order
    does not matter: the lists are distinct. *)
Fixpoint update_lists (lists : list (Z * list CipherEntry)) (s : SSServer)
    : outcome unit * SSServer :=
  match lists with
  | [] => (Ret tt, s)
  | (portNum, cipherList) :: lists =>
    match ports s !! portNum with
    | None => (Panic "nil pointer dereference", s)
    | Some port =>
      update_lists lists
        (set_ports (<[portNum := set_pcipherList (Update cipherList (pcipherList port)) port]>
                      (ports s)) s)
    end
  end.

Definition doRun (en : env) (users : list Key) (s : SSServer) : outcome unit * SSServer :=
  let '(loaded, next) := load_keys users ∅ ∅ (nextLoc s) in
  let s := MkServer (ports s) (sockets s) (accessKeys s) next in
  match loaded with
  | Panic m => (Panic m, s)
  | Err e => (Err e, s)
  | Ret (portChanges, portCiphers) =>
    let portChanges := count_ports (ports s) portChanges in
    match apply_changes en (rangeChanges en portChanges) s with
    | (Ret _, s) =>
      match update_lists (map_to_list portCiphers) s with
      | (Ret _, s) =>
        (Ret tt, MkServer (ports s) (sockets s) (Some (length users, size portCiphers)) (nextLoc s))
      | r => r
      end
    | r => r
    end
  end.

(** [SSServer.Stop]: the ports in any order, up to the first error. *)
Fixpoint stop_ports (en : env) (ps : list Z) (s : SSServer) : outcome unit * SSServer :=
  match ps with
  | [] => (Ret tt, s)
  | portNum :: ps =>
    match removePort en portNum s with
    | (Ret _, s) => stop_ports en ps s
    | r => r
    end
  end.

(** ** [CheckUser] *)

(** The loop over the users of one poll: [doNew] and the map. *)
Definition check_step (acc : bool * gmap Key Z) (ok : Key) : bool * gmap Key Z :=
  let '(doNew, hash) := acc in
  let hashkey := Hash ok in
  let vk := default 0 (hash !! ok) in
  let vok := bool_decide (is_Some (hash !! ok)) in
  let doNew := if negb vok then true else doNew in
  let doNew := if negb (bool_decide (vk = hashkey)) then true else doNew in
  (doNew, <[ok := hashkey]> hash).

(** [make(map[api.Key]uint32)]. *)
Definition make_hash : gmap Key Z := ∅.

Definition check_users (users : list Key) (hash : gmap Key Z) : bool * gmap Key Z :=
  let acc := if negb (bool_decide (length users = size hash)) then (true, make_hash) else (false, hash) in
  foldl check_step acc users.

(** One poll; the result of [doRun] is ignored. *)
Definition CheckUser_poll (en : env) (users : list Key) (st : gmap Key Z * SSServer)
    : gmap Key Z * SSServer :=
  let '(hash, s) := st in
  let '(doNew, hash) := check_users users hash in
  (hash, if doNew then snd (doRun en users s) else s).

End Run.

(** ** Lemmas: ports and sockets *)

(** Every port served has its own two open sockets and its own entries. *)
Record server_ok (s : SSServer) : Prop := {
  so_ports p port : ports s !! p = Some port ->
    tcpSocks (sockets s) !! tcpService port = Some p /\
    udpSocks (sockets s) !! udpService port = Some p;
  so_tcp id p : tcpSocks (sockets s) !! id = Some p -> (id < nextSock (sockets s))%nat;
  so_udp id p : udpSocks (sockets s) !! id = Some p -> (id < nextSock (sockets s))%nat;
  so_entries p port : ports s !! p = Some port ->
    NoDup (loc <$> order (pcipherList port)) /\
    Forall (fun e => loc e < nextLoc s)%nat (order (pcipherList port));
}.

(** A port no socket of the process uses and the system grants. *)
Definition bindable (en : env) (p : Z) (s : SSServer) : Prop :=
  listen (tcpBind en) p (tcpSocks (sockets s)) = None /\
  listen (udpBind en) p (udpSocks (sockets s)) = None.

Lemma listen_mono bind p (m m' : gmap nat Z) :
  (p ∈ values m' -> p ∈ values m) -> listen bind p m = None -> listen bind p m' = None.
Proof.
  intros Hm. unfold listen. destruct (bind p); [done|].
  case_bool_decide as H1; [done|]. intros _. rewrite bool_decide_eq_false_2; naive_solver.
Qed.

(** What starting or removing port [q] means for the server. *)
Record touches (q : Z) (s s' : SSServer) : Prop := {
  t_ports p : p <> q -> ports s' !! p = ports s !! p;
  t_tcp p : p <> q -> p ∈ values (tcpSocks (sockets s')) -> p ∈ values (tcpSocks (sockets s));
  t_udp p : p <> q -> p ∈ values (udpSocks (sockets s')) -> p ∈ values (udpSocks (sockets s));
  t_keys : accessKeys s' = accessKeys s;
  t_loc : nextLoc s' = nextLoc s;
}.

Lemma bindable_touches en p q s s' :
  touches q s s' -> p <> q -> bindable en p s -> bindable en p s'.
Proof.
  intros Ht Hne [H1 H2]. split; (eapply listen_mono; [|done]); by apply Ht.
Qed.

Lemma values_insert (m : gmap nat Z) id p q :
  p <> q -> p ∈ values (<[id := q]> m) -> p ∈ values m.
Proof.
  intros Hne. rewrite !elem_of_values. intros (k & [[_ ?]|[_ Hk]]%lookup_insert_Some); [done|].
  by exists k.
Qed.

Lemma values_delete (m : gmap nat Z) id p : p ∈ values (delete id m) -> p ∈ values m.
Proof. rewrite !elem_of_values. intros (k & [_ Hk]%lookup_delete_Some). by exists k. Qed.

Lemma startPort_touches en q s : touches q s (snd (startPort en q s)).
Proof.
  unfold startPort, ListenTCP, ListenUDP.
  destruct (listen (tcpBind en) q _); [by split|]. simpl.
  destruct (listen (udpBind en) q _); simpl; split; simpl; try done.
  - intros p Hne. by apply values_insert.
  - intros p Hne. by apply lookup_insert_ne.
  - intros p Hne. by apply values_insert.
  - intros p Hne. by apply values_insert.
Qed.

Lemma removePort_touches en q s : touches q s (snd (removePort en q s)).
Proof.
  unfold removePort. destruct (ports s !! q) as [port|]; [|by split].
  destruct (tcpStop en q), (udpStop en q); simpl; split; simpl; try done;
    intros p Hne; try (by apply lookup_delete_ne); by apply values_delete.
Qed.

Lemma startPort_ok en q s :
  server_ok s -> ports s !! q = None -> server_ok (snd (startPort en q s)).
Proof.
  intros [Hp Ht Hu He] Hq. unfold startPort, ListenTCP, ListenUDP.
  destruct (listen (tcpBind en) q _); [by split|].
  cbn [sockets tcpSocks udpSocks nextSock set_sockets set_ports ports nextLoc].
  assert (forall id p, <[nextSock (sockets s) := q]> (tcpSocks (sockets s)) !! id = Some p ->
    (id < S (nextSock (sockets s)))%nat) as Ht'.
  { intros id p [[<- _]|[_ Hid]]%lookup_insert_Some; [lia|]. apply Ht in Hid. lia. }
  assert (forall p port, ports s !! p = Some port ->
    <[nextSock (sockets s) := q]> (tcpSocks (sockets s)) !! tcpService port = Some p /\
    udpSocks (sockets s) !! udpService port = Some p) as Hp'.
  { intros p port Hpo. destruct (Hp p port Hpo) as [H1 H2]. split; [|done].
    rewrite lookup_insert_ne; [done|]. apply Ht in H1. lia. }
  destruct (listen (udpBind en) q _) as [err|].
  { split; simpl; [done|done| |done]. intros id p Hid%Hu. lia. }
  split; simpl.
  - intros p port [[<- <-]|[Hne Hpo]]%lookup_insert_Some; simpl.
    + by rewrite !lookup_insert_eq.
    + destruct (Hp' p port Hpo) as [H1 H2]. split; [done|].
      rewrite lookup_insert_ne; [done|]. apply Hu in H2. lia.
  - intros id p Hid%Ht'. lia.
  - intros id p [[<- _]|[_ Hid]]%lookup_insert_Some; [lia|]. apply Hu in Hid. lia.
  - intros p port [[<- <-]|[Hne Hpo]]%lookup_insert_Some; simpl; [|by apply (He p)].
    split; constructor.
Qed.

Lemma startPort_bindable en q s :
  bindable en q s ->
  exists port, pcipherList port = NewCipherList /\
    ports (snd (startPort en q s)) !! q = Some port /\ fst (startPort en q s) = Ret tt.
Proof.
  intros [H1 H2]. unfold startPort, ListenTCP, ListenUDP. rewrite H1.
  cbn [sockets tcpSocks udpSocks nextSock]. rewrite H2. simpl. eexists.
  split_and!; [|apply lookup_insert_eq|]; done.
Qed.

Lemma startPort_other en q s p port :
  ports (snd (startPort en q s)) !! p = Some port ->
  ports s !! p = Some port \/ pcipherList port = NewCipherList.
Proof.
  unfold startPort, ListenTCP, ListenUDP.
  destruct (listen (tcpBind en) q _); [by left|]. simpl.
  destruct (listen (udpBind en) q _); simpl; [by left|].
  intros [[_ <-]|[_ ?]]%lookup_insert_Some; [by right|by left].
Qed.

Lemma removePort_ok en q s : server_ok s -> server_ok (snd (removePort en q s)).
Proof.
  intros Hok. unfold removePort. destruct (ports s !! q) as [port|] eqn:Hq; [|done].
  destruct Hok as [Hp Ht Hu He]. destruct (Hp q port Hq) as [H1 H2].
  assert (server_ok (set_ports (delete q (ports s))
    (set_sockets (closeUDP (udpService port) (closeTCP (tcpService port) (sockets s)))
       s))) as Hok.
  { split; simpl.
    - intros p port' [Hne Hpo]%lookup_delete_Some. destruct (Hp p port' Hpo) as [H3 H4].
      rewrite !lookup_delete_ne; [done|intros E; rewrite E in H2; congruence|].
      intros E. rewrite E in H1. congruence.
    - intros id p [_ Hid]%lookup_delete_Some. by eapply Ht.
    - intros id p [_ Hid]%lookup_delete_Some. by eapply Hu.
    - intros p port' [_ Hpo]%lookup_delete_Some. by apply (He p). }
  destruct (tcpStop en q), (udpStop en q); exact Hok.
Qed.

Lemma removePort_done en q s :
  is_Some (ports s !! q) -> tcpStop en q = None -> udpStop en q = None ->
  fst (removePort en q s) = Ret tt /\ ports (snd (removePort en q s)) !! q = None.
Proof.
  intros [port Hq] H1 H2. unfold removePort. rewrite Hq, H1, H2. simpl.
  split; [done|]. apply lookup_delete_eq.
Qed.

Lemma removePort_other en q s p port :
  ports (snd (removePort en q s)) !! p = Some port -> ports s !! p = Some port.
Proof.
  unfold removePort. destruct (ports s !! q) as [port'|]; [|done].
  destruct (tcpStop en q), (udpStop en q); simpl; by intros [_ ?]%lookup_delete_Some.
Qed.

(** ** Lemmas: the changes *)

Definition no_panic {A} (o : outcome A) : Prop := forall m, o <> Panic m.

(** A port after some changes: as it was, or new and still without keys. *)
Definition kept_or_new (l : list (Z * Z)) (s s' : SSServer) : Prop :=
  forall p port, ports s' !! p = Some port ->
    ports s !! p = Some port \/
    ports s !! p = None /\ (p, 1) ∈ l /\ pcipherList port = NewCipherList.

Lemma kept_or_new_step q c l s s1 s' :
  touches q s s1 -> (forall c', (q, c') ∉ l) ->
  (forall port, ports s1 !! q = Some port -> ports s !! q = Some port \/
     ports s !! q = None /\ c = 1 /\ pcipherList port = NewCipherList) ->
  kept_or_new l s1 s' -> kept_or_new ((q, c) :: l) s s'.
Proof.
  intros Ht Hq Hself Hk p port [Hp|(Hn & Hin & Hnew)]%Hk.
  - destruct (decide (p = q)) as [->|Hne]; [|left; by rewrite <- (t_ports _ _ _ Ht)].
    destruct (Hself port Hp) as [?|(? & -> & ?)]; [by left|right]. split_and!; [done|left|done].
  - right. assert (p <> q) as Hne by (intros ->; by apply (Hq 1)).
    rewrite (t_ports _ _ _ Ht) in Hn by done. split_and!; [done|by right|done].
Qed.

Lemma kept_or_new_last q c l s s1 :
  touches q s s1 ->
  (forall port, ports s1 !! q = Some port -> ports s !! q = Some port \/
     ports s !! q = None /\ c = 1 /\ pcipherList port = NewCipherList) ->
  kept_or_new ((q, c) :: l) s s1.
Proof.
  intros Ht Hself p port Hp. destruct (decide (p = q)) as [->|Hne];
    [|left; by rewrite <- (t_ports _ _ _ Ht)].
  destruct (Hself port Hp) as [?|(? & -> & ?)]; [by left|right]. split_and!; [done|left|done].
Qed.

Lemma startPort_new en q s : ports s !! q = None ->
  forall port, ports (snd (startPort en q s)) !! q = Some port -> ports s !! q = Some port \/
    ports s !! q = None /\ 1 = 1 /\ pcipherList port = NewCipherList.
Proof. intros Hq port Hp. destruct (startPort_other en q s q port Hp); [by left|by right]. Qed.

(** Whatever fails, the server is left in good order, no port it keeps has lost
    its keys, and a port that is new has none yet. *)
Lemma apply_changes_frame en l s :
  server_ok s -> (forall p, (p, 1) ∈ l -> ports s !! p = None) -> NoDup l.*1 ->
  let '(r, s') := apply_changes en l s in
  server_ok s' /\ no_panic r /\ accessKeys s' = accessKeys s /\ nextLoc s' = nextLoc s /\
  kept_or_new l s s' /\
  (forall p, (p, -1) ∉ l -> (p, 1) ∉ l -> ports s' !! p = ports s !! p) /\
  (r = Ret tt -> forall p, (p, 1) ∈ l -> is_Some (ports s' !! p)).
Proof.
  revert s. induction l as [|[q c] l IH]; intros s Hok Hnew Hnd; simpl.
  { split_and!; try done; [intros p port Hp; by left|]. intros _ p Hp. by apply elem_of_nil in Hp. }
  apply NoDup_cons in Hnd as [Hq Hnd].
  assert (forall s1, touches q s s1 -> forall p, (p, 1) ∈ l -> ports s1 !! p = None) as Hnew'.
  { intros s1 Ht p Hp. rewrite (t_ports _ _ _ Ht); [apply Hnew; by right|].
    intros ->. apply Hq, list_elem_of_fmap. by exists (q, 1). }
  assert (forall c', (q, c') ∉ l) as Hq'
    by (intros c' Hc; apply Hq, list_elem_of_fmap; by exists (q, c')).
  assert (forall s1, server_ok s1 -> touches q s s1 ->
    (forall port, ports s1 !! q = Some port -> ports s !! q = Some port \/
       ports s !! q = None /\ c = 1 /\ pcipherList port = NewCipherList) ->
    (c = 1 -> is_Some (ports s1 !! q)) ->
    (c <> -1 -> c <> 1 -> ports s1 !! q = ports s !! q) ->
    let '(r, s') := apply_changes en l s1 in
    server_ok s' /\ no_panic r /\ accessKeys s' = accessKeys s /\ nextLoc s' = nextLoc s /\
    kept_or_new ((q, c) :: l) s s' /\
    (forall p, (p, -1) ∉ (q, c) :: l -> (p, 1) ∉ (q, c) :: l -> ports s' !! p = ports s !! p) /\
    (r = Ret tt -> forall p, (p, 1) ∈ (q, c) :: l -> is_Some (ports s' !! p))) as Hgo.
  { intros s1 Hok1 Ht Hpo Hc Hself. specialize (IH s1 Hok1 (Hnew' s1 Ht) Hnd).
    destruct (apply_changes en l s1) as [r s']. destruct IH as (A1 & A2 & A3 & A4 & A5 & A6 & A7).
    split_and!; try done; [by rewrite A3, (t_keys _ _ _ Ht)|by rewrite A4, (t_loc _ _ _ Ht)| | |].
    - by eapply kept_or_new_step.
    - intros p [Hp1 Hp2]%not_elem_of_cons [Hp3 Hp4]%not_elem_of_cons. rewrite A6 by done.
      destruct (decide (p = q)) as [->|]; [apply Hself; congruence|by apply Ht].
    - intros Hr p [[= -> <-]|Hp]%elem_of_cons; [rewrite A6 by done; by apply Hc|by apply A7]. }
  destruct (decide (c = -1)) as [->|]; [|destruct (decide (c = 1)) as [->|]].
  - pose proof (removePort_touches en q s) as Ht. pose proof (removePort_ok en q s Hok) as Hok1.
    pose proof (removePort_other en q s) as Hpo.
    destruct (removePort en q s) as [[u|e|m] s1] eqn:E; simpl in *.
    + apply Hgo; try done. intros port Hp. left. by apply Hpo.
    + split_and!; try done; try apply Ht; [apply kept_or_new_last; [done|intros port Hp; left; by apply Hpo]|].
      intros p [Hp1 _]%not_elem_of_cons [Hp2 _]%not_elem_of_cons. apply Ht. congruence.
    + unfold removePort in E. destruct (ports s !! q), (tcpStop en q), (udpStop en q); done.
  - assert (ports s !! q = None) as Hqn by (apply Hnew; left).
    pose proof (startPort_touches en q s) as Ht.
    pose proof (startPort_ok en q s Hok Hqn) as Hok1.
    pose proof (startPort_new en q s Hqn) as Hpo.
    destruct (startPort en q s) as [[u|e|m] s1] eqn:E; simpl in *.
    + apply Hgo; try done. intros _. unfold startPort, ListenTCP, ListenUDP in E.
      destruct (listen (tcpBind en) q _); [done|]. simpl in E.
      destruct (listen (udpBind en) q _); [done|]. injection E as _ <-. simpl.
      by rewrite lookup_insert_eq.
    + split_and!; try done; try apply Ht; [by apply kept_or_new_last|]. intros p [Hp1 _]%not_elem_of_cons [Hp2 _]%not_elem_of_cons. apply Ht. congruence.
    + unfold startPort, ListenTCP, ListenUDP in E.
      destruct (listen (tcpBind en) q _); [done|]. simpl in E.
      destruct (listen (udpBind en) q _); done.
  - apply Hgo; [done|by split|intros port Hp; by left|done|done].
Qed.

(** When nothing is refused, the changes are made. *)
Lemma apply_changes_done en l s :
  server_ok s -> NoDup l.*1 ->
  (forall p, (p, -1) ∈ l -> is_Some (ports s !! p) /\ tcpStop en p = None /\ udpStop en p = None) ->
  (forall p, (p, 1) ∈ l -> ports s !! p = None /\ bindable en p s) ->
  let '(r, s') := apply_changes en l s in
  r = Ret tt /\
  (forall p, (p, -1) ∈ l -> ports s' !! p = None) /\
  (forall p, (p, 1) ∈ l -> exists port, ports s' !! p = Some port /\
     pcipherList port = NewCipherList) /\
  (forall p, (p, -1) ∉ l -> (p, 1) ∉ l -> ports s' !! p = ports s !! p).
Proof.
  revert s. induction l as [|[q c] l IH]; intros s Hok Hnd Hrem Hadd; simpl.
  { split_and!; [done|intros p Hp; by apply elem_of_nil in Hp..|done]. }
  apply NoDup_cons in Hnd as [Hq Hnd].
  assert (forall p c, (p, c) ∈ l -> p <> q) as Hne.
  { intros p c' Hp ->. apply Hq, list_elem_of_fmap. by exists (q, c'). }
  assert (forall s1, server_ok s1 -> touches q s s1 ->
    let '(r, s') := apply_changes en l s1 in
    r = Ret tt /\ ports s' !! q = ports s1 !! q /\
    (forall p, (p, -1) ∈ l -> ports s' !! p = None) /\
    (forall p, (p, 1) ∈ l -> exists port, ports s' !! p = Some port /\
       pcipherList port = NewCipherList) /\
    (forall p, p <> q -> (p, -1) ∉ l -> (p, 1) ∉ l -> ports s' !! p = ports s !! p)) as Hgo.
  { intros s1 Hok1 Ht. specialize (IH s1 Hok1 Hnd).
    destruct (apply_changes en l s1) as [r s']. destruct IH as (A1 & A2 & A3 & A4).
    - intros p Hp. rewrite (t_ports _ _ _ Ht) by (by eapply Hne). apply Hrem. by right.
    - intros p Hp. pose proof (Hne _ _ Hp). rewrite (t_ports _ _ _ Ht) by done.
      destruct (Hadd p ltac:(by right)). split; [done|]. by eapply bindable_touches.
    - split_and!; try done.
      + apply A4; intros Hin; by apply Hne in Hin.
      + intros p Hpq H1 H2. rewrite A4 by done. by apply Ht. }
  assert (forall s' : SSServer,
    (forall p, p <> q -> (p, -1) ∉ l -> (p, 1) ∉ l -> ports s' !! p = ports s !! p) ->
    (c <> -1 -> c <> 1 -> ports s' !! q = ports s !! q) ->
    forall p, (p, -1) ∉ (q, c) :: l -> (p, 1) ∉ (q, c) :: l -> ports s' !! p = ports s !! p) as Hlast.
  { intros s' Ho Hself p [H1 H2]%not_elem_of_cons [H3 H4]%not_elem_of_cons.
    destruct (decide (p = q)) as [->|]; [|by apply Ho]. apply Hself; congruence. }
  destruct (decide (c = -1)) as [->|]; [|destruct (decide (c = 1)) as [->|]].
  - destruct (Hrem q ltac:(by left)) as (Hin & H1 & H2).
    destruct (removePort_done en q s Hin H1 H2) as [E Hg].
    pose proof (removePort_touches en q s) as Ht. pose proof (removePort_ok en q s Hok) as Hok1.
    destruct (removePort en q s) as [r1 s1]. simpl in *. subst r1.
    specialize (Hgo s1 Hok1 Ht). destruct (apply_changes en l s1) as [r s'].
    destruct Hgo as (A1 & A2 & A3 & A4 & A5). split_and!; [done| | |by apply Hlast].
    + intros p [[= ->]|Hp]%elem_of_cons; [by rewrite A2|by apply A3].
    + intros p [?|Hp]%elem_of_cons; [done|by apply A4].
  - destruct (Hadd q ltac:(by left)) as (Hin & Hb).
    destruct (startPort_bindable en q s Hb) as (port & Hpc & Hg & E).
    pose proof (startPort_touches en q s) as Ht. pose proof (startPort_ok en q s Hok Hin) as Hok1.
    destruct (startPort en q s) as [r1 s1]. simpl in *. subst r1.
    specialize (Hgo s1 Hok1 Ht). destruct (apply_changes en l s1) as [r s'].
    destruct Hgo as (A1 & A2 & A3 & A4 & A5). split_and!; [done| | |by apply Hlast].
    + intros p [?|Hp]%elem_of_cons; [done|by apply A3].
    + intros p [[= ->]|Hp]%elem_of_cons; [exists port; by rewrite A2|by apply A4].
  - specialize (Hgo s Hok ltac:(by split)). destruct (apply_changes en l s) as [r s'].
    destruct Hgo as (A1 & A2 & A3 & A4 & A5). split_and!; [done| | |by apply Hlast].
    + intros p [[= -> <-]|Hp]%elem_of_cons; [done|by apply A3].
    + intros p [[= -> <-]|Hp]%elem_of_cons; [done|by apply A4].
Qed.

(** ** Lemmas: the keys *)

Lemma count_ports_lookup (ps : gmap Z ssPort) ch p :
  count_ports ps ch !! p =
  if decide (is_Some (ps !! p)) then Some (default 0 (ch !! p) - 1) else ch !! p.
Proof.
  unfold count_ports.
  assert (forall ks, NoDup ks ->
    foldl (fun ch (port : Z) => <[port := default 0 (ch !! port) - 1]> ch) ch ks !! p =
    if decide (p ∈ ks) then Some (default 0 (ch !! p) - 1) else ch !! p) as Hfold.
  { clear ps. intros ks. revert ch. induction ks as [|k ks IH]; intros ch Hnd; [done|].
    apply NoDup_cons in Hnd as [Hk Hnd]. simpl. rewrite IH by done.
    destruct (decide (p = k)) as [->|Hne].
    - rewrite decide_False, lookup_insert_eq by done.
      destruct (decide (k ∈ k :: ks)) as [_|Hn]; [done|]. destruct Hn. left.
    - rewrite lookup_insert_ne by done.
      destruct (decide (p ∈ ks)), (decide (p ∈ k :: ks)) as [Hp|Hp]; try done.
      + destruct Hp. by right.
      + by apply elem_of_cons in Hp as [?|?]. }
  rewrite Hfold by apply NoDup_fst_map_to_list.
  destruct (decide _) as [Hp|Hp], (decide _) as [Hp'|Hp']; try done.
  - destruct Hp'. by apply elem_of_keys.
  - destruct Hp. by apply elem_of_keys.
Qed.

Section Keys.
Context `{CryptoLaws}.

(** The entry of a key. *)
Definition entry_for (k : Key) (e : CipherEntry) : Prop :=
  exists c, NewCipher (kCipher k) (kSecret k) = Ret c /\
    e = MakeCipherEntry (loc e) (kID k) c (kSecret k).

Definition on_port (p : Z) (data : list Key) : list Key := filter (fun k => kPort k = p) data.

Definition valid_key (k : Key) : Prop :=
  exists c, NewCipher (kCipher k) (kSecret k) = Ret c.

Lemma load_keys_spec data ch pc next :
  let '(r, next') := load_keys data ch pc next in
  (next <= next')%nat /\ no_panic r /\
  ((exists x, r = Ret x) <-> Forall valid_key data) /\
  forall ch' pc', r = Ret (ch', pc') ->
  (forall p, ch' !! p = if decide (p ∈ kPort <$> data) then Some 1 else ch !! p) /\
  (forall p, is_Some (pc' !! p) <-> is_Some (pc !! p) \/ p ∈ kPort <$> data) /\
  forall p, exists es, default [] (pc' !! p) = default [] (pc !! p) ++ es /\
    Forall2 entry_for (on_port p data) es /\
    NoDup (loc <$> es) /\ Forall (fun e => next <= loc e < next')%nat es.
Proof.
  revert ch pc next. induction data as [|k data IH]; intros ch pc next; simpl.
  { split_and!; [lia|done|split; [constructor|eauto]|].
    intros ch' pc' [= <- <-]. split_and!; [done|set_solver|].
    intros p. exists []. rewrite app_nil_r. split_and!; constructor. }
  destruct (NewCipher (kCipher k) (kSecret k)) as [c|e|m] eqn:Ec.
  - set (entry := MakeCipherEntry next (kID k) c (kSecret k)).
    specialize (IH (<[kPort k := 1]> ch)
      (<[kPort k := default [] (pc !! kPort k) ++ [entry]]> pc) (S next)).
    destruct (load_keys data _ _ _) as [r next']. destruct IH as (A1 & A2 & A3 & A4).
    split_and!; [lia|done| |].
    + rewrite A3, Forall_cons. split; [intros Hd; split; [by exists c|done]|by intros [_ ?]].
    + intros ch' pc' Hr. destruct (A4 ch' pc' Hr) as (B1 & B2 & B3). split_and!.
      * intros p. rewrite B1. destruct (decide (p ∈ kPort <$> data)) as [Hin|Hout].
        { rewrite decide_True; [done|]. by right. }
        destruct (decide (p = kPort k)) as [->|Hne].
        { rewrite lookup_insert_eq, decide_True; [done|]. left. }
        rewrite lookup_insert_ne by done. rewrite decide_False; [done|].
        by intros [?|?]%elem_of_cons.
      * intros p. rewrite B2, elem_of_cons.
        destruct (decide (p = kPort k)) as [->|Hne].
        { rewrite lookup_insert_eq. split; [by auto|left; eauto]. }
        rewrite lookup_insert_ne by done. naive_solver.
      * intros p. destruct (B3 p) as (es & E & HF & Hnd & Hb).
        unfold on_port in *. rewrite filter_cons.
        destruct (decide (kPort k = p)) as [<-|Hne].
        { rewrite lookup_insert_eq in E. simpl in E. exists (entry :: es).
          rewrite E, <- app_assoc. simpl. split_and!; [done| | |].
          - constructor; [|done]. by exists c.
          - apply NoDup_cons. split; [|done]. intros (e & He & Hin)%list_elem_of_fmap.
            rewrite Forall_forall in Hb. specialize (Hb e Hin). rewrite <- He in Hb.
            simpl in Hb. lia.
          - constructor; [simpl; lia|]. eapply Forall_impl; [done|]. simpl. lia. }
        rewrite lookup_insert_ne in E by done. exists es. split_and!; try done.
        eapply Forall_impl; [done|]. simpl. lia.
  - split_and!; [done|done| |done]. split; [by intros [? ?]|].
    intros [[c Hc] _]%Forall_cons. congruence.
  - unfold NewCipher, getAEADSpec in Ec. by destruct (list_find _ _) as [[? ?]|].
Qed.

End Keys.

Lemma update_lists_done lists s :
  NoDup lists.*1 -> (forall p, p ∈ lists.*1 -> is_Some (ports s !! p)) ->
  let '(r, s') := update_lists lists s in
  r = Ret tt /\ sockets s' = sockets s /\ accessKeys s' = accessKeys s /\ nextLoc s' = nextLoc s /\
  (forall p, p ∉ lists.*1 -> ports s' !! p = ports s !! p) /\
  (forall p es, (p, es) ∈ lists -> exists port, ports s !! p = Some port /\
     ports s' !! p = Some (set_pcipherList (Update es (pcipherList port)) port)).
Proof.
  revert s. induction lists as [|[q l] lists IH]; intros s Hnd Hin; simpl.
  { split_and!; try done. intros p es Hp. by apply elem_of_nil in Hp. }
  apply NoDup_cons in Hnd as [Hq Hnd].
  destruct (Hin q ltac:(by left)) as [port Hport]. rewrite Hport.
  set (s1 := set_ports _ s). specialize (IH s1 Hnd).
  destruct (update_lists lists s1) as [r s']. destruct IH as (A1 & A2 & A3 & A4 & A5 & A6).
  { intros p Hp. unfold s1. simpl. destruct (decide (p = q)) as [->|].
    - by rewrite lookup_insert_eq.
    - rewrite lookup_insert_ne by done. apply Hin. by right. }
  split_and!; try done.
  - intros p [H1 H2]%not_elem_of_cons. rewrite A5 by done. by apply lookup_insert_ne.
  - intros p es [[= -> ->]|Hp]%elem_of_cons.
    + exists port. split; [done|]. rewrite A5 by done. apply lookup_insert_eq.
    + destruct (A6 p es Hp) as (port' & H1 & H2). exists port'. split; [|done].
      unfold s1 in H1. simpl in H1. rewrite lookup_insert_ne in H1; [done|].
      intros ->. apply Hq, list_elem_of_fmap. by exists (p, es).
Qed.

(** ** Lemmas: a reload *)

Section Reload.
Context `{CryptoLaws}.

Lemma server_ok_next s n :
  (nextLoc s <= n)%nat -> server_ok s ->
  server_ok (MkServer (ports s) (sockets s) (accessKeys s) n).
Proof.
  intros Hn [Hp Ht Hu He]. split; try done. intros p port Hpo.
  destruct (He p port Hpo) as [? Hl]. split; [done|]. eapply Forall_impl; [done|]. simpl. lia.
Qed.

(** What the counts say of a port. *)
Lemma changes_spec (data : list Key) ch s p :
  (forall p, ch !! p = if decide (p ∈ kPort <$> data) then Some 1 else None) ->
  let changes := count_ports (ports s) ch in
  (changes !! p = Some (-1) <-> is_Some (ports s !! p) /\ p ∉ kPort <$> data) /\
  (changes !! p = Some 1 <-> ports s !! p = None /\ p ∈ kPort <$> data).
Proof.
  intros Hch. simpl. rewrite count_ports_lookup, Hch.
  destruct (decide (is_Some (ports s !! p))) as [Hs|Hs], (decide (p ∈ kPort <$> data)) as [Hd|Hd];
    simpl; split; split; try done; try tauto; try (intros [? ?]; try tauto; congruence).
  - intros [E _]. rewrite E in Hs. by destruct Hs.
  - intros _. split; [|done]. by apply eq_None_not_Some.
Qed.

Definition ordered (en : env) : Prop := forall ch, rangeChanges en ch ≡ₚ map_to_list ch.

Lemma changes_elem en ch p c :
  ordered en -> (p, c) ∈ rangeChanges en ch <-> ch !! p = Some c.
Proof. intros Ho. rewrite (Ho ch). apply elem_of_map_to_list. Qed.

Lemma changes_NoDup en ch : ordered en -> NoDup (rangeChanges en ch).*1.
Proof. intros Ho. rewrite (Ho ch). apply NoDup_fst_map_to_list. Qed.

(** The last loop on the loaded keys. *)
Lemma update_loaded (data : list Key) (pc : gmap Z (list CipherEntry)) (n0 : nat) (s : SSServer) :
  server_ok s -> (n0 <= nextLoc s)%nat ->
  (forall p, is_Some (pc !! p) <-> p ∈ kPort <$> data) ->
  (forall p, exists es, default [] (pc !! p) = es /\ Forall2 entry_for (on_port p data) es /\
     NoDup (loc <$> es) /\ Forall (fun e => n0 <= loc e < nextLoc s)%nat es) ->
  (forall p, p ∈ kPort <$> data -> is_Some (ports s !! p)) ->
  let '(r, s') := update_lists (map_to_list pc) s in
  r = Ret tt /\ server_ok s' /\ sockets s' = sockets s /\ accessKeys s' = accessKeys s /\
  (forall p, p ∉ kPort <$> data -> ports s' !! p = ports s !! p) /\
  (forall p port, ports s !! p = Some port -> p ∈ kPort <$> data -> exists es,
     ports s' !! p = Some (set_pcipherList (Update es (pcipherList port)) port) /\
     Forall2 entry_for (on_port p data) es).
Proof.
  intros Hok Hn Hdom Hes Hin. pose proof (update_lists_done (map_to_list pc) s) as Hup.
  destruct (update_lists (map_to_list pc) s) as [r s'].
  destruct Hup as (A1 & A2 & A3 & A4 & A5 & A6); [apply NoDup_fst_map_to_list| |].
  { intros p Hp%elem_of_keys. by apply Hin, Hdom. }
  assert (forall p port, ports s !! p = Some port -> p ∈ kPort <$> data -> exists es,
     ports s' !! p = Some (set_pcipherList (Update es (pcipherList port)) port) /\
     Forall2 entry_for (on_port p data) es /\ NoDup (loc <$> es) /\
     Forall (fun e => n0 <= loc e < nextLoc s)%nat es) as Hnew.
  { intros p port Hp Hd. apply Hdom in Hd as [es Hpc]. destruct (Hes p) as (es' & E & ? & ? & ?).
    rewrite Hpc in E. simpl in E. subst es'. exists es. split_and!; try done.
    apply elem_of_map_to_list in Hpc. destruct (A6 p es Hpc) as (port' & Hp' & ->).
    congruence. }
  assert (forall p, p ∉ kPort <$> data -> ports s' !! p = ports s !! p) as Hold.
  { intros p Hp. apply A5. intros Hk%elem_of_keys. by apply Hp, Hdom. }
  split_and!; try done.
  - destruct Hok as [Hp Ht Hu He]. split; rewrite ?A2; try done.
    + intros p port Hpo. destruct (decide (p ∈ kPort <$> data)) as [Hd|Hd].
      * destruct (Hin p Hd) as [port0 Hp0]. destruct (Hnew p port0 Hp0 Hd) as (es & Hs' & _).
        rewrite Hs' in Hpo. injection Hpo as <-. simpl. by apply Hp.
      * apply Hp. by rewrite <- Hold.
    + intros p port Hpo. rewrite A4. destruct (decide (p ∈ kPort <$> data)) as [Hd|Hd].
      * destruct (Hin p Hd) as [port0 Hp0].
        destruct (Hnew p port0 Hp0 Hd) as (es & Hs' & _ & Hnd & Hb).
        rewrite Hs' in Hpo. injection Hpo as <-. simpl. split; [done|].
        eapply Forall_impl; [done|]. simpl. lia.
      * rewrite Hold in Hpo by done. by apply (He p).
  - intros p port Hp Hd. destruct (Hnew p port Hp Hd) as (es & ? & ? & _). by exists es.
Qed.

(** The last loop neither adds nor removes a port. *)
Lemma updated_dom (users : list Key) (s1 s2 : SSServer) :
  (forall p, is_Some (ports s1 !! p) <-> p ∈ kPort <$> users) ->
  (forall p, p ∉ kPort <$> users -> ports s2 !! p = ports s1 !! p) ->
  (forall p port, ports s1 !! p = Some port -> p ∈ kPort <$> users -> exists es,
     ports s2 !! p = Some (set_pcipherList (Update es (pcipherList port)) port) /\
     Forall2 entry_for (on_port p users) es) ->
  forall p, is_Some (ports s2 !! p) <-> p ∈ kPort <$> users.
Proof.
  intros Hdom Hold Hnew p. destruct (decide (p ∈ kPort <$> users)) as [Hd|Hd].
  - pose proof Hd as [port Hp]%Hdom. destruct (Hnew p port Hp Hd) as (es & -> & _). done.
  - by rewrite Hold, Hdom.
Qed.

(** The changes, when nothing is refused. *)
Lemma changes_applied en (users : list Key) ch s :
  server_ok s -> ordered en ->
  (forall p, ch !! p = if decide (p ∈ kPort <$> users) then Some 1 else None) ->
  (forall p, p ∈ kPort <$> users -> ports s !! p = None -> bindable en p s) ->
  (forall p, is_Some (ports s !! p) -> p ∉ kPort <$> users ->
     tcpStop en p = None /\ udpStop en p = None) ->
  let '(r, s1) := apply_changes en (rangeChanges en (count_ports (ports s) ch)) s in
  r = Ret tt /\ server_ok s1 /\ nextLoc s1 = nextLoc s /\
  (forall p, is_Some (ports s1 !! p) <-> p ∈ kPort <$> users) /\
  (forall p port, ports s !! p = Some port -> p ∈ kPort <$> users -> ports s1 !! p = Some port).
Proof.
  intros Hok Hord Hch' Hbind Hstop. set (changes := count_ports (ports s) ch).
  pose proof (apply_changes_done en (rangeChanges en changes) s Hok
                (changes_NoDup en changes Hord)) as Hdone.
  pose proof (apply_changes_frame en (rangeChanges en changes) s Hok) as Hframe.
  destruct (apply_changes en (rangeChanges en changes) s) as [r1 s1].
  destruct Hdone as (-> & Hrem & Hadd & Hkeep).
  { intros p [H1 H2]%changes_elem%(changes_spec users ch s p Hch'); [|done].
    split; [done|]. by apply Hstop. }
  { intros p [H1 H2]%changes_elem%(changes_spec users ch s p Hch'); [|done].
    split; [done|]. by apply Hbind. }
  destruct Hframe as (Hok1 & _ & _ & Hloc & _ & _ & _).
  { intros p [? _]%changes_elem%(changes_spec users ch s p Hch'); done. }
  { by apply changes_NoDup. }
  split_and!; [done|done|done| |].
  - intros p. destruct (changes_spec users ch s p Hch') as [C1 C2].
    destruct (decide (p ∈ kPort <$> users)) as [Hd|Hd]; destruct (ports s !! p) as [port|] eqn:Hp.
    + rewrite Hkeep; [by rewrite Hp|intros [_ ?]%changes_elem%C1; done|].
      intros [E _]%changes_elem%C2; [congruence|done].
    + destruct (Hadd p) as (port & E & _); [apply changes_elem; [done|]; by apply C2|].
      by rewrite E.
    + rewrite Hrem; [split; [by intros [? ?]|done]|]. apply changes_elem; [done|].
      apply C1. by split.
    + rewrite Hkeep; [rewrite Hp; split; [by intros [? ?]|done]| |].
      * intros [[? E] _]%changes_elem%C1; [|done]. done.
      * by intros [_ ?]%changes_elem%C2.
  - intros p port Hp Hd. destruct (changes_spec users ch s p Hch') as [C1 C2].
    rewrite Hkeep; [done|by intros [_ ?]%changes_elem%C1|].
    intros [E _]%changes_elem%C2; [|done]. congruence.
Qed.

(** The changes, whatever is refused. *)
Lemma changes_any en (users : list Key) ch s :
  server_ok s -> ordered en ->
  (forall p, ch !! p = if decide (p ∈ kPort <$> users) then Some 1 else None) ->
  let '(r, s1) := apply_changes en (rangeChanges en (count_ports (ports s) ch)) s in
  server_ok s1 /\ no_panic r /\ accessKeys s1 = accessKeys s /\ nextLoc s1 = nextLoc s /\
  (forall p port, ports s !! p = Some port -> p ∈ kPort <$> users -> ports s1 !! p = Some port) /\
  (forall p port, ports s1 !! p = Some port -> ports s !! p = Some port \/
     ports s !! p = None /\ p ∈ kPort <$> users /\ pcipherList port = NewCipherList) /\
  (r = Ret tt -> forall p, p ∈ kPort <$> users -> is_Some (ports s1 !! p)).
Proof.
  intros Hok Hord Hch'. set (changes := count_ports (ports s) ch).
  pose proof (apply_changes_frame en (rangeChanges en changes) s Hok) as Hframe.
  destruct (apply_changes en (rangeChanges en changes) s) as [r1 s1].
  destruct Hframe as (Hok1 & Hnp1 & Hk1 & Hloc & Hpo & Hother & Hstarted).
  { intros p [? _]%changes_elem%(changes_spec users ch s p Hch'); done. }
  { by apply changes_NoDup. }
  assert (forall p port, ports s !! p = Some port -> p ∈ kPort <$> users ->
    ports s1 !! p = Some port) as Hkept.
  { intros p port Hp Hd. destruct (changes_spec users ch s p Hch') as [C1 C2].
    rewrite Hother; [done|by intros [_ ?]%changes_elem%C1|].
    intros [E _]%changes_elem%C2; [|done]. congruence. }
  split_and!; try done.
  - intros p port [Hp|(Hp & Hin & ?)]%Hpo; [by left|right]. split_and!; [done| |done].
    destruct (changes_spec users ch s p Hch') as [_ C2]. by apply changes_elem, C2 in Hin as [_ ?].
  - intros Hr p Hd. destruct (ports s !! p) as [port|] eqn:Hp; [rewrite (Hkept p port); eauto|].
    destruct (changes_spec users ch s p Hch') as [_ C2].
    apply Hstarted; [done|]. apply changes_elem; [done|]. by apply C2.
Qed.

End Reload.

(** ** Lemmas: polling *)

(** The map holds the hash of each of its keys. *)
Definition hashed (hash : gmap Key Z) : Prop := forall k v, hash !! k = Some v -> v = Hash k.

Lemma check_loop_spec users doNew hash :
  hashed hash ->
  let '(doNew', hash') := foldl check_step (doNew, hash) users in
  hashed hash' /\
  (forall k, is_Some (hash' !! k) <-> k ∈ users \/ is_Some (hash !! k)) /\
  (doNew' = false <-> doNew = false /\ forall k, k ∈ users -> is_Some (hash !! k)).
Proof.
  revert doNew hash. induction users as [|u users IH]; intros doNew hash Hh; simpl.
  { split_and!; [done|set_solver|]. split; [intros ->; split; [done|set_solver]|by intros [? _]]. }
  set (d := if negb (bool_decide _) then true else _).
  assert (d = false <-> doNew = false /\ is_Some (hash !! u)) as Hd.
  { unfold d. destruct (hash !! u) as [v|] eqn:Hu; simpl.
    - apply Hh in Hu as ->. rewrite !bool_decide_eq_true_2 by done. simpl.
      split; [intros ->; done|by intros [? _]].
    - destruct (negb (bool_decide (0 = Hash u))); split; try done; intros [_ [? ?]]; done. }
  clearbody d. specialize (IH d (<[u := Hash u]> hash)).
  destruct (foldl check_step _ users) as [doNew' hash']. destruct IH as (A1 & A2 & A3).
  { intros k v [[<- <-]|[_ Hk]]%lookup_insert_Some; [done|by apply Hh]. }
  assert (forall k, is_Some (<[u := Hash u]> hash !! k) <-> k = u \/ is_Some (hash !! k)) as Hi.
  { intros k. rewrite lookup_insert_is_Some. destruct (decide (u = k)); naive_solver. }
  split_and!; [done| |].
  - intros k. rewrite A2, Hi, elem_of_cons. tauto.
  - rewrite A3, Hd. split.
    + intros ((-> & Hu) & Hall). split; [done|]. intros k [->|Hk]%elem_of_cons; [done|].
      apply Hall, Hi in Hk as [->|?]; done.
    + intros (-> & Hall). split; [split; [done|apply Hall; left]|].
      intros k Hk. apply Hi. right. apply Hall. by right.
Qed.

Lemma hashed_make : hashed make_hash.
Proof. intros k v Hk. unfold make_hash in Hk. by rewrite lookup_empty in Hk. Qed.

Lemma check_users_spec users hash :
  hashed hash ->
  let '(doNew, hash') := check_users users hash in
  hashed hash' /\
  (forall k, is_Some (hash' !! k) <->
     k ∈ users \/ (length users = size hash /\ is_Some (hash !! k))) /\
  (doNew = false <-> length users = size hash /\ forall k, k ∈ users -> is_Some (hash !! k)).
Proof.
  intros Hh. unfold check_users. case_bool_decide as Hlen; simpl.
  - pose proof (check_loop_spec users false hash Hh) as Hl.
    destruct (foldl check_step _ users) as [doNew hash']. destruct Hl as (A1 & A2 & A3).
    split_and!; [done|intros k; rewrite A2; naive_solver|rewrite A3; naive_solver].
  - pose proof (check_loop_spec users true make_hash hashed_make) as Hl.
    destruct (foldl check_step _ users) as [doNew hash']. destruct Hl as (A1 & A2 & A3).
    split_and!; [done| |rewrite A3; split; by intros [? _]].
    intros k. rewrite A2. unfold make_hash. rewrite lookup_empty.
    split; [intros [?|[? ?]]; [by left|done]|intros [?|[? _]]; [by left|done]].
Qed.

Lemma hash_size (users : list Key) (hash : gmap Key Z) :
  NoDup users -> (forall k, is_Some (hash !! k) <-> k ∈ users) -> size hash = length users.
Proof.
  intros Hnd Hall. rewrite <- size_dom, <- (size_list_to_set (C := gset Key) users Hnd).
  f_equal. apply set_eq. intros k. by rewrite elem_of_list_to_set, elem_of_dom, Hall.
Qed.

(** What a poll can miss: a user that left and comes back while the number of
    users is that of the keys remembered meanwhile.  The third poll does not
    reload, although [b] is not among the users loaded by the second. *)
Lemma poll_missed (a b c : Key) :
  a <> b -> a <> c -> b <> c ->
  let h1 := snd (check_users [a; b] make_hash) in
  let h2 := snd (check_users [a; c] h1) in
  fst (check_users [a; b; c] h2) = false.
Proof.
  intros Hab Hac Hbc. cbn zeta.
  pose proof (check_users_spec [a; b] make_hash hashed_make) as H1.
  destruct (check_users [a; b] make_hash) as [d1 h1]. destruct H1 as (V1 & D1 & _).
  assert (size h1 = 2%nat) as S1.
  { apply (hash_size [a; b]); [repeat constructor; set_solver|].
    intros k. rewrite D1. unfold make_hash. rewrite lookup_empty.
    split; [intros [?|[_ [? ?]]]; done|by left]. }
  pose proof (check_users_spec [a; c] h1 V1) as H2. cbn [snd].
  destruct (check_users [a; c] h1) as [d2 h2]. destruct H2 as (V2 & D2 & _).
  assert (forall k, is_Some (h2 !! k) <-> k ∈ [a; b; c]) as D2'.
  { intros k. rewrite D2, D1, S1. simpl. set_solver. }
  pose proof (check_users_spec [a; b; c] h2 V2) as H3. cbn [snd].
  destruct (check_users [a; b; c] h2) as [d3 h3]. destruct H3 as (_ & _ & D3).
  apply D3. rewrite (hash_size [a; b; c] h2); [|repeat constructor; set_solver|done].
  split; [done|]. intros k Hk. by apply D2'.
Qed.

(** A port whose UDP socket is refused keeps its TCP socket: it belongs to no
    port, and while it is open the port cannot be started again. *)
Lemma startPort_leak (en : env) (q : Z) (e : error) (s : SSServer) :
  server_ok s -> listen (tcpBind en) q (tcpSocks (sockets s)) = None -> udpBind en q = Some e ->
  let '(r, s') := startPort en q s in
  r = Err (Errorf "Failed to start UDP on port") /\ ports s' = ports s /\
  (exists id, tcpSocks (sockets s') !! id = Some q /\
     forall p port, ports s' !! p = Some port -> tcpService port <> id) /\
  forall en', q <> 0 -> fst (startPort en' q s') = Err (Errorf "Failed to start TCP on port").
Proof.
  intros Hok Ht Hu. unfold startPort, ListenTCP, ListenUDP. rewrite Ht.
  cbn [sockets tcpSocks udpSocks nextSock]. unfold listen at 1. rewrite Hu. simpl.
  assert (q ∈ values (<[nextSock (sockets s) := q]> (tcpSocks (sockets s)))) as Hin
    by (apply elem_of_values; eexists; apply lookup_insert_eq).
  split_and!; [done|done| |].
  - exists (nextSock (sockets s)). rewrite lookup_insert_eq. split; [done|].
    intros p port Hp E. destruct (so_ports _ Hok p port Hp) as [H1 _].
    apply (so_tcp _ Hok) in H1. lia.
  - intros en' Hq. unfold listen. destruct (tcpBind en' q); [done|].
    by rewrite bool_decide_eq_true_2.
Qed.

(** ** Properties *)

Section Properties.
Context `{CryptoLaws}.

(** A reload nothing refuses. *)
Lemma doRun_success (en : env) (users : list Key) (s : SSServer) :
  server_ok s -> ordered en -> Forall valid_key users ->
  (forall p, p ∈ kPort <$> users -> ports s !! p = None -> bindable en p s) ->
  (forall p, is_Some (ports s !! p) -> p ∉ kPort <$> users ->
     tcpStop en p = None /\ udpStop en p = None) ->
  let '(r, s') := doRun en users s in
  r = Ret tt /\ server_ok s' /\
  (forall p, is_Some (ports s' !! p) <-> p ∈ kPort <$> users) /\
  (forall p port', ports s' !! p = Some port' ->
     Forall2 entry_for (on_port p users) (order (pcipherList port'))) /\
  (forall p port, ports s !! p = Some port -> p ∈ kPort <$> users -> exists port',
     ports s' !! p = Some port' /\ tcpService port' = tcpService port /\
     udpService port' = udpService port /\
     lastClientIP (pcipherList port') = lastClientIP (pcipherList port)) /\
  accessKeys s' = Some (length users, size (list_to_set (C := gset Z) (kPort <$> users))).
Proof.
  intros Hok Hord Hval Hbind Hstop. unfold doRun.
  pose proof (load_keys_spec users ∅ ∅ (nextLoc s)) as Hload.
  destruct (load_keys users ∅ ∅ (nextLoc s)) as [r0 next].
  destruct Hload as (Hn & _ & [_ Hret] & Hload). destruct (Hret Hval) as [[ch pc] ->].
  destruct (Hload ch pc eq_refl) as (Hch & Hpc & Hes). clear Hload Hret.
  set (s0 := MkServer (ports s) (sockets s) (accessKeys s) next).
  assert (server_ok s0) as Hok0 by (by apply server_ok_next).
  set (changes := count_ports (ports s0) ch).
  assert (forall p, ch !! p = if decide (p ∈ kPort <$> users) then Some 1 else None) as Hch'
    by (intros p; by rewrite Hch).
  assert (forall p, is_Some (pc !! p) <-> p ∈ kPort <$> users) as Hpc'.
  { intros p. rewrite Hpc, lookup_empty. split; [by intros [[? ?]|?]|by right]. }
  pose proof (changes_applied en users ch s0 Hok0 Hord Hch' Hbind Hstop) as Happ.
  fold changes in Happ. destruct (apply_changes en (rangeChanges en changes) s0) as [r1 s1].
  destruct Happ as (-> & Hok1 & Hloc & Hdom1 & Hkept).
  pose proof (update_loaded users pc (nextLoc s) s1 Hok1) as Hup.
  destruct (update_lists (map_to_list pc) s1) as [r2 s2].
  destruct Hup as (-> & Hok2 & Hsock & _ & Hold & Hnew);
    [by rewrite Hloc|done|by intros p; rewrite Hloc; apply Hes|by intros p; apply Hdom1|].
  assert (forall p, is_Some (ports s2 !! p) <-> p ∈ kPort <$> users) as Hdom2
    by (by eapply updated_dom).
  split_and!; [done| |done| | |].
  - destruct Hok2. by split.
  - intros p port' Hp'. simpl in Hp'.
    assert (p ∈ kPort <$> users) as Hd by (apply Hdom2; by rewrite Hp').
    pose proof Hd as [port Hp]%Hdom1. destruct (Hnew p port Hp Hd) as (es & E & HF).
    rewrite Hp' in E. by injection E as ->.
  - intros p port Hp Hd.
    destruct (Hnew p port (Hkept p port Hp Hd) Hd) as (es & E & _). eexists. split; [exact E|done].
  - simpl. do 2 f_equal. rewrite <- size_dom. f_equal. apply set_eq. intros p.
    by rewrite elem_of_dom, elem_of_list_to_set.
Qed.

(** C22: a reload that meets no refusal succeeds and makes the server what the
    users ask for: the ports served are exactly those of the users; each
    port's keys are exactly its users', in their order; a port that was served
    before keeps its sockets and the clients' last addresses, so that its
    connections are not interrupted; and the counts are reported. *)
Theorem reload_success (en : env) (users : list Key) (s : SSServer) :
  server_ok s -> ordered en -> Forall valid_key users ->
  (forall p, p ∈ kPort <$> users -> ports s !! p = None -> bindable en p s) ->
  (forall p, is_Some (ports s !! p) -> p ∉ kPort <$> users ->
     tcpStop en p = None /\ udpStop en p = None) ->
  let '(r, s') := doRun en users s in
  r = Ret tt /\ server_ok s' /\
  (forall p, is_Some (ports s' !! p) <-> p ∈ kPort <$> users) /\
  (forall p port', ports s' !! p = Some port' ->
     Forall2 entry_for (on_port p users) (order (pcipherList port'))) /\
  (forall p port, ports s !! p = Some port -> p ∈ kPort <$> users -> exists port',
     ports s' !! p = Some port' /\ tcpService port' = tcpService port /\
     udpService port' = udpService port /\
     lastClientIP (pcipherList port') = lastClientIP (pcipherList port)) /\
  accessKeys s' = Some (length users, size (list_to_set (C := gset Z) (kPort <$> users))).
Proof. apply doRun_success. Qed.

(** Any reload. *)
Lemma doRun_any (en : env) (users : list Key) (s : SSServer) :
  server_ok s -> ordered en ->
  let '(r, s') := doRun en users s in
  server_ok s' /\ no_panic r /\
  (~ Forall valid_key users -> r <> Ret tt /\ ports s' = ports s /\ sockets s' = sockets s /\
     accessKeys s' = accessKeys s) /\
  (r <> Ret tt -> accessKeys s' = accessKeys s /\
     (forall p port, ports s !! p = Some port -> p ∈ kPort <$> users -> ports s' !! p = Some port) /\
     forall p port, ports s' !! p = Some port ->
       ports s !! p = Some port \/
       ports s !! p = None /\ p ∈ kPort <$> users /\ pcipherList port = NewCipherList) /\
  (r = Ret tt -> forall p, p ∈ kPort <$> users -> exists port',
     ports s' !! p = Some port' /\
     Forall2 entry_for (on_port p users) (order (pcipherList port')) /\
     forall port, ports s !! p = Some port ->
       tcpService port' = tcpService port /\ udpService port' = udpService port).
Proof.
  intros Hok Hord. unfold doRun.
  pose proof (load_keys_spec users ∅ ∅ (nextLoc s)) as Hload.
  destruct (load_keys users ∅ ∅ (nextLoc s)) as [r0 next].
  destruct Hload as (Hn & Hnp & Hret & Hload).
  set (s0 := MkServer (ports s) (sockets s) (accessKeys s) next).
  assert (server_ok s0) as Hok0 by (by apply server_ok_next).
  destruct r0 as [[ch pc]|e|m]; [|split_and!; try done; intros _; split_and!; [done|done|by left]
                                 |by destruct (Hnp m)].
  assert (Forall valid_key users) as Hval by (apply Hret; eauto).
  destruct (Hload ch pc eq_refl) as (Hch & Hpc & Hes). clear Hload Hret Hnp.
  assert (forall p, ch !! p = if decide (p ∈ kPort <$> users) then Some 1 else None) as Hch'
    by (intros p; by rewrite Hch).
  assert (forall p, is_Some (pc !! p) <-> p ∈ kPort <$> users) as Hpc'.
  { intros p. rewrite Hpc, lookup_empty. split; [by intros [[? ?]|?]|by right]. }
  pose proof (changes_any en users ch s0 Hok0 Hord Hch') as Happ.
  destruct (apply_changes en (rangeChanges en (count_ports (ports s0) ch)) s0) as [r1 s1].
  destruct Happ as (Hok1 & Hnp1 & Hk1 & Hloc & Hkept & Hpo & Hstarted).
  destruct r1 as [[]|e|m]; [|by split_and!|by destruct (Hnp1 m)].
  pose proof (update_loaded users pc (nextLoc s) s1 Hok1) as Hup.
  destruct (update_lists (map_to_list pc) s1) as [r2 s2].
  destruct Hup as (-> & Hok2 & _ & _ & _ & Hnew);
    [by rewrite Hloc|done|by intros p; rewrite Hloc; apply Hes|by apply Hstarted|].
  split_and!; try done; [destruct Hok2; by split|].
  intros _ p Hd. destruct (Hstarted eq_refl p Hd) as [port1 Hp1].
  destruct (Hnew p port1 Hp1 Hd) as (es & E & HF). eexists. split_and!; [exact E|exact HF|].
  intros port Hp. rewrite (Hkept p port Hp Hd) in Hp1. by injection Hp1 as <-.
Qed.

(** C23: a reload never leaves the server broken, whatever fails and in whatever
    order the ports are visited: every port served keeps its own open sockets,
    and nothing panics; a key that is not valid rejects the whole list and
    changes nothing; after any other error every port that is still wanted is
    served with its sockets and keys exactly as before, and any other port was
    either left as it was or is wanted, new and still without keys; and where
    there is no error every port of the users has exactly their keys, on its old
    sockets if it had some. *)
Theorem reload_failure (en : env) (users : list Key) (s : SSServer) :
  server_ok s -> ordered en ->
  let '(r, s') := doRun en users s in
  server_ok s' /\ no_panic r /\
  (~ Forall valid_key users -> r <> Ret tt /\ ports s' = ports s /\ sockets s' = sockets s /\
     accessKeys s' = accessKeys s) /\
  (r <> Ret tt -> accessKeys s' = accessKeys s /\
     (forall p port, ports s !! p = Some port -> p ∈ kPort <$> users -> ports s' !! p = Some port) /\
     forall p port, ports s' !! p = Some port ->
       ports s !! p = Some port \/
       ports s !! p = None /\ p ∈ kPort <$> users /\ pcipherList port = NewCipherList) /\
  (r = Ret tt -> forall p, p ∈ kPort <$> users -> exists port',
     ports s' !! p = Some port' /\
     Forall2 entry_for (on_port p users) (order (pcipherList port')) /\
     forall port, ports s !! p = Some port ->
       tcpService port' = tcpService port /\ udpService port' = udpService port).
Proof. apply doRun_any. Qed.

End Properties.

(** When a poll reloads.  The remembered keys become the users of the poll,
    together with those remembered before when their number was that of the
    users; a poll does not reload exactly if the numbers agree and every user
    was remembered; then, if no user is listed twice, the users are exactly the
    remembered keys; and a poll that finds exactly the remembered keys does not
    reload, so that an unchanged list is not loaded again and again. *)
Theorem poll_spec (users : list Key) (hash : gmap Key Z) :
  hashed hash ->
  let '(doNew, hash') := check_users users hash in
  hashed hash' /\
  (forall k, is_Some (hash' !! k) <->
     k ∈ users \/ (length users = size hash /\ is_Some (hash !! k))) /\
  (doNew = false <-> length users = size hash /\ forall k, k ∈ users -> is_Some (hash !! k)) /\
  (NoDup users -> doNew = false -> forall k, is_Some (hash !! k) <-> k ∈ users) /\
  (NoDup users -> (forall k, is_Some (hash !! k) <-> k ∈ users) -> doNew = false).
Proof.
  intros Hh. pose proof (check_users_spec users hash Hh) as Hs.
  destruct (check_users users hash) as [doNew hash']. destruct Hs as (A1 & A2 & A3).
  split_and!; [done|done|done| |].
  - intros Hnd [Hlen Hall]%A3 k. split; [|apply Hall]. intros Hk.
    rewrite <- (elem_of_list_to_set (C := gset Key)).
    assert (list_to_set (C := gset Key) users = dom hash) as ->; [|by apply elem_of_dom].
    apply set_subseteq_size_eq.
    + intros x. rewrite elem_of_list_to_set, elem_of_dom. apply Hall.
    + rewrite size_dom, size_list_to_set by done. lia.
  - intros Hnd Hall. apply A3. split; [by rewrite (hash_size users)|]. intros k. apply Hall.
Qed.

(** ** The theorems at a concrete reload

    The server has ports 8388 and 9000; the users want 9000 and 9001. *)
Definition ex_env : env :=
  MkEnv (fun _ => None) (fun _ => None) (fun _ => None) (fun _ => None) map_to_list.

Definition ex_users : list Key :=
  [MkKey "alice" 9000 "aes-128-gcm" "s1"; MkKey "bob" 9001 "chacha20-ietf-poly1305" "s2";
   MkKey "carol" 9000 "AES-256-GCM" "s3"].

Definition ex_server : SSServer :=
  MkServer {[8388 := MkSsPort 0 1 NewCipherList; 9000 := MkSsPort 2 3 NewCipherList]}
    (MkOs {[0%nat := 8388; 2%nat := 9000]} {[1%nat := 8388; 3%nat := 9000]} 4) None 0.

Lemma ex_server_ok : server_ok ex_server.
Proof.
  split; simpl.
  - intros p port [[<- <-]|[_ [<- <-]%lookup_singleton_Some]]%lookup_insert_Some; done.
  - intros id p [[<- _]|[_ [<- _]%lookup_singleton_Some]]%lookup_insert_Some; lia.
  - intros id p [[<- _]|[_ [<- _]%lookup_singleton_Some]]%lookup_insert_Some; lia.
  - intros p port [[_ <-]|[_ [_ <-]%lookup_singleton_Some]]%lookup_insert_Some;
      split; constructor.
Qed.

Lemma ex_users_valid : Forall valid_key ex_users.
Proof. repeat constructor; by eexists. Qed.

Lemma reload_success_witness : fst (doRun ex_env ex_users ex_server) = Ret tt.
Proof.
  pose proof (reload_success ex_env ex_users ex_server ex_server_ok (fun ch => reflexivity _)
                ex_users_valid) as Hs.
  destruct (doRun ex_env ex_users ex_server) as [r s']. apply Hs; [|done].
  intros p Hp Hn. assert (p = 9000 \/ p = 9001) as [->| ->] by (simpl in Hp; set_solver).
  - done.
  - split; vm_compute; done.
Defined.

(** The port 9001 is taken: the reload fails, and 9000 keeps what it had. *)
Definition ex_taken : env :=
  MkEnv (fun p => if decide (p = 9001) then Some (Errorf "address already in use") else None)
    (fun _ => None) (fun _ => None) (fun _ => None) map_to_list.

Lemma reload_failure_witness :
  fst (doRun ex_taken ex_users ex_server) <> Ret tt /\
  ports (snd (doRun ex_taken ex_users ex_server)) !! 9000 = Some (MkSsPort 2 3 NewCipherList).
Proof.
  assert (match fst (doRun ex_taken ex_users ex_server) with Ret _ => false | _ => true end = true)
    as Hf by (vm_compute; reflexivity).
  pose proof (reload_failure ex_taken ex_users ex_server ex_server_ok (fun ch => reflexivity _))
    as Hs.
  destruct (doRun ex_taken ex_users ex_server) as [r s']. cbn [fst snd] in *.
  destruct Hs as (_ & _ & _ & Hs & _). assert (r <> Ret tt) as Hr by (intros ->; discriminate Hf).
  split; [exact Hr|]. apply (Hs Hr); [reflexivity|]. left.
Defined.

Lemma poll_spec_witness : fst (check_users ex_users make_hash) = true.
Proof.
  pose proof (poll_spec ex_users make_hash hashed_make) as Hs.
  destruct (check_users ex_users make_hash) as [[|] hash']; [done|].
  destruct Hs as (_ & _ & Hs & _). destruct (proj1 Hs eq_refl) as [Hl _]. done.
Defined.
