(* ===== verification/Client.v ===== *)
(** * The Shadowsocks client

    [shadowsocks/client/stream_dialer.go] and [packet_listener.go], with
    the adaptor of [net/stream.go]: the dialer that sends the target address
    lazily, together with the first data, and the packet connection that
    frames datagrams with their address. *)
From S2P Require Import Prelude GoIO Cipher ToyCrypto Salt Packet Wire SlicePool.
From S2P Require Import Writer StreamReader Stream PrivateNet Tcp TcpExamples Udp UdpSpec.

Import Writer.

(** ** Streams *)

(** [duplexConnAdaptor]: the connection to the proxy is inside the reader and
    the writer. *)
Record duplexConnAdaptor (R : Type) := MkDuplex {
  dc_r : readConverter.t R;
  dc_w : Writer.t;
}.
Arguments MkDuplex {R} _ _.
Arguments dc_r {R} _.
Arguments dc_w {R} _.

(** The methods of the adaptor; [io.Copy] uses [WriteTo] of the reader and
    [ReadFrom] of the writer. *)
Section Adaptor.
Context `{CryptoOps} {R : Type} `{Reader R}.

Definition duplexConn_Read (p : Pool) (dc : duplexConnAdaptor R) (n : nat)
    : outcome bytes * Pool * duplexConnAdaptor R :=
  let '(b, p, r) := readConverter.Read p (dc_r dc) n in (b, p, MkDuplex r (dc_w dc)).

Definition duplexConn_WriteTo (p : Pool) (dc : duplexConnAdaptor R) (w : Sink)
    : outcome (nat * option error) * Pool * duplexConnAdaptor R * Sink :=
  let '(n, p, r, w) := readConverter.WriteTo p (dc_r dc) w in (n, p, MkDuplex r (dc_w dc), w).

Definition duplexConn_Write (rc : race) (dc : duplexConnAdaptor R) (b : bytes)
    : outcome (nat * option error) * duplexConnAdaptor R :=
  let '(n, w) := Write rc (dc_w dc) b in (n, MkDuplex (dc_r dc) w).

Definition duplexConn_ReadFrom {S : Type} `{Reader S} (rc : race) (dc : duplexConnAdaptor R) (r : S)
    : outcome (nat * option error) * duplexConnAdaptor R * S :=
  let '(n, w, r) := ReadFrom rc (dc_w dc) r in (n, MkDuplex (dc_r dc) w, r).

End Adaptor.

(** [streamDialer]; [endpoint] is what [Connect] gives: the two directions of a
    connection, or an error. *)
Record streamDialer (R : Type) := MkDialer {
  endpoint : (Sink * R) + error;
  cipher : Cipher;
  salter : option SaltGenerator;
}.
Arguments MkDialer {R} _ _ _.
Arguments endpoint {R} _.
Arguments cipher {R} _.
Arguments salter {R} _.

Section Dialer.
Context `{CryptoOps} `{UdpOps} {R : Type} `{Reader R}.

Definition NewShadowsocksStreamDialer (endpoint : option ((Sink * R) + error))
    (cipher : option Cipher) : outcome (streamDialer R) :=
  match endpoint, cipher with
  | None, _ => Err (Errorf "Argument endpoint must not be nil")
  | _, None => Err (Errorf "Argument cipher must not be nil")
  | Some endpoint, Some cipher => Ret (MkDialer endpoint cipher None)
  end.

Definition SetTCPSaltGenerator (salter : option SaltGenerator) (d : streamDialer R) :
    streamDialer R :=
  MkDialer (endpoint d) (cipher d) salter.

(** [Dial]: the connection or the error, and whether the connection to the
    proxy was closed; [ent] is what [crypto/rand] gives the writer.  The
    delayed [Flush] is a later operation on the writer. *)
Definition Dial (c : streamDialer R) (remoteAddr : string) (ent : bytes)
    : outcome (duplexConnAdaptor R) * bool :=
  match ParseAddr remoteAddr with
  | None => (Err (Errorf "Failed to parse target address"), false)
  | Some socksTargetAddr =>
    match endpoint c with
    | inr err => (Err err, false)
    | inl (proxyConn_w, proxyConn_r) =>
      let ssw := NewShadowsocksWriter proxyConn_w (cipher c) ent in
      let ssw := match salter c with Some g => SetSaltGenerator g ssw | None => ssw end in
      match LazyWrite ssw socksTargetAddr with
      | (Panic m, _) => (Panic m, false)
      | (Err _, _) | (Ret (_, Some _), _) => (Err (Errorf "Failed to write target address"), true)
      | (Ret (_, None), ssw) =>
        let ssr := readConverter.NewShadowsocksReader proxyConn_r (cipher c) in
        (Ret (MkDuplex ssr ssw), false)
      end
    end
  end.

End Dialer.

(** ** Packets *)

Definition clientUDPBufferSize : nat := Z.to_nat (16 * 1024).

Section PacketConn.
Context `{CryptoOps} `{SocksOps} `{UdpOps}.

(** [packetListener]; [Connect] gives a connection of type [C] or an error. *)
Record packetListener (C : Type) := MkListener { pl_endpoint : C + error; pl_cipher : Cipher }.
Arguments MkListener {C} _ _.
Arguments pl_endpoint {C} _.
Arguments pl_cipher {C} _.

Definition NewShadowsocksPacketListener {C} (endpoint : option (C + error)) (cipher : option Cipher)
    : outcome (packetListener C) :=
  match endpoint, cipher with
  | None, _ => Err (Errorf "Argument endpoint must not be nil")
  | _, None => Err (Errorf "Argument cipher must not be nil")
  | Some endpoint, Some cipher => Ret (MkListener endpoint cipher)
  end.

(** [packetConn]. *)
Record packetConn (C : Type) := MkPacketConn { pc_Conn : C; pc_cipher : Cipher }.
Arguments MkPacketConn {C} _ _.

Definition ListenPacket {C} (c : packetListener C) : outcome (packetConn C) :=
  match pl_endpoint c with
  | inr err => Err (Wrapf "Could not connect to endpoint" err)
  | inl proxyConn => Ret (MkPacketConn proxyConn (pl_cipher c))
  end.

(** [append(append(cipherBuf[saltSize:saltSize], addr...), b...)]: the buffer
    afterwards, and the slice: in the buffer while it has room, in a new array
    otherwise. *)
Definition append2 (cipherBuf : bytes) (saltSize : nat) (addr b : bytes) : bytes * operand :=
  let off := saltSize + length addr in
  if decide (off <= length cipherBuf) then
    let cipherBuf := splice cipherBuf saltSize addr in
    if decide (off + length b <= length cipherBuf) then
      (splice cipherBuf off b, InBuf saltSize (off + length b))
    else (cipherBuf, Separate (addr ++ b))
  else (cipherBuf, Separate (addr ++ b)).

(** [packetConn.WriteTo(b, addr)]: the result, and what was sent; [cipherBuf] is
    a buffer of the pool, [send] is [c.Conn.Write]. *)
Definition packetConn_WriteTo (c : Cipher) (cipherBuf b : bytes) (addr : string)
    (send : bytes -> nat * option error) (ent : bytes)
    : outcome (nat * option error) * option bytes :=
  match ParseAddr addr with
  | None => (Ret (0, Some (Errorf "Failed to parse target address")), None)
  | Some socksTargetAddr =>
    let saltSize := SaltSize c in
    if decide (length cipherBuf < saltSize) then (Panic "slice bounds out of range", None)
    else
      let '(cipherBuf, plaintextBuf) := append2 cipherBuf saltSize socksTargetAddr b in
      match Pack cipherBuf 0 (length cipherBuf) plaintextBuf c ent with
      | (Panic m, _, _) => (Panic m, None)
      | (Err err, _, _) => (Ret (0, Some err), None)
      | (Ret buf, _, _) =>
        let '(_, err) := send buf in (Ret (length b, err), Some buf)
      end
  end.

(** [packetConn.ReadFrom(b)] with [len(b) = n] when the connection gives [read]:
    the bytes copied, the source address and the error. *)
Definition packetConn_ReadFrom (c : Cipher) (n : nat) (read : bytes + error)
    : outcome (bytes * option string * option error) :=
  match read with
  | inr err => Ret ([], None, Some err)
  | inl pkt =>
    match Unpack None pkt c with
    | Panic m => Panic m
    | Err err => Ret ([], None, Some err)
    | Ret buf =>
      match SplitAddr buf with
      | None => Ret ([], None, Some (Errorf "Failed to read source address"))
      | Some socksSrcAddr =>
        let srcAddr := AddrString socksSrcAddr in
        let rest := drop (length socksSrcAddr) buf in
        let copied := take n rest in
        if decide (n < length buf - length socksSrcAddr)
        then Ret (copied, Some srcAddr, Some ErrShortBuffer)
        else Ret (copied, Some srcAddr, None)
      end
    end
  end.

End PacketConn.

(** ** Lemmas *)

Lemma append2_spec cipherBuf saltSize addr b :
  saltSize <= length cipherBuf ->
  let '(mem, p) := append2 cipherBuf saltSize addr b in
  length mem = length cipherBuf /\ operand_len p = length addr + length b /\
  aligned p (0 + saltSize) (length mem) /\ operand_read mem p = addr ++ b.
Proof.
  intros Hs. unfold append2.
  assert (forall mem : bytes, length mem = length cipherBuf ->
    length mem = length cipherBuf /\ operand_len (Separate (addr ++ b)) = length addr + length b /\
    aligned (Separate (addr ++ b)) (0 + saltSize) (length mem) /\
    operand_read mem (Separate (addr ++ b)) = addr ++ b) as Hsep.
  { intros mem Hm. split_and!; [done|apply length_app|done|done]. }
  case_decide as H1; [|by apply Hsep].
  assert (length (splice cipherBuf saltSize addr) = length cipherBuf) as Hl
    by (apply length_splice; lia).
  case_decide as H2; [|by apply Hsep]. cbn [operand_len operand_read aligned].
  split_and!; rewrite ?length_splice; try lia.
  rewrite (slice_app _ (saltSize + length addr)) by lia. f_equal.
  - rewrite slice_splice_below by lia. apply slice_splice. lia.
  - apply slice_splice. lia.
Qed.

Section ClientLemmas.
Context `{CryptoLaws} `{SocksOps} `{UdpLaws}.

(** Dialing: the address is queued, the writer is otherwise new, and whatever is
    written and flushed afterwards is the stream of the address and the data. *)
Lemma Dial_queued {R : Type} `{ReaderLaws R} (d : streamDialer R) (remoteAddr : string)
    (a : bytes) (w : Sink) (r : R) (ent salt ent' : bytes) :
  let g := default RandomSaltGenerator (salter d) in
  wf_cipher (cipher d) -> endpoint d = inl (w, r) -> written w = [] -> reliable w ->
  ParseAddr remoteAddr = Some a -> length a <= payloadSizeMask ->
  SaltGeneratorLaws g -> GetSalt g (zeros (SaltSize (cipher d))) ent = (None, salt, ent') ->
  exists sw, Dial d remoteAddr ent =
      (Ret (MkDuplex (readConverter.NewShadowsocksReader r (cipher d)) sw), false) /\
    Repr sw salt [] a /\ ssCipher sw = cipher d /\ needFlush sw = true /\
    forall os, few (length (a ++ concat (payload <$> os))) ->
      encrypts (cipher d) salt (a ++ concat (payload <$> os))
        (written (writer (snd (run_ops (os ++ [OpFlush]) sw)))).
Proof.
  intros g Hwf Hend Hw Hrel Hparse Hlen Hg Hsalt.
  set (sw0 := SetSaltGenerator g (NewShadowsocksWriter w (cipher d) ent)).
  pose proof (State_new w (cipher d) g ent salt ent' Hw Hrel Hg Hsalt) as HS. fold sw0 in HS.
  assert (will_use sw0 salt) as Hwill by (split; [by split|]; by exists g, ent').
  destruct (LazyWrite_queued sw0 (cipher d) salt a Hwf eq_refl Hwill ltac:(lia))
    as (sw & E & HR & Hc & Hn).
  exists sw. split_and!; [|done|done|done|].
  - unfold Dial. rewrite Hparse, Hend.
    replace (match salter d with Some g => _ | None => _ end) with sw0
      by (unfold sw0, g; by destruct (salter d)).
    by rewrite E.
  - intros os Hfew. destruct (run_ops_emitted (OpLazyWrite a :: os) sw0 (cipher d) salt Hwf HS Hfew)
      as (sw1 & E1 & Hem).
    simpl in E1. rewrite E in E1. destruct (run_ops (os ++ [OpFlush]) sw) as [rs sw2].
    injection E1 as _ ->. exact Hem.
Qed.

(** Sending a datagram to an address of the encoding [a]. *)
Lemma packetConn_WriteTo_ok (c : Cipher) (cipherBuf a b : bytes) (addr : string)
    (send : bytes -> nat * option error) (ent : bytes) :
  wf_cipher c -> length cipherBuf = clientUDPBufferSize -> SaltSize c <= length ent ->
  ParseAddr addr = Some a ->
  if decide (SaltSize c + length a + length b + TagSize c <= clientUDPBufferSize)
  then exists pkt,
    packetConn_WriteTo c cipherBuf b addr send ent = (Ret (length b, snd (send pkt)), Some pkt) /\
    length pkt = SaltSize c + length a + length b + TagSize c /\
    forall dst, length a + length b <= default (length a + length b) dst ->
      Unpack dst pkt c = Ret (a ++ b)
  else
    packetConn_WriteTo c cipherBuf b addr send ent = (Ret (0, Some ErrShortBuffer), None).
Proof.
  intros Hwf Hbuf Hent Ha. destruct (wf_cipher_sizes _ Hwf) as [Ht Hs].
  assert (112 < clientUDPBufferSize) as Hbig by (unfold clientUDPBufferSize; lia).
  unfold packetConn_WriteTo. rewrite Ha, (decide_False (P := length cipherBuf < SaltSize c)) by lia.
  pose proof (append2_spec cipherBuf (SaltSize c) a b ltac:(lia)) as Happ.
  destruct (append2 cipherBuf (SaltSize c) a b) as [mem p].
  destruct Happ as (Hl & Hol & Hal & Hread). case_decide as Hroom.
  - assert (forall dst, length a + length b <= default (length a + length b) dst -> exists pkt,
      Pack mem 0 (length mem) p c ent = (Ret pkt, splice mem 0 pkt, drop (SaltSize c) ent) /\
      length pkt = SaltSize c + operand_len p + TagSize c /\ Unpack dst pkt c = Ret (a ++ b))
      as HP.
    { intros dst Hd. rewrite <- Hread. edestruct (Pack_roundtrip mem 0 (length mem) p c ent dst)
        as (pkt & ? & ? & _ & ?); try done; [lia..|by rewrite Hol|by exists pkt]. }
    destruct (HP None) as (pkt & E & Hlen & _); [done|]. exists pkt. rewrite E.
    destruct (send pkt) as [m err]. split_and!; [done|lia|].
    intros dst Hd. destruct (HP dst Hd) as (pkt' & E' & _ & HU). congruence.
  - destruct (Pack_short mem 0 (length mem) p c ent Hwf) as (mem' & ent' & -> & _ & _);
      [lia|done|lia|done].
Qed.

(** Receiving a packet from an address whose encoding [a] leads the plaintext. *)
Lemma packetConn_ReadFrom_ok (c : Cipher) (n : nat) (pkt a b : bytes) :
  SplitAddr (a ++ b) = Some a -> Unpack None pkt c = Ret (a ++ b) ->
  packetConn_ReadFrom c n (inl pkt) =
    Ret (take n b, Some (AddrString a),
         if decide (n < length b) then Some ErrShortBuffer else None).
Proof.
  intros Hsplit HU. unfold packetConn_ReadFrom. rewrite HU, Hsplit, drop_app_length.
  rewrite length_app. replace (length a + length b - length a) with (length b) by lia.
  by case_decide.
Qed.

End ClientLemmas.

(** ** Properties *)

Section ClientProperties.
Context `{CryptoLaws} `{SocksOps} `{UdpLaws}.

(** Dialing sends nothing yet; data written before the delayed flush leaves
    in one piece with the salt and the target address, as the first chunk;
    if the flush comes first the salt and the address leave alone; and whatever
    the application does afterwards, the proxy decodes the address followed by
    exactly the application's data. *)
Theorem client_dial {R : Type} `{ReaderLaws R} (d : streamDialer R) (remoteAddr : string)
    (a p : bytes) (w : Sink) (r : R) (ent salt ent' : bytes) :
  let g := default RandomSaltGenerator (salter d) in
  wf_cipher (cipher d) -> endpoint d = inl (w, r) -> written w = [] -> reliable w ->
  ParseAddr remoteAddr = Some a -> a <> [] -> length a + length p <= payloadSizeMask ->
  SaltGeneratorLaws g -> GetSalt g (zeros (SaltSize (cipher d))) ent = (None, salt, ent') ->
  exists conn ae, Dial d remoteAddr ent = (Ret conn, false) /\
    NewAEAD (cipher d) salt = Ret ae /\
    dc_r conn = readConverter.NewShadowsocksReader r (cipher d) /\
    written (writer (dc_w conn)) = [] /\
    (exists sw, Write NoFlush (dc_w conn) p = (Ret (length p, None), sw) /\
       written (writer sw) = [salt ++ frame ae 0 (a ++ p)]) /\
    (exists sw, Flush (dc_w conn) = (None, sw) /\
       written (writer sw) = [salt ++ frame ae 0 a]) /\
    (forall os, few (length (a ++ concat (payload <$> os))) ->
       exists chunks, concat chunks = a ++ concat (payload <$> os) /\
         decode_stream (cipher d)
           (concat (written (writer (snd (run_ops (os ++ [OpFlush]) (dc_w conn)))))) EOF =
         (chunks, EOF)).
Proof.
  intros g Hwf Hend Hw Hrel Hparse Ha Hlen Hg Hsalt.
  destruct (Dial_queued d remoteAddr a w r ent salt ent' Hwf Hend Hw Hrel Hparse ltac:(lia) Hg Hsalt)
    as (sw & Hdial & HR & Hc & Hn & Hall).
  destruct (Repr_the_aead _ _ _ _ HR) as (_ & HN & _). rewrite Hc in HN.
  assert (forall sw1 q, Repr sw1 salt [q] [] -> ssCipher sw1 = cipher d ->
    written (writer sw1) = [salt ++ frame (the_aead sw) 0 q]) as Hout.
  { intros sw1 q HR1 Hc1. rewrite (repr_out _ _ _ _ HR1).
    destruct (Repr_the_aead _ _ _ _ HR1) as (_ & HN1 & _). rewrite Hc1, HN in HN1.
    by injection HN1 as <-. }
  eexists _, (the_aead sw). split; [exact Hdial|]. simpl. split_and!; [done|done| | | |].
  - by rewrite (repr_out _ _ _ _ HR).
  - destruct (Write_queued sw salt a p HR Hn Ha Hlen) as (sw1 & E1 & HR1 & Hc1 & _).
    exists sw1. split; [done|]. apply Hout; congruence.
  - unfold Flush. rewrite Hn. simpl.
    destruct (flush_repr _ _ _ _ HR few_nil) as (sw1 & E1 & (Hk & _) & _ & HR1 & _).
    exists sw1. split; [done|]. unfold push in HR1. rewrite decide_False in HR1 by done.
    apply Hout; [done|congruence].
  - intros os Hfew. destruct (encrypts_decode _ _ _ _ (Hall os Hfew)) as (cs & ? & ?).
    by exists cs.
Qed.

(** Datagrams.  A datagram for an endpoint that fits with its address, salt
    and tag in the buffer is sent as one packet, which anyone with the key
    opens to the address and the datagram, and its length is returned with the
    error of the send; a longer one is refused and nothing is sent; and a
    packet that opens to an endpoint's address and a datagram is received as
    that datagram from that address, cut to the caller's buffer, with
    [ErrShortBuffer] exactly when it was cut. *)
Theorem client_packets (c : Cipher) (cipherBuf b : bytes) (u : UDPAddr)
    (send : bytes -> nat * option error) (ent : bytes) :
  wf_cipher c -> valid_endpoint u -> length cipherBuf = clientUDPBufferSize ->
  SaltSize c <= length ent ->
  exists a, ParseAddr (UDPAddrString u) = Some a /\ SplitAddr (a ++ b) = Some a /\
    (if decide (SaltSize c + length a + length b + TagSize c <= clientUDPBufferSize)
     then exists pkt,
       packetConn_WriteTo c cipherBuf b (UDPAddrString u) send ent =
         (Ret (length b, snd (send pkt)), Some pkt) /\
       forall n, length a + length b <= n -> Unpack (Some n) pkt c = Ret (a ++ b)
     else
       packetConn_WriteTo c cipherBuf b (UDPAddrString u) send ent =
         (Ret (0, Some ErrShortBuffer), None)) /\
    forall pkt n, Unpack None pkt c = Ret (a ++ b) ->
      packetConn_ReadFrom c n (inl pkt) =
        Ret (take n b, Some (AddrString a),
             if decide (n < length b) then Some ErrShortBuffer else None).
Proof.
  intros Hwf Hu Hbuf Hent. destruct (ParseAddr_endpoint u Hu) as (a & Ha & _ & Hsplit).
  exists a. split_and!; [done|apply Hsplit| |].
  - pose proof (packetConn_WriteTo_ok c cipherBuf a b _ send ent Hwf Hbuf Hent Ha) as Hs.
    case_decide; [|done]. destruct Hs as (pkt & E & _ & HU). exists pkt. split; [done|].
    intros n Hn. by apply HU.
  - intros pkt n. by apply packetConn_ReadFrom_ok.
Qed.

End ClientProperties.

(** ** The theorems at concrete inputs *)

Definition ex_dialer : streamDialer Conn :=
  MkDialer (inl (MkSink [] [], MkConn [] EOF false)) toy_cipher None.

Lemma client_dial_witness :
  exists conn, Dial ex_dialer "example.com:443" demo_entropy = (Ret conn, false) /\
    written (writer (dc_w conn)) = [].
Proof.
  destruct (client_dial ex_dialer "example.com:443"
    (default [] (ParseAddr "example.com:443")) (string_bytes "hello") (MkSink [] [])
    (MkConn [] EOF false) demo_entropy demo_salt (drop 16 demo_entropy))
    as (conn & _ & E & _ & _ & Hw & _).
  - apply toy_cipher_wf.
  - reflexivity.
  - reflexivity.
  - apply List.Forall_nil.
  - reflexivity.
  - done.
  - apply Nat.leb_le. vm_compute. reflexivity.
  - apply RandomSaltGenerator_laws.
  - vm_compute. reflexivity.
  - by exists conn.
Defined.

Lemma client_packets_witness :
  exists pkt, packetConn_WriteTo toy_cipher (zeros clientUDPBufferSize) (string_bytes "hello")
      (UDPAddrString ex_peer) (fun b => (length b, None)) (expand 3 40) =
    (Ret (5, None), Some pkt).
Proof.
  destruct (client_packets toy_cipher (zeros clientUDPBufferSize) (string_bytes "hello") ex_peer
    (fun b => (length b, None)) (expand 3 40)) as (a & Ha & _ & Hs & _).
  - apply toy_cipher_wf.
  - split; [by left|]. simpl. lia.
  - unfold zeros. apply length_replicate.
  - apply Nat.leb_le. vm_compute. reflexivity.
  - assert (length a = 7) as Hl.
    { vm_compute in Ha. injection Ha as <-. reflexivity. }
    rewrite Hl, decide_True in Hs by (apply Nat.leb_le; vm_compute; reflexivity).
    destruct Hs as (pkt & E & _). exists pkt. exact E.
Defined.
