(* ===== verification/PromMetrics.v ===== *)
(** * Prometheus metrics

    [shadowsocksMetrics] of [service/metrics/metrics.go]: which series each
    report of the services increments, and the location of a client.
    Prometheus is not under [src/]; it is the class [PromOps], with its
    documented behaviour in [PromLaws]: a vector has a fixed number of labels,
    and a call with another number of values panics. *)
From Stdlib Require Import Strings.Ascii.
From S2P Require Import Prelude GoIO PrivateNet Metrics.

Local Open Scope Z_scope.

(** ** Prometheus *)

(** A vector of counters or of histograms.  [Add] is
    [WithLabelValues(lvs...).Add(v)], [Observe] the same for a histogram, whose
    observed value is left out; [value] is the sum of a counter, or the number
    of observations. *)
Class PromOps := {
  Vec : Type;
  NewVec : list string -> Vec;
  Add : list string -> Z -> Vec -> outcome Vec;
  Observe : list string -> Vec -> outcome Vec;
  value : Vec -> list string -> Z;
  labels : Vec -> nat;
}.

Definition at_series (lvs lvs' : list string) (v : Z) : Z := if decide (lvs = lvs') then v else 0.

(** A series is a float64: its sums are exact up to 2^53. *)
Class PromLaws `{PromOps} : Prop := {
  NewVec_labels names : labels (NewVec names) = length names;
  NewVec_value names lvs : value (NewVec names) lvs = 0;
  Add_ok lvs v m : length lvs = labels m -> 0 <= v -> value m lvs + v <= 2 ^ 53 ->
    exists m', Add lvs v m = Ret m' /\ labels m' = labels m /\
      forall lvs', value m' lvs' = value m lvs' + at_series lvs lvs' v;
  Observe_ok lvs m : length lvs = labels m -> value m lvs + 1 <= 2 ^ 53 ->
    exists m', Observe lvs m = Ret m' /\ labels m' = labels m /\
      forall lvs', value m' lvs' = value m lvs' + at_series lvs lvs' 1;
}.

(** ** [net.SplitHostPort] *)

(** [strings.IndexByte] and [strings.LastIndexByte]. *)
Fixpoint IndexByte (s : string) (c : ascii) : option nat :=
  match s with
  | EmptyString => None
  | String x s => if decide (x = c) then Some 0%nat else S <$> IndexByte s c
  end.

Fixpoint LastIndexByte (s : string) (c : ascii) : option nat :=
  match s with
  | EmptyString => None
  | String x s =>
    match LastIndexByte s c with
    | Some i => Some (S i)
    | None => if decide (x = c) then Some 0%nat else None
    end
  end.

(** [s[i:j]] for [i <= j <= len(s)]. *)
Definition sub_string (s : string) (i j : nat) : string := String.substring i (j - i) s.
Definition from (s : string) (i : nat) : string := sub_string s i (String.length s).

(** The host and the port, or [None] for an address error. *)
Definition SplitHostPort (hostport : string) : option (string * string) :=
  match LastIndexByte hostport ":" with
  | None => None
  | Some i =>
    let split (host : string) (j k : nat) :=
      match IndexByte (from hostport j) "[", IndexByte (from hostport k) "]" with
      | None, None => Some (host, from hostport (S i))
      | _, _ => None
      end in
    if decide (IndexByte hostport "[" = Some 0%nat) then
      match IndexByte hostport "]" with
      | None => None
      | Some e =>
        if decide (S e = i) then split (sub_string hostport 1 e) 1%nat (S e) else None
      end
    else
      let host := sub_string hostport 0 i in
      match IndexByte host ":" with
      | Some _ => None
      | None => split host 0%nat 0%nat
      end
  end.

Example SplitHostPort_examples :
  SplitHostPort "192.0.2.1:443" = Some ("192.0.2.1", "443")%string /\
  SplitHostPort "[2001:db8::1]:443" = Some ("2001:db8::1", "443")%string /\
  SplitHostPort "2001:db8::1" = None /\ SplitHostPort "[::1]" = None /\
  SplitHostPort "[::1]]:1" = None /\ SplitHostPort ":80" = Some ("", "80")%string.
Proof. vm_compute. done. Qed.

Section Prom.
Context `{PromOps}.

(** ** The metrics *)

(** The vectors of the struct, by the name of their field. *)
Inductive field :=
| tcpProbes
| tcpOpenConnections
| tcpClosedConnections
| tcpConnectionDurationMs
| dataBytes
| dataBytesPerLocation
| timeToCipherMs
| udpPacketsFromClientPerLocation
| udpAddedNatEntries
| udpRemovedNatEntries.

#[export] Instance field_eq_dec : EqDecision field.
Proof. solve_decision. Defined.

(** [geoip2.Reader.Country]: an error, a nil record, or the ISO code. *)
Definition geoip2_Reader : Type := bytes -> option string + error.

(** [buildInfo] is a gauge per version, [accessKeys] and [ports] are gauges. *)
Record shadowsocksMetrics := MkSM {
  ipCountryDB : option geoip2_Reader;
  buildInfo : gmap string Z;
  accessKeys : Z;
  ports : Z;
  vecs : field -> Vec;
}.

Definition label_names (f : field) : list string :=
  match f with
  | tcpProbes => ["port"; "status"; "error"]
  | tcpOpenConnections => ["location"]
  | tcpClosedConnections => ["location"; "status"; "access_key"]
  | tcpConnectionDurationMs => ["status"]
  | dataBytes => ["dir"; "proto"; "access_key"]
  | dataBytesPerLocation => ["dir"; "proto"; "location"]
  | timeToCipherMs => ["proto"; "found_key"]
  | udpPacketsFromClientPerLocation => ["location"; "status"]
  | udpAddedNatEntries | udpRemovedNatEntries => []
  end%string.

Definition newShadowsocksMetrics (ipCountryDB : option geoip2_Reader) : shadowsocksMetrics :=
  MkSM ipCountryDB ∅ 0 0 (fun f => NewVec (label_names f)).

(** The collectors in the order they are registered, by the full names
    Prometheus gives them. *)
Definition collectors : list string :=
  ["shadowsocks_build_info"; "shadowsocks_keys"; "shadowsocks_ports"; "shadowsocks_tcp_probes";
   "shadowsocks_tcp_connections_opened"; "shadowsocks_tcp_connections_closed";
   "shadowsocks_tcp_connection_duration_ms"; "shadowsocks_data_bytes";
   "shadowsocks_data_bytes_per_location"; "shadowsocks_time_to_cipher_ms";
   "shadowsocks_udp_packets_from_client_per_location"; "shadowsocks_udp_nat_entries_added";
   "shadowsocks_udp_nat_entries_removed"]%string.

(** [registerer.MustRegister]: it panics at the first error. *)
Fixpoint MustRegister {G} (Register : string -> G -> option error * G) (cs : list string) (g : G) :
    outcome G :=
  match cs with
  | [] => Ret g
  | c :: cs =>
    match Register c g with
    | (Some _, _) => Panic "duplicate metrics collector registration attempted"
    | (None, g) => MustRegister Register cs g
    end
  end.

Definition NewPrometheusShadowsocksMetrics {G} (Register : string -> G -> option error * G)
    (ipCountryDB : option geoip2_Reader) (g : G) : outcome (shadowsocksMetrics * G) :=
  let m := newShadowsocksMetrics ipCountryDB in
  g ← MustRegister Register collectors g; Ret (m, g).

Definition SetBuildInfo (version : string) (m : shadowsocksMetrics) : shadowsocksMetrics :=
  MkSM (ipCountryDB m) (<[version := 1]> (buildInfo m)) (accessKeys m) (ports m) (vecs m).

Definition SetNumAccessKeys (numKeys numPorts : Z) (m : shadowsocksMetrics) : shadowsocksMetrics :=
  MkSM (ipCountryDB m) (buildInfo m) numKeys numPorts (vecs m).

(** [GetLocation(addr)]; [ParseIP] is [net.ParseIP], [addr] the text of the
    address. *)
Definition GetLocation (ParseIP : string -> IP) (addr : string) (m : shadowsocksMetrics) :
    string * option error :=
  match ipCountryDB m with
  | None => (""%string, None)
  | Some db =>
    match SplitHostPort addr with
    | None => ("XA"%string, Some (Errorf "Failed to split hostname and port"))
    | Some (hostname, _) =>
      match ParseIP hostname with
      | None => ("XA"%string, Some (Errorf "Failed to parse address as IP"))
      | Some ip =>
        if IsLoopback ip then ("XL"%string, None)
        else if negb (IsGlobalUnicast ip) then ("XL"%string, None)
        else
          match db ip with
          | inr _ => ("XD"%string, Some (Errorf "IP lookup failed"))
          | inl None => ("ZZ"%string, Some (Errorf "IP lookup returned nil"))
          | inl (Some IsoCode) =>
            if bool_decide (IsoCode = ""%string)
            then ("ZZ"%string, Some (Errorf "IP Lookup has empty ISO code"))
            else (IsoCode, None)
          end
      end
    end
  end.

(** A call of a method of one field. *)
Definition on (f : field) (op : Vec -> outcome Vec) (m : shadowsocksMetrics) :
    outcome shadowsocksMetrics :=
  v ← op (vecs m f);
  Ret (MkSM (ipCountryDB m) (buildInfo m) (accessKeys m) (ports m)
    (fun g => if decide (g = f) then v else vecs m g)).

Definition AddOpenTCPConnection (clientLocation : string) : shadowsocksMetrics -> outcome shadowsocksMetrics :=
  on tcpOpenConnections (Add [clientLocation] 1).

Definition isFound (accessKey : string) : string :=
  if bool_decide (accessKey = ""%string) then "false" else "true".

Definition addIfNonZero (v : Z) (f : field) (lvs : list string) (m : shadowsocksMetrics) :
    outcome shadowsocksMetrics :=
  if bool_decide (0 < v) then on f (Add lvs v) m else Ret m.

Definition AddClosedTCPConnection (clientLocation accessKey status : string)
    (data : ProxyMetrics) (m : shadowsocksMetrics) : outcome shadowsocksMetrics :=
  m ← on tcpClosedConnections (Add [clientLocation; status; accessKey] 1) m;
  m ← on tcpConnectionDurationMs (Observe [status]) m;
  m ← on timeToCipherMs (Observe ["tcp"%string; isFound accessKey]) m;
  m ← addIfNonZero (ClientProxy data) dataBytes ["c>p"%string; "tcp"%string; accessKey] m;
  m ← addIfNonZero (ClientProxy data) dataBytesPerLocation ["c>p"%string; "tcp"%string; clientLocation] m;
  m ← addIfNonZero (ProxyTarget data) dataBytes ["p>t"%string; "tcp"%string; accessKey] m;
  m ← addIfNonZero (ProxyTarget data) dataBytesPerLocation ["p>t"%string; "tcp"%string; clientLocation] m;
  m ← addIfNonZero (TargetProxy data) dataBytes ["p<t"%string; "tcp"%string; accessKey] m;
  m ← addIfNonZero (TargetProxy data) dataBytesPerLocation ["p<t"%string; "tcp"%string; clientLocation] m;
  m ← addIfNonZero (ProxyClient data) dataBytes ["c<p"%string; "tcp"%string; accessKey] m;
  addIfNonZero (ProxyClient data) dataBytesPerLocation ["c<p"%string; "tcp"%string; clientLocation] m.

(** [port] is printed by [strconv.Itoa]. *)
Definition AddTCPProbe (status drainResult port : string) (m : shadowsocksMetrics) :
    outcome shadowsocksMetrics :=
  on tcpProbes (Observe [port; status; drainResult]) m.

Definition AddUDPPacketFromClient (clientLocation accessKey status : string)
    (clientProxyBytes proxyTargetBytes : Z) (m : shadowsocksMetrics) : outcome shadowsocksMetrics :=
  m ← on timeToCipherMs (Observe ["udp"%string; isFound accessKey]) m;
  m ← on udpPacketsFromClientPerLocation (Add [clientLocation; status] 1) m;
  m ← addIfNonZero clientProxyBytes dataBytes ["c>p"%string; "udp"%string; accessKey] m;
  m ← addIfNonZero clientProxyBytes dataBytesPerLocation ["c>p"%string; "udp"%string; clientLocation] m;
  m ← addIfNonZero proxyTargetBytes dataBytes ["p>t"%string; "udp"%string; accessKey] m;
  addIfNonZero proxyTargetBytes dataBytesPerLocation ["p>t"%string; "udp"%string; clientLocation] m.

Definition AddUDPPacketFromTarget (clientLocation accessKey : string)
    (targetProxyBytes proxyClientBytes : Z) (m : shadowsocksMetrics) : outcome shadowsocksMetrics :=
  m ← addIfNonZero targetProxyBytes dataBytes ["p<t"%string; "udp"%string; accessKey] m;
  m ← addIfNonZero targetProxyBytes dataBytesPerLocation ["p<t"%string; "udp"%string; clientLocation] m;
  m ← addIfNonZero proxyClientBytes dataBytes ["c<p"%string; "udp"%string; accessKey] m;
  addIfNonZero proxyClientBytes dataBytesPerLocation ["c<p"%string; "udp"%string; clientLocation] m.

Definition AddUDPNatEntry : shadowsocksMetrics -> outcome shadowsocksMetrics :=
  on udpAddedNatEntries (Add [] 1).

Definition RemoveUDPNatEntry : shadowsocksMetrics -> outcome shadowsocksMetrics :=
  on udpRemovedNatEntries (Add [] 1).

(** The location of an address: without a database there is none; a loopback or
    other special address is local and not looked up; and an error comes with
    one of the codes for what failed, so that a country's code, which is what
    the database said, comes without one. *)
Lemma GetLocation_spec ParseIP addr m code err :
  GetLocation ParseIP addr m = (code, err) ->
  match ipCountryDB m with
  | None => code = ""%string /\ err = None
  | Some db =>
    err <> None /\ code ∈ ["XA"; "XD"; "ZZ"]%string \/
    exists host port ip, SplitHostPort addr = Some (host, port) /\ ParseIP host = Some ip /\
      err = None /\ code <> ""%string /\
      (code = "XL"%string /\ (IsLoopback ip = true \/ IsGlobalUnicast ip = false) \/
       IsLoopback ip = false /\ IsGlobalUnicast ip = true /\ db ip = inl (Some code))
  end.
Proof.
  unfold GetLocation. destruct (ipCountryDB m) as [db|]; [|by intros [= <- <-]].
  destruct (SplitHostPort addr) as [[host port]|]; [|intros [= <- <-]; left; set_solver].
  destruct (ParseIP host) as [ip|] eqn:Hip; [|intros [= <- <-]; left; set_solver].
  destruct (IsLoopback ip) eqn:Hlo.
  { intros [= <- <-]. right. exists host, port, ip. split_and!; auto. }
  destruct (IsGlobalUnicast ip) eqn:Hgu; simpl.
  2: { intros [= <- <-]. right. exists host, port, ip. split_and!; auto. }
  destruct (db ip) as [[iso|]|e] eqn:Hdb; [|intros [= <- <-]; left; set_solver..].
  case_bool_decide; intros [= <- <-]; [left; set_solver|].
  right. exists host, port, ip. split_and!; auto.
Qed.

(** A registry refuses the names it has. *)
Definition Register (name : string) (g : gset string) : option error * gset string :=
  if decide (name ∈ g) then (Some (Errorf "duplicate metrics collector registration attempted"), g)
  else (None, {[name]} ∪ g).

Lemma MustRegister_spec cs g :
  NoDup cs ->
  match MustRegister Register cs g with
  | Ret g' => (forall c, c ∈ cs -> c ∉ g) /\ g' = list_to_set cs ∪ g
  | Err _ => False
  | Panic _ => exists c, c ∈ cs /\ c ∈ g
  end.
Proof.
  revert g. induction cs as [|c cs IH]; intros g Hnd; cbn [MustRegister].
  { split; [by intros c ?%not_elem_of_nil|]. simpl. set_solver. }
  apply NoDup_cons in Hnd as [Hc Hnd]. unfold Register at 1.
  destruct (decide (c ∈ g)) as [Hin|Hin]; [exists c; split; [left|done]|].
  specialize (IH ({[c]} ∪ g) Hnd). destruct (MustRegister _ _ _) as [g'|e|m]; [|done|].
  - destruct IH as [Hnew ->]. split; [|simpl; set_solver].
    intros x [->|Hx]%elem_of_cons; [done|]. specialize (Hnew x Hx). set_solver.
  - destruct IH as (x & Hx & Hxg). exists x. split; [by right|]. set_solver.
Qed.

(** The names are distinct: a registry that has none of them takes the metrics,
    and a second set of metrics panics. *)
Lemma NewPrometheus_spec (db : option geoip2_Reader) (g : gset string) :
  (forall c, c ∈ collectors -> c ∉ g) ->
  exists g', NewPrometheusShadowsocksMetrics Register db g = Ret (newShadowsocksMetrics db, g') /\
    exists m, NewPrometheusShadowsocksMetrics Register db g' = Panic m.
Proof.
  intros Hnew. assert (NoDup collectors) as Hnd by (apply (bool_decide_unpack _); vm_compute; done).
  unfold NewPrometheusShadowsocksMetrics. pose proof (MustRegister_spec collectors g Hnd) as Hs.
  destruct (MustRegister Register collectors g) as [g'|e|m]; [|done|].
  - destruct Hs as [_ ->]. eexists. split; [reflexivity|].
    set (g' := list_to_set collectors ∪ g).
    pose proof (MustRegister_spec collectors g' Hnd) as Hs.
    destruct (MustRegister Register collectors g') as [g2|e|m]; [|done|by exists m].
    destruct Hs as [Hno _]. destruct (Hno "shadowsocks_keys"%string).
    + unfold collectors. right. left.
    + unfold g'. apply elem_of_union. left. apply elem_of_list_to_set. unfold collectors. right. left.
  - destruct Hs as (c & Hc & Hg). by destruct (Hnew c Hc).
Qed.

(** ** Any sequence of reports *)

Inductive call :=
| CallOpenTCP (location : string)
| CallClosedTCP (location accessKey status : string) (data : ProxyMetrics)
| CallProbe (status drainResult port : string)
| CallUDPFromClient (location accessKey status : string) (clientProxyBytes proxyTargetBytes : Z)
| CallUDPFromTarget (location accessKey : string) (targetProxyBytes proxyClientBytes : Z)
| CallAddNat
| CallRemoveNat.

Definition run_call (c : call) : shadowsocksMetrics -> outcome shadowsocksMetrics :=
  match c with
  | CallOpenTCP l => AddOpenTCPConnection l
  | CallClosedTCP l k s d => AddClosedTCPConnection l k s d
  | CallProbe s d p => AddTCPProbe s d p
  | CallUDPFromClient l k s a b => AddUDPPacketFromClient l k s a b
  | CallUDPFromTarget l k a b => AddUDPPacketFromTarget l k a b
  | CallAddNat => AddUDPNatEntry
  | CallRemoveNat => RemoveUDPNatEntry
  end.

Fixpoint run_calls (cs : list call) (m : shadowsocksMetrics) : outcome shadowsocksMetrics :=
  match cs with
  | [] => Ret m
  | c :: cs => m ← run_call c m; run_calls cs m
  end.

(** The byte counts of a report: direction, protocol, key, location, bytes. *)
Definition transfers (c : call) : list (string * string * string * string * Z) :=
  match c with
  | CallClosedTCP l k _ d =>
    [("c>p", "tcp", k, l, ClientProxy d); ("p>t", "tcp", k, l, ProxyTarget d);
     ("p<t", "tcp", k, l, TargetProxy d); ("c<p", "tcp", k, l, ProxyClient d)]
  | CallUDPFromClient l k _ a b => [("c>p", "udp", k, l, a); ("p>t", "udp", k, l, b)]
  | CallUDPFromTarget l k a b => [("p<t", "udp", k, l, a); ("c<p", "udp", k, l, b)]
  | _ => []
  end%string.

(** ** Lemmas *)

(** Increments: the field, the series and the amount. *)
Definition sum_at (f : field) (lvs : list string) (es : list (field * list string * Z)) : Z :=
  foldr (fun '(g, l, v) n => (if decide (g = f /\ l = lvs) then v else 0) + n) 0 es.

Lemma sum_at_app f lvs es es' : sum_at f lvs (es ++ es') = sum_at f lvs es + sum_at f lvs es'.
Proof. unfold sum_at. induction es as [|[[g l] v] es IH]; simpl; [done|]. rewrite IH. lia. Qed.

Definition labels_ok (m : shadowsocksMetrics) : Prop :=
  forall f, labels (vecs m f) = length (label_names f).

(** No series passes 2^53. *)
Definition fits (m : shadowsocksMetrics) (es : list (field * list string * Z)) : Prop :=
  forall f lvs, value (vecs m f) lvs + sum_at f lvs es <= 2 ^ 53.

(** The increments are not negative, and while they fit the call succeeds and
    makes exactly them. *)
Definition adds (m : shadowsocksMetrics) (es : list (field * list string * Z))
    (o : outcome shadowsocksMetrics) : Prop :=
  (forall f lvs, 0 <= sum_at f lvs es) /\
  (fits m es ->
   exists m', o = Ret m' /\ labels_ok m' /\
     forall f lvs, value (vecs m' f) lvs = value (vecs m f) lvs + sum_at f lvs es).

Lemma adds_ret m : labels_ok m -> adds m [] (Ret m).
Proof.
  intros Hm. split; [done|]. intros _. exists m. split_and!; [done|done|].
  intros f lvs. simpl. lia.
Qed.

Lemma adds_bind m es es' o k :
  labels_ok m -> adds m es o -> (forall m1, labels_ok m1 -> adds m1 es' (k m1)) ->
  adds m (es ++ es') (o ≫= k).
Proof.
  intros Hm [Hn H1] Hk. destruct (Hk m Hm) as [Hn' _].
  split; [intros f lvs; rewrite sum_at_app; specialize (Hn f lvs); specialize (Hn' f lvs); lia|].
  intros Hf. destruct H1 as (m1 & -> & Hl & Hv).
  { intros f lvs. specialize (Hf f lvs). rewrite sum_at_app in Hf. specialize (Hn' f lvs). lia. }
  destruct (Hk m1 Hl) as [_ (m2 & E & Hl2 & Hv2)].
  { intros f lvs. specialize (Hf f lvs). rewrite sum_at_app in Hf. rewrite Hv. lia. }
  exists m2. split_and!; [done|done|]. intros f lvs. rewrite Hv2, Hv, sum_at_app. lia.
Qed.

Definition positive (v : Z) (f : field) (lvs : list string) : list (field * list string * Z) :=
  if bool_decide (0 < v) then [(f, lvs, v)] else [].

Context `{!PromLaws}.

Lemma new_labels_ok db : labels_ok (newShadowsocksMetrics db).
Proof. intros f. apply NewVec_labels. Qed.

Lemma adds_on m f lvs v op :
  labels_ok m -> 0 <= v ->
  (value (vecs m f) lvs + v <= 2 ^ 53 ->
   exists v', op (vecs m f) = Ret v' /\ labels v' = labels (vecs m f) /\
     forall l, value v' l = value (vecs m f) l + at_series lvs l v) ->
  adds m [(f, lvs, v)] (on f op m).
Proof.
  intros Hm Hv0 Hop. split; [intros g l; simpl; case_decide; lia|]. intros Hf.
  destruct Hop as (v' & E & Hl & Hv).
  { specialize (Hf f lvs). simpl in Hf. rewrite decide_True in Hf by done. lia. }
  unfold on. rewrite E. simpl. eexists. split; [done|].
  split; [intros g|intros g l]; simpl.
  - destruct (decide (g = f)) as [->|]; [by rewrite Hl|apply Hm].
  - destruct (decide (g = f)) as [->|Hne]; rewrite ?Hv; unfold at_series;
      repeat case_decide; naive_solver lia.
Qed.

Lemma adds_Add m f lvs v :
  labels_ok m -> length lvs = length (label_names f) -> 0 <= v ->
  adds m [(f, lvs, v)] (on f (Add lvs v) m).
Proof.
  intros Hm Hl Hv. apply adds_on; [done|done|]. intros. apply Add_ok; [|done|done]. by rewrite Hm.
Qed.

Lemma adds_Observe m f lvs :
  labels_ok m -> length lvs = length (label_names f) ->
  adds m [(f, lvs, 1)] (on f (Observe lvs) m).
Proof.
  intros Hm Hl. apply adds_on; [done|lia|]. intros. apply Observe_ok; [|done]. by rewrite Hm.
Qed.

Lemma adds_positive m f lvs v :
  labels_ok m -> length lvs = length (label_names f) ->
  adds m (positive v f lvs) (addIfNonZero v f lvs m).
Proof.
  intros Hm Hl. unfold addIfNonZero, positive. case_bool_decide; [|by apply adds_ret].
  apply adds_Add; [done|done|lia].
Qed.

(** The increments of a report. *)
Definition effects (c : call) : list (field * list string * Z) :=
  match c with
  | CallOpenTCP l => [(tcpOpenConnections, [l], 1)]
  | CallClosedTCP l k s d =>
    [(tcpClosedConnections, [l; s; k], 1); (tcpConnectionDurationMs, [s], 1);
     (timeToCipherMs, ["tcp"%string; isFound k], 1)]
  | CallProbe s d p => [(tcpProbes, [p; s; d], 1)]
  | CallUDPFromClient l k s _ _ =>
    [(timeToCipherMs, ["udp"%string; isFound k], 1); (udpPacketsFromClientPerLocation, [l; s], 1)]
  | CallUDPFromTarget _ _ _ _ => []
  | CallAddNat => [(udpAddedNatEntries, [], 1)]
  | CallRemoveNat => [(udpRemovedNatEntries, [], 1)]
  end ++
  ('(d, p, k, l, n) ← transfers c;
   positive n dataBytes [d; p; k] ++ positive n dataBytesPerLocation [d; p; l]).

(** The steps of a call, in order. *)
Ltac adds_steps :=
  repeat first
    [ apply adds_Add; [assumption|reflexivity|lia]
    | apply adds_Observe; [assumption|reflexivity]
    | apply adds_positive; [assumption|reflexivity]
    | eapply adds_bind; [assumption| |intros ? ?] ].

Lemma adds_eq m es es' o : adds m es o -> es = es' -> adds m es' o.
Proof. by intros ? <-. Qed.

Lemma run_call_adds c m : labels_ok m -> adds m (effects c) (run_call c m).
Proof.
  intros Hm.
  destruct c as [l|l k s d|s d p|l k s a b|l k a b| |]; simpl; eapply adds_eq; try (by adds_steps);
    unfold effects; simpl; rewrite ?app_nil_r, <- ?app_assoc; done.
Qed.

Lemma run_calls_adds cs m : labels_ok m -> adds m (cs ≫= effects) (run_calls cs m).
Proof.
  revert m. induction cs as [|c cs IH]; intros m Hm; simpl; [by apply adds_ret|].
  apply adds_bind; [done|by apply run_call_adds|]. intros m1 Hm1. by apply IH.
Qed.

(** The bytes of the transfers that satisfy [P]; negative counts are not
    added. *)
Definition bytes_of (P : string * string * string * string -> Prop) `{forall x, Decision (P x)}
    (ts : list (string * string * string * string * Z)) : Z :=
  foldr (fun '(d, p, k, l, n) t => (if decide (P (d, p, k, l)) then Z.max 0 n else 0) + t) 0 ts.

Definition of_key (dir proto key : string) : string * string * string * string -> Prop :=
  fun '(d, p, k, _) => [d; p; k] = [dir; proto; key].
Definition of_location (dir proto loc : string) : string * string * string * string -> Prop :=
  fun '(d, p, _, l) => [d; p; l] = [dir; proto; loc].

#[export] Instance of_key_dec d p k x : Decision (of_key d p k x).
Proof. destruct x as [[[? ?] ?] ?]. unfold of_key. apply _. Defined.
#[export] Instance of_location_dec d p k x : Decision (of_location d p k x).
Proof. destruct x as [[[? ?] ?] ?]. unfold of_location. apply _. Defined.

Definition count (P : call -> Prop) `{forall c, Decision (P c)} (cs : list call) : Z :=
  Z.of_nat (length (filter P cs)).

Lemma sum_positive f lvs g l v :
  sum_at f lvs (positive v g l) = if decide (g = f /\ l = lvs) then Z.max 0 v else 0.
Proof.
  unfold positive. case_bool_decide; simpl; repeat case_decide; lia.
Qed.

(** The increments of byte counts, apart from the others. *)
Definition byte_effects (ts : list (string * string * string * string * Z)) :
    list (field * list string * Z) :=
  '(d, p, k, l, n) ← ts;
  positive n dataBytes [d; p; k] ++ positive n dataBytesPerLocation [d; p; l].

Lemma sum_bytes ts dir proto x :
  sum_at dataBytes [dir; proto; x] (byte_effects ts) = bytes_of (of_key dir proto x) ts /\
  sum_at dataBytesPerLocation [dir; proto; x] (byte_effects ts) =
    bytes_of (of_location dir proto x) ts /\
  forall f lvs, f <> dataBytes -> f <> dataBytesPerLocation -> sum_at f lvs (byte_effects ts) = 0.
Proof.
  induction ts as [|[[[[d p] k] l] n] ts (IH1 & IH2 & IH3)]; [done|].
  unfold byte_effects in *. cbn [mbind list_bind]. split_and!.
  - rewrite !sum_at_app, !sum_positive, IH1. unfold bytes_of. cbn [foldr]. unfold of_key at 2.
    rewrite (decide_False (P := dataBytesPerLocation = dataBytes /\ _)) by naive_solver.
    repeat case_decide; unfold of_key in *; naive_solver lia.
  - rewrite !sum_at_app, !sum_positive, IH2. unfold bytes_of. cbn [foldr].
    rewrite (decide_False (P := dataBytes = dataBytesPerLocation /\ _)) by naive_solver.
    repeat case_decide; unfold of_location in *; naive_solver lia.
  - intros f lvs H1 H2. rewrite !sum_at_app, !sum_positive, IH3 by done.
    by rewrite !decide_False by naive_solver.
Qed.

Lemma bytes_of_app P `{forall x, Decision (P x)} ts ts' :
  bytes_of P (ts ++ ts') = bytes_of P ts + bytes_of P ts'.
Proof.
  unfold bytes_of. induction ts as [|[[[[d p] k] l] n] ts IH]; simpl; [done|]. rewrite IH. lia.
Qed.

Lemma count_cons P `{forall c, Decision (P c)} c cs :
  count P (c :: cs) = (if decide (P c) then 1 else 0) + count P cs.
Proof. unfold count. rewrite filter_cons. case_decide; simpl; lia. Qed.

Lemma count_none P `{forall c, Decision (P c)} cs : (forall c, ~ P c) -> count P cs = 0.
Proof.
  intros HP. induction cs as [|c cs IH]; [done|]. rewrite count_cons, IH.
  rewrite decide_False by apply HP. done.
Qed.

(** Which calls increment a series of a field other than the byte counts. *)
Definition counts (f : field) (lvs : list string) (c : call) : Prop :=
  match f, c with
  | tcpOpenConnections, CallOpenTCP l => [l] = lvs
  | tcpClosedConnections, CallClosedTCP l k s _ => [l; s; k] = lvs
  | tcpConnectionDurationMs, CallClosedTCP _ _ s _ => [s] = lvs
  | timeToCipherMs, CallClosedTCP _ k _ _ => ["tcp"%string; isFound k] = lvs
  | timeToCipherMs, CallUDPFromClient _ k _ _ _ => ["udp"%string; isFound k] = lvs
  | tcpProbes, CallProbe s d p => [p; s; d] = lvs
  | udpPacketsFromClientPerLocation, CallUDPFromClient l _ s _ _ => [l; s] = lvs
  | udpAddedNatEntries, CallAddNat => [] = lvs
  | udpRemovedNatEntries, CallRemoveNat => [] = lvs
  | _, _ => False
  end.

#[export] Instance counts_dec f lvs c : Decision (counts f lvs c).
Proof. unfold counts. destruct f, c; apply _. Defined.

Lemma effects_split c :
  exists es, effects c = es ++ byte_effects (transfers c) /\
    forall f lvs,
      sum_at f lvs es = if decide (counts f lvs c) then 1 else 0.
Proof.
  unfold effects. eexists. split; [done|]. intros f lvs.
  destruct f, c; simpl; repeat case_decide; naive_solver.
Qed.

Lemma sum_effects c dir proto x :
  sum_at dataBytes [dir; proto; x] (effects c) = bytes_of (of_key dir proto x) (transfers c) /\
  sum_at dataBytesPerLocation [dir; proto; x] (effects c) =
    bytes_of (of_location dir proto x) (transfers c) /\
  forall f lvs, f <> dataBytes -> f <> dataBytesPerLocation ->
    sum_at f lvs (effects c) = if decide (counts f lvs c) then 1 else 0.
Proof.
  destruct (effects_split c) as (es & -> & Hes).
  destruct (sum_bytes (transfers c) dir proto x) as (H1 & H2 & H3).
  split_and!; [..|intros f lvs Hf1 Hf2]; rewrite sum_at_app, Hes.
  - rewrite H1. case_decide as Hc; [by destruct c|lia].
  - rewrite H2. case_decide as Hc; [by destruct c|lia].
  - rewrite H3 by done. lia.
Qed.

Lemma sum_all_effects cs dir proto x :
  sum_at dataBytes [dir; proto; x] (cs ≫= effects) =
    bytes_of (of_key dir proto x) (cs ≫= transfers) /\
  sum_at dataBytesPerLocation [dir; proto; x] (cs ≫= effects) =
    bytes_of (of_location dir proto x) (cs ≫= transfers) /\
  forall f lvs, f <> dataBytes -> f <> dataBytesPerLocation ->
    sum_at f lvs (cs ≫= effects) = count (counts f lvs) cs.
Proof.
  induction cs as [|c cs (IH1 & IH2 & IH3)]; [done|]. cbn [mbind list_bind].
  destruct (sum_effects c dir proto x) as (H1 & H2 & H3).
  split_and!; [..|intros f lvs Hf1 Hf2]; rewrite sum_at_app.
  - by rewrite bytes_of_app, <- IH1, H1.
  - by rewrite bytes_of_app, <- IH2, H2.
  - by rewrite count_cons, IH3, H3.
Qed.

(** The increments of a series are at most all the bytes, or all the calls. *)
Lemma bytes_of_le P `{forall x, Decision (P x)} ts : bytes_of P ts <= bytes_of (fun _ => True) ts.
Proof.
  unfold bytes_of. induction ts as [|[[[[d p] k] l] n] ts IH]; simpl; [done|].
  repeat case_decide; try done; lia.
Qed.

Lemma sum_byte_effects_le f lvs ts :
  sum_at f lvs (byte_effects ts) <= bytes_of (fun _ => True) ts.
Proof.
  induction ts as [|[[[[d p] k] l] n] ts IH]; [done|].
  unfold byte_effects in *. cbn [mbind list_bind].
  rewrite !sum_at_app, !sum_positive. unfold bytes_of in *. cbn [foldr].
  rewrite (decide_True (P := True)) by done.
  repeat case_decide; try lia. naive_solver.
Qed.

Lemma sum_effects_le f lvs cs :
  sum_at f lvs (cs ≫= effects) <=
  bytes_of (fun _ => True) (cs ≫= transfers) `max` Z.of_nat (length cs).
Proof.
  assert (sum_at f lvs (cs ≫= effects) =
          count (counts f lvs) cs + sum_at f lvs (byte_effects (cs ≫= transfers))) as ->.
  { induction cs as [|c cs IH]; [done|]. cbn [mbind list_bind].
    destruct (effects_split c) as (es & -> & Hes).
    unfold byte_effects at 2. rewrite bind_app, !sum_at_app, IH, Hes, count_cons.
    unfold byte_effects. lia. }
  assert (count (counts f lvs) cs <= Z.of_nat (length cs)) as Hc
    by (unfold count; pose proof (length_filter (counts f lvs) cs); lia).
  pose proof (sum_byte_effects_le f lvs (cs ≫= transfers)) as Hb.
  destruct (sum_bytes (cs ≫= transfers) "" "" "") as (_ & _ & H3).
  assert (f = dataBytes \/ f = dataBytesPerLocation \/
          f <> dataBytes /\ f <> dataBytesPerLocation) as [->|[->|[Hf1 Hf2]]].
  { destruct (decide (f = dataBytes)); [by left|].
    destruct (decide (f = dataBytesPerLocation)); [by right; left|by right; right]. }
  - assert (count (counts dataBytes lvs) cs = 0) as ->; [|lia].
    apply count_none. intros c Hx. by destruct c.
  - assert (count (counts dataBytesPerLocation lvs) cs = 0) as ->; [|lia].
    apply count_none. intros c Hx. by destruct c.
  - rewrite H3 by done. lia.
Qed.

(** The series after any reports that fit. *)
Lemma run_calls_totals (db : option geoip2_Reader) (cs : list call) :
  Z.of_nat (length cs) <= 2 ^ 53 -> bytes_of (fun _ => True) (cs ≫= transfers) <= 2 ^ 53 ->
  exists m, run_calls cs (newShadowsocksMetrics db) = Ret m /\
    (forall dir proto key, value (vecs m dataBytes) [dir; proto; key] =
       bytes_of (of_key dir proto key) (cs ≫= transfers)) /\
    (forall dir proto loc, value (vecs m dataBytesPerLocation) [dir; proto; loc] =
       bytes_of (of_location dir proto loc) (cs ≫= transfers)) /\
    (forall f lvs, f <> dataBytes -> f <> dataBytesPerLocation ->
       value (vecs m f) lvs = count (counts f lvs) cs).
Proof.
  intros Hn Hb. destruct (run_calls_adds cs _ (new_labels_ok db)) as [_ (m & E & _ & Hv)].
  { intros f lvs. simpl. rewrite NewVec_value. pose proof (sum_effects_le f lvs cs). lia. }
  exists m. assert (forall f lvs, value (vecs m f) lvs = sum_at f lvs (cs ≫= effects)) as Hv'
    by (intros f lvs; rewrite Hv; simpl; by rewrite NewVec_value).
  split_and!; [done|intros dir proto x..|intros f lvs Hf1 Hf2]; rewrite Hv';
    [| |destruct (sum_all_effects cs "" "" "") as (_ & _ & H3); by apply H3];
    by destruct (sum_all_effects cs dir proto x) as (H1 & H2 & _).
Qed.

(** ** Properties *)

(** For every sequence of at most 2^53 reports of at most 2^53 bytes
    altogether (the integers a float64 holds exactly), no report panics; the
    byte counter of a direction, protocol and key is the sum of the positive
    counts reported for them, and the counter of a direction, protocol and
    location likewise; and every other series is the number of the reports it
    counts. *)
Theorem metrics_totals (db : option geoip2_Reader) (cs : list call) :
  Z.of_nat (length cs) <= 2 ^ 53 -> bytes_of (fun _ => True) (cs ≫= transfers) <= 2 ^ 53 ->
  exists m, run_calls cs (newShadowsocksMetrics db) = Ret m /\
    (forall dir proto key, value (vecs m dataBytes) [dir; proto; key] =
       bytes_of (of_key dir proto key) (cs ≫= transfers)) /\
    (forall dir proto loc, value (vecs m dataBytesPerLocation) [dir; proto; loc] =
       bytes_of (of_location dir proto loc) (cs ≫= transfers)) /\
    (forall f lvs, f <> dataBytes -> f <> dataBytesPerLocation ->
       value (vecs m f) lvs = count (counts f lvs) cs).
Proof. apply run_calls_totals. Qed.

End Prom.

(** ** A concrete instance

    A vector is its number of labels and a map from series to sums. *)
#[export] Instance toy_prom : PromOps := {|
  Vec := nat * gmap (list string) Z;
  NewVec names := (length names, ∅);
  Add lvs v '(n, m) :=
    if decide (length lvs = n) then Ret (n, <[lvs := default 0 (m !! lvs) + v]> m)
    else Panic "inconsistent label cardinality";
  Observe lvs '(n, m) :=
    if decide (length lvs = n) then Ret (n, <[lvs := default 0 (m !! lvs) + 1]> m)
    else Panic "inconsistent label cardinality";
  value v lvs := default 0 (snd v !! lvs);
  labels v := fst v;
|}.

#[export] Instance toy_prom_laws : PromLaws.
Proof.
  assert (forall (m : gmap (list string) Z) lvs lvs' v,
    default 0 (<[lvs := default 0 (m !! lvs) + v]> m !! lvs') =
    default 0 (m !! lvs') + at_series lvs lvs' v) as Hins.
  { intros m lvs lvs' v. unfold at_series. case_decide as E.
    - subst. by rewrite lookup_insert_eq.
    - rewrite lookup_insert_ne by done. lia. }
  split; simpl; [done|intros; by rewrite lookup_empty| |].
  - intros lvs v [n m] Hl _ _. simpl in *. rewrite decide_True by done.
    eexists. split; [done|]. split; [done|]. intros lvs'. apply Hins.
  - intros lvs [n m] Hl _. simpl in *. rewrite decide_True by done.
    eexists. split; [done|]. split; [done|]. intros lvs'. apply Hins.
Qed.

Definition ex_calls : list call :=
  [CallOpenTCP "CH"; CallUDPFromClient "CH" "alice" "OK" 100 80; CallAddNat;
   CallClosedTCP "CH" "alice" "OK" (MkPM 10 5 7 20); CallUDPFromTarget "CH" "alice" 30 40].

Lemma metrics_totals_witness :
  exists m, run_calls ex_calls (newShadowsocksMetrics None) = Ret m /\
    value (vecs m dataBytes) ["c>p"; "udp"; "alice"]%string = 100 /\
    value (vecs m tcpOpenConnections) ["CH"]%string = 1.
Proof.
  destruct (metrics_totals None ex_calls) as (m & E & H1 & _ & H3); [done|done|].
  exists m. split; [exact E|]. rewrite H1, (H3 tcpOpenConnections) by done.
  split; vm_compute; reflexivity.
Defined.
