(* ===== verification/Endpoints.v ===== *)
(** * Addresses and endpoints

    [remoteIP] of [service/tcp.go], the endpoints of [net/stream.go] and
    [net/packet.go] that a client connects to, and the addresses of
    [shadowsocks/client/packet_listener.go]; and a dialer over such an endpoint. *)
From S2P Require Import Prelude GoIO Cipher ToyCrypto Salt Wire SlicePool Writer StreamReader.
From S2P Require Import PrivateNet PromMetrics CipherList Udp Client.

Import Writer.

(** ** The client's address *)

(** A [net.Addr]: a [*net.TCPAddr], or another one with its text. *)
Inductive Addr :=
| TCPAddr (ip : IP) (str : string)
| OtherAddr (str : string).

(** [ParseIP] is [net.ParseIP]. *)
Definition remoteIP (ParseIP : string -> IP) (addr : option Addr) : IP :=
  match addr with
  | None => None
  | Some (TCPAddr ip _) => ip
  | Some (OtherAddr str) =>
    match SplitHostPort str with
    | Some (ipstr, _) => ParseIP ipstr
    | None => None
    end
  end.

(** ** Endpoints *)

(** An endpoint: the dialer, which connects for a network and an address, and
    the text of the remote address. *)
Record Endpoint (C : Type) := MkEndpoint {
  Dialer : string -> string -> C + error;
  RemoteAddr : string;
}.
Arguments MkEndpoint {C} _ _.
Arguments Dialer {C} _ _ _.
Arguments RemoteAddr {C} _.

(** A connection the dialer makes: a TCP one, or another, which the type
    assertion of [TCPEndpoint.Connect] refuses by a panic. *)
Inductive netConn (C : Type) :=
| TCPConn (c : C)
| OtherConn (c : C).
Arguments TCPConn {C} _.
Arguments OtherConn {C} _.

Definition TCPEndpoint_Connect {C} (e : Endpoint (netConn C)) : outcome (C + error) :=
  match Dialer e "tcp" (RemoteAddr e) with
  | inr err => Ret (inr err)
  | inl (TCPConn conn) => Ret (inl conn)
  | inl (OtherConn _) => Panic "interface conversion"
  end.

Definition UDPEndpoint_Connect {C} (e : Endpoint C) : C + error :=
  match Dialer e "udp" (RemoteAddr e) with
  | inr err => inr err
  | inl conn => inl conn
  end.

(** ** [addr] *)

Record addr := MkAddr { address : string; network : string }.

Definition addr_String (a : addr) : string := address a.
Definition addr_Network (a : addr) : string := network a.
Definition newAddr (address network : string) : addr := MkAddr address network.

(** ** A client over its endpoint *)

(** A dialer made over a TCP endpoint: what [Connect] gives is what [Dial]
    uses.  Networks are dialed with TCP. *)
Definition dialer_over {R} (e : Endpoint (netConn (Sink * R))) (cipher : option Cipher) :
    outcome (streamDialer R) :=
  conn ← TCPEndpoint_Connect e;
  NewShadowsocksStreamDialer (Some conn) cipher.

(** Over a network whose TCP connections are TCP connections, making a dialer
    never panics; dialing fails exactly where the network fails, the key or the
    name is missing, and with the network's error. *)
Lemma dialer_over_spec `{CryptoOps} `{UdpOps} {R} `{Reader R} (e : Endpoint (netConn (Sink * R)))
    (c : Cipher) (name : string) (ent : bytes) :
  (forall a x, Dialer e "tcp" a <> inl (OtherConn x)) ->
  exists d, dialer_over e (Some c) = Ret d /\ cipher d = c /\ salter d = None /\
    match Dialer e "tcp" (RemoteAddr e), ParseAddr name with
    | _, None => Dial d name ent = (Err (Errorf "Failed to parse target address"), false)
    | inr err, Some _ => Dial d name ent = (Err err, false)
    | inl _, Some _ => exists w r, endpoint d = inl (w, r) /\
        Dialer e "tcp" (RemoteAddr e) = inl (TCPConn (w, r))
    end.
Proof.
  intros Htcp. unfold dialer_over, TCPEndpoint_Connect. specialize (Htcp (RemoteAddr e)).
  destruct (Dialer e "tcp" (RemoteAddr e)) as [[[w r]|x]|err]; [| |].
  - eexists. split_and!; [done..|]. unfold Dial.
    destruct (ParseAddr name); [|done]. exists w, r. done.
  - by destruct (Htcp x).
  - eexists. split_and!; [done..|]. unfold Dial. by destruct (ParseAddr name).
Qed.

(** The source address [ReadFrom] returns is the text it was given. *)
Lemma newAddr_String s n : addr_String (newAddr s n) = s /\ addr_Network (newAddr s n) = n.
Proof. done. Qed.
