(* ===== verification/NetStream.v ===== *)
(** * The stream relay

    [net/stream.go]: the nesting of [WrapConn], and [Relay], which copies
    between two connections in both directions at once.  [Relay] runs two
    goroutines on four independent half-connections; they are a step relation
    in which the peers may send and end at any time, a read returns any part of
    what has arrived, and the steps of the goroutines interleave freely. *)
From S2P Require Import Prelude GoIO.

(** ** [WrapConn] *)

(** A [DuplexConn]: a connection of another type, or an adaptor around one. *)
Inductive DuplexConn (C RW : Type) :=
| Base (c : C)
| Adaptor (conn : DuplexConn C RW) (r w : RW).
Arguments Base {C RW} _.
Arguments Adaptor {C RW} _ _ _.

Definition WrapConn {C RW} (c : DuplexConn C RW) (r w : RW) : DuplexConn C RW :=
  let conn := match c with Adaptor conn _ _ => conn | _ => c end in
  Adaptor conn r w.

(** Where [CloseRead] and [CloseWrite] of a connection end: the adaptor's are
    those of its connection. *)
Fixpoint closes {C RW} (c : DuplexConn C RW) : C :=
  match c with Base c => c | Adaptor conn _ _ => closes conn end.

Fixpoint nesting {C RW} (c : DuplexConn C RW) : nat :=
  match c with Base _ => 0 | Adaptor conn _ _ => S (nesting conn) end.

Lemma WrapConn_spec {C RW} (c : DuplexConn C RW) r w :
  closes (WrapConn c r w) = closes c /\ (nesting c <= 1 -> nesting (WrapConn c r w) = 1).
Proof. destruct c as [c|[c|? ? ?] ? ?]; simpl; split; try done; lia. Qed.

(** ** [io.Copy]

    The state of one call of [copyOneWay(dst, src)].  [arrived] are the bytes
    the peer of [src] sent that are unread, [ended] the error that follows
    them; [sent] is a ghost: all the bytes the peer sent. *)
Inductive copy_pc := Copying | Copied | WriteClosed | ReadClosed | Joined.

#[export] Instance copy_pc_eq_dec : EqDecision copy_pc.
Proof. solve_decision. Defined.

Record copy := MkCopy {
  pc : copy_pc;
  arrived : bytes;
  ended : option error;
  dst : Sink;
  written_bytes : Z;
  copy_err : option error;
  sent : bytes;
}.

Definition new_copy (dst : Sink) : copy := MkCopy Copying [] None dst 0 None [].

(** The buffer of [io.Copy]. *)
Definition copy_buffer : nat := Z.to_nat (32 * 1024).

(** [io.ErrShortWrite]. *)
Definition ErrShortWrite : error := Errorf "short write".

(** The body of the loop of [io.Copy] after [Read] gave [buf] and [er], with
    [rest] left to read. *)
Definition copy_body (buf rest : bytes) (er : option error) (c : copy) : copy :=
  let stop dst n err := MkCopy Copied rest (ended c) dst n err (sent c) in
  let after_write dst n :=
    match er with
    | None => MkCopy Copying rest (ended c) dst n None (sent c)
    | Some er => stop dst n (if decide (er = EOF) then None else Some er)
    end in
  match buf with
  | [] => after_write (dst c) (written_bytes c)
  | _ =>
    let '(nw, ew, dst) := Sink_write (dst c) buf in
    let n := int64 (written_bytes c + Z.of_nat nw) in
    match ew with
    | Some ew => stop dst n (Some ew)
    | None =>
      if decide (length buf <> nw) then stop dst n (Some ErrShortWrite)
      else after_write dst n
    end
  end.

(** What [Read] may return: some of the bytes that arrived, the error once
    there is nothing else, or both at once. *)
Inductive reads (c : copy) : bytes -> bytes -> option error -> Prop :=
| reads_some buf rest :
    arrived c = buf ++ rest -> buf <> [] -> length buf <= copy_buffer ->
    reads c buf rest None
| reads_last buf er :
    arrived c = buf -> ended c = Some er -> length buf <= copy_buffer ->
    reads c buf [] (Some er).

Definition with_pc (p : copy_pc) (c : copy) : copy :=
  MkCopy p (arrived c) (ended c) (dst c) (written_bytes c) (copy_err c) (sent c).

(** A step of [copyOneWay]: a round of [io.Copy], [CloseWrite] of the
    destination, [CloseRead] of the source. *)
Inductive copy_step : copy -> copy -> Prop :=
| step_round c buf rest er :
    pc c = Copying -> reads c buf rest er -> copy_step c (copy_body buf rest er c)
| step_CloseWrite c : pc c = Copied -> copy_step c (with_pc WriteClosed c)
| step_CloseRead c : pc c = WriteClosed -> copy_step c (with_pc ReadClosed c).

(** The peer sends bytes, or ends its stream. *)
Inductive peer_step : copy -> copy -> Prop :=
| peer_sends c data :
    ended c = None -> data <> [] ->
    peer_step c (MkCopy (pc c) (arrived c ++ data) None (dst c) (written_bytes c)
                   (copy_err c) (sent c ++ data))
| peer_ends c er :
    ended c = None ->
    peer_step c (MkCopy (pc c) (arrived c) (Some er) (dst c) (written_bytes c)
                   (copy_err c) (sent c)).

(** ** [Relay] *)

(** [toLeft] is the caller's [copyOneWay(leftConn, rightConn)], [toRight] the
    goroutine's; [result] is what [Relay] returned. *)
Record relay := MkRelay {
  toLeft : copy;
  toRight : copy;
  result : option (Z * Z * option error);
}.

Definition Relay_start (leftConn rightConn : Sink) : relay :=
  MkRelay (new_copy leftConn) (new_copy rightConn) None.

(** [rs := <-ch], which the goroutine's send meets, and the return. *)
Definition Relay_join (r : relay) : relay :=
  let err := match copy_err (toLeft r) with None => copy_err (toRight r) | err => err end in
  MkRelay (with_pc Joined (toLeft r)) (with_pc Joined (toRight r))
    (Some (written_bytes (toLeft r), written_bytes (toRight r), err)).

Inductive relay_step : relay -> relay -> Prop :=
| relay_left r c : copy_step (toLeft r) c -> relay_step r (MkRelay c (toRight r) (result r))
| relay_right r c : copy_step (toRight r) c -> relay_step r (MkRelay (toLeft r) c (result r))
| relay_join r :
    pc (toLeft r) = ReadClosed -> pc (toRight r) = ReadClosed -> relay_step r (Relay_join r).

Inductive relay_env : relay -> relay -> Prop :=
| env_left r c : peer_step (toLeft r) c -> relay_env r (MkRelay c (toRight r) (result r))
| env_right r c : peer_step (toRight r) c -> relay_env r (MkRelay (toLeft r) c (result r)).

Definition relay_any (r r' : relay) : Prop := relay_step r r' \/ relay_env r r'.

(** ** Lemmas *)

(** For a copy into the sink [s0]: everything the peer sent was written, is lost
    in a failed write, or is unread. *)
Record copy_inv (s0 : Sink) (c : copy) : Prop := {
  ci_reliable : reliable s0 -> reliable (dst c);
  ci_bytes : exists lost, sent c = concat (written (dst c)) ++ lost ++ arrived c /\
    (pc c = Copying \/ copy_err c = None \/ reliable s0 -> lost = []);
  ci_count : written_bytes c = int64 (Z.of_nat (length (concat (written (dst c)))));
  ci_copying : pc c = Copying -> copy_err c = None;
  ci_ended : pc c <> Copying -> copy_err c = None \/ reliable s0 ->
    arrived c = [] /\ ended c = Some (default EOF (copy_err c));
}.

Lemma Sink_write_cases s p n e s' :
  Sink_write s p = (n, e, s') ->
  written s' = written s ++ [take n p] /\ n <= length p /\
  (e = None -> n = length p) /\ (reliable s -> e = None /\ reliable s').
Proof.
  unfold Sink_write, reliable. destruct (plan s) as [|[[k x]|] rest] eqn:E; intros; simplify_eq/=;
    rewrite ?firstn_all; split_and!; try done; try lia.
  - by rewrite <- firstn_firstn, firstn_all.
  - by intros [? ?]%Forall_cons.
  - by intros [? ?]%Forall_cons.
Qed.

Lemma new_copy_inv s : written s = [] -> copy_inv s (new_copy s).
Proof.
  intros Hs. split; simpl; try done; rewrite Hs; [|done]. by exists [].
Qed.

Lemma peer_step_inv s0 c c' : copy_inv s0 c -> peer_step c c' -> copy_inv s0 c'.
Proof.
  intros [Hrel (lost & Hb & Hl) Hn Hc He] Hs.
  destruct Hs as [c data Hend Hd|c er Hend]; split; simpl; try done.
  - exists lost. split; [|done]. by rewrite Hb, <- !app_assoc.
  - intros Hp Hx. destruct (He Hp Hx) as [_ ?]. congruence.
  - by exists lost.
  - intros Hp Hx. destruct (He Hp Hx) as [_ ?]. congruence.
Qed.

Lemma reads_split c buf rest er :
  reads c buf rest er -> arrived c = buf ++ rest /\
  (er = None -> buf <> []) /\ (er <> None -> rest = [] /\ ended c = er).
Proof. intros [buf' rest' E Hb _|buf' x E Hx _]; [done|]. by rewrite app_nil_r. Qed.

Lemma copy_body_inv s0 c buf rest er :
  copy_inv s0 c -> pc c = Copying -> reads c buf rest er -> copy_inv s0 (copy_body buf rest er c).
Proof.
  intros [Hrel0 (lost & Hb & Hl) Hn Hc _] Hp Hr.
  assert (lost = []) as -> by (apply Hl; by left).
  apply reads_split in Hr as (Ha & _ & Hend). rewrite Ha in Hb. simpl in Hb.
  assert (forall sink n, (reliable s0 -> reliable sink) -> concat (written sink) = concat (written (dst c)) ++ buf ->
    n = int64 (Z.of_nat (length (concat (written (dst c)) ++ buf))) ->
    copy_inv s0 (match er with
      | None => MkCopy Copying rest (ended c) sink n None (sent c)
      | Some er => MkCopy Copied rest (ended c) sink n
                     (if decide (er = EOF) then None else Some er) (sent c)
      end)) as Hafter.
  { intros sink n Hk Hs ->. destruct er as [x|].
    - destruct Hend as [-> Hend]; [done|]. split; simpl; try done.
      + exists []. rewrite Hs. split; [|done]. by rewrite Hb, <- !app_assoc.
      + by rewrite Hs.
      + intros _ _. split; [done|]. rewrite Hend. by case_decide as Hx; simplify_eq/=.
    - split; simpl; try done.
      + exists []. rewrite Hs. split; [|done]. by rewrite Hb, <- !app_assoc.
      + by rewrite Hs. }
  unfold copy_body. destruct buf as [|b buf'].
  { apply Hafter; [done|by rewrite app_nil_r|]. by rewrite app_nil_r. }
  remember (b :: buf') as buf.
  destruct (Sink_write (dst c) buf) as [[nw ew] sink] eqn:E.
  apply Sink_write_cases in E as (Hw & Hle & Hfull & Hrel).
  assert (int64 (written_bytes c + Z.of_nat nw) =
          int64 (Z.of_nat (length (concat (written sink))))) as Hcount.
  { rewrite Hn, int64_add_l, Hw, concat_snoc, length_app, length_take. f_equal. lia. }
  destruct ew as [x|].
  - assert (~ reliable s0) as Hno by (by intros [? _]%Hrel0%Hrel).
    split; simpl; try done.
    + exists (drop nw buf). rewrite Hw, concat_snoc. split.
      * rewrite <- app_assoc, (app_assoc (take nw buf)), firstn_skipn. done.
      * by intros [?|[?|?]].
    + by intros _ [?|?].
  - rewrite decide_False by (rewrite Hfull by done; by intros []).
    apply Hafter; rewrite (Hfull eq_refl) in *.
    + by intros [_ ?]%Hrel0%Hrel.
    + by rewrite Hw, concat_snoc, firstn_all.
    + rewrite Hcount, Hw, concat_snoc, firstn_all. done.
Qed.

Lemma with_pc_inv s0 p c :
  copy_inv s0 c -> pc c <> Copying -> p <> Copying -> copy_inv s0 (with_pc p c).
Proof.
  intros [Hrel (lost & Hb & Hl) Hn Hc He] Hp Hp'; split; simpl; try done.
  - exists lost. split; [done|]. intros [?|?]; [done|]. apply Hl. by right.
  - intros _. by apply He.
Qed.

Lemma copy_step_inv s0 c c' : copy_inv s0 c -> copy_step c c' -> copy_inv s0 c'.
Proof.
  intros Hi Hs. destruct Hs as [c buf rest er Hp Hr|c Hp|c Hp]; [by apply copy_body_inv|..];
    (apply with_pc_inv; [done|congruence|done]).
Qed.

Lemma copy_body_pc c buf rest er :
  pc (copy_body buf rest er c) = Copying \/ pc (copy_body buf rest er c) = Copied.
Proof.
  unfold copy_body. destruct buf; [by destruct er; auto|].
  destruct (Sink_write _ _) as [[nw [ew|]] sink]; [by auto|].
  case_decide; [by auto|]. by destruct er; auto.
Qed.

(** No step of a copy is a return of [Relay]. *)
Lemma copy_step_pc c c' : copy_step c c' -> pc c <> Joined /\ pc c' <> Joined.
Proof.
  intros [c0 buf rest er Hp _|c0 Hp|c0 Hp]; (split; [congruence|]); [|done..].
  destruct (copy_body_pc c0 buf rest er); congruence.
Qed.

Lemma peer_step_frame c c' : peer_step c c' ->
  pc c' = pc c /\ written_bytes c' = written_bytes c /\ copy_err c' = copy_err c /\ ended c = None.
Proof. by intros []. Qed.

(** What [Relay] returns once both copies are joined. *)
Definition joined (r : relay) (res : Z * Z * option error) : Prop :=
  pc (toLeft r) = Joined /\ pc (toRight r) = Joined /\
  res = (written_bytes (toLeft r), written_bytes (toRight r),
         match copy_err (toLeft r) with None => copy_err (toRight r) | err => err end).

Definition result_inv (r : relay) : Prop :=
  match result r with
  | None => pc (toLeft r) <> Joined /\ pc (toRight r) <> Joined
  | Some res => joined r res
  end.

Definition relay_inv (leftConn rightConn : Sink) (r : relay) : Prop :=
  copy_inv leftConn (toLeft r) /\ copy_inv rightConn (toRight r) /\ result_inv r.

Lemma relay_any_inv L R r r' : relay_inv L R r -> relay_any r r' -> relay_inv L R r'.
Proof.
  intros (HL & HR & Hres) [Hs|Hs].
  - destruct Hs as [[? ? []] c Hc|[? ? []] c Hc|r H1 H2]; unfold relay_inv, result_inv in *; simpl in *.
    + apply copy_step_pc in Hc as [? _]. by destruct Hres.
    + split_and!; [by eapply copy_step_inv|done| |apply Hres]. by apply copy_step_pc in Hc as [_ ?].
    + apply copy_step_pc in Hc as [? _]. by destruct Hres as (_ & ? & _).
    + split_and!; [done|by eapply copy_step_inv|apply Hres|]. by apply copy_step_pc in Hc as [_ ?].
    + split_and!; try done; (apply with_pc_inv; [done|congruence|done]).
  - destruct Hs as [[? ? []] c Hc|[? ? []] c Hc]; unfold relay_inv, result_inv, joined in *; simpl in *;
      pose proof (peer_step_frame _ _ Hc) as (-> & E1 & E2 & _); rewrite ?E1, ?E2;
      (split_and!; try done; [by eapply peer_step_inv|..]; apply Hres).
Qed.

Lemma relay_reachable L R r :
  written L = [] -> written R = [] -> rtc relay_any (Relay_start L R) r -> relay_inv L R r.
Proof.
  intros HL HR Hr. remember (Relay_start L R) as r0 eqn:E.
  assert (relay_inv L R r0) as H0.
  { subst. split_and!; [by apply new_copy_inv|by apply new_copy_inv|done]. }
  clear E. induction Hr as [|r0 r1 r2 H1 _ IH]; [done|]. apply IH. by eapply relay_any_inv.
Qed.

(** The copy into [s0] delivered the stream of its peer. *)
Definition delivered (s0 : Sink) (c : copy) : Prop :=
  (exists rest, sent c = concat (written (dst c)) ++ rest) /\
  (pc c <> Copying -> copy_err c = None \/ reliable s0 ->
   concat (written (dst c)) = sent c /\ ended c = Some (default EOF (copy_err c))).

Lemma copy_inv_delivered s0 c : copy_inv s0 c -> delivered s0 c.
Proof.
  intros [_ (lost & Hb & Hl) _ _ He]. split; [by eexists|]. intros Hp Hx.
  destruct (He Hp Hx) as [Ha ->]. split; [|done].
  rewrite Hl in Hb by tauto. by rewrite Hb, Ha, app_nil_r.
Qed.

(** ** Termination *)

Definition copy_work (c : copy) : nat :=
  match pc c with
  | Copying => 2 * length (arrived c) + 5
  | Copied => 4
  | WriteClosed => 3
  | ReadClosed => 2
  | Joined => 0
  end.

Lemma copy_step_work c c' : copy_step c c' -> copy_work c' < copy_work c.
Proof.
  intros Hs. destruct Hs as [c buf rest er Hp Hr|c Hp|c Hp]; unfold copy_work; rewrite Hp; simpl; try lia.
  pose proof Hr as (Ha & Hbuf & _)%reads_split.
  assert (er = None -> length rest < length (arrived c)) as Hlt.
  { intros Hx. rewrite Ha, length_app. specialize (Hbuf Hx). destruct buf; [done|]. simpl. lia. }
  unfold copy_body. destruct buf.
  { destruct er; simpl; [lia|]. specialize (Hlt eq_refl). lia. }
  destruct (Sink_write _ _) as [[nw [ew|]] sink]; simpl; [lia|].
  case_decide; simpl; [lia|]. destruct er; simpl; [lia|]. specialize (Hlt eq_refl). lia.
Qed.

(** A copy that runs can make a step unless it waits for its peer. *)
Definition waits (c : copy) : Prop := pc c = Copying /\ arrived c = [] /\ ended c = None.

Lemma copy_buffer_big n : n <= 1024 -> n <= copy_buffer.
Proof. unfold copy_buffer. lia. Qed.

Lemma copy_enabled c :
  pc c <> ReadClosed -> pc c <> Joined -> ~ waits c -> exists c', copy_step c c'.
Proof.
  intros H1 H2 Hw. destruct (pc c) eqn:Hp; try done; [|eexists; by constructor..].
  destruct (arrived c) as [|b rest] eqn:Ha.
  - destruct (ended c) as [er|] eqn:He; [|by destruct Hw].
    eexists. apply (step_round c [] [] (Some er)); [done|]. apply reads_last; [done|done|]. apply copy_buffer_big. simpl. lia.
  - eexists. apply (step_round c [b] rest None); [done|]. apply reads_some; [done|done|]. apply copy_buffer_big. simpl. lia.
Qed.

Definition relay_work (r : relay) : nat := copy_work (toLeft r) + copy_work (toRight r).

Lemma relay_step_work r r' : relay_step r r' -> relay_work r' < relay_work r.
Proof.
  unfold relay_work. intros [? c Hc%copy_step_work|? c Hc%copy_step_work|? H1 H2]; simpl; try lia.
  unfold copy_work. rewrite H1, H2. simpl. lia.
Qed.

Lemma relay_enabled L R r :
  relay_inv L R r -> result r = None -> ~ waits (toLeft r) -> ~ waits (toRight r) ->
  exists r', relay_step r r'.
Proof.
  intros (_ & _ & Hres) E HwL HwR. unfold result_inv in Hres. rewrite E in Hres.
  destruct Hres as [HL HR].
  destruct (decide (pc (toLeft r) = ReadClosed)) as [EL|NL].
  - destruct (decide (pc (toRight r) = ReadClosed)) as [ER|NR].
    + eexists. by apply relay_join.
    + destruct (copy_enabled _ NR HR HwR) as [c Hc]. eexists. by apply relay_right.
  - destruct (copy_enabled _ NL HL HwL) as [c Hc]. eexists. by apply relay_left.
Qed.

(** Both peers ended their streams. *)
Definition both_ended (r : relay) : Prop := ended (toLeft r) <> None /\ ended (toRight r) <> None.

Lemma copy_step_ended c c' : copy_step c c' -> ended c' = ended c.
Proof.
  intros []; simpl; try done. unfold copy_body. destruct buf; [by destruct er|].
  destruct (Sink_write _ _) as [[nw [ew|]] sink]; [done|]. case_decide; [done|]. by destruct er.
Qed.

Lemma ended_step r r' : both_ended r -> relay_any r r' -> relay_step r r' /\ both_ended r'.
Proof.
  unfold both_ended. intros [HL HR] [Hs|Hs].
  - split; [done|]. by destruct Hs as [? c E%copy_step_ended|? c E%copy_step_ended|]; simpl;
      rewrite ?E.
  - destruct Hs as [r c Hc|r c Hc]; by apply peer_step_frame in Hc as (_ & _ & _ & ?).
Qed.

Lemma ended_run n r r' :
  both_ended r -> nsteps relay_any n r r' -> n + relay_work r' <= relay_work r /\ both_ended r'.
Proof.
  intros Hb Hn. induction Hn as [r|n r1 r2 r3 H1 _ IH]; [lia || (split; [lia|done])|].
  destruct (ended_step _ _ Hb H1) as [Hs Hb2]. apply relay_step_work in Hs.
  destruct (IH Hb2). split; [lia|done].
Qed.

Lemma ended_not_waits r : both_ended r -> ~ waits (toLeft r) /\ ~ waits (toRight r).
Proof. intros [HL HR]. by split; intros (_ & _ & ?). Qed.

Lemma relay_finishes L R r :
  relay_inv L R r -> both_ended r -> exists r', rtc relay_step r r' /\ result r' <> None.
Proof.
  intros Hi. remember (relay_work r) as w eqn:Hw. revert r Hi Hw.
  induction w as [w IH] using lt_wf_ind. intros r Hi -> Hb.
  destruct (result r) as [res|] eqn:E; [exists r; split; [done|by rewrite E]|].
  destruct (ended_not_waits r Hb) as [HwL HwR].
  destruct (relay_enabled L R r Hi E HwL HwR) as [r1 Hs].
  assert (relay_any r r1) as Ha by (by left).
  destruct (IH (relay_work r1) (relay_step_work _ _ Hs) r1) as (r' & Hr & Hres);
    [by eapply relay_any_inv|done|by eapply ended_step|].
  exists r'. split; [by eapply rtc_l|done].
Qed.

(** ** Properties *)

(** C27: in every interleaving of the two copies of [Relay] with their peers,
    what each connection received is a prefix of what the other's peer sent;
    when a direction half-closes its destination without an error, or to a
    connection whose writes succeed, the peer had ended its stream and all of
    it was delivered; and what [Relay] returns are the two byte counts and the
    left copy's error or else the right one's, so that a nil error means that
    both streams ended and were delivered in full. *)
Theorem relay_delivers (leftConn rightConn : Sink) (r : relay) :
  written leftConn = [] -> written rightConn = [] ->
  rtc relay_any (Relay_start leftConn rightConn) r ->
  delivered leftConn (toLeft r) /\ delivered rightConn (toRight r) /\
  forall n m err, result r = Some (n, m, err) ->
    n = int64 (Z.of_nat (length (concat (written (dst (toLeft r)))))) /\
    m = int64 (Z.of_nat (length (concat (written (dst (toRight r)))))) /\
    (err = match copy_err (toLeft r) with None => copy_err (toRight r) | err => err end) /\
    (err = None ->
     concat (written (dst (toLeft r))) = sent (toLeft r) /\ ended (toLeft r) = Some EOF /\
     concat (written (dst (toRight r))) = sent (toRight r) /\ ended (toRight r) = Some EOF).
Proof.
  intros HL HR Hr. destruct (relay_reachable _ _ _ HL HR Hr) as (HcL & HcR & Hres).
  pose proof (copy_inv_delivered _ _ HcL) as HdL. pose proof (copy_inv_delivered _ _ HcR) as HdR.
  split_and!; [done|done|]. intros n m err E. unfold result_inv in Hres. rewrite E in Hres.
  destruct Hres as (PL & PR & [= -> -> ->]).
  split_and!; [apply (ci_count _ _ HcL)|apply (ci_count _ _ HcR)|done|].
  intros Hn. assert (copy_err (toLeft r) = None) as EL by (by destruct (copy_err (toLeft r))).
  rewrite EL in Hn. destruct HdL as [_ HdL], HdR as [_ HdR].
  rewrite EL in HdL. rewrite Hn in HdR.
  destruct HdL as [-> ->]; [congruence|by left|]. destruct HdR as [-> ->]; [congruence|by left|].
  done.
Qed.

(** C29: [Relay] terminates once both peers have ended their streams: from any
    state it reached, no run is longer than the work left, some run makes it
    return, and a run can only stop where it has returned.  Until then every
    step of [Relay] itself decreases the work left, and it is stuck only
    waiting for a peer. *)
Theorem relay_terminates (leftConn rightConn : Sink) (r : relay) :
  written leftConn = [] -> written rightConn = [] ->
  rtc relay_any (Relay_start leftConn rightConn) r ->
  (forall r', relay_step r r' -> relay_work r' < relay_work r) /\
  (result r = None -> ~ waits (toLeft r) -> ~ waits (toRight r) -> exists r', relay_step r r') /\
  (both_ended r ->
   (forall n r', nsteps relay_any n r r' ->
      n <= relay_work r /\ (result r' <> None \/ exists r'', relay_step r' r'')) /\
   exists r', rtc relay_step r r' /\ result r' <> None).
Proof.
  intros HL HR Hr. pose proof (relay_reachable _ _ _ HL HR Hr) as Hi. split_and!.
  - apply relay_step_work.
  - by apply (relay_enabled leftConn rightConn).
  - intros Hb. split; [|by eapply relay_finishes]. intros n r' Hn.
    destruct (ended_run _ _ _ Hb Hn) as [Hle Hb']. split; [lia|].
    destruct (result r') eqn:E; [by left|right].
    destruct (ended_not_waits r' Hb'). apply (relay_enabled leftConn rightConn); try done.
    apply (relay_reachable _ _ _ HL HR). etrans; [done|]. by eapply rtc_nsteps_2.
Qed.

(** ** A run

    The left peer sends two bytes and ends, the right one ends at once. *)
Definition ex_sink : Sink := MkSink [] [].
Definition ex_data : bytes := [byte_of_Z 104; byte_of_Z 105].
Definition ex_left (p : copy_pc) : copy := MkCopy p [] (Some EOF) ex_sink 0 None [].
Definition ex_unread (er : option error) : copy := MkCopy Copying ex_data er ex_sink 0 None ex_data.
Definition ex_right (p : copy_pc) : copy :=
  MkCopy p [] (Some EOF) (MkSink [ex_data] []) 2 None ex_data.
Definition ex_relay (p q : copy_pc) : relay := MkRelay (ex_left p) (ex_right q) None.

Lemma ex_relay_copied : rtc relay_any (Relay_start ex_sink ex_sink) (ex_relay Copied Copied).
Proof.
  apply rtc_l with (MkRelay (new_copy ex_sink) (ex_unread None) None).
  { right. apply env_right, (peer_sends (new_copy ex_sink) ex_data); done. }
  apply rtc_l with (MkRelay (new_copy ex_sink) (ex_unread (Some EOF)) None).
  { right. by apply env_right, (peer_ends (ex_unread None) EOF). }
  apply rtc_l with (MkRelay (ex_left Copying) (ex_unread (Some EOF)) None).
  { right. by apply env_left, (peer_ends (new_copy ex_sink) EOF). }
  apply rtc_l with (MkRelay (ex_left Copied) (ex_unread (Some EOF)) None).
  { left. apply relay_left, (step_round (ex_left Copying) [] [] (Some EOF)); [done|].
    apply reads_last; [done|done|]. apply copy_buffer_big. simpl. lia. }
  apply rtc_once. left.
  apply relay_right, (step_round (ex_unread (Some EOF)) ex_data [] (Some EOF)); [done|].
  apply reads_last; [done|done|]. apply copy_buffer_big. simpl. lia.
Qed.

Definition ex_returned : relay := Relay_join (ex_relay ReadClosed ReadClosed).

Lemma ex_relay_reach : rtc relay_any (Relay_start ex_sink ex_sink) ex_returned.
Proof.
  etrans; [apply ex_relay_copied|].
  apply rtc_l with (ex_relay WriteClosed Copied).
  { left. by apply relay_left, (step_CloseWrite (ex_left Copied)). }
  apply rtc_l with (ex_relay WriteClosed WriteClosed).
  { left. by apply relay_right, (step_CloseWrite (ex_right Copied)). }
  apply rtc_l with (ex_relay WriteClosed ReadClosed).
  { left. by apply relay_right, (step_CloseRead (ex_right WriteClosed)). }
  apply rtc_l with (ex_relay ReadClosed ReadClosed).
  { left. by apply relay_left, (step_CloseRead (ex_left WriteClosed)). }
  apply rtc_once. left. by apply relay_join.
Qed.

Lemma relay_delivers_witness :
  result ex_returned = Some (0, 2, None)%Z /\
  concat (written (dst (toRight ex_returned))) = sent (toRight ex_returned).
Proof.
  split; [reflexivity|].
  destruct (relay_delivers ex_sink ex_sink _ eq_refl eq_refl ex_relay_reach) as (_ & _ & H).
  destruct (H 0 2 None)%Z as (_ & _ & _ & Hn); [reflexivity|].
  destruct (Hn eq_refl) as (_ & _ & -> & _). reflexivity.
Defined.

Lemma relay_terminates_witness :
  exists r', rtc relay_step (ex_relay Copied Copied) r' /\ result r' <> None.
Proof.
  destruct (relay_terminates ex_sink ex_sink _ eq_refl eq_refl ex_relay_copied) as (_ & _ & H).
  destruct H as [_ He]; [by split|exact He].
Defined.
