(* ===== verification/Helpers.v ===== *)
(** * Helpers

    [utils/functions.go]: the substring list test, the number parser and the
    printing of sizes, with the parts of packages [strings] and [strconv] they and [DeviceUtil.go]
    use, on ASCII text. *)
From Stdlib Require Import Strings.Ascii.
From stdpp Require Import pretty.
From S2P Require Import Prelude.

Local Open Scope Z_scope.

(** ** [strings] *)

Definition Contains (s substr : string) : bool :=
  match String.index 0 substr s with Some _ => true | None => false end.

Definition isListContainsStr (list : list string) (str : string) : bool :=
  existsb (fun x => Contains str x) list.

(** [strings.Split(s, sep)] for a separator of one character. *)
Fixpoint Split (s : string) (sep : ascii) : list string :=
  match s with
  | EmptyString => [EmptyString]
  | String c s =>
    if decide (c = sep) then EmptyString :: Split s sep
    else match Split s sep with
         | w :: ws => String c w :: ws
         | [] => [String c EmptyString]
         end
  end.

Definition isSpace (c : ascii) : bool :=
  let n := nat_of_ascii c in ((9 <=? n) && (n <=? 13))%nat || (n =? 32)%nat.

(** [strings.Fields]: the maximal runs of other characters; [w] is the run being
    read. *)
Fixpoint Fields_loop (s w : string) : list string :=
  let flush (l : list string) := if decide (w = EmptyString) then l else w :: l in
  match s with
  | EmptyString => flush []
  | String c s =>
    if isSpace c then flush (Fields_loop s EmptyString)
    else Fields_loop s (w +:+ String c EmptyString)
  end.

Definition Fields (s : string) : list string := Fields_loop s EmptyString.

(** ** [strconv.ParseUint(s, 0, 64)] *)

Definition code (c : ascii) : Z := Z.of_nat (nat_of_ascii c).
(** [lower(c)] is [c | ('x' - 'X')]. *)
Definition lower (c : ascii) : Z := Z.lor (code c) 32.

Inductive parsed := Syntax | Range | Number (n : Z).

Definition digit (c : ascii) : option Z :=
  if bool_decide (48 <= code c <= 57) then Some (code c - 48)
  else if bool_decide (97 <= lower c <= 122) then Some (lower c - 97 + 10)
  else None.

(** The loop over the digits, [us] when an underscore was seen. *)
Fixpoint ParseUint_loop (base : Z) (s : string) (n : Z) (us : bool) : parsed * bool :=
  match s with
  | EmptyString => (Number n, us)
  | String c s =>
    if bool_decide (code c = 95) then ParseUint_loop base s n true
    else
      match digit c with
      | None => (Syntax, us)
      | Some d =>
        if bool_decide (base <= d) then (Syntax, us)
        else if bool_decide (2 ^ 64 <= n * base + d) then (Range, us)
        else ParseUint_loop base s (n * base + d) us
      end
  end.

(** The base and the digits that follow its prefix. *)
Definition base_prefix (s : string) : Z * string :=
  match s with
  | String "0" (String b (String c t)) =>
    if bool_decide (lower b = 98) then (2, String c t)
    else if bool_decide (lower b = 111) then (8, String c t)
    else if bool_decide (lower b = 120) then (16, String c t)
    else (8, String b (String c t))
  | String "0" t => (8, t)
  | _ => (10, s)
  end.

(** [underscoreOK]: [saw] is the class of the last character. *)
Inductive class := Begin | Digit | Underscore | Other.

Fixpoint underscoreOK_loop (hex : bool) (saw : class) (s : string) : bool :=
  match s with
  | EmptyString => match saw with Underscore => false | _ => true end
  | String c s =>
    if bool_decide (48 <= code c <= 57) || hex && bool_decide (97 <= lower c <= 102)
    then underscoreOK_loop hex Digit s
    else if bool_decide (code c = 95) then
      match saw with Digit => underscoreOK_loop hex Underscore s | _ => false end
    else match saw with Underscore => false | _ => underscoreOK_loop hex Other s end
  end.

Definition underscoreOK (s : string) : bool :=
  match s with
  | String "0" (String b t) =>
    if bool_decide (lower b = 98 \/ lower b = 111 \/ lower b = 120)
    then underscoreOK_loop (bool_decide (lower b = 120)) Digit t
    else underscoreOK_loop false Begin s
  | _ => underscoreOK_loop false Begin s
  end.

Definition ParseUint (s : string) : parsed :=
  match s with
  | EmptyString => Syntax
  | _ =>
    let '(base, digits) := base_prefix s in
    match ParseUint_loop base digits 0 false with
    | (Number n, us) => if us && negb (underscoreOK s) then Syntax else Number n
    | (e, _) => e
    end
  end.

(** The value [ParseUint] returns, with its error or not. *)
Definition ParseUint_value (s : string) : Z :=
  match ParseUint s with Syntax => 0 | Range => 2 ^ 64 - 1 | Number n => n end.

(** [strconv.ParseInt(s, 0, 64)]; a range error of [ParseUint] goes on with
    2^64 - 1, which is out of range here too. *)
Definition ParseInt (s : string) : option Z :=
  let '(neg, t) :=
    match s with
    | String "-" t => (true, t)
    | String "+" t => (false, t)
    | _ => (false, s)
    end in
  match ParseUint t with
  | Syntax | Range => None
  | Number un =>
    if neg then if bool_decide (2 ^ 63 < un) then None else Some (- un)
    else if bool_decide (2 ^ 63 <= un) then None else Some un
  end.

Definition Str2Int (pre : string) : Z := default 0 (ParseInt pre).

(** ** Lemmas *)

Example Str2Int_examples :
  Str2Int "8388" = 8388 /\ Str2Int "-0x1F" = -31 /\ Str2Int "0755" = 493 /\
  Str2Int "1_000" = 1000 /\ Str2Int "1__0" = 0 /\ Str2Int "0_7" = 7 /\ Str2Int "8 " = 0 /\
  Str2Int "09" = 0 /\ Str2Int "" = 0 /\ Str2Int "9223372036854775807" = 2 ^ 63 - 1 /\
  Str2Int "9223372036854775808" = 0 /\ Str2Int "-9223372036854775808" = - 2 ^ 63.
Proof. vm_compute. done. Qed.

Lemma ParseUint_loop_range base s n us m us' :
  0 <= n < 2 ^ 64 -> 0 < base -> ParseUint_loop base s n us = (Number m, us') -> 0 <= m < 2 ^ 64.
Proof.
  intros Hn Hb. revert n us Hn. induction s as [|c s IH]; simpl; intros n us Hn E.
  - by simplify_eq.
  - case_bool_decide; [by apply (IH n true)|]. destruct (digit c) as [d|] eqn:Hd; [|done].
    case_bool_decide; [done|]. case_bool_decide; [done|]. eapply IH; [|done].
    unfold digit in Hd. repeat case_bool_decide; simplify_eq; nia.
Qed.

Lemma base_prefix_pos s : 0 < fst (base_prefix s).
Proof.
  unfold base_prefix. by repeat case_match.
Qed.

Lemma ParseUint_value_range s : 0 <= ParseUint_value s < 2 ^ 64.
Proof.
  unfold ParseUint_value, ParseUint. destruct s as [|c s]; [lia|].
  pose proof (base_prefix_pos (String c s)) as Hb.
  destruct (base_prefix (String c s)) as [base digits]. simpl in Hb.
  destruct (ParseUint_loop base digits 0 false) as [[| |n] us] eqn:E; try lia.
  apply ParseUint_loop_range in E; [|lia|done]. destruct (us && _); lia.
Qed.

(** The number is an [int]. *)
Lemma Str2Int_range s : - 2 ^ 63 <= Str2Int s < 2 ^ 63.
Proof.
  unfold Str2Int, ParseInt.
  destruct (match s with String "-" t => (true, t) | String "+" t => (false, t) | _ => (false, s) end)
    as [neg t].
  pose proof (ParseUint_value_range t) as Hv. unfold ParseUint_value in Hv.
  destruct (ParseUint t) as [| |un]; simpl; try lia.
  destruct neg; case_bool_decide; simpl; lia.
Qed.

Lemma isListContainsStr_spec l str :
  isListContainsStr l str = true <-> exists x, x ∈ l /\ Contains str x = true.
Proof.
  unfold isListContainsStr. rewrite existsb_exists. by setoid_rewrite <- list_elem_of_In.
Qed.

(** ** [FormatFileSize] *)

(** The nearest integer to [a / b], an even one when two are as near. *)
Definition round_even (a b : Z) : Z :=
  let q := a / b in let r := a mod b in
  if bool_decide (2 * r < b) then q
  else if bool_decide (b < 2 * r) then q + 1
  else if Z.even q then q else q + 1.

(** [float64(n)]: 53 bits of it. *)
Definition float64 (n : Z) : Z :=
  let e := Z.max 0 (Z.log2 (Z.abs n) - 52) in
  Z.sgn n * (round_even (Z.abs n) (2 ^ e) * 2 ^ e).

Definition two_digits (n : Z) : string := pretty (n / 10) +:+ pretty (n mod 10).

(** [fmt.Sprintf] with [%.2f] of [n / 2^k], which a float64 holds exactly, from
    the hundredths of it. *)
Definition hundredths (n k : Z) : Z := round_even (100 * Z.abs n) (2 ^ k).

Definition Sprintf_2f (n k : Z) : string :=
  let h := hundredths n k in
  (if bool_decide (n < 0) then "-" else "") +:+ pretty (h / 100) +:+ "." +:+ two_digits (h mod 100).

Definition FormatFileSize (fileSize : Z) : string :=
  if bool_decide (fileSize < 1024) then Sprintf_2f (float64 fileSize) 0 +:+ "B"
  else if bool_decide (fileSize < 1024 * 1024) then Sprintf_2f (float64 fileSize) 10 +:+ "KB"
  else if bool_decide (fileSize < 1024 * 1024 * 1024) then Sprintf_2f (float64 fileSize) 20 +:+ "MB"
  else if bool_decide (fileSize < 1024 * 1024 * 1024 * 1024)
  then Sprintf_2f (float64 fileSize) 30 +:+ "GB"
  else if bool_decide (fileSize < 1024 * 1024 * 1024 * 1024 * 1024)
  then Sprintf_2f (float64 fileSize) 40 +:+ "TB"
  else Sprintf_2f (float64 fileSize) 50 +:+ "PB".

Lemma round_even_near a b : 0 < b -> 2 * Z.abs (round_even a b * b - a) <= b.
Proof.
  intros Hb. pose proof (Z.div_mod a b) as Hd. pose proof (Z.mod_pos_bound a b Hb).
  unfold round_even. repeat case_bool_decide; [nia|nia|]. destruct (Z.even _); nia.
Qed.

(** Sizes up to 2^53 bytes, 8 PB, are held exactly. *)
Lemma float64_exact n : Z.abs n < 2 ^ 53 -> float64 n = n.
Proof.
  intros Hn. unfold float64.
  assert (Z.log2 (Z.abs n) <= 52) as Hl.
  { destruct (decide (n = 0)) as [->|Hz]; [done|].
    assert (Z.log2 (Z.abs n) < 53) by (apply Z.log2_lt_pow2; lia). lia. }
  rewrite Z.max_l by lia. unfold round_even. rewrite Z.div_1_r, Z.mod_1_r.
  change (2 ^ 0) with 1. rewrite bool_decide_eq_true_2 by lia. lia.
Qed.

(** The number printed is within half a hundredth of the size in its unit, and
    below 1024 of the unit it rounds to at most 1024.00. *)
Lemma hundredths_near n k :
  0 <= k -> 0 <= n ->
  2 * Z.abs (hundredths n k * 2 ^ k - 100 * n) <= 2 ^ k /\
  (n < 1024 * 2 ^ k -> hundredths n k <= 102400).
Proof.
  intros Hk Hn. pose proof (Z.pow_pos_nonneg 2 k ltac:(lia) Hk) as Hp.
  pose proof (round_even_near (100 * Z.abs n) (2 ^ k) Hp) as Hr.
  unfold hundredths. rewrite (Z.abs_eq n) in Hr |- * by done. split; [done|]. nia.
Qed.

Example FormatFileSize_examples :
  FormatFileSize 0 = "0.00B" /\ FormatFileSize (-5) = "-5.00B" /\
  FormatFileSize 1023 = "1023.00B" /\ FormatFileSize 1536 = "1.50KB" /\
  FormatFileSize 1152 = "1.12KB" /\ FormatFileSize 1048575 = "1024.00KB" /\
  FormatFileSize 1048576 = "1.00MB" /\ FormatFileSize (2 ^ 63 - 1) = "8192.00PB".
Proof. vm_compute. done. Qed.
