(* ===== verification/Logging.v ===== *)
(** * The log

    [mylog/log.go]: [Der], [Dd], [Logf] and the writer that prefixes what it is
    given, over the log as the list of its lines, with the part of [fmt.Sprintf]
    they use.  The time and the place that [log.Logger] puts before a line are
    left out. *)
From Stdlib Require Import Strings.Ascii.
From S2P Require Import Prelude.

(** ** [fmt.Sprintf] *)

(** An argument: its type's name and how [%v] prints it, or nil. *)
Definition argument : Type := option (string * string).

Definition printed (a : argument) : string :=
  match a with Some (_, s) => s | None => "<nil>" end.

Definition typed (a : argument) : string :=
  match a with Some (t, s) => t +:+ "=" +:+ s | None => "<nil>" end.

(** What follows the text when arguments are left over. *)
Definition extra (args : list argument) : string :=
  match args with
  | [] => ""
  | a :: args =>
    "%!(EXTRA " +:+ typed a +:+ foldr (fun a s => ", " +:+ typed a +:+ s) "" args +:+ ")"
  end.

(** The verbs [%v] and [%%]; other verbs are left as they are. *)
Fixpoint Sprintf (f : string) (args : list argument) : string :=
  match f with
  | EmptyString => extra args
  | String "%" EmptyString => "%!(NOVERB)" +:+ extra args
  | String "%" (String "%" f) => String "%" (Sprintf f args)
  | String "%" (String "v" f) =>
    match args with
    | [] => "%!v(MISSING)" +:+ Sprintf f []
    | a :: args => printed a +:+ Sprintf f args
    end
  | String c f => String c (Sprintf f args)
  end.

(** ** The package *)

(** The lines of the log. *)
Definition log : Type := list string.

(** [logger.Output]: a line ends in one line feed. *)
Definition newline : string := String "010" "".

Fixpoint last_char (s : string) : option ascii :=
  match s with
  | EmptyString => None
  | String c EmptyString => Some c
  | String _ s => last_char s
  end.

Definition Output (s : string) (l : log) : log :=
  l ++ [if decide (last_char s = Some "010"%char) then s else s +:+ newline].

(** [Der] ends the process on an error: [true]. *)
Definition Der (v : argument) (l : log) : bool * log :=
  match v with
  | Some _ => (true, Output (Sprintf "error:%v" [v]) l)
  | None => (false, l)
  end.

(** The loop of [Dd] that makes the format. *)
Fixpoint Dd_format (v : list argument) (ft : string) : string :=
  match v with
  | [] => ft
  | _ :: v => Dd_format v (ft +:+ "%v,")
  end.

Definition Dd (v : list argument) (l : log) : log := Output (Sprintf (Dd_format v "") v) l.

Definition Logf (f : string) (v : list argument) (l : log) : log := Output (Sprintf f v) l.

Record logHelper := MkLogHelper { prefix : string }.

Definition newLogHelper (prefix : string) : logHelper := MkLogHelper prefix.

(** [Write]: the count, the error, and the log after [Printf] of the prefix, the
    bytes and a line feed. *)
Definition logHelper_Write (h : logHelper) (p : bytes) (l : log) : nat * option error * log :=
  (length p, None, Output (prefix h +:+ String.string_of_list_byte p +:+ newline) l).

(** ** Lemmas *)

Lemma string_app_assoc (a b c : string) : a +:+ b +:+ c = (a +:+ b) +:+ c.
Proof. induction a as [|x a IH]; [done|]. exact (f_equal (String x) IH). Qed.

Lemma string_app_nil (a : string) : a +:+ "" = a.
Proof. induction a as [|x a IH]; [done|]. exact (f_equal (String x) IH). Qed.

(** The format of [Dd] has one verb for each value. *)
Definition verbs (v : list argument) : string := foldr (fun _ s => "%v," +:+ s) "" v.

Lemma Dd_format_eq v : forall ft, Dd_format v ft = ft +:+ verbs v.
Proof.
  induction v as [|a v IH]; intros ft; cbn [Dd_format verbs foldr]; [by rewrite string_app_nil|].
  rewrite IH. by rewrite <- string_app_assoc.
Qed.

(** [Dd] prints every value followed by a comma, whatever the values print,
    percent signs included: nothing is missing and nothing left over. *)
Lemma Dd_spec v l :
  Dd v l = Output (foldr (fun a s => printed a +:+ "," +:+ s) "" v) l.
Proof.
  unfold Dd. rewrite Dd_format_eq. cbn [String.append]. f_equal.
  change ("" +:+ verbs v) with (verbs v). induction v as [|a v IH]; [done|].
  transitivity (printed a +:+ "," +:+ Sprintf (verbs v) v); [reflexivity|]. by rewrite IH.
Qed.

Lemma last_char_newline s : last_char (s +:+ newline) = Some "010"%char.
Proof. induction s as [|c s IH]; [done|]. destruct s as [|d s]; [done|]. exact IH. Qed.

(** Every call adds one line, and every line of the log ends in a line feed. *)
Definition lines (l : log) : Prop := Forall (fun s => last_char s = Some "010"%char) l.

Lemma Output_lines s l : lines l -> lines (Output s l) /\ length (Output s l) = S (length l).
Proof.
  intros Hl. unfold Output. rewrite length_app, Nat.add_1_r. split; [|done].
  apply Forall_app. split; [done|]. apply Forall_singleton.
  case_decide as Hd; [exact Hd|apply last_char_newline].
Qed.

(** [Write] takes all it is given, as [io.Writer] asks, and adds no second line
    feed. *)
Lemma logHelper_Write_spec pre p l :
  logHelper_Write (newLogHelper pre) p l =
    (length p, None, l ++ [pre +:+ String.string_of_list_byte p +:+ newline]).
Proof.
  pose proof (last_char_newline (pre +:+ String.string_of_list_byte p)) as Hl.
  rewrite <- string_app_assoc in Hl. unfold logHelper_Write, Output. cbn [prefix newLogHelper].
  by rewrite decide_True.
Qed.

Example Logf_examples :
  Sprintf "proxy333 host:%v,user:%v" [Some ("string", "example.com"); Some ("string", "7")]
    = "proxy333 host:example.com,user:7" /\
  Sprintf "%v,%v" [None] = "<nil>,%!v(MISSING)" /\
  Sprintf "100%%" [Some ("int", "7")] = "100%%!(EXTRA int=7)".
Proof. done. Qed.
