(* ===== verification/Device.v ===== *)
(** * Device information

    [utils/DeviceUtil.go]: the network counters with their speeds, the disk
    sizes, and the report of the machine.  What gopsutil and the system say is
    an argument; a [uint64] is an integer kept below 2^64. *)
From S2P Require Import Prelude Cipher Helpers.

Local Open Scope Z_scope.

Definition expectDiskFsTypes : list string :=
  ["apfs"; "ext4"; "ext3"; "ext2"; "f2fs"; "reiserfs"; "jfs"; "btrfs";
   "fuseblk"; "zfs"; "simfs"; "ntfs"; "fat32"; "exfat"; "xfs"; "fuse.rclone"]%string.

Definition excludeNetInterfaces : list string :=
  ["lo"; "tun"; "docker"; "veth"; "br-"; "vmbr"; "vnet"; "kube"]%string.

(** ** [GetNetStat] *)

(** The package's variables. *)
Record netStats := MkNetStats {
  netInTransfer : Z;
  netOutTransfer : Z;
  lastUpdateNetStats : Z;
}.

(** [net.IOCountersStat]. *)
Record IOCounters := MkIO { ioName : string; BytesRecv : Z; BytesSent : Z }.

(** The loop: [in] and [out]. *)
Fixpoint sum_counters (s : list IOCounters) (i o : Z) : Z * Z :=
  match s with
  | [] => (i, o)
  | s2 :: s =>
    if isListContainsStr excludeNetInterfaces (ioName s2) then sum_counters s i o
    else sum_counters s (uint64 (i + BytesRecv s2)) (uint64 (o + BytesSent s2))
  end.

(** [GetNetStat] at [now] seconds: in, out, inSpeed, outSpeed and the error. *)
Definition GetNetStat (counters : list IOCounters + error) (unix : Z) (st : netStats)
    : (Z * Z * Z * Z * option error) * netStats :=
  match counters with
  | inr err => ((0, 0, 0, 0, Some err), st)
  | inl s =>
    let '(i, o) := sum_counters s 0 0 in
    let now := uint64 unix in
    let diff := uint64 (now - lastUpdateNetStats st) in
    let '(inSpeed, outSpeed) :=
      if bool_decide (0 < diff)
      then (uint64 (i - netInTransfer st) / diff, uint64 (o - netOutTransfer st) / diff)
      else (0, 0) in
    ((i, o, inSpeed, outSpeed, None), MkNetStats i o now)
  end.

(** ** [getDiskTotalAndUsed] *)

Record PartitionStat := MkPart { pDevice : string; Mountpoint : string; Fstype : string }.

Definition counted (devices : gmap string string) (d : PartitionStat) : bool :=
  bool_decide (default ""%string (devices !! pDevice d) = ""%string) &&
  isListContainsStr expectDiskFsTypes (ToLower (Fstype d)) &&
  negb (Contains (Mountpoint d) "/var/lib/kubelet").

Definition collect_devices (diskList : list PartitionStat) : gmap string string :=
  foldl (fun devices d => if counted devices d then <[pDevice d := Mountpoint d]> devices else devices)
    ∅ diskList.

(** The sum over the mount paths, in any order. *)
Definition add_usage (Usage : string -> option (Z * Z)) (acc : Z * Z) (mountPath : string) : Z * Z :=
  match Usage mountPath with
  | Some (t, u) => (uint64 (fst acc + t), uint64 (snd acc + u))
  | None => acc
  end.

(** A line of [df]: only that of the root sets the sizes. *)
Definition df_line (acc : Z * Z) (c : string) : Z * Z :=
  match Fields c with
  | [_; size; used; _; _; mount] =>
    if bool_decide (mount = "/"%string)
    then (uint64 (ParseUint_value size * 1024), uint64 (ParseUint_value used * 1024))
    else acc
  | _ => acc
  end.

(** [df] is its output on Linux, [None] elsewhere or when it fails;
    [order] is the order the map is visited in. *)
Definition getDiskTotalAndUsed (diskList : list PartitionStat) (Usage : string -> option (Z * Z))
    (df : option string) (order : gmap string string -> list string) : Z * Z :=
  let acc := foldl (add_usage Usage) (0, 0) (order (collect_devices diskList)) in
  if bool_decide (acc = (0, 0)) then
    match df with
    | Some out => foldl df_line acc (Split out (Ascii.ascii_of_nat 10))
    | None => acc
    end
  else acc.

(** ** [GetDeviceInfo] *)

(** [F] is float64. *)
Section DeviceInfo.
Context {F : Type}.

Record CpuInfo := MkCpu { cpuName : string; Cores : Z; cpuUsed : F }.

Record DeviceInfo := MkDevice {
  Cpu : list CpuInfo;
  MemTotal : Z;
  MemUsedPercent : F;
  DiskTotal : Z;
  DiskUsed : Z;
  BootTime : Z;
  TotalDown : Z;
  TotalUp : Z;
  LastDown : Z;
  LastUp : Z;
}.

(** What the system says: the load of each processor, their names and cores,
    the memory, the boot time, the network counters and the time, the disks.
    A failed call gives nil. *)
Record machine := MkMachine {
  cpu_Percent : option (list F);
  cpu_Info : option (list (string * Z));
  mem_VirtualMemory : option (Z * F);
  host_Info : option Z;
  net_IOCounters : list IOCounters + error;
  unix_now : Z;
  disk_Partitions : list PartitionStat;
  disk_Usage : string -> option (Z * Z);
  df_output : option string;
  range_devices : gmap string string -> list string;
}.

(** The loop over [info] from index [i]; [cp[i]] may be out of range. *)
Fixpoint cpu_loop (info : list (string * Z)) (cp : list F) (i : nat) : outcome (list CpuInfo) :=
  match info with
  | [] => Ret []
  | (ModelName, cores) :: info =>
    match cp !! i with
    | None => Panic "index out of range"
    | Some used =>
      rest ← cpu_loop info cp (S i);
      Ret (MkCpu ModelName cores used :: rest)
    end
  end.

Definition GetDeviceInfo (m : machine) (st : netStats) : outcome DeviceInfo * netStats :=
  let '((D, U, ND, NU, _), st) := GetNetStat (net_IOCounters m) (unix_now m) st in
  let cp := default [] (cpu_Percent m) in
  let info := default [] (cpu_Info m) in
  (cpus ← cpu_loop info cp 0;
   match mem_VirtualMemory m with
   | None => Panic "nil pointer dereference"
   | Some (total, usedPercent) =>
     let '(disT, DiskU) :=
       getDiskTotalAndUsed (disk_Partitions m) (disk_Usage m) (df_output m) (range_devices m) in
     match host_Info m with
     | None => Panic "nil pointer dereference"
     | Some bootTime =>
       Ret (MkDevice cpus (int64 total) usedPercent disT DiskU bootTime D U ND NU)
     end
   end, st).

End DeviceInfo.
Arguments CpuInfo F : clear implicits.
Arguments DeviceInfo F : clear implicits.
Arguments machine F : clear implicits.

(** ** Lemmas *)

Definition is_uint64 (z : Z) : Prop := 0 <= z < 2 ^ 64.

Lemma uint64_range z : is_uint64 (uint64 z).
Proof. unfold is_uint64, uint64, wrapU. by apply Z.mod_pos_bound. Qed.

Lemma uint64_id z : is_uint64 z -> uint64 z = z.
Proof. unfold is_uint64, uint64, wrapU. apply Z.mod_small. Qed.

Lemma uint64_add_l a b : uint64 (uint64 a + b) = uint64 (a + b).
Proof. unfold uint64, wrapU. by rewrite Z.add_mod_idemp_l by done. Qed.

Record netStats_ok (st : netStats) : Prop := {
  ns_in : is_uint64 (netInTransfer st);
  ns_out : is_uint64 (netOutTransfer st);
  ns_last : is_uint64 (lastUpdateNetStats st);
}.

(** The traffic of the interfaces that are not excluded. *)
Definition traffic (f : IOCounters -> Z) (s : list IOCounters) : Z :=
  foldr (fun c n =>
    (if isListContainsStr excludeNetInterfaces (ioName c) then 0 else f c) + n) 0 s.

Lemma sum_counters_spec s i o :
  is_uint64 i -> is_uint64 o ->
  sum_counters s i o = (uint64 (i + traffic BytesRecv s), uint64 (o + traffic BytesSent s)).
Proof.
  unfold traffic. revert i o. induction s as [|c s IH]; cbn [sum_counters foldr]; intros i o Hi Ho.
  - by rewrite !Z.add_0_r, !uint64_id.
  - destruct (isListContainsStr excludeNetInterfaces (ioName c)).
    + by rewrite IH, !Z.add_0_l.
    + rewrite IH by apply uint64_range. rewrite !uint64_add_l.
      by rewrite !Z.add_assoc.
Qed.

(** The speed of a counter that went from [prev] to [cur] in [diff] seconds: a
    counter that fell wraps around. *)
Definition speed (prev cur diff : Z) : Z :=
  if decide (prev <= cur) then (cur - prev) / diff else (2 ^ 64 - (prev - cur)) / diff.

Lemma uint64_sub_speed prev cur diff :
  is_uint64 prev -> is_uint64 cur -> uint64 (cur - prev) / diff = speed prev cur diff.
Proof.
  unfold is_uint64, speed. intros Hp Hc. unfold uint64, wrapU. case_decide; f_equal.
  - apply Z.mod_small. lia.
  - symmetry. apply Z.mod_unique with (q := -1); lia.
Qed.

(** ** The report *)

(** What [GetNetStat] returns and keeps when gopsutil answers. *)
Lemma GetNetStat_spec s now st :
  netStats_ok st -> is_uint64 now ->
  let i := uint64 (traffic BytesRecv s) in
  let o := uint64 (traffic BytesSent s) in
  let diff := uint64 (now - lastUpdateNetStats st) in
  GetNetStat (inl s) now st =
  ((i, o, if decide (0 < diff) then speed (netInTransfer st) i diff else 0,
    if decide (0 < diff) then speed (netOutTransfer st) o diff else 0, None),
   MkNetStats i o now).
Proof.
  intros [Hi Ho Hl] Hn. cbn zeta. unfold GetNetStat.
  rewrite sum_counters_spec, !Z.add_0_l by (unfold is_uint64; lia).
  rewrite (uint64_id now) by done.
  rewrite !uint64_sub_speed by (done || apply uint64_range).
  case_bool_decide; by repeat (rewrite ?decide_True, ?decide_False by done).
Qed.

Lemma speed_range prev cur diff :
  is_uint64 prev -> is_uint64 cur -> 0 < diff -> is_uint64 (speed prev cur diff).
Proof.
  unfold is_uint64, speed. intros Hp Hc Hd.
  case_decide; (split; [apply Z.div_pos; lia|apply Z.div_lt_upper_bound; nia]).
Qed.

Lemma cpu_loop_spec {F} info (cp : list F) i :
  if decide (length info <= length cp - i)%nat
  then exists l, cpu_loop info cp i = Ret l /\ cpuName <$> l = info.*1 /\
         Cores <$> l = info.*2 /\ cpuUsed <$> l = take (length info) (drop i cp)
  else cpu_loop info cp i = Panic "index out of range".
Proof.
  revert i. induction info as [|[nm cores] info IH]; intros i; cbn [cpu_loop length].
  { rewrite decide_True by lia. by exists []. }
  destruct (cp !! i) as [x|] eqn:Hx; specialize (IH (S i)).
  - pose proof (lookup_lt_Some _ _ _ Hx) as Hlt.
    destruct (decide (length info <= length cp - S i)%nat) as [Hle|Hgt].
    + rewrite decide_True by lia. destruct IH as (l & -> & Hn & Hc & Hu).
      exists (MkCpu nm cores x :: l). split; [done|]. cbn [fmap list_fmap].
      rewrite Hn, Hc, Hu. by rewrite (drop_S _ _ _ Hx).
    + rewrite decide_False by lia. by rewrite IH.
  - apply lookup_ge_None in Hx. rewrite decide_False by lia. done.
Qed.

Lemma disk_range {F} (m : machine F) t u :
  getDiskTotalAndUsed (disk_Partitions m) (disk_Usage m) (df_output m) (range_devices m) = (t, u) ->
  is_uint64 t /\ is_uint64 u.
Proof.
  set (ok := fun acc : Z * Z => is_uint64 (fst acc) /\ is_uint64 (snd acc)).
  intros E. change (ok (t, u)). rewrite <- E. unfold getDiskTotalAndUsed. clear E t u.
  assert (forall l acc, ok acc -> ok (foldl (add_usage (disk_Usage m)) acc l)) as Husage.
  { intros l. induction l as [|x l IH]; intros acc Hacc; [done|]. apply IH. unfold add_usage.
    destruct (disk_Usage m x) as [[t u]|]; [|done]. split; apply uint64_range. }
  assert (forall l acc, ok acc -> ok (foldl df_line acc l)) as Hdf.
  { intros l. induction l as [|x l IH]; intros acc Hacc; [done|]. apply IH. unfold df_line.
    repeat (case_match; try done); (split; apply uint64_range). }
  assert (ok (0, 0)) by (split; unfold is_uint64; simpl; lia).
  case_bool_decide; [destruct (df_output m)|]; auto.
Qed.

(** A report whose counters are [uint64]s and whose memory is an [int64]. *)
Definition device_typed {F} (d : DeviceInfo F) : Prop :=
  Forall is_uint64 [DiskTotal d; DiskUsed d; TotalDown d; TotalUp d; LastDown d; LastUp d] /\
  - 2 ^ 63 <= MemTotal d < 2 ^ 63.

(** What [GetDeviceInfo] fills a report with is in range. *)
Lemma typed_report {F} (cpus : list (CpuInfo F)) total (pct : F) t u bt i o diff st :
  netStats_ok st -> is_uint64 t -> is_uint64 u -> is_uint64 i -> is_uint64 o ->
  let rate prev cur := if decide (0 < diff) then speed prev cur diff else 0 in
  device_typed (MkDevice cpus (int64 total) pct t u bt i o
    (rate (netInTransfer st) i) (rate (netOutTransfer st) o)).
Proof.
  intros [Hi Ho Hl] Ht Hu Hir Hor. cbn zeta.
  assert (forall prev cur, is_uint64 prev -> is_uint64 cur ->
    is_uint64 (if decide (0 < diff) then speed prev cur diff else 0)) as Hsp.
  { intros prev cur Hp Hc. case_decide; [by apply speed_range|unfold is_uint64; lia]. }
  split; simpl; [|apply int64_range].
  repeat (apply List.Forall_cons; [first [done|by apply Hsp]|]). apply List.Forall_nil.
Qed.

(** ** Properties *)


(** A machine with one counted interface, whose counter was higher before. *)
Definition ex_machine : machine Z :=
  MkMachine (Some [12; 34]) (Some [("cpu", 4); ("cpu", 4)]%string) (Some (2 ^ 33, 40)) (Some 1000)
    (inl [MkIO "eth0" 700 900; MkIO "wlo1" 5 6]) 1600000010
    [MkPart "/dev/sda1" "/" "ext4"; MkPart "/dev/sda1" "/boot" "ext4"]
    (fun p => if bool_decide (p = "/"%string) then Some (1000, 10) else Some (1, 1)) None
    (fun ds => (map_to_list ds).*2).

Definition ex_device : DeviceInfo Z :=
  MkDevice [MkCpu "cpu" 4 12; MkCpu "cpu" 4 34] (2 ^ 33) 40 1000 10 1000 700 900
    50 ((2 ^ 64 - 100) / 10).

