(* ===== verification/Startup.v ===== *)
(** * Starting the server

    The rest of [api/api.go] and [cmd/quick_ss/main.go]: the panel client with
    its [Init], the website queue, the system report, and [RunSSServer].  The
    panel, the database and the machine are arguments; what [Init] needs of
    the JSON package is the class [JsonOps]. *)
From S2P Require Import Prelude GoIO Cipher ToyCrypto Salt CipherList Api Helpers Device Server.

Local Open Scope Z_scope.

(** ** The panel client *)

(** [Config]. *)
Record Config := MkConfig {
  cfgAPIHost : string;
  cfgLogHost : string;
  cfgNodeID : Z;
  cfgKey : string;
}.

Record RepoWwwTask := MkWwwTask { wStartTime : Z; wRepoList : list WwwTraffic }.

(** [queryN] and [queryT] are the parameters [n] and [t] of every request, the
    first as the number it prints. *)
Record APIClient := MkClient {
  APIHost : string;
  LogHost : string;
  NodeID : Z;
  queryN : Z;
  queryT : string;
  clientPort : Z;
  clientCipher : string;
  Rtask : RepoTask;
  Wtask : RepoWwwTask;
}.

Definition New (apiConfig : Config) (now : Z) : APIClient :=
  MkClient (cfgAPIHost apiConfig) (cfgLogHost apiConfig) (cfgNodeID apiConfig)
    (cfgNodeID apiConfig) (cfgKey apiConfig) 0 "" (MkRepoTask now []) (MkWwwTask now []).

(** [ERandPort]; [Shuffle] is [rand.Shuffle]. *)
Definition rand_ports : list Z := [11451; 14514; 26708; 36708; 10080; 28818; 21818].

Definition ERandPort (Shuffle : list Z -> list Z) : Z := hd 0 (Shuffle rand_ports).

(** The accessors of [simplejson]: [String] fails unless the value is a string,
    the others give the zero value. *)
Class JsonOps `{PanelOps} := {
  Get : Json -> string -> Json;
  JString : Json -> option string;
  MustInt : Json -> Z;
  MustString : Json -> string;
}.

Section Client.
Context `{JsonOps}.

(** [Init]: what the panel answers the first request, and the error of the
    second one, which is given the port.  The result, the client, and the port
    that was posted. *)
Definition Init (get : (Z * bytes) + error) (post : Z -> option error)
    (Shuffle : list Z -> list Z) (c : APIClient) : outcome unit * APIClient * option Z :=
  match get with
  | inr err => (Err err, c, None)
  | inl _ =>
    match parseResponse (APIHost c +:+ "/api/SsInit") get with
    | Panic m => (Panic m, c, None)
    | Err err => (Err err, c, None)
    | Ret res_j =>
      let data := Get res_j "data" in
      let port_str := default ""%string (JString (Get data "port")) in
      let nid := MustInt (Get data "id") in
      let port := Str2Int port_str in
      let set_node q p ci := MkClient (APIHost c) (LogHost c) nid q (queryT c) p ci (Rtask c) (Wtask c) in
      let cipher := MustString (Get data "cipher") in
      if bool_decide (port = 0) then
        let port := ERandPort Shuffle in
        match post port with
        | Some err => (Err err, set_node nid (clientPort c) (clientCipher c), Some port)
        | None => (Ret tt, set_node nid port cipher, Some port)
        end
      else (Ret tt, set_node (queryN c) port cipher, None)
    end
  end.

(** [ReportSys]: the report is encoded and posted; [post] is the request with
    its response. *)
Definition ReportSys {F} (m : machine F) (st : netStats)
    (post : DeviceInfo F -> (Z * bytes) + error) (c : APIClient) : outcome unit * netStats :=
  let '(data, st) := GetDeviceInfo m st in
  (data ← data;
   _ ← parseResponse (APIHost c +:+ "/api/SsRepoSys") (post data);
   Ret tt, st).

(** [ReportWwwTraffic]: what is posted, and the error; the status of the
    response is not looked at. *)
Definition ReportWwwTraffic (post : list WwwTraffic -> option error)
    (traffic : list WwwTraffic) : list WwwTraffic * option error :=
  let data := foldl (fun data tc => data ++ [tc]) [] traffic in
  (data, post data).

(** A tick of [CheckWwwRepo]: the task, and what was posted. *)
Definition CheckWwwRepo_tick (post : list WwwTraffic -> option error) (now : Z)
    (t : RepoWwwTask) : RepoWwwTask * option (list WwwTraffic) :=
  if decide (length (wRepoList t) = 0)%nat then (t, None)
  else if bool_decide (30 < now - wStartTime t) then
    let '(data, _) := ReportWwwTraffic post (wRepoList t) in
    (MkWwwTask now [], Some data)
  else (t, None).

(** ** [RunSSServer] *)

Context `{CryptoOps}.

Definition new_server : SSServer := MkServer ∅ (MkOs ∅ ∅ 0) None 0.

(** How the start of the process ends. *)
Inductive startup :=
| Started (s : SSServer)
| Refused (err : error) (s : SSServer)
| Exited
| Crashed (msg : string).

(** The users come from the database for the node the client has after [Init],
    whose error is ignored. *)
Definition RunSSServer (en : env) (get : (Z * bytes) + error) (post : Z -> option error)
    (Shuffle : list Z -> list Z) (users : Z -> option (list Key)) (api2 : APIClient) :
    startup * APIClient :=
  let '(r, api2, _) := Init get post Shuffle api2 in
  (match r with
   | Panic m => Crashed m
   | _ =>
     match users (NodeID api2) with
     | None => Exited
     | Some users =>
       match doRun en users new_server with
       | (Ret _, s) => Started s
       | (Err _, s) => Refused (Errorf "Failed to dorun") s
       | (Panic m, _) => Crashed m
       end
     end
   end, api2).

End Client.

(** ** Lemmas *)

Lemma ERandPort_elem Shuffle :
  (forall l, Shuffle l ≡ₚ l) -> ERandPort Shuffle ∈ rand_ports.
Proof.
  intros Hs. unfold ERandPort. pose proof (Hs rand_ports) as Hp.
  destruct (Shuffle rand_ports) as [|p l] eqn:E; [by apply Permutation_nil in Hp|].
  rewrite <- Hp. left.
Qed.

Lemma new_server_ok : server_ok new_server.
Proof. by split. Qed.

(** The website report is the queue. *)
Lemma ReportWwwTraffic_data post l : fst (ReportWwwTraffic post l) = l.
Proof.
  assert (forall acc, foldl (fun data tc => data ++ [tc]) acc l = acc ++ l) as E; [|apply E].
  induction l as [|x l IH]; intros acc; simpl; [by rewrite app_nil_r|].
  by rewrite IH, <- app_assoc.
Qed.

(** A tick either posts the whole queue and empties it, even if the post fails,
    or changes nothing. *)
Lemma CheckWwwRepo_tick_spec post now t :
  CheckWwwRepo_tick post now t =
  if decide (wRepoList t <> [] /\ 30 < now - wStartTime t)
  then (MkWwwTask now [], Some (wRepoList t)) else (t, None).
Proof.
  unfold CheckWwwRepo_tick. pose proof (ReportWwwTraffic_data post (wRepoList t)) as E.
  destruct (ReportWwwTraffic post (wRepoList t)) as [data err]. simpl in E. subst.
  destruct (decide (length (wRepoList t) = 0)%nat) as [E|E].
  - apply nil_length_inv in E. rewrite decide_False; [done|]. by intros [? _].
  - assert (wRepoList t <> []) by (intros E'; by rewrite E' in E). case_bool_decide as Hn.
    + by rewrite decide_True.
    + rewrite decide_False; [done|]. by intros [_ ?].
Qed.

(** An answer without a usable port makes the client draw one and post it; an
    answer that cannot be read leaves the client as it was. *)
Lemma Init_spec `{JsonOps} get post Shuffle c :
  (forall l, Shuffle l ≡ₚ l) ->
  let '(r, c', posted) := Init get post Shuffle c in
  match parseResponse (APIHost c +:+ "/api/SsInit") get with
  | Ret j =>
    NodeID c' = MustInt (Get (Get j "data") "id") /\
    (r = Ret tt -> clientPort c' <> 0 /\ clientCipher c' = MustString (Get (Get j "data") "cipher")) /\
    (forall p, posted = Some p -> p ∈ rand_ports /\ queryN c' = NodeID c' /\
       r = match post p with Some err => Err err | None => Ret tt end)
  | _ => r <> Ret tt /\ c' = c /\ posted = None
  end.
Proof.
  intros Hs. unfold Init. destruct get as [res|err]; [|done].
  destruct (parseResponse (APIHost c +:+ "/api/SsInit") (inl res)) as [j|err|m]; [|done..].
  pose proof (ERandPort_elem Shuffle Hs) as Hp.
  case_bool_decide as Hport.
  - destruct (post (ERandPort Shuffle)) as [err|] eqn:E; simpl; split_and!; try done.
    + intros p [= <-]. by rewrite E.
    + intros _. split; [|done]. intros E0. rewrite E0 in Hp. by vm_compute in Hp; set_solver.
    + intros p [= <-]. by rewrite E.
  - simpl. split_and!; done.
Qed.
