(* ===== verification/Tuning.v ===== *)
(** * System tuning

    [cmd/quick_ss/youhua.go] with [LocalRunCmd], [ReadFile] and [WriteFile] of
    [utils/functions.go]: the commands of the one-time tuning, in order, up to
    the first that fails.  The shell and the files are the class [ShellOps];
    the text of the script is that of the source. *)
From Stdlib Require Import Strings.Ascii.
From S2P Require Import Prelude Helpers.

(** [Execute] runs a command: the error of the run, its output and its error
    output. *)
Class ShellOps (W : Type) := {
  Execute : string -> W -> option error * string * string * W;
  os_ReadFile : string -> W -> string + error;
  os_WriteFile : string -> string -> W -> option error * W;
}.

(** ** The script *)

Definition dq : string := String "034" "".
Definition newline : string := String "010" "".

(** The lines of the literal in [iniSh]. *)
Definition script_lines : list string :=
  ["";
   "apt update -y";
   "apt list --upgradable";
   "apt install tar wget curl supervisor -y";
   "echo '环境优化'";
   "ulimit -n 51200";
   "echo " +:+ dq +:+ "soft nofile 51200" +:+ dq +:+ " >> /etc/security/limits.conf";
   "echo " +:+ dq +:+ "hard nofile 51200" +:+ dq +:+ " >> /etc/security/limits.conf";
   "(cat <<EOF";
   "fs.file-max = 102400";
   "net.core.somaxconn = 1048576";
   "net.ipv4.tcp_syncookies = 1";
   "net.ipv4.tcp_tw_reuse = 1";
   "net.ipv4.tcp_timestamps = 1";
   "net.ipv4.tcp_fin_timeout = 30";
   "net.core.default_qdisc = fq";
   "net.ipv4.tcp_congestion_control = bbr";
   "net.ipv4.tcp_fastopen = 3";
   "net.ipv4.tcp_max_syn_backlog = 1048576";
   "net.ipv4.tcp_synack_retries = 1";
   "net.ipv4.tcp_orphan_retries = 1";
   "net.ipv4.ip_local_port_range = 32768 65535";
   "net.ipv4.tcp_mem = 88560 118080 177120";
   "net.ipv4.tcp_wmem = 4096 16384 8388608";
   "EOF";
   "    ) > /etc/sysctl.conf";
   "sysctl -p";
   "lsmod | grep bbr";
   "(cat <<EOF";
   "[unix_http_server]";
   "file=/tmp/supervisor.sock   ; the path to the socket file";
   "";
   "[supervisord]";
   "logfile=/tmp/supervisord.log ; main log file; default $CWD/supervisord.log";
   "logfile_maxbytes=50MB        ; max main logfile bytes b4 rotation; default 50MB";
   "logfile_backups=10           ; # of main logfile backups; 0 means none, default 10";
   "loglevel=info                ; log level; default info; others: debug,warn,trace";
   "pidfile=/tmp/supervisord.pid ; supervisord pidfile; default supervisord.pid";
   "nodaemon=false               ; start in foreground if true; default false";
   "silent=false                 ; no logs to stdout if true; default false";
   "minfds=1024                  ; min. avail startup file descriptors; default 1024";
   "minprocs=200                 ; min. avail process descriptors;default 200";
   "";
   "[rpcinterface:supervisor]";
   "supervisor.rpcinterface_factory = supervisor.rpcinterface:make_main_rpcinterface";
   "";
   "";
   "[supervisorctl]";
   "serverurl=unix:///tmp/supervisor.sock ; use a unix:// URL  for a unix socket";
   "";
   "";
   "";
   "[program:agss]";
   "user=root";
   "command=/root/supervisd";
   "autostart=true";
   "autorestart=true";
   "startsecs=10";
   "EOF";
   "    ) > /etc/supervisord.conf"].

(** The literal itself, which begins and ends with a line feed. *)
Definition script : string := foldr (fun l s => l +:+ newline +:+ s) "" script_lines.

Section Tuning.
Context {W : Type} `{ShellOps W}.

Definition LocalRunCmd (cm : string) (w : W) : string * option error * W :=
  match Execute cm w with
  | (Some err, _, _, w) => (""%string, Some err, w)
  | (None, stdout, stderr, w) =>
    if bool_decide (stderr <> ""%string)
    then (""%string, Some (Errorf ("LocalRunCmd-error:" +:+ stderr)), w)
    else (stdout, None, w)
  end.

Definition ReadFile (filename : string) (w : W) : string * option error :=
  match os_ReadFile filename w with
  | inr err => (""%string, Some err)
  | inl file => (file, None)
  end.

(** [iniSh] writes the script unless there is one. *)
Definition iniSh (w : W) : option error * W :=
  let context := script in
  let '(str, _) := ReadFile "youhua.sh" w in
  if bool_decide (str = ""%string) then os_WriteFile "youhua.sh" context w else (None, w).

Definition mark_command (now : string) : string := "cat '" +:+ now +:+ "' > ./hasrun.sh".

(** [YouhuaRun] at the time printed [now]. *)
Definition YouhuaRun (now : string) (w : W) : option error * W :=
  let '(ishas, _, w) := LocalRunCmd "cat ./hasrun.sh" w in
  if bool_decide (ishas <> ""%string) then (None, w)
  else
    match iniSh w with
    | (Some err, w) => (Some err, w)
    | (None, w) =>
      match LocalRunCmd "chmod +x  ./youhua.sh" w with
      | (_, Some err, w) => (Some err, w)
      | (_, None, w) =>
        match LocalRunCmd "sh ./youhua.sh" w with
        | (_, Some err, w) => (Some err, w)
        | (_, None, w) =>
          match LocalRunCmd (mark_command now) w with
          | (_, Some err, w) => (Some err, w)
          | (_, None, w) => (None, w)
          end
        end
      end
    end.

(** The run is meant to be remembered in [hasrun.sh], but the last command is
    [cat] of a file named after the time: where that file does not exist it
    complains and the redirection leaves [hasrun.sh] empty, so the run ends in an
    error and the next one starts over. *)
Lemma YouhuaRun_forgotten (now : string) (w : W) :
  (forall w, exists msg w', Execute (mark_command now) w = (None, ""%string, msg, w') /\
     msg <> ""%string /\ fst (fst (LocalRunCmd "cat ./hasrun.sh" w')) = ""%string) ->
  fst (YouhuaRun now w) = None ->
  fst (fst (LocalRunCmd "cat ./hasrun.sh" w)) <> ""%string.
Proof.
  intros Hmark. unfold YouhuaRun.
  destruct (LocalRunCmd "cat ./hasrun.sh" w) as [[ishas e0] w0]. simpl.
  case_bool_decide as Hh; [done|].
  destruct (iniSh w0) as [[e1|] w1]; [done|].
  destruct (LocalRunCmd _ w1) as [[o2 [e2|]] w2]; [done|].
  destruct (LocalRunCmd _ w2) as [[o3 [e3|]] w3]; [done|].
  unfold LocalRunCmd at 1. destruct (Hmark w3) as (msg & w4 & -> & Hm & _).
  by rewrite bool_decide_eq_true_2.
Qed.

End Tuning.

(** ** What the script writes *)

(** The here-documents of a script of the shape [(cat <<EOF], lines, [EOF],
    [) > file]: the last word of the line after each, and its lines.  [doc] is
    the document being read. *)
Fixpoint heredocs (ls : list string) (doc : option (list string)) : list (string * list string) :=
  match ls, doc with
  | [], _ => []
  | l :: ls, None => if decide (l = "(cat <<EOF") then heredocs ls (Some []) else heredocs ls None
  | l :: ls, Some d =>
    if decide (l = "EOF") then
      match ls with
      | target :: ls => (default "" (last (Fields target)), d) :: heredocs ls None
      | [] => []
      end
    else heredocs ls (Some (d ++ [l]))
  end.

(** The script replaces two files: the kernel settings, fifteen lines each
    with a key and a value, and the configuration of the supervisor, which runs
    the server. *)
Example script_heredocs :
  (heredocs script_lines None).*1 = ["/etc/sysctl.conf"; "/etc/supervisord.conf"] /\
  (length <$> (heredocs script_lines None).*2) = [15; 29] /\
  forallb (fun l => Contains l " = ") (default [] (head (heredocs script_lines None).*2)) = true.
Proof. vm_compute. done. Qed.
