(* ===== verification/Session.v ===== *)
(** * A proxied connection, from the application to the target and back

    The client of [Client] against the handler of [Tcp]: what the application
    writes into a dialed connection is what the target receives, and what the
    target answers is what the application reads. *)
From S2P Require Import Prelude GoIO Cipher ToyCrypto Salt Wire SlicePool Writer.
From S2P Require Import StreamReader Stream Replay PrivateNet CipherList Metrics.
From S2P Require Import KeyFinding Tcp TcpSpec TcpExamples Udp UdpSpec Client.

Import Writer.

(** The bytes that leave the client when the application makes the calls [os]
    on a dialed connection and the queue is flushed. *)
Definition sent_by {R} `{CryptoOps} (os : list op) (conn : duplexConnAdaptor R) : bytes :=
  concat (written (writer (snd (run_ops (os ++ [OpFlush]) (dc_w conn))))).

Section Tunnel.
Context `{CryptoLaws} {ops : SocksOps} {is_addr : bytes -> Prop} `{!SocksLaws is_addr}.
Context `{!UdpOps}.

(** A client ready to dial [remoteAddr], whose encoding is [a], with the salt
    [salt], over a connection that writes to [w] and reads from [r]. *)
Record dialing {R} `{Reader R} (d : streamDialer R) (remoteAddr : string) (a : bytes)
    (w : Sink) (r : R) (ent salt : bytes) : Prop := {
  dl_wf : wf_cipher (cipher d);
  dl_endpoint : endpoint d = inl (w, r);
  dl_fresh : written w = [] /\ reliable w;
  dl_addr : ParseAddr remoteAddr = Some a;
  dl_short : length a <= payloadSizeMask;
  dl_gen : SaltGeneratorLaws (default RandomSaltGenerator (salter d));
  dl_salt : exists ent',
    GetSalt (default RandomSaltGenerator (salter d)) (zeros (SaltSize (cipher d))) ent =
      (None, salt, ent');
}.

(** The reading half of a dialed connection decodes a server's stream. *)
Lemma duplexConn_reads {R} `{ReaderLaws R} (r : R) (c : Cipher) (sw : Writer.t)
    (salt data : bytes) (out : list bytes) choices (app : Sink) :
  wf_cipher c -> encrypts c salt data out -> rd_bytes r = concat out -> rd_end r = EOF ->
  reliable app ->
  exists p' conn' app',
    duplexConn_WriteTo (readBufPool choices)
      (MkDuplex (readConverter.NewShadowsocksReader r c) sw) app =
      (Ret (length data, None), p', conn', app') /\
    concat (written app') = concat (written app) ++ data.
Proof.
  intros Hwf Hout Hb He Happ. destruct (encrypts_decode _ _ _ _ Hout) as (cs & Hcs & Hcat).
  pose proof (WriteTo_spec choices r c app Hwf Happ) as Hs. rewrite Hb, He, Hcs in Hs.
  destruct Hs as (p' & c' & w' & E & Hw). unfold duplexConn_WriteTo. cbn [dc_r dc_w].
  rewrite E, Hcat. do 3 eexists. split; [reflexivity|]. by rewrite Hw, concat_app, Hcat.
Qed.

(** A client that makes the calls [os] on what it dials, and a server [s] that
    gets those bytes and, for the name, the target [t]: the target receives
    exactly what was written, in order, the status is OK unless reading the
    target failed, and what the target answers is exactly what the application
    reads before a clean end. *)
Definition carries {R C T} `{Reader R, Reader C, Reader T} (port : Z) (d : streamDialer R)
    (remoteAddr : string) (os : list op) (r : R) (ent : bytes) (env : conn_env T)
    (s : tcpService) (client : C) (client_out : Sink)
    (arrives : bytes -> Prop) (t : T) (tw : Sink) : Prop :=
  exists conn, Dial d remoteAddr ent = (Ret conn, false) /\
    (rd_bytes client = sent_by os conn -> rd_end client = EOF -> arrives (rd_bytes client) ->
     exists h tin tout, handleConnection port env s client client_out = Ret h /\
       h_target h = Some (tin, tout) /\
       concat (written tout) = concat (written tw) ++ concat (payload <$> os) /\
       status_of (h_error h) = (if decide (rd_end t = EOF) then "OK" else "ERR_RELAY_TARGET") /\
       forall choices app,
         rd_bytes r = concat (written (h_client_out h)) -> rd_end r = EOF -> reliable app ->
         exists p' conn' app',
           duplexConn_WriteTo (readBufPool choices) conn app =
             (Ret (length (rd_bytes t), None), p', conn', app') /\
           concat (written app') = concat (written app) ++ rd_bytes t).

Lemma dialing_carries {R C T} `{ReaderLaws R, ReaderLaws C, ReaderLaws T} (port : Z)
    (d : streamDialer R) (remoteAddr : string) (a : bytes) (os : list op) (w : Sink) (r : R)
    (ent salt : bytes) (env : conn_env T) (s : tcpService) (client : C) (client_out : Sink)
    (e : CipherEntry) (t : T) (tw : Sink) (ssalt : bytes) :
  dialing d remoteAddr a w r ent salt -> cipher d = eCipher e ->
  few (length (a ++ concat (payload <$> os))) ->
  carries port d remoteAddr os r ent env s client client_out
    (fun stream => ready (is_addr := is_addr) env s stream client_out e salt a t tw ssalt) t tw.
Proof.
  intros [Hwf Hend [Hw Hrel] Hparse Hshort Hg [ent' Hsalt]] Hc Hfew.
  destruct (Dial_queued d remoteAddr a w r ent salt ent' Hwf Hend Hw Hrel Hparse Hshort Hg Hsalt)
    as (sw & E & _ & _ & _ & Hall).
  eexists. split; [exact E|]. intros Hb He Hready. rewrite Hc in Hall, Hwf.
  destruct (session_served port env s client client_out e salt a (concat (payload <$> os)) t tw
    ssalt) as (h & Hh & tin & tout & _ & _ & Ht & Hto & Hout & Hst & _).
  { split; [done| |done]. eexists. split; [by apply Hall|exact Hb]. }
  exists h, tin, tout. split_and!; [done..|]. intros choices app Hrb Hre Happ. rewrite Hc.
  by apply (duplexConn_reads r (eCipher e) sw ssalt _ _ choices app Hwf Hout).
Qed.

(** C4: the tunnel, end to end.  A client dials a name with the key of an entry
    and makes any calls on the connection; when a server that has this entry,
    and has not seen the salt, receives those bytes in any segmentation, it
    serves the session: the target of that name receives exactly what the
    application wrote, in order, and what the target answers is exactly what
    the application reads before a clean end, whatever the interleavings, the
    segmentations and the sizes. *)
Theorem tcp_end_to_end {R C T} `{ReaderLaws R, ReaderLaws C, ReaderLaws T} (port : Z)
    (d : streamDialer R) (remoteAddr : string) (a : bytes) (os : list op) (w : Sink) (r : R)
    (ent salt : bytes) (env : conn_env T) (s : tcpService) (client : C) (client_out : Sink)
    (e : CipherEntry) (t : T) (tw : Sink) (ssalt : bytes) :
  dialing d remoteAddr a w r ent salt -> cipher d = eCipher e ->
  few (length (a ++ concat (payload <$> os))) ->
  carries port d remoteAddr os r ent env s client client_out
    (fun stream => ready (is_addr := is_addr) env s stream client_out e salt a t tw ssalt) t tw.
Proof. apply dialing_carries. Qed.

End Tunnel.

(** ** The theorem at a concrete session *)

Definition ex_tunnel_dialer (r : Conn) : streamDialer Conn :=
  MkDialer (inl (ex_sink, r)) (eCipher ex_entry) None.

Definition ex_tunnel_entropy : bytes := expand 21 48.
Definition ex_tunnel_salt : bytes := take 32 ex_tunnel_entropy.

(** The calls of the application: a write, a flush and another write. *)
Definition ex_calls : list op :=
  [OpWrite NoFlush (string_bytes "GET "); OpFlush; OpWrite NoFlush (string_bytes "/")].

(** What reaches the server, in two segments. *)
Definition ex_tunnel_client : Conn :=
  let out := match Dial (ex_tunnel_dialer (MkConn [] EOF false)) "example.com"
                     ex_tunnel_entropy with
             | (Ret conn, _) => sent_by ex_calls conn
             | _ => []
             end in
  MkConn [take 40 out; drop 40 out] EOF false.

(** What reaches the client, in one. *)
Definition ex_tunnel_reply : Conn :=
  MkConn [match handleConnection 8388 ex_env (ex_service ∅) ex_tunnel_client ex_sink with
          | Ret h => concat (written (h_client_out h))
          | _ => []
          end] EOF true.

Lemma ex_tunnel_dialing r :
  dialing (ex_tunnel_dialer r) "example.com" ex_addr ex_sink r ex_tunnel_entropy ex_tunnel_salt.
Proof.
  split.
  - apply ex_cipher_wf.
  - reflexivity.
  - split; [reflexivity|apply Forall_nil_2].
  - vm_compute. reflexivity.
  - apply Nat.leb_le. vm_compute. reflexivity.
  - apply RandomSaltGenerator_laws.
  - eexists. vm_compute. reflexivity.
Qed.

(** Whatever the client reads from, it sends the same. *)
Lemma ex_tunnel_sent r conn :
  Dial (ex_tunnel_dialer r) "example.com" ex_tunnel_entropy = (Ret conn, false) ->
  rd_bytes ex_tunnel_client = sent_by ex_calls conn.
Proof.
  intros E. assert (Dial (ex_tunnel_dialer (MkConn [] EOF false)) "example.com" ex_tunnel_entropy =
    (Ret (MkDuplex (readConverter.NewShadowsocksReader (MkConn [] EOF false) (eCipher ex_entry))
            (dc_w conn)), false)) as E0.
  { revert E. unfold Dial. cbn [endpoint ex_tunnel_dialer cipher salter].
    destruct (ParseAddr "example.com"); [|discriminate].
    destruct (LazyWrite _ _) as [[[n [x|]]|x|m] sw]; try discriminate.
    intros [= <-]. reflexivity. }
  unfold ex_tunnel_client. rewrite E0. unfold sent_by. cbn [dc_w].
  set (l := concat _). change (rd_bytes (MkConn _ _ _)) with (take 40 l ++ drop 40 l ++ []).
  by rewrite app_nil_r, firstn_skipn.
Qed.

Lemma tcp_end_to_end_witness :
  exists h tin tout, handleConnection 8388 ex_env (ex_service ∅) ex_tunnel_client ex_sink = Ret h /\
    h_target h = Some (tin, tout) /\ concat (written tout) = string_bytes "GET /" /\
    status_of (h_error h) = "OK" /\
    exists conn p' conn' app', Dial (ex_tunnel_dialer ex_tunnel_reply) "example.com" ex_tunnel_entropy =
        (Ret conn, false) /\
      duplexConn_WriteTo (readBufPool []) conn ex_sink = (Ret (6, None), p', conn', app') /\
      concat (written app') = string_bytes "200 OK".
Proof.
  destruct (tcp_end_to_end (is_addr := toy_addr) 8388 (ex_tunnel_dialer ex_tunnel_reply)
    "example.com" ex_addr ex_calls ex_sink ex_tunnel_reply ex_tunnel_entropy ex_tunnel_salt ex_env
    (ex_service ∅) ex_tunnel_client ex_sink ex_entry ex_answer ex_sink ex_server_salt)
    as (conn & E & Hrun).
  - apply ex_tunnel_dialing.
  - reflexivity.
  - vm_compute. reflexivity.
  - destruct Hrun as (h & tin & tout & Hh & Ht & Hto & Hst & Hback).
    + apply (ex_tunnel_sent _ _ E).
    + reflexivity.
    + apply ex_ready.
      * repeat apply Forall_cons_2; [vm_compute; reflexivity..|apply Forall_nil_2].
      * vm_compute. reflexivity.
      * vm_compute. reflexivity.
    + exists h, tin, tout. split_and!; [exact Hh|exact Ht|exact Hto|exact Hst|].
      destruct (Hback [] ex_sink) as (p' & conn' & app' & Hr & Happ).
      * unfold ex_tunnel_reply. rewrite Hh. apply app_nil_r.
      * reflexivity.
      * apply Forall_nil_2.
      * exists conn, p', conn', app'. split_and!; [exact E|exact Hr|exact Happ].
Defined.
