(* ===== verification/UdpSession.v ===== *)
(** * UDP associations

    The whole of [timedCopy] of [service/udp.go], any sequence of packets
    through the loop of [Serve] while table entries come and go, and a datagram
    from the client of [Client] to its target and back. *)
From S2P Require Import Prelude GoIO Cipher ToyCrypto Salt Packet SlicePool PrivateNet CipherList.
From S2P Require Import KeyFinding Tcp TcpExamples Udp UdpSpec Client.

(** ** [timedCopy] *)

Inductive down_event :=
| ClientWrite (buf : bytes)
| AddUDPPacketFromTarget (location accessKey status : string)
    (targetProxyBytes proxyClientBytes : Z).

(** What one call of [targetConn.ReadFrom] meets: its time, what the socket
    gives, and the client's socket for the reply. *)
Record arrival := MkArrival {
  ar_now : Z;
  ar_read : (bytes * UDPAddr) + error;
  ar_send : bytes -> nat * option error;
}.

Definition natconn_ReadFrom (x : arrival) (c : natconn) : natconn :=
  match ar_read x with
  | inl (_, addr) => onRead addr (ar_now x) c
  | inr _ => c
  end.

Section TimedCopy.
Context `{CryptoOps} `{SocksOps} `{UdpOps}.

(** The loop over what the socket gives: whether it ended, the connection and
    the events; after the last arrival it waits in its read. *)
Fixpoint timedCopy_loop (keyID : string) (arrivals : list arrival) (pkt : bytes) (c : natconn)
    (ent : bytes) : outcome (bool * natconn * list down_event) :=
  match arrivals with
  | [] => Ret (false, c, [])
  | x :: arrivals =>
    let c := natconn_ReadFrom x c in
    match timedCopy_round pkt c (ar_read x) (ar_send x) ent with
    | (Panic m, _, _) => Panic m
    | (Err e, _, _) => Err e
    | (Ret Expired, _, _) => Ret (true, c, [])
    | (Ret (Copied status bodyLen proxyClientBytes sent), pkt, ent) =>
      '(ended, c', evs) ← timedCopy_loop keyID arrivals pkt c ent;
      Ret (ended, c',
           (match sent with Some buf => [ClientWrite buf] | None => [] end) ++
           [AddUDPPacketFromTarget (clientLocation c) keyID status (Z.of_nat bodyLen)
              (Z.of_nat proxyClientBytes)] ++ evs)
    end
  end.

Definition timedCopy (keyID : string) (arrivals : list arrival) (c : natconn) (ent : bytes) :
    outcome (bool * natconn * list down_event) :=
  timedCopy_loop keyID arrivals (zeros serverUDPBufferSize) c ent.

(** ** The packets of [Serve] *)

(** A packet of a client, or the end of the goroutine of a connection, which
    deletes its entry. *)
Inductive nat_op :=
| FromClient (env : round_env) (clientAddr : UDPAddr) (cipherData : bytes)
| Expire (key : string).

(** Any sequence of them: the events of each. *)
Fixpoint serve_packets (ops : list nat_op) (s : udpService) (nm : gmap string natconn)
    : outcome (udpService * gmap string natconn * list (list uevent)) :=
  match ops with
  | [] => Ret (s, nm, [])
  | FromClient env clientAddr cipherData :: ops =>
    '(_, s, nm, ev) ← handlePacket env s nm clientAddr cipherData;
    '(s, nm, evs) ← serve_packets ops s nm;
    Ret (s, nm, ev :: evs)
  | Expire key :: ops =>
    '(s, nm, evs) ← serve_packets ops s (delete key nm);
    Ret (s, nm, [] :: evs)
  end.

End TimedCopy.

(** ** Lemmas *)

Lemma onRead_keeps addr now c :
  nc_cipher (onRead addr now c) = nc_cipher c /\ nc_keyID (onRead addr now c) = nc_keyID c /\
  clientLocation (onRead addr now c) = clientLocation c.
Proof. unfold onRead. by destruct (fastClose c). Qed.

Lemma onWrite_keeps addr now c :
  nc_cipher (onWrite addr now c) = nc_cipher c /\ nc_keyID (onWrite addr now c) = nc_keyID c /\
  clientLocation (onWrite addr now c) = clientLocation c.
Proof. unfold onWrite. by destruct (after _ _). Qed.

Lemma natconn_ReadFrom_keeps x c :
  nc_cipher (natconn_ReadFrom x c) = nc_cipher c /\
  clientLocation (natconn_ReadFrom x c) = clientLocation c.
Proof.
  unfold natconn_ReadFrom. destruct (ar_read x) as [[b a]|e]; [|done].
  by destruct (onRead_keeps a (ar_now x) c) as (? & ? & ?).
Qed.

(** ** Connections keep their key *)

(** Whom a packet is accounted to when the client's connection has the key
    [keyID] and its cipher: to the key if it opens, to none if it does not. *)
Definition billed `{CryptoOps} (cipher : Cipher) (keyID : string) (pkt : bytes) : string :=
  match Unpack None pkt cipher with Ret _ => keyID | _ => "" end.

(** What may come before the report of a packet: it is sent on only as decrypted
    under the cipher, without the address in front. *)
Definition forwards `{CryptoOps} `{UdpOps} (cipher : Cipher) (pkt : bytes) (ev : uevent) : Prop :=
  match ev with
  | TargetWrite payload _ => exists a, Unpack None pkt cipher = Ret (a ++ payload) /\
      SplitAddr (a ++ payload) = Some a
  | AddUDPNatEntry => True
  | _ => False
  end.

(** The events of a packet: what is sent on, and one report, to that key. *)
Definition attributed `{CryptoOps} `{UdpOps} (cipher : Cipher) (keyID : string)
    (clientAddr : UDPAddr) (pkt : bytes) (evs : list uevent) : Prop :=
  exists pre host loc st n t,
    evs = pre ++
      [UAddWwwRepo host (billed cipher keyID pkt) (UDPAddrString clientAddr) 1 1;
       UAddRepo (billed cipher keyID pkt) (Z.of_nat (length pkt)) n;
       AddUDPPacketFromClient loc (billed cipher keyID pkt) st (Z.of_nat (length pkt)) n t] /\
    Forall (forwards cipher pkt) pre.

Definition same_key (c c' : natconn) : Prop :=
  nc_cipher c' = nc_cipher c /\ nc_keyID c' = nc_keyID c.

Section Association.
Context `{CryptoOps} `{SocksOps} `{UdpOps}.

Lemma attributed_intro cipher keyID a pkt pre st r :
  r_keyID r = billed cipher keyID pkt -> Forall (forwards cipher pkt) pre ->
  attributed cipher keyID a pkt (pre ++ report_events a (Z.of_nat (length pkt)) st r).
Proof.
  intros Hr Hp. unfold attributed. rewrite <- Hr. do 6 eexists. split; [reflexivity|exact Hp].
Qed.

(** A packet concerns the table entry of its own client only. *)
Lemma handlePacket_other env s nm clientAddr pkt st s' nm' ev k :
  handlePacket env s nm clientAddr pkt = Ret (st, s', nm', ev) ->
  k <> UDPAddrString clientAddr -> nm' !! k = nm !! k.
Proof.
  unfold handlePacket, prepare. intros E Hk. revert E.
  destruct (nm !! UDPAddrString clientAddr) as [c|].
  - destruct (Unpack _ _ _); [|by intros [= <- <- <- <-]|done].
    destruct (validatePacket _ _ _) as [[payload dst]|ce]; cbn [mbind outcome_bind];
      [|by intros [= <- <- <- <-]].
    destruct (targetWrite _ _ _). intros [= <- <- <- <-]. by rewrite lookup_insert_ne.
  - destruct (findAccessKeyUDP _ _ _ _) as [[[[textData keyID] cipher]|err|m] cl];
      [|by intros [= <- <- <- <-]|done].
    destruct (validatePacket _ _ _) as [[payload dst]|ce]; [|by intros [= <- <- <- <-]].
    destruct (listenPacket env); cbn [mbind outcome_bind]; [by intros [= <- <- <- <-]|].
    destruct (targetWrite _ _ _). intros [= <- <- <- <-]. by rewrite !lookup_insert_ne.
Qed.

(** A packet of a client that has a connection. *)
Lemma handlePacket_bound `{!UdpLaws} env s nm clientAddr pkt st s' nm' ev c :
  nm !! UDPAddrString clientAddr = Some c ->
  handlePacket env s nm clientAddr pkt = Ret (st, s', nm', ev) ->
  (exists c', nm' !! UDPAddrString clientAddr = Some c' /\ same_key c c') /\
  attributed (nc_cipher c) (nc_keyID c) clientAddr pkt ev.
Proof.
  unfold handlePacket, prepare. intros Hc. rewrite Hc.
  assert (forall b, Unpack None pkt (nc_cipher c) = Ret b ->
    billed (nc_cipher c) (nc_keyID c) pkt = nc_keyID c) as Hopen
    by (unfold billed; by intros b ->).
  destruct (Unpack None pkt (nc_cipher c)) as [textData|x|m] eqn:Eu; [| |done].
  - specialize (Hopen textData eq_refl).
    destruct (validatePacket _ _ _) as [[payload dst]|ce] eqn:Ev; cbn [mbind outcome_bind].
    + apply validatePacket_inl in Ev as (a & Hs & -> & _ & _).
      destruct (targetWrite _ _ _) as [n err]. intros [= <- <- <- <-]. split.
      * eexists. rewrite lookup_insert_eq. split; [done|].
        destruct (onWrite_keeps dst (now env) c) as (? & ? & _). by split.
      * apply (attributed_intro _ _ _ _ [TargetWrite payload dst]); [done|].
        apply Forall_singleton. by exists a.
    + intros [= <- <- <- <-]. split; [by exists c|]. by apply (attributed_intro _ _ _ _ []).
  - intros [= <- <- <- <-]. split; [by exists c|]. apply (attributed_intro _ _ _ _ []); [|done].
    unfold billed. by rewrite Eu.
Qed.

(** The packets of the client [k] among the operations, with their events. *)
Definition attributed_op (k : string) (cipher : Cipher) (keyID : string) (op : nat_op)
    (ev : list uevent) : Prop :=
  match op with
  | FromClient _ clientAddr pkt =>
    UDPAddrString clientAddr = k -> attributed cipher keyID clientAddr pkt ev
  | Expire _ => True
  end.

Lemma serve_packets_bound `{!UdpLaws} k ops : forall s nm c s' nm' evs,
  nm !! k = Some c -> Expire k ∉ ops ->
  serve_packets ops s nm = Ret (s', nm', evs) ->
  (exists c', nm' !! k = Some c' /\ same_key c c') /\
  Forall2 (attributed_op k (nc_cipher c) (nc_keyID c)) ops evs.
Proof.
  induction ops as [|[env clientAddr pkt|key] ops IH]; intros s nm c s' nm' evs Hc Hno E;
    cbn [serve_packets] in E.
  - injection E as <- <- <-. split; [by exists c|constructor].
  - destruct (handlePacket env s nm clientAddr pkt) as [[[[st s1] nm1] ev]|x|m] eqn:Eh;
      cbn [mbind outcome_bind] in E; [|done..].
    destruct (serve_packets ops s1 nm1) as [[[s2 nm2] evs']|x|m] eqn:Er;
      cbn [mbind outcome_bind] in E; [|done..].
    injection E as <- <- <-. apply not_elem_of_cons in Hno as [_ Hno].
    assert (exists c1, nm1 !! k = Some c1 /\ same_key c c1 /\
      attributed_op k (nc_cipher c) (nc_keyID c) (FromClient env clientAddr pkt) ev)
      as (c1 & Hc1 & [Hcip Hkey] & Hev).
    { destruct (decide (UDPAddrString clientAddr = k)) as [<-|Hne].
      - destruct (handlePacket_bound _ _ _ _ _ _ _ _ _ c Hc Eh) as [(c1 & ? & ?) ?].
        exists c1. by split_and!; [| |intros _].
      - exists c. split_and!; [|by split|by intros ?]. by rewrite (handlePacket_other _ _ _ _ _ _ _ _ _ k Eh). }
    destruct (IH s1 nm1 c1 s2 nm2 evs' Hc1 Hno Er) as [(c2 & Hc2 & [? ?]) Hall].
    rewrite Hcip, Hkey in Hall. split; [|by constructor].
    exists c2. split; [done|]. split; congruence.
  - destruct (serve_packets ops s (delete key nm)) as [[[s2 nm2] evs']|x|m] eqn:Er;
      cbn [mbind outcome_bind] in E; [|done..].
    injection E as <- <- <-. apply not_elem_of_cons in Hno as [Hk Hno].
    destruct (IH s (delete key nm) c s2 nm2 evs') as [? ?]; [|done|done|].
    + rewrite lookup_delete_ne; [done|]. intros ->. done.
    + split; [done|by constructor].
Qed.

End Association.

Section Packets.
Context `{CryptoLaws} `{SocksOps} `{UdpLaws}.

(** A packet leaves a service and a table that can take the next. *)
Lemma handlePacket_wf env s nm clientAddr pkt :
  wf_entries (uciphers s) -> wf_table nm ->
  exists st s' nm' ev, handlePacket env s nm clientAddr pkt = Ret (st, s', nm', ev) /\
    wf_entries (uciphers s') /\ wf_table nm'.
Proof.
  intros Hwf Hnm. destruct (prepare_spec env s nm clientAddr pkt Hwf Hnm)
    as (prep & r & s' & nm' & ev & Ep & _ & Hwf' & _ & Hp).
  unfold handlePacket. rewrite Ep. cbn [mbind outcome_bind].
  destruct prep as [[[payload dst] c]|ce].
  - destruct Hp as (textData & _ & _ & _ & Hc & _ & -> & _).
    destruct (targetWrite env payload dst) as [n err]. do 4 eexists. split; [reflexivity|].
    split; [done|]. rewrite insert_insert_eq. apply map_Forall_insert_2; [|done].
    by destruct (onWrite_keeps dst (now env) c) as (-> & _ & _).
  - destruct Hp as (-> & _ & _). by do 4 eexists.
Qed.

Lemma serve_packets_total ops : forall s nm,
  wf_entries (uciphers s) -> wf_table nm ->
  exists s' nm' evs, serve_packets ops s nm = Ret (s', nm', evs) /\
    wf_entries (uciphers s') /\ wf_table nm' /\ length evs = length ops.
Proof.
  induction ops as [|[env clientAddr pkt|key] ops IH]; intros s nm Hwf Hnm;
    cbn [serve_packets].
  - by exists s, nm, [].
  - destruct (handlePacket_wf env s nm clientAddr pkt Hwf Hnm)
      as (st & s1 & nm1 & ev & -> & Hwf1 & Hnm1). cbn [mbind outcome_bind].
    destruct (IH s1 nm1 Hwf1 Hnm1) as (s' & nm' & evs & -> & ? & ? & Hl).
    cbn [mbind outcome_bind]. exists s', nm', (ev :: evs). cbn [length]. by rewrite Hl.
  - destruct (IH s (delete key nm) Hwf) as (s' & nm' & evs & -> & ? & ? & Hl).
    { by apply map_Forall_delete. }
    cbn [mbind outcome_bind]. exists s', nm', ([] :: evs). cbn [length]. by rewrite Hl.
Qed.

(** What opens into a buffer opens in place. *)
Lemma Unpack_None d pkt c b :
  wf_cipher c -> Unpack (Some d) pkt c = Ret b -> Unpack None pkt c = Ret b.
Proof.
  intros Hwf. destruct (decide (length pkt < SaltSize c)) as [Hl|Hl].
  { unfold Unpack. by rewrite decide_True. }
  assert (length (take (SaltSize c) pkt) = SaltSize c) as Hs by (rewrite length_take; lia).
  destruct (Unpack_eq c _ (drop (SaltSize c) pkt) (Some d) Hwf Hs) as (a & Ha & _ & E).
  destruct (Unpack_eq c _ (drop (SaltSize c) pkt) None Hwf Hs) as (a' & Ha' & _ & E').
  rewrite Ha in Ha'. injection Ha' as <-. rewrite firstn_skipn in E, E'. rewrite E, E'. cbn [default].
  repeat case_decide; first [done|lia].
Qed.

(** The first packet of a client that is sent on makes the connection. *)
Lemma handlePacket_first env s nm clientAddr pkt st s' nm' ev payload dst :
  wf_entries (uciphers s) -> wf_table nm -> nm !! UDPAddrString clientAddr = None ->
  handlePacket env s nm clientAddr pkt = Ret (st, s', nm', ev) -> TargetWrite payload dst ∈ ev ->
  exists e c, e ∈ order (uciphers s) /\ nm' !! UDPAddrString clientAddr = Some c /\
    nc_cipher c = eCipher e /\ nc_keyID c = ID e /\
    billed (eCipher e) (ID e) pkt = ID e /\ attributed (eCipher e) (ID e) clientAddr pkt ev.
Proof.
  intros Hwf Hnm Hnone Eh Hin. unfold handlePacket, prepare in Eh. rewrite Hnone in Eh.
  rewrite findAccessKeyUDP_eq in Eh by done.
  pose proof (first_unpack_spec serverUDPBufferSize pkt
    (search_order (uciphers s) (ua_ip clientAddr))) as Hf.
  destruct (first_unpack _ _ _) as [[textData e]|]; cbn [mbind outcome_bind] in Eh;
    [|injection Eh as <- <- <- <-; set_solver].
  destruct Hf as (es1 & es2 & Eo & Hu & _).
  destruct (validatePacket _ _ _) as [[payload' dst']|ce] eqn:Ev; cbn [mbind outcome_bind] in Eh;
    [|injection Eh as <- <- <- <-; set_solver].
  destruct (listenPacket env); cbn [mbind outcome_bind] in Eh;
    [injection Eh as <- <- <- <-; set_solver|].
  apply validatePacket_inl in Ev as (a & Hsplit & -> & _ & _).
  destruct (targetWrite _ _ _) as [n err]. injection Eh as <- <- <- <-.
  set (cn := new_natconn _ _ _ _). destruct (onWrite_keeps dst' (now env) cn) as (? & ? & _).
  assert (e ∈ order (uciphers s)) as He.
  { cut (e ∈ search_order (uciphers s) (ua_ip clientAddr));
      [unfold search_order; by rewrite kept_both|rewrite Eo; set_solver]. }
  assert (Unpack None pkt (eCipher e) = Ret (a ++ payload')) as HU'.
  { eapply Unpack_None; [|exact Hu]. unfold wf_entries in Hwf. rewrite Forall_forall in Hwf.
    by apply Hwf. }
  assert (billed (eCipher e) (ID e) pkt = ID e) as Hb by (unfold billed; by rewrite HU').
  exists e, (onWrite dst' (now env) cn). rewrite lookup_insert_eq. split_and!; [done..|].
  apply (attributed_intro _ _ _ _ [AddUDPNatEntry; TargetWrite payload' dst']); [done|].
  apply Forall_cons_2; [done|]. apply Forall_singleton. by exists a.
Qed.

End Packets.

Section WayBackLemmas.
Context `{CryptoLaws} `{SocksOps} `{UdpLaws}.

Definition expires (x : arrival) : bool :=
  match ar_read x with inr err => bool_decide (err = ErrTimeout) | inl _ => false end.

Fixpoint before_expiry (arrivals : list arrival) : list arrival :=
  match arrivals with
  | [] => []
  | x :: arrivals => if expires x then [] else x :: before_expiry arrivals
  end.

(** A datagram comes from an endpoint and was cut to the space left for it. *)
Definition arrival_ok (cipher : Cipher) (x : arrival) : Prop :=
  match ar_read x with
  | inl (body, raddr) => valid_endpoint raddr /\
      length body <= serverUDPBufferSize - (SaltSize cipher + maxAddrLen)
  | inr _ => True
  end.

(** What one round does before the socket times out: a datagram that leaves room
    for the tag is sent to the client, in one packet that opens to its source
    address and body; every round is reported once, with what it read and what
    it sent. *)
Definition round_events (cipher : Cipher) (location keyID : string) (x : arrival)
    (evs : list down_event) : Prop :=
  match ar_read x with
  | inr _ => evs = [AddUDPPacketFromTarget location keyID "ERR_READ" 0 0]
  | inl (body, raddr) =>
    if decide (length body + TagSize cipher <=
               serverUDPBufferSize - (SaltSize cipher + maxAddrLen))
    then exists buf a,
      evs = [ClientWrite buf;
             AddUDPPacketFromTarget location keyID
               (match snd (ar_send x buf) with Some _ => "ERR_WRITE" | None => "OK" end)
               (Z.of_nat (length body)) (Z.of_nat (fst (ar_send x buf)))] /\
      length buf = SaltSize cipher + length a + length body + TagSize cipher /\
      Unpack None buf cipher = Ret (a ++ body) /\ SplitAddr (a ++ body) = Some a /\
      ParseAddr (UDPAddrString raddr) = Some a
    else evs = [AddUDPPacketFromTarget location keyID "ERR_PACK" (Z.of_nat (length body)) 0]
  end.

(** One round that does not end the loop. *)
Lemma timedCopy_round_events (x : arrival) pkt c keyID ent :
  wf_cipher (nc_cipher c) -> arrival_ok (nc_cipher c) x -> length pkt = serverUDPBufferSize ->
  SaltSize (nc_cipher c) <= length ent -> expires x = false ->
  exists st n m sent pkt' ent',
    timedCopy_round pkt c (ar_read x) (ar_send x) ent = (Ret (Copied st n m sent), pkt', ent') /\
    length pkt' = serverUDPBufferSize /\ length ent - SaltSize (nc_cipher c) <= length ent' /\
    round_events (nc_cipher c) (clientLocation c) keyID x
      ((match sent with Some buf => [ClientWrite buf] | None => [] end) ++
       [AddUDPPacketFromTarget (clientLocation c) keyID st (Z.of_nat n) (Z.of_nat m)]).
Proof.
  unfold arrival_ok, round_events, expires. intros Hwf Hok Hpkt Hent Hx.
  destruct (ar_read x) as [[body raddr]|err].
  - destruct Hok as [Hv Hb]. destruct (ParseAddr_endpoint raddr Hv) as (a & Ha & _ & Hsplit).
    destruct (endpoint_fits raddr a Hv Ha) as [Hl _].
    destruct (timedCopy_round_eq pkt body ent a raddr c (ar_send x) Hwf Hpkt Ha Hl)
      as (pkt' & ent' & Hl' & He & E); [by rewrite Hpkt|done|]. rewrite Hpkt in E.
    case_decide.
    + destruct E as (buf & E & Hlen & HU). do 6 eexists. split_and!; [exact E|congruence|done|].
      exists buf, a. by split_and!.
    + do 6 eexists. split_and!; [exact E|congruence|done|done].
  - apply bool_decide_eq_false in Hx. cbn [timedCopy_round].
    rewrite (decide_False (P := err = ErrTimeout)) by congruence.
    do 6 eexists. split_and!; [reflexivity|done|lia|done].
Qed.

Lemma timedCopy_loop_eq keyID cipher location arrivals : forall pkt c ent,
  nc_cipher c = cipher -> clientLocation c = location -> wf_cipher cipher ->
  Forall (arrival_ok cipher) arrivals -> length pkt = serverUDPBufferSize ->
  SaltSize cipher * length arrivals <= length ent ->
  exists c' evs, timedCopy_loop keyID arrivals pkt c ent =
      Ret (existsb expires arrivals, c', concat evs) /\
    Forall2 (round_events cipher location keyID) (before_expiry arrivals) evs.
Proof.
  induction arrivals as [|x arrivals IH]; intros pkt c ent Hc Hloc Hwf Hok Hpkt Hent.
  { exists c, []. by split. }
  apply Forall_cons in Hok as [Hx Hok]. cbn [timedCopy_loop existsb before_expiry].
  destruct (natconn_ReadFrom_keeps x c) as [Hc1 Hl1]. rewrite Hc in Hc1. rewrite Hloc in Hl1.
  set (c1 := natconn_ReadFrom x c) in *. destruct (expires x) eqn:Hexp.
  - unfold expires in Hexp. destruct (ar_read x) as [p|err]; [done|].
    apply bool_decide_eq_true in Hexp as ->. cbn [timedCopy_round].
    rewrite decide_True by done. exists c1, []. by split.
  - cbn [length] in Hent. rewrite <- Hc1 in Hwf, Hx.
    destruct (timedCopy_round_events x pkt c1 keyID ent Hwf Hx Hpkt)
      as (st & n & m & sent & pkt' & ent' & -> & Hp & He & Hev); [rewrite Hc1; lia|done|].
    rewrite Hc1 in Hwf, He, Hev. rewrite Hl1 in Hev.
    destruct (IH pkt' c1 ent' Hc1 Hl1 Hwf Hok Hp) as (c' & evs & -> & Hall); [lia|].
    cbn [mbind outcome_bind orb]. eexists c', (_ :: evs). cbn [concat].
    split; [by rewrite Hl1, <- app_assoc|by constructor].
Qed.

(** One datagram that fits in the client's buffer, read by the client. *)
Lemma timedCopy_one keyID x cn ent body raddr :
  wf_cipher (nc_cipher cn) -> ar_read x = inl (body, raddr) -> valid_endpoint raddr ->
  SaltSize (nc_cipher cn) + maxAddrLen + length body + TagSize (nc_cipher cn) <=
    clientUDPBufferSize ->
  SaltSize (nc_cipher cn) <= length ent ->
  exists buf a cn' evs, ParseAddr (UDPAddrString raddr) = Some a /\
    timedCopy keyID [x] cn ent = Ret (false, cn', ClientWrite buf :: evs) /\
    length buf <= clientUDPBufferSize /\
    forall m, packetConn_ReadFrom (nc_cipher cn) m (inl buf) =
      Ret (take m body, Some (AddrString a),
           if decide (m < length body) then Some ErrShortBuffer else None).
Proof.
  intros Hwf Hx Hv Hbody Hent.
  assert (clientUDPBufferSize <= serverUDPBufferSize) as Hsize
    by (unfold clientUDPBufferSize, serverUDPBufferSize; lia).
  destruct (timedCopy_loop_eq keyID (nc_cipher cn) (clientLocation cn) [x]
    (zeros serverUDPBufferSize) cn ent) as (cn' & rounds & E & Hall);
    [done|done|done| |apply length_replicate|cbn [length]; lia|].
  { constructor; [|done]. unfold arrival_ok. rewrite Hx. split; [done|lia]. }
  unfold before_expiry, expires in Hall. rewrite Hx in Hall.
  apply Forall2_cons_inv_l in Hall as (evs & rest & Hev & Hrest & ->).
  apply Forall2_nil_inv_l in Hrest as ->.
  unfold round_events in Hev. rewrite Hx, decide_True in Hev by lia.
  destruct Hev as (buf & a & -> & Hl & HU & Hsplit & Ha).
  destruct (endpoint_fits raddr a Hv Ha) as [[Hal _] _].
  unfold timedCopy. rewrite E. unfold expires, existsb. rewrite Hx.
  do 4 eexists. split_and!; [exact Ha|reflexivity|lia|].
  intros m. by apply packetConn_ReadFrom_ok.
Qed.

End WayBackLemmas.

(** ** From the client to the target *)

Section Upstream.
Context `{CryptoLaws} `{SocksOps} `{UdpLaws}.

(** The server opens the packet with the cipher [c] of the key [keyID]: that of
    the client's connection, or of the first key of the list that opens it. *)
Definition keyed (s : udpService) (nm : gmap string natconn) (clientAddr : UDPAddr)
    (pkt : bytes) (c : Cipher) (keyID : string) : Prop :=
  match nm !! UDPAddrString clientAddr with
  | Some cn => nc_cipher cn = c /\ nc_keyID cn = keyID
  | None => exists es1 e es2,
      search_order (uciphers s) (ua_ip clientAddr) = es1 ++ e :: es2 /\
      eCipher e = c /\ ID e = keyID /\
      Forall (fun x => forall b, Unpack (Some serverUDPBufferSize) pkt (eCipher x) <> Ret b) es1
  end.

Lemma first_unpack_app dcap src es1 e es2 buf :
  Forall (fun x => forall b, Unpack (Some dcap) src (eCipher x) <> Ret b) es1 ->
  Unpack (Some dcap) src (eCipher e) = Ret buf ->
  first_unpack dcap src (es1 ++ e :: es2) = Some (buf, e).
Proof.
  intros Hf Hu. induction Hf as [|x es1 Hx Hf IH]; cbn [app first_unpack]; [by rewrite Hu|].
  destruct (Unpack (Some dcap) src (eCipher x)) as [b| |]; [by destruct (Hx b)|done..].
Qed.

(** The server side of a packet that opens to an address and a datagram. *)
Lemma handlePacket_forwards env s nm clientAddr pkt c keyID a b dst :
  wf_entries (uciphers s) -> keyed s nm clientAddr pkt c keyID ->
  (forall d, d = None \/ d = Some serverUDPBufferSize -> Unpack d pkt c = Ret (a ++ b)) ->
  SplitAddr (a ++ b) = Some a -> resolve env (AddrString a) = inl dst ->
  utargetIPValidator s (ua_ip dst) = None -> listenPacket env = None ->
  exists s' nm' cn loc t,
    let sent := targetWrite env b dst in
    let st := match snd sent with None => "OK" | Some _ => "ERR_WRITE" end in
    handlePacket env s nm clientAddr pkt = Ret (st, s', nm',
      (if decide (nm !! UDPAddrString clientAddr = None) then [AddUDPNatEntry] else []) ++
      [TargetWrite b dst] ++
      report_events clientAddr (Z.of_nat (length pkt)) st
        (MkReport loc keyID (Some dst) (Z.of_nat (fst sent)) t)) /\
    nm' !! UDPAddrString clientAddr = Some cn /\ nc_cipher cn = c /\ nc_keyID cn = keyID.
Proof.
  intros Hwf Hkey HU Hsplit Hres Hv Hlis. unfold handlePacket, prepare.
  assert (validatePacket (resolve env) (utargetIPValidator s) (a ++ b) = inl (b, dst)) as Hval.
  { unfold validatePacket. by rewrite Hsplit, Hres, Hv, drop_app_length. }
  unfold keyed in Hkey. destruct (nm !! UDPAddrString clientAddr) as [cn|].
  - destruct Hkey as [Hc <-]. rewrite Hc, HU, Hval by auto. cbn [mbind outcome_bind].
    destruct (targetWrite env b dst) as [n err]. do 5 eexists. cbn [fst snd].
    split; [reflexivity|]. rewrite lookup_insert_eq.
    destruct (onWrite_keeps dst (now env) cn) as (Hc' & Hk' & _).
    split_and!; [reflexivity|congruence|done].
  - destruct Hkey as (es1 & e & es2 & Eo & <- & <- & Hf).
    rewrite findAccessKeyUDP_eq, Eo, (first_unpack_app _ _ es1 e es2 (a ++ b)) by auto.
    cbn [utargetIPValidator]. rewrite Hval, Hlis. cbn [mbind outcome_bind].
    destruct (targetWrite env b dst) as [n err]. do 5 eexists. cbn [fst snd].
    split; [reflexivity|]. rewrite lookup_insert_eq.
    by destruct (onWrite_keeps dst (now env)
      (new_natconn (natTimeout s) (eCipher e) (ID e) (location env))) as (? & ? & _).
Qed.

End Upstream.

(** ** And back *)

Section DatagramRoundTrip.
Context `{CryptoLaws} `{SocksOps} `{UdpLaws}.

(** A packet on its way through the server and an answer on its way back: the
    datagram [b] is sent to [dst] once and accounted to [keyID], and a datagram
    the target side receives on the connection reaches the application as it
    was, from its source, cut to the caller's buffer. *)
Definition round_trip (c : Cipher) (env : round_env) (s : udpService)
    (nm : gmap string natconn) (clientAddr : UDPAddr) (keyID : string) (pkt b : bytes)
    (dst : UDPAddr) : Prop :=
  exists st s' nm' cn pre host loc n t,
    handlePacket env s nm clientAddr pkt = Ret (st, s', nm', pre ++ [TargetWrite b dst;
      UAddWwwRepo host keyID (UDPAddrString clientAddr) 1 1;
      UAddRepo keyID (Z.of_nat (length pkt)) n;
      AddUDPPacketFromClient loc keyID st (Z.of_nat (length pkt)) n t]) /\
    (pre = [] \/ pre = [AddUDPNatEntry]) /\
    n = Z.of_nat (fst (targetWrite env b dst)) /\
    nm' !! UDPAddrString clientAddr = Some cn /\
    forall x body raddr ent', ar_read x = inl (body, raddr) -> valid_endpoint raddr ->
      SaltSize c + maxAddrLen + length body + TagSize c <= clientUDPBufferSize ->
      SaltSize c <= length ent' ->
      exists buf a' cn' evs, ParseAddr (UDPAddrString raddr) = Some a' /\
        timedCopy keyID [x] cn ent' = Ret (false, cn', ClientWrite buf :: evs) /\
        length buf <= clientUDPBufferSize /\
        forall m, packetConn_ReadFrom c m (inl buf) =
          Ret (take m body, Some (AddrString a'),
               if decide (m < length body) then Some ErrShortBuffer else None).

Lemma datagram_round_trip (c : Cipher) (cipherBuf b : bytes) (u : UDPAddr)
    (send : bytes -> nat * option error) (ent : bytes) (env : round_env) (s : udpService)
    (nm : gmap string natconn) (clientAddr dst : UDPAddr) (keyID : string) :
  wf_cipher c -> valid_endpoint u -> length cipherBuf = clientUDPBufferSize ->
  SaltSize c <= length ent -> SaltSize c + maxAddrLen + length b + TagSize c <= clientUDPBufferSize ->
  wf_entries (uciphers s) -> utargetIPValidator s (ua_ip dst) = None -> listenPacket env = None ->
  exists pkt a, ParseAddr (UDPAddrString u) = Some a /\
    packetConn_WriteTo c cipherBuf b (UDPAddrString u) send ent =
      (Ret (length b, snd (send pkt)), Some pkt) /\
    Unpack (Some serverUDPBufferSize) pkt c = Ret (a ++ b) /\
    (resolve env (AddrString a) = inl dst -> keyed s nm clientAddr pkt c keyID ->
     round_trip c env s nm clientAddr keyID pkt b dst).
Proof.
  intros Hwf Hu Hbuf Hent Hlen Hwfs Hv Hlis.
  destruct (ParseAddr_endpoint u Hu) as (a & Ha & _ & Hsplit).
  destruct (endpoint_fits u a Hu Ha) as [[Hl _] _].
  pose proof (packetConn_WriteTo_ok c cipherBuf a b _ send ent Hwf Hbuf Hent Ha) as Hs.
  rewrite decide_True in Hs by lia. destruct Hs as (pkt & E & _ & HU).
  assert (clientUDPBufferSize <= serverUDPBufferSize) as Hsize
    by (unfold clientUDPBufferSize, serverUDPBufferSize; lia).
  exists pkt, a. split_and!; [done|done|apply HU; cbn [default id]; lia|]. intros Hres Hkey.
  destruct (handlePacket_forwards env s nm clientAddr pkt c keyID a b dst Hwfs Hkey)
    as (s' & nm' & cn & loc & t & Eh & Hcn & Hc & _); [|apply Hsplit|done..|].
  { intros d [->| ->]; apply HU; cbn [default id]; lia. }
  do 9 eexists. split_and!; [exact Eh|by case_decide; [right|left]|reflexivity|exact Hcn|].
  intros x body raddr ent' Hx Hrv Hbody Hent'. rewrite <- Hc in Hwf, Hbody, Hent' |- *.
  by apply timedCopy_one.
Qed.

End DatagramRoundTrip.

(** ** Properties *)

Section UdpSessionProperties.
Context `{CryptoLaws} `{SocksOps} `{UdpLaws}.

(** C18: the way back, as a whole.  Whatever the target's socket gives, in any
    number and order, the goroutine of the connection sends each datagram that
    leaves room for the tag to the client in one packet, encrypted in place,
    that opens to its source address and its body; drops a longer one; reports
    each round once to the key, with what it read and what was sent; goes on
    after every error but a timeout; and ends at the first timeout. *)
Theorem timedCopy_spec (keyID : string) (arrivals : list arrival) (c : natconn) (ent : bytes) :
  wf_cipher (nc_cipher c) -> Forall (arrival_ok (nc_cipher c)) arrivals ->
  SaltSize (nc_cipher c) * length arrivals <= length ent ->
  exists c' rounds,
    timedCopy keyID arrivals c ent = Ret (existsb expires arrivals, c', concat rounds) /\
    Forall2 (round_events (nc_cipher c) (clientLocation c) keyID) (before_expiry arrivals) rounds.
Proof.
  intros Hwf Hok Hent. by apply timedCopy_loop_eq.
Qed.

(** C17: associations.  A client's packets, and those of others, in any sequence:
    the service handles them all, and once a packet of a client without a
    connection is sent on, it is accounted to the key that opened it, and every
    packet of that client, until its connection ends, is opened with the cipher
    of that key only, sent on only as decrypted with it and without the address
    in front, and reported once, with its length: accounted to that key if it
    opens, and to none if it does not. *)
Theorem udp_association (env : round_env) (s : udpService) (nm : gmap string natconn)
    (clientAddr : UDPAddr) (pkt : bytes) (ops : list nat_op) :
  wf_entries (uciphers s) -> wf_table nm -> nm !! UDPAddrString clientAddr = None ->
  Expire (UDPAddrString clientAddr) ∉ ops ->
  exists s' nm' ev evs, serve_packets (FromClient env clientAddr pkt :: ops) s nm =
      Ret (s', nm', ev :: evs) /\ length evs = length ops /\
    forall payload dst, TargetWrite payload dst ∈ ev ->
      exists e c, e ∈ order (uciphers s) /\ billed (eCipher e) (ID e) pkt = ID e /\
        Forall2 (attributed_op (UDPAddrString clientAddr) (eCipher e) (ID e))
          (FromClient env clientAddr pkt :: ops) (ev :: evs) /\
        nm' !! UDPAddrString clientAddr = Some c /\ nc_cipher c = eCipher e /\ nc_keyID c = ID e.
Proof.
  intros Hwf Hnm Hnone Hno. cbn [serve_packets].
  destruct (handlePacket_wf env s nm clientAddr pkt Hwf Hnm)
    as (st & s1 & nm1 & ev & Eh & Hwf1 & Hnm1).
  destruct (serve_packets_total ops s1 nm1 Hwf1 Hnm1) as (s' & nm' & evs & Es & _ & _ & Hl).
  rewrite Eh. cbn [mbind outcome_bind]. rewrite Es. cbn [mbind outcome_bind].
  exists s', nm', ev, evs. split_and!; [done|done|]. intros payload dst Hin.
  destruct (handlePacket_first env s nm clientAddr pkt st s1 nm1 ev payload dst Hwf Hnm Hnone Eh Hin)
    as (e & c & He & Hc & Hcip & Hkey & Hb & Hev).
  destruct (serve_packets_bound _ ops s1 nm1 c s' nm' evs Hc Hno Es) as [(c' & Hc' & [? ?]) Hall].
  rewrite Hcip, Hkey in Hall. exists e, c'.
  split_and!; [done|done|constructor; [by intros _|done]|done|congruence..].
Qed.

(** C13: a datagram to its target and the answer back.  What the application sends
    to an endpoint through the packet connection of the client reaches, through
    a server that opens the packet with the same key, the address the endpoint's
    name resolves to, unchanged and once, and is accounted to that key; and a
    datagram that the target side receives on that connection reaches the
    application as it was, from its source, cut to the caller's buffer with
    [ErrShortBuffer] exactly when it was cut. *)
Theorem udp_end_to_end (c : Cipher) (cipherBuf b : bytes) (u : UDPAddr)
    (send : bytes -> nat * option error) (ent : bytes) (env : round_env) (s : udpService)
    (nm : gmap string natconn) (clientAddr dst : UDPAddr) (keyID : string) :
  wf_cipher c -> valid_endpoint u -> length cipherBuf = clientUDPBufferSize ->
  SaltSize c <= length ent -> SaltSize c + maxAddrLen + length b + TagSize c <= clientUDPBufferSize ->
  wf_entries (uciphers s) -> utargetIPValidator s (ua_ip dst) = None -> listenPacket env = None ->
  exists pkt a, ParseAddr (UDPAddrString u) = Some a /\
    packetConn_WriteTo c cipherBuf b (UDPAddrString u) send ent =
      (Ret (length b, snd (send pkt)), Some pkt) /\
    Unpack (Some serverUDPBufferSize) pkt c = Ret (a ++ b) /\
    (resolve env (AddrString a) = inl dst -> keyed s nm clientAddr pkt c keyID ->
     round_trip c env s nm clientAddr keyID pkt b dst).
Proof. apply datagram_round_trip. Qed.

End UdpSessionProperties.

(** ** The theorems at concrete packets *)

Definition ex_arrivals : list arrival :=
  [MkArrival 10 (inl (string_bytes "answer", ex_dns)) (fun b => (length b, None));
   MkArrival 20 (inr ErrUnexpectedEOF) (fun b => (length b, None));
   MkArrival 30 (inr ErrTimeout) (fun b => (length b, None));
   MkArrival 40 (inl (string_bytes "late", ex_dns)) (fun b => (length b, None))].

Lemma ex_dns_valid : valid_endpoint ex_dns.
Proof. split; [left; vm_compute; reflexivity|simpl; lia]. Qed.

Lemma ex_small n : n < 100 ->
  n <= serverUDPBufferSize - (SaltSize (eCipher ex_entry) + maxAddrLen).
Proof.
  intros Hn. unfold serverUDPBufferSize.
  assert (SaltSize (eCipher ex_entry) + maxAddrLen = 51) as -> by (vm_compute; reflexivity). lia.
Qed.

Lemma timedCopy_spec_witness :
  exists c' rounds, timedCopy "carol" ex_arrivals ex_natconn (expand 3 140) =
    Ret (true, c', concat rounds) /\ length rounds = 2.
Proof.
  destruct (timedCopy_spec "carol" ex_arrivals ex_natconn (expand 3 140))
    as (c' & rounds & E & Hall).
  - apply ex_cipher_wf.
  - repeat apply Forall_cons_2; [|done|done| |apply Forall_nil_2].
    + split; [apply ex_dns_valid|apply ex_small; simpl; lia].
    + split; [apply ex_dns_valid|apply ex_small; simpl; lia].
  - apply (bool_decide_eq_true_1 _). vm_compute. reflexivity.
  - exists c', rounds. split; [exact E|]. symmetry. apply (Forall2_length _ _ _ Hall).
Defined.

Lemma udp_association_witness :
  exists s' nm' ev evs,
    serve_packets [FromClient ex_round ex_peer ex_packet; Expire "another client";
                   FromClient ex_round ex_peer ex_packet] ex_udp ∅ = Ret (s', nm', ev :: evs).
Proof.
  destruct (udp_association ex_round ex_udp ∅ ex_peer ex_packet
    [Expire "another client"; FromClient ex_round ex_peer ex_packet])
    as (s' & nm' & ev & evs & E & _).
  - apply demo_keys_wf.
  - apply map_Forall_empty.
  - reflexivity.
  - rewrite !not_elem_of_cons. split_and!; [vm_compute; discriminate|discriminate|].
    apply not_elem_of_nil.
  - exists s', nm', ev, evs. exact E.
Defined.

(** A client that already has a connection. *)
Definition ex_associated : gmap string natconn := {[ UDPAddrString ex_peer := ex_natconn ]}.

Lemma ex_client_small : SaltSize (eCipher ex_entry) + maxAddrLen + 6 + TagSize (eCipher ex_entry) <=
  clientUDPBufferSize.
Proof. apply Nat.leb_le. vm_compute. reflexivity. Qed.

Lemma udp_end_to_end_witness :
  exists pkt st s' nm' evs buf cn cn' down,
    packetConn_WriteTo (eCipher ex_entry) (zeros clientUDPBufferSize) (string_bytes "query!")
      (UDPAddrString ex_dns) (fun b => (length b, None)) (expand 5 40) =
      (Ret (6, None), Some pkt) /\
    handlePacket ex_round ex_udp ex_associated ex_peer pkt = Ret (st, s', nm', evs) /\
    TargetWrite (string_bytes "query!") ex_dns ∈ evs /\
    nm' !! UDPAddrString ex_peer = Some cn /\
    timedCopy "carol" (take 1 ex_arrivals) cn (expand 3 140) = Ret (false, cn', ClientWrite buf :: down) /\
    packetConn_ReadFrom (eCipher ex_entry) 100 (inl buf) =
      Ret (string_bytes "answer", Some (AddrString (default [] (ParseAddr (UDPAddrString ex_dns)))), None).
Proof.
  destruct (udp_end_to_end (eCipher ex_entry) (zeros clientUDPBufferSize) (string_bytes "query!")
    ex_dns (fun b => (length b, None)) (expand 5 40) ex_round ex_udp ex_associated ex_peer ex_dns
    "carol") as (pkt & a & Ha & E & _ & Hrun).
  - apply ex_cipher_wf.
  - apply ex_dns_valid.
  - unfold zeros. apply length_replicate.
  - apply Nat.leb_le. vm_compute. reflexivity.
  - apply ex_client_small.
  - apply demo_keys_wf.
  - vm_compute. reflexivity.
  - reflexivity.
  - destruct Hrun as (st & s' & nm' & cn & pre & host & loc & n & t & Eh & _ & _ & Hcn & Hback).
    + reflexivity.
    + unfold keyed, ex_associated. rewrite lookup_singleton_eq. split; reflexivity.
    + destruct (Hback (MkArrival 10 (inl (string_bytes "answer", ex_dns)) (fun b => (length b, None)))
        (string_bytes "answer") ex_dns (expand 3 140))
        as (buf & a' & cn' & evs & Ha' & Et & _ & Hr).
      * reflexivity.
      * apply ex_dns_valid.
      * apply ex_client_small.
      * apply Nat.leb_le. vm_compute. reflexivity.
      * exists pkt, st, s', nm'. eexists. exists buf, cn, cn', evs.
        split_and!; [exact E|exact Eh| |exact Hcn|exact Et|].
        -- apply elem_of_app. right. left.
        -- rewrite Ha'. exact (Hr 100).
Defined.
