(* ===== verification/Accounting.v ===== *)
(** * Traffic accounting

    Every connection and every packet is reported twice: to the metrics of
    [service/metrics/metrics.go], through the interface [ShadowsocksMetrics],
    and to the queue of the panel API, by [AddRepo].  The interface is a class
    with its two implementations, and what the two reports say is compared. *)
From stdpp Require Import pretty.
From S2P Require Import Prelude GoIO Cipher ToyCrypto Salt Wire SlicePool Writer StreamReader Replay.
From S2P Require Import PrivateNet CipherList Metrics KeyFinding Tcp TcpSpec TcpExamples Udp UdpSpec.
From S2P Require Import UdpSession PromMetrics Api.

Import Writer.
Local Open Scope Z_scope.

(** ** [ShadowsocksMetrics] *)

Class ShadowsocksMetrics (M : Type) := {
  m_SetBuildInfo : string -> M -> M;
  m_GetLocation : (string -> IP) -> string -> M -> string * option error;
  m_SetNumAccessKeys : Z -> Z -> M -> M;
  m_AddOpenTCPConnection : string -> M -> outcome M;
  m_AddClosedTCPConnection : string -> string -> string -> ProxyMetrics -> M -> outcome M;
  m_AddTCPProbe : string -> string -> Z -> ProxyMetrics -> M -> outcome M;
  m_AddUDPPacketFromClient : string -> string -> string -> Z -> Z -> M -> outcome M;
  m_AddUDPPacketFromTarget : string -> string -> string -> Z -> Z -> M -> outcome M;
  m_AddUDPNatEntry : M -> outcome M;
  m_RemoveUDPNatEntry : M -> outcome M;
}.

(** [strconv.Itoa] is [pretty]. *)
#[export] Instance prometheus_metrics `{PromOps} : ShadowsocksMetrics shadowsocksMetrics := {
  m_SetBuildInfo := SetBuildInfo;
  m_GetLocation := GetLocation;
  m_SetNumAccessKeys := SetNumAccessKeys;
  m_AddOpenTCPConnection := PromMetrics.AddOpenTCPConnection;
  m_AddClosedTCPConnection := PromMetrics.AddClosedTCPConnection;
  m_AddTCPProbe status drainResult port _ := PromMetrics.AddTCPProbe status drainResult (pretty port);
  m_AddUDPPacketFromClient := PromMetrics.AddUDPPacketFromClient;
  m_AddUDPPacketFromTarget l k _ := PromMetrics.AddUDPPacketFromTarget l k;
  m_AddUDPNatEntry := PromMetrics.AddUDPNatEntry;
  m_RemoveUDPNatEntry := PromMetrics.RemoveUDPNatEntry;
}.

Inductive NoOpMetrics := MkNoOp.

#[export] Instance noop_metrics : ShadowsocksMetrics NoOpMetrics := {
  m_SetBuildInfo _ m := m;
  m_GetLocation _ _ _ := (""%string, None);
  m_SetNumAccessKeys _ _ m := m;
  m_AddOpenTCPConnection _ m := Ret m;
  m_AddClosedTCPConnection _ _ _ _ m := Ret m;
  m_AddTCPProbe _ _ _ _ m := Ret m;
  m_AddUDPPacketFromClient _ _ _ _ _ m := Ret m;
  m_AddUDPPacketFromTarget _ _ _ _ _ m := Ret m;
  m_AddUDPNatEntry m := Ret m;
  m_RemoveUDPNatEntry m := Ret m;
}.

(** ** The reports of the services *)

(** What a connection, a packet of a client, or the goroutine of a NAT connection
    did. *)
Inductive activity :=
| Connection (evs : list event)
| PacketIn (evs : list uevent)
| PacketsOut (evs : list down_event).

Section Reports.
Context {M : Type} `{ShadowsocksMetrics M}.

(** The location of a TCP client is not looked up: it is always empty. *)
Definition report_tcp (ev : event) : M -> outcome M :=
  match ev with
  | Tcp.AddTCPProbe status drainResult port data => m_AddTCPProbe status drainResult port data
  | Tcp.AddClosedTCPConnection accessKey status data _ _ =>
    m_AddClosedTCPConnection "" accessKey status data
  | _ => Ret
  end.

Definition report_udp (ev : uevent) : M -> outcome M :=
  match ev with
  | Udp.AddUDPPacketFromClient l k st a b _ => m_AddUDPPacketFromClient l k st a b
  | Udp.AddUDPNatEntry => m_AddUDPNatEntry
  | _ => Ret
  end.

Definition report_down (ev : down_event) : M -> outcome M :=
  match ev with
  | UdpSession.AddUDPPacketFromTarget l k st a b => m_AddUDPPacketFromTarget l k st a b
  | ClientWrite _ => Ret
  end.

Fixpoint report_each {E} (report : E -> M -> outcome M) (evs : list E) (m : M) : outcome M :=
  match evs with
  | [] => Ret m
  | ev :: evs => m ← report ev m; report_each report evs m
  end.

Definition report_activity (a : activity) : M -> outcome M :=
  match a with
  | Connection evs => report_each report_tcp evs
  | PacketIn evs => report_each report_udp evs
  | PacketsOut evs => report_each report_down evs
  end.

Definition report_all : list activity -> M -> outcome M := report_each report_activity.

End Reports.

(** ** The records for the panel *)

Definition tcp_traffic (ev : event) : list UserTraffic :=
  match ev with Tcp.AddRepo uid U D => [MkTraffic uid U D] | _ => [] end.
Definition udp_traffic (ev : uevent) : list UserTraffic :=
  match ev with UAddRepo uid U D => [MkTraffic uid U D] | _ => [] end.

Definition traffic (a : activity) : list UserTraffic :=
  match a with
  | Connection evs => evs ≫= tcp_traffic
  | PacketIn evs => evs ≫= udp_traffic
  | PacketsOut _ => []
  end.

(** The queue of [APIClient.AddRepo] after them, one addition after the other;
    what additions that overlap do to it is in [TrafficQueue.v]. *)
Definition queue (acts : list activity) : list UserTraffic :=
  foldl (fun l t => Api.AddRepo t l) [] (acts ≫= traffic).

(** ** As calls of the metrics *)

Definition tcp_calls (ev : event) : list call :=
  match ev with
  | Tcp.AddTCPProbe status drainResult port _ => [CallProbe status drainResult (pretty port)]
  | Tcp.AddClosedTCPConnection accessKey status data _ _ => [CallClosedTCP "" accessKey status data]
  | _ => []
  end.
Definition udp_calls (ev : uevent) : list call :=
  match ev with
  | Udp.AddUDPPacketFromClient l k st a b _ => [CallUDPFromClient l k st a b]
  | Udp.AddUDPNatEntry => [CallAddNat]
  | _ => []
  end.
Definition down_calls (ev : down_event) : list call :=
  match ev with
  | UdpSession.AddUDPPacketFromTarget l k st a b => [CallUDPFromTarget l k a b]
  | ClientWrite _ => []
  end.

Definition calls (a : activity) : list call :=
  match a with
  | Connection evs => evs ≫= tcp_calls
  | PacketIn evs => evs ≫= udp_calls
  | PacketsOut evs => evs ≫= down_calls
  end.

Section Calls.
Context `{PromOps}.

Lemma run_calls_app cs cs' m : run_calls (cs ++ cs') m = (m ← run_calls cs m; run_calls cs' m).
Proof.
  revert m. induction cs as [|c cs IH]; intros m; [done|]. cbn [app run_calls].
  destruct (run_call c m); cbn [mbind outcome_bind]; [apply IH|done..].
Qed.

Lemma report_each_calls {E} (report : E -> shadowsocksMetrics -> outcome shadowsocksMetrics)
    (f : E -> list call) evs :
  (forall ev m, report ev m = run_calls (f ev) m) ->
  forall m, report_each report evs m = run_calls (evs ≫= f) m.
Proof.
  intros Hf. induction evs as [|ev evs IH]; intros m; [done|]. cbn [report_each mbind list_bind].
  rewrite run_calls_app, Hf. destruct (run_calls (f ev) m); cbn [mbind outcome_bind];
    [apply IH|done..].
Qed.

(** A call of one method is the sequence of one call. *)
Lemma run_calls_one c m : run_calls [c] m = run_call c m.
Proof. cbn [run_calls]. by destruct (run_call c m). Qed.

Lemma report_all_calls acts m : report_all acts m = run_calls (acts ≫= calls) m.
Proof.
  apply report_each_calls. intros [evs|evs|evs] m'; apply report_each_calls;
    intros [] m''; try done; symmetry; apply run_calls_one.
Qed.

End Calls.

(** The metrics that do nothing accept everything. *)
Lemma report_all_noop acts : report_all acts MkNoOp = Ret MkNoOp.
Proof.
  assert (forall E (report : E -> NoOpMetrics -> outcome NoOpMetrics) evs,
    (forall ev, report ev MkNoOp = Ret MkNoOp) -> report_each report evs MkNoOp = Ret MkNoOp)
    as Hall.
  { intros E report evs Hr. induction evs as [|ev evs IH]; [done|]. cbn [report_each].
    rewrite Hr. exact IH. }
  apply Hall. intros [evs|evs|evs]; apply Hall; by intros [].
Qed.

(** ** Counting lemmas *)

Lemma Sink_write_count w q n e w' :
  Sink_write w q = (n, e, w') -> bytes_written w' = bytes_written w + Z.of_nat n.
Proof.
  unfold Sink_write, bytes_written.
  destruct (plan w) as [|[[k x]|] rest]; intros [= <- <- <-]; cbn [written];
    rewrite concat_app, length_app; cbn [concat]; rewrite app_nil_r, ?length_take; lia.
Qed.

Section Counting.
Context `{CryptoOps} {R : Type} `{Reader R}.

(** [WriteTo] returns what it wrote, however it ends. *)
Lemma WriteTo_loop_count fuel : forall p (c : readConverter.t R) w total o p' c' w',
  readConverter.WriteTo_loop fuel p c w total = (o, p', c', w') ->
  (forall x, o <> Err x) /\
  forall n e, o = Ret (n, e) ->
    bytes_written w' = bytes_written w + (Z.of_nat n - Z.of_nat total) /\ (total <= n)%nat.
Proof.
  induction fuel as [|fuel IH]; intros p c w total o p' c' w'; cbn [readConverter.WriteTo_loop].
  { intros [= <- <- <- <-]. split; [done|]. intros n e [= <- <-]. split; [lia|done]. }
  destruct (readConverter.ensureLeftover p c) as [[[[]|x|m] p1] c1].
  - destruct (Sink_write w (readConverter.leftover c1)) as [[k e1] w1] eqn:Ew.
    apply Sink_write_count in Ew. destruct e1 as [y|].
    + intros [= <- <- <- <-]. split; [done|]. intros n e [= <- <-]. split; lia.
    + intros E. destruct (IH _ _ _ _ _ _ _ _ E) as [Hno Hn]. split; [done|].
      intros n e ->. destruct (Hn n e eq_refl). split; lia.
  - intros [= <- <- <- <-]. split; [done|]. intros n e [= <- <-]. split; [lia|done].
  - intros [= <- <- <- <-]. split; [done|]. by intros n e.
Qed.

(** A read of a counted connection. *)
Lemma rd_read_count (c : measuredConn R) n d e c' :
  rd_read c n = (d, e, c') -> readCount c' = int64 (readCount c + Z.of_nat (length d)).
Proof.
  destruct c as [r k]. cbn [rd_read measuredConn_reader]. unfold measuredConn_Read. cbn [inner].
  destruct (rd_read r n) as [[d' e'] r1]. by intros [= <- <- <-].
Qed.

(** [ReadFrom] returns what it read, however it ends. *)
Lemma ReadFrom_loop_count fuel : forall sw (r : measuredConn R) total n x sw' r',
  ReadFrom_loop fuel sw r total = ((n, x), sw', r') -> counted_ok r ->
  readCount r' = int64 (readCount r + (Z.of_nat n - Z.of_nat total)) /\ (total <= n)%nat.
Proof.
  induction fuel as [|fuel IH]; intros sw r total n x sw' r'; cbn [ReadFrom_loop].
  { intros [= <- <- <- <-] Hr. rewrite Z.sub_diag, Z.add_0_r. by split. }
  destruct (rd_read r payloadSizeMask) as [[d e] r1] eqn:E.
  pose proof (counted_Read _ _ _ _ _ E) as Hr1. apply rd_read_count in E.
  destruct (flush _) as [fe sw1]. destruct (match fe with Some _ => _ | None => e end).
  - intros [= <- <- <- <-] _. split; [|lia]. rewrite E. f_equal. lia.
  - intros El _. destruct (IH _ _ _ _ _ _ _ El Hr1) as [Hc Hl]. split; [|lia].
    rewrite Hc, E, int64_add_l. f_equal. lia.
Qed.

Lemma ReadFrom_count rc sw (r : measuredConn R) o sw' r' :
  ReadFrom rc sw r = (o, sw', r') -> counted_ok r ->
  (forall x, o <> Err x) /\
  forall n e, o = Ret (n, e) -> readCount r' = int64 (readCount r + Z.of_nat n).
Proof.
  unfold ReadFrom. intros E Hr.
  destruct (init sw) as [[[]|x|m] sw1]; revert E; [|intros [= <- <- <-]; split..].
  2,4,5: done.
  2: by intros n e [= <- <-]; rewrite Z.add_0_r.
  assert (forall (err : option error) r1 sw2 total, counted_ok r1 ->
    readCount r1 = int64 (readCount r + Z.of_nat total) ->
    match err with
    | Some x => (Ret (ReadFrom_result total x), sw2, r1)
    | None => let '((total, x), sw, r) := ReadFrom_loop (S (rd_fuel r1)) sw2 r1 total in
        (Ret (ReadFrom_result total x), sw, r)
    end = (o, sw', r') ->
    (forall x, o <> Err x) /\
    forall n e, o = Ret (n, e) -> readCount r' = int64 (readCount r + Z.of_nat n)) as Hend.
  { intros err r1 sw2 total Hok Hc. destruct err as [x|].
    - intros [= <- <- <-]. split; [done|]. intros n e. unfold ReadFrom_result.
      case_decide; by intros [= <- <-].
    - destruct (ReadFrom_loop _ _ _ _) as [[[t x] sw3] r3] eqn:El.
      apply ReadFrom_loop_count in El as [Hc3 Hl]; [|done].
      intros [= <- <- <-]. split; [done|]. intros n e En.
      assert (n = t) as -> by (revert En; unfold ReadFrom_result; case_decide; by intros [= <- _]).
      rewrite Hc3, Hc, int64_add_l. f_equal. lia. }
  destruct (needFlush sw1).
  - destruct (ReadFrom_first rc sw1 r) as [[[total err] sw2] r2] eqn:Ef.
    assert (counted_ok r2 /\ readCount r2 = int64 (readCount r + Z.of_nat total)) as [Hok Hc].
    { revert Ef. unfold ReadFrom_first. destruct (rd_read r _) as [[d e] r1] eqn:Er.
      destruct (enqueue _ _) as [k sw3]. destruct (flush sw3). intros [= <- _ _ <-].
      split; [by eapply counted_Read|by eapply rd_read_count]. }
    by apply Hend.
  - intros E. apply (Hend None r sw1 0%nat); [done| |exact E]. by rewrite Z.add_0_r.
Qed.

End Counting.

(** ** What a connection records *)

Lemma bind_perm {A B} (f : A -> list B) xs ys : xs ≡ₚ ys -> xs ≫= f ≡ₚ ys ≫= f.
Proof.
  induction 1 as [|x xs ys _ IH|x y xs|xs ys zs _ IH1 _ IH2]; cbn [mbind list_bind].
  - done.
  - by rewrite IH.
  - by rewrite !(assoc (++)), (Permutation_app_comm (f y) (f x)).
  - by etrans.
Qed.

Lemma findEntry_id `{CryptoOps} fb es e id : findEntry fb es = Ret (Some e, id) -> id = ID e.
Proof.
  induction es as [|[x|] es IH]; cbn [findEntry]; [done| |done].
  destruct (tryEntry fb x); [by intros [= <- <-]|done|done].
Qed.

Lemma findAccessKey_id `{CryptoOps} {R} `{Reader R} (r : R) ip t cl e cr salt t' id cl' :
  findAccessKey r ip t cl = Ret (KeyFound e cr salt t' id, cl') -> id = ID e.
Proof.
  unfold findAccessKey. destruct (SnapshotForClientIP cl ip); cbn [mbind outcome_bind]; try done.
  destruct (ReadFull r bytesForKeyFinding) as [[fb [x|]] r1]; [done|].
  destruct (findEntry fb _) as [[[en|] i]|x|m] eqn:E; cbn [mbind outcome_bind]; try done.
  intros [= <- _ _ _ <- _]. by eapply findEntry_id.
Qed.

(** No call of the list counts bytes. *)
Definition no_bytes (cs : list call) : Prop := cs ≫= transfers = [].

Lemma no_bytes_app cs cs' : no_bytes cs -> no_bytes cs' -> no_bytes (cs ++ cs').
Proof. unfold no_bytes. rewrite bind_app. by intros -> ->. Qed.

Section Handler.
Context `{CryptoOps} `{SocksOps} {R : Type} `{Reader R} {T : Type} `{Reader T}.

(** The relay records, for the key, exactly what was written to the target and
    what was read from it; and nothing is recorded without a target. *)
Definition recorded (uid : string) (h : handled (R := R) (T := T)) : Prop :=
  no_bytes (h_events h ≫= tcp_calls) /\
  match h_target h with
  | None => h_events h ≫= tcp_traffic = []
  | Some (tin, tout) => exists d,
      h_events h ≫= tcp_traffic ≡ₚ [MkTraffic uid (bytes_written tout) 0; MkTraffic uid 0 d] /\
      readCount tin = int64 d /\ 0 <= d
  end.

Lemma fromClient_count uid p (ssr : readConverter.t (bytes * measuredConn R)) w e evs c w' :
  fromClient uid p ssr w = Ret (e, evs, c, w') ->
  exists n, evs = [Tcp.AddRepo uid (Z.of_nat n) 0; ClientCloseRead; TargetCloseWrite] /\
    bytes_written w' = bytes_written w + Z.of_nat n.
Proof.
  unfold fromClient, readConverter.WriteTo.
  destruct (readConverter.WriteTo_loop _ p ssr w 0) as [[[o p1] c1] w1] eqn:E.
  apply WriteTo_loop_count in E as [Hno Hn].
  destruct o as [[n e1]|x|m]; [|by destruct (Hno x)|done].
  intros [= <- <- <- <-]. exists n. destruct (Hn n e1 eq_refl) as [-> _]. split; [done|lia].
Qed.

Lemma fromTarget_count uid entry ent out (t : T) e evs out' t' :
  fromTarget uid entry ent out (MkMeasured t 0) = Ret (e, evs, out', t') ->
  exists n, evs = [Tcp.AddRepo uid 0 (Z.of_nat n); ClientCloseWrite; TargetCloseRead] /\
    readCount t' = int64 (Z.of_nat n).
Proof.
  unfold fromTarget. destruct (ReadFrom NoFlush _ _) as [[o sw1] t1] eqn:E.
  apply ReadFrom_count in E as [Hno Hn]; [|done].
  destruct o as [[n e1]|x|m]; [|by destruct (Hno x)|done].
  intros [= <- <- <- <-]. exists n. by rewrite (Hn n e1 eq_refl).
Qed.

Lemma relay_recorded env uid entry p (ssr : readConverter.t (bytes * measuredConn R)) out tgt
    c out' tin tout ce evs :
  bytes_written (snd tgt) = 0 ->
  relay env uid entry p ssr out tgt = Ret (c, out', (tin, tout), ce, evs) ->
  evs ≫= tcp_calls = [] /\ exists d,
    evs ≫= tcp_traffic ≡ₚ [MkTraffic uid (bytes_written tout) 0; MkTraffic uid 0 d] /\
    readCount tin = int64 d /\ 0 <= d.
Proof.
  unfold relay. intros Hw E.
  destruct (fromClient uid p ssr (snd tgt)) as [[[[e1 ev1] c1] w1]|x|m] eqn:E1;
    cbn [mbind outcome_bind] in E; [|done..].
  destruct (fromTarget uid entry (env_entropy env) out (MkMeasured (fst tgt) 0))
    as [[[[e2 ev2] out2] t2]|x|m] eqn:E2; cbn [mbind outcome_bind] in E; [|done..].
  injection E as <- <- <- <- <- <-.
  apply fromClient_count in E1 as (n & -> & Hn). apply fromTarget_count in E2 as (d & -> & Hd).
  set (xs := [Tcp.AddRepo uid (Z.of_nat n) 0; _; _]). set (ys := [Tcp.AddRepo uid 0 (Z.of_nat d); _; _]).
  pose proof (interleave_perm (env_sched env) xs ys) as Hp. rewrite !bind_app.
  split.
  - assert (interleave (env_sched env) xs ys ≫= tcp_calls = []) as ->; [|done].
    apply Permutation_nil_r. by rewrite (bind_perm _ _ _ Hp).
  - exists (Z.of_nat d). split; [|split; [done|lia]]. rewrite (bind_perm _ _ _ Hp), Hn, Hw. done.
Qed.

(** Connections that are dialed are new: nothing was written to them. *)
Definition fresh_dialer (env : conn_env T) : Prop :=
  forall host a c, a ∈ fst (dialer env host) -> at_outcome a = inl c -> written (snd c) = [].

Lemma serve_recorded env s entry uid (r : bytes * measuredConn R) out h :
  fresh_dialer env -> serve env s entry uid r out = Ret h -> recorded uid h.
Proof.
  intros Hfresh. unfold serve. destruct (ReadAddr _ _ _) as [[addr|e|m] [p ssr]]; [| |done].
  - destruct (dialer env (AddrString addr)) as [attempts noAddr] eqn:Hd.
    destruct (dialTarget _ attempts noAddr) as [c|ce] eqn:Hdial; [|by intros [= <-]].
    destruct (relay env uid entry p ssr out c) as [[[[[c' out'] [tin tout]] ce] evs]|?|?] eqn:Er;
      cbn [mbind outcome_bind]; [|done..].
    apply dialTarget_accepted in Hdial as (a & Ha & _ & Ho).
    assert (bytes_written (snd c) = 0) as Hw.
    { unfold bytes_written. rewrite (Hfresh (AddrString addr) a c); [done|by rewrite Hd|done]. }
    destruct (relay_recorded _ _ _ _ _ _ _ _ _ _ _ _ _ Hw Er) as [Hcalls Htr].
    intros [= <-]. unfold recorded. cbn [h_events h_target]. rewrite !bind_cons, Hcalls. by split.
  - destruct (measuredConn_Discard _) as [[n x] c]. by intros [= <-].
Qed.

Lemma connError_recorded port env s key out h :
  fresh_dialer env ->
  (forall entry r salt t uid, key = KeyFound entry r salt t uid -> uid = ID entry) ->
  connError (R := R) port env s key out = Ret h -> recorded (key_id key) h.
Proof.
  intros Hfresh Hid. unfold connError.
  assert (forall c st, let '(ev, c') := absorbProbe (R := R) (T := T) port c out st in
    ev ≫= tcp_traffic = [] /\ no_bytes (ev ≫= tcp_calls)) as Hprobe.
  { intros c st. unfold absorbProbe. by destruct (measuredConn_Discard c) as [[n x] c']. }
  destruct key as [c t e id|entry r salt t uid].
  - specialize (Hprobe c "ERR_CIPHER"%string). destruct (absorbProbe _ _ _ _) as [ev c'].
    intros [= <-]. destruct Hprobe. by split.
  - destruct (if IsServerSalt _ _ then _ else _) as [fresh cache]. destruct (_ || _).
    + set (st := if IsServerSalt _ _ then _ else _). specialize (Hprobe (snd r) st).
      destruct (absorbProbe _ _ _ _) as [ev c']. intros [= <-]. destruct Hprobe. by split.
    + intros E. cbn [key_id]. rewrite <- (Hid entry r salt t uid eq_refl).
      by apply serve_recorded in E.
Qed.

End Handler.

(** ** The two reports agree *)

Definition moved (a : activity) : list (string * string * string * string * Z) :=
  calls a ≫= transfers.

(** For a key, the upload recorded for the panel is what the metrics count
    towards the target for TCP and from the client for UDP; the download is what
    they count from the target for TCP and, for UDP, towards the target. *)
Definition balanced (a : activity) : Prop :=
  forall key, key <> ""%string -> Forall in_range (traffic a) ->
    total tU key (traffic a) =
      bytes_of (of_key "p>t" "tcp" key) (moved a) + bytes_of (of_key "c>p" "udp" key) (moved a) /\
    total tD key (traffic a) =
      bytes_of (of_key "p<t" "tcp" key) (moved a) + bytes_of (of_key "p>t" "udp" key) (moved a).

(** The four counts of a TCP connection, as transfers. *)
Lemma bytes_of_closed (key id st : string) (pm : ProxyMetrics) :
  let ts := transfers (CallClosedTCP "" id st pm) in
  let own z := if decide (id = key) then Z.max 0 z else 0 in
  bytes_of (of_key "p>t" "tcp" key) ts = own (ProxyTarget pm) /\
  bytes_of (of_key "p<t" "tcp" key) ts = own (TargetProxy pm) /\
  bytes_of (of_key "c>p" "udp" key) ts = 0 /\ bytes_of (of_key "p>t" "udp" key) ts = 0.
Proof.
  unfold bytes_of. cbn [transfers foldr]. unfold of_key.
  split_and!; destruct (decide (id = key)) as [->|Hne]; repeat case_decide; naive_solver lia.
Qed.

Lemma bytes_of_udp_in (key loc id st : string) (a b : Z) :
  let ts := transfers (CallUDPFromClient loc id st a b) in
  let own z := if decide (id = key) then Z.max 0 z else 0 in
  bytes_of (of_key "p>t" "tcp" key) ts = 0 /\ bytes_of (of_key "p<t" "tcp" key) ts = 0 /\
  bytes_of (of_key "c>p" "udp" key) ts = own a /\ bytes_of (of_key "p>t" "udp" key) ts = own b.
Proof.
  unfold bytes_of. cbn [transfers foldr]. unfold of_key.
  split_and!; destruct (decide (id = key)) as [->|Hne]; repeat case_decide; naive_solver lia.
Qed.

Section Arises.
Context `{CryptoOps} `{SocksOps} `{UdpOps} (R T : Type) `{Reader R} `{Reader T}.

(** A report of the code: a connection handled, a packet of a client, or the
    goroutine that copies packets back. *)
Inductive arises : activity -> Prop :=
| arises_tcp port (env : conn_env T) s (client : R) client_out h :
    fresh_dialer env -> handleConnection port env s client client_out = Ret h ->
    arises (Connection (h_events h))
| arises_in env s nm clientAddr pkt st s' nm' evs :
    handlePacket env s nm clientAddr pkt = Ret (st, s', nm', evs) -> arises (PacketIn evs)
| arises_out keyID arrivals c ent ended c' evs :
    timedCopy keyID arrivals c ent = Ret (ended, c', evs) -> arises (PacketsOut evs).

(** The outer events of a connection: no record for the panel, and the four
    counts. *)
Lemma connection_events (h1 h : handled (R := R) (T := T)) env rt id st pm t :
  Ret (MkHandled (h_service h1) (h_client h1) (h_client_out h1) (h_target h1) (h_error h1)
    ([SetKeepAlive; SetReadDeadline rt] ++ h_events h1 ++
     [Tcp.AddClosedTCPConnection id st pm t (connDuration (T := T) env); ClientClose])) = Ret h ->
  no_bytes (h_events h1 ≫= tcp_calls) ->
  traffic (Connection (h_events h)) = h_events h1 ≫= tcp_traffic /\
  moved (Connection (h_events h)) = transfers (CallClosedTCP "" id st pm).
Proof.
  intros Eh Hno. unfold moved, traffic, calls, no_bytes in *.
  assert (h_events h = [SetKeepAlive; SetReadDeadline rt] ++ h_events h1 ++
     [Tcp.AddClosedTCPConnection id st pm t (connDuration (T := T) env); ClientClose]) as ->.
  { by injection Eh as <-. }
  rewrite !bind_app, Hno. split; [|done]. cbn [mbind list_bind tcp_traffic app].
  by rewrite app_nil_r.
Qed.

Lemma connection_balanced port (env : conn_env T) s (client : R) client_out h :
  fresh_dialer env -> handleConnection port env s client client_out = Ret h ->
  balanced (Connection (h_events h)).
Proof.
  intros Hfresh. unfold handleConnection. set (c0 := MkMeasured client 0).
  destruct (findAccessKey _ _ _ _) as [[key cl]|?|?] eqn:Ek; cbn [mbind outcome_bind]; [|done..].
  set (s1 := MkTcpService _ _ _ _).
  destruct (connError port env s1 key client_out) as [h1|?|?] eqn:E; cbn [mbind outcome_bind];
    [|done..].
  apply connError_recorded in E as [Hno Htr]; [|done|].
  2: { intros entry r salt t uid ->. by apply findAccessKey_id in Ek. }
  set (pm := proxyMetrics (h_client h1) (h_client_out h1) (h_target h1)). intros Eh k Hk.
  destruct (connection_events _ _ _ _ _ _ _ _ Eh Hno) as [-> ->].
  destruct (bytes_of_closed k (key_id key) (status_of (h_error h1)) pm) as (-> & -> & -> & ->).
  rewrite !Z.add_0_r. destruct (h_target h1) as [[tin tout]|].
  - destruct Htr as (d & Hp & Hd & Hd0). rewrite !(total_perm _ _ _ _ Hp), Hp.
    intros [[[_ Hu] _] [[[_ _] [_ Hdr]] _]%Forall_cons]%Forall_cons. simpl in Hu, Hdr.
    unfold pm, proxyMetrics. cbn [ProxyTarget TargetProxy]. rewrite Hd.
    assert (0 <= bytes_written tout) by (unfold bytes_written; lia).
    rewrite !int64_id by lia. unfold total. cbn [foldr UID tU tD].
    split; repeat case_decide; lia.
  - rewrite Htr. intros _. unfold pm, proxyMetrics. cbn. by destruct (decide (key_id key = k)).
Qed.

Lemma handlePacket_recorded env s nm clientAddr pkt st s' nm' evs :
  handlePacket env s nm clientAddr pkt = Ret (st, s', nm', evs) ->
  exists uid loc a n t pre, 0 <= a /\ 0 <= n /\ evs = pre ++
    [UAddRepo uid a n; Udp.AddUDPPacketFromClient loc uid st a n t] /\
    pre ≫= udp_traffic = [] /\ no_bytes (pre ≫= udp_calls).
Proof.
  unfold handlePacket. destruct (prepare _ _ _ _ _) as [[[[[prep r] s1] nm1] ev]|?|?] eqn:Ep;
    cbn [mbind outcome_bind]; [|done..].
  assert (r_proxyTargetBytes r = 0 /\ (ev = [] \/ ev = [Udp.AddUDPNatEntry])) as [Hr Hev].
  { revert Ep. unfold prepare. repeat case_match; intros; simplify_eq; cbn; auto. }
  destruct prep as [[[payload dst] c]|ce].
  - destruct (targetWrite env payload dst) as [n err]. intros [= <- <- <- <-].
    eexists (r_keyID r), (r_location r), (Z.of_nat (length pkt)), (Z.of_nat n), (r_time r),
      (ev ++ [TargetWrite payload dst; _]). split_and!; [lia|lia| | |].
    + rewrite <- app_assoc. reflexivity.
    + by destruct Hev as [-> | ->].
    + by destruct Hev as [-> | ->].
  - intros [= <- <- <- <-].
    eexists (r_keyID r), (r_location r), (Z.of_nat (length pkt)), (r_proxyTargetBytes r), (r_time r),
      (ev ++ [_]). split_and!; [lia|lia| | |].
    + rewrite <- app_assoc. reflexivity.
    + by destruct Hev as [-> | ->].
    + by destruct Hev as [-> | ->].
Qed.

Lemma packet_balanced env s nm clientAddr pkt st s' nm' evs :
  handlePacket env s nm clientAddr pkt = Ret (st, s', nm', evs) -> balanced (PacketIn evs).
Proof.
  intros (uid & loc & a & n & t & pre & Ha & Hn & -> & Htr & Hno)%handlePacket_recorded k Hk _.
  assert (traffic (PacketIn (pre ++ [UAddRepo uid a n; Udp.AddUDPPacketFromClient loc uid st a n t])) =
    [MkTraffic uid a n]) as ->.
  { unfold traffic. by rewrite bind_app, Htr. }
  assert (moved (PacketIn (pre ++ [UAddRepo uid a n; Udp.AddUDPPacketFromClient loc uid st a n t])) =
    transfers (CallUDPFromClient loc uid st a n)) as ->.
  { unfold moved, calls. rewrite !bind_app. unfold no_bytes in Hno. by rewrite Hno. }
  destruct (bytes_of_udp_in k loc uid st a n) as (-> & -> & -> & ->).
  unfold total. cbn [foldr UID tU tD]. split; repeat case_decide; lia.
Qed.

Lemma packets_out_balanced evs : balanced (PacketsOut evs).
Proof.
  intros k Hk _. unfold moved, traffic, calls.
  assert (forall d p, (d, p) = ("p>t", "tcp")%string \/ (d, p) = ("c>p", "udp")%string \/
    (d, p) = ("p<t", "tcp")%string \/ (d, p) = ("p>t", "udp")%string ->
    bytes_of (of_key d p k) ((evs ≫= down_calls) ≫= transfers) = 0) as Hz.
  { intros d p Hdp. induction evs as [|ev evs IH]; [done|].
    rewrite bind_cons, bind_app, bytes_of_app, IH, Z.add_0_r.
    destruct ev as [buf|l id st a b]; [done|]. unfold bytes_of. cbn. unfold of_key.
    rewrite !decide_False by naive_solver. done. }
  rewrite !Hz by auto. done.
Qed.

Lemma arises_balanced a : arises a -> balanced a.
Proof.
  intros [port env s client out h Hf Hh|env s nm ca pkt st s' nm' evs Hp|].
  - by eapply connection_balanced.
  - by eapply packet_balanced.
  - apply packets_out_balanced.
Qed.

End Arises.

(** Records without a key, or without traffic, are not queued. *)
Lemma total_queue (f : UserTraffic -> Z) key l :
  f = tU \/ f = tD -> key <> ""%string ->
  total f key (foldl (fun l t => Api.AddRepo t l) [] l) = total f key l.
Proof.
  intros Hf Hk. induction l as [|t l IH] using rev_ind; [done|].
  rewrite foldl_app, total_app, <- IH. cbn [foldl]. unfold Api.AddRepo.
  destruct (_ && _) eqn:E; [by rewrite total_app|].
  assert (total f key [t] = 0) as ->; [|lia]. unfold total. cbn [foldr].
  destruct (decide (UID t = key)) as [Hid|]; [|lia]. subst key. rewrite bool_decide_eq_false_2 in E by done.
  cbn [negb andb] in E. apply orb_false_iff in E as [E1 E2].
  apply negb_false_iff, bool_decide_eq_true in E1, E2. destruct Hf as [-> | ->]; lia.
Qed.

Section Billing.
Context `{CryptoOps} `{SocksOps} `{UdpOps} (R T : Type) `{Reader R} `{Reader T} `{PromLaws}.

(** C15: billing agrees with the metrics.  Whatever connections and packets the
    services handle, in any order, from and to whatever peers: reporting them
    to Prometheus never fails while the counts are ones a float64 holds, and the
    records queued for the panel add up, for every key, to the series: the
    upload is what the metrics count from proxy to target over TCP plus from
    client to proxy over UDP, and the download is what they count from target
    to proxy over TCP plus, over UDP, what was sent on to the target. *)
Theorem billing_matches_metrics (db : option geoip2_Reader) (acts : list activity) :
  Forall (arises R T) acts -> Forall in_range (acts ≫= traffic) ->
  Z.of_nat (length (acts ≫= calls)) <= 2 ^ 53 ->
  bytes_of (fun _ => True) ((acts ≫= calls) ≫= transfers) <= 2 ^ 53 ->
  exists m, report_all acts (newShadowsocksMetrics db) = Ret m /\
    forall key, key <> ""%string ->
      total tU key (queue acts) =
        value (vecs m dataBytes) ["p>t"; "tcp"; key]%string +
        value (vecs m dataBytes) ["c>p"; "udp"; key]%string /\
      total tD key (queue acts) =
        value (vecs m dataBytes) ["p<t"; "tcp"; key]%string +
        value (vecs m dataBytes) ["p>t"; "udp"; key]%string.
Proof.
  intros Harise Hrange Hn Hb.
  destruct (run_calls_totals db (acts ≫= calls) Hn Hb) as (m & E & Hv & _).
  exists m. rewrite report_all_calls. split; [done|]. intros key Hk. rewrite !Hv.
  unfold queue. rewrite !total_queue by auto. clear Hn Hb E Hv m.
  induction Harise as [|a acts Ha _ IH]; [done|].
  rewrite bind_cons in Hrange |- *. apply Forall_app in Hrange as [Hr Hrange].
  destruct (IH Hrange) as [IHU IHD]. destruct (arises_balanced R T a Ha key Hk Hr) as [HU HD].
  rewrite bind_cons, bind_app, !total_app, !bytes_of_app, HU, HD, IHU, IHD.
  unfold moved. lia.
Qed.

End Billing.

(** ** The theorem at a concrete history *)

(** The connection of [TcpExamples], a packet of [UdpSpec] and the answers of
    [UdpSession]. *)
Definition ex_tcp_events : list event :=
  match handleConnection 8388 ex_env (ex_service ∅) ex_client ex_sink with
  | Ret h => h_events h
  | _ => []
  end.
Definition ex_udp_events : list uevent :=
  match handlePacket ex_round ex_udp ∅ ex_peer ex_packet with
  | Ret x => snd x
  | _ => []
  end.
Definition ex_down_events : list down_event :=
  match timedCopy "carol" ex_arrivals ex_natconn (expand 3 140) with
  | Ret x => snd x
  | _ => []
  end.
Definition ex_history : list activity :=
  [Connection ex_tcp_events; PacketIn ex_udp_events; PacketsOut ex_down_events].

Lemma ex_fresh_dialer : fresh_dialer ex_env.
Proof.
  intros host a c. simpl. case_decide; simpl; [|by intros ?%not_elem_of_nil].
  rewrite !elem_of_cons. intros [->|[->|Ha]]; simpl; [done|by intros [= <-]|].
  by apply not_elem_of_nil in Ha.
Qed.

Definition is_ret {A} (o : outcome A) : bool := match o with Ret _ => true | _ => false end.

(** The events of a call known to return. *)
Lemma ret_events {A E} (P : list E -> Prop) (o : outcome A) (f : A -> list E) :
  is_ret o = true -> (forall a, o = Ret a -> P (f a)) ->
  P (match o with Ret a => f a | _ => [] end).
Proof. intros Ho HP. destruct o as [a|e|m]; [by apply HP|discriminate Ho..]. Qed.

Lemma ex_arises : Forall (arises Conn Conn) ex_history.
Proof.
  repeat apply Forall_cons_2; [| | |apply Forall_nil_2].
  - apply (ret_events (fun evs => arises Conn Conn (Connection evs)) _ h_events);
      [vm_compute; reflexivity|]. intros h Eh. exact (arises_tcp _ _ _ _ _ _ _ _ ex_fresh_dialer Eh).
  - apply (ret_events (fun evs => arises Conn Conn (PacketIn evs)) _ snd);
      [vm_compute; reflexivity|]. intros [[[st s'] nm'] evs] Eh. exact (arises_in _ _ _ _ _ _ _ _ _ _ _ Eh).
  - apply (ret_events (fun evs => arises Conn Conn (PacketsOut evs)) _ snd);
      [vm_compute; reflexivity|]. intros [[ended c'] evs] Eh. exact (arises_out _ _ _ _ _ _ _ _ _ Eh).
Qed.

Lemma billing_matches_metrics_witness :
  exists m, report_all ex_history (newShadowsocksMetrics None) = Ret m /\
    total tU "carol" (queue ex_history) = 5 + Z.of_nat (length ex_packet) /\
    value (vecs m dataBytes) ["p>t"; "tcp"; "carol"]%string +
      value (vecs m dataBytes) ["c>p"; "udp"; "carol"]%string = 5 + Z.of_nat (length ex_packet).
Proof.
  destruct (billing_matches_metrics Conn Conn None ex_history) as (m & E & Hm).
  - apply ex_arises.
  - assert (ex_history ≫= traffic =
      [MkTraffic "carol" 5 0; MkTraffic "carol" 0 6; MkTraffic "carol" 56 5]) as ->
      by (vm_compute; reflexivity).
    repeat apply Forall_cons_2; [split; simpl; lia..|apply Forall_nil_2].
  - vm_compute. intros [=].
  - vm_compute. intros [=].
  - exists m. split; [exact E|]. destruct (Hm "carol"%string) as [HU _]; [discriminate|].
    rewrite <- HU. split; vm_compute; reflexivity.
Defined.
