(* ===== verification/History.v ===== *)
(** * The server over time

    [RunSSServer] and then any number of polls of [CheckUser]: what the server
    serves after them, whatever the system refuses meanwhile. *)
From S2P Require Import Prelude GoIO Cipher ToyCrypto Salt CipherList Api Server Startup.

Local Open Scope Z_scope.

Section Polls.
Context `{CryptoOps}.

(** The loop of [CheckUser] over the lists it is given. *)
Definition run_polls (ps : list (env * list Key)) (st : gmap Key Z * SSServer) :
    gmap Key Z * SSServer :=
  foldl (fun st '(en, users) => CheckUser_poll en users st) st ps.

End Polls.

(** ** Lemmas *)

(** Every listening socket is that of a port served: none was left behind. *)
Record tight (s : SSServer) : Prop := {
  ti_tcp id p : tcpSocks (sockets s) !! id = Some p ->
    exists port, ports s !! p = Some port /\ tcpService port = id;
  ti_udp id p : udpSocks (sockets s) !! id = Some p ->
    exists port, ports s !! p = Some port /\ udpService port = id;
}.

(** The system grants every port and every close. *)
Record granting (en : env) : Prop := {
  gr_tcpBind p : tcpBind en p = None;
  gr_udpBind p : udpBind en p = None;
  gr_tcpStop p : tcpStop en p = None;
  gr_udpStop p : udpStop en p = None;
}.

Lemma tight_bindable en p s : granting en -> tight s -> ports s !! p = None -> bindable en p s.
Proof.
  intros Hg Ht Hp. unfold bindable, listen. rewrite (gr_tcpBind en Hg), (gr_udpBind en Hg).
  rewrite !bool_decide_eq_false_2; [done|intros [_ (id & Hid)%elem_of_values]..].
  - destruct (ti_udp s Ht id p Hid) as (port & Hpo & _). congruence.
  - destruct (ti_tcp s Ht id p Hid) as (port & Hpo & _). congruence.
Qed.

Lemma startPort_tight en q s :
  tight s -> ports s !! q = None -> fst (startPort en q s) = Ret tt ->
  tight (snd (startPort en q s)).
Proof.
  intros [Ht Hu] Hq. unfold startPort, ListenTCP, ListenUDP.
  destruct (listen (tcpBind en) q _); [done|]. cbn [sockets tcpSocks udpSocks nextSock].
  destruct (listen (udpBind en) q _); [done|]. intros _. split; simpl.
  - intros id p [[<- <-]|[_ Hid]]%lookup_insert_Some.
    + eexists. by rewrite lookup_insert_eq.
    + destruct (Ht id p Hid) as (port & Hp & Hs). exists port.
      rewrite lookup_insert_ne by congruence. done.
  - intros id p [[<- <-]|[_ Hid]]%lookup_insert_Some.
    + eexists. by rewrite lookup_insert_eq.
    + destruct (Hu id p Hid) as (port & Hp & Hs). exists port.
      rewrite lookup_insert_ne by congruence. done.
Qed.

Lemma removePort_tight en q s : tight s -> tight (snd (removePort en q s)).
Proof.
  intros Hti. unfold removePort. destruct (ports s !! q) as [port|] eqn:Hq; [|done].
  destruct Hti as [Ht Hu].
  assert (tight (set_ports (delete q (ports s))
    (set_sockets (closeUDP (udpService port) (closeTCP (tcpService port) (sockets s))) s))) as Hgo.
  { split; simpl; intros id p [Hne Hid]%lookup_delete_Some.
    - destruct (Ht id p Hid) as (port' & Hp & Hs). exists port'.
      rewrite lookup_delete_ne by congruence. done.
    - destruct (Hu id p Hid) as (port' & Hp & Hs). exists port'.
      rewrite lookup_delete_ne by congruence. done. }
  destruct (tcpStop en q), (udpStop en q); exact Hgo.
Qed.

Lemma apply_changes_tight en l s :
  tight s -> NoDup l.*1 -> (forall p, (p, 1) ∈ l -> ports s !! p = None) ->
  fst (apply_changes en l s) = Ret tt -> tight (snd (apply_changes en l s)).
Proof.
  revert s. induction l as [|[q c] l IH]; intros s Ht Hnd Hnew; cbn [apply_changes]; [done|].
  apply NoDup_cons in Hnd as [Hq Hnd].
  assert (forall s1, touches q s s1 -> forall p, (p, 1) ∈ l -> ports s1 !! p = None) as Hnew'.
  { intros s1 Hs p Hp. rewrite (t_ports _ _ _ Hs); [apply Hnew; by right|].
    intros ->. apply Hq, list_elem_of_fmap. by exists (q, 1). }
  destruct (decide (c = -1)) as [->|]; [|destruct (decide (c = 1)) as [->|]].
  - pose proof (removePort_tight en q s Ht) as Ht1. pose proof (removePort_touches en q s) as Hs.
    destruct (removePort en q s) as [[u|e|m] s1]; cbn [snd] in *; [|done..].
    by apply IH; [| |apply Hnew'].
  - pose proof (startPort_tight en q s Ht (Hnew q ltac:(left))) as Ht1.
    pose proof (startPort_touches en q s) as Hs.
    destruct (startPort en q s) as [[[]|e|m] s1]; cbn [fst snd] in *; [|done..].
    by apply IH; [apply Ht1| |apply Hnew'].
  - apply IH; [done|done|]. intros p Hp. apply Hnew. by right.
Qed.

(** Loading the lists changes no socket. *)
Lemma update_lists_tight lists s :
  tight s -> fst (update_lists lists s) = Ret tt -> tight (snd (update_lists lists s)).
Proof.
  revert s. induction lists as [|[q es] lists IH]; intros s Ht; cbn [update_lists]; [done|].
  destruct (ports s !! q) as [port|] eqn:Hq; [|done]. apply IH. destruct Ht as [Ht Hu].
  split; simpl; intros id p Hid.
  - destruct (Ht id p Hid) as (port' & Hp & Hs). destruct (decide (p = q)) as [->|Hne].
    + rewrite lookup_insert_eq. eexists. split; [done|]. simpl. congruence.
    + rewrite lookup_insert_ne by done. by exists port'.
  - destruct (Hu id p Hid) as (port' & Hp & Hs). destruct (decide (p = q)) as [->|Hne].
    + rewrite lookup_insert_eq. eexists. split; [done|]. simpl. congruence.
    + rewrite lookup_insert_ne by done. by exists port'.
Qed.

Section History.
Context `{CryptoLaws}.

Lemma doRun_tight en (users : list Key) s :
  tight s -> ordered en -> fst (doRun en users s) = Ret tt -> tight (snd (doRun en users s)).
Proof.
  intros Ht Hord. unfold doRun.
  pose proof (load_keys_spec users ∅ ∅ (nextLoc s)) as Hload.
  destruct (load_keys users ∅ ∅ (nextLoc s)) as [r0 next].
  destruct Hload as (_ & _ & _ & Hload). destruct r0 as [[ch pc]|e|m]; [|done..].
  destruct (Hload ch pc eq_refl) as (Hch & _ & _).
  assert (forall p, ch !! p = if decide (p ∈ kPort <$> users) then Some 1 else None) as Hch'
    by (intros p; by rewrite Hch).
  set (s0 := MkServer (ports s) (sockets s) (accessKeys s) next).
  assert (tight s0) as Ht0 by (destruct Ht; by split).
  pose proof (apply_changes_tight en (rangeChanges en (count_ports (ports s0) ch)) s0 Ht0
    (changes_NoDup _ _ Hord)) as Ht1.
  destruct (apply_changes en _ s0) as [[[]|e|m] s1]; [|done..].
  pose proof (update_lists_tight (map_to_list pc) s1) as Ht2.
  destruct (update_lists _ s1) as [[[]|e|m] s2]; [|done..]. intros _. cbn [fst snd] in *.
  destruct Ht2 as [Ht2 Hu2]; [apply Ht1; [|done]|done|split; [exact Ht2|exact Hu2]].
  intros p Hp%changes_elem; [|done]. apply (changes_spec users ch s0 p Hch') in Hp. by destruct Hp.
Qed.

(** The server serves exactly the users of a list. *)
Definition serves (users : list Key) (s : SSServer) : Prop :=
  (forall p, is_Some (ports s !! p) <-> p ∈ kPort <$> users) /\
  (forall p port, ports s !! p = Some port ->
     Forall2 entry_for (on_port p users) (order (pcipherList port))) /\
  accessKeys s = Some (length users, size (list_to_set (C := gset Z) (kPort <$> users))).

(** Where everything is granted, a reload of a server that leaves no socket behind
    serves the new list. *)
Lemma doRun_granted en (users : list Key) s :
  server_ok s -> tight s -> ordered en -> granting en -> Forall valid_key users ->
  exists s', doRun en users s = (Ret tt, s') /\ server_ok s' /\ tight s' /\ serves users s'.
Proof.
  intros Hok Ht Hord Hg Hval.
  pose proof (doRun_success en users s Hok Hord Hval) as Hs.
  pose proof (doRun_tight en users s Ht Hord) as Ht'.
  destruct (doRun en users s) as [r s']. exists s'.
  destruct Hs as (-> & Hok' & Hp & He & _ & Hk).
  - intros p _ Hnone. by apply tight_bindable.
  - intros p _ _. split; [apply Hg|apply Hg].
  - split_and!; [done|done|by apply Ht'|done..].
Qed.

(** One poll, whatever the system refuses. *)
Lemma poll_safe en users hash s :
  server_ok s -> hashed hash -> ordered en ->
  server_ok (snd (CheckUser_poll en users (hash, s))) /\
  hashed (fst (CheckUser_poll en users (hash, s))).
Proof.
  intros Hok Hh Hord. unfold CheckUser_poll.
  pose proof (check_users_spec users hash Hh) as Hc.
  destruct (check_users users hash) as [doNew hash']. destruct Hc as (Hh' & _ & _).
  cbn [fst snd]. split; [|done]. destruct doNew; [|done].
  pose proof (doRun_any en users s Hok Hord) as Hr. destruct (doRun en users s) as [r s'].
  apply Hr.
Qed.

(** A poll that names as many users as are remembered, all of them remembered. *)
Definition unchanged (users : list Key) (hash : gmap Key Z) : Prop :=
  length users = size hash /\ forall k, k ∈ users -> is_Some (hash !! k).

(** One poll where everything is granted. *)
Lemma poll_granted en users hash s :
  server_ok s -> tight s -> hashed hash -> ordered en -> granting en -> Forall valid_key users ->
  let '(hash', s') := CheckUser_poll en users (hash, s) in
  tight s' /\ (unchanged users hash /\ s' = s \/ ~ unchanged users hash /\ serves users s').
Proof.
  intros Hok Ht Hh Hord Hg Hval. unfold CheckUser_poll.
  pose proof (check_users_spec users hash Hh) as Hc.
  destruct (check_users users hash) as [doNew hash']. destruct Hc as (_ & _ & Hd).
  fold (unchanged users hash) in Hd. destruct doNew.
  - destruct (doRun_granted en users s Hok Ht Hord Hg Hval) as (s' & -> & _ & Ht' & Hs).
    split; [done|]. right. split; [|done]. intros Hu. by apply Hd in Hu.
  - split; [done|]. left. split; [by apply Hd|done].
Qed.

Lemma run_polls_app ps qs st : run_polls (ps ++ qs) st = run_polls qs (run_polls ps st).
Proof. apply foldl_app. Qed.

Definition good_poll (en : env) (users : list Key) : Prop :=
  granting en /\ Forall valid_key users.

(** The start of the server is a reload of an empty one. *)
Lemma started `{JsonOps} en get post Shuffle users (api api' : APIClient) s0 :
  RunSSServer en get post Shuffle users api = (Started s0, api') ->
  exists us, users (NodeID api') = Some us /\ doRun en us new_server = (Ret tt, s0).
Proof.
  unfold RunSSServer. destruct (Init get post Shuffle api) as [[r api1] posted].
  destruct r as [[]|e|m]; intros [= Hs <-].
  1-2: destruct (users (NodeID api1)) as [us|]; [|done]; exists us; split; [done|];
    destruct (doRun en us new_server) as [[[]|e'|m'] s]; [by injection Hs as ->|done..].
Qed.

Lemma doRun_valid en (us : list Key) s : fst (doRun en us s) = Ret tt -> Forall valid_key us.
Proof.
  unfold doRun. pose proof (load_keys_spec us ∅ ∅ (nextLoc s)) as Hload.
  destruct (load_keys us ∅ ∅ (nextLoc s)) as [[x|e|m] next]; [|done..].
  destruct Hload as (_ & _ & [Hv _] & _). intros _. apply Hv. by exists x.
Qed.

Lemma new_server_tight : tight new_server.
Proof. by split. Qed.

(** Any number of polls, whatever is refused. *)
Lemma polls_safe ps hash s :
  server_ok s -> hashed hash -> Forall (fun '(en, _) => ordered en) ps ->
  server_ok (snd (run_polls ps (hash, s))) /\ hashed (fst (run_polls ps (hash, s))).
Proof.
  revert hash s. induction ps as [|[en us] ps IH]; intros hash s Hok Hh Hall; [done|].
  apply Forall_cons in Hall as [Hord Hall].
  destruct (poll_safe en us hash s Hok Hh Hord) as [Hok' Hh'].
  unfold run_polls in *. cbn [foldl]. destruct (CheckUser_poll en us (hash, s)) as [hash' s'].
  by apply IH.
Qed.

(** Any number of polls where everything is granted, from a server that serves
    [U0]. *)
Lemma polls_granted ps hash s U0 :
  server_ok s -> tight s -> hashed hash -> serves U0 s ->
  Forall (fun '(en, _) => ordered en) ps -> Forall (fun '(en, us) => good_poll en us) ps ->
  tight (snd (run_polls ps (hash, s))) /\
  exists U, serves U (snd (run_polls ps (hash, s))) /\ (U = U0 \/ U ∈ ps.*2).
Proof.
  revert hash s U0. induction ps as [|[en us] ps IH]; intros hash s U0 Hok Ht Hh HU Hord Hgood.
  { split; [done|]. exists U0. by split; [|left]. }
  apply Forall_cons in Hord as [Ho Hord]. apply Forall_cons in Hgood as [[Hg Hv] Hgood].
  destruct (poll_safe en us hash s Hok Hh Ho) as [Hok' Hh'].
  pose proof (poll_granted en us hash s Hok Ht Hh Ho Hg Hv) as Hp.
  unfold run_polls in *. cbn [foldl]. destruct (CheckUser_poll en us (hash, s)) as [hash' s'].
  destruct Hp as [Ht' Hp]. assert (exists U1, serves U1 s' /\ (U1 = U0 \/ U1 = us)) as (U1 & H1 & HU1).
  { destruct Hp as [[_ ->]|[_ Hs]]; [exists U0|exists us]; auto. }
  destruct (IH hash' s' U1 Hok' Ht' Hh' H1 Hord Hgood) as (Htf & U & Hs & HUin).
  split; [done|]. exists U. split; [done|]. set_solver.
Qed.

(** C14: the server over time.  From a successful start, through any number of
    polls, whatever the users are and whatever the system refuses: every port
    served keeps its own open sockets and entries, and the map of the poll its
    hashes.  While the system refuses nothing, no socket is ever left behind,
    and the server serves exactly the users of one list: that of the last poll,
    unless that poll named as many users as were remembered and only remembered
    ones, in which case it left the server as it was. *)
Theorem server_history `{JsonOps} (en0 : env) (get : (Z * bytes) + error) post Shuffle
    (users : Z -> option (list Key)) (api api' : APIClient) (s0 : SSServer)
    (ps : list (env * list Key)) :
  RunSSServer en0 get post Shuffle users api = (Started s0, api') ->
  ordered en0 -> Forall (fun '(en, _) => ordered en) ps ->
  server_ok (snd (run_polls ps (make_hash, s0))) /\
  hashed (fst (run_polls ps (make_hash, s0))) /\
  (granting en0 -> Forall (fun '(en, us) => good_poll en us) ps ->
   tight (snd (run_polls ps (make_hash, s0))) /\
   (exists U, serves U (snd (run_polls ps (make_hash, s0))) /\
      (users (NodeID api') = Some U \/ U ∈ ps.*2)) /\
   forall ps' en us, ps = ps' ++ [(en, us)] ->
     unchanged us (fst (run_polls ps' (make_hash, s0))) /\
       snd (run_polls ps (make_hash, s0)) = snd (run_polls ps' (make_hash, s0)) \/
     serves us (snd (run_polls ps (make_hash, s0)))).
Proof.
  intros Hrun Hord0 Hord. destruct (started _ _ _ _ _ _ _ _ Hrun) as (us0 & Hus0 & Hdo).
  pose proof (doRun_any en0 us0 new_server new_server_ok Hord0) as Hany. rewrite Hdo in Hany.
  destruct Hany as (Hok0 & _ & _).
  destruct (polls_safe ps make_hash s0 Hok0 hashed_make Hord) as [Hok Hh].
  split_and!; [done|done|]. intros Hg0 Hgood.
  assert (Forall valid_key us0) as Hv0.
  { apply (doRun_valid en0 us0 new_server). by rewrite Hdo. }
  destruct (doRun_granted en0 us0 new_server new_server_ok new_server_tight Hord0 Hg0 Hv0)
    as (s0' & E & _ & Ht0 & Hs0). rewrite Hdo in E. injection E as <-.
  destruct (polls_granted ps make_hash s0 us0 Hok0 Ht0 hashed_make Hs0 Hord Hgood)
    as (Ht & U & HU & HUin).
  split_and!; [done|exists U; split; [done|]; destruct HUin as [-> |?]; auto|].
  intros ps' en us ->. apply Forall_app in Hord as [Hord' [Ho _]%Forall_cons].
  apply Forall_app in Hgood as [Hgood' [[Hg Hv] _]%Forall_cons].
  destruct (polls_safe ps' make_hash s0 Hok0 hashed_make Hord') as [Hok' Hh'].
  destruct (polls_granted ps' make_hash s0 us0 Hok0 Ht0 hashed_make Hs0 Hord' Hgood') as (Ht' & _).
  rewrite run_polls_app. destruct (run_polls ps' (make_hash, s0)) as [hash s]. cbn [fst snd] in *.
  pose proof (poll_granted en us hash s Hok' Ht' Hh' Ho Hg Hv) as Hp.
  unfold run_polls. cbn [foldl]. destruct (CheckUser_poll en us (hash, s)) as [hash' s'].
  destruct Hp as [_ [[Hu ->]|[_ Hs]]]; [by left|by right].
Qed.

End History.

(** ** The theorem at a concrete history *)

(** A panel that sends its data uncompressed, and whose answers say nothing. *)
#[export] Instance toy_panel : PanelOps := {
  gunzip b := Some b;
  Json := unit;
  NewJson b := Some tt;
}.
#[export] Instance toy_json : JsonOps := {
  Get j _ := j;
  JString _ := None;
  MustInt _ := 0;
  MustString _ := ""%string;
}.

Definition ex_api : APIClient := New (MkConfig "http://panel" "http://log" 7 "key") 0.

(** The panel cannot be reached; the database has the users of the node. *)
Definition ex_start : startup * APIClient :=
  RunSSServer ex_env (inr (Errorf "no route")) (fun _ => None) id
    (fun n => if decide (n = 7) then Some ex_users else None) ex_api.

(** One user leaves and another joins. *)
Definition ex_users' : list Key :=
  [MkKey "alice" 9000 "aes-128-gcm" "s1"; MkKey "dave" 9002 "aes-256-gcm" "s4"].

Lemma ex_granting : granting ex_env.
Proof. by split. Qed.

Lemma server_history_witness :
  exists s0, fst ex_start = Started s0 /\
    let st := run_polls [(ex_env, ex_users); (ex_env, ex_users')] (make_hash, s0) in
    server_ok (snd st) /\ tight (snd st).
Proof.
  destruct ex_start as [r api'] eqn:E.
  assert (match r with Started _ => true | _ => false end = true) as Hr.
  { change r with (fst (r, api')). rewrite <- E. vm_compute. reflexivity. }
  destruct r as [s0|err s|m0|m]; [|discriminate Hr..]. exists s0. split; [reflexivity|].
  destruct (server_history ex_env (inr (Errorf "no route")) (fun _ => None) id
    (fun n => if decide (n = 7) then Some ex_users else None) ex_api api' s0
    [(ex_env, ex_users); (ex_env, ex_users')]) as (Hok & _ & Hgood).
  - exact E.
  - intros ch. reflexivity.
  - repeat apply Forall_cons_2; [intros ch; reflexivity..|apply Forall_nil_2].
  - split; [exact Hok|]. apply Hgood.
    + apply ex_granting.
    + repeat apply Forall_cons_2; [| |apply Forall_nil_2].
      * split; [apply ex_granting|apply ex_users_valid].
      * split; [apply ex_granting|]. repeat constructor; by eexists.
Defined.
