(* ===== verification/Lifecycle.v ===== *)
(** * The process: the main loop and the services of its ports

    [startPort] starts two goroutines that call [Serve] on the sockets it made,
    and [removePort] calls [Stop] on the two services ([cmd/quick_ss/main.go]).
    What a port needs of a service is the class [Service]; [TcpServer] and
    [NatMap] are its instances, and the process is proved against the class: the
    steps of the main loop over [Server], interleaved with those of the services
    of every port, those that were removed included. *)
From S2P Require Import Prelude GoIO Cipher ToyCrypto Salt CipherList Api Server Startup.
From S2P Require Import TcpServer NatMap.

(** ** A service of a port *)

(** [sv_run id] are the steps of the goroutines of a service given the socket
    [id], the call of [Serve] included; [sv_serving id] is what a port served
    promises, [sv_stopped id] what is left of one that was removed. *)
Class Service (S : Type) := {
  sv_new : S;
  sv_stop : S -> S;
  sv_run : nat -> S -> S -> Prop;
  sv_serving : nat -> S -> Prop;
  sv_stopped : nat -> S -> Prop;
}.

Class ServiceLaws (S : Type) `{Service S} : Prop := {
  sv_new_ok id : sv_serving id sv_new;
  sv_serving_run id y y' : sv_serving id y -> sv_run id y y' -> sv_serving id y';
  sv_serving_stop id y : sv_serving id y -> sv_stopped id (sv_stop y);
  sv_stopped_run id y y' : sv_stopped id y -> sv_run id y y' -> sv_stopped id y';
}.

(** ** The services of the ports *)

Section Services.
Context {S : Type} `{Service S}.

(** One service, of the socket [id], takes a step. *)
Inductive services_run : gmap nat S -> gmap nat S -> Prop :=
| run_one id y y' m : m !! id = Some y -> sv_run id y y' -> services_run m (<[id := y']> m).

(** Those of the sockets in [served] serve, the others were stopped; none has a
    socket that was not made yet. *)
Record services_ok (served : nat -> Prop) (next : nat) (m : gmap nat S) : Prop := {
  sk_served id : served id -> exists y, m !! id = Some y /\ sv_serving id y;
  sk_others id y : m !! id = Some y -> ~ served id -> sv_stopped id y;
  sk_fresh id y : m !! id = Some y -> id < next;
}.

Context `{!ServiceLaws S}.

Lemma services_run_ok (served : nat -> Prop) next m m' :
  services_ok served next m -> services_run m m' -> services_ok served next m'.
Proof.
  intros Hok Hstep. destruct Hstep as [id y y' m Hy Hrun]. destruct Hok as [Hs Ho Hf]. split.
  - intros i Hi. destruct (Hs i Hi) as (x & Hx & Hsv). destruct (decide (i = id)) as [->|Hne].
    + rewrite lookup_insert_eq. exists y'. split; [done|].
      rewrite Hy in Hx. injection Hx as ->. by apply (sv_serving_run id x).
    + rewrite lookup_insert_ne by done. by exists x.
  - intros i x [[<- <-]|[Hne Hx]]%lookup_insert_Some Hi; [|by apply Ho].
    apply (sv_stopped_run id y); [by apply Ho|done].
  - intros i x [[<- <-]|[Hne Hx]]%lookup_insert_Some; by eapply Hf.
Qed.

(** A service is added, for a new socket. *)
Lemma services_start_ok (served served' : nat -> Prop) next next' m id :
  services_ok served next m -> (forall i, served' i <-> i = id \/ served i) ->
  next <= id < next' -> services_ok served' next' (<[id := sv_new]> m).
Proof.
  intros [Hs Ho Hf] Hsv Hn. split.
  - intros i [->|Hi]%Hsv.
    + rewrite lookup_insert_eq. exists sv_new. split; [done|apply sv_new_ok].
    + destruct (Hs i Hi) as (x & Hx & Hx'). pose proof (Hf i x Hx).
      rewrite lookup_insert_ne by lia. by exists x.
  - intros i x [[<- <-]|[Hne Hx]]%lookup_insert_Some Hi.
    + destruct Hi. apply Hsv. by left.
    + apply Ho; [done|]. intros Hi'. apply Hi, Hsv. by right.
  - intros i x [[<- <-]|[Hne Hx]]%lookup_insert_Some; [lia|]. apply Hf in Hx. lia.
Qed.

(** A service that serves is stopped. *)
Lemma services_stop_ok (served served' : nat -> Prop) next m id :
  services_ok served next m -> served id -> (forall i, served' i <-> i <> id /\ served i) ->
  services_ok served' next (alter sv_stop id m).
Proof.
  intros [Hs Ho Hf] Hid Hsv. split.
  - intros i [Hne Hi]%Hsv. rewrite lookup_alter_ne by done. by apply Hs.
  - intros i x Hx Hi. destruct (decide (i = id)) as [->|Hne].
    + destruct (Hs id Hid) as (y & Hy & Hyv). rewrite lookup_alter_eq, Hy in Hx.
      injection Hx as <-. by apply sv_serving_stop.
    + rewrite lookup_alter_ne in Hx by done. apply Ho; [done|]. intros Hi'. apply Hi, Hsv. done.
  - intros i x Hx. destruct (decide (i = id)) as [->|Hne].
    + rewrite lookup_alter_eq in Hx. apply fmap_Some in Hx as (y & Hy & _). by eapply Hf.
    + rewrite lookup_alter_ne in Hx by done. by eapply Hf.
Qed.

Lemma services_weaken (served served' : nat -> Prop) next next' m :
  services_ok served next m -> (forall i, served' i <-> served i) -> next <= next' ->
  services_ok served' next' m.
Proof.
  intros [Hs Ho Hf] Hsv Hn. split.
  - intros i Hi%Hsv. by apply Hs.
  - intros i x Hx Hi. apply Ho; [done|]. intros Hi'. by apply Hi, Hsv.
  - intros i x Hx%Hf. lia.
Qed.

End Services.

(** ** The TCP service *)

(** [go port.tcpService.Serve(listener)], or a step of its goroutines. *)
Definition tcp_run (id : nat) (y y' : TcpServer.system) : Prop :=
  TcpServer.internal y y' \/
  TcpServer.serves y = [] /\
  y' = TcpServer.MkSystem (snd (TcpServer.Serve id (TcpServer.srv y)))
         [fst (TcpServer.Serve id (TcpServer.srv y))] (TcpServer.handlers y) (TcpServer.stops y).

(** The accept loop has its own open socket, or is about to get it. *)
Definition tcp_serving (id : nat) (y : TcpServer.system) : Prop :=
  rtc TcpServer.step TcpServer.initial y /\ TcpServer.stopped (TcpServer.srv y) = false /\
  TcpServer.closed (TcpServer.srv y) = ∅ /\
  (TcpServer.serves y = [] /\ TcpServer.listener (TcpServer.srv y) = None \/
   exists pc, TcpServer.serves y = [pc] /\ TcpServer.active pc = true /\
     TcpServer.listener_of pc = id).

(** The socket is closed, or [Serve] was not called yet and will close it. *)
Definition tcp_stopped (id : nat) (y : TcpServer.system) : Prop :=
  rtc TcpServer.step TcpServer.initial y /\ TcpServer.stopped (TcpServer.srv y) = true /\
  (TcpServer.serves y = [] /\ TcpServer.listener (TcpServer.srv y) = None /\
     TcpServer.closed (TcpServer.srv y) = ∅ \/
   exists pc, TcpServer.serves y = [pc] /\ TcpServer.listener_of pc = id /\
     id ∈ TcpServer.closed (TcpServer.srv y)).

#[export] Instance tcp_service : Service TcpServer.system := {
  sv_new := TcpServer.initial;
  sv_stop y := TcpServer.MkSystem (snd (TcpServer.Stop (TcpServer.srv y))) (TcpServer.serves y)
    (TcpServer.handlers y)
    (TcpServer.stops y ++ [TcpServer.StopReturned (fst (TcpServer.Stop (TcpServer.srv y)))]);
  sv_run := tcp_run;
  sv_serving := tcp_serving;
  sv_stopped := tcp_stopped;
}.

Lemma tcp_internal_step y y' : TcpServer.internal y y' -> TcpServer.step y y'.
Proof. intros []; by econstructor. Qed.

(** What a step of the goroutines keeps: the flags and sockets of the service,
    and the socket of the one call of [Serve]. *)
Lemma tcp_internal_frame y y' pc :
  TcpServer.internal y y' -> TcpServer.serves y = [pc] ->
  TcpServer.stopped (TcpServer.srv y') = TcpServer.stopped (TcpServer.srv y) /\
  TcpServer.closed (TcpServer.srv y') = TcpServer.closed (TcpServer.srv y) /\
  exists pc', TcpServer.serves y' = [pc'] /\
    TcpServer.listener_of pc' = TcpServer.listener_of pc /\
    (TcpServer.stopped (TcpServer.srv y) = false -> TcpServer.active pc = true ->
     TcpServer.active pc' = true).
Proof.
  assert (forall ss i x z, ss = [pc] -> ss !! i = Some x -> x = pc /\ <[i := z]> ss = [z]) as Hone.
  { intros ss [|[|i]] x z -> Hx; simpl in Hx; [by injection Hx as ->|done|done]. }
  intros Hs Hpc. destruct Hs as [i l s ss h st Hi Hc|i l s ss h st Hi|i l s ss h st Hi|s ss h st];
    simpl in *.
  - destruct (Hone _ _ _ (TcpServer.Accepted l) Hpc Hi) as [<- ->].
    split_and!; [done..|]. by eexists.
  - unfold TcpServer.Serve_error. destruct (TcpServer.stopped s) eqn:E; simpl.
    + destruct (Hone _ _ _ (TcpServer.ServeReturned l None) Hpc Hi) as [<- ->].
      split_and!; [done..|]. by eexists.
    + destruct (Hone _ _ _ (TcpServer.Accepting l) Hpc Hi) as [<- ->].
      split_and!; [done..|]. by eexists.
  - destruct (Hone _ _ _ (TcpServer.Accepting l) Hpc Hi) as [<- ->].
    split_and!; [done..|]. by eexists.
  - split_and!; [done..|]. by exists pc.
Qed.

(** Without a call of [Serve] only handlers could step. *)
Lemma tcp_internal_idle y y' :
  TcpServer.internal y y' -> TcpServer.serves y = [] ->
  TcpServer.stopped (TcpServer.srv y') = TcpServer.stopped (TcpServer.srv y) /\
  TcpServer.closed (TcpServer.srv y') = TcpServer.closed (TcpServer.srv y) /\
  TcpServer.listener (TcpServer.srv y') = TcpServer.listener (TcpServer.srv y) /\
  TcpServer.serves y' = [].
Proof. intros [] Hpc; simpl in *; subst; done. Qed.

(** The call of [Serve] is a step of the system. *)
Lemma tcp_serve_step id y :
  TcpServer.serves y = [] -> TcpServer.listener (TcpServer.srv y) = None ->
  TcpServer.closed (TcpServer.srv y) = ∅ ->
  TcpServer.step y (TcpServer.MkSystem (snd (TcpServer.Serve id (TcpServer.srv y)))
    [fst (TcpServer.Serve id (TcpServer.srv y))] (TcpServer.handlers y) (TcpServer.stops y)).
Proof.
  destruct y as [s ss h st]; simpl. intros -> Hl Hcl.
  apply (TcpServer.step_serve id s [] h st);
    [by rewrite Hcl|apply not_elem_of_nil|by rewrite Hl].
Qed.

Lemma tcp_serving_run id y y' : tcp_serving id y -> tcp_run id y y' -> tcp_serving id y'.
Proof.
  intros (Hr & Hst & Hcl & Hsv) [Hs|[Hs ->]].
  - assert (rtc TcpServer.step TcpServer.initial y') as Hr'
      by (eapply rtc_r; [done|by apply tcp_internal_step]).
    split; [done|]. destruct Hsv as [[Hn Hl]|(pc & Hn & Ha & Hid)].
    + destruct (tcp_internal_idle _ _ Hs Hn) as (-> & -> & -> & ->). auto.
    + destruct (tcp_internal_frame _ _ pc Hs Hn) as (-> & -> & pc' & -> & Hid' & Ha').
      split_and!; [done..|]. right. exists pc'. split_and!; [done|by apply Ha'|congruence].
  - destruct Hsv as [[_ Hl]|(pc & Hn & _)]; [|congruence].
    split; [by eapply rtc_r, tcp_serve_step|]. unfold TcpServer.Serve. rewrite Hl, Hst. simpl.
    split_and!; [done|done|]. right. by eexists.
Qed.

Lemma tcp_stopped_run id y y' : tcp_stopped id y -> tcp_run id y y' -> tcp_stopped id y'.
Proof.
  intros (Hr & Hst & Hsv) [Hs|[Hs ->]].
  - assert (rtc TcpServer.step TcpServer.initial y') as Hr'
      by (eapply rtc_r; [done|by apply tcp_internal_step]).
    split; [done|]. destruct Hsv as [(Hn & Hl & Hcl)|(pc & Hn & Hid & Hcl)].
    + destruct (tcp_internal_idle _ _ Hs Hn) as (-> & -> & -> & ->). auto.
    + destruct (tcp_internal_frame _ _ pc Hs Hn) as (-> & -> & pc' & -> & Hid' & _).
      split_and!; [done..|]. right. exists pc'. split_and!; [done|congruence|done].
  - destruct Hsv as [(_ & Hl & Hcl)|(pc & Hn & _)]; [|congruence].
    split; [by eapply rtc_r, tcp_serve_step|]. unfold TcpServer.Serve. rewrite Hl, Hst. simpl.
    split; [done|]. right. eexists. split_and!; [reflexivity|done|set_solver].
Qed.

#[export] Instance tcp_service_laws : ServiceLaws TcpServer.system.
Proof.
  split; [|apply tcp_serving_run| |apply tcp_stopped_run].
  - intros id. split_and!; [apply rtc_refl|done|done|by left].
  - intros id y (Hr & Hst & Hcl & Hsv). pose proof (TcpServer.inv_reachable y Hr) as Hi.
    split; [eapply rtc_r; [exact Hr|destruct y; apply TcpServer.step_stop]|].
    destruct y as [s ss h st]; simpl in *. unfold TcpServer.Stop.
    destruct Hsv as [[-> Hl]|(pc & -> & Ha & Hid)].
    + rewrite Hl. simpl. split; [done|]. left. done.
    + pose proof (TcpServer.inv_active _ Hi pc) as Hact. simpl in Hact.
      rewrite Hact by (done || left). simpl. split; [done|]. right. exists pc.
      split_and!; [done..|]. rewrite Hid. set_solver.
Qed.

(** ** The UDP service *)

(** [go port.udpService.Serve(packetConn)], a step of its goroutines, or time. *)
Definition udp_run (id : nat) (y y' : NatMap.system) : Prop :=
  NatMap.internal y y' \/
  (exists t, (NatMap.clock (NatMap.mem y) <= t)%Z /\
     y' = NatMap.MkSystem (NatMap.svc y) (NatMap.serving y) (NatMap.set_clock t (NatMap.mem y))
            (NatMap.refused y) (NatMap.stops y)) \/
  NatMap.serving y = None /\ NatMap.refused y = [] /\ y' = NatMap.Serve id y.

Definition udp_serving (id : nat) (y : NatMap.system) : Prop :=
  rtc NatMap.step NatMap.initial y /\ NatMap.stopped (NatMap.svc y) = false /\
  NatMap.closed (NatMap.svc y) = ∅ /\ NatMap.refused y = [] /\
  (NatMap.clientConn (NatMap.svc y) = None \/ NatMap.clientConn (NatMap.svc y) = Some id).

Definition udp_stopped (id : nat) (y : NatMap.system) : Prop :=
  rtc NatMap.step NatMap.initial y /\ NatMap.stopped (NatMap.svc y) = true /\
  (NatMap.serving y = None /\ NatMap.refused y = [] /\ NatMap.closed (NatMap.svc y) = ∅ \/
   id ∈ NatMap.closed (NatMap.svc y) /\
   (NatMap.serving y = None -> NatMap.refused y <> [])).

#[export] Instance udp_service : Service NatMap.system := {
  sv_new := NatMap.initial;
  sv_stop y := NatMap.MkSystem (snd (NatMap.Stop (NatMap.svc y))) (NatMap.serving y)
    (NatMap.mem y) (NatMap.refused y)
    (NatMap.stops y ++ [NatMap.StopReturned (fst (NatMap.Stop (NatMap.svc y)))]);
  sv_run := udp_run;
  sv_serving := udp_serving;
  sv_stopped := udp_stopped;
}.

Lemma udp_run_step id y y' :
  rtc NatMap.step NatMap.initial y -> udp_run id y y' ->
  (NatMap.serving y = None -> NatMap.refused y = [] -> id ∉ NatMap.closed (NatMap.svc y)) ->
  NatMap.step y y'.
Proof.
  intros Hr [Hs|[(t & Ht & ->)|(Hn & Hrf & ->)]] Hid.
  - by apply NatMap.step_internal.
  - destruct y. by apply NatMap.step_tick.
  - apply NatMap.step_serve; [by apply Hid|].
    pose proof (NatMap.nat_reachable y Hr) as Hi.
    rewrite (proj2 (NatMap.i_none _ Hi)) by done. done.
Qed.

Lemma udp_serving_run id y y' : udp_serving id y -> udp_run id y y' -> udp_serving id y'.
Proof.
  intros (Hr & Hst & Hcl & Hrf & Hcc) Hrun.
  split; [eapply rtc_r; [exact Hr|eapply udp_run_step; [done|done|by rewrite Hcl]]|].
  destruct Hrun as [Hs|[(t & Ht & ->)|(Hn & _ & ->)]].
  - destruct (NatMap.internal_frame _ _ Hs) as (-> & -> & _). done.
  - done.
  - pose proof (NatMap.nat_reachable y Hr) as Hi.
    pose proof (proj2 (NatMap.i_none _ Hi) Hn) as Hc0. unfold NatMap.Serve. rewrite Hc0, Hst.
    simpl. split_and!; auto.
Qed.

Lemma udp_stopped_run id y y' : udp_stopped id y -> udp_run id y y' -> udp_stopped id y'.
Proof.
  intros (Hr & Hst & Hcl) Hrun.
  split; [eapply rtc_r; [exact Hr|eapply udp_run_step; [done|done|]]|].
  { intros Hn Hrf. destruct Hcl as [(_ & _ & ->)|[_ Hne]]; [done|]. by destruct (Hne Hn). }
  destruct Hrun as [Hs|[(t & Ht & ->)|(Hn & Hrf & ->)]].
  - destruct (NatMap.internal_frame _ _ Hs) as (-> & -> & _ & Hse & _). split; [done|].
    destruct Hcl as [(Hn & Hrf & Hc)|[Hc Hne]]; [left|right]; [by rewrite Hse|].
    split; [done|]. rewrite Hse. done.
  - by split.
  - pose proof (NatMap.nat_reachable y Hr) as Hi.
    pose proof (proj2 (NatMap.i_none _ Hi) Hn) as Hc0. unfold NatMap.Serve. rewrite Hc0, Hst.
    simpl. split; [done|]. right. split; [set_solver|]. by rewrite Hrf.
Qed.

#[export] Instance udp_service_laws : ServiceLaws NatMap.system.
Proof.
  split; [|apply udp_serving_run| |apply udp_stopped_run].
  - intros id. split_and!; [apply rtc_refl|done|done|done|by left].
  - intros id y (Hr & Hst & Hcl & Hrf & Hcc). pose proof (NatMap.nat_reachable y Hr) as Hi.
    split; [eapply rtc_r; [exact Hr|destruct y; apply NatMap.step_stop]|].
    destruct y as [[cc sd cl] sv w rf st]; simpl in *. subst. unfold NatMap.Stop.
    pose proof (NatMap.i_none _ Hi) as Hno. simpl in *. destruct Hcc as [-> | ->]; simpl.
    + split; [done|]. left. split_and!; [by apply Hno|done|done].
    + split; [done|]. right. split; [set_solver|]. intros Hn%Hno. done.
Qed.

(** ** The process *)

(** The server of the main loop and the services it started, by their sockets. *)
Record proc := MkProc {
  p_server : SSServer;
  p_tcp : gmap nat TcpServer.system;
  p_udp : gmap nat NatMap.system;
}.

(** [startPort]: with the two [go] statements at its end. *)
Definition go_start (en : env) (q : Z) (P : proc) : proc :=
  let '(r, s') := startPort en q (p_server P) in
  match r, ports s' !! q with
  | Ret _, Some port =>
    MkProc s' (<[tcpService port := sv_new]> (p_tcp P)) (<[udpService port := sv_new]> (p_udp P))
  | _, _ => MkProc s' (p_tcp P) (p_udp P)
  end.

(** [removePort]: with what its two calls of [Stop] do. *)
Definition go_remove (en : env) (q : Z) (P : proc) : proc :=
  let '(_, s') := removePort en q (p_server P) in
  match ports (p_server P) !! q with
  | Some port =>
    MkProc s' (alter sv_stop (tcpService port) (p_tcp P)) (alter sv_stop (udpService port) (p_udp P))
  | None => MkProc s' (p_tcp P) (p_udp P)
  end.

(** The rest of a reload: lists, addresses of entries and counts, no socket. *)
Record loads (s s' : SSServer) : Prop := {
  ld_ok : server_ok s';
  ld_sockets : sockets s' = sockets s;
  ld_tcp p : tcpService <$> ports s' !! p = tcpService <$> ports s !! p;
  ld_udp p : udpService <$> ports s' !! p = udpService <$> ports s !! p;
}.

Inductive proc_step : proc -> proc -> Prop :=
| main_start en q P : ports (p_server P) !! q = None -> proc_step P (go_start en q P)
| main_remove en q P : proc_step P (go_remove en q P)
| main_load s' P : loads (p_server P) s' -> proc_step P (MkProc s' (p_tcp P) (p_udp P))
| run_tcp P ts : services_run (p_tcp P) ts -> proc_step P (MkProc (p_server P) ts (p_udp P))
| run_udp P us : services_run (p_udp P) us -> proc_step P (MkProc (p_server P) (p_tcp P) us).

(** ** The invariant of the process *)

Definition served (service : ssPort -> nat) (s : SSServer) (id : nat) : Prop :=
  exists p port, ports s !! p = Some port /\ service port = id.

Record proc_ok (P : proc) : Prop := {
  pk_server : server_ok (p_server P);
  pk_tcp : services_ok (served tcpService (p_server P)) (nextSock (sockets (p_server P))) (p_tcp P);
  pk_udp : services_ok (served udpService (p_server P)) (nextSock (sockets (p_server P))) (p_udp P);
}.

Lemma served_insert service s q port s' :
  ports s !! q = None -> ports s' = <[q := port]> (ports s) ->
  forall id, served service s' id <-> id = service port \/ served service s id.
Proof.
  intros Hq Hp0 id. unfold served. rewrite Hp0. split.
  - intros (p & port' & [[<- <-]|[Hne Hp]]%lookup_insert_Some & <-); [by left|right; eauto].
  - intros [->|(p & port' & Hp & <-)].
    + exists q, port. by rewrite lookup_insert_eq.
    + exists p, port'. rewrite lookup_insert_ne; [done|]. intros ->. congruence.
Qed.

(** Two ports have different sockets, so removing one leaves the others. *)
Lemma served_delete service (socks : os -> gmap nat Z) s q port s' :
  (forall p port, ports s !! p = Some port -> socks (sockets s) !! service port = Some p) ->
  ports s !! q = Some port -> ports s' = delete q (ports s) ->
  forall id, served service s' id <-> id <> service port /\ served service s id.
Proof.
  intros Hso Hq Hp0 id. unfold served. rewrite Hp0. split.
  - intros (p & port' & [Hne Hp]%lookup_delete_Some & <-). split; [|eauto].
    intros E. pose proof (Hso _ _ Hp) as H1. pose proof (Hso _ _ Hq) as H2. congruence.
  - intros (Hne & p & port' & Hp & <-). exists p, port'. split; [|done].
    rewrite lookup_delete_ne; [done|]. intros ->. congruence.
Qed.

Lemma served_loads (service : ssPort -> nat) s s' :
  (forall p, service <$> ports s' !! p = service <$> ports s !! p) ->
  forall id, served service s' id <-> served service s id.
Proof.
  intros Hl id. unfold served. split; intros (p & port & Hp & <-); specialize (Hl p);
    rewrite Hp in Hl; simpl in Hl.
  - symmetry in Hl. apply fmap_Some in Hl as (port' & Hp' & ->). eauto.
  - apply fmap_Some in Hl as (port' & Hp' & ->). eauto.
Qed.

(** The three ways [startPort] ends. *)
Lemma startPort_cases en q s :
  let '(r, s') := startPort en q s in
  (exists e, r = Err e) /\ ports s' = ports s /\ nextSock (sockets s) <= nextSock (sockets s') \/
  r = Ret tt /\ exists port, ports s' = <[q := port]> (ports s) /\
    tcpService port = nextSock (sockets s) /\ udpService port = S (nextSock (sockets s)) /\
    nextSock (sockets s') = S (S (nextSock (sockets s))).
Proof.
  unfold startPort, ListenTCP, ListenUDP. destruct (listen (tcpBind en) q _).
  { left. split_and!; [by eexists|done|done]. }
  cbn [sockets tcpSocks udpSocks nextSock]. destruct (listen (udpBind en) q _).
  { left. split_and!; [by eexists|done|simpl; lia]. }
  right. split; [done|]. by eexists.
Qed.

Lemma go_start_ok en q P : ports (p_server P) !! q = None -> proc_ok P -> proc_ok (go_start en q P).
Proof.
  intros Hq [Hok Ht Hu]. unfold go_start. pose proof (startPort_ok en q (p_server P) Hok Hq) as Hok'.
  pose proof (startPort_cases en q (p_server P)) as Hc.
  destruct (startPort en q (p_server P)) as [r s']. cbn [snd] in Hok'.
  destruct Hc as [((e & ->) & Hp & Hn)|(-> & port & Hp & Et & Eu & En)].
  - assert (forall service id, served service s' id <-> served service (p_server P) id) as Hsv
      by (intros service id; unfold served; by rewrite Hp).
    split; [done|by eapply services_weaken|by eapply services_weaken].
  - rewrite Hp, lookup_insert_eq. split; [done| |]; cbn [p_server p_tcp p_udp].
    + eapply services_start_ok; [exact Ht|by apply served_insert with (q := q)|lia].
    + eapply services_start_ok; [exact Hu|by apply served_insert with (q := q)|lia].
Qed.

Lemma go_remove_ok en q P : proc_ok P -> proc_ok (go_remove en q P).
Proof.
  intros [Hok Ht Hu]. unfold go_remove. pose proof (removePort_ok en q (p_server P) Hok) as Hok'.
  destruct (ports (p_server P) !! q) as [port|] eqn:Hq.
  - assert (ports (snd (removePort en q (p_server P))) = delete q (ports (p_server P)) /\
      nextSock (sockets (snd (removePort en q (p_server P)))) = nextSock (sockets (p_server P)))
      as [Hp Hn].
    { unfold removePort. rewrite Hq. by destruct (tcpStop en q), (udpStop en q). }
    destruct (removePort en q (p_server P)) as [r s']. cbn [snd] in *.
    split; [done| |]; cbn [p_server p_tcp p_udp]; rewrite Hn.
    + eapply services_stop_ok; [exact Ht|by exists q, port|].
      apply (served_delete tcpService tcpSocks) with (q := q); [|done|done].
      intros p port' Hp'. by apply (so_ports _ Hok).
    + eapply services_stop_ok; [exact Hu|by exists q, port|].
      apply (served_delete udpService udpSocks) with (q := q); [|done|done].
      intros p port' Hp'. by apply (so_ports _ Hok).
  - unfold removePort. rewrite Hq. by split.
Qed.

Lemma proc_step_ok P P' : proc_ok P -> proc_step P P' -> proc_ok P'.
Proof.
  intros Hok Hstep. destruct Hstep as [en q P Hq|en q P|s' P [Hs Hso Htc Hud]|P ts Hr|P us Hr].
  - by apply go_start_ok.
  - by apply go_remove_ok.
  - destruct Hok as [_ Ht Hu]. split; [done| |]; cbn [p_server p_tcp p_udp]; rewrite Hso.
    + eapply services_weaken; [exact Ht|by apply served_loads|done].
    + eapply services_weaken; [exact Hu|by apply served_loads|done].
  - destruct Hok as [Hs Ht Hu]. split; [done| |done]. by eapply services_run_ok.
  - destruct Hok as [Hs Ht Hu]. split; [done|done|]. by eapply services_run_ok.
Qed.

(** ** A reload is a run of the process *)

Lemma go_start_server en q P : p_server (go_start en q P) = snd (startPort en q (p_server P)).
Proof.
  unfold go_start. destruct (startPort en q (p_server P)) as [[[]|e|m] s']; [|done..].
  by destruct (ports s' !! q).
Qed.

Lemma go_remove_server en q P : p_server (go_remove en q P) = snd (removePort en q (p_server P)).
Proof.
  unfold go_remove. destruct (removePort en q (p_server P)) as [r s'].
  by destruct (ports (p_server P) !! q).
Qed.

Lemma apply_changes_steps en l : forall P,
  NoDup l.*1 -> (forall p, (p, 1%Z) ∈ l -> ports (p_server P) !! p = None) ->
  exists P', rtc proc_step P P' /\ p_server P' = snd (apply_changes en l (p_server P)).
Proof.
  induction l as [|[q c] l IH]; intros P Hnd Hnew; cbn [apply_changes].
  { exists P. split; [apply rtc_refl|done]. }
  apply NoDup_cons in Hnd as [Hq Hnd].
  assert (forall s1, touches q (p_server P) s1 -> forall p, (p, 1%Z) ∈ l -> ports s1 !! p = None)
    as Hnew'.
  { intros s1 Hs p Hp. rewrite (t_ports _ _ _ Hs); [apply Hnew; by right|].
    intros ->. apply Hq, list_elem_of_fmap. by exists (q, 1%Z). }
  destruct (decide (c = -1)%Z) as [->|]; [|destruct (decide (c = 1)%Z) as [->|]].
  - destruct (IH (go_remove en q P) Hnd) as (P' & HP & Es);
      [rewrite go_remove_server; apply Hnew', removePort_touches|].
    rewrite go_remove_server in Es.
    destruct (removePort en q (p_server P)) as [[[]|e|m] s1] eqn:E; cbn [snd] in *;
      [exists P'; split; [|done]; eapply rtc_l; [apply (main_remove en q)|done]|..].
    all: exists (go_remove en q P); split; [apply rtc_once, main_remove|].
    all: by rewrite go_remove_server, E.
  - pose proof (Hnew q ltac:(left)) as Hqn.
    destruct (IH (go_start en q P) Hnd) as (P' & HP & Es);
      [rewrite go_start_server; apply Hnew', startPort_touches|].
    rewrite go_start_server in Es.
    destruct (startPort en q (p_server P)) as [[[]|e|m] s1] eqn:E; cbn [snd] in *;
      [exists P'; split; [|done]; eapply rtc_l; [by apply (main_start en q)|done]|..].
    all: exists (go_start en q P); split; [by apply rtc_once, main_start|].
    all: by rewrite go_start_server, E.
  - apply IH; [done|]. intros p Hp. apply Hnew. by right.
Qed.

(** The last loop touches no socket, however it ends. *)
Lemma update_lists_loads lists s :
  let s' := snd (update_lists lists s) in
  sockets s' = sockets s /\
  (forall p, tcpService <$> ports s' !! p = tcpService <$> ports s !! p) /\
  (forall p, udpService <$> ports s' !! p = udpService <$> ports s !! p).
Proof.
  revert s. induction lists as [|[q es] lists IH]; intros s; cbn [update_lists]; [done|].
  destruct (ports s !! q) as [port|] eqn:Hq; [|done].
  destruct (IH (set_ports (<[q := set_pcipherList (Update es (pcipherList port)) port]> (ports s)) s))
    as (Hs & Ht & Hu).
  split_and!; [done|intros p; rewrite Ht|intros p; rewrite Hu];
    (destruct (decide (p = q)) as [->|Hne];
      [simpl; by rewrite lookup_insert_eq, Hq|simpl; by rewrite lookup_insert_ne by done]).
Qed.

Section Reload.
Context `{CryptoLaws}.

(** Whatever the users are and whatever fails: the reload is made of steps of the
    process, which the services of all ports may interleave with theirs. *)
Lemma doRun_steps en users P :
  server_ok (p_server P) -> ordered en ->
  exists P', rtc proc_step P P' /\ p_server P' = snd (doRun en users (p_server P)).
Proof.
  intros Hok Hord. pose proof (doRun_any en users (p_server P) Hok Hord) as Hany.
  revert Hany. unfold doRun. set (s := p_server P).
  pose proof (load_keys_spec users ∅ ∅ (nextLoc s)) as Hload.
  destruct (load_keys users ∅ ∅ (nextLoc s)) as [r0 next].
  destruct Hload as (Hn & _ & _ & Hload).
  set (s0 := Server.MkServer (ports s) (sockets s) (accessKeys s) next).
  assert (server_ok s0) as Hok0 by (by apply server_ok_next).
  assert (proc_step P (MkProc s0 (p_tcp P) (p_udp P))) as Hstep0 by (by apply main_load).
  destruct r0 as [[ch pc]|e|m]; [|intros _; eexists; by split; [by apply rtc_once|]..].
  destruct (Hload ch pc eq_refl) as (Hch & _ & _).
  assert (forall p, ch !! p = if decide (p ∈ kPort <$> users) then Some 1%Z else None) as Hch'
    by (intros p; by rewrite Hch).
  set (l := rangeChanges en (count_ports (ports s0) ch)).
  destruct (apply_changes_steps en l (MkProc s0 (p_tcp P) (p_udp P))) as (P1 & HP1 & E1).
  { by apply changes_NoDup. }
  { intros p [Hp _]%changes_elem%(changes_spec users ch s0 p Hch'); [done|done]. }
  cbn [p_server] in E1. fold l. fold s0.
  assert (rtc proc_step P P1) as Hsteps by (eapply rtc_l; [exact Hstep0|done]).
  destruct (apply_changes en l s0) as [[[]|e|m] s1]; cbn [snd] in E1;
    [|intros _; exists P1; by split..].
  pose proof (update_lists_loads (map_to_list pc) s1) as (Hs & Ht & Hu).
  destruct (update_lists (map_to_list pc) s1) as [[[]|e|m] s2]; cbn [snd] in *;
    intros (Hok' & _); (eexists; split; [eapply rtc_r; [exact Hsteps|apply main_load]|done]);
    split; rewrite ?E1; done.
Qed.

End Reload.

(** ** The services of a removed port end *)

(** What is left of a removed TCP service: its loop and handlers, and the call of
    [Serve] if it did not come yet. *)
Definition tcp_left (y : TcpServer.system) : nat :=
  TcpServer.work y + match TcpServer.serves y with [] => 1 | _ => 0 end.

(** Every step is a step closer to the end, there is one until then, and then the
    socket is closed and nothing is counted. *)
Definition tcp_ends (id : nat) (y : TcpServer.system) : Prop :=
  (forall y', tcp_run id y y' -> tcp_left y' < tcp_left y) /\
  (0 < tcp_left y -> exists y', tcp_run id y y') /\
  (tcp_left y = 0 ->
   id ∈ TcpServer.closed (TcpServer.srv y) /\ TcpServer.running (TcpServer.srv y) = 0%Z).

Lemma tcp_drains id y : tcp_stopped id y -> tcp_ends id y.
Proof.
  intros (Hr & Hst & Hsv). pose proof (TcpServer.inv_reachable y Hr) as Hi. unfold tcp_ends, tcp_left.
  split_and!.
  - intros y' [Hs|[Hn ->]].
    + destruct (TcpServer.work_decreases y y' Hi Hst Hs) as (_ & Hw & _).
      destruct Hsv as [(Hn & _)|(pc & Hn & _)].
      * destruct (tcp_internal_idle _ _ Hs Hn) as (_ & _ & _ & ->). rewrite Hn. lia.
      * destruct (tcp_internal_frame _ _ pc Hs Hn) as (_ & _ & pc' & -> & _). rewrite Hn. lia.
    + destruct Hsv as [(_ & Hl & _)|(pc & Hn' & _)]; [|congruence].
      rewrite Hn. unfold TcpServer.work, TcpServer.Serve. rewrite Hl, Hst, Hn. simpl. lia.
  - intros Hw. destruct (TcpServer.serves y) as [|pc ss] eqn:Hn; [eexists; by right|].
    destruct (TcpServer.work_enabled y ltac:(lia)) as (y' & Hs). exists y'. by left.
  - intros Hw. split; [|apply TcpServer.work_done; [done|lia]].
    destruct Hsv as [(Hn & _)|(pc & _ & _ & Hc)]; [|done]. rewrite Hn in Hw. lia.
Qed.

(** What is left of [Serve] on a removed UDP service; then there are the copies. *)
Definition udp_left (z : NatMap.system) : nat :=
  NatMap.serve_work (NatMap.serving z) +
  match NatMap.serving z, NatMap.refused z with None, [] => 1 | _, _ => 0 end.

Definition udp_copies (z : NatMap.system) : nat := NatMap.copy_work (NatMap.conns (NatMap.mem z)).

Lemma holds_work sv : NatMap.holds sv = 0 <-> NatMap.serve_work sv = 0.
Proof. by destruct sv as [[]|]. Qed.

(** A step of [Serve] or of the copies never sets [Serve] back. *)
Lemma udp_left_step id z z' : udp_stopped id z -> udp_run id z z' -> udp_left z' <= udp_left z.
Proof.
  intros (Hr & Hst & _) Hrun. pose proof (NatMap.nat_reachable z Hr) as Hi. unfold udp_left.
  destruct Hrun as [Hs|[(t & Ht & ->)|(Hn & Hrf & ->)]].
  - destruct (NatMap.internal_frame _ _ Hs) as (_ & -> & _ & Hse & _).
    destruct (NatMap.serve_progress z z' Hi Hst Hs) as [->|Hw]; [done|].
    destruct (NatMap.serving z') as [pc'|] eqn:E'; [lia|].
    rewrite (proj1 Hse eq_refl) in Hw. simpl in Hw. lia.
  - done.
  - pose proof (proj2 (NatMap.i_none _ Hi) Hn) as Hc0. unfold NatMap.Serve. rewrite Hc0, Hst, Hn.
    simpl. rewrite Hrf. simpl. lia.
Qed.

Lemma udp_left_enabled id z :
  udp_stopped id z -> 0 < udp_left z -> exists z', udp_run id z z' /\ udp_left z' < udp_left z.
Proof.
  intros (Hr & Hst & _) Hw. pose proof (NatMap.nat_reachable z Hr) as Hi.
  destruct (NatMap.serving z) as [pc|] eqn:Hn.
  - assert (NatMap.holds (NatMap.serving z) <> 0) as Hh.
    { rewrite holds_work. unfold udp_left in Hw. rewrite Hn in *. lia. }
    destruct (NatMap.serve_enabled z Hst Hh) as (z' & Hs & Hlt). exists z'. split; [by left|].
    destruct (NatMap.internal_frame _ _ Hs) as (_ & _ & _ & Hse & _). unfold udp_left.
    destruct (NatMap.serving z') eqn:Hn'; [rewrite Hn in *; lia|].
    by rewrite (proj1 Hse eq_refl) in Hn.
  - assert (NatMap.refused z = []) as Hrf.
    { unfold udp_left in Hw. rewrite Hn in Hw. destruct (NatMap.refused z); [done|simpl in Hw; lia]. }
    exists (NatMap.Serve id z). split; [by right; right|].
    pose proof (proj2 (NatMap.i_none _ Hi) Hn) as Hc0. unfold udp_left, NatMap.Serve.
    rewrite Hc0, Hst, Hn. simpl. rewrite Hrf. simpl. lia.
Qed.

(** Every step is one of the clock or ends a copy sooner, there is one of the
    latter until the last, and then every socket is closed, those of the
    connections once, and nothing is counted. *)
Definition copies_end (id : nat) (z : NatMap.system) : Prop :=
  (forall z', udp_run id z z' ->
     udp_copies z' < udp_copies z \/
     NatMap.conns (NatMap.mem z') = NatMap.conns (NatMap.mem z)) /\
  (0 < udp_copies z -> exists z', udp_run id z z' /\ udp_copies z' < udp_copies z) /\
  (udp_copies z = 0 ->
   id ∈ NatMap.closed (NatMap.svc z) /\ NatMap.running (NatMap.mem z) = 0%Z /\
   forall cn, cn ∈ NatMap.conns (NatMap.mem z) -> NatMap.c_closes cn = 1).

(** [Serve] is never set back, has a step towards its end until it is over, and
    then the copies end. *)
Definition udp_ends (id : nat) (z : NatMap.system) : Prop :=
  (forall z', udp_run id z z' -> udp_left z' <= udp_left z) /\
  (0 < udp_left z -> exists z', udp_run id z z' /\ udp_left z' < udp_left z) /\
  (udp_left z = 0 -> copies_end id z).

Lemma udp_copies_drain id z : udp_stopped id z -> udp_left z = 0 -> copies_end id z.
Proof.
  intros (Hr & Hst & Hcl) H0. pose proof (NatMap.nat_reachable z Hr) as Hi.
  assert (NatMap.holds (NatMap.serving z) = 0) as Hh
    by (apply holds_work; unfold udp_left in H0; lia).
  unfold copies_end, udp_copies. split_and!.
  - intros z' [Hs|[(t & Ht & ->)|(Hn & Hrf & ->)]].
    + left. by apply NatMap.copier_progress.
    + by right.
    + unfold udp_left in H0. rewrite Hn, Hrf in H0. simpl in H0. lia.
  - intros Hw. destruct z as [s sv w rf st].
    destruct (NatMap.copier_enabled s sv w rf st Hi Hh Hw) as (z' & Hs).
    exists z'. split; [by left|by apply NatMap.copier_progress].
  - intros Hw. pose proof (NatMap.i_mem _ Hi) as Hm.
    assert (forall cn, cn ∈ NatMap.conns (NatMap.mem z) -> NatMap.c_pc cn = NatMap.CopierDone)
      as Hdone.
    { intros cn (c & Hc)%list_elem_of_lookup_1.
      pose proof (sum_by_lookup (fun cn => NatMap.copier_work (NatMap.c_pc cn)) _ _ _ Hc) as Hle.
      unfold NatMap.copy_work in Hw. rewrite Hw in Hle. cbv beta in Hle.
      destruct (NatMap.c_pc cn); simpl in Hle; try done; lia. }
    split_and!.
    + destruct Hcl as [(Hn & Hrf & _)|[? _]]; [|done]. unfold udp_left in H0.
      rewrite Hn, Hrf in H0. simpl in H0. lia.
    + rewrite (NatMap.m_running _ _ _ Hm), Hh.
      assert (NatMap.copiers (NatMap.conns (NatMap.mem z)) <=
        NatMap.copy_work (NatMap.conns (NatMap.mem z))) as Hle; [|lia].
      apply sum_by_le. intros cn. destruct (NatMap.c_pc cn); simpl; lia.
    + intros cn Hcn. pose proof Hcn as (c & Hc)%list_elem_of_lookup_1.
      apply (NatMap.ok_closed _ _ _ _ (NatMap.m_conn _ _ _ Hm c cn Hc)). right. by apply Hdone.
Qed.

(** ** The theorem *)

Definition initial_proc : proc := MkProc new_server ∅ ∅.

Lemma proc_reachable P : rtc proc_step initial_proc P -> proc_ok P.
Proof.
  assert (proc_ok initial_proc) as Hok.
  { split; [apply new_server_ok|split|split]; try done; by intros id (p & port & Hp & _). }
  intros Hr. induction Hr as [|P1 P2 P3 Hs _ IH]; [done|]. apply IH. by eapply proc_step_ok.
Qed.

Section Properties.
Context `{CryptoLaws}.

(** C16: the process.  In every state it can reach, whatever the reloads, what the
    system refuses and how the main loop and the goroutines of all services
    interleave: a port that is served has both its services, neither stopped,
    on their own open sockets, their loops not ended; a service of a port that
    was removed, or replaced, is stopped and ends: each of its steps leaves
    less to do, or in the case of UDP is one of the clock or of a copy while
    [Serve] finishes; until the end it has a step that does, and at the end its
    socket is closed and no goroutine is left; and a reload is made of such
    steps, so all of this holds in the middle of one. *)
Theorem process_lifecycle (P : proc) :
  rtc proc_step initial_proc P ->
  (forall p port, ports (p_server P) !! p = Some port ->
     exists y z, p_tcp P !! tcpService port = Some y /\ tcp_serving (tcpService port) y /\
       p_udp P !! udpService port = Some z /\ udp_serving (udpService port) z /\
       ~ NatMap.leaving (NatMap.serving z)) /\
  (forall id y, p_tcp P !! id = Some y -> ~ served tcpService (p_server P) id -> tcp_ends id y) /\
  (forall id z, p_udp P !! id = Some z -> ~ served udpService (p_server P) id -> udp_ends id z) /\
  (forall en users, ordered en ->
     exists P', rtc proc_step P P' /\ p_server P' = snd (doRun en users (p_server P))).
Proof.
  intros [Hok Ht Hu]%proc_reachable. split_and!.
  - intros p port Hp.
    destruct (sk_served _ _ _ Ht (tcpService port)) as (y & Hy & Hys); [by exists p, port|].
    destruct (sk_served _ _ _ Hu (udpService port)) as (z & Hz & Hzs); [by exists p, port|].
    exists y, z. split_and!; [done..|]. destruct Hzs as (Hr & Hst & _).
    intros Hl%(NatMap.i_leaving _ (NatMap.nat_reachable z Hr)). congruence.
  - intros id y Hy Hid. apply tcp_drains. by apply (sk_others _ _ _ Ht id y).
  - intros id z Hz Hid. pose proof (sk_others _ _ _ Hu id z Hz Hid) as Hst.
    split_and!; [intros z'; by apply udp_left_step|by apply udp_left_enabled|
      by apply udp_copies_drain].
  - intros en users Hord. by apply doRun_steps.
Qed.

End Properties.

(** ** The theorem at a concrete run

    A port is started, the accept loop begins, and the port is removed before
    the packet loop does. *)

Definition ex_started : proc := go_start ex_env 9002 initial_proc.

Definition ex_accepting : TcpServer.system :=
  TcpServer.MkSystem (snd (TcpServer.Serve 0 (TcpServer.srv TcpServer.initial)))
    [fst (TcpServer.Serve 0 (TcpServer.srv TcpServer.initial))] 0 [].

Definition ex_removed : proc :=
  go_remove ex_env 9002
    (MkProc (p_server ex_started) (<[0 := ex_accepting]> (p_tcp ex_started)) (p_udp ex_started)).

Lemma ex_removed_reach : rtc proc_step initial_proc ex_removed.
Proof.
  eapply rtc_l; [apply (main_start ex_env 9002); reflexivity|]. fold ex_started.
  eapply rtc_l; [apply (run_tcp ex_started (<[0 := ex_accepting]> (p_tcp ex_started)))|].
  { apply (run_one 0 TcpServer.initial); [reflexivity|]. right. split; reflexivity. }
  apply rtc_once, main_remove.
Qed.

Lemma process_lifecycle_witness :
  exists y z, p_tcp ex_removed !! 0 = Some y /\ tcp_left y = 1 /\ tcp_ends 0 y /\
    p_udp ex_removed !! 1 = Some z /\ udp_left z = 1 /\ udp_ends 1 z.
Proof.
  destruct (process_lifecycle ex_removed ex_removed_reach) as (_ & Ht & Hu & _).
  assert (ports (p_server ex_removed) = ∅) as Hp by (vm_compute; reflexivity).
  assert (forall service id, ~ served service (p_server ex_removed) id) as Hns.
  { intros service id (p & port & Hpo & _). rewrite Hp, lookup_empty in Hpo. discriminate Hpo. }
  destruct (p_tcp ex_removed !! 0) as [y|] eqn:Ey; [|discriminate Ey].
  destruct (p_udp ex_removed !! 1) as [z|] eqn:Ez; [|discriminate Ez].
  exists y, z. split_and!; [reflexivity| | |reflexivity| |].
  - assert (tcp_left <$> p_tcp ex_removed !! 0 = Some 1) as Hl by (vm_compute; reflexivity).
    rewrite Ey in Hl. injection Hl as Hl. exact Hl.
  - apply (Ht 0 y Ey (Hns _ _)).
  - assert (udp_left <$> p_udp ex_removed !! 1 = Some 1) as Hl by (vm_compute; reflexivity).
    rewrite Ez in Hl. injection Hl as Hl. exact Hl.
  - apply (Hu 1 z Ez (Hns _ _)).
Defined.
