(* ===== verification/Panel.v ===== *)
(** * What goes over the wire to the panel and to the database

    The connection of [NewDatabase] and the two queries of [GetUsers], the body
    of a report ([Gencode] and base64), the URLs of [api/api.go], and a tick of
    [RepoSys].  The database driver, gzip's compressor and the JSON encoder are
    parameters; base64 is that of [encoding/base64]. *)
From stdpp Require Import pretty.
From S2P Require Import Prelude GoIO Cipher ToyCrypto Salt CipherList Api Device Server Startup History.

Local Open Scope Z_scope.

(** ** [base64.StdEncoding] *)

Definition encodeStd : bytes :=
  string_bytes "ABCDEFGHIJKLMNOPQRSTUVWXYZabcdefghijklmnopqrstuvwxyz0123456789+/".

Definition padChar : byte := byte_of_Z 61.

(** The character of a 6-bit value. *)
Definition enc (v : Z) : byte := nth (Z.to_nat (v mod 64)) encodeStd padChar.

Fixpoint EncodeToString (src : bytes) : bytes :=
  match src with
  | [] => []
  | [a] =>
    let v := Z.shiftl (byte_to_Z a) 16 in
    [enc (Z.shiftr v 18); enc (Z.shiftr v 12); padChar; padChar]
  | [a; b] =>
    let v := Z.lor (Z.shiftl (byte_to_Z a) 16) (Z.shiftl (byte_to_Z b) 8) in
    [enc (Z.shiftr v 18); enc (Z.shiftr v 12); enc (Z.shiftr v 6); padChar]
  | a :: b :: c :: src =>
    let v := Z.lor (Z.lor (Z.shiftl (byte_to_Z a) 16) (Z.shiftl (byte_to_Z b) 8)) (byte_to_Z c) in
    [enc (Z.shiftr v 18); enc (Z.shiftr v 12); enc (Z.shiftr v 6); enc v] ++ EncodeToString src
  end.

(** The reference decoder: four characters are the 24 bits of three bytes. *)
Fixpoint index_of (c : byte) (l : bytes) : option Z :=
  match l with
  | [] => None
  | x :: l => if decide (x = c) then Some 0 else Z.succ <$> index_of c l
  end.

Definition dec (c : byte) : option Z := index_of c encodeStd.

Fixpoint DecodeString (s : bytes) : option bytes :=
  match s with
  | [] => Some []
  | x :: y :: z :: w :: s =>
    i ← dec x; j ← dec y;
    match dec z, dec w with
    | Some k, Some l =>
      let v := i * 2 ^ 18 + j * 2 ^ 12 + k * 2 ^ 6 + l in
      rest ← DecodeString s;
      Some ([byte_of_Z (v / 2 ^ 16); byte_of_Z (v / 2 ^ 8); byte_of_Z v] ++ rest)
    | Some k, None =>
      if decide (w = padChar /\ s = [])
      then let v := i * 2 ^ 18 + j * 2 ^ 12 + k * 2 ^ 6 in
           Some [byte_of_Z (v / 2 ^ 16); byte_of_Z (v / 2 ^ 8)]
      else None
    | None, _ =>
      if decide (z = padChar /\ w = padChar /\ s = [])
      then let v := i * 2 ^ 18 + j * 2 ^ 12 in Some [byte_of_Z (v / 2 ^ 16)]
      else None
    end
  | _ => None
  end.

Example EncodeToString_examples :
  EncodeToString (string_bytes "light work.") = string_bytes "bGlnaHQgd29yay4=" /\
  EncodeToString (string_bytes "light wor") = string_bytes "bGlnaHQgd29y" /\
  EncodeToString (string_bytes "light wo") = string_bytes "bGlnaHQgd28=" /\
  EncodeToString (string_bytes "light w") = string_bytes "bGlnaHQgdw==".
Proof. vm_compute. done. Qed.

(** *** Lemmas *)

(** Disjoint bits: the disjunction is a sum. *)
Lemma lor_shiftl_add n x y : 0 <= n -> 0 <= y < 2 ^ n -> Z.lor (Z.shiftl x n) y = x * 2 ^ n + y.
Proof.
  intros Hn Hy. rewrite <- Z.shiftl_mul_pow2 by done.
  assert (Z.land (Z.shiftl x n) y = 0) as Hz.
  { apply Z.bits_inj'. intros i Hi. rewrite Z.land_spec, Z.shiftl_spec, Z.testbit_0_l by done.
    destruct (decide (i < n)) as [Hlt|Hge].
    - by rewrite (Z.testbit_neg_r _ (i - n)) by lia.
    - destruct (decide (y = 0)) as [->|Hne]; [by rewrite Z.testbit_0_l, andb_false_r|].
      rewrite (Z.bits_above_log2 y i), andb_false_r; [done|lia|].
      apply Z.log2_lt_pow2; [lia|]. eapply Z.lt_le_trans; [apply Hy|]. apply Z.pow_le_mono_r; lia. }
  pose proof (Z.add_lor_land (Z.shiftl x n) y). lia.
Qed.

Lemma dec_enc v : dec (enc v) = Some (v mod 64).
Proof.
  assert (forallb (fun n => bool_decide (dec (nth n encodeStd padChar) = Some (Z.of_nat n)))
    (seq 0 64) = true) as Hall by (vm_compute; done).
  rewrite forallb_forall in Hall. unfold enc.
  pose proof (Z.mod_pos_bound v 64 ltac:(lia)). specialize (Hall (Z.to_nat (v mod 64))).
  rewrite in_seq, bool_decide_eq_true, Z2Nat.id in Hall by lia. apply Hall. lia.
Qed.

Lemma dec_pad : dec padChar = None.
Proof. vm_compute. done. Qed.

Lemma byte_of_Z_eq z b : z mod 256 = byte_to_Z b -> byte_of_Z z = b.
Proof. intros E. apply (inj byte_to_Z). by rewrite byte_to_of_Z. Qed.

(** Induction over groups of three. *)
Lemma list_ind3 {A} (P : list A -> Prop) :
  P [] -> (forall a, P [a]) -> (forall a b, P [a; b]) ->
  (forall a b c l, P l -> P (a :: b :: c :: l)) -> forall l, P l.
Proof.
  intros H0' H1 H2 H3 l. remember (length l) as n eqn:Hn. revert l Hn.
  induction n as [n IH] using lt_wf_ind. intros [|a [|b [|c l]]] Hn; [done|done|done|].
  apply H3. apply (IH (length l)); [simpl in Hn; lia|done].
Qed.

(** What is encoded is decoded. *)
Lemma Decode_Encode src : DecodeString (EncodeToString src) = Some src.
Proof.
  assert (forall b, 0 <= byte_to_Z b < 256) as Hb by apply byte_to_Z_range.
  induction src as [|a|a b|a b c src IH] using list_ind3; [done|..];
    cbn [EncodeToString DecodeString app];
    rewrite !dec_enc; cbn [mbind option_bind]; rewrite ?dec_pad.
  - rewrite decide_True by done. do 2 f_equal. apply byte_of_Z_eq.
    rewrite !Z.shiftr_div_pow2, Z.shiftl_mul_pow2 by lia. specialize (Hb a).
    Z.div_mod_to_equations; lia.
  - rewrite decide_True by done. specialize (Hb a) as Ha. specialize (Hb b).
    rewrite !Z.shiftr_div_pow2, (Z.shiftl_mul_pow2 (byte_to_Z b)), lor_shiftl_add by lia.
    repeat f_equal; apply byte_of_Z_eq; Z.div_mod_to_equations; lia.
  - rewrite IH. cbn [mbind option_bind]. pose proof (Hb a). pose proof (Hb b). specialize (Hb c).
    replace (Z.lor (Z.lor (Z.shiftl (byte_to_Z a) 16) (Z.shiftl (byte_to_Z b) 8)) (byte_to_Z c))
      with (byte_to_Z a * 2 ^ 16 + byte_to_Z b * 2 ^ 8 + byte_to_Z c).
    + rewrite !Z.shiftr_div_pow2 by lia. do 2 f_equal; [|f_equal; [|f_equal]];
        apply byte_of_Z_eq; Z.div_mod_to_equations; lia.
    + rewrite <- Z.lor_assoc, (lor_shiftl_add 8), lor_shiftl_add by lia. lia.
Qed.

(** ** The database *)

(** The driver: opening and pinging a database, the rows of a query with whether
    an error ended them, and what [Scan] finds in a row for the variables of
    each query. *)
Class SqlOps := {
  DB : Type;
  Row : Type;
  Open : string -> string -> DB + error;
  Ping : DB -> option error;
  DB_Query : DB -> string -> list Row * bool + error;
  ScanKeys : Row -> option (Z * Keys);
  ScanKey2 : Row -> option Key2;
}.

Section Database.
Context `{SqlOps}.

Definition NewDatabase (username password dbname : string) : DB + error :=
  let dsn := username +:+ ":" +:+ password +:+ "@tcp(" +:+
    "slave.czw4eey0m0hj.ca-central-1.rds.amazonaws.com" +:+ ":" +:+ pretty 3306 +:+ ")/" +:+
    dbname in
  match Open "mysql" dsn with
  | inr err => inr err
  | inl db => match Ping db with Some err => inr err | None => inl db end
  end.

Definition Query (db : DB) (query : string) : list Row * bool + error :=
  match DB_Query db query with
  | inr err => inr err
  | inl rows => inl rows
  end.

Definition query1 (NodeID : Z) : string :=
  "SELECT group_id,port as conn_port,cipher FROM server_shadowsocks where id =" +:+ pretty NodeID.

Definition query2 (groupid : Z) : string :=
  "SELECT nid,wg_key,conn_port as port FROM m_user_ext where sup_id != 0 and sup_id >=" +:+
  pretty groupid.

(** The rows of a query as [Scan] reads them. *)
Definition scan_rows {A} (scan : Row -> option A) (res : list Row * bool + error) :
    option (rows A) :=
  match res with
  | inr _ => None
  | inl (rs, cut) => Some (MkRows (scan <$> rs) cut)
  end.

(** [GetUsers] with its database; [password] is the constant of the file. *)
Definition GetUsers_db (password : string) (NodeID : Z) : option (list Key) :=
  match NewDatabase "admin" password "vpnplan" with
  | inr _ => None
  | inl db =>
    GetUsers true (fun n => scan_rows ScanKeys (Query db (query1 n)))
      (fun g => scan_rows ScanKey2 (Query db (query2 g))) NodeID
  end.

End Database.

(** ** The body of a report *)

(** The compressor: the errors of [NewWriterLevel], [Write] and [Close], and
    what they left in the buffer. *)
Class GzipOps := {
  NewWriterLevel : Z -> option error;
  gz_Write : bytes -> option error;
  gz_Close : bytes -> option error;
  gz_Bytes : bytes -> bytes;
}.

(** [json.Marshal] on the records of a report. *)
Class MarshalOps := { Marshal : list UserTraffic -> bytes }.

(** What is compressed is decompressed; a buffer takes everything. *)
Class GzipLaws `{GzipOps, PanelOps} : Prop := {
  NewWriterLevel_9 : NewWriterLevel 9 = None;
  gz_Write_ok b : gz_Write b = None;
  gz_Close_ok b : gz_Close b = None;
  gunzip_gz b : gunzip (gz_Bytes b) = Some b;
}.

Section Reports.
Context `{GzipOps} `{PanelOps} `{MarshalOps}.

Definition Gencode (b : bytes) : bytes :=
  match NewWriterLevel 9 with
  | Some _ => []
  | None =>
    match gz_Write b with
    | Some _ => []
    | None => match gz_Close b with Some _ => [] | None => gz_Bytes b end
    end
  end.

(** The parameter [q] of a report. *)
Definition report_q (dat : bytes) : bytes := EncodeToString (Gencode dat).

Definition assembleURL (c : APIClient) (path : string) : string := APIHost c +:+ path.
Definition assembleLogURL (c : APIClient) (path : string) : string := LogHost c +:+ path.

Definition parseLogResponse (c : APIClient) (path : string) (res : (Z * bytes) + error) :
    outcome Json :=
  parseResponse (assembleLogURL c path) res.

(** [ReportUserTraffic] down to what is posted: the node and [q]. *)
Definition post_traffic (c : APIClient) (post : Z -> bytes -> (Z * bytes) + error)
    (userTraffic : list UserTraffic) : list UserTraffic * outcome unit :=
  ReportUserTraffic (assembleURL c "/api/SsRepoTice")
    (fun data => post (NodeID c) (report_q (Marshal data))) userTraffic.

(** A tick of [RepoSys]: its error is only logged; a panic ends the process. *)
Definition RepoSys_tick {F} (m : machine F) (st : netStats)
    (post : DeviceInfo F -> (Z * bytes) + error) (c : APIClient) : outcome netStats :=
  match ReportSys m st post c with
  | (Panic msg, _) => Panic msg
  | (_, st) => Ret st
  end.

Lemma Gencode_GenDecode `{!GzipLaws} b : GenDecode (Gencode b) = Ret b.
Proof. unfold Gencode, GenDecode. by rewrite NewWriterLevel_9, gz_Write_ok, gz_Close_ok, gunzip_gz. Qed.

(** C28: what the panel reads.  A report posts, for the node, one parameter that
    the panel decodes, whatever the records, to the JSON of the report; and
    where that JSON means the report, the panel has one record for each user in
    the queue and no other, in some order, with the user's totals in [int64]
    arithmetic.  The answer's error is the error of the call. *)
Theorem panel_reads_report `{!GzipLaws} (Unmarshal : bytes -> option (list UserTraffic))
    (c : APIClient) (post : Z -> bytes -> (Z * bytes) + error) (l : list UserTraffic) :
  Forall in_range l -> Unmarshal (Marshal (report_data l)) = Some (report_data l) ->
  exists q z dat data,
    snd (post_traffic c post l) =
      (_ ← parseResponse (APIHost c +:+ "/api/SsRepoTice") (post (NodeID c) q); Ret tt) /\
    DecodeString q = Some z /\ GenDecode z = Ret dat /\ Unmarshal dat = Some data /\
    NoDup (UID <$> data) /\
    forall t, t ∈ data <->
      UID t ∈ UID <$> l /\ tU t = int64 (total tU (UID t) l) /\ tD t = int64 (total tD (UID t) l).
Proof.
  intros Hl HU. destruct (traffic_report l (report_data l) Hl) as [Hnd Ht]; [done|].
  exists (report_q (Marshal (report_data l))), (Gencode (Marshal (report_data l))),
    (Marshal (report_data l)), (report_data l).
  split_and!; [done|apply Decode_Encode|apply Gencode_GenDecode|done|done|exact Ht].
Qed.

End Reports.

(** ** The theorem at a concrete report

    A compressor that keeps the bytes as they are, and records as lines. *)

#[export] Instance toy_gzip : GzipOps := {
  NewWriterLevel _ := None;
  gz_Write _ := None;
  gz_Close _ := None;
  gz_Bytes b := b;
}.

#[export] Instance toy_gzip_laws : GzipLaws.
Proof. by split. Qed.

#[export] Instance toy_marshal : MarshalOps := {
  Marshal l := l ≫= (fun t => string_bytes (UID t +:+ " " +:+ pretty (tU t) +:+ " " +:+ pretty (tD t) +:+ ";"));
}.

Definition ex_unmarshal (b : bytes) : option (list UserTraffic) :=
  if decide (b = Marshal (report_data ex_traffic)) then Some (report_data ex_traffic) else None.

Lemma panel_reads_report_witness :
  exists q z dat data, DecodeString q = Some z /\ GenDecode z = Ret dat /\
    ex_unmarshal dat = Some data /\ MkTraffic "alice" 15 7 ∈ data.
Proof.
  destruct (panel_reads_report ex_unmarshal ex_api (fun _ _ => inl (200, [])) ex_traffic
    ex_traffic_in_range) as (q & z & dat & data & _ & Hq & Hz & Hd & _ & Hall).
  - unfold ex_unmarshal. by rewrite decide_True.
  - exists q, z, dat, data. split_and!; [exact Hq|exact Hz|exact Hd|].
    apply Hall. split_and!; [simpl; left|reflexivity|reflexivity].
Defined.
