(* ===== verification/Deployment.v ===== *)
(** * The deployed server

    [main] and [startPort] of [cmd/quick_ss/main.go] put the parts together: the
    services of a port are made from its cipher list, a replay cache of
    capacity 0 that all ports share, and the timeouts of the file.  A user of
    the panel gets through to a public target, over TCP and over UDP. *)
From S2P Require Import Prelude GoIO Cipher ToyCrypto Salt Packet PromMetrics Tuning Wire SlicePool Writer.
From S2P Require Import StreamReader Stream Replay PrivateNet CipherList Metrics.
From S2P Require Import KeyFinding Tcp TcpSpec TcpExamples Udp UdpSpec Client Session.
From S2P Require Import UdpSession Api Server Startup History.

Import Writer.

(** ** The constants of [main] and the services of a port *)

Definition version : string := "dev".
Definition tcpReadTimeout : Z := 59 * 10 ^ 9.
Definition defaultNatTimeout : Z := 5 * 60 * 10 ^ 9.
Definition replayHistory : Z := 0.

Definition port_tcpService (ip_String : IP -> string) (port : ssPort)
    (replayCache : ReplayCache) : Tcp.tcpService :=
  NewTCPService ip_String (pcipherList port) (Some replayCache) tcpReadTimeout.

Definition port_udpService (ip_String : IP -> string) (natTimeout : Z) (port : ssPort) :
    Udp.udpService :=
  NewUDPService ip_String natTimeout (pcipherList port).

(** ** [main] *)

Section Main.
Context `{CryptoOps, JsonOps, PromOps} {W : Type} `{ShellOps W} {G : Type}.

(** How the process ends, or what it runs until a signal: the server and the
    metrics it reports to.  [Dead] is a panic or a fatal error of the panel
    client. *)
Inductive process :=
| Tuned (w : W)
| Running (s : SSServer) (m : shadowsocksMetrics)
| Fatal (err : error)
| Dead.

Definition main_config : Config :=
  MkConfig "https://aerodrome.onemelody.cn/" "http://vice.mobileairport.net/" 0
    "fe6fcd397f783b5548c918e6a026bb2d".

(** [youhua] is the flag [-y]; [nowtext] and [w] are what the tuning
    meets, the rest what the metrics and [RunSSServer] meet.  There is no
    country database. *)
Definition main (youhua nowtext : string) (w : W)
    (Register : string -> G -> option error * G) (registerer : G) (now : Z) (en : env)
    (get : (Z * bytes) + error) (post : Z -> option error) (Shuffle : list Z -> list Z)
    (users : Z -> option (list Key)) : process :=
  if bool_decide (youhua <> "n"%string) then Tuned (snd (YouhuaRun nowtext w))
  else
    let api2 := Startup.New main_config now in
    match NewPrometheusShadowsocksMetrics Register None registerer with
    | Ret (m, _) =>
      let m := SetBuildInfo version m in
      match fst (RunSSServer en get post Shuffle users api2) with
      | Started s => Running s m
      | Refused err _ => Fatal err
      | Exited | Crashed _ => Dead
      end
    | _ => Dead
    end.

End Main.

(** ** Lemmas *)

(** The replay cache of the deployment accepts every salt. *)
Lemma deployed_cache_accepts c id salt :
  NewReplayCache replayHistory = Ret c -> Add (Some c) id salt = (true, Some c).
Proof.
  intros E%capacity_New. unfold Add. by rewrite decide_True.
Qed.

(** Run without the flag and with a registry that has none of the metrics, the
    process is exactly what [RunSSServer] makes of it. *)
Lemma main_runs `{CryptoOps, JsonOps, PromOps} {W} `{ShellOps W} (nowtext : string) (w : W)
    (g : gset string) now en get post Shuffle users :
  (forall c, c ∈ collectors -> c ∉ g) ->
  main "n" nowtext w Register g now en get post Shuffle users =
    match fst (RunSSServer en get post Shuffle users (Startup.New main_config now)) with
    | Started s => Running s (SetBuildInfo version (newShadowsocksMetrics None))
    | Refused err _ => Fatal err
    | Exited | Crashed _ => Dead
    end.
Proof.
  intros Hg. unfold main. destruct (NewPrometheus_spec None g Hg) as (g' & -> & _). done.
Qed.

Section Deployment.
Context `{CryptoLaws}.

Lemma entries_wf (ks : list Key) es cl :
  Forall2 entry_for ks es -> order cl = es -> wf_entries cl.
Proof.
  intros Hf Ho. unfold wf_entries. rewrite Ho. clear Ho.
  induction Hf as [|k e ks es (c & HN & ->) _ IH]; constructor; [|done].
  by apply NewCipher_wf in HN.
Qed.

(** A user of the list served has an entry on the user's port. *)
Lemma serves_user (us : list Key) (s : SSServer) (k : Key) :
  serves us s -> k ∈ us ->
  exists port e, ports s !! kPort k = Some port /\ wf_entries (pcipherList port) /\
    e ∈ order (pcipherList port) /\ entry_for k e.
Proof.
  intros (Hp & He & _) Hk.
  destruct (proj2 (Hp (kPort k))) as [port Hport]; [by apply list_elem_of_fmap_2|].
  specialize (He _ _ Hport). assert (k ∈ on_port (kPort k) us) as Hin.
  { unfold on_port. by apply list_elem_of_filter. }
  apply list_elem_of_lookup in Hin as [i Hi].
  destruct (Forall2_lookup_l _ _ _ _ _ He Hi) as (e & Hei & Hek).
  exists port, e. split_and!; [done|by eapply entries_wf|by eapply list_elem_of_lookup_2|done].
Qed.

Lemma entry_for_gen k e : entry_for k e -> SaltGeneratorLaws (server_gen (eSaltGenerator e)).
Proof.
  intros (c & _ & ->). unfold MakeCipherEntry. cbn [eSaltGenerator]. case_decide; apply _.
Qed.

End Deployment.

(** ** A user of the panel *)

Section ProvisionedUser.
Context `{CryptoLaws} {ops : SocksOps} {is_addr : bytes -> Prop} `{!SocksLaws is_addr}.
Context `{!UdpOps} `{JsonOps}.

(** The list the server was last told to serve: that of the start, or that of a
    last poll that did not only name what was remembered. *)
Definition current (users : Z -> option (list Key)) (node : Z) (s0 : SSServer)
    (ps : list (Server.env * list Key)) (U : list Key) : Prop :=
  ps = [] /\ users node = Some U \/
  exists ps' en, ps = ps' ++ [(en, U)] /\ ~ unchanged U (fst (run_polls ps' (make_hash, s0))).

(** What a connection meets at the server [cl], a cipher list: the name in [a]
    leads to the target [t], [tw], at a public address, dialed in sequence; no
    key before [e] opens the stream, and the salt is not of a server. *)
Record arriving {T} `{Reader T} (env : conn_env T) (cl : cipherList) (stream : bytes)
    (client_out : Sink) (e : CipherEntry) (salt a : bytes) (t : T) (tw : Sink)
    (ssalt : bytes) : Prop := {
  ar_first : exists es1 es2,
    search_order cl (remoteIP env) = es1 ++ e :: es2 /\
    Forall (fun x => authenticates (take bytesForKeyFinding stream) x = false) es1;
  ar_client_salt : IsServerSalt (eSaltGenerator e) salt = false;
  ar_sequential str : sequential (RequirePublicIP str) (fst (dialer env (AddrString a))) = true;
  ar_public : exists x, x ∈ fst (dialer env (AddrString a)) /\ at_outcome x = inl (t, tw) /\
    address_status (octets (at_ip x)) = None;
  ar_target_out : reliable tw;
  ar_client_out : written client_out = [] /\ reliable client_out;
  ar_server_salt : exists ent',
    GetSalt (server_gen (eSaltGenerator e)) (zeros (SaltSize (eCipher e)))
      (env_entropy env) = (None, ssalt, ent');
  ar_few : Writer.few (length (rd_bytes t));
}.

(** The services of a port let such a connection through. *)
Lemma arriving_ready {T} `{Reader T} str cache (env : conn_env T) port stream client_out e salt a
    (t : T) tw ssalt k :
  NewReplayCache replayHistory = Ret cache -> wf_entries (pcipherList port) -> entry_for k e ->
  is_addr a ->
  arriving env (pcipherList port) stream client_out e salt a t tw ssalt ->
  ready (is_addr := is_addr) env (port_tcpService str port cache) stream client_out e salt a t tw
    ssalt.
Proof.
  intros Hc Hwf He Ha [Hf Hs Hseq (x & Hx & Ho & Hpub) Ht Hout Hss Hfew].
  split; [done|by eapply entry_for_gen|done|done|done| | |done|done|done|done].
  - unfold port_tcpService, NewTCPService. cbn [Tcp.replayCache].
    by rewrite (deployed_cache_accepts cache _ _ Hc).
  - assert (TcpSpec.accepted (RequirePublicIP str) (fst (dialer env (AddrString a))) (t, tw)) as Hacc.
    { exists x. split_and!; [done| |done]. destruct (public_ip_status str (at_ip x)) as [E _].
      rewrite Hpub in E. by destruct (RequirePublicIP str (at_ip x)). }
    unfold dialTarget. cbn [targetIPValidator port_tcpService NewTCPService].
    by destruct (Dial_loop_sequential _ _ None None _ (Hseq str) Hacc) as [first' ->].
Qed.

(** The list the server serves. *)
Lemma current_served en0 get post Shuffle users (api api' : APIClient) s0 ps U :
  RunSSServer en0 get post Shuffle users api = (Started s0, api') ->
  ordered en0 -> Forall (fun '(en, _) => ordered en) ps ->
  granting en0 -> Forall (fun '(en, us) => good_poll en us) ps ->
  current users (NodeID api') s0 ps U -> serves U (snd (run_polls ps (make_hash, s0))).
Proof.
  intros Hrun Hord0 Hord Hg0 Hgood Hcur.
  destruct (started _ _ _ _ _ _ _ _ Hrun) as (us0 & Hus0 & Hdo).
  destruct (doRun_granted en0 us0 new_server new_server_ok new_server_tight Hord0 Hg0)
    as (s0' & E & Hok0 & Ht0 & Hs0); [apply (doRun_valid en0 us0 new_server); by rewrite Hdo|].
  rewrite Hdo in E. injection E as <-.
  destruct Hcur as [[-> HU]|(ps' & en & -> & Hnew)].
  { rewrite Hus0 in HU. by injection HU as ->. }
  apply Forall_app in Hord as [Hord' [Ho _]%Forall_cons].
  apply Forall_app in Hgood as [Hgood' [[Hg Hv] _]%Forall_cons].
  destruct (polls_safe ps' make_hash s0 Hok0 hashed_make Hord') as [Hok' Hh'].
  destruct (polls_granted ps' make_hash s0 us0 Hok0 Ht0 hashed_make Hs0 Hord' Hgood') as (Ht' & _).
  rewrite run_polls_app. destruct (run_polls ps' (make_hash, s0)) as [hash s]. cbn [fst snd] in *.
  pose proof (poll_granted en U hash s Hok' Ht' Hh' Ho Hg Hv) as Hp.
  unfold run_polls. cbn [foldl]. destruct (CheckUser_poll en U (hash, s)) as [hash' s'].
  by destruct Hp as [_ [[? _]|[_ ?]]].
Qed.

(** C1: a user of the panel gets through.  Once the server started and polled
    the panel any number of times while the system refused nothing, every user
    of the list it was last told to serve has a port and an entry there, and
    a client with that user's cipher and secret, whatever it writes and in
    whatever calls, has it delivered to a public target and reads what the
    target answers, through the services the server made for that port. *)
Theorem provisioned_user {R C T} `{ReaderLaws R, ReaderLaws C, ReaderLaws T}
    (en0 : Server.env) (get : (Z * bytes) + error) post Shuffle
    (users : Z -> option (list Key)) (api api' : APIClient) (s0 : SSServer)
    (ps : list (Server.env * list Key)) (U : list Key) (k : Key) (str : IP -> string)
    (cache : ReplayCache) :
  RunSSServer en0 get post Shuffle users api = (Started s0, api') ->
  ordered en0 -> Forall (fun '(en, _) => ordered en) ps ->
  granting en0 -> Forall (fun '(en, us) => good_poll en us) ps ->
  current users (NodeID api') s0 ps U -> k ∈ U -> NewReplayCache replayHistory = Ret cache ->
  exists port e, ports (snd (run_polls ps (make_hash, s0))) !! kPort k = Some port /\
    e ∈ order (pcipherList port) /\ ID e = kID k /\
    forall (d : streamDialer R) remoteAddr a os w (r : R) ent salt (env : conn_env T)
      (client : C) client_out (t : T) tw ssalt,
      dialing d remoteAddr a w r ent salt -> NewCipher (kCipher k) (kSecret k) = Ret (cipher d) ->
      is_addr a -> few (length (a ++ concat (payload <$> os))) ->
      carries (kPort k) d remoteAddr os r ent env (port_tcpService str port cache) client client_out
        (fun stream =>
           arriving env (pcipherList port) stream client_out e salt a t tw ssalt) t tw.
Proof.
  intros Hrun Hord0 Hord Hg0 Hgood Hcur Hk Hcache.
  pose proof (current_served _ _ _ _ _ _ _ _ _ _ Hrun Hord0 Hord Hg0 Hgood Hcur) as HU.
  destruct (serves_user U _ k HU Hk) as (port & e & Hport & Hwf & Hin & He).
  exists port, e. split_and!; [done|done|by destruct He as (c & _ & ->)|].
  intros d remoteAddr a os w r ent salt env client client_out t tw ssalt Hd HN Ha Hfew.
  assert (cipher d = eCipher e) as Hcipher.
  { pose proof He as (c & HN' & ->). rewrite HN in HN'. by injection HN'. }
  destruct (dialing_carries (is_addr := is_addr) (kPort k) d remoteAddr a os w r ent salt env
    (port_tcpService str port cache) client client_out e t tw ssalt Hd Hcipher Hfew)
    as (conn & E & Hrun').
  exists conn. split; [done|]. intros Hb Hend Harr. apply Hrun'; [done|done|].
  by apply (arriving_ready str cache env port _ _ _ _ _ _ _ _ k).
Qed.

(** The service of a port opens a packet with the entry [e] when no other entry of
    the port opens it, in whatever order the marks of packets and connections
    left the list. *)
Lemma keyed_only (s : Udp.udpService) (port : ssPort) nm clientAddr pkt e b :
  order (uciphers s) ≡ₚ order (pcipherList port) -> e ∈ order (pcipherList port) ->
  nm !! UDPAddrString clientAddr = None ->
  Unpack (Some serverUDPBufferSize) pkt (eCipher e) = Ret b ->
  (forall x p, x ∈ order (pcipherList port) ->
     Unpack (Some serverUDPBufferSize) pkt (eCipher x) = Ret p -> x = e) ->
  keyed s nm clientAddr pkt (eCipher e) (ID e).
Proof.
  intros Hp He Hnone Hopen Honly. unfold keyed. rewrite Hnone.
  set (es := search_order (uciphers s) (ua_ip clientAddr)).
  assert (forall x, x ∈ es <-> x ∈ order (pcipherList port)) as Hes
    by (intros x; unfold es, search_order; by rewrite kept_both, Hp).
  pose proof (first_unpack_spec serverUDPBufferSize pkt es) as Hf.
  destruct (first_unpack serverUDPBufferSize pkt es) as [[p x]|].
  - destruct Hf as (es1 & es2 & Eo & HU & Hno).
    assert (x = e) as ->.
    { apply (Honly x p); [|done]. apply Hes. rewrite Eo. apply elem_of_app. right. left. }
    by exists es1, e, es2.
  - rewrite Forall_forall in Hf. by destruct (Hf e (proj2 (Hes e) He) b).
Qed.

Lemma public_allowed str natTimeout port (x : IP) :
  address_status (octets x) = None ->
  utargetIPValidator (port_udpService str natTimeout port) x = None.
Proof.
  intros Hx. change (RequirePublicIP str x = None).
  destruct (public_ip_status str x) as [E _]. rewrite Hx in E. by destruct (RequirePublicIP str x).
Qed.

(** C3: a user of the panel gets through over UDP.  In the same state of the
    server, whatever marks reordered the port's list and whatever connections
    other clients have, a datagram the user sends to the name of a public
    endpoint is forwarded there, once and as it was, and accounted to the user
    if no other entry of the port opens its packet; and what the endpoint
    answers on that connection reaches the user's application. *)
Theorem provisioned_user_udp `{!UdpLaws} (en0 : Server.env) (get : (Z * bytes) + error) post
    Shuffle (users : Z -> option (list Key)) (api api' : APIClient) (s0 : SSServer)
    (ps : list (Server.env * list Key)) (U : list Key) (k : Key) (str : IP -> string) :
  RunSSServer en0 get post Shuffle users api = (Started s0, api') ->
  ordered en0 -> Forall (fun '(en, _) => ordered en) ps ->
  granting en0 -> Forall (fun '(en, us) => good_poll en us) ps ->
  current users (NodeID api') s0 ps U -> k ∈ U ->
  exists port e, ports (snd (run_polls ps (make_hash, s0))) !! kPort k = Some port /\
    e ∈ order (pcipherList port) /\ ID e = kID k /\
    forall (c : Cipher) cipherBuf b u send ent env (cl : cipherList) nm clientAddr dst,
      let s := MkUdpService defaultNatTimeout cl
        (utargetIPValidator (port_udpService str defaultNatTimeout port)) in
      order cl ≡ₚ order (pcipherList port) -> NewCipher (kCipher k) (kSecret k) = Ret c ->
      valid_endpoint u -> length cipherBuf = clientUDPBufferSize -> SaltSize c <= length ent ->
      SaltSize c + maxAddrLen + length b + TagSize c <= clientUDPBufferSize ->
      address_status (octets (ua_ip dst)) = None -> listenPacket env = None ->
      exists pkt a, ParseAddr (UDPAddrString u) = Some a /\
        packetConn_WriteTo c cipherBuf b (UDPAddrString u) send ent =
          (Ret (length b, snd (send pkt)), Some pkt) /\
        (resolve env (AddrString a) = inl dst -> nm !! UDPAddrString clientAddr = None ->
         (forall x p, x ∈ order (pcipherList port) ->
            Unpack (Some serverUDPBufferSize) pkt (eCipher x) = Ret p -> x = e) ->
         round_trip c env s nm clientAddr (kID k) pkt b dst).
Proof.
  intros Hrun Hord0 Hord Hg0 Hgood Hcur Hk.
  pose proof (current_served _ _ _ _ _ _ _ _ _ _ Hrun Hord0 Hord Hg0 Hgood Hcur) as HU.
  destruct (serves_user U _ k HU Hk) as (port & e & Hport & Hwf & Hin & He).
  assert (ID e = kID k) as HID by by destruct He as (c & _ & ->).
  exists port, e. split_and!; [done..|].
  intros c cipherBuf b u send ent env cl nm clientAddr dst s Hp HN Hu Hbuf Hent Hlen Hpub Hlis.
  assert (eCipher e = c) as <-.
  { destruct He as (c' & HN' & ->). rewrite HN in HN'. by injection HN'. }
  destruct (datagram_round_trip (eCipher e) cipherBuf b u send ent env s nm clientAddr dst (kID k))
    as (pkt & a & Ha & E & Hopen & Hround); [by eapply NewCipher_wf|done..| |by apply public_allowed|done|].
  - unfold wf_entries, s. cbn [uciphers]. by rewrite Hp.
  - exists pkt, a. split_and!; [done..|]. intros Hres Hnone Honly. apply Hround; [done|].
    rewrite <- HID. by apply (keyed_only s port _ _ _ e (a ++ b)).
Qed.

End ProvisionedUser.

(** ** The theorem at a concrete deployment

    The panel's users change once, to a single user, whose client is that of
    [Session]'s example. *)

Definition ex_user : Key := MkKey "carol" 9002 "chacha20-ietf-poly1305" "carol".

Definition ex_polls : list (Server.env * list Key) :=
  [(Server.ex_env, ex_users); (Server.ex_env, [ex_user])].

Definition ex_idle : Conn := MkConn [] EOF false.

(** The only entry of a list comes first, wherever the client connects from. *)
Lemma search_order_one cl ip e : order cl = [e] -> search_order cl ip = [e].
Proof.
  intros Ho. apply Permutation_singleton_r. unfold search_order. by rewrite kept_both, Ho.
Qed.

(** What a poll remembers. *)
Lemma poll_hash `{CryptoOps} en us st :
  fst (CheckUser_poll en us st) = snd (check_users us (fst st)).
Proof. unfold CheckUser_poll. destruct st as [h s]. cbn [fst]. by destruct (check_users us h). Qed.

Lemma ex_new_cipher :
  NewCipher (kCipher ex_user) (kSecret ex_user) =
    Ret (cipher (ex_tunnel_dialer ex_idle)).
Proof. reflexivity. Qed.

Lemma ex_user_entry e : entry_for ex_user e -> e = MakeCipherEntry (loc e) "carol"
  (toy_cipher_of "chacha20-ietf-poly1305" "carol") "carol".
Proof.
  intros (c & HN & He). rewrite ex_new_cipher in HN. injection HN as <-. exact He.
Qed.

(** What the example's target and network are, for that entry wherever it is in
    memory. *)
Lemma ex_arriving n cl : order cl = [MakeCipherEntry n "carol"
    (toy_cipher_of "chacha20-ietf-poly1305" "carol") "carol"] ->
  arriving TcpExamples.ex_env cl (rd_bytes ex_tunnel_client) ex_sink
    (MakeCipherEntry n "carol" (toy_cipher_of "chacha20-ietf-poly1305" "carol") "carol")
    ex_tunnel_salt ex_addr ex_answer ex_sink ex_server_salt.
Proof.
  intros Ho. split.
  - exists [], []. by rewrite (search_order_one _ _ _ Ho).
  - vm_compute. reflexivity.
  - intros str. reflexivity.
  - exists (MkAttempt (Some (octet_list [93; 184; 216; 34]%Z)) (inl (ex_answer, ex_sink))).
    split_and!; [|reflexivity|vm_compute; reflexivity].
    change (fst _) with [MkAttempt (Some (octet_list [10; 0; 0; 1]%Z)) (inr EOF);
      MkAttempt (Some (octet_list [93; 184; 216; 34]%Z)) (inl (ex_answer, ex_sink))].
    right. left.
  - apply Forall_nil_2.
  - split; [reflexivity|apply Forall_nil_2].
  - eexists. vm_compute. reflexivity.
  - vm_compute. reflexivity.
Qed.

(** The example's server: it starts, and its last list is the single user. *)
Definition ex_panel : Z -> option (list Key) :=
  fun n => if decide (n = 7)%Z then Some ex_users else None.

Lemma ex_deployed :
  exists s0 api',
    RunSSServer Server.ex_env (inr (Errorf "no route")) (fun _ => None) id ex_panel ex_api =
      (Started s0, api') /\ fst ex_start = Started s0 /\
    ordered Server.ex_env /\ Forall (fun '(en, _) => ordered en) ex_polls /\
    granting Server.ex_env /\ Forall (fun '(en, us) => good_poll en us) ex_polls /\
    current ex_panel (NodeID api') s0 ex_polls [ex_user].
Proof.
  destruct ex_start as [r api'] eqn:E.
  assert (match r with Started _ => true | _ => false end = true) as Hr.
  { change r with (fst (r, api')). rewrite <- E. vm_compute. reflexivity. }
  destruct r as [s0|err s|m0|m]; [|discriminate Hr..]. unfold ex_start in E.
  assert (granting Server.ex_env /\ ordered Server.ex_env) as [Hg Ho]
    by (split; [apply ex_granting|intros ch; reflexivity]).
  exists s0, api'. split_and!; [exact E|reflexivity|exact Ho| |exact Hg| |].
  - repeat apply Forall_cons_2; [exact Ho..|apply Forall_nil_2].
  - repeat apply Forall_cons_2; [| |apply Forall_nil_2]; (split; [exact Hg|]);
      [apply ex_users_valid|]. apply Forall_singleton. eexists. apply ex_new_cipher.
  - right. exists [(Server.ex_env, ex_users)], Server.ex_env. split; [reflexivity|].
    unfold run_polls. cbn [foldl]. rewrite poll_hash. intros [Hl _].
    vm_compute in Hl. discriminate Hl.
Qed.

(** The port of that user has the user's entry and no other. *)
Lemma ex_port_order s port e :
  serves [ex_user] s -> ports s !! 9002%Z = Some port -> e ∈ order (pcipherList port) ->
  entry_for ex_user e /\ order (pcipherList port) = [e].
Proof.
  intros (_ & Hserves & _) Hport He.
  specialize (Hserves _ _ Hport). apply Forall2_cons_inv_l in Hserves as (e' & l & He' & Hl & Hor).
  apply Forall2_nil_inv_l in Hl as ->. rewrite Hor in He |- *.
  by apply list_elem_of_singleton in He as <-.
Qed.

Lemma provisioned_user_witness :
  exists s0 port h tin tout, fst ex_start = Started s0 /\
    ports (snd (run_polls ex_polls (make_hash, s0))) !! 9002%Z = Some port /\
    handleConnection 9002 TcpExamples.ex_env
      (port_tcpService (fun _ => "") port (MkReplayCache 0 ∅ ∅)) ex_tunnel_client ex_sink = Ret h /\
    h_target h = Some (tin, tout) /\ concat (written tout) = string_bytes "GET /" /\
    status_of (h_error h) = "OK".
Proof.
  destruct ex_deployed as (s0 & api' & E & Es & Ho & Hord & Hg & Hgood & Hcur).
  pose proof (current_served _ _ _ _ _ _ _ _ _ _ E Ho Hord Hg Hgood Hcur) as HU.
  destruct (provisioned_user (is_addr := toy_addr) (R := Conn) (C := Conn) (T := Conn)
    Server.ex_env (inr (Errorf "no route")) (fun _ => None) id
    ex_panel ex_api api' s0 ex_polls [ex_user]
    ex_user (fun _ => "") (MkReplayCache 0 ∅ ∅) E Ho Hord Hg Hgood Hcur)
    as (port & e & Hport & He & _ & Hall).
  - left.
  - reflexivity.
  - destruct (ex_port_order _ _ _ HU Hport He) as [He' Hor].
    rewrite (ex_user_entry e He') in Hor.
    destruct (Hall (ex_tunnel_dialer ex_idle) "example.com" ex_addr ex_calls ex_sink ex_idle
      ex_tunnel_entropy ex_tunnel_salt TcpExamples.ex_env ex_tunnel_client ex_sink ex_answer ex_sink
      ex_server_salt) as (conn & Ed & Hrun).
    + exact (ex_tunnel_dialing ex_idle).
    + apply ex_new_cipher.
    + reflexivity.
    + vm_compute. reflexivity.
    + destruct Hrun as (h & tin & tout & Hh & Ht & Hto & Hst & _).
      * apply (ex_tunnel_sent _ _ Ed).
      * reflexivity.
      * rewrite (ex_user_entry e He'). by apply ex_arriving.
      * exists s0, port, h, tin, tout.
        split_and!; [exact Es|exact Hport|exact Hh|exact Ht|exact Hto|exact Hst].
Defined.

(** The user's query to a name server, and its answer. *)
Lemma provisioned_user_udp_witness :
  exists s0 port s pkt st s' nm' evs cn cn' buf down,
    fst ex_start = Started s0 /\
    ports (snd (run_polls ex_polls (make_hash, s0))) !! 9002%Z = Some port /\
    uciphers s = pcipherList port /\
    handlePacket ex_round s ∅ ex_peer pkt = Ret (st, s', nm', evs) /\
    TargetWrite (string_bytes "query!") ex_dns ∈ evs /\
    nm' !! UDPAddrString ex_peer = Some cn /\
    timedCopy "carol" (take 1 ex_arrivals) cn (expand 3 140) =
      Ret (false, cn', ClientWrite buf :: down) /\
    packetConn_ReadFrom (eCipher ex_entry) 100 (inl buf) =
      Ret (string_bytes "answer", Some (AddrString (default [] (ParseAddr (UDPAddrString ex_dns)))), None).
Proof.
  destruct ex_deployed as (s0 & api' & E & Es & Ho & Hord & Hg & Hgood & Hcur).
  pose proof (current_served _ _ _ _ _ _ _ _ _ _ E Ho Hord Hg Hgood Hcur) as HU.
  destruct (provisioned_user_udp Server.ex_env (inr (Errorf "no route")) (fun _ => None) id
    ex_panel ex_api api' s0 ex_polls [ex_user] ex_user (fun _ => "") E Ho Hord Hg Hgood Hcur)
    as (port & e & Hport & He & _ & Hall); [left|].
  destruct (ex_port_order _ _ _ HU Hport He) as [He' Hor].
  destruct (Hall (eCipher ex_entry) (zeros clientUDPBufferSize) (string_bytes "query!") ex_dns
    (fun b => (length b, None)) (expand 5 40) ex_round (pcipherList port) ∅ ex_peer ex_dns)
    as (pkt & a & Ha & Ew & Hround).
  - reflexivity.
  - apply ex_new_cipher.
  - apply ex_dns_valid.
  - unfold zeros. apply length_replicate.
  - apply Nat.leb_le. vm_compute. reflexivity.
  - apply ex_client_small.
  - vm_compute. reflexivity.
  - reflexivity.
  - destruct Hround as (st & s' & nm' & cn & pre & host & loc & n & t & Eh & _ & _ & Hcn & Hback).
    + reflexivity.
    + apply lookup_empty.
    + intros x p Hx _. rewrite Hor in Hx. by apply list_elem_of_singleton in Hx.
    + destruct (Hback (MkArrival 10 (inl (string_bytes "answer", ex_dns)) (fun b => (length b, None)))
        (string_bytes "answer") ex_dns (expand 3 140))
        as (buf & a' & cn' & evs & Ha' & Et & _ & Hr).
      * reflexivity.
      * apply ex_dns_valid.
      * apply ex_client_small.
      * apply Nat.leb_le. vm_compute. reflexivity.
      * exists s0, port. eexists. exists pkt, st, s', nm'. eexists. exists cn, cn', buf, evs.
        split_and!; [exact Es|exact Hport| |exact Eh| |exact Hcn|exact Et|].
        -- reflexivity.
        -- apply elem_of_app. right. left.
        -- rewrite Ha'. exact (Hr 100).
Defined.
